(* ===== verification/_CoqProject ===== *)
-Q . S2P
Prelude.v
Text.v
Fs.v
Log.v
State.v
Message.v
Persist.v
Codec.v
Node.v
Commit.v
Durability.v
BTree.v
Memtable.v
Wal.v
Engine.v
EngineProps.v
Ring.v
Router.v
Protocol.v
Cluster.v
Tests.v
ClusterProps.v
Transport.v
Server.v
Election.v
Replication.v
RaftSpec.v
Transition.v
RaftRules.v
Timing.v
System.v
Returns.v
CatchUp.v
ElectionSafety.v
Trace.v
LogMatching.v
Safety.v
Runs.v
Unsafety.v
Boot.v
Runtime.v
