(* ===== verification/Prelude.v ===== *)
(** * RaftKV: a verification development

    RaftKV is a replicated key-value store: a Raft consensus node (src/src/raft),
    a storage engine with a write-ahead log (src/src/storage), consistent-hash
    sharding (src/src/sharding), a Redis-compatible server (src/src/network), the
    integration of consensus and storage (src/src/cluster.rs), a peer transport
    (src/src/transport.rs), metrics and the start-up code.

    ** How the program is modelled

    A piece of the program that changes state is a process, [proc W A]: a function
    from a world to an outcome ([Done a], or [Halted] for a panic or the death of
    the process) and the world it leaves.  The world of the consensus node is the
    node and its file system ([RW] in Node.v), that of the engine is the engine
    and its file system ([EW]), that of a cluster node is all three ([CW]).
    Methods that borrow a field are run with [zoom].  [Result] is [result], the
    question mark operator is [?←].  Integers are [N] kept below 2^64; sums that
    can overflow are [add_u64]/[sub_u64], which panic or wrap according to the
    build profile ([Build]); the deployed image is a release build.

    The file system (Fs.v) keeps what the operating system shows and what was
    synced, and a schedule of faults (error, torn write, death of the process at
    any operation), so that every error path and every crash point is a run.
    Third-party code is a parameter: the JSON of serde_json is the classes
    [StateCodec] and [NetCodec] with their round-trip laws (and [StateCodecTorn]:
    cut-off text does not parse), Unicode upper-casing
    the class [Unicode]; Codec.v and Transport.v hold instances that satisfy the
    laws and let whole runs be evaluated.

    ** Files

    - Prelude.v: machine integers, processes, [wp] (a weakest precondition with a
      postcondition for each exit) and [keeps] (what a process preserves), vectors.
    - Text.v, Fs.v, BTree.v: the parts of the standard library the program uses
      (strings, files, ordered maps).
    - Log.v, State.v, Message.v, Persist.v, Node.v: src/src/raft, one definition
      per method of log.rs, state.rs, persist.rs and node.rs.
    - Codec.v: a concrete codec and the two build profiles.
    - Commit.v: committing and applying as equations; the commit index is the
      largest index of the leader's term on a majority; entries are applied once
      each and in order; truthful [match_index] tables give replicated commits.
    - Durability.v: the order of votes, what is on disk, and that every handler
      writes term, vote and log before it returns a message, crashes included.
    - Memtable.v, Wal.v, Engine.v: src/src/storage.  EngineProps.v: the engine
      refines a finite map and acknowledged writes survive crashes and power cuts;
      the inputs for which that fails.
    - Ring.v, Router.v: src/src/sharding; ownership by clockwise distance, minimal
      disruption, consistency of routing.
    - Protocol.v: src/src/network/protocol.rs with round trips against a RESP
      client.
    - Cluster.v, ClusterProps.v: src/src/cluster.rs; admission of writes, order of
      application, and a cluster of one as a map.
    - Tests.v: the twelve tests of src/src/main.rs as processes.
    - Transport.v: src/src/transport.rs; what is sent is what is dispatched.
    - Server.v: src/src/network/server.rs: reading requests, the sections under the
      lock, the wait for the commit.
    - Election.v: what each handler preserves about roles and votes.
    - Replication.v: AppendEntries as a merge of logs, agreement with the leader,
      and the livelock of the rejection hint.
    - RaftSpec.v: the node as a pure transition function [raft_next], and that the
      handlers of node.rs compute it.  Transition.v: what one transition does.
    - RaftRules.v: the rules of Raft as a relation stated without the program's
      helpers, and that every step of the handlers is an instance of a rule.
    - Timing.v: election timeouts and heartbeats in ticks.
    - System.v: the cluster as machines, disks and a network that loses, delays,
      duplicates and reorders; one event per section under a node's lock.
    - Returns.v: in a release build every section under the lock returns.
    - CatchUp.v: a follower that is merely behind has the leader's log after at
      most two exchanges.
    - ElectionSafety.v: at most one leader per term and one vote per node and term,
      in every reachable state.
    - Trace.v: events of the cluster as transitions of [raft_next].
    - LogMatching.v: the logs of all leaders as a history; Log Matching, Leader
      Append-Only and the shape of logs, in every reachable state.
    - Safety.v: Leader Completeness and State Machine Safety of careful runs.
    - Runs.v: decision procedures for the conditions on runs, and concrete runs.
    - Unsafety.v: evaluated runs that break State Machine Safety and single voting.
    - Boot.v: the start-up in src/src/main.rs, [Server::new] and src/src/metrics.rs.
    - Runtime.v: [Server::run] and its threads as a state machine: the tick thread,
      the peer listener, the accept loop for clients, the metrics server and the
      threads that send; what they do to the node is a sequence of sections.

    ** How the layers fit

    The bytes on sockets are handled by the threads of Runtime.v; between two
    points where threads interfere they run a section of Server.v, Cluster.v and
    Node.v, and [runtime_refines_sections] shows that a server does nothing else.
    The events of System.v are these sections; Trace.v turns them into transitions
    of [raft_next] on what each node has in memory and on disk; the invariants of
    ElectionSafety.v, LogMatching.v and Safety.v are proved by induction on runs of
    events.

    ** What the theorems show

    Conditions on runs, from weak to strong.  [benign]: disks fail only by killing
    the process before a write takes effect (they neither tear writes nor return
    errors), and no node ticks at the last 64-bit term.  [roomy]: moreover no index on the wire is the last 64-bit value.
    [careful]: moreover the match index a follower reports is true, and no leader
    counts a reply from an earlier term.  Crashes, restarts, and messages that are
    lost, late, repeated or out of order are part of all of them.

    - Election Safety and single voting hold in benign runs; Log Matching, Leader
      Append-Only and the well-formedness of logs in roomy runs: for the program as
      written, any number of nodes and any schedule.
    - Leader Completeness, State Machine Safety and the bounds of the commit and
      apply indices hold in careful runs.
    - Both parts of [careful] are needed, and the program guarantees neither:
      followers answer a heartbeat with the length of their whole log, and leaders
      do not compare the term of a reply with their own.  Unsafety.v has a run for
      each in which two nodes apply different commands at one index.  Torn state
      files, refused writes and power cuts break single voting, so [benign] is
      needed too.
    - Every step of a node is an instance of a rule of Raft, whatever the disk does.
    - On benign disks a node writes term, vote and log before it answers, and
      restarts from what it wrote.
    - No section panics, loops or poisons the mutex; a client is told of success
      only after a commit (but see [overtaken_write_is_acknowledged] in Server.v for
      whose commit that can be).
    - A follower whose log is a prefix of the leader's catches up in two exchanges;
      one whose last entry conflicts never does.
    - A single node is a map from keys to values (release build, no disk faults,
      representable keys and values); the engine refines the map of acknowledged
      writes under any disk errors, and after a power cut has exactly these.
    - The ring moves only the keys it must; requests, replies, peer messages and log
      records survive printing and parsing, with the exceptions stated.
    - The repository's own test suite passes in the model.

    ** Fuel and bounds

    The only loop that is not structural is the [while] of
    [apply_committed_entries]; its fuel is the distance it has to cover, and
    [apply_loop_spec] shows that it ends by its own condition; [indices_in_bounds]
    shows that in careful runs the entries it looks for exist.  Loops that read
    lines recurse on the lines.  Sums of lengths of vectors and strings are taken
    without wrap-around because a [Vec] has at most isize::MAX elements.  The loops
    of threads are not bounded: a run of Runtime.v is any list of steps.

    ** Not modelled

    Console output, the lines [use], [mod] and [derive], and the creation of
    directories have no effect that the rest of the program reads.  Durations are
    choices of the environment: a tick happens when the schedule says so, a
    deadline or a socket time-out passes when it says so.  The mutex is modelled by
    making each section under the lock one step; that it is never poisoned is
    [sections_return].

    ** Plan

    Done: every component, the safety properties of Raft as far as they hold, the
    runs that break the others, and catching up.  Next: agreement of the engines of
    two nodes on what they have applied; composing Runtime.v for several servers
    with the network of System.v. *)

From stdpp Require Export base tactics option list gmap strings pretty.
From Stdlib Require Export Lia.

(** ** Machine integers

    The program uses [u64] for terms and node ids and [usize] for log indices;
    the deployment target (the Docker image) is 64-bit, so both are an [N] below
    [2 ^ 64].  Rust checks [+] and [-] in debug builds and wraps in release
    builds: the class [Build] says which of the two is being compiled. *)

Class Build : Type := { overflow_checks : bool }.

Definition u64_modulus : N := (2 ^ 64)%N.

Definition in_u64 (x : N) : Prop := (x < u64_modulus)%N.

Definition wrap64 (x : N) : N := (x mod u64_modulus)%N.

Definition wrapping_mul (x y : N) : N := wrap64 (x * y).

Definition wrapping_add (x y : N) : N := wrap64 (x + y).

(** ** Processes

    A stateful, fallible piece of the program is a function from a world [W] to
    an outcome and a new world.  [Halted] is a panic or the death of the process
    at that point; the world it leaves behind is kept because it contains the
    disk from which the node is restarted. *)

Inductive outcome (A : Type) : Type :=
| Done (a : A)
| Halted.

Arguments Done {A} a.
Arguments Halted {A}.

Definition proc (W A : Type) : Type := W → outcome A * W.

#[export] Instance proc_ret W : MRet (proc W) := λ A a w, (Done a, w).

#[export] Instance proc_bind W : MBind (proc W) := λ A B f m w,
  match m w with
  | (Done a, w') => f a w'
  | (Halted, w') => (Halted, w')
  end.

Definition halt {W A} : proc W A := λ w, (Halted, w).

Definition gets {W A} (f : W → A) : proc W A := λ w, (Done (f w), w).

Definition modify {W} (f : W → W) : proc W unit := λ w, (Done tt, f w).

(** Run a process on a component of the world, reached by a getter and a setter:
    the borrow [&mut self.field]. *)
Definition zoom {W V A} (get : W → V) (put : V → W → W) (m : proc V A) : proc W A :=
  λ w, let '(o, v) := m (get w) in (o, put v w).

Definition when {W} (b : bool) (m : proc W unit) : proc W unit :=
  if b then m else mret tt.

(** [for x in xs { f(x) }] for a body that changes the world. *)
Fixpoint for_each {W A} (f : A → proc W unit) (xs : list A) : proc W unit :=
  match xs with
  | [] => mret tt
  | x :: xs => f x ;; for_each f xs
  end.

(** Checked or wrapping [+] and [-] on 64-bit integers. *)
Definition add_u64 `{Build} {W} (x y : N) : proc W N :=
  if bool_decide (x + y < u64_modulus)%N then mret (x + y)%N
  else if overflow_checks then halt else mret (wrap64 (x + y)).

Definition sub_u64 `{Build} {W} (x y : N) : proc W N :=
  if bool_decide (y ≤ x)%N then mret (x - y)%N
  else if overflow_checks then halt else mret (x + u64_modulus - y)%N.

(** ** Results: [Result<T, E>] and the [?] operator *)

Inductive result (E A : Type) : Type :=
| Ok (a : A)
| Err (e : E).

Arguments Ok {E A} a.
Arguments Err {E A} e.

Definition try_bind {W E A B} (m : proc W (result E A)) (k : A → proc W (result E B)) :
  proc W (result E B) :=
  r ← m; match r with Ok a => k a | Err e => mret (Err e) end.

Declare Scope proc_scope.
Delimit Scope proc_scope with proc.
Notation "x ?← m ; k" := (try_bind m (λ x, k))
  (at level 100, m at next level, k at level 200, right associativity) : proc_scope.
Open Scope proc_scope.

(** ** Vectors: [Vec<T>] indexed by [usize] *)

Definition vec_len {A} (v : list A) : N := N.of_nat (length v).

Definition vec_get {A} (v : list A) (i : N) : option A :=
  if bool_decide (i < vec_len v)%N then v !! N.to_nat i else None.

Definition vec_truncate {A} (v : list A) (n : N) : list A :=
  if bool_decide (n < vec_len v)%N then take (N.to_nat n) v else v.

(** [&v[i..]] panics when [i > v.len()]. *)
Definition slice_from {W A} (v : list A) (i : N) : proc W (list A) :=
  if bool_decide (i ≤ vec_len v)%N then mret (drop (N.to_nat i) v) else halt.

(** ** Weakest preconditions

    [wp m w Q H]: run from [w], the process either returns an [a] in a world
    where [Q] holds, or halts in a world where [H] holds.  Both exits matter:
    what a halted process leaves on disk is what the node restarts from. *)
Definition wp {W A} (m : proc W A) (w : W) (Q : A → W → Prop) (H : W → Prop) : Prop :=
  match m w with
  | (Done a, w') => Q a w'
  | (Halted, w') => H w'
  end.

(** ** Lemmas on integers *)

Lemma wrap64_range x : in_u64 (wrap64 x).
Proof. apply N.mod_lt. done. Qed.

Lemma wrap64_small x : in_u64 x → wrap64 x = x.
Proof. apply N.mod_small. Qed.

(** ** Equations of the process monad *)

Section proc_laws.
Context {W : Type}.

Lemma bind_ret_l {A B} (a : A) (f : A → proc W B) w :
  (mret a ≫= f) w = f a w.
Proof. reflexivity. Qed.

Lemma bind_gets {A B} (g : W → A) (f : A → proc W B) w :
  (gets g ≫= f) w = f (g w) w.
Proof. reflexivity. Qed.

Lemma bind_modify {B} (g : W → W) (f : unit → proc W B) w :
  (modify g ≫= f) w = f tt (g w).
Proof. reflexivity. Qed.

Lemma bind_assoc {A B C} (m : proc W A) (f : A → proc W B) (g : B → proc W C) w :
  ((m ≫= f) ≫= g) w = (m ≫= (λ a, f a ≫= g)) w.
Proof. unfold mbind, proc_bind. by destruct (m w) as [[]]. Qed.

Lemma bind_done {A B} (m : proc W A) (f : A → proc W B) w a w' :
  m w = (Done a, w') → (m ≫= f) w = f a w'.
Proof. unfold mbind, proc_bind. by intros ->. Qed.

Lemma bind_halted {A B} (m : proc W A) (f : A → proc W B) w w' :
  m w = (Halted, w') → (m ≫= f) w = (Halted, w').
Proof. unfold mbind, proc_bind. by intros ->. Qed.

Lemma bind_inv {A B} (m : proc W A) (f : A → proc W B) w o w'' :
  (m ≫= f) w = (o, w'') →
  (∃ a w', m w = (Done a, w') ∧ f a w' = (o, w'')) ∨ (m w = (Halted, w'') ∧ o = Halted).
Proof.
  unfold mbind, proc_bind. destruct (m w) as [[a|] w'] eqn:?; intros; simplify_eq; eauto 10.
Qed.

Lemma add_u64_ok `{Build} x y (w : W) :
  (x + y < u64_modulus)%N → add_u64 x y w = (Done (x + y)%N, w).
Proof. intros. unfold add_u64. by rewrite bool_decide_true. Qed.

Lemma sub_u64_ok `{Build} x y (w : W) :
  (y ≤ x)%N → sub_u64 x y w = (Done (x - y)%N, w).
Proof. intros. unfold sub_u64. by rewrite bool_decide_true. Qed.

Lemma slice_from_ok {A} (v : list A) i (w : W) :
  (i ≤ vec_len v)%N → slice_from v i w = (Done (drop (N.to_nat i) v), w).
Proof. intros. unfold slice_from. by rewrite bool_decide_true. Qed.

Lemma wp_bind {A B} (m : proc W A) (f : A → proc W B) w Q H :
  wp m w (λ a w', wp (f a) w' Q H) H → wp (m ≫= f) w Q H.
Proof. unfold wp, mbind, proc_bind. by destruct (m w) as [[]]. Qed.

Lemma wp_assoc {A B C} (m : proc W A) (f : A → proc W B) (g : B → proc W C) w Q H :
  wp (m ≫= (λ a, f a ≫= g)) w Q H → wp ((m ≫= f) ≫= g) w Q H.
Proof. unfold wp. by rewrite bind_assoc. Qed.

Lemma wp_ret {A} (a : A) w (Q : A → W → Prop) H : Q a w → wp (mret a) w Q H.
Proof. done. Qed.

Lemma wp_gets {A} (g : W → A) w (Q : A → W → Prop) H : Q (g w) w → wp (gets g) w Q H.
Proof. done. Qed.

Lemma wp_modify (g : W → W) w (Q : unit → W → Prop) H : Q tt (g w) → wp (modify g) w Q H.
Proof. done. Qed.

Lemma wp_halt {A} w (Q : A → W → Prop) (H : W → Prop) : H w → wp halt w Q H.
Proof. done. Qed.

Lemma wp_mono {A} (m : proc W A) w (Q Q' : A → W → Prop) (H H' : W → Prop) :
  wp m w Q H → (∀ a w', Q a w' → Q' a w') → (∀ w', H w' → H' w') → wp m w Q' H'.
Proof. unfold wp. destruct (m w) as [[]]; auto. Qed.

Lemma wp_try {E A B} (m : proc W (result E A)) (k : A → proc W (result E B)) w Q H :
  wp m w (λ r w', match r with Ok a => wp (k a) w' Q H | Err e => Q (Err e) w' end) H →
  wp (try_bind m k) w Q H.
Proof.
  intros Hm. unfold try_bind. apply wp_bind. eapply wp_mono; [exact Hm| |done].
  by intros [] w'.
Qed.

Lemma wp_when b (m : proc W unit) w (Q : unit → W → Prop) H :
  (b = true → wp m w Q H) → (b = false → Q tt w) → wp (when b m) w Q H.
Proof. destruct b; simpl; [by auto|]. intros _ HQ. by apply HQ. Qed.

Lemma wp_zoom {V A} (get : W → V) put (m : proc V A) w (Q : A → W → Prop) H :
  wp m (get w) (λ a v, Q a (put v w)) (λ v, H (put v w)) → wp (zoom get put m) w Q H.
Proof. unfold wp, zoom. by destruct (m (get w)) as [[]]. Qed.

(** Whatever the build, a sum that is returned is the sum modulo [2 ^ 64]. *)
Lemma wp_add_u64 `{Build} x y w (Q : N → W → Prop) (K : W → Prop) :
  Q (wrap64 (x + y)) w → K w → wp (add_u64 x y) w Q K.
Proof.
  intros HQ HH. unfold wp, add_u64, halt, mret, proc_ret.
  case_bool_decide; [by rewrite <-(wrap64_small (x + y))|].
  by destruct overflow_checks.
Qed.

Lemma wp_sub_u64 `{Build} x y w (Q : N → W → Prop) (K : W → Prop) :
  (∀ z, ((y ≤ x)%N → z = (x - y)%N) → Q z w) → K w → wp (sub_u64 x y) w Q K.
Proof.
  intros HQ HH. unfold wp, sub_u64, halt, mret, proc_ret.
  case_bool_decide; [by apply HQ|]. destruct overflow_checks; [done|]. by apply HQ.
Qed.

Lemma wp_slice_from {A} (v : list A) i w (Q : list A → W → Prop) (H : W → Prop) :
  Q (drop (N.to_nat i) v) w → H w → wp (slice_from v i) w Q H.
Proof. unfold wp, slice_from. by case_bool_decide. Qed.

(** From a specification to a run, and back. *)
Lemma wp_run {A} (m : proc W A) w Q H o w' :
  wp m w Q H → m w = (o, w') → match o with Done a => Q a w' | Halted => H w' end.
Proof. unfold wp. intros Hwp E. rewrite E in Hwp. done. Qed.

End proc_laws.

(** Step through a process: one rule per shape of its head. *)
Ltac wp_step :=
  lazymatch goal with
  | |- wp (_ ≫= _) _ _ _ => apply wp_bind
  | |- wp (try_bind _ _) _ _ _ => apply wp_try
  | |- wp (mret _) _ _ _ => apply wp_ret
  | |- wp (gets _) _ _ _ => apply wp_gets
  | |- wp (modify _) _ _ _ => apply wp_modify
  | |- wp halt _ _ _ => apply wp_halt
  | |- wp (when _ _) _ _ _ => let Hb := fresh "Hwhen" in apply wp_when; intros Hb
  | |- wp (zoom _ _ _) _ _ _ => apply wp_zoom
  | |- wp (if ?b then _ else _) _ _ _ => destruct b eqn:?
  | |- wp (match ?x with _ => _ end) _ _ _ => destruct x eqn:?
  end; cbv beta.

(** ** What a process preserves

    [keeps R m]: however [m] ends, the world it leaves is related by [R] to the
    world it started from.  For a preorder this composes along the syntax of the
    process, so that the hints below prove it without stepping through a run. *)
Definition keeps {W A} (R : relation W) (m : proc W A) : Prop :=
  ∀ w, wp m w (λ _ w', R w w') (λ w', R w w').

Section keeps.
Context {W : Type} (R : relation W) `{!PreOrder R}.

Lemma keeps_ret {A} (a : A) : keeps R (mret a).
Proof. intros w. apply wp_ret. reflexivity. Qed.

Lemma keeps_gets {A} (f : W → A) : keeps R (gets f).
Proof. intros w. apply wp_gets. reflexivity. Qed.

Lemma keeps_halt {A} : keeps R (halt (A := A)).
Proof. intros w. apply wp_halt. reflexivity. Qed.

Lemma keeps_modify f : (∀ w, R w (f w)) → keeps R (modify f).
Proof. intros Hf w. by apply wp_modify. Qed.

Lemma keeps_bind {A B} (m : proc W A) (f : A → proc W B) :
  keeps R m → (∀ a, keeps R (f a)) → keeps R (m ≫= f).
Proof.
  intros Hm Hf w. apply wp_bind. eapply wp_mono; [apply Hm| |done]. simpl. intros a w' Hw.
  eapply wp_mono; [apply Hf|..]; simpl; intros; by etrans.
Qed.

Lemma keeps_try {E A B} (m : proc W (result E A)) (k : A → proc W (result E B)) :
  keeps R m → (∀ a, keeps R (k a)) → keeps R (try_bind m k).
Proof. intros Hm Hk. apply keeps_bind; [done|]. intros []; [done|apply keeps_ret]. Qed.

Lemma keeps_when b (m : proc W unit) : keeps R m → keeps R (when b m).
Proof. destruct b; [done|]. intros _. apply keeps_ret. Qed.

Lemma keeps_for_each {A} (f : A → proc W unit) xs : (∀ x, keeps R (f x)) → keeps R (for_each f xs).
Proof. intros Hf. induction xs; simpl; [apply keeps_ret|]. by apply keeps_bind. Qed.

Lemma keeps_add_u64 `{Build} x y : keeps R (add_u64 x y).
Proof. intros w. by apply wp_add_u64. Qed.

Lemma keeps_sub_u64 `{Build} x y : keeps R (sub_u64 x y).
Proof. intros w. by apply wp_sub_u64. Qed.

Lemma keeps_slice_from {A} (v : list A) i : keeps R (slice_from v i).
Proof. intros w. by apply wp_slice_from. Qed.

Lemma keeps_zoom {V A} (get : W → V) put (S : relation V) (m : proc V A) :
  (∀ w v, S (get w) v → R w (put v w)) → keeps S m → keeps R (zoom get put m).
Proof.
  intros HS Hm w. apply wp_zoom. eapply wp_mono; [apply Hm|..]; simpl; auto.
Qed.

Lemma keeps_run {A} (m : proc W A) w o w' : keeps R m → m w = (o, w') → R w w'.
Proof. intros Hm Hrun. apply (wp_run _ _ _ _ _ _ (Hm w)) in Hrun. by destruct o. Qed.

End keeps.

(** Follow the syntax of a process; leaves the primitive steps as goals. *)
Ltac keeps_step :=
  lazymatch goal with
  | |- keeps _ (_ ≫= _) => apply keeps_bind; [try apply _| |intros ?]
  | |- keeps _ (try_bind _ _) => apply keeps_try; [try apply _| |intros ?]
  | |- keeps _ (mret _) => apply keeps_ret; apply _
  | |- keeps _ (gets _) => apply keeps_gets; apply _
  | |- keeps _ halt => apply keeps_halt; apply _
  | |- keeps _ (when _ _) => apply keeps_when; [try apply _|]
  | |- keeps _ (for_each _ _) => apply keeps_for_each; [try apply _|intros ?]
  | |- keeps _ (add_u64 _ _) => apply keeps_add_u64; apply _
  | |- keeps _ (sub_u64 _ _) => apply keeps_sub_u64; apply _
  | |- keeps _ (slice_from _ _) => apply keeps_slice_from; apply _
  | |- keeps _ (if ?b then _ else _) => destruct b
  | |- keeps _ (match ?x with _ => _ end) => destruct x
  | |- keeps _ (let '(_, _) := ?x in _) => destruct x
  | |- keeps _ _ => progress cbv beta zeta
  end.

Ltac keeps_auto := repeat keeps_step.

Create Rewrite HintDb proc.
Create Rewrite HintDb vec.
#[export] Hint Rewrite @bind_ret_l @bind_gets @bind_modify @bind_assoc : proc.

(** ** Vectors *)

Lemma vec_get_lookup {A} (v : list A) i : vec_get v i = v !! N.to_nat i.
Proof.
  unfold vec_get, vec_len. case_bool_decide; [done|].
  symmetry. apply lookup_ge_None_2. lia.
Qed.

Lemma vec_truncate_take {A} (v : list A) n : vec_truncate v n = take (N.to_nat n) v.
Proof.
  unfold vec_truncate, vec_len. case_bool_decide; [done|]. symmetry. apply take_ge. lia.
Qed.

Lemma vec_len_app {A} (v w : list A) : vec_len (v ++ w) = (vec_len v + vec_len w)%N.
Proof. unfold vec_len. rewrite length_app. lia. Qed.

#[export] Hint Rewrite @vec_get_lookup @vec_truncate_take @vec_len_app : vec.

(** ** Lists *)

Lemma NoDup_fst_filter {A B} (P : A * B → Prop) `{∀ x, Decision (P x)} (l : list (A * B)) :
  NoDup l.*1 → NoDup (filter P l).*1.
Proof.
  induction l as [|x l IH]; [done|]. rewrite fmap_cons, NoDup_cons. intros [Hx Hl].
  rewrite filter_cons. case_decide; [|auto]. rewrite fmap_cons, NoDup_cons. split; [|auto].
  contradict Hx. apply list_elem_of_fmap in Hx as (y & Hy & [_ Hin]%list_elem_of_filter).
  rewrite Hy. apply list_elem_of_fmap. by exists y.
Qed.

Lemma fst_filter_subseteq {A B} (P : A * B → Prop) `{∀ x, Decision (P x)} (l : list (A * B)) :
  (filter P l).*1 ⊆ l.*1.
Proof.
  intros x (y & -> & [_ Hin]%list_elem_of_filter)%list_elem_of_fmap.
  apply list_elem_of_fmap. by exists y.
Qed.
