(* ===== verification/Text.v ===== *)
(** * Strings of the standard library

    Rust's [String]/[&str] is a sequence of bytes that is valid UTF-8.  It is
    modelled by [string] (a sequence of 8-bit [ascii]); this file holds the
    string operations of the standard library that the program uses:
    [str::split(char)], [str::lines], [str::parse::<usize>], decimal formatting
    of integers (stdpp's [pretty]), UTF-8 validity (checked by
    [Read::read_to_string]) and [to_uppercase]. *)

From S2P Require Import Prelude.
From Stdlib Require Import Ascii.

Definition LF : ascii := "010"%char.
Definition CR : ascii := "013"%char.

Definition byte_val (c : ascii) : N := N_of_ascii c.

Fixpoint str_mem (c : ascii) (s : string) : bool :=
  match s with
  | EmptyString => false
  | String x s => bool_decide (x = c) || str_mem c s
  end.

(** [s.split(c)]: never empty; a separator at either end gives an empty piece. *)
Fixpoint split_char (c : ascii) (s : string) : list string :=
  match s with
  | EmptyString => [EmptyString]
  | String x s =>
      if bool_decide (x = c) then EmptyString :: split_char c s
      else match split_char c s with
           | [] => [String x EmptyString]
           | p :: ps => String x p :: ps
           end
  end.

(** [line.strip_suffix('\r').unwrap_or(line)] *)
Fixpoint strip_cr (s : string) : string :=
  match s with
  | EmptyString => EmptyString
  | String x EmptyString => if bool_decide (x = CR) then EmptyString else s
  | String x s => String x (strip_cr s)
  end.

(** [s.lines()]: pieces ended by a line feed lose it and one carriage return
    before it; a last piece without line feed is kept as it is unless empty. *)
Fixpoint lines_of_pieces (ps : list string) : list string :=
  match ps with
  | [] => []
  | [p] => if bool_decide (p = EmptyString) then [] else [p]
  | p :: ps => strip_cr p :: lines_of_pieces ps
  end.

Definition lines (s : string) : list string := lines_of_pieces (split_char LF s).

Definition starts_with (c : ascii) (s : string) : bool :=
  match s with
  | EmptyString => false
  | String x _ => bool_decide (x = c)
  end.

(** [&s[1..]] after the test that the first byte is an ASCII character. *)
Definition str_tail (s : string) : string :=
  match s with
  | EmptyString => EmptyString
  | String _ s => s
  end.

(** [str::parse::<usize>]: an optional [+], then at least one digit, and the
    value fits in 64 bits. *)
Definition digit_val (c : ascii) : option N :=
  let b := byte_val c in
  if bool_decide (48 ≤ b ≤ 57)%N then Some (b - 48)%N else None.

Fixpoint parse_digits (acc : N) (s : string) : option N :=
  match s with
  | EmptyString => Some acc
  | String c s => d ← digit_val c; parse_digits (acc * 10 + d)%N s
  end.

Definition parse_usize (s : string) : option N :=
  let s := if starts_with "+" s then str_tail s else s in
  if bool_decide (s = EmptyString) then None
  else n ← parse_digits 0 s; if bool_decide (n < u64_modulus)%N then Some n else None.

(** UTF-8 validity.  The state is the list of ranges the pending continuation
    bytes must fall in; the ranges are those of RFC 3629, which the standard
    library implements. *)
Definition cont : N * N := (128, 191)%N.

Definition utf8_lead (b : N) : option (list (N * N)) :=
  if bool_decide (b ≤ 127)%N then Some []
  else if bool_decide (194 ≤ b ≤ 223)%N then Some [cont]
  else if bool_decide (b = 224)%N then Some [(160, 191)%N; cont]
  else if bool_decide (b = 237)%N then Some [(128, 159)%N; cont]
  else if bool_decide (225 ≤ b ≤ 239)%N then Some [cont; cont]
  else if bool_decide (b = 240)%N then Some [(144, 191)%N; cont; cont]
  else if bool_decide (241 ≤ b ≤ 243)%N then Some [cont; cont; cont]
  else if bool_decide (b = 244)%N then Some [(128, 143)%N; cont; cont]
  else None.

Definition utf8_step (pending : list (N * N)) (c : ascii) : option (list (N * N)) :=
  let b := byte_val c in
  match pending with
  | [] => utf8_lead b
  | (lo, hi) :: pending => if bool_decide (lo ≤ b ≤ hi)%N then Some pending else None
  end.

Fixpoint utf8_run (pending : list (N * N)) (s : string) : option (list (N * N)) :=
  match s with
  | EmptyString => Some pending
  | String c s => q ← utf8_step pending c; utf8_run q s
  end.

Definition utf8_valid (s : string) : bool := bool_decide (utf8_run [] s = Some []).

(** [str::to_uppercase].  On ASCII strings it is the byte map below; outside
    ASCII it follows the Unicode tables, which are not part of the program. *)
Class Unicode : Type := { unicode_uppercase : string → string }.

Definition is_ascii_byte (c : ascii) : bool := bool_decide (byte_val c ≤ 127)%N.

Fixpoint is_ascii (s : string) : bool :=
  match s with
  | EmptyString => true
  | String c s => is_ascii_byte c && is_ascii s
  end.

Definition upper_byte (c : ascii) : ascii :=
  if bool_decide (97 ≤ byte_val c ≤ 122)%N then ascii_of_N (byte_val c - 32) else c.

Fixpoint ascii_uppercase (s : string) : string :=
  match s with
  | EmptyString => EmptyString
  | String c s => String (upper_byte c) (ascii_uppercase s)
  end.

Definition to_uppercase `{Unicode} (s : string) : string :=
  if is_ascii s then ascii_uppercase s else unicode_uppercase s.

(** First [n] bytes of a string: what reaches the disk of an interrupted write. *)
Fixpoint str_take (n : nat) (s : string) : string :=
  match n, s with
  | S n, String c s => String c (str_take n s)
  | _, _ => EmptyString
  end.

Fixpoint str_drop (n : nat) (s : string) : string :=
  match n, s with
  | O, _ => s
  | S n, EmptyString => EmptyString
  | S n, String _ s => str_drop n s
  end.

Definition str_len (s : string) : N := N.of_nat (String.length s).

(** ** Lemmas *)

#[local] Arguments String.append !_ _ / : simpl nomatch.

Lemma str_append_assoc (a b c : string) : (a +:+ b) +:+ c = a +:+ (b +:+ c).
Proof. induction a; simpl; congruence. Qed.

Lemma str_append_nil_r (a : string) : a +:+ "" = a.
Proof. induction a; simpl; congruence. Qed.

Lemma str_mem_app c a b : str_mem c (a +:+ b) = str_mem c a || str_mem c b.
Proof. induction a; simpl; [done|]. rewrite IHa. by rewrite orb_assoc. Qed.

Lemma split_char_not_nil c s : split_char c s ≠ [].
Proof. destruct s; simpl; repeat case_match; done. Qed.

Lemma split_char_free c s : str_mem c s = false → split_char c s = [s].
Proof.
  induction s as [|x s IH]; simpl; [done|].
  rewrite orb_false_iff. intros [-> Hs]. by rewrite IH.
Qed.

Lemma split_char_app c a b :
  str_mem c a = false → split_char c (a +:+ String c b) = a :: split_char c b.
Proof.
  induction a as [|x a IH]; simpl.
  - intros _. by rewrite bool_decide_true.
  - rewrite orb_false_iff. intros [-> Ha]. by rewrite IH.
Qed.

Lemma strip_cr_snoc a : strip_cr (a +:+ String CR "") = a.
Proof.
  induction a as [|x a IH]; [done|].
  destruct a; [done|]. simpl in *. by rewrite IH.
Qed.

Lemma lines_of_pieces_cons p q ps :
  lines_of_pieces (p :: q :: ps) = strip_cr p :: lines_of_pieces (q :: ps).
Proof. done. Qed.

(** One more line in front. *)
Lemma lines_cons a b :
  str_mem LF a = false → lines (a +:+ String LF b) = strip_cr a :: lines b.
Proof.
  intros. unfold lines. rewrite split_char_app by done.
  destruct (split_char LF b) eqn:E; [by destruct (split_char_not_nil LF b)|].
  apply lines_of_pieces_cons.
Qed.

Lemma lines_empty : lines "" = [].
Proof. reflexivity. Qed.

Lemma utf8_run_app q a b : utf8_run q (a +:+ b) = utf8_run q a ≫= λ q, utf8_run q b.
Proof.
  revert q. induction a as [|c a IH]; intros q; simpl; [done|].
  destruct (utf8_step q c); simpl; auto.
Qed.

Lemma utf8_valid_app a b :
  utf8_valid a = true → utf8_valid b = true → utf8_valid (a +:+ b) = true.
Proof.
  unfold utf8_valid. rewrite !bool_decide_eq_true, utf8_run_app. intros -> Hb. done.
Qed.

Lemma digit_val_pretty d : (d < 10)%N → digit_val (pretty_N_char d) = Some d.
Proof.
  intros H.
  assert (d = 0 ∨ d = 1 ∨ d = 2 ∨ d = 3 ∨ d = 4 ∨ d = 5 ∨ d = 6 ∨ d = 7 ∨ d = 8 ∨ d = 9)%N
    as Hd by lia.
  by repeat destruct Hd as [->|Hd]; [..|subst].
Qed.

(** Printing then parsing a number: digits are read most significant first. *)
Lemma parse_digits_pretty_go n : ∀ acc,
  ∃ k, ∀ s, parse_digits acc (pretty_N_go n s) = parse_digits (acc * 10 ^ k + n)%N s.
Proof.
  induction (N.lt_wf_0 n) as [n _ IH]. intros acc.
  destruct (decide (n = 0)%N) as [->|Hn].
  - exists 0%N. intros s. rewrite pretty_N_go_0. f_equal. lia.
  - destruct (IH (n `div` 10)%N (N.div_lt n 10 ltac:(lia) ltac:(lia)) acc) as [k Hk].
    exists (N.succ k). intros s. rewrite pretty_N_go_step by lia. rewrite Hk. simpl.
    rewrite digit_val_pretty by (apply N.mod_lt; lia). simpl. f_equal.
    rewrite N.pow_succ_r', N.mul_assoc, (N.mul_comm acc 10), <-N.mul_assoc.
    pose proof (N.div_mod' n 10). generalize (acc * 10 ^ k)%N. lia.
Qed.

Lemma pretty_N_go_nonempty n s : (0 < n)%N → pretty_N_go n s ≠ "".
Proof.
  revert s. induction (N.lt_wf_0 n) as [n _ IH]. intros s Hn.
  rewrite pretty_N_go_step by done.
  destruct (decide (0 < n `div` 10)%N); [apply IH; [apply N.div_lt; lia|done]|].
  assert (n `div` 10 = 0)%N as -> by (by apply N.le_0_r, N.nlt_ge). by rewrite pretty_N_go_0.
Qed.

Lemma pretty_N_go_head n : ∀ s x t,
  (0 < n)%N → pretty_N_go n s = String x t → is_Some (digit_val x).
Proof.
  induction (N.lt_wf_0 n) as [n _ IH]. intros s x t Hn. rewrite pretty_N_go_step by done.
  destruct (decide (0 < n `div` 10)%N); [apply IH; [apply N.div_lt; lia|done]|].
  assert (n `div` 10 = 0)%N as -> by (by apply N.le_0_r, N.nlt_ge). rewrite pretty_N_go_0. intros. simplify_eq.
  eexists. apply digit_val_pretty, N.mod_lt. lia.
Qed.

(** [n.to_string().parse::<usize>() == Ok(n)] *)
Lemma parse_usize_pretty n : in_u64 n → parse_usize (pretty n) = Some n.
Proof.
  intros Hn. unfold pretty, pretty_N. case_decide as H0; [by subst|].
  assert (starts_with "+" (pretty_N_go n "") = false) as Hplus.
  { destruct (pretty_N_go n "") as [|x t] eqn:E; [done|]. simpl.
    apply pretty_N_go_head in E as [d Hd]; [|lia].
    case_bool_decide; [by subst|done]. }
  unfold parse_usize. rewrite Hplus.
  rewrite bool_decide_false by (apply pretty_N_go_nonempty; lia).
  destruct (parse_digits_pretty_go n 0) as [k Hk]. rewrite Hk. simpl.
  rewrite N.mul_0_l, N.add_0_l. by rewrite bool_decide_true.
Qed.

Lemma str_drop_length s : str_drop (String.length s) s = "".
Proof. by induction s. Qed.
