(* ===== verification/Fs.v ===== *)
(** * The file system

    The operations of [std::fs] and [std::io] the program calls, over a store of
    files.  [fs_files] is what the operating system shows to every process (the
    page cache); [fs_durable] is what would survive a power cut, updated only by
    [sync_all].  [fs_faults] is the schedule of faults of the coming operations,
    one per operation, so that every I/O error path and every point at which the
    process can die is a run of the model; an exhausted schedule means no more
    faults.  Directories are not represented: [create_dir_all] can only succeed,
    fail or kill. *)

From S2P Require Import Prelude Text.
From Stdlib Require Import Ascii.

(** [Fail w] makes the operation return an error after [w] bytes took effect
    ([None]: before it touched the file); [Kill w] ends the process there. *)
Inductive fault : Type :=
| Fine
| Fail (written : option nat)
| Kill (written : option nat).

Inductive io_error : Type :=
| IoOther
| IoNotFound
| IoInvalidData.

Record Fs : Type := {
  fs_files : gmap string string;
  fs_durable : gmap string string;
  fs_faults : list fault;
}.

Definition io (A : Type) : Type := proc Fs (result io_error A).

Definition set_files (f : gmap string string) (fs : Fs) : Fs :=
  {| fs_files := f; fs_durable := fs_durable fs; fs_faults := fs_faults fs |}.

Definition set_durable (d : gmap string string) (fs : Fs) : Fs :=
  {| fs_files := fs_files fs; fs_durable := d; fs_faults := fs_faults fs |}.

Definition set_faults (l : list fault) (fs : Fs) : Fs :=
  {| fs_files := fs_files fs; fs_durable := fs_durable fs; fs_faults := l |}.

Definition next_fault : proc Fs fault := λ fs,
  match fs_faults fs with
  | [] => (Done Fine, fs)
  | f :: l => (Done f, set_faults l fs)
  end.

Definition put_file (path contents : string) : proc Fs unit :=
  modify (λ fs, set_files (<[path := contents]> (fs_files fs)) fs).

(** [Path::join] for a relative component. *)
Fixpoint ends_with (c : ascii) (s : string) : bool :=
  match s with
  | EmptyString => false
  | String x EmptyString => bool_decide (x = c)
  | String _ s => ends_with c s
  end.

Definition path_join (dir name : string) : string :=
  if bool_decide (dir = "") || ends_with "/"%char dir then dir +:+ name
  else dir +:+ "/" +:+ name.

Definition create_dir_all : io unit :=
  f ← next_fault;
  match f with
  | Fine => mret (Ok tt)
  | Fail _ => mret (Err IoOther)
  | Kill _ => halt
  end.

(** [fs::write]: create or truncate, then write everything; not atomic. *)
Definition fs_write (path contents : string) : io unit :=
  f ← next_fault;
  match f with
  | Fine => put_file path contents ;; mret (Ok tt)
  | Fail None => mret (Err IoOther)
  | Fail (Some n) => put_file path (str_take n contents) ;; mret (Err IoOther)
  | Kill None => halt
  | Kill (Some n) => put_file path (str_take n contents) ;; halt
  end.

Definition fs_exists (path : string) (fs : Fs) : bool :=
  bool_decide (is_Some (fs_files fs !! path)).

(** [File::open] and [read_to_string]. *)
Definition fs_read_to_string (path : string) : io string :=
  f ← next_fault;
  match f with
  | Fine =>
      c ← gets (λ fs, fs_files fs !! path);
      match c with
      | Some s => mret (if utf8_valid s then Ok s else Err IoInvalidData)
      | None => mret (Err IoNotFound)
      end
  | Fail _ => mret (Err IoOther)
  | Kill _ => halt
  end.

(** [OpenOptions::new().create(true).append(true).open(path)] *)
Definition open_append (path : string) : io unit :=
  f ← next_fault;
  match f with
  | Fine =>
      b ← gets (fs_exists path);
      (if b : bool then mret tt else put_file path "") ;; mret (Ok tt)
  | Fail _ => mret (Err IoOther)
  | Kill _ => halt
  end.

Definition append_bytes (path s : string) : proc Fs unit :=
  c ← gets (λ fs, fs_files fs !! path);
  put_file path (default "" c +:+ s).

(** Writing to a file opened for append.  The number is how many bytes of [s]
    reached the file, which the buffered writer needs to know. *)
Definition write_append (path s : string) : proc Fs (nat * result io_error unit) :=
  f ← next_fault;
  match f with
  | Fine => append_bytes path s ;; mret (String.length s, Ok tt)
  | Fail w =>
      let n := default 0 w in
      append_bytes path (str_take n s) ;; mret (n, Err IoOther)
  | Kill w => append_bytes path (str_take (default 0 w) s) ;; halt
  end.

(** [File::sync_all].  The name of a file that was created since the last sync
    becomes durable along with its contents, as on the journalling file systems in
    use; POSIX alone would ask for a sync of the directory as well. *)
Definition sync_all (path : string) : io unit :=
  f ← next_fault;
  match f with
  | Fine =>
      c ← gets (λ fs, fs_files fs !! path);
      match c with
      | Some s => modify (λ fs, set_durable (<[path := s]> (fs_durable fs)) fs)
      | None => mret tt
      end ;;
      mret (Ok tt)
  | Fail _ => mret (Err IoOther)
  | Kill _ => halt
  end.

(** What a node finds after a power cut: only what was synced.  (A process crash
    leaves the store as it is.) *)
Definition power_loss (fs : Fs) : Fs :=
  {| fs_files := fs_durable fs; fs_durable := fs_durable fs; fs_faults := [] |}.

(** A schedule in which each operation either succeeds or kills the process
    before it takes effect: crashes, but no I/O errors and no torn writes. *)
Definition crash_only (l : list fault) : Prop :=
  Forall (λ f, f = Fine ∨ f = Kill None) l.

(** ** Lemmas *)

Lemma next_fault_none fs : fs_faults fs = [] → next_fault fs = (Done Fine, fs).
Proof. unfold next_fault. by intros ->. Qed.

Lemma crash_only_next fs :
  crash_only (fs_faults fs) →
  ∃ f l, next_fault fs = (Done f, set_faults l fs) ∧ (f = Fine ∨ f = Kill None) ∧ crash_only l.
Proof.
  unfold next_fault. destruct fs as [ff fd [|f l]]; simpl; intros H.
  - exists Fine, []. split_and!; [done|by left|constructor].
  - apply Forall_cons in H as [H1 H2]. by exists f, l.
Qed.

(** A crash needs a scheduled fault; an exhausted schedule stays exhausted. *)
Lemma wp_next_fault fs (Q : fault → Fs → Prop) K :
  crash_only (fs_faults fs) →
  (∀ f l, f = Fine ∨ (f = Kill None ∧ fs_faults fs ≠ []) → crash_only l →
     (fs_faults fs = [] → l = []) → Q f (set_faults l fs)) →
  wp next_fault fs Q K.
Proof.
  unfold wp, next_fault. destruct fs as [ff fd [|f l]]; simpl; intros Hc HQ.
  - apply (HQ Fine []); [by left|constructor|done].
  - apply Forall_cons in Hc as [[->| ->] Hl]; apply HQ; auto; naive_solver.
Qed.

Lemma wp_next_fault_any fs (Q : fault → Fs → Prop) K :
  (∀ f l, (crash_only (fs_faults fs) → crash_only l) → Q f (set_faults l fs)) →
  wp next_fault fs Q K.
Proof.
  unfold wp, next_fault. destruct fs as [ff fd [|f l]]; simpl; intros HQ.
  - by apply (HQ Fine []).
  - apply HQ. intros Hc. by apply Forall_cons in Hc as [_ ?].
Qed.

(** Operations on one path leave the other files alone and only consume faults. *)
Definition fs_frame (path : string) (fs fs' : Fs) : Prop :=
  (∀ q, q ≠ path → fs_files fs' !! q = fs_files fs !! q) ∧
  (crash_only (fs_faults fs) → crash_only (fs_faults fs')).

#[export] Instance fs_frame_preorder path : PreOrder (fs_frame path).
Proof.
  split.
  - by intros fs.
  - intros a b c [H1 H2] [H3 H4]. split; [|auto]. intros q Hq. by rewrite H3, H1.
Qed.

Lemma fs_frame_faults path l fs :
  (crash_only (fs_faults fs) → crash_only l) → fs_frame path fs (set_faults l fs).
Proof. done. Qed.

Lemma fs_frame_put path c l fs :
  (crash_only (fs_faults fs) → crash_only l) →
  fs_frame path fs (set_files (<[path := c]> (fs_files fs)) (set_faults l fs)).
Proof. intros Hl. split; [|done]. intros q Hq. simpl. by rewrite lookup_insert_ne. Qed.

Lemma write_append_spec path s c fs :
  fs_files fs !! path = Some c →
  wp (write_append path s) fs
    (λ r fs', fs_frame path fs fs' ∧ fs_durable fs' = fs_durable fs ∧
       (r.2 = Ok tt → r.1 = String.length s ∧ fs_files fs' = <[path := c +:+ s]> (fs_files fs)))
    (fs_frame path fs).
Proof.
  intros Hc. unfold write_append, append_bytes, put_file. wp_step.
  apply wp_next_fault_any. intros [|w|w] l Hl; simpl; repeat wp_step; simpl; rewrite ?Hc; simpl;
    split_and?; try done; by apply fs_frame_put.
Qed.

Lemma sync_all_spec path c fs :
  fs_files fs !! path = Some c →
  wp (sync_all path) fs
    (λ r fs', fs_frame path fs fs' ∧ fs_files fs' = fs_files fs ∧
       (r = Ok tt → fs_durable fs' = <[path := c]> (fs_durable fs)))
    (fs_frame path fs).
Proof.
  intros Hc. unfold sync_all. wp_step. apply wp_next_fault_any.
  intros [|w|w] l Hl; simpl; repeat wp_step; simpl in *; simplify_eq; split_and?; try done.
  all: by simplify_option_eq.
Qed.

Lemma path_join_inj d a b : path_join d a = path_join d b → a = b.
Proof. unfold path_join. case_match; intros; by simplify_eq. Qed.
