(* ===== verification/Log.v ===== *)
(** * The replicated log (src/raft/log.rs) *)

From S2P Require Import Prelude.

(** ** Data *)

Inductive LogCommand : Type :=
| Put (key value : string)
| Delete (key : string)
| Noop.

Record LogEntry : Type := mkEntry { e_term : N; e_command : LogCommand }.

(** [entries[0]] is the sentinel. *)
Record RaftLog : Type := mkLog { l_entries : list LogEntry }.

#[export] Instance LogCommand_eq_dec : EqDecision LogCommand.
Proof. solve_decision. Defined.
#[export] Instance LogEntry_eq_dec : EqDecision LogEntry.
Proof. solve_decision. Defined.
#[export] Instance RaftLog_eq_dec : EqDecision RaftLog.
Proof. solve_decision. Defined.

Definition sentinel : LogEntry := {| e_term := 0; e_command := Noop |}.

(** ** Operations *)

Definition log_new : RaftLog := {| l_entries := [sentinel] |}.

Definition log_get (l : RaftLog) (index : N) : option LogEntry :=
  vec_get (l_entries l) index.

(** [self.entries.len() - 1].  On an empty vector the program would panic or wrap
    and this is 0; no log is ever empty: [log_new] and [from_entries] put the
    sentinel in place, nothing truncates at index 0 ([log_wf], and
    [logs_are_well_formed] for whole runs). *)
Definition last_index (l : RaftLog) : N := (vec_len (l_entries l) - 1)%N.

Definition last_term (l : RaftLog) : N :=
  default 0%N (e_term <$> last (l_entries l)).

Definition term_at (l : RaftLog) (index : N) : N :=
  default 0%N (e_term <$> vec_get (l_entries l) index).

(** Both appends return the new last index along with the changed log. *)
Definition log_append (l : RaftLog) (e : LogEntry) : RaftLog * N :=
  let l' := {| l_entries := l_entries l ++ [e] |} in (l', last_index l').

Definition log_append_entries (l : RaftLog) (es : list LogEntry) : RaftLog * N :=
  let l' := {| l_entries := l_entries l ++ es |} in (l', last_index l').

Definition truncate_from (l : RaftLog) (index : N) : RaftLog :=
  if bool_decide (index < vec_len (l_entries l))%N
  then {| l_entries := vec_truncate (l_entries l) index |}
  else l.

Definition entries_from (l : RaftLog) (start_index : N) : list LogEntry :=
  if bool_decide (vec_len (l_entries l) ≤ start_index)%N then []
  else drop (N.to_nat start_index) (l_entries l).

Definition log_len (l : RaftLog) : N := (vec_len (l_entries l) - 1)%N.

Definition from_entries (es : list LogEntry) : RaftLog :=
  if bool_decide (es = []) then log_new else {| l_entries := es |}.

Definition to_entries (l : RaftLog) : list LogEntry := l_entries l.

(** ** Well-formedness

    The sentinel is in place and every other entry carries a positive term, so
    that [term_at] returns 0 only for index 0 and beyond the end. *)
Definition log_wf (l : RaftLog) : Prop :=
  ∃ es, l_entries l = sentinel :: es ∧ Forall (λ e, 0 < e_term e)%N es.

(** ** Lemmas *)

Create Rewrite HintDb log.

Lemma log_wf_new : log_wf log_new.
Proof. exists []. done. Qed.

Lemma log_wf_length l : log_wf l → (0 < length (l_entries l)).
Proof. intros (es & -> & _). simpl. lia. Qed.

Lemma last_index_length l :
  log_wf l → N.to_nat (last_index l) = length (l_entries l) - 1.
Proof. intros. unfold last_index, vec_len. lia. Qed.

Lemma term_at_lookup l i : term_at l i = default 0%N (e_term <$> l_entries l !! N.to_nat i).
Proof. unfold term_at. by rewrite vec_get_lookup. Qed.

Lemma log_get_lookup l i : log_get l i = l_entries l !! N.to_nat i.
Proof. apply vec_get_lookup. Qed.

Lemma entries_from_drop l i : entries_from l i = drop (N.to_nat i) (l_entries l).
Proof.
  unfold entries_from, vec_len. case_bool_decide; [|done].
  symmetry. apply drop_ge. lia.
Qed.

Lemma truncate_from_take l i : l_entries (truncate_from l i) = take (N.to_nat i) (l_entries l).
Proof.
  unfold truncate_from. case_bool_decide; simpl; [apply vec_truncate_take|].
  unfold vec_len in *. symmetry. apply take_ge. lia.
Qed.

#[export] Hint Rewrite term_at_lookup log_get_lookup entries_from_drop truncate_from_take : log.

Lemma log_wf_append l e : log_wf l → (0 < e_term e)%N → log_wf (log_append l e).1.
Proof.
  intros (es & He & Hes) ?. exists (es ++ [e]). simpl. rewrite He. split; [done|].
  apply Forall_app. by repeat constructor.
Qed.

Lemma log_wf_append_entries l es' :
  log_wf l → Forall (λ e, 0 < e_term e)%N es' → log_wf (log_append_entries l es').1.
Proof.
  intros (es & He & Hes) ?. exists (es ++ es'). simpl. rewrite He. split; [done|].
  by apply Forall_app.
Qed.

Lemma log_wf_truncate l i : log_wf l → (0 < i)%N → log_wf (truncate_from l i).
Proof.
  intros (es & He & Hes) Hi. exists (take (N.to_nat i - 1) es).
  rewrite truncate_from_take, He. split; [|by apply Forall_take].
  destruct (N.to_nat i) as [|n] eqn:E; [lia|]. simpl. by rewrite Nat.sub_0_r.
Qed.

(** [term_at] is 0 exactly at the sentinel and beyond the end. *)
Lemma term_at_zero l i :
  log_wf l → term_at l i = 0%N ↔ i = 0%N ∨ (last_index l < i)%N.
Proof.
  intros (es & He & Hes). rewrite term_at_lookup. unfold last_index, vec_len. rewrite He.
  split.
  - destruct (decide (i = 0%N)) as [|Hi]; [by left|]. right. simpl.
    destruct (N.to_nat i) as [|n] eqn:E; [lia|]. simpl in *.
    destruct (es !! n) as [e|] eqn:Hn.
    + rewrite Forall_lookup in Hes. specialize (Hes _ _ Hn). simpl in *. lia.
    + apply lookup_ge_None in Hn. lia.
  - intros [->|Hi]; [done|]. rewrite lookup_ge_None_2; [done|]. simpl in *. lia.
Qed.

Lemma last_index_append l e : last_index (log_append l e).1 = vec_len (l_entries l).
Proof. unfold last_index, vec_len. simpl. rewrite length_app. simpl. lia. Qed.

(** [from_entries] undoes [to_entries]: the log survives persistence. *)
Lemma from_to_entries l : log_wf l → from_entries (to_entries l) = l.
Proof.
  intros (es & He & _). unfold from_entries, to_entries. destruct l as [x]. simpl in *.
  by subst.
Qed.
