(* ===== verification/State.v ===== *)
(** * Raft state (src/raft/state.rs) *)

From S2P Require Import Prelude Log.

Inductive NodeRole : Type := Follower | Candidate | Leader.

#[export] Instance NodeRole_eq_dec : EqDecision NodeRole.
Proof. solve_decision. Defined.

Record RaftState : Type := mkState {
  rs_id : N;
  peers : list N;
  current_term : N;
  voted_for : option N;
  rs_log : RaftLog;
  commit_index : N;
  last_applied : N;
  next_index : list (N * N);
  match_index : list (N * N);
  role : NodeRole;
  leader_id : option N;
}.

(** One setter per assigned field. *)
Definition set_current_term (t : N) (s : RaftState) : RaftState :=
  mkState (rs_id s) (peers s) t (voted_for s) (rs_log s) (commit_index s) (last_applied s)
    (next_index s) (match_index s) (role s) (leader_id s).
Definition set_voted_for (v : option N) (s : RaftState) : RaftState :=
  mkState (rs_id s) (peers s) (current_term s) v (rs_log s) (commit_index s) (last_applied s)
    (next_index s) (match_index s) (role s) (leader_id s).
Definition set_log (l : RaftLog) (s : RaftState) : RaftState :=
  mkState (rs_id s) (peers s) (current_term s) (voted_for s) l (commit_index s) (last_applied s)
    (next_index s) (match_index s) (role s) (leader_id s).
Definition set_commit_index (c : N) (s : RaftState) : RaftState :=
  mkState (rs_id s) (peers s) (current_term s) (voted_for s) (rs_log s) c (last_applied s)
    (next_index s) (match_index s) (role s) (leader_id s).
Definition set_last_applied (a : N) (s : RaftState) : RaftState :=
  mkState (rs_id s) (peers s) (current_term s) (voted_for s) (rs_log s) (commit_index s) a
    (next_index s) (match_index s) (role s) (leader_id s).
Definition set_next_index (ni : list (N * N)) (s : RaftState) : RaftState :=
  mkState (rs_id s) (peers s) (current_term s) (voted_for s) (rs_log s) (commit_index s)
    (last_applied s) ni (match_index s) (role s) (leader_id s).
Definition set_match_index (mi : list (N * N)) (s : RaftState) : RaftState :=
  mkState (rs_id s) (peers s) (current_term s) (voted_for s) (rs_log s) (commit_index s)
    (last_applied s) (next_index s) mi (role s) (leader_id s).
Definition set_role (r : NodeRole) (s : RaftState) : RaftState :=
  mkState (rs_id s) (peers s) (current_term s) (voted_for s) (rs_log s) (commit_index s)
    (last_applied s) (next_index s) (match_index s) r (leader_id s).
Definition set_leader_id (l : option N) (s : RaftState) : RaftState :=
  mkState (rs_id s) (peers s) (current_term s) (voted_for s) (rs_log s) (commit_index s)
    (last_applied s) (next_index s) (match_index s) (role s) l.

(** ** Operations *)

Definition state_new (id : N) (ps : list N) : RaftState :=
  mkState id ps 0 None log_new 0 0 [] [] Follower None.

Definition become_follower (term : N) (s : RaftState) : RaftState :=
  let s := if bool_decide (current_term s < term)%N
           then set_voted_for None (set_current_term term s) else s in
  let s := set_role Follower s in
  let s := set_next_index [] s in
  set_match_index [] s.

Definition become_candidate `{Build} : proc RaftState unit :=
  t ← gets current_term;
  t ← add_u64 t 1;
  modify (set_current_term t) ;;
  modify (set_role Candidate) ;;
  modify (λ s, set_voted_for (Some (rs_id s)) s) ;;
  modify (set_leader_id None).

(** [self.log.last_index() + 1]: a [Vec] has at most [isize::MAX] elements, so
    this sum does not overflow. *)
Definition become_leader (s : RaftState) : RaftState :=
  let s := set_role Leader s in
  let s := set_leader_id (Some (rs_id s)) s in
  let last := (last_index (rs_log s) + 1)%N in
  let others := filter (λ p, p ≠ rs_id s) (peers s) in
  let s := set_next_index ((λ p, (p, last)) <$> others) s in
  set_match_index ((λ p, (p, 0%N)) <$> others) s.

Definition majority_count (s : RaftState) : N := (vec_len (peers s) / 2 + 1)%N.

(** ** Lemmas *)

Section become_follower_fields.
Variables (t : N) (s : RaftState).

Lemma become_follower_term : current_term (become_follower t s) = N.max (current_term s) t.
Proof. unfold become_follower. case_bool_decide; simpl; lia. Qed.

Lemma become_follower_log : rs_log (become_follower t s) = rs_log s.
Proof. unfold become_follower. by case_bool_decide. Qed.

Lemma become_follower_id : rs_id (become_follower t s) = rs_id s.
Proof. unfold become_follower. by case_bool_decide. Qed.

Lemma become_follower_peers : peers (become_follower t s) = peers s.
Proof. unfold become_follower. by case_bool_decide. Qed.

Lemma become_follower_role : role (become_follower t s) = Follower.
Proof. done. Qed.

Lemma become_follower_commit : commit_index (become_follower t s) = commit_index s.
Proof. unfold become_follower. by case_bool_decide. Qed.

Lemma become_follower_applied : last_applied (become_follower t s) = last_applied s.
Proof. unfold become_follower. by case_bool_decide. Qed.

Lemma become_follower_vote :
  voted_for (become_follower t s) =
  if bool_decide (current_term s < t)%N then None else voted_for s.
Proof. unfold become_follower. by case_bool_decide. Qed.

End become_follower_fields.

Create Rewrite HintDb state.
#[export] Hint Rewrite become_follower_term become_follower_log become_follower_id
  become_follower_peers become_follower_role become_follower_commit become_follower_applied
  become_follower_vote : state.

(** [simpl] would otherwise expose the conditional inside every projection. *)
#[global] Opaque become_follower.
