(* ===== verification/Message.v ===== *)
(** * Raft RPC messages (src/raft/message.rs) *)

From S2P Require Import Prelude Log.

Record RequestVoteRequest : Type := mkRV {
  rv_term : N;
  rv_candidate_id : N;
  rv_last_log_index : N;
  rv_last_log_term : N;
}.

Record RequestVoteResponse : Type := mkRVR {
  rvr_term : N;
  rvr_vote_granted : bool;
}.

Record AppendEntriesRequest : Type := mkAE {
  ae_term : N;
  ae_leader_id : N;
  ae_prev_log_index : N;
  ae_prev_log_term : N;
  ae_entries : list LogEntry;
  ae_leader_commit : N;
}.

Record AppendEntriesResponse : Type := mkAER {
  aer_term : N;
  aer_success : bool;
  aer_match_index : option N;
}.

#[export] Instance RequestVoteRequest_eq_dec : EqDecision RequestVoteRequest.
Proof. solve_decision. Defined.
#[export] Instance RequestVoteResponse_eq_dec : EqDecision RequestVoteResponse.
Proof. solve_decision. Defined.
#[export] Instance AppendEntriesRequest_eq_dec : EqDecision AppendEntriesRequest.
Proof. solve_decision. Defined.
#[export] Instance AppendEntriesResponse_eq_dec : EqDecision AppendEntriesResponse.
Proof. solve_decision. Defined.
