(* ===== verification/Persist.v ===== *)
(** * Durable term, vote and log (src/raft/persist.rs)

    [serde_json] is a third-party crate: its serialiser and parser for
    [PersistentState] are the fields of the class [StateCodec], and what the
    program relies on (parsing what was printed gives the value back) is the
    class [StateCodecLaws].  [StateCodecTorn] is what the program has to reckon
    with: a JSON object that is cut off does not parse. *)

From S2P Require Import Prelude Text Fs Log.

Record PersistentState : Type := mkPersistent {
  ps_current_term : N;
  ps_voted_for : option N;
  ps_log : list LogEntry;
}.

Record StatePersister : Type := { sp_path : string }.

Class StateCodec : Type := {
  to_string_pretty : PersistentState → option string;
  from_str : string → option PersistentState;
}.

Class StateCodecLaws `{StateCodec} : Prop := {
  codec_total : ∀ st, ∃ s, to_string_pretty st = Some s;
  codec_round_trip : ∀ st s, to_string_pretty st = Some s → from_str s = Some st;
  codec_utf8 : ∀ st s, to_string_pretty st = Some s → utf8_valid s = true;
}.

(** A strict prefix of the text of an object lacks the closing brace. *)
Class StateCodecTorn `{StateCodec} : Prop :=
  codec_torn : ∀ st s k, to_string_pretty st = Some s → k < String.length s →
    from_str (str_take k s) = None.

Definition persister_new (path : string) : StatePersister := {| sp_path := path |}.

Definition save `{StateCodec} (p : StatePersister) (st : PersistentState) : io unit :=
  match to_string_pretty st with
  | None => mret (Err IoOther)
  | Some json => _ ?← fs_write (sp_path p) json; mret (Ok tt)
  end.

Definition load `{StateCodec} (p : StatePersister) : io (option PersistentState) :=
  b ← gets (fs_exists (sp_path p));
  if b : bool then
    json ?← fs_read_to_string (sp_path p);
    match from_str json with
    | None => mret (Err IoInvalidData)
    | Some st => mret (Ok (Some st))
    end
  else mret (Ok None).

(** ** Lemmas *)

Section persist.
Context `{StateCodecLaws}.

(** A write that is not interrupted replaces the file by the serialised state. *)
Lemma save_fine p st fs l :
  next_fault fs = (Done Fine, set_faults l fs) →
  ∃ s, from_str s = Some st ∧ utf8_valid s = true ∧
    save p st fs = (Done (Ok tt), set_files (<[sp_path p := s]> (fs_files fs)) (set_faults l fs)).
Proof.
  intros Hf. destruct (codec_total st) as [s Hs]. exists s.
  split_and!; [by eapply codec_round_trip|by eapply codec_utf8|].
  unfold save. rewrite Hs. unfold try_bind, fs_write. rewrite !bind_assoc.
  by rewrite (bind_done _ _ _ _ _ Hf).
Qed.

Lemma save_kill p st fs l :
  next_fault fs = (Done (Kill None), set_faults l fs) →
  save p st fs = (Halted, set_faults l fs).
Proof.
  intros Hf. destruct (codec_total st) as [s Hs].
  unfold save. rewrite Hs. unfold try_bind, fs_write. rewrite !bind_assoc.
  by rewrite (bind_done _ _ _ _ _ Hf).
Qed.

Lemma load_missing p fs : fs_files fs !! sp_path p = None → load p fs = (Done (Ok None), fs).
Proof.
  intros Hp. unfold load. rewrite bind_gets. unfold fs_exists. rewrite Hp.
  by rewrite bool_decide_false by (by intros []).
Qed.

(** A write that is cut off leaves the beginning of the text. *)
Lemma save_torn p st s fs k :
  to_string_pretty st = Some s → fs_faults fs = [Kill (Some k)] →
  save p st fs = (Halted, set_files (<[sp_path p := str_take k s]> (fs_files fs)) (set_faults [] fs)).
Proof.
  intros Hs Hf. unfold save. rewrite Hs. unfold try_bind, fs_write. rewrite !bind_assoc.
  rewrite (bind_done next_fault _ fs (Kill (Some k)) (set_faults [] fs)); [done|].
  unfold next_fault. by rewrite Hf.
Qed.

(** A file whose text does not parse is an error, be it valid UTF-8 or not. *)
Lemma load_unreadable p fs s :
  fs_faults fs = [] → fs_files fs !! sp_path p = Some s → from_str s = None →
  ∃ e, load p fs = (Done (Err e), fs).
Proof.
  intros Hf Hp Hs. unfold load. rewrite bind_gets. unfold fs_exists.
  rewrite Hp, bool_decide_true by eauto. unfold try_bind, fs_read_to_string.
  rewrite bind_assoc, (bind_done _ _ _ _ _ (next_fault_none _ Hf)), bind_assoc, bind_gets, Hp.
  rewrite bind_ret_l. destruct (utf8_valid s); [rewrite Hs|]; by eexists.
Qed.

Lemma load_saved p fs s st :
  fs_faults fs = [] → fs_files fs !! sp_path p = Some s → utf8_valid s = true →
  from_str s = Some st → load p fs = (Done (Ok (Some st)), fs).
Proof.
  intros Hf Hp Hu Hs. unfold load. rewrite bind_gets. unfold fs_exists.
  rewrite Hp, bool_decide_true by eauto. unfold try_bind, fs_read_to_string.
  rewrite bind_assoc, (bind_done _ _ _ _ _ (next_fault_none _ Hf)), bind_assoc, bind_gets, Hp, Hu.
  simpl. by rewrite bind_ret_l, Hs.
Qed.

End persist.
