(* ===== verification/Codec.v ===== *)
(** * A concrete codec

    An instance of [StateCodec] that satisfies [StateCodecLaws]: the state is
    numbered by stdpp's [Countable] and the number is written in binary, with a
    full stop at its end.  It is not the JSON of [serde_json]; it shows that the
    laws are consistent and lets whole runs of the program be evaluated. *)

From stdpp Require Import countable.
From Stdlib Require Import Ascii.
From S2P Require Import Prelude Text Log Persist.

#[export] Instance LogCommand_countable : Countable LogCommand.
Proof.
  refine (inj_countable'
    (λ c, match c with
          | Put k v => inl (k, v) | Delete k => inr (inl k) | Noop => inr (inr tt) end)
    (λ x, match x with
          | inl (k, v) => Put k v | inr (inl k) => Delete k | inr (inr _) => Noop end) _).
  by intros [].
Defined.

#[export] Instance LogEntry_countable : Countable LogEntry.
Proof.
  refine (inj_countable' (λ e, (e_term e, e_command e)) (λ x, mkEntry x.1 x.2) _).
  by intros [].
Defined.

#[export] Instance PersistentState_eq_dec : EqDecision PersistentState.
Proof. solve_decision. Defined.

#[export] Instance PersistentState_countable : Countable PersistentState.
Proof.
  refine (inj_countable' (λ s, (ps_current_term s, ps_voted_for s, ps_log s))
            (λ x, mkPersistent x.1.1 x.1.2 x.2) _).
  by intros [].
Defined.

Fixpoint bits_of_pos (p : positive) : string :=
  match p with
  | xH => "."
  | xO p => String "0"%char (bits_of_pos p)
  | xI p => String "1"%char (bits_of_pos p)
  end.

Fixpoint pos_of_bits (s : string) : option positive :=
  match s with
  | EmptyString => None
  | String c s =>
      if bool_decide (c = "0"%char) then xO <$> pos_of_bits s
      else if bool_decide (c = "1"%char) then xI <$> pos_of_bits s
      else if bool_decide (s = "") then Some xH else None
  end.

#[export] Instance binary_codec : StateCodec := {
  to_string_pretty st := Some (bits_of_pos (encode st));
  from_str s := pos_of_bits s ≫= decode;
}.

Lemma pos_of_bits_of_pos p : pos_of_bits (bits_of_pos p) = Some p.
Proof. induction p; simpl; rewrite ?IHp; done. Qed.

Lemma bits_torn p : ∀ k, k < String.length (bits_of_pos p) → pos_of_bits (str_take k (bits_of_pos p)) = None.
Proof.
  induction p as [p IH|p IH|]; intros [|k] Hk; simpl in *; try done; try lia; by rewrite IH by lia.
Qed.

Lemma bits_utf8 p : utf8_valid (bits_of_pos p) = true.
Proof.
  unfold utf8_valid. apply bool_decide_eq_true. induction p; simpl; done.
Qed.

#[export] Instance binary_codec_laws : StateCodecLaws.
Proof.
  split; simpl.
  - eauto.
  - intros st s [= <-]. rewrite pos_of_bits_of_pos. simpl. by rewrite decode_encode.
  - intros st s [= <-]. apply bits_utf8.
Qed.

#[export] Instance binary_codec_torn : StateCodecTorn.
Proof. intros st s k [= <-] Hk. simpl. by rewrite bits_torn. Qed.

(** The two build profiles. *)
Definition debug_build : Build := {| overflow_checks := true |}.
Definition release_build : Build := {| overflow_checks := false |}.
