(* ===== verification/Node.v ===== *)
(** * The consensus node (src/raft/node.rs)

    Every method of [RaftNode] as a process over the node and the file system
    its persister writes to.  [println!]/[eprintln!] are not represented. *)

From S2P Require Import Prelude Text Fs Log State Message Persist.

(** ** Data *)

Inductive Action : Type :=
| SendRequestVote (to : N) (request : RequestVoteRequest)
| SendRequestVoteResponse (to : N) (response : RequestVoteResponse)
| SendAppendEntries (to : N) (request : AppendEntriesRequest)
| SendAppendEntriesResponse (to : N) (response : AppendEntriesResponse)
| ApplyEntry (index : N) (command : LogCommand).

#[export] Instance Action_eq_dec : EqDecision Action.
Proof. solve_decision. Defined.

Definition ELECTION_TIMEOUT_MIN : N := 30.
Definition ELECTION_TIMEOUT_MAX : N := 60.
Definition HEARTBEAT_INTERVAL : N := 3.

Record RaftNode : Type := mkNode {
  rn_state : RaftState;
  persister : option StatePersister;
  election_timeout : N;
  election_timeout_duration : N;
  heartbeat_timeout : N;
  votes_received : gset N;
  random_seed : N;
}.

Definition set_state (s : RaftState) (n : RaftNode) : RaftNode :=
  mkNode s (persister n) (election_timeout n) (election_timeout_duration n)
    (heartbeat_timeout n) (votes_received n) (random_seed n).
Definition set_election_timeout (t : N) (n : RaftNode) : RaftNode :=
  mkNode (rn_state n) (persister n) t (election_timeout_duration n)
    (heartbeat_timeout n) (votes_received n) (random_seed n).
Definition set_heartbeat_timeout (t : N) (n : RaftNode) : RaftNode :=
  mkNode (rn_state n) (persister n) (election_timeout n) (election_timeout_duration n)
    t (votes_received n) (random_seed n).
Definition set_votes_received (v : gset N) (n : RaftNode) : RaftNode :=
  mkNode (rn_state n) (persister n) (election_timeout n) (election_timeout_duration n)
    (heartbeat_timeout n) v (random_seed n).
Definition update_state (f : RaftState → RaftState) (n : RaftNode) : RaftNode :=
  set_state (f (rn_state n)) n.

(** ** Processes of the node *)

Abbreviation RW := (RaftNode * Fs)%type.

Definition node_get {A} (f : RaftNode → A) : proc RW A := gets (λ w, f w.1).
Definition node_mod (f : RaftNode → RaftNode) : proc RW unit := modify (λ w, (f w.1, w.2)).
Definition state_get {A} (f : RaftState → A) : proc RW A := gets (λ w, f (rn_state w.1)).
Definition state_mod (f : RaftState → RaftState) : proc RW unit :=
  modify (λ w, (update_state f w.1, w.2)).
Definition on_state {A} (m : proc RaftState A) : proc RW A :=
  zoom (λ w : RW, rn_state w.1) (λ s w, (set_state s w.1, w.2)) m.
Definition on_disk {A} (m : proc Fs A) : proc RW A :=
  zoom (λ w : RW, w.2) (λ fs w, (w.1, fs)) m.

(** [reset_election_timeout]: the multiplication and the addition wrap; the
    remainder and the sum of the offset stay below 60. *)
Definition next_seed (seed : N) : N :=
  wrapping_add (wrapping_mul seed 6364136223846793005) 1442695040888963407.

Definition reset_election_timeout (n : RaftNode) : RaftNode :=
  let seed := next_seed (random_seed n) in
  let range := (ELECTION_TIMEOUT_MAX - ELECTION_TIMEOUT_MIN)%N in
  let random_offset := (seed mod range + ELECTION_TIMEOUT_MIN)%N in
  mkNode (rn_state n) (persister n) random_offset random_offset
    (heartbeat_timeout n) (votes_received n) seed.

Definition persistent_of (s : RaftState) : PersistentState :=
  {| ps_current_term := current_term s; ps_voted_for := voted_for s;
     ps_log := to_entries (rs_log s) |}.

(** A failed save is reported on stderr and otherwise ignored. *)
Definition persist `{StateCodec} : proc RW unit :=
  p ← node_get persister;
  match p with
  | None => mret tt
  | Some p =>
      st ← state_get persistent_of;
      r ← on_disk (save p st);
      match r with Ok _ => mret tt | Err _ => mret tt end
  end.

(** ** Construction *)

Definition node_fresh (id : N) (ps : list N) (p : option StatePersister) : RaftNode :=
  mkNode (state_new id ps) p 0 0 HEARTBEAT_INTERVAL ∅ id.

Definition node_new (id : N) (ps : list N) : RaftNode :=
  reset_election_timeout (node_fresh id ps None).

Definition restore (saved : PersistentState) (n : RaftNode) : RaftNode :=
  update_state (λ s,
    set_log (from_entries (ps_log saved))
      (set_voted_for (ps_voted_for saved) (set_current_term (ps_current_term saved) s))) n.

Definition persist_path (data_dir : string) (id : N) : string :=
  path_join data_dir ("raft_state_" +:+ pretty id +:+ ".json").

Definition with_persistence `{StateCodec} (id : N) (ps : list N) (data_dir : string) :
  io RaftNode :=
  _ ?← create_dir_all;
  let p := persister_new (persist_path data_dir id) in
  let node := node_fresh id ps (Some p) in
  loaded ← load p;
  let node := match loaded with
              | Ok (Some saved) => restore saved node
              | _ => node
              end in
  mret (Ok (reset_election_timeout node)).

(** ** Replication messages *)

Definition replicate_to_peer (s : RaftState) (peer_id : N) : option Action :=
  next_idx ← snd <$> list_find (λ p, p.1 = peer_id) (next_index s);
  let next_idx := next_idx.2 in
  let prev_log_index := if bool_decide (0 < next_idx)%N then (next_idx - 1)%N else 0%N in
  let prev_log_term := term_at (rs_log s) prev_log_index in
  let entries := entries_from (rs_log s) next_idx in
  Some (SendAppendEntries peer_id
    {| ae_term := current_term s; ae_leader_id := rs_id s;
       ae_prev_log_index := prev_log_index; ae_prev_log_term := prev_log_term;
       ae_entries := entries; ae_leader_commit := commit_index s |}).

Definition replicate_to_all_peers (s : RaftState) : list Action :=
  omap (λ p, if bool_decide (p = rs_id s) then None else replicate_to_peer s p) (peers s).

Definition send_heartbeats (s : RaftState) : list Action := replicate_to_all_peers s.

(** ** Elections *)

Definition vote_requests (s : RaftState) : list Action :=
  omap (λ p, if bool_decide (p = rs_id s) then None else
    Some (SendRequestVote p
      {| rv_term := current_term s; rv_candidate_id := rs_id s;
         rv_last_log_index := last_index (rs_log s);
         rv_last_log_term := last_term (rs_log s) |})) (peers s).

Definition votes_count (n : RaftNode) : N := N.of_nat (size (votes_received n)).

(** Becoming leader, then heartbeats right away. *)
Definition win_election : proc RW (list Action) :=
  state_mod become_leader ;;
  node_mod (set_heartbeat_timeout 0) ;;
  state_get send_heartbeats.

Definition start_election `{Build, StateCodec} : proc RW (list Action) :=
  on_state become_candidate ;;
  node_mod (λ n, set_votes_received {[ rs_id (rn_state n) ]} n) ;;
  node_mod reset_election_timeout ;;
  persist ;;
  won ← node_get (λ n, bool_decide (majority_count (rn_state n) ≤ votes_count n)%N);
  if won : bool then win_election else state_get vote_requests.

Definition tick_election `{Build, StateCodec} : proc RW (list Action) :=
  t ← node_get election_timeout;
  when (bool_decide (0 < t)%N) (node_mod (set_election_timeout (t - 1))) ;;
  t ← node_get election_timeout;
  if bool_decide (0 < t)%N then mret [] else start_election.

Definition tick_heartbeat : proc RW (list Action) :=
  t ← node_get heartbeat_timeout;
  when (bool_decide (0 < t)%N) (node_mod (set_heartbeat_timeout (t - 1))) ;;
  t ← node_get heartbeat_timeout;
  if bool_decide (0 < t)%N then mret [] else
    node_mod (set_heartbeat_timeout HEARTBEAT_INTERVAL) ;;
    state_get send_heartbeats.

Definition tick `{Build, StateCodec} : proc RW (list Action) :=
  r ← state_get role;
  match r with
  | Follower | Candidate => tick_election
  | Leader => tick_heartbeat
  end.

Definition can_vote (s : RaftState) (candidate : N) : bool :=
  match voted_for s with
  | None => true
  | Some id => bool_decide (id = candidate)
  end.

(** The election restriction: the candidate's log is at least as up to date. *)
Definition candidate_up_to_date (s : RaftState) (request : RequestVoteRequest) : bool :=
  let our_last_term := last_term (rs_log s) in
  let our_last_index := last_index (rs_log s) in
  bool_decide (our_last_term < rv_last_log_term request)%N
  || (bool_decide (rv_last_log_term request = our_last_term)
      && bool_decide (our_last_index ≤ rv_last_log_index request)%N).

Definition handle_request_vote `{StateCodec} (request : RequestVoteRequest) :
  proc RW (list Action) :=
  let candidate := rv_candidate_id request in
  term ← state_get current_term;
  if bool_decide (rv_term request < term)%N then
    mret [SendRequestVoteResponse candidate {| rvr_term := term; rvr_vote_granted := false |}]
  else
    when (bool_decide (term < rv_term request)%N)
      (state_mod (become_follower (rv_term request)) ;; persist) ;;
    vote_granted ← state_get (λ s, can_vote s candidate && candidate_up_to_date s request);
    when vote_granted
      (state_mod (set_voted_for (Some candidate)) ;;
       node_mod reset_election_timeout ;;
       persist) ;;
    term ← state_get current_term;
    mret [SendRequestVoteResponse candidate
            {| rvr_term := term; rvr_vote_granted := vote_granted |}].

Definition handle_request_vote_response `{StateCodec} (from : N)
  (response : RequestVoteResponse) : proc RW (list Action) :=
  r ← state_get role;
  if bool_decide (r ≠ Candidate) then mret [] else
  term ← state_get current_term;
  if bool_decide (term < rvr_term response)%N then
    state_mod (become_follower (rvr_term response)) ;; persist ;; mret []
  else if bool_decide (rvr_term response ≠ term) then mret []
  else
    when (rvr_vote_granted response)
      (node_mod (λ n, set_votes_received ({[ from ]} ∪ votes_received n) n)) ;;
    won ← node_get (λ n, bool_decide (majority_count (rn_state n) ≤ votes_count n)%N);
    if won : bool then win_election else mret [].

(** ** Committing *)

Definition apply_action (l : RaftLog) (index : N) : list Action :=
  match log_get l index with
  | Some e => match e_command e with
              | Noop => []
              | cmd => [ApplyEntry index cmd]
              end
  | None => []
  end.

(** The loop [while last_applied < new_commit_index]; the fuel passed below is
    the distance, so the loop always ends by its own condition. *)
Fixpoint apply_loop (fuel : nat) (new_commit_index : N) (s : RaftState) :
  RaftState * list Action :=
  match fuel with
  | O => (s, [])
  | S fuel =>
      if bool_decide (last_applied s < new_commit_index)%N then
        let s := set_last_applied (last_applied s + 1) s in
        let acts := apply_action (rs_log s) (last_applied s) in
        let '(s, rest) := apply_loop fuel new_commit_index s in
        (s, acts ++ rest)
      else (s, [])
  end.

Definition apply_committed_entries (new_commit_index : N) : proc RW (list Action) :=
  s ← state_get (λ s, s);
  let '(s', actions) := apply_loop (N.to_nat (new_commit_index - last_applied s)) new_commit_index s in
  state_mod (λ _, s') ;;
  state_mod (set_commit_index new_commit_index) ;;
  mret actions.

(** [first ..= last] *)
Definition range_inclusive (first last : N) : list N :=
  (λ i, (first + N.of_nat i)%N) <$> seq 0 (N.to_nat (last + 1 - first)).

Definition replication_count (s : RaftState) (index : N) : N :=
  (1 + vec_len (filter (λ p, (index ≤ p.2)%N) (match_index s)))%N.

Definition advance_step (s : RaftState) (index : N) : RaftState :=
  if bool_decide (term_at (rs_log s) index ≠ current_term s) then s
  else if bool_decide (majority_count s ≤ replication_count s index)%N
       then set_commit_index index s else s.

(** [commit_index] was once an index of the log, so [commit_index + 1] does not
    overflow. *)
Definition maybe_advance_commit_index : proc RW (list Action) :=
  old_commit ← state_get commit_index;
  state_mod (λ s, foldl advance_step s
    (range_inclusive (commit_index s + 1) (last_index (rs_log s)))) ;;
  commit ← state_get commit_index;
  if bool_decide (old_commit < commit)%N then apply_committed_entries commit else mret [].

(** ** AppendEntries *)

(** The conflict scan: skip entries already present, truncate at the first
    conflict, stop at the end of the log; returns the log and the insertion
    point.  [insert_index += 1] runs only when the log has an entry at
    [insert_index], which is then below the length of a [Vec] (at most
    [isize::MAX]): that sum does not overflow. *)
Fixpoint scan_entries (l : RaftLog) (entries : list LogEntry) (insert_index : N) :
  RaftLog * N :=
  match entries with
  | [] => (l, insert_index)
  | entry :: entries =>
      let existing_term := term_at l insert_index in
      if bool_decide (existing_term = 0%N) && bool_decide (last_index l < insert_index)%N
      then (l, insert_index)
      else if bool_decide (existing_term ≠ e_term entry) then
        (truncate_from l insert_index, insert_index)
      else scan_entries l entries (insert_index + 1)
  end.

(** [request.prev_log_index + 1] comes from the network and can overflow. *)
Definition append_new_entries `{Build, StateCodec} (request : AppendEntriesRequest) :
  proc RW unit :=
  if bool_decide (ae_entries request = []) then mret tt else
    start ← add_u64 (ae_prev_log_index request) 1;
    scan ← state_get (λ s, scan_entries (rs_log s) (ae_entries request) start);
    state_mod (set_log scan.1) ;;
    start ← add_u64 (ae_prev_log_index request) 1;
    new_entries_start ← sub_u64 scan.2 start;
    new_entries ← slice_from (ae_entries request) new_entries_start;
    if bool_decide (new_entries = []) then mret tt else
      state_mod (λ s, set_log (log_append_entries (rs_log s) new_entries).1 s) ;;
      persist.

Definition handle_append_entries `{Build, StateCodec} (request : AppendEntriesRequest) :
  proc RW (list Action) :=
  let leader := ae_leader_id request in
  term ← state_get current_term;
  if bool_decide (ae_term request < term)%N then
    mret [SendAppendEntriesResponse leader
            {| aer_term := term; aer_success := false; aer_match_index := None |}]
  else
    state_mod (become_follower (ae_term request)) ;;
    state_mod (set_leader_id (Some leader)) ;;
    node_mod reset_election_timeout ;;
    persist ;;
    prev_term ← state_get (λ s, term_at (rs_log s) (ae_prev_log_index request));
    if bool_decide (prev_term ≠ ae_prev_log_term request) then
      term ← state_get current_term;
      last ← state_get (λ s, last_index (rs_log s));
      mret [SendAppendEntriesResponse leader
              {| aer_term := term; aer_success := false; aer_match_index := Some last |}]
    else
      append_new_entries request ;;
      commit ← state_get commit_index;
      applied ← (if bool_decide (commit < ae_leader_commit request)%N then
                   last ← state_get (λ s, last_index (rs_log s));
                   apply_committed_entries (N.min (ae_leader_commit request) last)
                 else mret []);
      term ← state_get current_term;
      last ← state_get (λ s, last_index (rs_log s));
      mret (applied ++
            [SendAppendEntriesResponse leader
               {| aer_term := term; aer_success := true; aer_match_index := Some last |}]).

(** [for (id, x) in &mut v { if *id == from { *x = f(x); break; } }] *)
Fixpoint update_first {W} (from : N) (f : N → proc W N) (v : list (N * N)) :
  proc W (list (N * N)) :=
  match v with
  | [] => mret []
  | (id, x) :: v =>
      if bool_decide (id = from) then y ← f x; mret ((id, y) :: v)
      else v ← update_first from f v; mret ((id, x) :: v)
  end.

Definition update_next_index (from : N) (f : N → proc RW N) : proc RW unit :=
  v ← state_get next_index;
  v ← update_first from f v;
  state_mod (set_next_index v).

Definition update_match_index (from : N) (f : N → proc RW N) : proc RW unit :=
  v ← state_get match_index;
  v ← update_first from f v;
  state_mod (set_match_index v).

Definition handle_append_entries_response `{Build, StateCodec} (from : N)
  (response : AppendEntriesResponse) : proc RW (list Action) :=
  r ← state_get role;
  if bool_decide (r ≠ Leader) then mret [] else
  term ← state_get current_term;
  if bool_decide (term < aer_term response)%N then
    state_mod (become_follower (aer_term response)) ;; persist ;; mret []
  else if aer_success response then
    match aer_match_index response with
    | Some match_idx =>
        update_match_index from (λ _, mret match_idx) ;;
        update_next_index from (λ _, add_u64 match_idx 1)
    | None => mret tt
    end ;;
    maybe_advance_commit_index
  else
    match aer_match_index response with
    | Some match_idx => update_next_index from (λ _, add_u64 match_idx 1)
    | None => update_next_index from (λ ni, mret (if bool_decide (1 < ni)%N then (ni - 1)%N else ni))
    end ;;
    mret [].

(** ** Proposals *)

Definition propose `{Build, StateCodec} (command : LogCommand) :
  proc RW (option (list Action)) :=
  r ← state_get role;
  if bool_decide (r ≠ Leader) then mret None else
    state_mod (λ s, set_log (log_append (rs_log s)
                 {| e_term := current_term s; e_command := command |}).1 s) ;;
    persist ;;
    actions ← state_get replicate_to_all_peers;
    commit_actions ← maybe_advance_commit_index;
    mret (Some (actions ++ commit_actions)).

(** ** Entry points

    Everything the rest of the program can call on a node that changes it. *)
Inductive RaftInput : Type :=
| InTick
| InRequestVote (request : RequestVoteRequest)
| InRequestVoteResponse (from : N) (response : RequestVoteResponse)
| InAppendEntries (request : AppendEntriesRequest)
| InAppendEntriesResponse (from : N) (response : AppendEntriesResponse)
| InPropose (command : LogCommand).

Definition handle_input `{Build, StateCodec} (i : RaftInput) : proc RW (list Action) :=
  match i with
  | InTick => tick
  | InRequestVote request => handle_request_vote request
  | InRequestVoteResponse from response => handle_request_vote_response from response
  | InAppendEntries request => handle_append_entries request
  | InAppendEntriesResponse from response => handle_append_entries_response from response
  | InPropose command => o ← propose command; mret (default [] o)
  end.
