(* ===== verification/Commit.v ===== *)
(** * Committing and applying (src/raft/node.rs)

    [apply_committed_entries] and [maybe_advance_commit_index] as equations, and
    what they guarantee: committed entries are handed to the state machine once
    each and in log order, and the leader's commit index is the largest index of
    its own term that its [match_index] table places on a majority. *)

From S2P Require Import Prelude Fs Log State Message Persist Node.
From Stdlib Require Import Sorted.

(** ** Reference definitions *)

(** An index the leader may commit, by the two conditions of the code. *)
Definition committable (s : RaftState) (index : N) : bool :=
  bool_decide (term_at (rs_log s) index = current_term s)
  && bool_decide (majority_count s ≤ replication_count s index)%N.

(** The largest committable index above the present commit index, if any. *)
Definition new_commit_index (s : RaftState) : N :=
  foldl (λ c i, if committable s i then i else c) (commit_index s)
    (range_inclusive (commit_index s + 1) (last_index (rs_log s))).

Definition commit_to (c : N) (s : RaftState) : RaftState :=
  set_commit_index c (set_last_applied (N.max (last_applied s) c) s).

(** The apply actions of a range of indices. *)
Definition applied_actions (l : RaftLog) (first last : N) : list Action :=
  range_inclusive first last ≫= apply_action l.

(** ** Ranges *)

Lemma range_inclusive_nil a b : (b < a)%N → range_inclusive a b = [].
Proof. intros. unfold range_inclusive. by replace (N.to_nat (b + 1 - a)) with 0 by lia. Qed.

Lemma range_inclusive_cons a b :
  (a ≤ b)%N → range_inclusive a b = a :: range_inclusive (a + 1) b.
Proof.
  intros. unfold range_inclusive.
  replace (N.to_nat (b + 1 - a)) with (S (N.to_nat (b + 1 - (a + 1)))) by lia.
  rewrite <-cons_seq, fmap_cons. f_equal; [lia|].
  rewrite <-fmap_S_seq, <-list_fmap_compose. apply list_fmap_ext. intros i x _. simpl. lia.
Qed.

Lemma elem_of_range_inclusive a b x : x ∈ range_inclusive a b ↔ (a ≤ x ≤ b)%N.
Proof.
  unfold range_inclusive. rewrite list_elem_of_fmap. split.
  - intros (i & -> & Hi%elem_of_seq). lia.
  - intros Hx. exists (N.to_nat (x - a)). split; [lia|]. apply elem_of_seq. lia.
Qed.

Lemma range_inclusive_snoc a b :
  (a ≤ b + 1)%N → range_inclusive a (b + 1) = range_inclusive a b ++ [(b + 1)%N].
Proof.
  intros. unfold range_inclusive.
  replace (N.to_nat (b + 1 + 1 - a)) with (N.to_nat (b + 1 - a) + 1) by lia.
  rewrite seq_app, fmap_app. f_equal. simpl. f_equal. lia.
Qed.

(** ** Applying *)

Lemma set_last_applied_twice a b s :
  set_last_applied a (set_last_applied b s) = set_last_applied a s.
Proof. done. Qed.

Lemma set_last_applied_id s : set_last_applied (last_applied s) s = s.
Proof. by destruct s. Qed.

(** The loop ends by its own condition and emits the range in order. *)
Lemma apply_loop_spec k c s :
  N.to_nat (c - last_applied s) = k →
  apply_loop k c s =
    (set_last_applied (N.max (last_applied s) c) s,
     applied_actions (rs_log s) (last_applied s + 1) c).
Proof.
  revert s. induction k as [|k IH]; intros s Hk; simpl.
  - unfold applied_actions. rewrite range_inclusive_nil by lia.
    rewrite N.max_l by lia. by rewrite set_last_applied_id.
  - rewrite bool_decide_true by lia.
    rewrite (IH (set_last_applied (last_applied s + 1) s)) by (simpl; lia). simpl.
    unfold applied_actions. rewrite (range_inclusive_cons (last_applied s + 1)) by lia.
    rewrite set_last_applied_twice. do 2 f_equal. lia.
Qed.

Lemma apply_committed_entries_run c (w : RW) :
  apply_committed_entries c w =
    (Done (applied_actions (rs_log (rn_state w.1)) (last_applied (rn_state w.1) + 1) c),
     (update_state (commit_to c) w.1, w.2)).
Proof.
  unfold apply_committed_entries, state_get, state_mod. rewrite bind_gets.
  by rewrite (apply_loop_spec _ _ _ eq_refl).
Qed.

(** ** Advancing *)

Lemma foldl_advance_step idx s :
  foldl advance_step s idx =
  set_commit_index (foldl (λ c i, if committable s i then i else c) (commit_index s) idx) s.
Proof.
  revert s. induction idx as [|i idx IH]; intros s; simpl; [by destruct s|].
  rewrite IH. unfold advance_step, committable.
  destruct (decide (term_at (rs_log s) i = current_term s)) as [Ht|Ht].
  - rewrite (bool_decide_true (_ = _)), (bool_decide_false (_ ≠ _)) by auto. simpl.
    by case_bool_decide.
  - by rewrite (bool_decide_false (_ = _)), (bool_decide_true (_ ≠ _)) by auto.
Qed.

Lemma maybe_advance_run (w : RW) :
  let s := rn_state w.1 in
  maybe_advance_commit_index w =
    if bool_decide (commit_index s < new_commit_index s)%N
    then (Done (applied_actions (rs_log s) (last_applied s + 1) (new_commit_index s)),
          (update_state (commit_to (new_commit_index s)) w.1, w.2))
    else (Done [], (update_state (set_commit_index (new_commit_index s)) w.1, w.2)).
Proof.
  simpl. unfold maybe_advance_commit_index, state_get, state_mod.
  rewrite bind_gets, bind_modify, bind_gets. unfold update_state. simpl.
  rewrite foldl_advance_step. simpl.
  fold (new_commit_index (rn_state w.1)). case_bool_decide; [|done].
  by rewrite apply_committed_entries_run.
Qed.

(** The fold picks the last committable index of the range. *)
Lemma foldl_last_committable (f : N → bool) c idx :
  let r := foldl (λ c i, if f i then i else c) c idx in
  (r = c ∧ ∀ i, i ∈ idx → f i = false) ∨ (r ∈ idx ∧ f r = true).
Proof.
  revert c. induction idx as [|i idx IH]; intros c; simpl; [left; by split; [|intros ? ?%not_elem_of_nil]|].
  destruct (IH (if f i then i else c)) as [[-> Hall]|[Hin Hf]].
  - destruct (f i) eqn:Hi; [right; split; [left|done]|left].
    split; [done|]. intros j [->|Hj]%elem_of_cons; auto.
  - right. split; [by right|done].
Qed.

Lemma foldl_range_max (f : N → bool) c a b i :
  (a ≤ i ≤ b)%N → f i = true →
  (i ≤ foldl (λ c i, if f i then i else c) c (range_inclusive a b))%N.
Proof.
  intros [Ha Hb] Hf. revert Hb. induction b as [|b IH] using N.peano_ind; intros Hb.
  - lia.
  - rewrite <-N.add_1_r in *. rewrite range_inclusive_snoc by lia. rewrite foldl_app. simpl.
    destruct (decide (i = b + 1)%N) as [<-|]; [by rewrite Hf|].
    specialize (IH ltac:(lia)). case_match; [lia|done].
Qed.

(** ** Majorities *)

Section quorum.
Variables (s : RaftState) (logs : N → RaftLog).

(** Two logs agree up to an index: same entry at every index up to it. *)
Definition agree_up_to (i : N) (l l' : RaftLog) : Prop :=
  ∀ j, (j ≤ i)%N → log_get l j = log_get l' j.

(** The leader's table is truthful: what it records as replicated on a peer is
    in that peer's log. *)
Definition match_index_truthful : Prop :=
  ∀ p m, (p, m) ∈ match_index s → agree_up_to m (rs_log s) (logs p).

Definition holders (index : N) : list N :=
  rs_id s :: (filter (λ p, (index ≤ p.2)%N) (match_index s)).*1.

End quorum.

(** ** The properties *)

(** The new commit index is the old one, when no index of the log above it is
    committable, or a committable index above it; and no committable index of
    the log is beyond it. *)
Lemma new_commit_index_spec s :
  let c := new_commit_index s in
  (commit_index s ≤ c)%N ∧
  (c ≠ commit_index s → committable s c = true ∧ (c ≤ last_index (rs_log s))%N) ∧
  (∀ i, (c < i ≤ last_index (rs_log s))%N → committable s i = false).
Proof.
  simpl. pose proof (foldl_last_committable (committable s) (commit_index s)
    (range_inclusive (commit_index s + 1) (last_index (rs_log s)))) as Hc. simpl in Hc.
  fold (new_commit_index s) in Hc. split_and!.
  - destruct Hc as [[-> _]|[Hin _]]; [lia|]. apply elem_of_range_inclusive in Hin. lia.
  - destruct Hc as [[-> _]|[Hin Hf]]; [done|]. intros _. split; [done|].
    apply elem_of_range_inclusive in Hin. lia.
  - intros i Hi. apply not_true_iff_false. intros Hf.
    assert (commit_index s ≤ new_commit_index s)%N.
    { destruct Hc as [[-> _]|[Hin _]]; [lia|]. apply elem_of_range_inclusive in Hin. lia. }
    pose proof (foldl_range_max (committable s) (commit_index s) (commit_index s + 1)
      (last_index (rs_log s)) i ltac:(lia) Hf) as Hle.
    fold (new_commit_index s) in Hle. lia.
Qed.

Lemma length_holders s i : vec_len (holders s i) = replication_count s i.
Proof. unfold holders, replication_count, vec_len. simpl. rewrite length_fmap. lia. Qed.

Lemma elem_of_applied_actions l a b i cmd :
  ApplyEntry i cmd ∈ applied_actions l a b ↔
  (a ≤ i ≤ b)%N ∧ cmd ≠ Noop ∧ ∃ e, log_get l i = Some e ∧ e_command e = cmd.
Proof.
  unfold applied_actions. rewrite list_elem_of_bind. setoid_rewrite elem_of_range_inclusive.
  unfold apply_action. split.
  - intros (j & Hin & Hj). destruct (log_get l j) as [[t c]|] eqn:E; simpl in *; [|by apply not_elem_of_nil in Hin].
    destruct c; try (by apply not_elem_of_nil in Hin);
      apply list_elem_of_singleton in Hin; simplify_eq; split_and!; eauto; lia.
  - intros (Hi & Hn & [t c] & He & <-). exists i. split; [|lia]. rewrite He. simpl in *.
    destruct c; [by left..|done].
Qed.

(** The indices of the emitted actions, in the order they are emitted. *)
Definition apply_index (a : Action) : N :=
  match a with ApplyEntry i _ => i | _ => 0%N end.

Lemma apply_action_index l i a : a ∈ apply_action l i → apply_index a = i.
Proof.
  unfold apply_action. repeat case_match; intros Ha; try (by apply not_elem_of_nil in Ha);
    by apply list_elem_of_singleton in Ha as ->.
Qed.

Lemma applied_actions_sorted l a b :
  StronglySorted N.lt (apply_index <$> applied_actions l a b).
Proof.
  remember (N.to_nat (b + 1 - a)) as n eqn:Hn. revert a Hn.
  induction n as [|n IH]; intros a Hn; unfold applied_actions.
  - rewrite range_inclusive_nil by lia. constructor.
  - rewrite range_inclusive_cons by lia. rewrite bind_cons, fmap_app.
    assert (Forall (λ j, (a < j)%N) (apply_index <$> applied_actions l (a + 1) b)) as Hall.
    { apply Forall_fmap, Forall_forall. intros x Hx. unfold applied_actions in Hx.
      apply list_elem_of_bind in Hx as (j & Hx & Hj%elem_of_range_inclusive).
      simpl. rewrite (apply_action_index _ _ _ Hx). lia. }
    specialize (IH (a + 1)%N ltac:(lia)). fold (applied_actions l (a + 1) b).
    unfold apply_action at 1. repeat case_match; simpl; try done; by constructor.
Qed.

(** C18: committed entries reach the state machine exactly once and in log order.
    [apply_committed_entries c] emits an [ApplyEntry] for precisely the indices
    after [last_applied] up to [c] that hold a command other than [Noop], each
    with the command the log has there, in strictly increasing index order; it
    then stands at [commit_index = c] and [last_applied >= c], and changes
    nothing else. *)
Theorem apply_in_order_exactly_once c (w : RW) :
  let s := rn_state w.1 in
  ∃ actions,
    apply_committed_entries c w = (Done actions, (update_state (commit_to c) w.1, w.2)) ∧
    StronglySorted N.lt (apply_index <$> actions) ∧
    ∀ i cmd, ApplyEntry i cmd ∈ actions ↔
      (last_applied s < i ≤ c)%N ∧ cmd ≠ Noop ∧
      ∃ e, log_get (rs_log s) i = Some e ∧ e_command e = cmd.
Proof.
  simpl. eexists. split; [apply apply_committed_entries_run|].
  split; [apply applied_actions_sorted|]. intros i cmd. rewrite elem_of_applied_actions.
  split; intros (? & ? & ?); split_and!; try done; lia.
Qed.

Lemma maybe_advance_commit (w : RW) :
  ∃ actions w', maybe_advance_commit_index w = (Done actions, w') ∧
    commit_index (rn_state w'.1) = new_commit_index (rn_state w.1).
Proof.
  pose proof (maybe_advance_run w) as Hrun. simpl in Hrun.
  rewrite Hrun. case_bool_decide; by do 2 eexists.
Qed.

Lemma committable_true s i :
  committable s i = true ↔
  term_at (rs_log s) i = current_term s ∧ (majority_count s ≤ replication_count s i)%N.
Proof. unfold committable. by rewrite andb_true_iff, !bool_decide_eq_true. Qed.

(** C17: commit advancement is by majority of the current term and maximal.  After
    [maybe_advance_commit_index], the commit index has not decreased; if it
    moved to [c], then [c] is in the log, its entry is of the leader's own term
    and the leader plus the peers whose [match_index] reaches [c] are a
    majority; and no larger index of the log meets both conditions. *)
Theorem commit_index_is_maximal_majority (w : RW) :
  ∃ actions w',
    maybe_advance_commit_index w = (Done actions, w') ∧
    let s := rn_state w.1 in
    let c := commit_index (rn_state w'.1) in
    (commit_index s ≤ c)%N ∧
    (c ≠ commit_index s →
      (c ≤ last_index (rs_log s))%N ∧ term_at (rs_log s) c = current_term s ∧
      (majority_count s ≤ replication_count s c)%N) ∧
    (∀ i, (c < i ≤ last_index (rs_log s))%N → term_at (rs_log s) i = current_term s →
      (replication_count s i < majority_count s)%N).
Proof.
  destruct (new_commit_index_spec (rn_state w.1)) as (H1 & H2 & H3).
  destruct (maybe_advance_commit w) as (acts & w' & Hw & Hc).
  exists acts, w'. split; [done|]. simpl. rewrite Hc. split_and!; [done| |].
  - intros [[? ?]%committable_true ?]%H2. done.
  - intros i Hi Ht. specialize (H3 i Hi). apply N.nle_gt. intros Hle.
    rewrite (proj2 (committable_true _ _)) in H3; done.
Qed.

(** a newly committed entry is on a majority of logs.  If the leader's
    [match_index] table is truthful about the logs of its peers, and lists each
    peer once, then whenever [maybe_advance_commit_index] raises the commit index
    to [c] there is a set of at least [majority_count] distinct nodes, the leader
    among them, whose logs all agree with the leader's up to [c]. *)
Theorem commit_replicated_on_majority (w : RW) (logs : N → RaftLog) actions w' :
  let s := rn_state w.1 in
  let c := commit_index (rn_state w'.1) in
  match_index_truthful s logs → logs (rs_id s) = rs_log s →
  NoDup (rs_id s :: (match_index s).*1) →
  maybe_advance_commit_index w = (Done actions, w') →
  (commit_index s < c)%N →
  ∃ Q : list N, NoDup Q ∧ rs_id s ∈ Q ∧ (majority_count s ≤ vec_len Q)%N ∧
    Q ⊆ rs_id s :: (match_index s).*1 ∧
    ∀ q, q ∈ Q → agree_up_to c (rs_log s) (logs q).
Proof.
  simpl. intros Htrue Hself Hnd Hrun Hc.
  destruct (maybe_advance_commit w) as (acts & w'' & Hw & Hn). rewrite Hrun in Hw.
  simplify_eq. destruct (new_commit_index_spec (rn_state w.1)) as (_ & Hmaj & _).
  rewrite <-Hn in Hmaj. destruct (Hmaj ltac:(lia)) as [[_ Hcount]%committable_true _].
  exists (holders (rn_state w.1) (commit_index (rn_state w''.1))). split_and!.
  - apply NoDup_cons in Hnd as [Hid Hnd]. apply NoDup_cons. split; [|by apply NoDup_fst_filter].
    contradict Hid. by apply fst_filter_subseteq in Hid.
  - left.
  - by rewrite length_holders.
  - intros q [->|Hq]%elem_of_cons; [left|right]. by apply fst_filter_subseteq in Hq.
  - intros q [->|Hq]%elem_of_cons; [by rewrite Hself|].
    apply list_elem_of_fmap in Hq as ((x & m) & -> & [Hm Hin]%list_elem_of_filter).
    intros j Hj. apply (Htrue x m Hin). simpl in *. lia.
Qed.

(** A leader of term 1 of three nodes whose first entry has reached node 2. *)
Definition sample_log : RaftLog := mkLog [sentinel; mkEntry 1 (Put "k" "v")].

Definition sample_leader : RW :=
  (set_state (mkState 1 [1; 2; 3] 1 (Some 1) sample_log 0 0 [(2, 2); (3, 1)] [(2, 1); (3, 0)]
                Leader (Some 1))%N (node_new 1 [1; 2; 3]%N),
   {| fs_files := ∅; fs_durable := ∅; fs_faults := [] |}).

Definition sample_logs (p : N) : RaftLog :=
  if bool_decide (p = 3)%N then log_new else sample_log.

Lemma commit_replicated_on_majority_witness :
  let s := rn_state sample_leader.1 in
  ∃ Q : list N, NoDup Q ∧ rs_id s ∈ Q ∧ (majority_count s ≤ vec_len Q)%N ∧
    Q ⊆ rs_id s :: (match_index s).*1 ∧
    ∀ q, q ∈ Q →
      agree_up_to (commit_index (rn_state (maybe_advance_commit_index sample_leader).2.1))
        (rs_log s) (sample_logs q).
Proof.
  apply (commit_replicated_on_majority sample_leader sample_logs
    [ApplyEntry 1 (Put "k" "v")] (maybe_advance_commit_index sample_leader).2).
  - intros p m Hin j Hj. simpl in Hin.
    apply elem_of_cons in Hin as [[= -> ->]|Hin]; [reflexivity|].
    apply list_elem_of_singleton in Hin as [= -> ->]. replace j with 0%N by lia. reflexivity.
  - reflexivity.
  - apply (bool_decide_unpack _). vm_compute. exact I.
  - vm_compute. reflexivity.
  - vm_compute. reflexivity.
Defined.
