(* ===== verification/Durability.v ===== *)
(** * Durability of term, vote and log

    What a node would recover from its disk ([disk_state]) is at all times the
    term, vote and log it holds in memory once a handler has returned: every
    handler of src/raft/node.rs calls [persist] before it hands out a message.
    The file system may kill the process at any write, before the write takes
    effect, but does not tear writes or return errors ([crash_only]; Unsafety.v has
    what happens otherwise); what is on disk then is never behind, in the order
    [vote_le], what was there before. *)

From S2P Require Import Prelude Text Fs Log State Message Persist Codec Node Commit.

(** ** What is on disk *)

Definition fresh_state : PersistentState :=
  {| ps_current_term := 0; ps_voted_for := None; ps_log := [sentinel] |}.

Definition normalise (st : PersistentState) : PersistentState :=
  {| ps_current_term := ps_current_term st; ps_voted_for := ps_voted_for st;
     ps_log := l_entries (from_entries (ps_log st)) |}.

Definition disk_state `{StateCodec} (p : StatePersister) (fs : Fs) : PersistentState :=
  match fs_files fs !! sp_path p with
  | None => fresh_state
  | Some s =>
      if utf8_valid s then from_option normalise fresh_state (from_str s) else fresh_state
  end.

Record coherent `{StateCodec} (p : StatePersister) (w : RW) : Prop := {
  coh_persister : persister w.1 = Some p;
  coh_crash_only : crash_only (fs_faults w.2);
  coh_disk : disk_state p w.2 = persistent_of (rn_state w.1);
  coh_log : l_entries (rs_log (rn_state w.1)) ≠ [];
}.

(** ** The order of votes

    A later term supersedes everything; within a term, a vote may be cast but
    not changed or withdrawn. *)
Definition vote_of (st : PersistentState) : N * option N :=
  (ps_current_term st, ps_voted_for st).

Definition vote_le (a b : N * option N) : Prop :=
  (a.1 < b.1)%N ∨ (a.1 = b.1 ∧ (a.2 = None ∨ a.2 = b.2)).

#[export] Instance vote_le_preorder : PreOrder vote_le.
Proof.
  split.
  - intros a. right. auto.
  - intros [t1 v1] [t2 v2] [t3 v3]. unfold vote_le. simpl. intros [?|[-> [->| ->]]] [?|[-> [->| ->]]]; auto; left; lia.
Qed.

(** ** Steps

    What one call of a handler does to the durable state: it returns in a
    coherent world whose vote is at least the previous one ([advanced]), or the
    process dies with such a vote and the previous log on disk ([crashed]). *)
Definition advanced `{StateCodec} (p : StatePersister) (w w' : RW) : Prop :=
  coherent p w' ∧
  vote_le (vote_of (persistent_of (rn_state w.1))) (vote_of (persistent_of (rn_state w'.1))) ∧
  rs_id (rn_state w'.1) = rs_id (rn_state w.1) ∧ peers (rn_state w'.1) = peers (rn_state w.1).

Definition crashed `{StateCodec} (p : StatePersister) (w w' : RW) : Prop :=
  vote_le (vote_of (disk_state p w.2)) (vote_of (disk_state p w'.2)) ∧
  ps_log (disk_state p w'.2) = ps_log (disk_state p w.2).

(** ** Lemmas *)

Ltac node_unfold := unfold node_get, node_mod, state_get, state_mod, on_state, on_disk.
Ltac node_step := node_unfold; wp_step; simpl.

Lemma set_log_id s : set_log (rs_log s) s = s.
Proof. by destruct s. Qed.

Lemma update_state_id n : update_state (λ s, s) n = n.
Proof. by destruct n. Qed.

Lemma set_state_id n : set_state (rn_state n) n = n.
Proof. by destruct n. Qed.

Lemma scan_entries_spec l es : ∀ i l' i',
  scan_entries l es i = (l', i') →
  ∃ k, i' = (i + N.of_nat k)%N ∧ k ≤ length es ∧
    (l' = l ∨ (k < length es ∧ l' = truncate_from l i')).
Proof.
  induction es as [|e es IH]; intros i l' i' Hs; simpl in Hs.
  - simplify_eq. exists 0. split_and!; [lia|lia|by left].
  - destruct (bool_decide (term_at l i = 0%N) && bool_decide (last_index l < i)%N).
    { simplify_eq. exists 0. split_and!; [lia|simpl; lia|by left]. }
    case_bool_decide.
    + simplify_eq. exists 0. simpl. split_and!; [lia|lia|]. right. split; [lia|done].
    + apply IH in Hs as (k & -> & Hk & Hl). exists (S k). simpl.
      split_and!; [lia|lia|]. destruct Hl as [->|[? ->]]; [by left|right]. split; [lia|done].
Qed.

Section durability.
Context `{StateCodecLaws} `{Build} (p : StatePersister).

Lemma disk_state_files fs fs' :
  fs_files fs' = fs_files fs → disk_state p fs' = disk_state p fs.
Proof. unfold disk_state. by intros ->. Qed.

Lemma disk_state_saved fs s st :
  fs_files fs !! sp_path p = Some s → utf8_valid s = true → from_str s = Some st →
  disk_state p fs = normalise st.
Proof. unfold disk_state. intros -> -> ->. done. Qed.

Lemma normalise_persistent_of s :
  l_entries (rs_log s) ≠ [] → normalise (persistent_of s) = persistent_of s.
Proof.
  intros Hl. unfold normalise, persistent_of, to_entries, from_entries. simpl.
  by rewrite bool_decide_false.
Qed.

(** [persist] writes exactly the in-memory state, or the process dies with the
    previous one still on disk. *)
Lemma persist_spec n fs :
  persister n = Some p → crash_only (fs_faults fs) → l_entries (rs_log (rn_state n)) ≠ [] →
  wp persist (n, fs)
    (λ _ w, w.1 = n ∧ coherent p w)
    (λ w, w.1 = n ∧ disk_state p w.2 = disk_state p fs).
Proof.
  intros Hp Hf Hl. unfold persist. node_step. node_step. rewrite Hp. node_step. node_step.
  node_step. node_step.
  destruct (crash_only_next _ Hf) as (f & l & Hn & [->| ->] & Hl').
  - destruct (save_fine p (persistent_of (rn_state n)) fs l Hn) as (s & Hs & Hu & Hsave).
    unfold wp. rewrite Hsave. simpl. split; [done|]. split; simpl; [done..| |done].
    rewrite (disk_state_saved _ s (persistent_of (rn_state n))); simpl;
      [by apply normalise_persistent_of|by rewrite lookup_insert_eq|done..].
  - unfold wp. rewrite (save_kill _ _ _ _ Hn). simpl. split; [done|].
    by apply disk_state_files.
Qed.

Lemma append_new_entries_spec request w :
  coherent p w →
  wp (append_new_entries request) w
    (λ _ w', coherent p w' ∧ ∃ l', w'.1 = update_state (set_log l') w.1)
    (λ w', disk_state p w'.2 = disk_state p w.2).
Proof.
  intros [Hp Hf Hd Hl]. destruct w as [n fs]. simpl in *. unfold append_new_entries.
  assert (coherent p (n, fs) ∧ ∃ l', n = update_state (set_log l') n) as Hsame.
  { split; [by split|]. exists (rs_log (rn_state n)). unfold update_state.
    by rewrite set_log_id, set_state_id. }
  wp_step; [by wp_step|]. apply bool_decide_eq_false in Heqb. wp_step.
  apply wp_add_u64; [|done]. set (start := wrap64 _). node_step. node_step.
  destruct (scan_entries _ _ start) as [l' i'] eqn:Hs. simpl. node_step. node_step.
  wp_step. apply wp_add_u64; [|done]. fold start. wp_step.
  apply scan_entries_spec in Hs as (k & -> & Hk & Hl'). apply wp_sub_u64; [|done].
  intros z Hz. rewrite Hz by lia. wp_step. apply wp_slice_from; [|done].
  replace (N.to_nat (start + N.of_nat k - start)) with k by lia. wp_step.
  - wp_step. apply bool_decide_eq_true in Heqb0.
    destruct Hl' as [->|[Hlt _]].
    + unfold update_state. by rewrite set_log_id, set_state_id.
    + apply (f_equal length) in Heqb0. rewrite length_drop in Heqb0. simpl in *. lia.
  - apply bool_decide_eq_false in Heqb0. node_step. node_step.
    eapply wp_mono; [apply persist_spec; [done..|]| |]; simpl.
    + by intros [_ ?]%app_eq_nil.
    + intros _ w [-> Hc]. split; [done|]. by eexists.
    + by intros w [_ ->].
Qed.

Lemma advanced_refl w : coherent p w → advanced p w w.
Proof. intros. by split_and!. Qed.

Lemma advanced_trans w1 w2 w3 : advanced p w1 w2 → advanced p w2 w3 → advanced p w1 w3.
Proof.
  intros (_ & ? & ? & ?) (? & ? & ? & ?). split_and!; [done|by etrans|congruence..].
Qed.

Lemma crashed_refl w w' : disk_state p w'.2 = disk_state p w.2 → crashed p w w'.
Proof. intros Hd. unfold crashed. by rewrite Hd. Qed.

Lemma advanced_crashed w1 w2 w3 :
  coherent p w1 → advanced p w1 w2 → ps_log (disk_state p w2.2) = ps_log (disk_state p w1.2) →
  crashed p w2 w3 → crashed p w1 w3.
Proof.
  intros [_ _ Hd _] ([_ _ Hd2 _] & ? & _ & _) Hl (? & Hl'). split; [|congruence].
  rewrite Hd. etrans; [done|]. by rewrite <-Hd2.
Qed.

(** Compose a step that kept the log with the specification of what follows. *)
Lemma wp_advanced {A} (m : proc RW A) w w1 :
  coherent p w → advanced p w w1 → rs_log (rn_state w1.1) = rs_log (rn_state w.1) →
  wp m w1 (λ _ w', advanced p w1 w') (crashed p w1) →
  wp m w1 (λ _ w', advanced p w w') (crashed p w).
Proof.
  intros Hc Ha Hl Hm. eapply wp_mono; [exact Hm| |].
  - intros ? w' ?. by eapply advanced_trans.
  - intros w' ?. eapply advanced_crashed; [done..| |done].
    rewrite (coh_disk _ _ (proj1 Ha)), (coh_disk _ _ Hc). simpl. by rewrite Hl.
Qed.

(** Changing only volatile fields keeps a world coherent. *)
Lemma advanced_volatile n n' fs :
  coherent p (n, fs) → persister n' = persister n →
  persistent_of (rn_state n') = persistent_of (rn_state n) →
  rs_id (rn_state n') = rs_id (rn_state n) → peers (rn_state n') = peers (rn_state n) →
  advanced p (n, fs) (n', fs).
Proof.
  intros [Hp Hf Hd Hl] Hp' Hs Hi Hps. unfold advanced. simpl in *. rewrite Hs.
  split_and!; [|done..]. split; simpl; [congruence|done|congruence|].
  injection Hs as _ _ Hlog. unfold to_entries in Hlog. congruence.
Qed.

(** Changing term and vote upwards, then persisting. *)
Lemma persist_advances n n' fs :
  coherent p (n, fs) → persister n' = persister n →
  vote_le (vote_of (persistent_of (rn_state n))) (vote_of (persistent_of (rn_state n'))) →
  l_entries (rs_log (rn_state n')) ≠ [] →
  rs_id (rn_state n') = rs_id (rn_state n) → peers (rn_state n') = peers (rn_state n) →
  wp persist (n', fs) (λ _ w', w'.1 = n' ∧ advanced p (n, fs) w') (crashed p (n, fs)).
Proof.
  intros [Hp Hf Hd Hl] Hp' Hv Hl' Hi Hps. simpl in *.
  eapply wp_mono; [apply persist_spec; [congruence|done..]| |]; simpl.
  - intros _ w [Hw Hc]. split; [done|]. unfold advanced. rewrite Hw. by split_and!.
  - intros w [_ Hw]. by apply crashed_refl.
Qed.

Lemma become_follower_vote_le t s :
  vote_le (vote_of (persistent_of s)) (vote_of (persistent_of (become_follower t s))).
Proof.
  unfold vote_le, vote_of, persistent_of. simpl. autorewrite with state.
  case_bool_decide; [left; lia|]. right. split; [lia|auto].
Qed.

Lemma persistent_of_commit_to c s : persistent_of (commit_to c s) = persistent_of s.
Proof. done. Qed.

Lemma maybe_advance_advanced w K :
  coherent p w → wp maybe_advance_commit_index w (λ _ w', advanced p w w') K.
Proof.
  intros Hc. unfold wp. rewrite maybe_advance_run. destruct w as [n fs].
  case_bool_decide; by apply advanced_volatile.
Qed.

Lemma win_election_advanced w :
  coherent p w → wp win_election w (λ _ w', advanced p w w') (crashed p w).
Proof.
  intros Hc. destruct w as [n fs]. unfold win_election. do 5 node_step.
  by apply advanced_volatile.
Qed.

Theorem start_election_durable w :
  coherent p w → (current_term (rn_state w.1) + 1 < u64_modulus)%N →
  wp start_election w (λ _ w', advanced p w w') (crashed p w).
Proof.
  intros Hc Ht. destruct w as [n fs]. simpl in Ht. unfold start_election. wp_step. node_step.
  unfold become_candidate. wp_step. wp_step. wp_step. apply wp_add_u64; [|by apply crashed_refl].
  rewrite wrap64_small by done. do 7 (wp_step; simpl). do 4 node_step. wp_step.
  eapply wp_mono; [apply (persist_advances n)|..]; try done; simpl.
  - left. simpl. lia.
  - apply Hc.
  - intros _ w' [Hn Hw']. do 2 node_step. wp_step; [|by node_step].
    apply wp_advanced; [done..|simpl; by rewrite Hn|]. apply win_election_advanced, Hw'.
Qed.

Lemma tick_durable w :
  coherent p w → (current_term (rn_state w.1) + 1 < u64_modulus)%N →
  wp tick w (λ _ w', advanced p w w') (crashed p w).
Proof.
  intros Hc Ht. destruct w as [n fs].
  assert (∀ n', persister n' = persister n → rn_state n' = rn_state n →
    wp (t ← node_get election_timeout;
      if bool_decide (0 < t)%N then mret [] else start_election) (n', fs)
      (λ _ w', advanced p (n, fs) w') (crashed p (n, fs))) as Hel.
  { intros n' Hp Hs.
    assert (advanced p (n, fs) (n', fs)) as Ha by (by apply advanced_volatile; rewrite ?Hs).
    do 2 node_step. wp_step; [by wp_step|]. apply wp_advanced; [done..|simpl; by rewrite Hs|].
    apply start_election_durable; [apply Ha|]. simpl. by rewrite Hs. }
  assert (∀ n', persister n' = persister n → rn_state n' = rn_state n →
    wp (t ← node_get heartbeat_timeout;
      if bool_decide (0 < t)%N then mret [] else
      node_mod (set_heartbeat_timeout HEARTBEAT_INTERVAL) ;; state_get send_heartbeats) (n', fs)
      (λ _ w', advanced p (n, fs) w') (crashed p (n, fs))) as Hhb.
  { intros n' Hp Hs. do 2 node_step. wp_step; [wp_step|do 3 node_step];
      by apply advanced_volatile; simpl; rewrite ?Hs. }
  unfold tick. do 2 node_step.
  destruct (role (rn_state n)); unfold tick_election, tick_heartbeat;
    do 3 node_step; (node_step; [node_step|]); auto.
Qed.

(** Stepping down to a message's term, then persisting. *)
Lemma step_down_advanced t n fs :
  coherent p (n, fs) →
  wp (state_mod (become_follower t) ;; persist) (n, fs)
    (λ _ w', w'.1 = update_state (become_follower t) n ∧ advanced p (n, fs) w')
    (crashed p (n, fs)).
Proof.
  intros Hc. do 2 node_step. apply persist_advances; simpl; autorewrite with state; try done.
  - apply become_follower_vote_le.
  - apply Hc.
Qed.

Lemma grant_vote_le s c :
  can_vote s c = true →
  vote_le (vote_of (persistent_of s)) (vote_of (persistent_of (set_voted_for (Some c) s))).
Proof.
  unfold can_vote, vote_le. simpl. intros Hv. right. split; [done|].
  destruct (voted_for s); [|by left]. apply bool_decide_eq_true in Hv as ->. by right.
Qed.

Lemma handle_request_vote_durable req w :
  coherent p w → wp (handle_request_vote req) w (λ _ w', advanced p w w') (crashed p w).
Proof.
  intros Hc. destruct w as [n fs]. unfold handle_request_vote. do 2 node_step. wp_step.
  { wp_step. by apply advanced_refl. }
  assert (∀ w1, advanced p (n, fs) w1 → rs_log (rn_state w1.1) = rs_log (rn_state n) →
    wp (vote_granted ← state_get (λ s, can_vote s (rv_candidate_id req) && candidate_up_to_date s req);
        when vote_granted
          (state_mod (set_voted_for (Some (rv_candidate_id req))) ;;
           node_mod reset_election_timeout ;; persist) ;;
        term ← state_get current_term;
        mret [SendRequestVoteResponse (rv_candidate_id req)
                {| rvr_term := term; rvr_vote_granted := vote_granted |}]) w1
      (λ _ w', advanced p (n, fs) w') (crashed p (n, fs))) as Hvote.
  { intros [n1 fs1] Ha Hl. apply wp_advanced; [done..|]. destruct Ha as [Hc1 _].
    do 4 node_step; [|do 3 node_step; by apply advanced_refl].
    apply andb_true_iff in Hwhen as [Hcan _]. do 4 node_step.
    eapply wp_mono; [apply (persist_advances n1)|..]; try done; simpl.
    - by apply grant_vote_le.
    - apply Hc1.
    - intros _ w' [_ Hw']. by do 3 node_step. }
  do 2 node_step.
  - eapply wp_mono; [by apply step_down_advanced| |done]. intros _ w1 [Hn Ha].
    apply Hvote; [done|]. rewrite Hn. simpl. by autorewrite with state.
  - apply Hvote; [by apply advanced_refl|done].
Qed.

Lemma step_down_nil_durable {A} t (a : A) n fs :
  coherent p (n, fs) →
  wp (state_mod (become_follower t) ;; persist ;; mret a) (n, fs)
    (λ _ w', advanced p (n, fs) w') (crashed p (n, fs)).
Proof.
  intros Hc. pose proof (step_down_advanced t n fs Hc) as Hs. revert Hs. unfold wp.
  rewrite <-bind_assoc. unfold mbind at 2, proc_bind at 2.
  destruct ((state_mod (become_follower t);; persist) (n, fs)) as [[]]; simpl; naive_solver.
Qed.

Lemma handle_request_vote_response_durable from resp w :
  coherent p w →
  wp (handle_request_vote_response from resp) w (λ _ w', advanced p w w') (crashed p w).
Proof.
  intros Hc. destruct w as [n fs]. unfold handle_request_vote_response. do 2 node_step.
  wp_step; [wp_step; by apply advanced_refl|]. do 2 node_step. wp_step.
  { by apply step_down_nil_durable. }
  wp_step; [wp_step; by apply advanced_refl|]. do 2 node_step.
  - do 4 node_step; [|node_step; by apply advanced_volatile].
    apply wp_advanced; [done|by apply advanced_volatile|done|].
    apply win_election_advanced. eapply advanced_volatile; [exact Hc|done..].
  - do 3 node_step; [|node_step; by apply advanced_refl].
    by apply win_election_advanced.
Qed.

Lemma advanced_set_log n l' w1 :
  coherent p w1 → w1.1 = update_state (set_log l') n →
  vote_le (vote_of (persistent_of (rn_state n))) (vote_of (persistent_of (rn_state w1.1))) ∧
  rs_id (rn_state w1.1) = rs_id (rn_state n) ∧ peers (rn_state w1.1) = peers (rn_state n).
Proof. intros _ ->. by split_and!. Qed.

(** Following the leader's commit index touches volatile fields only. *)
Lemma commit_follower_advanced {A} c (k : list Action → proc RW A) w Q K :
  coherent p w →
  (∀ w' acts, advanced p w w' → wp (k acts) w' Q K) →
  wp (b ← state_get commit_index;
      applied ← (if bool_decide (b < c)%N then
                   last ← state_get (λ s, last_index (rs_log s));
                   apply_committed_entries (N.min c last)
                 else mret []);
      k applied) w Q K.
Proof.
  intros Hc Hk. destruct w as [n fs]. do 3 node_step. wp_step.
  - do 2 node_step. unfold wp at 1. rewrite apply_committed_entries_run.
    apply Hk. by apply advanced_volatile.
  - wp_step. apply Hk. by apply advanced_refl.
Qed.

Lemma handle_append_entries_durable req w :
  coherent p w → wp (handle_append_entries req) w (λ _ w', advanced p w w') (crashed p w).
Proof.
  intros Hc. destruct w as [n fs]. unfold handle_append_entries. do 2 node_step. wp_step.
  { wp_step. by apply advanced_refl. }
  do 7 node_step. eapply wp_mono; [apply (persist_advances n)|..]; try done; simpl.
  1: apply become_follower_vote_le.
  1-3: autorewrite with state; try done; apply Hc.
  intros _ w1 [Hn Ha]. do 2 node_step. wp_step.
  { by do 5 node_step. }
  apply wp_advanced; [done..|rewrite Hn; simpl; by autorewrite with state|].
  destruct Ha as [Hc1 _]. wp_step.
  eapply wp_mono; [by apply append_new_entries_spec| |].
  - intros _ w2 (Hc2 & l' & Hl'). apply commit_follower_advanced; [done|].
    intros w3 acts Ha. do 5 node_step. eapply advanced_trans; [|done].
    split; [done|]. by eapply advanced_set_log.
  - intros w2 Hd. by apply crashed_refl.
Qed.

Lemma update_first_advanced v from f (setter : list (N * N) → RaftState → RaftState) n fs :
  coherent p (n, fs) →
  (∀ v s, persistent_of (setter v s) = persistent_of s ∧ rs_id (setter v s) = rs_id s ∧
     peers (setter v s) = peers s) →
  (∀ x, wp (f x) (n, fs) (λ _ w', w' = (n, fs)) (λ w', w' = (n, fs))) →
  wp (v ← update_first from f v; state_mod (setter v)) (n, fs)
    (λ _ w', advanced p (n, fs) w' ∧ w'.2 = fs) (crashed p (n, fs)).
Proof.
  intros Hc Hset Hf. wp_step.
  assert (wp (update_first from f v) (n, fs) (λ _ w', w' = (n, fs)) (λ w', w' = (n, fs))) as Hu.
  { induction v as [|[i x] v IH]; simpl; [by wp_step|]. wp_step.
    - wp_step. eapply wp_mono; [apply Hf|..]; [|done]. intros y w ->. by wp_step.
    - wp_step. eapply wp_mono; [apply IH|..]; [|done]. intros y w ->. by wp_step. }
  eapply wp_mono; [exact Hu| |].
  - intros v' w ->. node_step. split; [|done].
    destruct (Hset v' (rn_state n)) as (? & ? & ?). by apply advanced_volatile.
  - intros w ->. by apply crashed_refl.
Qed.

Lemma update_index_advanced from f (getter : RaftState → list (N * N)) setter w :
  coherent p w →
  (∀ v s, persistent_of (setter v s) = persistent_of s ∧ rs_id (setter v s) = rs_id s ∧
     peers (setter v s) = peers s) →
  (∀ x, wp (f x) w (λ _ w', w' = w) (λ w', w' = w)) →
  wp (v ← state_get getter; v ← update_first from f v; state_mod (setter v)) w
    (λ _ w', advanced p w w' ∧ w'.2 = w.2) (crashed p w).
Proof. intros. destruct w. do 2 node_step. by apply update_first_advanced. Qed.

Lemma add_u64_frame x y (w : RW) :
  wp (add_u64 x y) w (λ _ w', w' = w) (λ w', w' = w).
Proof. by apply wp_add_u64. Qed.

Lemma wp_volatile_seq {A B} (m : proc RW A) (k : A → proc RW B) w :
  wp m w (λ _ w', advanced p w w' ∧ w'.2 = w.2) (crashed p w) →
  (∀ a w', coherent p w' → wp (k a) w' (λ _ w'', advanced p w' w'') (crashed p w')) →
  wp (m ≫= k) w (λ _ w', advanced p w w') (crashed p w).
Proof.
  intros Hm Hk. wp_step. eapply wp_mono; [exact Hm| |done].
  intros a w' [Ha Hd]. eapply wp_mono; [apply Hk, Ha| |].
  - intros ? w'' ?. by eapply advanced_trans.
  - intros w'' Hcr. unfold crashed in *. by rewrite <-Hd.
Qed.

Lemma handle_append_entries_response_durable from resp w :
  coherent p w →
  wp (handle_append_entries_response from resp) w (λ _ w', advanced p w w') (crashed p w).
Proof.
  intros Hc. destruct w as [n fs]. unfold handle_append_entries_response. do 2 node_step.
  wp_step; [wp_step; by apply advanced_refl|]. do 2 node_step. wp_step.
  { by apply step_down_nil_durable. }
  wp_step; destruct (aer_match_index resp) as [m|].
  - apply wp_assoc, wp_volatile_seq.
    { apply update_index_advanced; [done|done|]. intros x. by wp_step. }
    intros _ w1 Hc1. apply wp_volatile_seq; [|intros; by apply maybe_advance_advanced].
    apply update_index_advanced; [done|done|]. intros x. apply add_u64_frame.
  - wp_step. wp_step. by apply maybe_advance_advanced.
  - apply wp_volatile_seq; [|intros; wp_step; by apply advanced_refl].
    apply update_index_advanced; [done|done|]. intros x. apply add_u64_frame.
  - apply wp_volatile_seq; [|intros; wp_step; by apply advanced_refl].
    apply update_index_advanced; [done|done|]. intros x. by wp_step.
Qed.

Lemma propose_durable cmd w :
  coherent p w → wp (propose cmd) w (λ _ w', advanced p w w') (crashed p w).
Proof.
  intros Hc. destruct w as [n fs]. unfold propose. do 2 node_step.
  wp_step; [wp_step; by apply advanced_refl|]. do 3 node_step.
  eapply wp_mono; [apply (persist_advances n)|..]; try done; simpl.
  { by intros [_ ?]%app_eq_nil. }
  intros _ w1 [Hn Ha]. do 2 node_step. wp_step.
  eapply wp_mono; [apply maybe_advance_advanced, Ha| |done].
  intros acts w2 Ha2. wp_step. by eapply advanced_trans.
Qed.

Lemma load_spec fs :
  crash_only (fs_faults fs) →
  wp (load p) fs
    (λ r fs', fs_files fs' = fs_files fs ∧ crash_only (fs_faults fs') ∧
       disk_state p fs = match r with Ok (Some st) => normalise st | _ => fresh_state end)
    (λ fs', fs_files fs' = fs_files fs ∧ fs_faults fs ≠ []).
Proof.
  intros Hf. unfold load, disk_state. do 2 wp_step. unfold fs_exists.
  destruct (fs_files fs !! sp_path p) as [s|] eqn:Hp.
  - rewrite bool_decide_true by done. unfold fs_read_to_string.
    do 2 wp_step. apply wp_next_fault; [done|]. intros f l [->|[-> Hk]] Hl Hnil; [|done].
    do 2 wp_step. simpl. rewrite Hp. wp_step.
    destruct (utf8_valid s); [|done].
    destruct (from_str s) as [st|]; by wp_step.
  - rewrite bool_decide_false by (by intros []). by wp_step.
Qed.

(** What a restarted node starts from is what its disk holds. *)
Lemma with_persistence_recovers id ps data_dir fs :
  p = persister_new (persist_path data_dir id) →
  crash_only (fs_faults fs) →
  wp (with_persistence id ps data_dir) fs
    (λ r fs', fs_files fs' = fs_files fs ∧ ∃ n, r = Ok n ∧ coherent p (n, fs') ∧
       role (rn_state n) = Follower ∧ rs_id (rn_state n) = id ∧ peers (rn_state n) = ps ∧
       votes_received n = ∅)
    (λ fs', fs_files fs' = fs_files fs ∧ fs_faults fs ≠ []).
Proof.
  intros Hp Hf. unfold with_persistence, create_dir_all. do 2 wp_step.
  apply wp_next_fault; [done|]. intros f l [->|[-> Hk]] Hl Hnil; [|done]. do 2 wp_step.
  rewrite <-Hp. eapply wp_mono; [by apply load_spec| |naive_solver]; simpl.
  intros r fs' (Hfiles & Hl' & Hd). wp_step. split; [done|].
  assert (disk_state p fs' = disk_state p fs) as Hd' by (by apply disk_state_files).
  destruct r as [[st|]|]; eexists; (split; [done|]); (split_and!; [|done..]); split;
    simpl; try done; rewrite ?Hd', ?Hd; try done.
  unfold from_entries. by case_bool_decide.
Qed.

Lemma handle_input_durable i w :
  coherent p w → (i = InTick → current_term (rn_state w.1) + 1 < u64_modulus)%N →
  wp (handle_input i) w (λ _ w', advanced p w w') (crashed p w).
Proof.
  intros Hc Hi. destruct i; simpl.
  - by apply tick_durable; [|apply Hi].
  - by apply handle_request_vote_durable.
  - by apply handle_request_vote_response_durable.
  - by apply handle_append_entries_durable.
  - by apply handle_append_entries_response_durable.
  - wp_step. eapply wp_mono; [by apply propose_durable| |done]. intros; by wp_step.
Qed.

End durability.

(** A node of a three-node cluster on an empty disk. *)
Definition fresh_fs : Fs := {| fs_files := ∅; fs_durable := ∅; fs_faults := [] |}.

Definition example_world : RW :=
  (reset_election_timeout
     (node_fresh 1 [1; 2; 3]%N (Some (persister_new (persist_path "/d" 1)))), fresh_fs).

Lemma example_coherent : coherent (persister_new (persist_path "/d" 1)) example_world.
Proof. split; [done|constructor|vm_compute; reflexivity|done]. Qed.

(** C11: state is on disk before any message leaves.  Take any entry point of the
    node (a tick, one of the four RPC handlers or a proposal) in a world where
    the disk holds the node's term, vote and log, with a disk that may kill the
    process at any write before the write takes effect, but does not tear writes or
    return errors ([coherent]).  If the call returns, the disk again holds exactly the
    term, vote and log in memory, and the vote only moved forward in [vote_le];
    if the process dies, the disk has a vote at least as recent as before and
    the previous log. *)
Theorem persist_before_reply `{StateCodecLaws} `{Build} p i w o w' :
  coherent p w → (i = InTick → current_term (rn_state w.1) + 1 < u64_modulus)%N →
  handle_input i w = (o, w') →
  match o with
  | Done actions => advanced p w w'
  | Halted => crashed p w w'
  end.
Proof. intros Hc Hi Hrun. pose proof (handle_input_durable p i w Hc Hi) as Hwp.
  by apply (wp_run _ _ _ _ _ _ Hwp) in Hrun. Qed.

Lemma persist_before_reply_witness :
  ∃ o w', @handle_input debug_build _ (InRequestVote (mkRV 5 2 0 0)) example_world = (o, w') ∧
    match o with
    | Done _ => advanced (persister_new (persist_path "/d" 1)) example_world w'
    | Halted => crashed (persister_new (persist_path "/d" 1)) example_world w'
    end.
Proof.
  destruct (@handle_input debug_build _ (InRequestVote (mkRV 5 2 0 0)) example_world) as [o w'] eqn:E.
  exists o, w'. split; [reflexivity|].
  apply (@persist_before_reply _ _ debug_build _ (InRequestVote (mkRV 5 2 0 0)));
    [apply example_coherent|discriminate|exact E].
Defined.

(** C12: a crash after any handler loses nothing of the durable state.  From a
    coherent world (term, vote and log on disk; a disk that may kill the process
    but does not tear writes or return errors), run any entry point to completion and restart the process
    with [with_persistence] on the same disk: the new node is a follower with
    the same id, the same peers and the same term, vote and log. *)
Theorem restart_resumes `{StateCodecLaws} `{Build} data_dir id i w actions w' :
  let p := persister_new (persist_path data_dir id) in
  coherent p w → (i = InTick → current_term (rn_state w.1) + 1 < u64_modulus)%N →
  handle_input i w = (Done actions, w') → fs_faults w'.2 = [] →
  ∃ n fs', with_persistence id (peers (rn_state w.1)) data_dir w'.2 = (Done (Ok n), fs') ∧
    role (rn_state n) = Follower ∧ rs_id (rn_state n) = id ∧
    peers (rn_state n) = peers (rn_state w'.1) ∧
    persistent_of (rn_state n) = persistent_of (rn_state w'.1).
Proof.
  simpl. intros Hc Hi Hrun Hf. set (p := persister_new _) in *.
  pose proof (wp_run _ _ _ _ _ _ (handle_input_durable p i w Hc Hi) Hrun) as (Hc' & _ & _ & Hps).
  assert (crash_only (fs_faults w'.2)) as Hco by (rewrite Hf; constructor).
  pose proof (with_persistence_recovers p id (peers (rn_state w.1)) data_dir w'.2 eq_refl Hco) as Hwp.
  unfold wp in Hwp.
  destruct (with_persistence _ _ _ _) as [[r|] fs'] eqn:E.
  - destruct Hwp as (Hfiles & n & -> & Hn & ? & ? & ? & ?). exists n, fs'. split_and!; try done.
    + congruence.
    + pose proof (coh_disk _ _ Hn) as Hd. simpl in Hd. rewrite <-Hd, (disk_state_files _ _ _ Hfiles).
      apply Hc'.
  - by destruct Hwp as [_ []].
Qed.

Definition vote_request : RaftInput := InRequestVote (mkRV 5 2 0 0).

Definition voted_world : RW := (@handle_input debug_build _ vote_request example_world).2.

Lemma restart_resumes_witness :
  ∃ n fs', with_persistence 1 [1; 2; 3]%N "/d" voted_world.2 = (Done (Ok n), fs') ∧
    role (rn_state n) = Follower ∧ rs_id (rn_state n) = 1%N ∧
    peers (rn_state n) = peers (rn_state voted_world.1) ∧
    persistent_of (rn_state n) = persistent_of (rn_state voted_world.1).
Proof.
  apply (@restart_resumes _ _ debug_build "/d" 1%N vote_request example_world
    [SendRequestVoteResponse 2 (mkRVR 5 true)] voted_world).
  - apply example_coherent.
  - discriminate.
  - vm_compute. reflexivity.
  - vm_compute. reflexivity.
Defined.
