(* ===== verification/BTree.v ===== *)
(** * Ordered maps: [std::collections::BTreeMap]

    A map is the list of its entries in increasing key order.  The operations
    are the ones the program uses: [insert], [get], [range(k..).next()],
    [iter().next()], [retain], [values], [len]. *)

From S2P Require Import Prelude.
From Stdlib Require Import Sorted.

(** What [Ord] promises of a key type. *)
Class OrdKey (K : Type) : Type := {
  key_lt : K → K → Prop;
  key_lt_dec :: RelDecision key_lt;
  key_lt_strict :: StrictOrder key_lt;
  key_lt_total : ∀ a b, key_lt a b ∨ a = b ∨ key_lt b a;
}.

#[export] Program Instance N_ord : OrdKey N := {| key_lt := N.lt |}.
Next Obligation. lia. Qed.

Definition string_lt (a b : string) : Prop := String.le a b ∧ a ≠ b.

(** [Ord for String] is the byte-wise lexicographic order. *)
#[export] Program Instance string_ord : OrdKey string := {| key_lt := string_lt |}.
Next Obligation. intros a b. unfold string_lt. apply _. Defined.
Next Obligation.
  split.
  - intros a [_ Ha]. done.
  - intros a b c [Hab Hne] [Hbc Hne']. split; [by etrans|]. intros ->.
    apply Hne'. by apply (anti_symm String.le).
Qed.
Next Obligation.
  intros a b. unfold string_lt. destruct (decide (a = b)) as [->|Hne]; [auto|].
  destruct (total String.le a b); auto.
Qed.

Section btree.
Context {K V : Type} `{!OrdKey K} `{!EqDecision K}.

Fixpoint bt_insert (k : K) (v : V) (m : list (K * V)) : list (K * V) :=
  match m with
  | [] => [(k, v)]
  | (k', v') :: m' =>
      if decide (key_lt k k') then (k, v) :: m
      else if decide (k = k') then (k, v) :: m'
      else (k', v') :: bt_insert k v m'
  end.

Fixpoint bt_get (k : K) (m : list (K * V)) : option V :=
  match m with
  | [] => None
  | (k', v') :: m' => if decide (k = k') then Some v' else bt_get k m'
  end.

(** [m.range(k..).next()] *)
Fixpoint bt_range_next (k : K) (m : list (K * V)) : option (K * V) :=
  match m with
  | [] => None
  | (k', v') :: m' => if decide (key_lt k' k) then bt_range_next k m' else Some (k', v')
  end.

(** [m.iter().next()] *)
Definition bt_first (m : list (K * V)) : option (K * V) := head m.

Definition bt_retain (P : K * V → Prop) `{∀ x, Decision (P x)} (m : list (K * V)) :
  list (K * V) := filter P m.

Definition bt_sorted (m : list (K * V)) : Prop := StronglySorted key_lt m.*1.

(** ** Lemmas *)

Lemma key_lt_irrefl (k : K) : ¬ key_lt k k.
Proof. apply irreflexivity, key_lt_strict. Qed.

Lemma key_lt_asym (a b : K) : key_lt a b → ¬ key_lt b a.
Proof. intros H1 H2. apply (key_lt_irrefl a). by transitivity b. Qed.

Lemma bt_insert_keys k v m k' : k' ∈ (bt_insert k v m).*1 → k' = k ∨ k' ∈ m.*1.
Proof.
  induction m as [|[x y] m IH]; simpl; [set_solver|]. repeat case_decide; simpl; set_solver.
Qed.

Lemma bt_sorted_insert k v m : bt_sorted m → bt_sorted (bt_insert k v m).
Proof.
  unfold bt_sorted. induction m as [|[x y] m IH]; simpl; [by repeat constructor|].
  intros [Hm Hx]%StronglySorted_inv. repeat case_decide; simpl; subst.
  - constructor; [by constructor|]. constructor; [done|].
    eapply Forall_impl; [done|]. intros z Hz. by transitivity x.
  - by constructor.
  - constructor; [auto|]. apply Forall_forall. intros z [->|Hz]%bt_insert_keys.
    + by destruct (key_lt_total k x) as [|[|]].
    + rewrite Forall_forall in Hx. auto.
Qed.

Lemma bt_sorted_retain P `{∀ x, Decision (P x)} m : bt_sorted m → bt_sorted (bt_retain P m).
Proof.
  unfold bt_sorted, bt_retain. induction m as [|x m IH]; [done|]. simpl.
  intros [Hm Hx]%StronglySorted_inv. rewrite filter_cons. case_decide; [|auto].
  simpl. constructor; [auto|]. rewrite Forall_forall in *.
  intros k Hk. apply Hx. by apply fst_filter_subseteq in Hk.
Qed.

Lemma bt_get_insert k k' v m :
  bt_sorted m → bt_get k' (bt_insert k v m) = if decide (k' = k) then Some v else bt_get k' m.
Proof.
  unfold bt_sorted. induction m as [|[x y] m IH]; simpl; [done|].
  intros [Hm Hx]%StronglySorted_inv.
  repeat (case_decide; simpl; subst); try done; rewrite IH by done; by repeat case_decide.
Qed.

Lemma bt_get_elem k v m : bt_sorted m → bt_get k m = Some v ↔ (k, v) ∈ m.
Proof.
  unfold bt_sorted. induction m as [|[x y] m IH]; simpl; [set_solver|].
  intros [Hm Hx]%StronglySorted_inv. rewrite elem_of_cons. case_decide as Hk.
  - subst. split; [intros [= ->]; by left|]. intros [?|Hin]; [naive_solver|].
    rewrite Forall_forall in Hx.
    destruct (key_lt_irrefl x). apply Hx, list_elem_of_fmap. by exists (x, v).
  - rewrite IH by done. naive_solver.
Qed.

(** The successor query: no key of the map lies in between. *)
Lemma bt_range_next_Some k m k' v :
  bt_sorted m → bt_range_next k m = Some (k', v) →
  (k', v) ∈ m ∧ ¬ key_lt k' k ∧ ∀ x, x ∈ m.*1 → key_lt x k ∨ x = k' ∨ key_lt k' x.
Proof.
  unfold bt_sorted. induction m as [|[x y] m IH]; simpl; [done|].
  intros [Hm Hx]%StronglySorted_inv. case_decide.
  - intros Hr. destruct (IH Hm Hr) as (? & ? & Hall). split_and!; [by right|done|].
    intros z [->|Hz]%elem_of_cons; [by left|auto].
  - intros [= -> ->]. split_and!; [by left|done|].
    intros z [->|Hz]%elem_of_cons; [by right; left|]. rewrite Forall_forall in Hx. auto.
Qed.

Lemma bt_range_next_None k m :
  bt_range_next k m = None ↔ ∀ x, x ∈ m.*1 → key_lt x k.
Proof.
  induction m as [|[x y] m IH]; simpl; [split; [set_solver|done]|]. case_decide as Hx.
  - rewrite IH. split; [|set_solver]. intros ? z [->|]%elem_of_cons; auto.
  - split; [done|]. intros Hall. destruct Hx. apply Hall. by left.
Qed.

Lemma bt_first_Some m k v :
  bt_sorted m → bt_first m = Some (k, v) →
  (k, v) ∈ m ∧ ∀ x, x ∈ m.*1 → x = k ∨ key_lt k x.
Proof.
  unfold bt_sorted. destruct m as [|[x y] m]; simpl; [done|]. intros [_ Hx]%StronglySorted_inv.
  intros [= -> ->]. split; [by left|]. intros z [->|Hz]%elem_of_cons; [by left|].
  rewrite Forall_forall in Hx. auto.
Qed.

Lemma bt_insert_not_nil k v m : bt_insert k v m ≠ [].
Proof. destruct m as [|[]]; simpl; repeat case_decide; done. Qed.

Lemma elem_of_bt_insert k v m x :
  bt_sorted m → x ∈ bt_insert k v m ↔ x = (k, v) ∨ (x ∈ m ∧ x.1 ≠ k).
Proof.
  intros Hm. destruct x as [k' v'].
  rewrite <-!bt_get_elem by auto using bt_sorted_insert. rewrite bt_get_insert by done.
  case_decide; simpl; naive_solver.
Qed.

End btree.
