(* ===== verification/Memtable.v ===== *)
(** * The memtable (src/storage/memtable.rs)

    A sorted map from keys to values or tombstones, with a byte counter. *)

From S2P Require Import Prelude Text BTree.
From Stdlib Require Import Sorted.

Record Memtable : Type := mkMemtable {
  mt_entries : list (string * option string);
  mt_size_bytes : N;
}.

Definition memtable_new : Memtable := {| mt_entries := []; mt_size_bytes := 0 |}.

Definition mt_insert (key : string) (value : option string) (m : Memtable) : Memtable :=
  mkMemtable (bt_insert key value (mt_entries m)) (mt_size_bytes m).

(** [self.size_bytes += added] *)
Definition mt_grow `{Build} (added : N) : proc Memtable unit :=
  size ← gets mt_size_bytes;
  size ← add_u64 size added;
  modify (λ m, mkMemtable (mt_entries m) size).

(** Both return the number of bytes counted.  A [String] is at most
    [isize::MAX] bytes long, so the sum of two lengths does not overflow. *)
Definition memtable_put `{Build} (key value : string) : proc Memtable N :=
  let added_size := (str_len key + str_len value)%N in
  modify (mt_insert key (Some value)) ;;
  mt_grow added_size ;;
  mret added_size.

Definition memtable_delete `{Build} (key : string) : proc Memtable N :=
  let added_size := str_len key in
  modify (mt_insert key None) ;;
  mt_grow added_size ;;
  mret added_size.

(** [None]: never seen; [Some None]: tombstone; [Some (Some v)]: present. *)
Definition memtable_get (m : Memtable) (key : string) : option (option string) :=
  bt_get key (mt_entries m).

Definition memtable_size (m : Memtable) : N := mt_size_bytes m.

Definition memtable_len (m : Memtable) : N := vec_len (mt_entries m).

Definition memtable_is_empty (m : Memtable) : bool := bool_decide (mt_entries m = []).

Definition memtable_iter (m : Memtable) : list (string * option string) := mt_entries m.

Definition memtable_clear (m : Memtable) : Memtable := memtable_new.

Definition memtable_wf (m : Memtable) : Prop := bt_sorted (mt_entries m).

(** ** Lemmas *)

Lemma memtable_wf_new : memtable_wf memtable_new.
Proof. constructor. Qed.

Lemma mt_insert_wf k v m : memtable_wf m → memtable_wf (mt_insert k v m).
Proof. apply bt_sorted_insert. Qed.

Lemma mt_grow_entries `{Build} n (m : Memtable) o m' :
  mt_grow n m = (o, m') → mt_entries m' = mt_entries m.
Proof.
  intros Hg. apply (wp_run _ _ (λ _ m', mt_entries m' = mt_entries m)
    (λ m', mt_entries m' = mt_entries m)) in Hg; [by destruct o|].
  unfold mt_grow. do 3 wp_step. apply wp_add_u64; [by wp_step|done].
Qed.

(** What a put or a delete does to the entries, whatever happens to the counter. *)
Lemma memtable_put_entries `{Build} k v m o m' :
  memtable_put k v m = (o, m') → mt_entries m' = bt_insert k (Some v) (mt_entries m).
Proof.
  unfold memtable_put. rewrite bind_modify. intros [(? & ? & Hg & Hr)|[Hg _]]%bind_inv;
    apply mt_grow_entries in Hg; unfold mret, proc_ret in *; by simplify_eq.
Qed.

Lemma memtable_delete_entries `{Build} k m o m' :
  memtable_delete k m = (o, m') → mt_entries m' = bt_insert k None (mt_entries m).
Proof.
  unfold memtable_delete. rewrite bind_modify. intros [(? & ? & Hg & Hr)|[Hg _]]%bind_inv;
    apply mt_grow_entries in Hg; unfold mret, proc_ret in *; by simplify_eq.
Qed.
