(* ===== verification/Wal.v ===== *)
(** * The write-ahead log (src/storage/wal.rs)

    [BufWriter<File>] is modelled with its buffer: bytes that were accepted but
    not yet handed to the operating system live in [wal_buf]. *)

From S2P Require Import Prelude Text Fs.
From Stdlib Require Import Ascii.

Inductive Operation : Type := OpPut | OpDelete.

Record WalEntry : Type := mkWalEntry {
  we_operation : Operation;
  we_key : string;
  we_value : option string;
}.

Record Wal : Type := mkWal { wal_buf : string; wal_path : string }.

#[export] Instance Operation_eq_dec : EqDecision Operation.
Proof. solve_decision. Defined.
#[export] Instance WalEntry_eq_dec : EqDecision WalEntry.
Proof. solve_decision. Defined.

Abbreviation WW := (Wal * Fs)%type.

Definition PIPE : ascii := "|"%char.

(** [BufWriter]'s default capacity. *)
Definition BUF_CAPACITY : N := 8192.

Definition set_buf (b : string) (w : WW) : WW := (mkWal b (wal_path w.1), w.2).

Definition on_fs {A} (m : proc Fs A) : proc WW A :=
  zoom (λ w : WW, w.2) (λ fs w, (w.1, fs)) m.

(** [Wal::new] *)
Definition wal_new (path : string) : io Wal :=
  _ ?← open_append path; mret (Ok (mkWal "" path)).

(** [serialize_entry] without its line feed, and with it. *)
Definition entry_line (e : WalEntry) : string :=
  match we_operation e with
  | OpPut => "PUT|" +:+ we_key e +:+ "|" +:+ default "" (we_value e)
  | OpDelete => "DELETE|" +:+ we_key e
  end.

Definition serialize_entry (e : WalEntry) : string := entry_line e +:+ String LF "".

(** [BufWriter::flush_buf]: what could not be written stays in the buffer. *)
Definition flush_buf : proc WW (result io_error unit) :=
  b ← gets (λ w : WW, wal_buf w.1);
  if bool_decide (b = "") then mret (Ok tt) else
    path ← gets (λ w : WW, wal_path w.1);
    r ← on_fs (write_append path b);
    modify (set_buf (str_drop r.1 b)) ;;
    mret r.2.

(** [BufWriter::write_all] *)
Definition buf_write_all (s : string) : proc WW (result io_error unit) :=
  b ← gets (λ w : WW, wal_buf w.1);
  let spare := (BUF_CAPACITY - str_len b)%N in
  if bool_decide (str_len s < spare)%N then
    modify (set_buf (b +:+ s)) ;; mret (Ok tt)
  else
    _ ?← (if bool_decide (spare < str_len s)%N then flush_buf else mret (Ok tt));
    if bool_decide (BUF_CAPACITY ≤ str_len s)%N then
      path ← gets (λ w : WW, wal_path w.1);
      r ← on_fs (write_append path s);
      mret r.2
    else
      b ← gets (λ w : WW, wal_buf w.1);
      modify (set_buf (b +:+ s)) ;; mret (Ok tt).

(** [Wal::sync]: flush the buffer to the OS, then [fsync]. *)
Definition wal_sync : proc WW (result io_error unit) :=
  _ ?← flush_buf;
  path ← gets (λ w : WW, wal_path w.1);
  _ ?← on_fs (sync_all path);
  mret (Ok tt).

(** [Wal::append] *)
Definition wal_append (e : WalEntry) : proc WW (result io_error unit) :=
  _ ?← buf_write_all (serialize_entry e);
  _ ?← wal_sync;
  mret (Ok tt).

(** One line of the file; malformed lines are skipped. *)
Definition parse_line (line : string) : option WalEntry :=
  match split_char PIPE line with
  | [op; key; value] =>
      if bool_decide (op = "PUT") then Some (mkWalEntry OpPut key (Some value)) else None
  | [op; key] =>
      if bool_decide (op = "DELETE") then Some (mkWalEntry OpDelete key None) else None
  | _ => None
  end.

Definition parse_wal (contents : string) : list WalEntry := omap parse_line (lines contents).

(** [Wal::replay] *)
Definition wal_replay (wal : Wal) : io (list WalEntry) :=
  contents ?← fs_read_to_string (wal_path wal);
  mret (Ok (parse_wal contents)).

(** ** Entries that the text format can represent

    No field contains the separator or a line feed, the last field does not end
    in a carriage return, a put has a value and a delete has none; and, as every
    Rust [String], the fields are valid UTF-8. *)
Definition field_clean (s : string) : bool :=
  negb (str_mem PIPE s) && negb (str_mem LF s) && utf8_valid s.

Definition entry_clean (e : WalEntry) : bool :=
  field_clean (we_key e) &&
  match we_operation e, we_value e with
  | OpPut, Some v => field_clean v && negb (ends_with CR v)
  | OpDelete, None => negb (ends_with CR (we_key e))
  | _, _ => false
  end.

Fixpoint wal_contents (es : list WalEntry) : string :=
  match es with
  | [] => ""
  | e :: es => serialize_entry e +:+ wal_contents es
  end.

(** ** Lemmas *)

Lemma field_clean_true s :
  field_clean s = true ↔ str_mem PIPE s = false ∧ str_mem LF s = false ∧ utf8_valid s = true.
Proof.
  unfold field_clean. rewrite !andb_true_iff, !negb_true_iff. naive_solver.
Qed.

Lemma strip_cr_no_cr s : ends_with CR s = false → strip_cr s = s.
Proof.
  induction s as [|c s IH]; [done|]. destruct s as [|c' s].
  - simpl. by intros ->.
  - intros H. change (ends_with CR (String c' s) = false) in H.
    change (String c (strip_cr (String c' s)) = String c (String c' s)). by rewrite IH.
Qed.

Lemma ends_with_app c a b : b ≠ "" → ends_with c (a +:+ b) = ends_with c b.
Proof.
  intros Hb. induction a as [|x a IH]; [done|].
  change (ends_with c (String x (a +:+ b)) = ends_with c b). rewrite <-IH.
  destruct (a +:+ b) eqn:E; [|done]. destruct a; [by subst|done].
Qed.

Lemma ends_with_sep c a s x :
  bool_decide (x = c) = false →
  ends_with c (a +:+ String x s) = ends_with c s.
Proof.
  intros Hx. rewrite ends_with_app by done. destruct s; [done|done].
Qed.

Lemma put_line_parts k v :
  str_mem PIPE k = false → str_mem PIPE v = false →
  split_char PIPE ("PUT|" +:+ k +:+ "|" +:+ v) = ["PUT"; k; v].
Proof.
  intros Hk Hv. change ("PUT|" +:+ k +:+ "|" +:+ v) with ("PUT" +:+ String PIPE (k +:+ String PIPE v)).
  rewrite !split_char_app by done. by rewrite split_char_free.
Qed.

Lemma delete_line_parts k :
  str_mem PIPE k = false → split_char PIPE ("DELETE|" +:+ k) = ["DELETE"; k].
Proof.
  intros Hk. change ("DELETE|" +:+ k) with ("DELETE" +:+ String PIPE k).
  rewrite split_char_app by done. by rewrite split_char_free.
Qed.

Lemma entry_line_put k v : entry_line (mkWalEntry OpPut k (Some v)) = "PUT|" +:+ k +:+ "|" +:+ v.
Proof. done. Qed.

Lemma entry_line_delete k : entry_line (mkWalEntry OpDelete k None) = "DELETE|" +:+ k.
Proof. done. Qed.

Lemma parse_entry_line e : entry_clean e = true → parse_line (entry_line e) = Some e.
Proof.
  unfold entry_clean. rewrite andb_true_iff. intros [(Hk & _)%field_clean_true He].
  destruct e as [[] k [v|]]; try done; simpl in *; unfold parse_line.
  - apply andb_true_iff in He as [(Hv & _)%field_clean_true _].
    by rewrite entry_line_put, put_line_parts.
  - by rewrite entry_line_delete, delete_line_parts.
Qed.

Lemma entry_line_no_lf e : entry_clean e = true → str_mem LF (entry_line e) = false.
Proof.
  unfold entry_clean. rewrite andb_true_iff. intros [(_ & Hk & _)%field_clean_true He].
  destruct e as [[] k [v|]]; try done; simpl in He, Hk;
    rewrite ?entry_line_put, ?entry_line_delete, !str_mem_app, Hk; try done.
  by apply andb_true_iff in He as [(_ & -> & _)%field_clean_true _].
Qed.

Lemma entry_line_no_cr e : entry_clean e = true → ends_with CR (entry_line e) = false.
Proof.
  unfold entry_clean. rewrite andb_true_iff. intros [_ He].
  destruct e as [[] k [v|]]; try done; simpl in He;
    rewrite ?entry_line_put, ?entry_line_delete.
  - apply andb_true_iff in He as [_ He]. apply negb_true_iff in He.
    change ("|" +:+ v) with (String PIPE v). rewrite <-str_append_assoc.
    by rewrite ends_with_sep.
  - apply negb_true_iff in He. change ("DELETE|" +:+ k) with ("DELETE" +:+ String PIPE k).
    by rewrite ends_with_sep.
Qed.

Lemma lines_serialize e s :
  entry_clean e = true → lines (serialize_entry e +:+ s) = entry_line e :: lines s.
Proof.
  intros He. unfold serialize_entry. rewrite str_append_assoc.
  change (String LF "" +:+ s) with (String LF s).
  rewrite lines_cons by by apply entry_line_no_lf.
  by rewrite strip_cr_no_cr by by apply entry_line_no_cr.
Qed.

(** Replaying what was appended gives the entries back, in order. *)
Lemma parse_wal_contents es :
  Forall (λ e, entry_clean e = true) es → parse_wal (wal_contents es) = es.
Proof.
  unfold parse_wal. induction 1 as [|e es He _ IH]; [done|]. simpl.
  rewrite lines_serialize by done. simpl. rewrite parse_entry_line by done. f_equal. exact IH.
Qed.

Lemma wal_contents_snoc es e : wal_contents (es ++ [e]) = wal_contents es +:+ serialize_entry e.
Proof.
  induction es as [|x es IH]; simpl; [by rewrite str_append_nil_r|].
  by rewrite IH, str_append_assoc.
Qed.

Lemma utf8_entry e : entry_clean e = true → utf8_valid (serialize_entry e) = true.
Proof.
  unfold entry_clean. rewrite andb_true_iff. intros [(_ & _ & Hk)%field_clean_true He].
  unfold serialize_entry. apply utf8_valid_app; [|done].
  destruct e as [[] k [v|]]; try done; simpl in He;
    rewrite ?entry_line_put, ?entry_line_delete; repeat apply utf8_valid_app; try done.
  by apply andb_true_iff in He as [(_ & _ & ?)%field_clean_true _].
Qed.

Lemma utf8_wal_contents es :
  Forall (λ e, entry_clean e = true) es → utf8_valid (wal_contents es) = true.
Proof. induction 1; simpl; [done|]. by apply utf8_valid_app; [apply utf8_entry|]. Qed.

(** The buffer and the file together: flushing moves bytes from one to the other
    and never changes another file. *)
Lemma flush_buf_spec wal c fs :
  fs_files fs !! wal_path wal = Some c →
  wp flush_buf (wal, fs)
    (λ r w', fs_frame (wal_path wal) fs w'.2 ∧ wal_path w'.1 = wal_path wal ∧
       fs_durable w'.2 = fs_durable fs ∧
       (r = Ok tt → wal_buf w'.1 = "" ∧
          fs_files w'.2 = <[wal_path wal := c +:+ wal_buf wal]> (fs_files fs)))
    (λ w', fs_frame (wal_path wal) fs w'.2).
Proof.
  intros Hc. unfold flush_buf, on_fs. do 2 wp_step. simpl. wp_step.
  - apply bool_decide_eq_true in Heqb. wp_step. simpl. split_and!; try done.
    intros _. rewrite Heqb, str_append_nil_r. by rewrite insert_id.
  - do 4 wp_step. eapply wp_mono; [by apply write_append_spec| |done]. simpl.
    intros [k r] fs' (Hf & Hd & Hok). do 3 wp_step. simpl in *. split_and!; try done.
    intros ->. destruct Hok as [-> ->]; [done|]. by rewrite str_drop_length.
Qed.

(** [buf_write_all] on an empty buffer: the bytes end up in buffer and file. *)
Lemma buf_write_all_spec wal c s fs :
  fs_files fs !! wal_path wal = Some c → wal_buf wal = "" →
  wp (buf_write_all s) (wal, fs)
    (λ r w', fs_frame (wal_path wal) fs w'.2 ∧ wal_path w'.1 = wal_path wal ∧
       fs_durable w'.2 = fs_durable fs ∧
       (r = Ok tt → ∃ a, c +:+ s = a +:+ wal_buf w'.1 ∧
          fs_files w'.2 = <[wal_path wal := a]> (fs_files fs)))
    (λ w', fs_frame (wal_path wal) fs w'.2).
Proof.
  intros Hc Hb. unfold buf_write_all, on_fs. do 2 wp_step. simpl. rewrite Hb. wp_step.
  { do 3 wp_step. simpl. split_and!; try done. intros _. exists c. by rewrite insert_id. }
  wp_step.
  assert (∀ w', w'.1 = wal → fs_frame (wal_path wal) fs w'.2 → fs_durable w'.2 = fs_durable fs →
    fs_files w'.2 = fs_files fs →
    wp (if bool_decide (BUF_CAPACITY ≤ str_len s)%N then
          path ← gets (λ w : WW, wal_path w.1);
          r ← zoom (λ w : WW, w.2) (λ fs w, (w.1, fs)) (write_append path s); mret r.2
        else b ← gets (λ w : WW, wal_buf w.1); modify (set_buf (b +:+ s)) ;; mret (Ok tt)) w'
      (λ r w', fs_frame (wal_path wal) fs w'.2 ∧ wal_path w'.1 = wal_path wal ∧
         fs_durable w'.2 = fs_durable fs ∧
         (r = Ok tt → ∃ a, c +:+ s = a +:+ wal_buf w'.1 ∧
            fs_files w'.2 = <[wal_path wal := a]> (fs_files fs)))
      (λ w', fs_frame (wal_path wal) fs w'.2)) as Hrest.
  { intros [wal' fs'] Hw Hf Hd Hfiles. simpl in *. subst wal'. wp_step.
    - do 4 wp_step. simpl. eapply wp_mono; [apply (write_append_spec _ _ c); congruence|..].
      + simpl. intros [k r] fs'' (Hf'' & Hd'' & Hok). wp_step. simpl in *.
        split_and!; [by etrans|done|congruence|]. intros ->. destruct Hok as [_ Hok]; [done|].
        exists (c +:+ s). rewrite Hb, str_append_nil_r. split; [done|congruence].
      + simpl. intros fs'' ?. by etrans.
    - do 5 wp_step. simpl. split_and!; try done. intros _. exists c. rewrite Hb.
      split; [done|]. rewrite Hfiles. by rewrite insert_id. }
  wp_step; [|wp_step; by apply Hrest].
  eapply wp_mono; [by apply flush_buf_spec| |done].
  intros [[]|e] [wal' fs'] (Hf & Hp & Hd & Hok); simpl in *; [|done].
  destruct Hok as [Hb' Hfiles]; [done|]. apply Hrest; simpl; [|done..|].
  - destruct wal, wal'. simpl in *. congruence.
  - rewrite Hfiles, Hb, str_append_nil_r. by rewrite insert_id.
Qed.

(** An append that returns [Ok] has put the record at the end of the file, on
    the physical disk, and left the buffer empty. *)
Lemma wal_append_spec wal c e fs :
  fs_files fs !! wal_path wal = Some c → wal_buf wal = "" →
  wp (wal_append e) (wal, fs)
    (λ r w', fs_frame (wal_path wal) fs w'.2 ∧ wal_path w'.1 = wal_path wal ∧
       (r = Ok tt → wal_buf w'.1 = "" ∧
          fs_files w'.2 = <[wal_path wal := c +:+ serialize_entry e]> (fs_files fs) ∧
          fs_durable w'.2 = <[wal_path wal := c +:+ serialize_entry e]> (fs_durable fs)))
    (λ w', fs_frame (wal_path wal) fs w'.2).
Proof.
  intros Hc Hb. unfold wal_append, wal_sync, on_fs. wp_step.
  eapply wp_mono; [by apply (buf_write_all_spec _ c)| |done].
  intros [[]|?] [wal1 fs1] (Hf1 & Hp1 & Hd1 & Hok1); simpl in *; [|done].
  destruct Hok1 as (a & Ha & Hfiles1); [done|]. do 2 wp_step.
  eapply wp_mono; [apply (flush_buf_spec wal1 a); rewrite Hfiles1, Hp1; apply lookup_insert_eq|..];
    simpl; rewrite Hp1; [|intros w' ?; by etrans].
  intros [[]|?] [wal2 fs2] (Hf2 & Hp2 & Hd2 & Hok2); simpl in *;
    [|split_and!; [by etrans|done..]].
  destruct Hok2 as [Hb2 Hfiles2]; [done|]. rewrite <-Ha, Hfiles1, insert_insert_eq in Hfiles2.
  do 4 wp_step. simpl.
  eapply wp_mono; [apply (sync_all_spec _ (c +:+ serialize_entry e));
    rewrite Hfiles2, Hp2; apply lookup_insert_eq|..]; simpl; rewrite Hp2;
    [|intros w' ?; etrans; [done|by etrans]].
  intros [[]|?] fs3 (Hf3 & Hfiles3 & Hok3); repeat wp_step; simpl;
    (split_and!; [etrans; [done|by etrans]|done|]); [|done].
  intros _. rewrite Hok3 by done. split_and!; [done|congruence|congruence].
Qed.

(** Opening creates the file if it is missing and changes nothing else. *)
Lemma wal_new_run path fs :
  fs_faults fs = [] →
  ∃ fs1, wal_new path fs = (Done (Ok (mkWal "" path)), fs1) ∧ fs_faults fs1 = [] ∧
    fs_durable fs1 = fs_durable fs ∧
    fs_files fs1 !! path = Some (default "" (fs_files fs !! path)).
Proof.
  intros Hnf. unfold wal_new, try_bind, open_append. rewrite !bind_assoc.
  rewrite (bind_done _ _ _ _ _ (next_fault_none _ Hnf)), !bind_assoc, bind_gets. unfold fs_exists.
  destruct (fs_files fs !! path) eqn:E.
  - rewrite bool_decide_true by done. by exists fs.
  - rewrite bool_decide_false by (by intros []). eexists. split; [done|]. simpl.
    by rewrite lookup_insert_eq.
Qed.

Lemma wal_replay_run wal fs c :
  fs_faults fs = [] → fs_files fs !! wal_path wal = Some c → utf8_valid c = true →
  wal_replay wal fs = (Done (Ok (parse_wal c)), fs).
Proof.
  intros Hnf Hc Hu. unfold wal_replay, try_bind, fs_read_to_string. rewrite !bind_assoc.
  rewrite (bind_done _ _ _ _ _ (next_fault_none _ Hnf)), !bind_assoc, bind_gets.
  by rewrite Hc, Hu.
Qed.

(** ** Isolation: the WAL only ever touches its own file *)

Definition wal_frame : relation WW := λ w w',
  wal_path w'.1 = wal_path w.1 ∧ fs_frame (wal_path w.1) w.2 w'.2.

#[export] Instance wal_frame_preorder : PreOrder wal_frame.
Proof.
  split; [by intros w|]. intros a b c [H1 H2] [H3 H4]. rewrite H1 in H3, H4.
  split; [done|by etrans].
Qed.

Lemma write_append_frame path s : keeps (fs_frame path) (write_append path s).
Proof.
  intros fs. unfold write_append, append_bytes, put_file. wp_step. apply wp_next_fault_any.
  intros [|w|w] l Hl; simpl; repeat wp_step; simpl; by apply fs_frame_put.
Qed.

Lemma sync_all_frame path : keeps (fs_frame path) (sync_all path).
Proof.
  intros fs. unfold sync_all. wp_step. apply wp_next_fault_any.
  intros [|w|w] l Hl; simpl; repeat wp_step; simpl; done.
Qed.

Lemma open_append_frame path : keeps (fs_frame path) (open_append path).
Proof.
  intros fs. unfold open_append, put_file. wp_step. apply wp_next_fault_any.
  intros [|w|w] l Hl; simpl; repeat wp_step; simpl; try done; by apply fs_frame_put.
Qed.

(** An operation on the WAL's own file, and what follows it. *)
Lemma on_path_frame {A B} (m : string → proc Fs A) (k : A → proc WW B) :
  (∀ path, keeps (fs_frame path) (m path)) → (∀ a, keeps wal_frame (k a)) →
  keeps wal_frame (path ← gets (λ w : WW, wal_path w.1); a ← on_fs (m path); k a).
Proof.
  intros Hm Hk w. wp_step. wp_step. wp_step. unfold on_fs. wp_step.
  eapply wp_mono; [apply Hm| |by split]; simpl. intros a fs' Hfs.
  eapply wp_mono; [apply Hk|..]; simpl; intros; (etrans; [|done]); by split.
Qed.

Lemma set_buf_frame b : keeps wal_frame (modify (set_buf b)).
Proof. apply keeps_modify. by split. Qed.

Lemma flush_buf_frame : keeps wal_frame flush_buf.
Proof.
  unfold flush_buf. keeps_step; [by keeps_step|]. keeps_step; [by keeps_step|].
  apply on_path_frame; [intros; apply write_append_frame|]. intros r.
  keeps_step; [apply set_buf_frame|by keeps_step].
Qed.

Lemma buf_write_all_frame s : keeps wal_frame (buf_write_all s).
Proof.
  unfold buf_write_all. keeps_step; [by keeps_step|]. cbv zeta. keeps_step.
  - keeps_step; [apply set_buf_frame|by keeps_step].
  - keeps_step; [keeps_step; [apply flush_buf_frame|by keeps_step]|]. keeps_step.
    + apply on_path_frame; [intros; apply write_append_frame|]. intros. by keeps_step.
    + keeps_step; [by keeps_step|]. keeps_step; [apply set_buf_frame|by keeps_step].
Qed.

Lemma wal_append_frame e : keeps wal_frame (wal_append e).
Proof.
  unfold wal_append, wal_sync. keeps_step; [apply buf_write_all_frame|].
  keeps_step; [|by keeps_step]. keeps_step; [apply flush_buf_frame|].
  apply on_path_frame; [intros; apply sync_all_frame|]. intros []; by keeps_step.
Qed.

(** ** Nothing is durable before the sync *)

Definition unsynced : relation WW := λ w w', fs_durable w'.2 = fs_durable w.2.

#[export] Instance unsynced_preorder : PreOrder unsynced.
Proof. split; [by intros w|]. intros a b c H1 H2. unfold unsynced in *. congruence. Qed.

Lemma write_append_unsynced path s : keeps unsynced (on_fs (write_append path s)).
Proof.
  apply (keeps_zoom _ _ _ (λ fs fs', fs_durable fs' = fs_durable fs)); [by intros w v|].
  intros fs. unfold write_append, append_bytes, put_file. wp_step. apply wp_next_fault_any.
  intros [|w|w] l Hl; simpl; repeat wp_step; done.
Qed.

Lemma set_buf_unsynced b : keeps unsynced (modify (set_buf b)).
Proof. by apply keeps_modify. Qed.

Lemma flush_buf_unsynced : keeps unsynced flush_buf.
Proof.
  unfold flush_buf. keeps_step; [by keeps_step|]. keeps_step; [by keeps_step|].
  keeps_step; [by keeps_step|]. keeps_step; [apply write_append_unsynced|].
  keeps_step; [apply set_buf_unsynced|by keeps_step].
Qed.

Lemma buf_write_all_unsynced s : keeps unsynced (buf_write_all s).
Proof.
  unfold buf_write_all. keeps_step; [by keeps_step|]. cbv zeta. keeps_step.
  - keeps_step; [apply set_buf_unsynced|by keeps_step].
  - keeps_step; [keeps_step; [apply flush_buf_unsynced|by keeps_step]|]. keeps_step.
    + keeps_step; [by keeps_step|]. keeps_step; [apply write_append_unsynced|by keeps_step].
    + keeps_step; [by keeps_step|]. keeps_step; [apply set_buf_unsynced|by keeps_step].
Qed.

(** An append that fails or dies has made nothing durable. *)
Lemma wal_append_unsynced e w :
  wp (wal_append e) w (λ r w', r ≠ Ok tt → unsynced w w') (unsynced w).
Proof.
  unfold wal_append, wal_sync, on_fs. wp_step.
  eapply wp_mono; [apply buf_write_all_unsynced| |done]. intros [[]|] w1 H1; [|done]. do 2 wp_step.
  eapply wp_mono; [apply flush_buf_unsynced| |intros w2 H2; by etrans].
  intros [[]|] w2 H2; [|intros _; by etrans]. do 4 wp_step. unfold sync_all. wp_step.
  apply wp_next_fault_any. intros [|x|x] l Hl; simpl; repeat wp_step; simpl; try done;
    unfold unsynced in *; simpl; congruence.
Qed.
