(* ===== verification/Engine.v ===== *)
(** * The storage engine (src/storage/engine.rs)

    WAL first, memtable second; on start the memtable is rebuilt by replaying the
    WAL. *)

From S2P Require Import Prelude Text Fs BTree Memtable Wal Codec.

Record StorageEngine : Type := mkEngine {
  se_wal : Wal;
  se_memtable : Memtable;
  se_data_dir : string;
}.

Abbreviation EW := (StorageEngine * Fs)%type.

Definition on_wal {A} (m : proc WW A) : proc EW A :=
  zoom (λ w : EW, (se_wal w.1, w.2))
    (λ v w, (mkEngine v.1 (se_memtable w.1) (se_data_dir w.1), v.2)) m.

Definition on_memtable {A} (m : proc Memtable A) : proc EW A :=
  zoom (λ w : EW, se_memtable w.1)
    (λ v w, (mkEngine (se_wal w.1) v (se_data_dir w.1), w.2)) m.

(** A local variable changed by a process. *)
Definition with_local {W V} (m : proc V unit) (v : V) : proc W V := λ w,
  match m v with
  | (Done _, v') => (Done v', w)
  | (Halted, _) => (Halted, w)
  end.

(** The body of the recovery loop. *)
Definition apply_entry `{Build} (e : WalEntry) : proc Memtable unit :=
  match we_operation e with
  | OpPut => memtable_put (we_key e) (default "" (we_value e)) ;; mret tt
  | OpDelete => memtable_delete (we_key e) ;; mret tt
  end.

Definition engine_wal_path (data_dir : string) : string := path_join data_dir "wal.log".

(** [StorageEngine::new] *)
Definition engine_new `{Build} (data_dir : string) : io StorageEngine :=
  _ ?← create_dir_all;
  wal ?← wal_new (engine_wal_path data_dir);
  entries ?← wal_replay wal;
  memtable ← with_local (for_each apply_entry entries) memtable_new;
  mret (Ok (mkEngine wal memtable data_dir)).

Definition engine_put `{Build} (key value : string) : proc EW (result io_error unit) :=
  _ ?← on_wal (wal_append (mkWalEntry OpPut key (Some value)));
  on_memtable (memtable_put key value) ;;
  mret (Ok tt).

Definition engine_delete `{Build} (key : string) : proc EW (result io_error unit) :=
  _ ?← on_wal (wal_append (mkWalEntry OpDelete key None));
  on_memtable (memtable_delete key) ;;
  mret (Ok tt).

Definition engine_get (e : StorageEngine) (key : string) : option string :=
  match memtable_get (se_memtable e) key with
  | Some (Some value) => Some value
  | Some None => None
  | None => None
  end.

Definition engine_data_dir (e : StorageEngine) : string := se_data_dir e.

(** ** Mutations and their meaning on a plain map *)

Inductive Mutation : Type :=
| MPut (key value : string)
| MDelete (key : string).

Definition mutation_entry (m : Mutation) : WalEntry :=
  match m with
  | MPut k v => mkWalEntry OpPut k (Some v)
  | MDelete k => mkWalEntry OpDelete k None
  end.

Definition mutation_clean (m : Mutation) : bool := entry_clean (mutation_entry m).

Definition engine_mutate `{Build} (m : Mutation) : proc EW (result io_error unit) :=
  match m with
  | MPut k v => engine_put k v
  | MDelete k => engine_delete k
  end.

(** Run mutations one after the other, whatever each of them returns. *)
Fixpoint engine_tries `{Build} (ms : list Mutation) : proc EW (list (result io_error unit)) :=
  match ms with
  | [] => mret []
  | m :: ms => r ← engine_mutate m; rs ← engine_tries ms; mret (r :: rs)
  end.

(** The mutations that were acknowledged. *)
Fixpoint acknowledged (ms : list Mutation) (rs : list (result io_error unit)) : list Mutation :=
  match ms, rs with
  | m :: ms, Ok _ :: rs => m :: acknowledged ms rs
  | _ :: ms, Err _ :: rs => acknowledged ms rs
  | _, _ => []
  end.

(** Run mutations until the first error. *)
Fixpoint engine_run `{Build} (ms : list Mutation) : proc EW (result io_error unit) :=
  match ms with
  | [] => mret (Ok tt)
  | m :: ms => _ ?← engine_mutate m; engine_run ms
  end.

Definition abstract_mutate (db : gmap string string) (m : Mutation) : gmap string string :=
  match m with
  | MPut k v => <[k := v]> db
  | MDelete k => delete k db
  end.

Definition abstract_run (ms : list Mutation) : gmap string string :=
  foldl abstract_mutate ∅ ms.

(** ** The invariant

    The file holds the records of the mutations acknowledged so far, durably
    (a file that holds none may not have been synced), and replaying them gives
    the memtable. *)
Record engine_ok `{Build} (dir : string) (ms : list Mutation) (w : EW) : Prop := {
  eo_clean : Forall (λ m, mutation_clean m = true) ms;
  eo_dir : se_data_dir w.1 = dir;
  eo_path : wal_path (se_wal w.1) = engine_wal_path dir;
  eo_buf : wal_buf (se_wal w.1) = "";
  eo_file : fs_files w.2 !! wal_path (se_wal w.1)
            = Some (wal_contents (mutation_entry <$> ms));
  eo_durable : fs_durable w.2 !! wal_path (se_wal w.1)
               = Some (wal_contents (mutation_entry <$> ms)) ∨
               (ms = [] ∧ fs_durable w.2 !! wal_path (se_wal w.1) = None);
  eo_memtable : for_each apply_entry (mutation_entry <$> ms) memtable_new
                = (Done tt, se_memtable w.1);
}.

(** ** Lemmas *)

Lemma for_each_snoc {W A} (f : A → proc W unit) xs x w :
  for_each f (xs ++ [x]) w = (for_each f xs ;; f x) w.
Proof.
  revert w. induction xs as [|y xs IH]; intros w; simpl.
  - unfold mbind, proc_bind. simpl. by destruct (f x w) as [[[]|]].
  - rewrite bind_assoc. unfold mbind, proc_bind. destruct (f y w) as [[]]; [|done].
    rewrite IH. done.
Qed.

Section engine.
Context `{Build}.

Lemma engine_mutate_run m (w : EW) :
  engine_mutate m w =
  (_ ?← on_wal (wal_append (mutation_entry m));
   on_memtable (apply_entry (mutation_entry m)) ;; mret (Ok tt)) w.
Proof.
  destruct m as [k v|k]; simpl; unfold engine_put, engine_delete, try_bind, mbind, proc_bind;
    destruct (on_wal _ w) as [[[]|] [e fs]]; try done;
    unfold on_memtable, zoom, apply_entry, mbind, proc_bind; simpl.
  - by destruct (memtable_put k v _) as [[]].
  - by destruct (memtable_delete k _) as [[]].
Qed.

(** A mutation that is acknowledged extends the invariant by itself, whatever
    faults the disk had scheduled. *)
Lemma engine_mutate_ok dir ms m w w' :
  engine_ok dir ms w → mutation_clean m = true →
  engine_mutate m w = (Done (Ok tt), w') → engine_ok dir (ms ++ [m]) w'.
Proof.
  intros [Hcl Hdir Hp Hb Hf Hd Hm] Hmc Hrun. rewrite engine_mutate_run in Hrun.
  destruct w as [[wal mt dir'] fs]. simpl in *.
  apply (wp_run _ _ (λ r w', r = Ok tt → engine_ok dir (ms ++ [m]) w') (λ _, True)) in Hrun;
    [by apply Hrun|]. clear Hrun w'.
  unfold on_wal, on_memtable. do 2 wp_step. simpl. eapply wp_mono; [by eapply wal_append_spec| |done]. simpl.
  intros [[]|?] [wal' fs'] (_ & Hp' & Hok); [|done]. simpl in *.
  destruct Hok as (Hb' & Hf' & Hd'); [done|]. wp_step. apply wp_zoom. simpl.
  unfold wp at 1. destruct (apply_entry (mutation_entry m) mt) as [[[]|] mt'] eqn:Ha; [|done].
  wp_step. intros _. rewrite <-wal_contents_snoc in Hf', Hd'.
  split; simpl; rewrite ?Hp', ?fmap_app; try done.
  - apply Forall_app. auto.
  - by rewrite Hf', lookup_insert_eq.
  - left. by rewrite Hd', lookup_insert_eq.
  - simpl. rewrite for_each_snoc. unfold mbind, proc_bind. by rewrite Hm.
Qed.

Lemma engine_run_ok dir ms' : ∀ ms w w',
  engine_ok dir ms w → Forall (λ m, mutation_clean m = true) ms' →
  engine_run ms' w = (Done (Ok tt), w') → engine_ok dir (ms ++ ms') w'.
Proof.
  induction ms' as [|m ms' IH]; intros ms w w' Hok Hcl Hrun; simpl in *.
  - unfold mret, proc_ret in Hrun. simplify_eq. by rewrite app_nil_r.
  - apply Forall_cons in Hcl as [Hm Hcl].
    unfold try_bind in Hrun. apply bind_inv in Hrun as [([[]|] & w1 & H1 & H2)|[_ ?]]; [..|done].
    + rewrite cons_middle, app_assoc. eapply IH; [|done..]. by eapply engine_mutate_ok.
    + done.
Qed.

(** Opening an engine on a store without scheduled faults. *)
Lemma engine_new_run dir fs c mt :
  fs_faults fs = [] → default "" (fs_files fs !! engine_wal_path dir) = c →
  utf8_valid c = true → for_each apply_entry (parse_wal c) memtable_new = (Done tt, mt) →
  ∃ fs1, engine_new dir fs = (Done (Ok (mkEngine (mkWal "" (engine_wal_path dir)) mt dir)), fs1) ∧
    fs_durable fs1 = fs_durable fs ∧ fs_files fs1 !! engine_wal_path dir = Some c.
Proof.
  intros Hnf Hc Hu Hm.
  destruct (wal_new_run (engine_wal_path dir) fs Hnf) as (fs1 & Hnew & Hnf1 & Hd & Hf).
  rewrite Hc in Hf. exists fs1. split_and!; try done.
  unfold engine_new, try_bind, create_dir_all. rewrite !bind_assoc.
  rewrite (bind_done _ _ _ _ _ (next_fault_none _ Hnf)), !bind_ret_l.
  rewrite (bind_done _ _ _ _ _ Hnew).
  rewrite (bind_done _ _ _ _ _ (wal_replay_run (mkWal "" (engine_wal_path dir)) _ _ Hnf1 Hf Hu)).
  rewrite (bind_done _ _ _ mt fs1); [done|]. unfold with_local. by rewrite Hm.
Qed.

(** Reopening: from the same store or after a power cut. *)
Lemma engine_new_recovers dir ms w fs0 :
  engine_ok dir ms w → fs_faults fs0 = [] →
  (fs_files fs0 = fs_files w.2 ∨ fs_files fs0 = fs_durable w.2) →
  ∃ e fs1, engine_new dir fs0 = (Done (Ok e), fs1) ∧
    se_memtable e = se_memtable w.1.
Proof.
  intros [Hcl Hdir Hp Hb Hf Hd Hm] Hnf Hfiles. destruct w as [[wal mt dir'] fs]. simpl in *.
  rewrite Hp in *. set (c := wal_contents (mutation_entry <$> ms)) in *.
  assert (Forall (λ e, entry_clean e = true) (mutation_entry <$> ms)) as Hcl' by by apply Forall_fmap.
  destruct (engine_new_run dir fs0 c mt) as (fs1 & Hnew & _); [done|..|by eexists _, fs1].
  - destruct Hfiles as [-> | ->]; [by rewrite Hf|]. by destruct Hd as [-> | [-> ->]].
  - by apply utf8_wal_contents.
  - by unfold c; rewrite parse_wal_contents.
Qed.

(** The memtable after replay reads like the abstract map. *)
Definition reads_as (m : Memtable) (db : gmap string string) : Prop :=
  memtable_wf m ∧ ∀ k, mjoin (memtable_get m k) = db !! k.

Lemma apply_entry_reads mu mt o mt' db :
  reads_as mt db → apply_entry (mutation_entry mu) mt = (o, mt') →
  reads_as mt' (abstract_mutate db mu).
Proof.
  intros [Hwf Hr] Ha.
  assert (mt_entries mt' = bt_insert (we_key (mutation_entry mu))
    (we_value (mutation_entry mu)) (mt_entries mt)) as He.
  { unfold apply_entry in Ha. destruct mu; simpl in *;
      (apply bind_inv in Ha as [(? & ? & Hp & Hret)|[Hp _]];
       [unfold mret, proc_ret in Hret; simplify_eq|]);
      by first [eapply memtable_put_entries|eapply memtable_delete_entries]. }
  split; [unfold memtable_wf; rewrite He; by apply bt_sorted_insert|].
  intros k. unfold memtable_get. rewrite He, bt_get_insert by done.
  destruct mu as [k' v|k']; simpl; case_decide as Hk; subst; simpl;
    first [by rewrite lookup_insert_eq|by rewrite lookup_delete_eq
          |rewrite lookup_insert_ne by congruence|rewrite lookup_delete_ne by congruence];
    apply Hr.
Qed.

Lemma replay_reads ms : ∀ mt mt' db,
  reads_as mt db → for_each apply_entry (mutation_entry <$> ms) mt = (Done tt, mt') →
  reads_as mt' (foldl abstract_mutate db ms).
Proof.
  induction ms as [|m ms IH]; intros mt mt' db Hr Hrun; simpl in *.
  - unfold mret, proc_ret in Hrun. by simplify_eq.
  - apply bind_inv in Hrun as [([] & mt1 & H1 & H2)|[_ ?]]; [|done].
    eapply IH; [|done]. by eapply apply_entry_reads.
Qed.

Lemma reads_as_new : reads_as memtable_new ∅.
Proof. split; [constructor|done]. Qed.

Lemma engine_get_mjoin e k : engine_get e k = mjoin (memtable_get (se_memtable e) k).
Proof. unfold engine_get. by destruct (memtable_get _ _) as [[]|]. Qed.

Lemma engine_ok_get dir ms w k : engine_ok dir ms w → engine_get w.1 k = abstract_run ms !! k.
Proof.
  intros Hok. rewrite engine_get_mjoin.
  by apply (replay_reads ms _ _ _ reads_as_new (eo_memtable _ _ _ Hok)).
Qed.

(** A mutation that is acknowledged is seen by every later read, one that fails by
    none, whatever the disk does. *)
Lemma engine_mutate_reads m w r w' db :
  reads_as (se_memtable w.1) db → engine_mutate m w = (Done r, w') →
  reads_as (se_memtable w'.1) (if r is Ok _ then abstract_mutate db m else db).
Proof.
  intros Hr Hrun. rewrite engine_mutate_run in Hrun. unfold try_bind in Hrun.
  apply bind_inv in Hrun as [(r1 & w1 & H1 & H2)|[_ ?]]; [|done].
  assert (se_memtable w1.1 = se_memtable w.1) as Em.
  { unfold on_wal, zoom in H1. destruct (wal_append _ _) as [o v]. by simplify_eq. }
  destruct r1 as [[]|e]; [|unfold mret, proc_ret in H2; simplify_eq; by rewrite Em].
  apply bind_inv in H2 as [([] & w2 & H2 & H3)|[_ ?]]; [|done].
  unfold mret, proc_ret in H3. simplify_eq. unfold on_memtable, zoom in H2. rewrite Em in H2.
  destruct (apply_entry _ _) as [o mt'] eqn:Ha. simplify_eq. by eapply apply_entry_reads.
Qed.

Lemma engine_tries_reads ms : ∀ w rs w' db,
  reads_as (se_memtable w.1) db → engine_tries ms w = (Done rs, w') →
  length rs = length ms ∧ reads_as (se_memtable w'.1) (foldl abstract_mutate db (acknowledged ms rs)).
Proof.
  induction ms as [|m ms IH]; intros w rs w' db Hr Hrun; simpl in *.
  - unfold mret, proc_ret in Hrun. by simplify_eq.
  - apply bind_inv in Hrun as [(r & w1 & H1 & Hrun)|[_ ?]]; [|done].
    apply bind_inv in Hrun as [(rs1 & w2 & H2 & Hrun)|[_ ?]]; [|done].
    unfold mret, proc_ret in Hrun. simplify_eq.
    apply (engine_mutate_reads _ _ _ _ _ Hr) in H1.
    destruct (IH _ _ _ _ H1 H2) as [Hlen Hr']. simpl. split; [by f_equal|]. by destruct r.
Qed.

Lemma apply_entry_release e mt :
  overflow_checks = false → ∃ mt', apply_entry e mt = (Done tt, mt').
Proof.
  intros Hb. unfold apply_entry, memtable_put, memtable_delete, mt_grow, add_u64. rewrite Hb.
  destruct (we_operation e); unfold mbind, proc_bind, modify, gets, mret, proc_ret; simpl;
    case_bool_decide; simpl; eauto.
Qed.

(** What a power cut leaves after a mutation that was not acknowledged: what was
    durable before it, unless a debug build panicked after the sync. *)
Lemma engine_mutate_unsynced m w o w' :
  engine_mutate m w = (o, w') → o ≠ Done (Ok tt) → o ≠ Halted ∨ overflow_checks = false →
  fs_durable w'.2 = fs_durable w.2.
Proof.
  intros Hrun Ho Hb. rewrite engine_mutate_run in Hrun.
  pose proof (wal_append_unsynced (mutation_entry m) (se_wal w.1, w.2)) as Hw. unfold wp in Hw.
  unfold try_bind, on_wal, on_memtable, zoom, mbind, proc_bind in Hrun.
  destruct (wal_append _ _) as [[[[]|e]|] v]; unfold unsynced in Hw; simpl in *.
  - destruct (apply_entry _ _) as [[[]|] mt'] eqn:Ha; unfold mret, proc_ret in Hrun; simplify_eq.
    destruct Hb as [?|Hb]; [done|]. destruct (apply_entry_release (mutation_entry m) (se_memtable w.1) Hb).
    congruence.
  - unfold mret, proc_ret in Hrun. simplify_eq. simpl. by apply Hw.
  - by simplify_eq.
Qed.

(** A new engine on a store without a WAL satisfies the invariant. *)
Lemma engine_new_ok dir fs :
  fs_faults fs = [] → fs_files fs !! engine_wal_path dir = None →
  fs_durable fs !! engine_wal_path dir = None →
  ∃ e fs', engine_new dir fs = (Done (Ok e), fs') ∧ engine_ok dir [] (e, fs').
Proof.
  intros Hnf Hf Hd.
  destruct (engine_new_run dir fs "" memtable_new) as (fs1 & Hnew & Hd1 & Hf1); try done.
  { by rewrite Hf. }
  do 2 eexists. split; [done|]. split; simpl; try done. right.
  by rewrite Hd1.
Qed.

End engine.

(** ** Isolation: the engine only ever touches its WAL file *)

Definition engine_frame : relation EW := λ w w',
  wal_path (se_wal w'.1) = wal_path (se_wal w.1) ∧ fs_frame (wal_path (se_wal w.1)) w.2 w'.2.

#[export] Instance engine_frame_preorder : PreOrder engine_frame.
Proof.
  split; [by intros w|]. intros a b c [H1 H2] [H3 H4]. rewrite H1 in H3, H4.
  split; [done|by etrans].
Qed.

Lemma engine_mutate_frame `{Build} m : keeps engine_frame (engine_mutate m).
Proof.
  assert (keeps engine_frame (_ ?← on_wal (wal_append (mutation_entry m));
    on_memtable (apply_entry (mutation_entry m)) ;; mret (Ok tt))) as Hk.
  { keeps_step; [eapply keeps_zoom; [|apply wal_append_frame]; by intros ? ? []|].
    keeps_step; [|by keeps_step]. apply (keeps_zoom _ _ _ (λ _ _, True)); [done|].
    intros w. unfold wp. by destruct (apply_entry _ w) as [[]]. }
  intros w. unfold wp. rewrite engine_mutate_run. apply Hk.
Qed.

Lemma next_fault_frame path : keeps (fs_frame path) next_fault.
Proof. intros fs. apply wp_next_fault_any. intros. by apply fs_frame_faults. Qed.

Lemma create_dir_all_frame path : keeps (fs_frame path) create_dir_all.
Proof. unfold create_dir_all. keeps_step; [apply next_fault_frame|]. by keeps_auto. Qed.

Lemma fs_read_frame path file : keeps (fs_frame path) (fs_read_to_string file).
Proof. unfold fs_read_to_string. keeps_step; [apply next_fault_frame|]. by keeps_auto. Qed.

Lemma engine_new_frame `{Build} dir : keeps (fs_frame (engine_wal_path dir)) (engine_new dir).
Proof.
  unfold engine_new, wal_new, wal_replay. keeps_step; [apply create_dir_all_frame|].
  keeps_step; [keeps_step; [apply open_append_frame|by keeps_step]|].
  keeps_step; [keeps_step; [apply fs_read_frame|by keeps_step]|].
  keeps_step; [|by keeps_step]. intros fs. unfold with_local, wp.
  by destruct (for_each _ _ _) as [[]].
Qed.

Lemma engine_new_path `{Build} dir fs e fs' :
  engine_new dir fs = (Done (Ok e), fs') → wal_path (se_wal e) = engine_wal_path dir.
Proof.
  assert (wp (engine_new dir) fs
    (λ r _, ∀ e, r = Ok e → wal_path (se_wal e) = engine_wal_path dir) (λ _, True)) as Hwp.
  2:{ intros Hrun. by apply (wp_run _ _ _ _ _ _ Hwp Hrun). }
  unfold engine_new, wal_new. wp_step. unfold wp at 1.
  destruct (create_dir_all fs) as [[[]|] fs0]; try done. wp_step. wp_step. unfold wp at 1.
  destruct (open_append _ fs0) as [[[]|] fs1]; try done. wp_step. wp_step. unfold wp at 1.
  destruct (wal_replay _ fs1) as [[[]|] fs2]; try done. wp_step. unfold wp at 1.
  destruct (with_local _ _ fs2) as [[] fs3]; try done. wp_step. by intros ? [= <-].
Qed.
