(* ===== verification/EngineProps.v ===== *)
(** * Properties of the storage engine

    The guarantees of src/storage for the entries its text format can represent,
    and the inputs outside that class for which they fail. *)

From S2P Require Import Prelude Text Fs BTree Memtable Wal Codec Engine.

Definition empty_fs : Fs := {| fs_files := ∅; fs_durable := ∅; fs_faults := [] |}.

(** What a client reads after the process is restarted on the disk [fs]: [None]
    when the engine does not open. *)
Definition reopened_get `{Build} (dir : string) (fs : Fs) (k : string) : option (option string) :=
  match (engine_new dir fs).1 with
  | Done (Ok e) => Some (engine_get e k)
  | _ => None
  end.

(** Schedule faults for the next operations. *)
Definition schedule (l : list fault) (w : EW) : EW := (w.1, set_faults l w.2).

Section properties.
Context `{Build}.

Lemma engine_mutate_err m w e w' :
  engine_mutate m w = (Done (Err e), w') → se_memtable w'.1 = se_memtable w.1.
Proof.
  intros Hrun. rewrite engine_mutate_run in Hrun.
  apply (wp_run _ _ (λ r w', ∀ e, r = Err e → se_memtable w'.1 = se_memtable w.1)
    (λ _, True)) in Hrun; [by eapply Hrun|].
  unfold on_wal, on_memtable. do 2 wp_step. unfold wp at 1.
  destruct (wal_append _ _) as [[[]|] [wal fs]]; try done. wp_step. apply wp_zoom. unfold wp at 1.
  by destruct (apply_entry _ _) as [[]].
Qed.

(** An engine opened where there is no WAL starts empty, whatever the disk does. *)
Lemma engine_new_empty dir fs e fs' :
  fs_files fs !! engine_wal_path dir = None → engine_new dir fs = (Done (Ok e), fs') →
  se_memtable e = memtable_new.
Proof.
  intros Hf Hrun.
  enough (wp (engine_new dir) fs (λ r _, ∀ e, r = Ok e → se_memtable e = memtable_new) (λ _, True)) as Hwp
    by (by apply (wp_run _ _ _ _ _ _ Hwp Hrun)).
  unfold engine_new, wal_new, wal_replay, create_dir_all, open_append, fs_read_to_string, put_file, fs_exists.
  do 2 wp_step. apply wp_next_fault_any. intros [|x|x] l _; [|by wp_step..]. do 4 wp_step.
  apply wp_next_fault_any. intros [|x|x] l' _; [|by wp_step..]. do 2 wp_step. simpl. rewrite Hf.
  rewrite bool_decide_false by (by intros []). repeat wp_step.
  apply wp_next_fault_any. intros [|x|x] l'' _; [|by wp_step..]. do 2 wp_step. simpl.
  rewrite lookup_insert_eq. repeat wp_step. unfold wp. simpl. by intros ? [= <-].
Qed.

(** C22: the engine refines a map, with errors of the disk in between.  Open an
    engine in a directory without a WAL and run any puts and deletes, going on
    after those that return an error, on a disk with any schedule of faults (the
    run ends early only if a fault kills the process).  Then [get] answers exactly
    as a finite map on which the acknowledged mutations, and no others, were
    performed in their order. *)
Theorem engine_refines_map dir fs ms faults e fs' rs w' k :
  fs_files fs !! engine_wal_path dir = None →
  engine_new dir fs = (Done (Ok e), fs') →
  engine_tries ms (schedule faults (e, fs')) = (Done rs, w') →
  engine_get w'.1 k = abstract_run (acknowledged ms rs) !! k.
Proof.
  intros Hf Hnew Hrun. apply engine_new_empty in Hnew; [|done]. rewrite engine_get_mjoin.
  eapply (engine_tries_reads ms (schedule faults (e, fs')) _ _ ∅); [|done].
  simpl. rewrite Hnew. apply reads_as_new.
Qed.

(** C21: exactly the acknowledged writes survive a power cut.  In a directory
    without a WAL, run puts and deletes that the WAL format can represent (see
    [mutation_clean]) and that are all acknowledged, and then one more on a disk
    with any faults: it may succeed, return an error or kill the process at any
    point.  Cut the power, so that only synced bytes remain ([power_loss]; syncing
    a file is taken to make its name durable too).  Reopening succeeds, and every
    [get] answers as a map that holds the acknowledged mutations: all of them, and
    the last one if and only if it was acknowledged.  If it was, the same holds
    after a mere crash of the process.  (A debug build must not have panicked on
    the size counter.) *)
Theorem acknowledged_writes_survive dir fs ms m faults e fs' w1 o w2 fs0 :
  fs_faults fs = [] → fs_files fs !! engine_wal_path dir = None →
  fs_durable fs !! engine_wal_path dir = None →
  Forall (λ m, mutation_clean m = true) ms → mutation_clean m = true →
  engine_new dir fs = (Done (Ok e), fs') →
  engine_run ms (e, fs') = (Done (Ok tt), w1) →
  engine_mutate m (schedule faults w1) = (o, w2) →
  o ≠ Halted ∨ overflow_checks = false →
  fs0 = power_loss w2.2 ∨ (o = Done (Ok tt) ∧ fs0 = set_faults [] w2.2) →
  ∃ e2 fs2, engine_new dir fs0 = (Done (Ok e2), fs2) ∧
    ∀ k, engine_get e2 k =
      abstract_run (match o with Done (Ok _) => ms ++ [m] | _ => ms end) !! k.
Proof.
  intros Hnf Hf Hd Hcl Hm Hnew Hrun Hlast Hb Hfs0.
  destruct (engine_new_ok dir fs Hnf Hf Hd) as (e1 & fs1 & Hnew1 & Hok).
  rewrite Hnew in Hnew1. simplify_eq.
  apply (engine_run_ok dir ms []) in Hrun; [|done..]. simpl in Hrun.
  assert (engine_ok dir ms (schedule faults w1)) as Hok1 by (by destruct Hrun; split).
  assert (∀ ms' w, engine_ok dir ms' w → fs_faults fs0 = [] →
    (fs_files fs0 = fs_files w.2 ∨ fs_files fs0 = fs_durable w.2) →
    ∃ e2 fs2, engine_new dir fs0 = (Done (Ok e2), fs2) ∧ ∀ k, engine_get e2 k = abstract_run ms' !! k) as Hopen.
  { intros ms' w Hw Hq Hfiles. destruct (engine_new_recovers dir ms' w fs0) as (e2 & fs2 & Hnew2 & Hmt); [done..|].
    exists e2, fs2. split; [done|]. intros k. rewrite engine_get_mjoin, Hmt, <-engine_get_mjoin.
    by apply engine_ok_get with dir. }
  assert (o = Done (Ok tt) ∨ o ≠ Done (Ok tt)) as [->|Ho] by (destruct o as [[[]|]|]; [by left|by right..]).
  - apply (engine_mutate_ok dir ms m) in Hlast; [|done..].
    apply (Hopen _ w2); [done|by destruct Hfs0 as [->|[_ ->]]|destruct Hfs0 as [->|[_ ->]]; auto].
  - destruct Hfs0 as [->|[? _]]; [|done].
    pose proof (engine_mutate_unsynced _ _ _ _ Hlast Ho Hb) as Hdur.
    replace (match o with Done (Ok _) => ms ++ [m] | _ => ms end) with ms by (by destruct o as [[[]|]|]).
    apply (Hopen ms w1); [done|done|]. right. simpl. by rewrite Hdur.
Qed.

(** a failed write is not visible.  When a put or delete returns an error,
    whatever the fault, the memtable, and with it every answer of [get], is
    unchanged. *)
Theorem failed_write_not_visible m w e w' k :
  engine_mutate m w = (Done (Err e), w') → engine_get w'.1 k = engine_get w.1 k.
Proof. intros Hrun. rewrite !engine_get_mjoin. by erewrite engine_mutate_err. Qed.

End properties.

(** ** Witnesses *)

Definition demo_mutations : list Mutation :=
  [MPut "name" "uday"; MPut "balance" "5000"; MDelete "name"].

Definition demo_engine : outcome (result io_error StorageEngine) * Fs :=
  @engine_new debug_build "/d/storage" empty_fs.

Definition demo_world : EW :=
  match demo_engine with
  | (Done (Ok e), fs) => (e, fs)
  | (_, fs) => (mkEngine (mkWal "" "") memtable_new "", fs)
  end.

Definition demo_final : EW := (@engine_run debug_build demo_mutations demo_world).2.

(** The second put meets a full disk, the sync of the delete fails. *)
Definition demo_faults : list fault := [Fine; Fine; Fail None; Fine; Fail None].

Definition demo_tries : outcome (list (result io_error unit)) * EW :=
  @engine_tries debug_build demo_mutations (schedule demo_faults demo_world).

Lemma engine_refines_map_witness :
  demo_tries.1 = Done [Ok tt; Err IoOther; Err IoOther] ∧
  engine_get demo_tries.2.1 "balance"
  = abstract_run (acknowledged demo_mutations [Ok tt; Err IoOther; Err IoOther]) !! "balance".
Proof.
  split; [vm_compute; reflexivity|].
  apply (@engine_refines_map debug_build "/d/storage" empty_fs demo_mutations demo_faults
    demo_world.1 demo_world.2 [Ok tt; Err IoOther; Err IoOther] demo_tries.2 "balance");
    vm_compute; reflexivity.
Defined.

(** A put that is killed when it should be synced. *)
Definition demo_killed : outcome (result io_error unit) * EW :=
  @engine_mutate release_build (MPut "k" "v") (schedule [Fine; Kill None]
    (@engine_run release_build demo_mutations demo_world).2).

Lemma acknowledged_writes_survive_witness :
  demo_killed.1 = Halted ∧
  ∃ e2 fs2, @engine_new release_build "/d/storage" (power_loss demo_killed.2.2) = (Done (Ok e2), fs2) ∧
    ∀ k, engine_get e2 k = abstract_run demo_mutations !! k.
Proof.
  split; [vm_compute; reflexivity|].
  apply (@acknowledged_writes_survive release_build "/d/storage" empty_fs demo_mutations (MPut "k" "v")
    [Fine; Kill None] demo_world.1 demo_world.2 (@engine_run release_build demo_mutations demo_world).2
    Halted demo_killed.2 (power_loss demo_killed.2.2));
    [vm_compute; reflexivity|vm_compute; reflexivity|vm_compute; reflexivity|by repeat constructor
    |vm_compute; reflexivity|vm_compute; reflexivity|vm_compute; reflexivity|vm_compute; reflexivity
    |by right|by left].
Defined.

Lemma failed_write_not_visible_witness :
  engine_get (@engine_put debug_build "k" "v" (schedule [Fail None] demo_final)).2.1 "k"
  = engine_get demo_final.1 "k".
Proof.
  apply (@failed_write_not_visible debug_build (MPut "k" "v")
    (schedule [Fail None] demo_final) IoOther
    (@engine_put debug_build "k" "v" (schedule [Fail None] demo_final)).2 "k"). vm_compute. reflexivity.
Defined.

(** ** Where the guarantees end *)

(** C39: a value that contains the separator is lost on recovery.  The engine
    acknowledges [SET k "a|b"] and serves it, but its WAL line has four fields,
    which replay skips as malformed: after a restart the key is gone. *)
Theorem separator_in_value_is_lost :
  let w := (@engine_put release_build "k" "a|b" demo_world).2 in
  (@engine_put release_build "k" "a|b" demo_world).1 = Done (Ok tt) ∧
  engine_get w.1 "k" = Some "a|b" ∧
  @reopened_get release_build "/d/storage" w.2 "k" = Some None.
Proof. cbv zeta. split_and!; vm_compute; reflexivity. Qed.

(** a torn record is replayed as if it were complete.  If the process dies
    while a new value of [k] is being appended, a prefix of the record that still
    has three fields is accepted by replay: the recovered value is neither the
    old one nor the new one. *)
Theorem torn_record_is_replayed :
  let w := (@engine_put release_build "balance" "9000" (schedule [Kill (Some 14)] demo_final)).2 in
  (@engine_put release_build "balance" "9000" (schedule [Kill (Some 14)] demo_final)).1 = Halted ∧
  engine_get demo_final.1 "balance" = Some "5000" ∧
  @reopened_get release_build "/d/storage" w.2 "balance" = Some (Some "90").
Proof. cbv zeta. split_and!; vm_compute; reflexivity. Qed.

(** a write that failed can take effect after a restart.  When [fsync] fails
    the put returns an error and the memtable is untouched, but the record is
    already in the file: the reopened engine serves the value the client was
    told had failed. *)
Theorem failed_write_reappears :
  let w := (@engine_put release_build "k" "v" (schedule [Fine; Fail None] demo_final)).2 in
  (@engine_put release_build "k" "v" (schedule [Fine; Fail None] demo_final)).1
    = Done (Err IoOther) ∧
  engine_get w.1 "k" = None ∧
  @reopened_get release_build "/d/storage" w.2 "k" = Some (Some "v").
Proof. cbv zeta. split_and!; vm_compute; reflexivity. Qed.
