(* ===== verification/Ring.v ===== *)
(** * The consistent hashing ring (src/sharding/ring.rs)

    The ring is a [BTreeMap] from positions to shard ids; the hash is computed
    on 64-bit integers with wrapping products.  The specification is the
    clockwise distance: the owner of a key is the point of the ring nearest to
    the key's hash going up and around. *)

From stdpp Require Import sorting.
From S2P Require Import Prelude Text BTree.
From Stdlib Require Import Sorted Ascii.

Record HashRing : Type := mkRing {
  ring : list (N * N);
  num_virtual_nodes : N;
}.

(** ** Hashing: FNV-1a, then the finalizer *)

Definition FNV_OFFSET : N := 0xcbf29ce484222325.
Definition FNV_PRIME : N := 0x100000001b3.

Fixpoint fnv1a (hash : N) (bytes : string) : N :=
  match bytes with
  | EmptyString => hash
  | String b bytes => fnv1a (wrapping_mul (N.lxor hash (N_of_ascii b)) FNV_PRIME) bytes
  end.

Definition xor_shift (h : N) : N := N.lxor h (N.shiftr h 33).

Definition hash (key : string) : N :=
  let h := fnv1a FNV_OFFSET key in
  let h := xor_shift h in
  let h := wrapping_mul h 0xff51afd7ed558ccd in
  let h := xor_shift h in
  let h := wrapping_mul h 0xc4ceb9fe1a85ec53 in
  xor_shift h.

(** ** Operations *)

Definition ring_new (num_virtual_nodes : N) : HashRing := mkRing [] num_virtual_nodes.

(** [format!("shard-{}-vnode-{}", shard_id, i)] *)
Definition vnode_key (shard_id i : N) : string :=
  "shard-" +:+ pretty shard_id +:+ "-vnode-" +:+ pretty i.

Definition vnode_position (shard_id i : N) : N := hash (vnode_key shard_id i).

(** [0..num_virtual_nodes] *)
Definition vnode_indices (n : N) : list N := N.of_nat <$> seq 0 (N.to_nat n).

Definition add_vnode (shard_id : N) (r : list (N * N)) (i : N) : list (N * N) :=
  bt_insert (vnode_position shard_id i) shard_id r.

Definition ring_add_shard (r : HashRing) (shard_id : N) : HashRing :=
  mkRing (foldl (add_vnode shard_id) (ring r) (vnode_indices (num_virtual_nodes r)))
    (num_virtual_nodes r).

Definition ring_remove_shard (r : HashRing) (shard_id : N) : HashRing :=
  mkRing (bt_retain (λ x, x.2 ≠ shard_id) (ring r)) (num_virtual_nodes r).

Definition ring_get_shard (r : HashRing) (key : string) : option N :=
  if bool_decide (ring r = []) then None else
  match bt_range_next (hash key) (ring r) with
  | Some (_, shard_id) => Some shard_id
  | None => snd <$> bt_first (ring r)
  end.

(** [Vec::dedup]: drop consecutive repetitions. *)
Fixpoint dedup (l : list N) : list N :=
  match l with
  | x :: (y :: _) as t => if bool_decide (x = y) then dedup t else x :: dedup t
  | _ => l
  end.

Definition ring_shard_ids (r : HashRing) : list N :=
  dedup (merge_sort N.le (ring r).*2).

Definition ring_shard_count (r : HashRing) : N :=
  vec_len (dedup (merge_sort N.le (ring r).*2)).

(** ** Invariant and specification *)

Record ring_wf (r : HashRing) : Prop := {
  rw_sorted : bt_sorted (ring r);
  rw_range : Forall in_u64 (ring r).*1;
}.

(** How far [p] is from [h], going clockwise. *)
Definition clockwise (h p : N) : N :=
  if bool_decide (h ≤ p)%N then (p - h)%N else (p + u64_modulus - h)%N.

(** The point that owns hash [h]. *)
Definition owns (r : HashRing) (h : N) (x : N * N) : Prop :=
  x ∈ ring r ∧ ∀ q, q ∈ (ring r).*1 → (clockwise h x.1 ≤ clockwise h q)%N.

(** ** Hash range *)

Lemma in_u64_log2 x : in_u64 x ↔ x = 0%N ∨ (N.log2 x < 64)%N.
Proof.
  unfold in_u64, u64_modulus. destruct (decide (x = 0%N)) as [->|Hx]; [by split; [left|]|].
  rewrite <-(N.log2_lt_pow2 x 64) by lia. naive_solver.
Qed.

Lemma lxor_in_u64 x y : in_u64 x → in_u64 y → in_u64 (N.lxor x y).
Proof.
  rewrite !in_u64_log2. intros Hx Hy. destruct (decide (N.lxor x y = 0%N)) as [->|Hne]; [by left|].
  right. eapply N.le_lt_trans; [apply N.log2_lxor|].
  apply N.max_lub_lt; [destruct Hx as [->|]|destruct Hy as [->|]]; done.
Qed.

Lemma shiftr_in_u64 x n : in_u64 x → in_u64 (N.shiftr x n).
Proof.
  unfold in_u64. intros Hx. rewrite N.shiftr_div_pow2. eapply N.le_lt_trans; [|exact Hx].
  apply N.Div0.div_le_upper_bound. assert (2 ^ n ≠ 0)%N by (by apply N.pow_nonzero). nia.
Qed.

Lemma xor_shift_in_u64 x : in_u64 x → in_u64 (xor_shift x).
Proof. intros. by apply lxor_in_u64, shiftr_in_u64. Qed.

Lemma hash_in_u64 key : in_u64 (hash key).
Proof. apply xor_shift_in_u64, wrap64_range. Qed.

(** ** The clockwise distance *)

Lemma clockwise_inj h p q :
  in_u64 h → in_u64 p → in_u64 q → clockwise h p = clockwise h q → p = q.
Proof. unfold clockwise, in_u64. intros. repeat case_bool_decide; lia. Qed.

Lemma ring_position_range r p : ring_wf r → p ∈ (ring r).*1 → in_u64 p.
Proof. intros [_ Hr] Hp. rewrite Forall_forall in Hr. auto. Qed.

Lemma elem_of_position (r : list (N * N)) x : x ∈ r → x.1 ∈ r.*1.
Proof. intros Hx. apply list_elem_of_fmap. by exists x. Qed.

Lemma owns_unique r h x y :
  ring_wf r → in_u64 h → owns r h x → owns r h y → x = y.
Proof.
  intros Hr Hh [Hx Hxmin] [Hy Hymin]. destruct x as [p s], y as [q t]. simpl in *.
  pose proof (elem_of_position _ _ Hx) as Hp. pose proof (elem_of_position _ _ Hy) as Hq.
  assert (p = q) as ->.
  { apply (clockwise_inj h); eauto using ring_position_range.
    specialize (Hxmin _ Hq). specialize (Hymin _ Hp). simpl in *. lia. }
  apply bt_get_elem in Hx; [|apply Hr]. apply bt_get_elem in Hy; [|apply Hr]. by simplify_eq.
Qed.

(** The lookup finds the owner, and finds one whenever the ring is not empty. *)
Lemma ring_lookup_owns r key :
  ring_wf r → ring r ≠ [] →
  ∃ p s, owns r (hash key) (p, s) ∧ ring_get_shard r key = Some s.
Proof.
  intros Hr Hne. unfold ring_get_shard. rewrite bool_decide_false by done.
  pose proof (hash_in_u64 key) as Hh. unfold in_u64 in Hh.
  destruct (bt_range_next (hash key) (ring r)) as [[p s]|] eqn:E.
  - apply bt_range_next_Some in E as (Hin & Hle & Hall); [|apply Hr]. simpl in *.
    exists p, s. split; [|done]. split; [done|]. intros q Hq.
    pose proof (ring_position_range r q Hr Hq) as Hqr. unfold in_u64 in Hqr. simpl.
    pose proof (ring_position_range r _ Hr (elem_of_position _ _ Hin)) as Hpr.
    unfold in_u64 in Hpr. simpl in Hpr.
    unfold clockwise. destruct (Hall q Hq) as [|[|]]; repeat case_bool_decide; lia.
  - rewrite bt_range_next_None in E.
    destruct (bt_first (ring r)) as [[p s]|] eqn:F.
    + apply bt_first_Some in F as (Hin & Hall); [|apply Hr]. simpl in *.
      exists p, s. split; [|done]. split; [done|]. intros q Hq. simpl.
      pose proof (E _ Hq). pose proof (E _ (elem_of_position _ _ Hin)). simpl in *.
      unfold clockwise. destruct (Hall q Hq); repeat case_bool_decide; lia.
    + by destruct (ring r).
Qed.

Lemma ring_get_shard_spec r key s :
  ring_wf r → ring_get_shard r key = Some s ↔ ∃ p, owns r (hash key) (p, s).
Proof.
  intros Hr. split.
  - intros Hs. destruct (decide (ring r = [])) as [He|Hne].
    + unfold ring_get_shard in Hs. by rewrite bool_decide_true in Hs.
    + destruct (ring_lookup_owns r key Hr Hne) as (p & s' & Ho & Hs'). simplify_eq. eauto.
  - intros (p & Ho). destruct (decide (ring r = [])) as [He|Hne].
    + destruct Ho as [Hin _]. rewrite He in Hin. by apply not_elem_of_nil in Hin.
    + destruct (ring_lookup_owns r key Hr Hne) as (p' & s' & Ho' & Hs').
      rewrite Hs'. pose proof (owns_unique r _ _ _ Hr (hash_in_u64 key) Ho Ho'). by simplify_eq.
Qed.

(** ** Adding and removing *)

Lemma ring_wf_new n : ring_wf (ring_new n).
Proof. split; [constructor|by apply Forall_nil]. Qed.

(** An invariant of the points that each insertion of a virtual node keeps. *)
Lemma add_vnodes_ind (P : list (N * N) → Prop) s idx r :
  (∀ r i, P r → P (add_vnode s r i)) → P r → P (foldl (add_vnode s) r idx).
Proof. intros Hstep. revert r. induction idx; simpl; auto. Qed.

Lemma ring_wf_add r s : ring_wf r → ring_wf (ring_add_shard r s).
Proof.
  intros [Hs Hr]. destruct (add_vnodes_ind (λ r, bt_sorted r ∧ Forall in_u64 r.*1) s
    (vnode_indices (num_virtual_nodes r)) (ring r)) as [? ?]; [|done..].
  intros r' i [? Hr']. split; [by apply bt_sorted_insert|]. rewrite Forall_forall in *.
  intros x [->|Hx]%bt_insert_keys; [apply hash_in_u64|auto].
Qed.

Lemma ring_wf_remove r s : ring_wf r → ring_wf (ring_remove_shard r s).
Proof.
  intros [Hs Hr]. split; simpl; [by apply bt_sorted_retain|].
  rewrite Forall_forall in *. intros x Hx. apply Hr. by apply fst_filter_subseteq in Hx.
Qed.

(** After [add_shard] every point is old or belongs to the new shard, and every
    old position is still occupied. *)
Lemma ring_add_points r s :
  ring_wf r →
  (∀ x, x ∈ ring (ring_add_shard r s) → x ∈ ring r ∨ x.2 = s) ∧
  (ring r).*1 ⊆ (ring (ring_add_shard r s)).*1.
Proof.
  intros [Hs _]. destruct (add_vnodes_ind
    (λ r', bt_sorted r' ∧ (∀ x, x ∈ r' → x ∈ ring r ∨ x.2 = s) ∧ (ring r).*1 ⊆ r'.*1) s
    (vnode_indices (num_virtual_nodes r)) (ring r)) as (_ & ? & ?); [|by auto|done].
  intros r' i (Hr' & Hpts & Hpos). unfold add_vnode. split_and!.
  - by apply bt_sorted_insert.
  - intros x [->|[Hx _]]%elem_of_bt_insert; auto.
  - intros p Hp. specialize (Hpos p Hp). apply list_elem_of_fmap in Hpos as ([p' s'] & -> & Hin).
    simpl. destruct (decide (p' = vnode_position s i)) as [->|Hne].
    + apply (elem_of_position _ (vnode_position s i, s)), elem_of_bt_insert; auto.
    + apply (elem_of_position _ (p', s')), elem_of_bt_insert; auto.
Qed.

Lemma ring_add_has_points r s i :
  ring_wf r → (i < num_virtual_nodes r)%N → (vnode_position s i, s) ∈ ring (ring_add_shard r s).
Proof.
  intros [Hs _] Hi. simpl.
  assert (i ∈ vnode_indices (num_virtual_nodes r)) as Hin.
  { apply list_elem_of_fmap. exists (N.to_nat i). split; [lia|]. apply elem_of_seq. lia. }
  revert Hin. generalize (ring r) Hs. induction (vnode_indices (num_virtual_nodes r)) as [|j idx IH];
    intros r' Hr' Hin; [by apply not_elem_of_nil in Hin|]. simpl.
  apply elem_of_cons in Hin as [->|Hin].
  - apply (add_vnodes_ind (λ r, bt_sorted r ∧ (vnode_position s j, s) ∈ r)).
    + intros r0 k [Hr0 Hk]. split; [by apply bt_sorted_insert|]. apply elem_of_bt_insert; [done|].
      destruct (decide (vnode_position s j = vnode_position s k)) as [->|]; auto.
    + split; [by apply bt_sorted_insert|]. apply elem_of_bt_insert; auto.
  - apply IH; [by apply bt_sorted_insert|done].
Qed.

(** ** The shard ids *)

Lemma elem_of_dedup l x : x ∈ dedup l ↔ x ∈ l.
Proof.
  induction l as [|a l IH]; [done|]. destruct l as [|b l]; [done|]. simpl.
  simpl in IH. case_bool_decide; subst; [rewrite IH; set_solver|].
  rewrite elem_of_cons, IH. set_solver.
Qed.

Lemma dedup_sorted l : StronglySorted N.le l → StronglySorted N.lt (dedup l).
Proof.
  induction l as [|a l IH]; intros Hs; [constructor|].
  apply StronglySorted_inv in Hs as [Hs Ha]. specialize (IH Hs).
  destruct l as [|b l]; [by repeat constructor|]. simpl. simpl in IH.
  case_bool_decide as Hab; [done|]. constructor; [done|].
  apply Forall_forall. intros x Hx. apply (elem_of_dedup (b :: l)) in Hx.
  apply StronglySorted_inv in Hs as [_ Hb]. rewrite Forall_forall in Ha, Hb.
  pose proof (Ha b ltac:(left)). apply elem_of_cons in Hx as [->|Hx]; [lia|].
  specialize (Hb x Hx). lia.
Qed.

(** ** Properties *)

(** C31: a key is owned by the nearest point clockwise.  In a well-formed ring,
    [get_shard key] is [Some s] exactly when [s] is the shard of the point whose
    clockwise distance from the key's hash (modulo 2^64, so around the end of the
    ring) is least; and it is [None] exactly when the ring is empty. *)
Theorem get_shard_is_clockwise_successor r key :
  ring_wf r →
  (∀ s, ring_get_shard r key = Some s ↔
     ∃ p, (p, s) ∈ ring r ∧
       ∀ q t, (q, t) ∈ ring r → (clockwise (hash key) p ≤ clockwise (hash key) q)%N) ∧
  (ring_get_shard r key = None ↔ ring r = []).
Proof.
  intros Hr. split.
  - intros s. rewrite ring_get_shard_spec by done. unfold owns. simpl.
    split; intros (p & Hin & Hmin); exists p; (split; [done|]).
    + intros q t Hq. by apply Hmin, (elem_of_position _ (q, t)).
    + intros q ([q' t] & -> & Hq)%list_elem_of_fmap. by eapply Hmin.
  - split; intros He.
    + destruct (decide (ring r = [])) as [|Hne]; [done|].
      destruct (ring_lookup_owns r key Hr Hne) as (p & s & _ & Hs). by simplify_eq.
    + unfold ring_get_shard. by rewrite bool_decide_true.
Qed.

(** C32: adding a shard moves keys only to the new shard.  After [add_shard s],
    every key is owned by [s] or by the shard that owned it before. *)
Theorem add_shard_minimal_disruption r s key :
  ring_wf r →
  ring_get_shard (ring_add_shard r s) key = Some s ∨
  ring_get_shard (ring_add_shard r s) key = ring_get_shard r key.
Proof.
  intros Hr. pose proof (ring_wf_add r s Hr) as Hr'.
  destruct (ring_add_points r s Hr) as [Hpts Hpos].
  destruct (decide (ring (ring_add_shard r s) = [])) as [He|Hne].
  - right. assert (ring r = []) as He'.
    { apply (fmap_nil_inv fst). apply list_nil_subseteq. by rewrite He in Hpos. }
    unfold ring_get_shard. by rewrite !bool_decide_true.
  - destruct (ring_lookup_owns _ key Hr' Hne) as (p & s' & [Hin Hmin] & ->).
    destruct (Hpts _ Hin) as [Hold|Heq]; [|simpl in Heq; subst; by left].
    right. symmetry. apply ring_get_shard_spec; [done|]. exists p. split; auto.
Qed.

(** C33: removing a shard moves only the keys it owned.  A key owned by another
    shard keeps its owner, and no key is owned by the removed shard any more. *)
Theorem remove_shard_minimal_disruption r s key :
  ring_wf r →
  (ring_get_shard r key ≠ Some s →
   ring_get_shard (ring_remove_shard r s) key = ring_get_shard r key) ∧
  ring_get_shard (ring_remove_shard r s) key ≠ Some s.
Proof.
  intros Hr. pose proof (ring_wf_remove r s Hr) as Hr'. split.
  - intros Hne. destruct (decide (ring r = [])) as [He|Hnil].
    { unfold ring_get_shard. simpl. rewrite He. done. }
    destruct (ring_lookup_owns r key Hr Hnil) as (p & s' & [Hin Hmin] & Hs'). rewrite Hs' in *.
    apply ring_get_shard_spec; [done|]. exists p. split; simpl.
    + apply list_elem_of_filter. split; [|done]. simpl. congruence.
    + intros q Hq. apply Hmin. by apply fst_filter_subseteq in Hq.
  - intros (p & Hin & _)%ring_get_shard_spec; [|done].
    by apply list_elem_of_filter in Hin as [? _].
Qed.

(** [shard_ids] is the increasing list, without repetitions, of the shards
    that have a point on the ring, and [shard_count] is its length. *)
Theorem shard_ids_exact r :
  StronglySorted N.lt (ring_shard_ids r) ∧
  (∀ s, s ∈ ring_shard_ids r ↔ ∃ p, (p, s) ∈ ring r) ∧
  ring_shard_count r = vec_len (ring_shard_ids r).
Proof.
  unfold ring_shard_ids. split_and!; [|intros s|done].
  - apply dedup_sorted, StronglySorted_merge_sort; [apply _|]. intros x y. lia.
  - rewrite elem_of_dedup, merge_sort_Permutation, list_elem_of_fmap. split.
    + intros ([p s'] & -> & Hin). by exists p.
    + intros [p Hin]. by exists (p, s).
Qed.

(** ** Witnesses *)

Definition sample_ring : HashRing := ring_add_shard (ring_add_shard (ring_new 3) 0) 1.

Lemma sample_ring_wf : ring_wf sample_ring.
Proof. apply ring_wf_add, ring_wf_add, ring_wf_new. Qed.

Lemma get_shard_is_clockwise_successor_witness :
  ring_get_shard sample_ring "user:42" = None ↔ ring sample_ring = [].
Proof. apply (get_shard_is_clockwise_successor sample_ring "user:42" sample_ring_wf). Defined.

Lemma add_shard_minimal_disruption_witness :
  ring_get_shard (ring_add_shard sample_ring 2) "user:42" = Some 2%N ∨
  ring_get_shard (ring_add_shard sample_ring 2) "user:42" = ring_get_shard sample_ring "user:42".
Proof. apply (add_shard_minimal_disruption sample_ring 2 "user:42" sample_ring_wf). Defined.

Lemma remove_shard_minimal_disruption_witness :
  ring_get_shard (ring_remove_shard sample_ring 0) "user:42" ≠ Some 0%N.
Proof. apply (remove_shard_minimal_disruption sample_ring 0 "user:42" sample_ring_wf). Defined.
