(* ===== verification/Router.v ===== *)
(** * The request router (src/sharding/router.rs) *)

From S2P Require Import Prelude Text BTree Ring.

Record ShardConfig : Type := mkShard {
  sc_shard_id : N;
  sc_node_ids : list N;
  sc_leader_port : option N;
}.

Record Router : Type := mkRouter {
  rt_ring : HashRing;
  rt_shards : list ShardConfig;
}.

(** ** Operations *)

Definition router_new (shards : list ShardConfig) (virtual_nodes : N) : Router :=
  mkRouter (foldl (λ r shard, ring_add_shard r (sc_shard_id shard)) (ring_new virtual_nodes) shards)
    shards.

(** [self.shards.iter().find(|s| s.shard_id == shard_id)] *)
Definition find_shard (shards : list ShardConfig) (shard_id : N) : option ShardConfig :=
  snd <$> list_find (λ s, sc_shard_id s = shard_id) shards.

Definition route (r : Router) (key : string) : option ShardConfig :=
  shard_id ← ring_get_shard (rt_ring r) key;
  find_shard (rt_shards r) shard_id.

Definition get_shard_id (r : Router) (key : string) : option N :=
  ring_get_shard (rt_ring r) key.

Definition key_belongs_to_shard (r : Router) (key : string) (shard_id : N) : bool :=
  match ring_get_shard (rt_ring r) key with
  | Some id => bool_decide (id = shard_id)
  | None => false
  end.

Definition router_get_shard (r : Router) (shard_id : N) : option ShardConfig :=
  find_shard (rt_shards r) shard_id.

Definition router_add_shard (r : Router) (config : ShardConfig) : Router :=
  mkRouter (ring_add_shard (rt_ring r) (sc_shard_id config)) (rt_shards r ++ [config]).

Definition router_remove_shard (r : Router) (shard_id : N) : Router :=
  mkRouter (ring_remove_shard (rt_ring r) shard_id)
    (filter (λ s, sc_shard_id s ≠ shard_id) (rt_shards r)).

Definition router_shard_count (r : Router) : N := vec_len (rt_shards r).

(** ** Histories

    The routers a program can build: [new], then any shards added and removed. *)
Inductive router_reachable : Router → Prop :=
| reach_new shards vn : router_reachable (router_new shards vn)
| reach_add r config : router_reachable r → router_reachable (router_add_shard r config)
| reach_remove r s : router_reachable r → router_reachable (router_remove_shard r s).

(** Every point of the ring belongs to a configured shard. *)
Record router_wf (r : Router) : Prop := {
  rtw_ring : ring_wf (rt_ring r);
  rtw_known : ∀ x, x ∈ ring (rt_ring r) → x.2 ∈ sc_shard_id <$> rt_shards r;
}.

(** ** Lemmas *)

Lemma ring_add_known r s ids :
  ring_wf r → (∀ x, x ∈ ring r → x.2 ∈ ids) →
  ∀ x, x ∈ ring (ring_add_shard r s) → x.2 ∈ ids ++ [s].
Proof.
  intros Hr Hids x Hx. apply elem_of_app.
  destruct (proj1 (ring_add_points r s Hr) x Hx) as [|Heq]; [left; auto|right]. set_solver.
Qed.

Lemma router_new_snoc shards c vn :
  router_new (shards ++ [c]) vn = router_add_shard (router_new shards vn) c.
Proof. unfold router_new, router_add_shard. simpl. by rewrite foldl_app. Qed.

Lemma router_wf_add r c : router_wf r → router_wf (router_add_shard r c).
Proof.
  intros [Hr Hk]. split; simpl; [by apply ring_wf_add|]. rewrite fmap_app.
  by apply ring_add_known.
Qed.

Lemma router_wf_new shards vn : router_wf (router_new shards vn).
Proof.
  induction shards as [|c shards IH] using rev_ind.
  - split; simpl; [apply ring_wf_new|]. intros x Hx. by apply not_elem_of_nil in Hx.
  - rewrite router_new_snoc. by apply router_wf_add.
Qed.

Lemma router_wf_remove r s : router_wf r → router_wf (router_remove_shard r s).
Proof.
  intros [Hr Hk]. split; simpl; [by apply ring_wf_remove|].
  intros x [Hne Hin]%list_elem_of_filter. specialize (Hk x Hin).
  apply list_elem_of_fmap in Hk as (c & Hc & Hcin). apply list_elem_of_fmap. exists c.
  split; [done|]. apply list_elem_of_filter. split; [congruence|done].
Qed.

Lemma router_reachable_wf r : router_reachable r → router_wf r.
Proof. induction 1; auto using router_wf_new, router_wf_add, router_wf_remove. Qed.

Lemma find_shard_Some shards s :
  s ∈ sc_shard_id <$> shards → ∃ c, find_shard shards s = Some c ∧ c ∈ shards ∧ sc_shard_id c = s.
Proof.
  intros (c & Hc & Hin)%list_elem_of_fmap. unfold find_shard.
  destruct (list_find _ shards) as [[i d]|] eqn:E.
  - apply list_find_Some in E as (Hi & Hd & _). exists d. split_and!; [done| |done].
    by eapply list_elem_of_lookup_2.
  - rewrite list_find_None, Forall_forall in E. by destruct (E c Hin).
Qed.

Lemma route_owner r key s :
  router_wf r → get_shard_id r key = Some s →
  ∃ c, route r key = Some c ∧ c ∈ rt_shards r ∧ sc_shard_id c = s.
Proof.
  intros [Hr Hk] Hs. unfold get_shard_id in Hs.
  destruct (find_shard_Some (rt_shards r) s) as (c & Hf & Hc & Hid).
  { apply ring_get_shard_spec in Hs as (p & Hin & _); [|done]. apply (Hk _ Hin). }
  exists c. unfold route. by rewrite Hs.
Qed.

Lemma key_belongs_get_shard_id r key s :
  key_belongs_to_shard r key s = true ↔ get_shard_id r key = Some s.
Proof.
  unfold key_belongs_to_shard, get_shard_id. destruct (ring_get_shard _ _); [|done].
  rewrite bool_decide_eq_true. naive_solver.
Qed.

(** ** Properties *)

(** C34: routing is consistent.  In every router that can be built by [new],
    [add_shard] and [remove_shard], a key either has no owner (and then [route]
    fails and it belongs to no shard), or exactly one shard owns it, that shard
    is configured, and [route] returns a configuration with that id. *)
Theorem routing_consistent r key :
  router_reachable r →
  match get_shard_id r key with
  | Some s =>
      (∀ t, key_belongs_to_shard r key t = true ↔ t = s) ∧
      ∃ c, route r key = Some c ∧ c ∈ rt_shards r ∧ sc_shard_id c = s ∧
           is_Some (router_get_shard r s)
  | None => route r key = None ∧ (∀ t, key_belongs_to_shard r key t = false) ∧
            ring (rt_ring r) = []
  end.
Proof.
  intros Hr%router_reachable_wf. destruct (get_shard_id r key) as [s|] eqn:Hs.
  - split.
    + intros t. rewrite key_belongs_get_shard_id, Hs. naive_solver.
    + destruct (route_owner r key s Hr Hs) as (c & Hc & Hin & <-). exists c. split_and!; try done.
      destruct (find_shard_Some (rt_shards r) (sc_shard_id c)) as (d & Hd & _); [|by exists d].
      apply list_elem_of_fmap. by exists c.
  - split_and!.
    + unfold route. unfold get_shard_id in Hs. by rewrite Hs.
    + intros t. apply not_true_iff_false. rewrite key_belongs_get_shard_id. congruence.
    + destruct (decide (ring (rt_ring r) = [])) as [|Hne]; [done|].
      destruct (ring_lookup_owns _ key (rtw_ring _ Hr) Hne) as (p & s & _ & Hp).
      unfold get_shard_id in Hs. congruence.
Qed.

(** every key is routed.  A router created with at least one shard and at
    least one virtual node per shard routes every key to one of its shards. *)
Theorem router_total shards vn key :
  shards ≠ [] → (0 < vn)%N →
  ∃ c, route (router_new shards vn) key = Some c ∧ c ∈ shards ∧
    key_belongs_to_shard (router_new shards vn) key (sc_shard_id c) = true.
Proof.
  intros Hne Hvn. pose proof (router_wf_new shards vn) as Hwf.
  assert (num_virtual_nodes (rt_ring (router_new shards vn)) = vn) as Hn.
  { clear. induction shards using rev_ind; [done|]. by rewrite router_new_snoc. }
  assert (ring (rt_ring (router_new shards vn)) ≠ []) as Hring.
  { destruct shards as [|c shards _] using rev_ind; [done|]. rewrite router_new_snoc in Hn |- *.
    simpl in Hn |- *. intros He.
    pose proof (ring_add_has_points (rt_ring (router_new shards vn)) (sc_shard_id c) 0
      (rtw_ring _ (router_wf_new shards vn))) as Hin.
    simpl in Hin. rewrite He in Hin. eapply not_elem_of_nil, Hin. lia. }
  destruct (ring_lookup_owns _ key (rtw_ring _ Hwf) Hring) as (p & s & _ & Hs).
  destruct (route_owner _ key s Hwf Hs) as (c & Hc & Hin & <-).
  exists c. split_and!; [done..|]. by apply key_belongs_get_shard_id.
Qed.

(** ** Witnesses *)

Definition sample_shards : list ShardConfig :=
  [mkShard 0 [1; 2; 3] None; mkShard 1 [4; 5; 6] None; mkShard 2 [7; 8; 9] None]%N.

Definition sample_router : Router :=
  router_remove_shard (router_add_shard (router_new sample_shards 2) (mkShard 3 [] None)) 1.

Lemma routing_consistent_witness :
  match get_shard_id sample_router "user:42" with
  | Some s =>
      (∀ t, key_belongs_to_shard sample_router "user:42" t = true ↔ t = s) ∧
      ∃ c, route sample_router "user:42" = Some c ∧ c ∈ rt_shards sample_router ∧
           sc_shard_id c = s ∧ is_Some (router_get_shard sample_router s)
  | None => route sample_router "user:42" = None ∧
            (∀ t, key_belongs_to_shard sample_router "user:42" t = false) ∧
            ring (rt_ring sample_router) = []
  end.
Proof.
  apply (routing_consistent sample_router "user:42").
  apply reach_remove, reach_add, reach_new.
Defined.

Lemma router_total_witness :
  ∃ c, route (router_new sample_shards 2) "user:42" = Some c ∧ c ∈ sample_shards ∧
    key_belongs_to_shard (router_new sample_shards 2) "user:42" (sc_shard_id c) = true.
Proof. apply (router_total sample_shards 2 "user:42"); [discriminate|lia]. Defined.
