(* ===== verification/Protocol.v ===== *)
(** * The client protocol (src/network/protocol.rs)

    Requests and responses in RESP.  [encode_request] is what a client such as
    redis-cli sends; [decode_response] is how a RESP client reads a reply.  The
    two are the specification against which the program's parser and printer
    are proved. *)

From S2P Require Import Prelude Text.
From Stdlib Require Import Ascii.

Inductive Command : Type :=
| Get (key : string)
| Set_ (key value : string)
| Del (key : string)
| Ping
| Unknown (name : string).

Inductive Response : Type :=
| SimpleString (s : string)
| BulkString (s : string)
| Null
| Error (msg : string)
| Integer (n : Z).

#[export] Instance Command_eq_dec : EqDecision Command.
Proof. solve_decision. Defined.
#[export] Instance Response_eq_dec : EqDecision Response.
Proof. solve_decision. Defined.

(** ** Parsing *)

(** [for _ in 0..num_args]: two lines per argument, with an early return when
    a line is missing or does not start with a dollar sign.  Recursion is on the
    lines, since each round consumes two. *)
Fixpoint parse_args (num_args : N) (ls : list string) : option (list string) :=
  if bool_decide (num_args = 0%N) then Some [] else
  match ls with
  | len_line :: ls =>
      if starts_with "$" len_line then
        match ls with
        | data :: ls => args ← parse_args (num_args - 1) ls; Some (data :: args)
        | [] => None
        end
      else None
  | [] => None
  end.

Definition command_of_args `{Unicode} (args : list string) : option Command :=
  match args with
  | [] => None
  | name :: rest =>
      let command_name := to_uppercase name in
      if bool_decide (command_name = "GET") then
        match rest with [key] => Some (Get key) | _ => None end
      else if bool_decide (command_name = "SET") then
        match rest with [key; value] => Some (Set_ key value) | _ => None end
      else if bool_decide (command_name = "DEL") then
        match rest with [key] => Some (Del key) | _ => None end
      else if bool_decide (command_name = "PING") then Some Ping
      else Some (Unknown command_name)
  end.

Definition command_parse `{Unicode} (input : string) : option Command :=
  match lines input with
  | [] => None
  | first_line :: ls =>
      if starts_with "*" first_line then
        num_args ← parse_usize (str_tail first_line);
        args ← parse_args num_args ls;
        command_of_args args
      else None
  end.

(** ** Printing *)

Definition CRLF : string := String CR (String LF "").

Definition serialize (r : Response) : string :=
  match r with
  | SimpleString s => "+" +:+ s +:+ CRLF
  | BulkString s => "$" +:+ pretty (str_len s) +:+ CRLF +:+ s +:+ CRLF
  | Null => "$-1" +:+ CRLF
  | Error msg => "-ERR " +:+ msg +:+ CRLF
  | Integer n => ":" +:+ pretty n +:+ CRLF
  end.

(** ** Specification: the client's side *)

Definition encode_bulk (s : string) : string :=
  "$" +:+ pretty (str_len s) +:+ CRLF +:+ s +:+ CRLF.

Fixpoint encode_bulks (args : list string) : string :=
  match args with
  | [] => ""
  | a :: args => encode_bulk a +:+ encode_bulks args
  end.

Definition encode_request (args : list string) : string :=
  "*" +:+ pretty (vec_len args) +:+ CRLF +:+ encode_bulks args.

Definition command_args (c : Command) : list string :=
  match c with
  | Get key => ["GET"; key]
  | Set_ key value => ["SET"; key; value]
  | Del key => ["DEL"; key]
  | Ping => ["PING"]
  | Unknown name => [name]
  end.

(** Split at the first CRLF. *)
Fixpoint until_crlf (s : string) : option (string * string) :=
  match s with
  | EmptyString => None
  | String c t =>
      if bool_decide (c = CR) && starts_with LF t then Some (EmptyString, str_tail t)
      else p ← until_crlf t; Some (String c p.1, p.2)
  end.

Definition parse_int (s : string) : option Z :=
  if starts_with "-" s then Z.opp ∘ Z.of_N <$> parse_digits 0 (str_tail s)
  else Z.of_N <$> parse_digits 0 s.

Definition strip_prefix (p s : string) : option string :=
  if bool_decide (str_take (String.length p) s = p) then Some (str_drop (String.length p) s) else None.

Definition decode_bulk (len : N) (rest : string) : option (Response * string) :=
  let n := N.to_nat len in
  if bool_decide (str_take 2 (str_drop n rest) = CRLF)
  then Some (BulkString (str_take n rest), str_drop 2 (str_drop n rest)) else None.

(** The reply that a prefix byte, its line and the data behind it stand for. *)
Definition decode_reply (c : ascii) (p : string * string) : option (Response * string) :=
  if bool_decide (c = "+"%char) then Some (SimpleString p.1, p.2)
  else if bool_decide (c = "-"%char) then
    msg ← strip_prefix "ERR " p.1; Some (Error msg, p.2)
  else if bool_decide (c = ":"%char) then n ← parse_int p.1; Some (Integer n, p.2)
  else if bool_decide (c = "$"%char) then
    if bool_decide (p.1 = "-1") then Some (Null, p.2)
    else len ← parse_usize p.1; decode_bulk len p.2
  else None.

(** One reply off the stream, with what follows it. *)
Definition decode_response (s : string) : option (Response * string) :=
  match s with
  | EmptyString => None
  | String c t => until_crlf t ≫= decode_reply c
  end.

(** Replies whose text a RESP simple string or error can carry. *)
Definition response_ok (r : Response) : bool :=
  match r with
  | SimpleString s | Error s => negb (str_mem CR s) && negb (str_mem LF s)
  | BulkString s => bool_decide (str_len s < u64_modulus)%N
  | Null | Integer _ => true
  end.

(** ** Lemmas *)

#[local] Opaque pretty.

Lemma append_cons c s t : String c s +:+ t = String c (s +:+ t).
Proof. done. Qed.

Lemma digit_val_is_digit c d : digit_val c = Some d → c ≠ CR ∧ c ≠ LF ∧ c ≠ "-"%char ∧ c ≠ "+"%char.
Proof.
  unfold digit_val. case_bool_decide as Hd; [|done]. intros _.
  split_and!; intros ->; vm_compute in Hd; by destruct Hd.
Qed.

Lemma parse_digits_clean s : ∀ acc n, parse_digits acc s = Some n →
  str_mem CR s = false ∧ str_mem LF s = false ∧ starts_with "-" s = false.
Proof.
  induction s as [|c s IH]; simpl; [done|]. intros acc n Hp.
  destruct (digit_val c) as [d|] eqn:Hd; simpl in Hp; [|done].
  apply digit_val_is_digit in Hd as (? & ? & ? & ?). apply IH in Hp as (-> & -> & _).
  rewrite !bool_decide_false by done. done.
Qed.

Lemma parse_digits_pretty n : parse_digits 0 (pretty n) = Some n.
Proof.
  Transparent pretty. unfold pretty, pretty_N. case_decide as H0; [by subst|]. Opaque pretty.
  destruct (parse_digits_pretty_go n 0) as [k Hk]. rewrite Hk. simpl. f_equal.
Qed.

Lemma pretty_clean (n : N) :
  str_mem CR (pretty n) = false ∧ str_mem LF (pretty n) = false ∧ starts_with "-" (pretty n) = false.
Proof. by eapply parse_digits_clean, parse_digits_pretty. Qed.

(** A line ended by CRLF, as [lines] sees it. *)
Lemma lines_crlf a b : str_mem LF a = false → lines (a +:+ CRLF +:+ b) = a :: lines b.
Proof.
  intros Ha. unfold CRLF.
  replace (a +:+ String CR (String LF "") +:+ b) with ((a +:+ String CR "") +:+ String LF b)
    by (by rewrite str_append_assoc).
  rewrite lines_cons by (by rewrite str_mem_app, Ha). by rewrite strip_cr_snoc.
Qed.

Lemma lines_encode_bulk a b :
  str_mem LF a = false → lines (encode_bulk a +:+ b) = ("$" +:+ pretty (str_len a)) :: a :: lines b.
Proof.
  intros Ha. unfold encode_bulk. rewrite !str_append_assoc.
  rewrite <-(str_append_assoc "$"), lines_crlf.
  - by rewrite lines_crlf.
  - rewrite str_mem_app. apply pretty_clean.
Qed.

Lemma vec_len_cons {A} (a : A) l : vec_len (a :: l) = (vec_len l + 1)%N.
Proof. unfold vec_len. simpl. lia. Qed.

Lemma parse_args_step n l d ls :
  (0 < n)%N → starts_with "$" l = true →
  parse_args n (l :: d :: ls) = (args ← parse_args (n - 1) ls; Some (d :: args)).
Proof. intros Hn Hl. cbn [parse_args]. rewrite bool_decide_false by lia. by rewrite Hl. Qed.

Lemma parse_args_encode args :
  Forall (λ a, str_mem LF a = false) args →
  parse_args (vec_len args) (lines (encode_bulks args)) = Some args.
Proof.
  induction 1 as [|a args Ha Hargs IH]; [done|]. simpl encode_bulks.
  rewrite lines_encode_bulk by done.
  rewrite parse_args_step by (done || (rewrite vec_len_cons; lia)).
  replace (vec_len (a :: args) - 1)%N with (vec_len args) by (rewrite vec_len_cons; lia).
  by rewrite IH.
Qed.

Lemma parse_encode_request `{Unicode} args :
  Forall (λ a, str_mem LF a = false) args → (vec_len args < u64_modulus)%N →
  command_parse (encode_request args) = command_of_args args.
Proof.
  intros Hargs Hlen. unfold command_parse, encode_request.
  rewrite <-(str_append_assoc "*"), lines_crlf.
  - change (starts_with "*" ("*" +:+ pretty (vec_len args))) with true. cbv iota.
    change (str_tail ("*" +:+ pretty (vec_len args))) with (pretty (vec_len args)). rewrite parse_usize_pretty by done. simpl.
    by rewrite parse_args_encode.
  - rewrite str_mem_app. apply pretty_clean.
Qed.

Lemma until_crlf_app a b : str_mem CR a = false → until_crlf (a +:+ CRLF +:+ b) = Some (a, b).
Proof.
  induction a as [|c a IH]; [done|]. intros [Hc Ha]%orb_false_iff.
  rewrite append_cons. cbn [until_crlf]. rewrite Hc, IH by done. done.
Qed.

Lemma str_take_app a b : str_take (String.length a) (a +:+ b) = a.
Proof. induction a; [by destruct b|]. rewrite append_cons. simpl. by rewrite IHa. Qed.

Lemma str_drop_app a b : str_drop (String.length a) (a +:+ b) = b.
Proof. induction a; [by destruct b|]. rewrite append_cons. by simpl. Qed.

Lemma parse_int_pretty z : parse_int (pretty z) = Some z.
Proof.
  destruct z as [|p|p]; [reflexivity| |].
  - change (pretty (Z.pos p)) with (pretty (N.pos p)). unfold parse_int.
    destruct (pretty_clean (N.pos p)) as (_ & _ & ->). by rewrite parse_digits_pretty.
  - change (parse_int (pretty (Z.neg p)))
      with (Z.opp ∘ Z.of_N <$> parse_digits 0 (pretty (N.pos p))).
    by rewrite parse_digits_pretty.
Qed.

Lemma pretty_Z_clean (z : Z) : str_mem CR (pretty z) = false.
Proof.
  destruct z as [|p|p]; [reflexivity|apply (pretty_clean (N.pos p))|].
  change (pretty (Z.neg p)) with ("-" +:+ pretty (N.pos p)). rewrite str_mem_app.
  apply pretty_clean.
Qed.

Lemma pretty_not_minus_one (n : N) : pretty n ≠ "-1".
Proof. intros E. destruct (pretty_clean n) as (_ & _ & H). by rewrite E in H. Qed.

Lemma decode_line c a b :
  str_mem CR a = false → decode_response (String c "" +:+ a +:+ CRLF +:+ b) = decode_reply c (a, b).
Proof.
  intros Ha. change (decode_response _) with (until_crlf (a +:+ CRLF +:+ b) ≫= decode_reply c).
  by rewrite until_crlf_app.
Qed.

Lemma decode_bulk_app a b :
  decode_bulk (str_len a) (a +:+ CRLF +:+ b) = Some (BulkString a, b).
Proof.
  unfold decode_bulk, str_len. rewrite Nat2N.id, str_drop_app, str_take_app. by destruct b.
Qed.

(** ** Properties *)

(** C35: requests round-trip.  Every command, sent by a client as a RESP array of
    bulk strings with keys and values that contain no line feed, is parsed back
    to exactly that command (an unknown name comes back in upper case). *)
Theorem command_round_trip `{Unicode} (c : Command) :
  Forall (λ a, str_mem LF a = false) (command_args c) →
  (∀ name, c = Unknown name →
     to_uppercase name = name ∧ name ≠ "GET" ∧ name ≠ "SET" ∧ name ≠ "DEL" ∧ name ≠ "PING") →
  command_parse (encode_request (command_args c)) = Some c.
Proof.
  intros Hargs Hu. rewrite parse_encode_request; [|done|by destruct c].
  destruct c as [| | | |name]; try reflexivity. simpl.
  destruct (Hu name eq_refl) as (-> & ? & ? & ? & ?). by rewrite !bool_decide_false.
Qed.

(** C36: replies round-trip.  A RESP client that reads the serialised reply, with
    any further data behind it on the stream, recovers the reply and exactly the
    data behind it: bulk strings of any content, integers of any sign, and
    simple strings and errors without CR and LF. *)
Theorem response_round_trip r rest :
  response_ok r = true → decode_response (serialize r +:+ rest) = Some (r, rest).
Proof.
  destruct r as [s|s| |s|z]; intros Hok; unfold serialize; rewrite ?str_append_assoc.
  - apply andb_true_iff in Hok as [Hcr%negb_true_iff _]. by rewrite decode_line.
  - apply bool_decide_eq_true in Hok. rewrite decode_line by apply pretty_clean.
    change (decode_reply _ (?a, ?b)) with
      (if bool_decide (a = "-1") then Some (Null, b) else len ← parse_usize a; decode_bulk len b).
    rewrite (bool_decide_false (pretty _ = _)) by apply pretty_not_minus_one.
    rewrite parse_usize_pretty by done. apply decode_bulk_app.
  - reflexivity.
  - apply andb_true_iff in Hok as [Hcr%negb_true_iff _].
    change ("-ERR " +:+ s +:+ CRLF +:+ rest) with ("-" +:+ ("ERR " +:+ s) +:+ CRLF +:+ rest).
    rewrite decode_line by (by rewrite str_mem_app, Hcr). reflexivity.
  - rewrite decode_line by apply pretty_Z_clean.
    change (decode_reply _ (?a, ?b)) with (n ← parse_int a; Some (Integer n, b)).
    by rewrite parse_int_pretty.
Qed.

(** a value that contains a line feed is cut.  The length prefix of a bulk
    string is read and ignored, so [SET k "a\nb"], which RESP allows, is
    accepted as [SET k "a"]. *)
Theorem line_feed_in_value_is_cut `{Unicode} :
  command_parse (encode_request ["SET"; "k"; String "a" (String LF "b")])
  = Some (Set_ "k" "a").
Proof. reflexivity. Qed.

(** ** Witnesses *)

Definition ascii_only : Unicode := {| unicode_uppercase := λ s, s |}.

Lemma command_round_trip_witness :
  @command_parse ascii_only (encode_request (command_args (Set_ "name" "uday")))
  = Some (Set_ "name" "uday").
Proof.
  apply (@command_round_trip ascii_only (Set_ "name" "uday")); [by repeat constructor|discriminate].
Defined.

Lemma response_round_trip_witness :
  decode_response (serialize (BulkString CRLF) +:+ ":1") = Some (BulkString CRLF, ":1").
Proof. apply (response_round_trip (BulkString CRLF) ":1"). reflexivity. Defined.
