(* ===== verification/Cluster.v ===== *)
(** * The cluster node (src/cluster.rs)

    Consensus and storage put together: client commands, the tick, and the
    processing of the actions the consensus node returns. *)

From S2P Require Import Prelude Text Fs Log State Message Persist Codec Node Memtable Wal.
From S2P Require Import Engine Ring Router Protocol.

Inductive MessagePayload : Type :=
| PRequestVote (request : RequestVoteRequest)
| PRequestVoteResponse (response : RequestVoteResponse)
| PAppendEntries (request : AppendEntriesRequest)
| PAppendEntriesResponse (response : AppendEntriesResponse).

Record PeerMessage : Type := mkMsg { pm_to : N; pm_payload : MessagePayload }.

Record ClusterNode : Type := mkCluster {
  cn_raft : RaftNode;
  cn_storage : StorageEngine;
  cn_outbound : list PeerMessage;
  cn_router : option Router;
  cn_shard_id : N;
  cn_pending_commit_index : option N;
}.

#[export] Instance MessagePayload_eq_dec : EqDecision MessagePayload.
Proof. solve_decision. Defined.
#[export] Instance PeerMessage_eq_dec : EqDecision PeerMessage.
Proof. solve_decision. Defined.

Definition set_raft (r : RaftNode) (c : ClusterNode) : ClusterNode :=
  mkCluster r (cn_storage c) (cn_outbound c) (cn_router c) (cn_shard_id c)
    (cn_pending_commit_index c).
Definition set_storage (s : StorageEngine) (c : ClusterNode) : ClusterNode :=
  mkCluster (cn_raft c) s (cn_outbound c) (cn_router c) (cn_shard_id c)
    (cn_pending_commit_index c).
Definition set_outbound (o : list PeerMessage) (c : ClusterNode) : ClusterNode :=
  mkCluster (cn_raft c) (cn_storage c) o (cn_router c) (cn_shard_id c)
    (cn_pending_commit_index c).
Definition set_pending (p : option N) (c : ClusterNode) : ClusterNode :=
  mkCluster (cn_raft c) (cn_storage c) (cn_outbound c) (cn_router c) (cn_shard_id c) p.

Abbreviation CW := (ClusterNode * Fs)%type.

Definition cluster_get {A} (f : ClusterNode → A) : proc CW A := gets (λ w, f w.1).
Definition cluster_mod (f : ClusterNode → ClusterNode) : proc CW unit :=
  modify (λ w, (f w.1, w.2)).
Definition on_raft {A} (m : proc RW A) : proc CW A :=
  zoom (λ w : CW, (cn_raft w.1, w.2)) (λ v w, (set_raft v.1 w.1, v.2)) m.
Definition on_storage {A} (m : proc EW A) : proc CW A :=
  zoom (λ w : CW, (cn_storage w.1, w.2)) (λ v w, (set_storage v.1 w.1, v.2)) m.

(** ** Construction *)

Definition storage_dir (data_dir : string) : string := data_dir +:+ "/storage".

Definition cluster_new `{Build, StateCodec} (node_id : N) (ps : list N) (data_dir : string) :
  io ClusterNode :=
  storage ?← engine_new (storage_dir data_dir);
  raft ?← with_persistence node_id ps data_dir;
  mret (Ok (mkCluster raft storage [] None 1 None)).

Definition with_sharding `{Build, StateCodec} (node_id : N) (ps : list N) (data_dir : string)
  (shard_id : N) (shard_configs : list ShardConfig) : io ClusterNode :=
  storage ?← engine_new (storage_dir data_dir);
  raft ?← with_persistence node_id ps data_dir;
  let router := router_new shard_configs 64 in
  mret (Ok (mkCluster raft storage [] (Some router) shard_id None)).

(** ** Processing actions *)

Definition push_message (to : N) (payload : MessagePayload) : proc CW unit :=
  cluster_mod (λ c, set_outbound (cn_outbound c ++ [mkMsg to payload]) c).

(** A storage error is reported on stderr and otherwise ignored. *)
Definition process_action `{Build} (action : Action) : proc CW unit :=
  match action with
  | ApplyEntry _ command =>
      match command with
      | Put key value => on_storage (engine_put key value) ;; mret tt
      | Delete key => on_storage (engine_delete key) ;; mret tt
      | Noop => mret tt
      end
  | SendRequestVote to request => push_message to (PRequestVote request)
  | SendRequestVoteResponse to response => push_message to (PRequestVoteResponse response)
  | SendAppendEntries to request => push_message to (PAppendEntries request)
  | SendAppendEntriesResponse to response => push_message to (PAppendEntriesResponse response)
  end.

Definition process_actions `{Build} (actions : list Action) : proc CW unit :=
  for_each process_action actions.

Definition cluster_tick `{Build, StateCodec} : proc CW unit :=
  actions ← on_raft tick;
  process_actions actions.

Definition take_outbound_messages : proc CW (list PeerMessage) :=
  messages ← cluster_get cn_outbound;
  cluster_mod (set_outbound []) ;;
  mret messages.

(** ** Client commands *)

(** The guard the three keyed commands start with. *)
Definition moved (key : string) (c : ClusterNode) : option Response :=
  match cn_router c with
  | Some router =>
      if key_belongs_to_shard router key (cn_shard_id c) then None else
        let target_shard := default 0%N (get_shard_id router key) in
        Some (Error ("MOVED - key belongs to shard " +:+ pretty target_shard))
  | None => None
  end.

Definition NOTLEADER : Response := Error "NOTLEADER - this node is not the leader".

(** What SET and DEL share once the key is known to be ours. *)
Definition replicate_write `{Build, StateCodec} (command : LogCommand) (ok : Response) :
  proc CW Response :=
  r ← cluster_get (λ c, role (rn_state (cn_raft c)));
  if bool_decide (r ≠ Leader) then mret NOTLEADER else
    o ← on_raft (propose command);
    match o with
    | Some actions =>
        process_actions actions ;;
        cluster_mod (λ c, set_pending (Some (last_index (rs_log (rn_state (cn_raft c))))) c) ;;
        mret ok
    | None => mret (Error "failed to propose")
    end.

Definition handle_client_command `{Build, StateCodec} (command : Command) : proc CW Response :=
  cluster_mod (set_pending None) ;;
  match command with
  | Get key =>
      guard ← cluster_get (moved key);
      match guard with
      | Some r => mret r
      | None =>
          v ← cluster_get (λ c, engine_get (cn_storage c) key);
          mret (match v with Some value => BulkString value | None => Null end)
      end
  | Set_ key value =>
      guard ← cluster_get (moved key);
      match guard with
      | Some r => mret r
      | None => replicate_write (Put key value) (SimpleString "OK")
      end
  | Del key =>
      guard ← cluster_get (moved key);
      match guard with
      | Some r => mret r
      | None => replicate_write (Delete key) (Integer 1)
      end
  | Ping => mret (SimpleString "PONG")
  | Unknown name => mret (Error ("unknown command '" +:+ name +:+ "'"))
  end.

(** ** What a list of actions stands for *)

Definition action_message (a : Action) : option PeerMessage :=
  match a with
  | ApplyEntry _ _ => None
  | SendRequestVote to r => Some (mkMsg to (PRequestVote r))
  | SendRequestVoteResponse to r => Some (mkMsg to (PRequestVoteResponse r))
  | SendAppendEntries to r => Some (mkMsg to (PAppendEntries r))
  | SendAppendEntriesResponse to r => Some (mkMsg to (PAppendEntriesResponse r))
  end.

Definition action_mutation (a : Action) : option Mutation :=
  match a with
  | ApplyEntry _ (Put k v) => Some (MPut k v)
  | ApplyEntry _ (Delete k) => Some (MDelete k)
  | _ => None
  end.

(** Everything but the storage and the queue is untouched, and of the disk only
    the WAL. *)
Definition actions_frame : relation CW := λ w w',
  cn_raft w'.1 = cn_raft w.1 ∧ cn_router w'.1 = cn_router w.1 ∧
  cn_shard_id w'.1 = cn_shard_id w.1 ∧
  cn_pending_commit_index w'.1 = cn_pending_commit_index w.1 ∧
  engine_frame (cn_storage w.1, w.2) (cn_storage w'.1, w'.2).

#[export] Instance actions_frame_preorder : PreOrder actions_frame.
Proof.
  split.
  - intros w. unfold actions_frame. by split_and!.
  - intros a b c (?&?&?&?&?) (?&?&?&?&?). unfold actions_frame. split_and!; try congruence. by etrans.
Qed.

(** ** Lemmas *)

Section cluster.
Context `{Build}.

Lemma process_action_run a w :
  process_action a w =
  (match action_mutation a with Some m => on_storage (engine_mutate m) ;; mret tt | None => mret tt end ;;
   match action_message a with Some m => push_message (pm_to m) (pm_payload m) | None => mret tt end) w.
Proof.
  destruct a as [| | | |i [k v|k|]]; simpl; try reflexivity;
    unfold mbind, proc_bind; by destruct (on_storage _ w) as [[]].
Qed.

Lemma on_storage_frame m : keeps actions_frame (on_storage (engine_mutate m)).
Proof.
  eapply keeps_zoom; [|apply engine_mutate_frame]. intros w v Hv. by split_and!.
Qed.

Lemma process_action_frame a : keeps actions_frame (process_action a).
Proof.
  intros w. unfold wp. rewrite process_action_run. revert w. apply keeps_bind; [apply _|..].
  - destruct (action_mutation a); [|by keeps_step].
    keeps_step; [apply on_storage_frame|by keeps_step].
  - intros _. destruct (action_message a); [|by keeps_step].
    apply keeps_modify. intros w. by split_and!.
Qed.

Lemma process_actions_frame actions : keeps actions_frame (process_actions actions).
Proof. unfold process_actions. keeps_step. apply process_action_frame. Qed.

(** The messages are queued in the order of the actions. *)
Lemma on_storage_outbound m w o w' :
  on_storage (engine_mutate m) w = (o, w') → cn_outbound w'.1 = cn_outbound w.1.
Proof. unfold on_storage, zoom. destruct (engine_mutate _ _). intros. by simplify_eq. Qed.

Lemma process_actions_outbound actions : ∀ w w',
  process_actions actions w = (Done tt, w') →
  cn_outbound w'.1 = cn_outbound w.1 ++ omap action_message actions.
Proof.
  induction actions as [|a actions IH]; intros w w' Hrun.
  - unfold process_actions in Hrun. simpl in Hrun. unfold mret, proc_ret in Hrun. simplify_eq.
    by rewrite app_nil_r.
  - apply bind_inv in Hrun as [([] & w1 & H1 & H2)|[_ ?]]; [|done].
    rewrite (IH w1 w' H2). rewrite process_action_run in H1.
    apply bind_inv in H1 as [([] & w2 & H3 & H4)|[_ ?]]; [|done].
    assert (cn_outbound w2.1 = cn_outbound w.1) as E2.
    { destruct (action_mutation a); [|unfold mret, proc_ret in H3; by simplify_eq].
      apply bind_inv in H3 as [(? & w3 & H5 & H6)|[_ ?]]; [|done].
      apply on_storage_outbound in H5. unfold mret, proc_ret in H6. by simplify_eq. }
    simpl. destruct (action_message a) as [[]|]; unfold push_message, cluster_mod, modify in H4;
      unfold mret, proc_ret in H4; simplify_eq; simpl; rewrite E2; [|done].
    by rewrite <-app_assoc.
Qed.

End cluster.
