(* ===== verification/Tests.v ===== *)
(** * The test suite (the [tests] module of src/main.rs)

    Every test of the program as a process over the file system, in the steps the
    test takes: a failed assertion, [expect] or [unwrap] and an index out of bounds
    halt it.  Local variables that are [mut] are threaded through; what goes out of
    scope at the end of a block is dropped, which flushes the WAL's writer. *)

From S2P Require Import Prelude Text Fs Log State Message Persist Codec Node Commit.
From S2P Require Import Durability BTree Memtable Wal Engine Ring Router Protocol Cluster.

(** ** What tests are made of *)

Definition assert (b : bool) : proc Fs unit := if b then mret tt else halt.

Definition assert_eq {A} `{EqDecision A} (x y : A) : proc Fs unit := assert (bool_decide (x = y)).

Definition expect {A} (r : result io_error A) : proc Fs A :=
  match r with Ok a => mret a | Err _ => halt end.

Definition unwrap {A} (o : option A) : proc Fs A :=
  match o with Some a => mret a | None => halt end.

(** [v[i]] *)
Definition index {A} (v : list A) (i : N) : proc Fs A := unwrap (vec_get v i).

(** Call a method of a local variable that can reach the disk, or not. *)
Definition call {V A} (m : proc (V * Fs) A) (v : V) : proc Fs (A * V) := λ fs,
  match m (v, fs) with
  | (Done a, (v', fs')) => (Done (a, v'), fs')
  | (Halted, (_, fs')) => (Halted, fs')
  end.

Definition call_local {V A} (m : proc V A) (v : V) : proc Fs (A * V) := λ fs,
  match m v with
  | (Done a, v') => (Done (a, v'), fs)
  | (Halted, _) => (Halted, fs)
  end.

(** A loop that updates local variables. *)
Fixpoint fold_proc {S A} (f : S → A → proc Fs S) (s : S) (xs : list A) : proc Fs S :=
  match xs with
  | [] => mret s
  | x :: xs => s ← f s x; fold_proc f s xs
  end.

(** [0..n] *)
Definition upto (n : nat) : list N := N.of_nat <$> seq 0 n.

(** [let _ = fs::remove_file(path)] and [let _ = fs::remove_dir_all(dir)]: an error
    is ignored. *)
Definition remove_file (path : string) : proc Fs unit :=
  f ← next_fault;
  match f with
  | Fine => modify (λ fs, set_files (delete path (fs_files fs)) fs)
  | Fail _ => mret tt
  | Kill _ => halt
  end.

Definition remove_dir_all (dir : string) : proc Fs unit :=
  f ← next_fault;
  match f with
  | Fine => modify (λ fs, set_files
      (filter (λ x, String.prefix (dir +:+ "/") x.1 = false) (fs_files fs)) fs)
  | Fail _ => mret tt
  | Kill _ => halt
  end.

(** The [BufWriter] of a WAL that goes out of scope is flushed. *)
Definition drop_wal (wal : Wal) : proc Fs unit := _ ← call flush_buf wal; mret tt.

Section tests.
Context `{Build, StateCodec}.

(** ** Storage *)

Definition test_wal_append_and_replay : proc Fs unit :=
  let test_path := "/tmp/test_wal.log" in
  remove_file test_path ;;
  (r ← wal_new test_path; wal ← expect r;
   '(r, wal) ← call (wal_append (mkWalEntry OpPut "name" (Some "uday"))) wal; expect r ;;
   '(r, wal) ← call (wal_append (mkWalEntry OpPut "balance" (Some "5000"))) wal; expect r ;;
   '(r, wal) ← call (wal_append (mkWalEntry OpDelete "name" None)) wal; expect r ;;
   drop_wal wal) ;;
  r ← wal_new test_path; wal ← expect r;
  r ← wal_replay wal; entries ← expect r;
  assert_eq (vec_len entries) 3%N ;;
  e ← index entries 0; assert_eq (we_key e) "name" ;;
  assert_eq (we_operation e) OpPut ;; assert_eq (we_value e) (Some "uday") ;;
  e ← index entries 1; assert_eq (we_key e) "balance" ;;
  assert_eq (we_operation e) OpPut ;; assert_eq (we_value e) (Some "5000") ;;
  e ← index entries 2; assert_eq (we_key e) "name" ;;
  assert_eq (we_operation e) OpDelete ;; assert_eq (we_value e) None ;;
  remove_file test_path ;;
  drop_wal wal.

Definition test_memtable_basic_operations : proc Fs unit :=
  let table := memtable_new in
  assert_eq (memtable_get table "name") None ;;
  assert (memtable_is_empty table) ;;
  '(_, table) ← call_local (memtable_put "name" "uday") table;
  assert_eq (memtable_get table "name") (Some (Some "uday")) ;;
  assert_eq (memtable_len table) 1%N ;;
  '(_, table) ← call_local (memtable_put "name" "pranay") table;
  assert_eq (memtable_get table "name") (Some (Some "pranay")) ;;
  assert_eq (memtable_len table) 1%N ;;
  '(_, table) ← call_local (memtable_put "balance" "5000") table;
  assert_eq (memtable_len table) 2%N ;;
  assert_eq (memtable_get table "balance") (Some (Some "5000")) ;;
  '(_, table) ← call_local (memtable_delete "name") table;
  assert_eq (memtable_get table "name") (Some None) ;;
  assert_eq (memtable_get table "nonexistent") None ;;
  assert_eq (memtable_get table "name") (Some None) ;;
  assert (bool_decide (0 < memtable_size table)%N) ;;
  let table := memtable_clear table in
  assert (memtable_is_empty table) ;;
  assert_eq (memtable_size table) 0%N ;;
  assert_eq (memtable_get table "name") None.

Definition test_engine_crash_recovery : proc Fs unit :=
  let test_dir := "/tmp/test_engine_recovery" in
  remove_dir_all test_dir ;;
  (r ← engine_new test_dir; engine ← expect r;
   '(r, engine) ← call (engine_put "name" "uday") engine; expect r ;;
   '(r, engine) ← call (engine_put "balance" "5000") engine; expect r ;;
   '(r, engine) ← call (engine_put "city" "kharagpur") engine; expect r ;;
   '(r, engine) ← call (engine_delete "city") engine; expect r ;;
   assert_eq (engine_get engine "name") (Some "uday") ;;
   assert_eq (engine_get engine "balance") (Some "5000") ;;
   assert_eq (engine_get engine "city") None ;;
   drop_wal (se_wal engine)) ;;
  (r ← engine_new test_dir; engine ← expect r;
   assert_eq (engine_get engine "name") (Some "uday") ;;
   assert_eq (engine_get engine "balance") (Some "5000") ;;
   assert_eq (engine_get engine "city") None ;;
   assert_eq (engine_get engine "nonexistent") None ;;
   drop_wal (se_wal engine)) ;;
  remove_dir_all test_dir.

(** ** The log and the state *)

Definition test_raft_log_operations : proc Fs unit :=
  let log := log_new in
  assert_eq (last_index log) 0%N ;;
  assert_eq (last_term log) 0%N ;;
  assert_eq (log_len log) 0%N ;;
  let '(log, idx) := log_append log (mkEntry 1 (Put "name" "uday")) in
  assert_eq idx 1%N ;;
  assert_eq (last_index log) 1%N ;;
  assert_eq (last_term log) 1%N ;;
  assert_eq (log_len log) 1%N ;;
  let '(log, _) := log_append log (mkEntry 1 (Put "balance" "5000")) in
  assert_eq (last_index log) 2%N ;;
  assert_eq (log_len log) 2%N ;;
  let '(log, _) := log_append log (mkEntry 2 (Delete "name")) in
  assert_eq (last_index log) 3%N ;;
  assert_eq (last_term log) 2%N ;;
  assert_eq (term_at log 0) 0%N ;;
  assert_eq (term_at log 1) 1%N ;;
  assert_eq (term_at log 2) 1%N ;;
  assert_eq (term_at log 3) 2%N ;;
  assert_eq (term_at log 99) 0%N ;;
  let from_2 := entries_from log 2 in
  assert_eq (vec_len from_2) 2%N ;;
  let log := truncate_from log 3 in
  assert_eq (last_index log) 2%N ;;
  assert_eq (last_term log) 1%N ;;
  assert_eq (log_len log) 2%N.

Definition test_raft_state_transitions : proc Fs unit :=
  let state := state_new 1 [1; 2; 3]%N in
  assert_eq (role state) Follower ;;
  assert_eq (current_term state) 0%N ;;
  assert_eq (voted_for state) None ;;
  '(_, state) ← call_local become_candidate state;
  assert_eq (role state) Candidate ;;
  assert_eq (current_term state) 1%N ;;
  assert_eq (voted_for state) (Some 1%N) ;;
  let state := become_leader state in
  assert_eq (role state) Leader ;;
  assert_eq (leader_id state) (Some 1%N) ;;
  assert_eq (vec_len (next_index state)) 2%N ;;
  assert_eq (vec_len (match_index state)) 2%N ;;
  let state := become_follower 5 state in
  assert_eq (role state) Follower ;;
  assert_eq (current_term state) 5%N ;;
  assert_eq (voted_for state) None ;;
  assert_eq (next_index state) [] ;;
  assert_eq (majority_count state) 2%N.
(** ** The consensus node *)

(** [for _ in 0..65 { let actions = node.tick(); if !actions.is_empty() { break } }] *)
Fixpoint tick_until (n : nat) (node : RaftNode) : proc Fs (list Action * RaftNode) :=
  match n with
  | O => mret ([], node)
  | S n =>
      '(actions, node) ← call tick node;
      if bool_decide (actions ≠ []) then mret (actions, node) else tick_until n node
  end.

Abbreviation trio := (RaftNode * RaftNode * RaftNode)%type.

(** A request is delivered to node 2, or else to node 3. *)
Definition to_follower (m : proc RW (list Action)) (to : N) (ns : trio) :
  proc Fs (list Action * trio) :=
  let '(node1, node2, node3) := ns in
  if bool_decide (to = 2%N) then
    '(actions, node2) ← call m node2; mret (actions, (node1, node2, node3))
  else
    '(actions, node3) ← call m node3; mret (actions, (node1, node2, node3)).

Definition to_leader (m : proc RW (list Action)) (ns : trio) : proc Fs (list Action * trio) :=
  let '(node1, node2, node3) := ns in
  '(actions, node1) ← call m node1; mret (actions, (node1, node2, node3)).

Definition three_new : trio :=
  let peers := [1; 2; 3]%N in (node_new 1 peers, node_new 2 peers, node_new 3 peers).

Definition test_leader_election : proc Fs unit :=
  let '(node1, node2, node3) := three_new in
  assert_eq (role (rn_state node1)) Follower ;;
  assert_eq (role (rn_state node2)) Follower ;;
  assert_eq (role (rn_state node3)) Follower ;;
  '(election_actions, node1) ← tick_until 65 node1;
  assert_eq (role (rn_state node1)) Candidate ;;
  assert_eq (current_term (rn_state node1)) 1%N ;;
  assert_eq (vec_len election_actions) 2%N ;;
  '(node1, node2, node3) ← fold_proc (λ ns action,
    match action with
    | SendRequestVote to request =>
        '(response_actions, ns) ← to_follower (handle_request_vote request) to ns;
        assert_eq (vec_len response_actions) 1%N ;;
        a ← index response_actions 0;
        match a with
        | SendRequestVoteResponse _ response =>
            assert (rvr_vote_granted response) ;;
            '(_, ns) ← to_leader (handle_request_vote_response to response) ns; mret ns
        | _ => mret ns
        end
    | _ => halt
    end) (node1, node2, node3) election_actions;
  assert_eq (role (rn_state node1)) Leader ;;
  assert_eq (current_term (rn_state node1)) 1%N ;;
  assert_eq (leader_id (rn_state node1)) (Some 1%N) ;;
  assert_eq (role (rn_state node2)) Follower ;;
  assert_eq (current_term (rn_state node2)) 1%N ;;
  assert_eq (role (rn_state node3)) Follower ;;
  assert_eq (current_term (rn_state node3)) 1%N.

(** [matches!(&a, Action::ApplyEntry { .. })] *)
Definition is_apply (a : Action) : bool := match a with ApplyEntry _ _ => true | _ => false end.

(** The parts of [test_log_replication]: electing node 1; *)
Definition elect_first : proc Fs trio :=
  let '(node1, node2, node3) := three_new in
  '(vote_requests, node1) ← tick_until 65 node1;
  assert_eq (role (rn_state node1)) Candidate ;;
  ns ← fold_proc (λ ns action,
    match action with
    | SendRequestVote to request =>
        '(responses, ns) ← to_follower (handle_request_vote request) to ns;
        fold_proc (λ ns resp_action,
          match resp_action with
          | SendRequestVoteResponse _ response =>
              '(_, ns) ← to_leader (handle_request_vote_response to response) ns; mret ns
          | _ => mret ns
          end) ns responses
    | _ => mret ns
    end) (node1, node2, node3) vote_requests;
  assert_eq (role (rn_state ns.1.1)) Leader ;;
  mret ns.

(** the first write, which reaches both followers; *)
Definition replicate_to_both (ns : trio) : proc Fs trio :=
  let '(node1, node2, node3) := ns in
  '(o, node1) ← call (propose (Put "name" "uday")) node1;
  actions ← unwrap o;
  assert_eq (vec_len actions) 2%N ;;
  assert_eq (last_index (rs_log (rn_state node1))) 1%N ;;
  assert_eq (last_term (rs_log (rn_state node1))) 1%N ;;
  assert_eq (commit_index (rn_state node1)) 0%N ;;
  '(all_response_actions, (node1, node2, node3)) ← fold_proc (λ '(all, ns) action,
    match action with
    | SendAppendEntries to request =>
        '(response_actions, ns) ← to_follower (handle_append_entries request) to ns;
        mret (all ++ ((λ a, (to, a)) <$> response_actions), ns)
    | _ => mret (all, ns)
    end) ([], (node1, node2, node3)) actions;
  assert_eq (last_index (rs_log (rn_state node2))) 1%N ;;
  assert_eq (last_index (rs_log (rn_state node3))) 1%N ;;
  '(apply_actions, (node1, node2, node3)) ← fold_proc (λ '(applied, ns) '(from, action),
    match action with
    | SendAppendEntriesResponse _ response =>
        '(leader_actions, ns) ← to_leader (handle_append_entries_response from response) ns;
        mret (applied ++ filter is_apply leader_actions, ns)
    | _ => mret (applied, ns)
    end) ([], (node1, node2, node3)) all_response_actions;
  assert_eq (commit_index (rn_state node1)) 1%N ;;
  assert (bool_decide (apply_actions ≠ [])) ;;
  a ← index apply_actions 0;
  match a with
  | ApplyEntry index command =>
      assert_eq index 1%N ;;
      match command with
      | Put key value => assert_eq key "name" ;; assert_eq value "uday"
      | _ => halt
      end
  | _ => halt
  end ;;
  mret (node1, node2, node3).

(** the second, which reaches node 2 only; and the refusal of a follower. *)
Definition test_log_replication : proc Fs unit :=
  ns ← elect_first;
  '(node1, node2, node3) ← replicate_to_both ns;
  '(o, node1) ← call (propose (Put "balance" "5000")) node1;
  actions ← unwrap o;
  '(node1, node2, node3) ← fold_proc (λ ns action,
    match action with
    | SendAppendEntries to request =>
        if bool_decide (to = 2%N) then
          '(responses, ns) ← to_follower (handle_append_entries request) 2 ns;
          fold_proc (λ ns resp_action,
            match resp_action with
            | SendAppendEntriesResponse _ response =>
                '(_, ns) ← to_leader (handle_append_entries_response 2 response) ns; mret ns
            | _ => mret ns
            end) ns responses
        else mret ns
    | _ => mret ns
    end) (node1, node2, node3) actions;
  assert_eq (commit_index (rn_state node1)) 2%N ;;
  assert_eq (last_index (rs_log (rn_state node2))) 2%N ;;
  assert_eq (last_index (rs_log (rn_state node3))) 1%N ;;
  '(result, _) ← call (propose (Put "test" "fail")) node2;
  assert_eq result None.

Definition persist_for_test : proc RW unit := persist.

Definition test_raft_persistence : proc Fs unit :=
  let test_dir := "/tmp/test_raft_persist" in
  remove_dir_all test_dir ;;
  let peers := [1; 2; 3]%N in
  (r ← with_persistence 1 peers test_dir; node ← expect r;
   '(_, node) ← tick_until 65 node;
   assert_eq (current_term (rn_state node)) 1%N ;;
   assert_eq (voted_for (rn_state node)) (Some 1%N) ;;
   let node := update_state become_leader node in
   let node := update_state
     (λ s, set_log (log_append (rs_log s) (mkEntry 1 (Put "name" "uday"))).1 s) node in
   '(_, node) ← call persist_for_test node; mret tt) ;;
  (r ← with_persistence 1 peers test_dir; node ← expect r;
   assert_eq (current_term (rn_state node)) 1%N ;;
   assert_eq (voted_for (rn_state node)) (Some 1%N) ;;
   assert_eq (last_index (rs_log (rn_state node))) 1%N ;;
   assert_eq (last_term (rs_log (rn_state node))) 1%N ;;
   entry ← unwrap (log_get (rs_log (rn_state node)) 1);
   assert_eq (e_term entry) 1%N ;;
   match e_command entry with
   | Put key value => assert_eq key "name" ;; assert_eq value "uday"
   | _ => halt
   end ;;
   assert_eq (role (rn_state node)) Follower ;;
   assert_eq (commit_index (rn_state node)) 0%N ;;
   assert_eq (last_applied (rn_state node)) 0%N) ;;
  remove_dir_all test_dir.

(** ** The cluster node *)

(** [for _ in 0..65 { node.tick(); }] *)
Definition ticks_65 : proc CW unit := for_each (λ _, cluster_tick) (upto 65).

Definition test_cluster_node_single_node : proc Fs unit :=
  let test_dir := "/tmp/test_cluster_single" in
  remove_dir_all test_dir ;;
  r ← cluster_new 1 [1%N] test_dir; node ← expect r;
  '(_, node) ← call ticks_65 node;
  assert_eq (role (rn_state (cn_raft node))) Leader ;;
  '(response, node) ← call (handle_client_command (Set_ "name" "uday")) node;
  match response with SimpleString s => assert_eq s "OK" | _ => halt end ;;
  '(response, node) ← call (handle_client_command (Get "name")) node;
  match response with BulkString s => assert_eq s "uday" | _ => halt end ;;
  '(_, node) ← call (handle_client_command (Set_ "balance" "5000")) node;
  '(response, node) ← call (handle_client_command (Del "name")) node;
  match response with Integer n => assert_eq n 1%Z | _ => halt end ;;
  '(response, node) ← call (handle_client_command (Get "name")) node;
  match response with Null => mret tt | _ => halt end ;;
  '(response, node) ← call (handle_client_command (Get "balance")) node;
  match response with BulkString s => assert_eq s "5000" | _ => halt end ;;
  '(response, node) ← call (handle_client_command Ping) node;
  match response with SimpleString s => assert_eq s "PONG" | _ => halt end ;;
  remove_dir_all test_dir ;;
  drop_wal (se_wal (cn_storage node)).

(** ** Sharding *)

Definition numbered (prefix : string) (i : N) : string := prefix +:+ pretty i.

Definition test_consistent_hashing_ring : proc Fs unit :=
  let ring := ring_new 64 in
  assert_eq (ring_get_shard ring "any_key") None ;;
  let ring := ring_add_shard ring 1 in
  let ring := ring_add_shard ring 2 in
  let ring := ring_add_shard ring 3 in
  assert_eq (ring_shard_count ring) 3%N ;;
  for_each (λ i,
    shard_id ← unwrap (ring_get_shard ring (numbered "key_" i));
    assert (bool_decide (1 ≤ shard_id)%N && bool_decide (shard_id ≤ 3)%N)) (upto 100) ;;
  shard_a ← unwrap (ring_get_shard ring "test_key");
  shard_b ← unwrap (ring_get_shard ring "test_key");
  assert_eq shard_a shard_b ;;
  counts ← fold_proc (λ counts i,
    shard ← unwrap (ring_get_shard ring (numbered "key_" i));
    c ← index counts shard;
    mret (<[N.to_nat shard := (c + 1)%N]> counts)) [0; 0; 0; 0]%N (upto 100);
  for_each (λ shard_id,
    c ← index counts shard_id;
    assert (bool_decide (10 < c)%N)) [1; 2; 3]%N ;;
  _ ← unwrap (ring_get_shard ring "stable_key");
  let ring := ring_remove_shard ring 2 in
  assert_eq (ring_shard_count ring) 2%N ;;
  key_after ← unwrap (ring_get_shard ring "stable_key");
  assert (bool_decide (key_after = 1%N) || bool_decide (key_after = 3%N)).

Definition two_shards : list ShardConfig :=
  [mkShard 1 [1; 2; 3]%N (Some 6381%N); mkShard 2 [4; 5; 6]%N (Some 6384%N)].

Definition test_router_key_routing : proc Fs unit :=
  let router := router_new two_shards 64 in
  for_each (λ i,
    shard ← unwrap (get_shard_id router (numbered "user_" i));
    assert (bool_decide (shard = 1%N) || bool_decide (shard = 2%N))) (upto 50) ;;
  let test_key := "important_data" in
  owning_shard ← unwrap (get_shard_id router test_key);
  assert (key_belongs_to_shard router test_key owning_shard) ;;
  let other_shard := if bool_decide (owning_shard = 1%N) then 2%N else 1%N in
  assert (negb (key_belongs_to_shard router test_key other_shard)) ;;
  config ← unwrap (route router test_key);
  assert_eq (sc_shard_id config) owning_shard ;;
  assert (bool_decide (sc_node_ids config ≠ [])).

Definition starts_with_moved (e : string) : bool := String.prefix "MOVED" e.

Definition test_sharded_cluster_node : proc Fs unit :=
  let test_dir := "/tmp/test_sharded_cluster" in
  remove_dir_all test_dir ;;
  r ← with_sharding 1 [1%N] test_dir 1 two_shards; node ← expect r;
  '(_, node) ← call ticks_65 node;
  '(node, accepted, moved) ← fold_proc (λ '(node, accepted, moved) i,
    '(response, node) ← call (handle_client_command (Set_ (numbered "key_" i) "test")) node;
    match response with
    | SimpleString s => if bool_decide (s = "OK") then mret (node, (accepted + 1)%N, moved) else halt
    | Error e => if starts_with_moved e then mret (node, accepted, (moved + 1)%N) else halt
    | _ => halt
    end) (node, 0%N, 0%N) (upto 50);
  assert (bool_decide (5 < accepted)%N) ;;
  assert (bool_decide (5 < moved)%N) ;;
  node ← fold_proc (λ node i,
    '(response, node) ← call (handle_client_command (Get (numbered "key_" i))) node;
    match response with
    | BulkString _ | Null => mret node
    | Error e => if starts_with_moved e then mret node else halt
    | _ => halt
    end) node (upto 50);
  remove_dir_all test_dir ;;
  drop_wal (se_wal (cn_storage node)).

Definition all_tests : list (proc Fs unit) :=
  [test_wal_append_and_replay; test_memtable_basic_operations; test_engine_crash_recovery;
   test_raft_log_operations; test_raft_state_transitions; test_leader_election;
   test_log_replication; test_raft_persistence; test_cluster_node_single_node;
   test_consistent_hashing_ring; test_router_key_routing; test_sharded_cluster_node].

End tests.

(** ** The suite passes *)

(** A disk on which earlier runs of the tests were interrupted. *)
Definition littered_fs : Fs :=
  set_files (<["/tmp/test_wal.log" := "PUT|old|value"]>
    (<["/tmp/test_engine_recovery/wal.log" := "PUT|city|delhi"]>
      (<["/tmp/test_raft_persist/raft_state_1.json" := "{"]> ∅))) fresh_fs.

(** Run the tests one after the other; [Some]: they passed and this is the disk. *)
Definition run_suite `{Build, StateCodec} (fs : Fs) : option (gmap string string) :=
  match for_each id all_tests fs with
  | (Done _, fs') => Some (fs_files fs')
  | (Halted, _) => None
  end.

(** the test suite of the program passes.  With and without overflow checks,
    on a disk that has the remains of interrupted runs, every test of src/main.rs
    runs through all its assertions, one after the other, and the suite leaves no
    file behind. *)
Theorem test_suite_passes checks :
  @run_suite {| overflow_checks := checks |} _ littered_fs = Some ∅.
Proof. destruct checks; vm_cast_no_check (eq_refl (Some (∅ : gmap string string))). Qed.
