(* ===== verification/ClusterProps.v ===== *)
(** * Properties of a cluster node

    Client commands branch by branch, the order in which committed commands
    reach the storage engine, and the end-to-end behaviour of a cluster of one
    node as a key-value map. *)

From S2P Require Import Prelude Text Fs Log State Message Persist Codec Node Commit.
From S2P Require Import Durability BTree Memtable Wal Engine Ring Router Protocol Cluster.

(** ** Operations on a disk without faults *)

Definition quiet (fs : Fs) : Prop := fs_faults fs = [].

Lemma wp_next_fault_quiet fs (Q : fault → Fs → Prop) K :
  quiet fs → Q Fine fs → wp next_fault fs Q K.
Proof. unfold wp, next_fault. by intros ->. Qed.

Lemma write_append_quiet path s fs :
  quiet fs → wp (write_append path s) fs (λ r fs', r.2 = Ok tt ∧ quiet fs') (λ _, False).
Proof.
  intros Hq. unfold write_append, append_bytes, put_file. wp_step.
  apply wp_next_fault_quiet; [done|]. by repeat wp_step.
Qed.

Lemma sync_all_quiet path fs :
  quiet fs → wp (sync_all path) fs (λ r fs', r = Ok tt ∧ quiet fs') (λ _, False).
Proof.
  intros Hq. unfold sync_all. wp_step. apply wp_next_fault_quiet; [done|]. by repeat wp_step.
Qed.

Lemma flush_buf_quiet (w : WW) :
  quiet w.2 → wp flush_buf w (λ r w', r = Ok tt ∧ quiet w'.2) (λ _, False).
Proof.
  intros Hq. unfold flush_buf, on_fs. do 2 wp_step. wp_step; [by wp_step|]. do 4 wp_step.
  eapply wp_mono; [by apply write_append_quiet| |done]. intros [k r] fs' [-> Hq'].
  by repeat wp_step.
Qed.

Lemma buf_write_all_quiet s (w : WW) :
  quiet w.2 → wp (buf_write_all s) w (λ r w', r = Ok tt ∧ quiet w'.2) (λ _, False).
Proof.
  intros Hq. unfold buf_write_all, on_fs. do 2 wp_step. wp_step; [by repeat wp_step|]. wp_step.
  assert (∀ w : WW, quiet w.2 → wp
    (if bool_decide (BUF_CAPACITY ≤ str_len s)%N then
       path ← gets (λ w : WW, wal_path w.1);
       r ← zoom (λ w : WW, w.2) (λ fs w, (w.1, fs)) (write_append path s); mret r.2
     else b ← gets (λ w : WW, wal_buf w.1); modify (set_buf (b +:+ s)) ;; mret (Ok tt)) w
    (λ r w', r = Ok tt ∧ quiet w'.2) (λ _, False)) as Hrest.
  { intros w' Hq'. wp_step; [|by repeat wp_step]. do 4 wp_step.
    eapply wp_mono; [by apply write_append_quiet| |done]. intros [k r] fs' [-> ?]. by wp_step. }
  wp_step; [|wp_step; by apply Hrest].
  eapply wp_mono; [by apply flush_buf_quiet| |done]. intros r w' [-> Hq']. by apply Hrest.
Qed.

Lemma wal_append_quiet e (w : WW) :
  quiet w.2 → wp (wal_append e) w (λ r w', r = Ok tt ∧ quiet w'.2) (λ _, False).
Proof.
  intros Hq. unfold wal_append, wal_sync, on_fs. wp_step.
  eapply wp_mono; [by apply buf_write_all_quiet| |done]. intros r w1 [-> H1]. wp_step. wp_step.
  eapply wp_mono; [by apply flush_buf_quiet| |done]. intros r w2 [-> H2]. do 4 wp_step.
  eapply wp_mono; [by apply sync_all_quiet| |done]. intros r fs3 [-> H3]. by repeat wp_step.
Qed.

Section quiet_engine.
Context `{Build}.

(** In a release build and without disk faults a mutation always succeeds. *)
Lemma engine_mutate_quiet m (w : EW) :
  overflow_checks = false → quiet w.2 →
  ∃ w', engine_mutate m w = (Done (Ok tt), w') ∧ quiet w'.2.
Proof.
  intros Hb Hq.
  assert (wp (engine_mutate m) w (λ r w', r = Ok tt ∧ quiet w'.2) (λ _, False)) as Hwp.
  { unfold wp. rewrite engine_mutate_run. fold (wp (_ ?← on_wal (wal_append (mutation_entry m));
      on_memtable (apply_entry (mutation_entry m)) ;; mret (Ok tt)) w
      (λ r w', r = Ok tt ∧ quiet w'.2) (λ _, False)).
    unfold on_wal, on_memtable. do 2 wp_step.
    eapply wp_mono; [by apply wal_append_quiet| |done]. intros r w1 [-> H1]. wp_step. wp_step.
    unfold wp at 1. destruct (apply_entry_release (mutation_entry m) (se_memtable w.1) Hb) as [mt' Hmt].
    simpl. rewrite Hmt. by wp_step. }
  unfold wp in Hwp. destruct (engine_mutate m w) as [[r|] w'] eqn:E; [|done].
  destruct Hwp as [-> ?]. by exists w'.
Qed.

(** The engine's invariant depends on the disk only through its WAL file. *)
Lemma engine_ok_disk dir ms e fs fs' :
  engine_ok dir ms (e, fs) →
  fs_files fs' !! engine_wal_path dir = fs_files fs !! engine_wal_path dir →
  fs_durable fs' = fs_durable fs → engine_ok dir ms (e, fs').
Proof.
  intros [Hcl Hdir Hp Hb Hf Hd Hm] Hfiles Hdur. simpl in *.
  split; simpl; rewrite ?Hp, ?Hfiles, ?Hdur in *; done.
Qed.

End quiet_engine.

(** ** The mutations of a list of actions *)

Section apply.
Context `{Build} (dir : string).

(** Committed commands reach the storage engine in order. *)
Lemma process_actions_engine actions : ∀ ms (w : CW),
  overflow_checks = false → quiet w.2 → engine_ok dir ms (cn_storage w.1, w.2) →
  Forall (λ m, mutation_clean m = true) (omap action_mutation actions) →
  ∃ w', process_actions actions w = (Done tt, w') ∧ quiet w'.2 ∧
    engine_ok dir (ms ++ omap action_mutation actions) (cn_storage w'.1, w'.2).
Proof.
  intros ms w Hb. revert ms w. induction actions as [|a actions IH]; intros ms w Hq Hok Hcl; simpl in *.
  - exists w. by rewrite app_nil_r.
  - assert (∃ w1, process_action a w = (Done tt, w1) ∧ quiet w1.2 ∧
      engine_ok dir (ms ++ option_list (action_mutation a)) (cn_storage w1.1, w1.2) ∧
      Forall (λ m, mutation_clean m = true) (omap action_mutation actions))
      as (w1 & Hrun & Hq1 & Hok1 & Hcl1).
    { rewrite process_action_run. destruct (action_mutation a) as [m|] eqn:Ha.
      - apply Forall_cons in Hcl as [Hm Hcl].
        destruct (engine_mutate_quiet m (cn_storage w.1, w.2) Hb Hq) as ([e' fs'] & He & Hq').
        exists (set_storage e' w.1, fs').
        assert (action_message a = None) as -> by (by destruct a).
        unfold on_storage, zoom, mbind, proc_bind. rewrite He. split_and!; try done.
        by eapply engine_mutate_ok.
      - rewrite bind_ret_l. simpl. rewrite app_nil_r.
        destruct (action_message a); by eexists. }
    destruct (IH _ w1 Hq1 Hok1 Hcl1) as (w' & Hrun' & Hq' & Hok').
    exists w'. split_and!; [|done|].
    + unfold process_actions. simpl. by rewrite (bind_done _ _ _ _ _ Hrun).
    + rewrite <-app_assoc in Hok'. by destruct (action_mutation a).
Qed.

End apply.

(** ** A cluster of one *)

(** The abstract store: a map, and a reply per command. *)
Definition abstract_reply (db : gmap string string) (c : Command) : Response :=
  match c with
  | Get key => match db !! key with Some v => BulkString v | None => Null end
  | Set_ _ _ => SimpleString "OK"
  | Del _ => Integer 1
  | Ping => SimpleString "PONG"
  | Unknown name => Error ("unknown command '" +:+ name +:+ "'")
  end.

Definition command_mutation (c : Command) : list Mutation :=
  match c with
  | Set_ key value => [MPut key value]
  | Del key => [MDelete key]
  | _ => []
  end.

Fixpoint abstract_replies (db : gmap string string) (cs : list Command) : list Response :=
  match cs with
  | [] => []
  | c :: cs =>
      abstract_reply db c :: abstract_replies (foldl abstract_mutate db (command_mutation c)) cs
  end.

Fixpoint run_commands `{Build, StateCodec} (cs : list Command) : proc CW (list Response) :=
  match cs with
  | [] => mret []
  | c :: cs => r ← handle_client_command c; rs ← run_commands cs; mret (r :: rs)
  end.

Definition mutations_clean (c : Command) : Prop :=
  Forall (λ m, mutation_clean m = true) (command_mutation c).

(** The leader of a cluster of one, with every entry of its log applied. *)
Record solo_ok `{Build} (dir : string) (ms : list Mutation) (w : CW) : Prop := {
  so_quiet : quiet w.2;
  so_engine : engine_ok dir ms (cn_storage w.1, w.2);
  so_router : cn_router w.1 = None;
  so_role : role (rn_state (cn_raft w.1)) = Leader;
  so_peers : peers (rn_state (cn_raft w.1)) = [rs_id (rn_state (cn_raft w.1))];
  so_log : l_entries (rs_log (rn_state (cn_raft w.1))) ≠ [];
  so_commit : commit_index (rn_state (cn_raft w.1)) = last_index (rs_log (rn_state (cn_raft w.1)));
  so_applied : last_applied (rn_state (cn_raft w.1)) = last_index (rs_log (rn_state (cn_raft w.1)));
  so_paths : ∀ p, persister (cn_raft w.1) = Some p → sp_path p ≠ engine_wal_path dir;
}.

Section solo.
Context `{StateCodecLaws} `{Build} (dir : string).

Lemma persist_quiet n fs :
  quiet fs →
  ∃ fs', persist (n, fs) = (Done tt, (n, fs')) ∧ quiet fs' ∧ fs_durable fs' = fs_durable fs ∧
    ∀ q, (∀ p, persister n = Some p → sp_path p ≠ q) → fs_files fs' !! q = fs_files fs !! q.
Proof.
  intros Hq. unfold persist, node_get. rewrite bind_gets. simpl.
  destruct (persister n) as [p|]; [|by exists fs].
  destruct (save_fine p (persistent_of (rn_state n)) fs [])
    as (s & _ & _ & Hsave); [unfold next_fault; rewrite Hq; unfold quiet in Hq; destruct fs; simpl in *; by subst|].
  eexists. unfold state_get, on_disk. rewrite bind_gets.
  rewrite (bind_done _ _ _ (Ok tt) (n, set_files (<[sp_path p := s]> (fs_files fs)) (set_faults [] fs))).
  2:{ unfold zoom. simpl. by rewrite Hsave. }
  split; [done|]. split_and!; try done. intros q Hp. simpl. rewrite lookup_insert_ne; [done|]. by apply Hp.
Qed.

(** Appending to the log of a sole, fully committed leader commits the entry. *)
Lemma new_commit_index_solo s cmd :
  peers s = [rs_id s] → l_entries (rs_log s) ≠ [] → commit_index s = last_index (rs_log s) →
  let s' := set_log (log_append (rs_log s) (mkEntry (current_term s) cmd)).1 s in
  new_commit_index s' = last_index (rs_log s') ∧
  last_index (rs_log s') = (last_index (rs_log s) + 1)%N.
Proof.
  intros Hp Hl Hc s'.
  assert (last_index (rs_log s') = (last_index (rs_log s) + 1)%N) as Hlast.
  { subst s'. cbn [rs_log set_log]. rewrite last_index_append. unfold last_index, vec_len.
    destruct (l_entries (rs_log s)); simpl; [done|lia]. }
  split; [|done]. destruct (new_commit_index_spec s') as (Hle & Hne & Hmax).
  assert (commit_index s' = commit_index s) as Hcs by done.
  assert (committable s' (last_index (rs_log s')) = true) as Hcom.
  { apply committable_true. split.
    - rewrite term_at_lookup, Hlast. unfold last_index, vec_len. subst s'. simpl.
      rewrite lookup_app_r by (destruct (l_entries (rs_log s)); simpl; [done|lia]).
      destruct (l_entries (rs_log s)); [done|]. simpl.
      replace (_ - _) with 0 by lia. done.
    - unfold majority_count, replication_count. change (peers s') with (peers s). rewrite Hp.
      change (vec_len [rs_id s] / 2 + 1)%N with 1%N. lia. }
  assert (¬ (new_commit_index s' < last_index (rs_log s'))%N) as Hnlt.
  { intros Hlt. rewrite Hmax in Hcom; [done|]. lia. }
  destruct (decide (new_commit_index s' = commit_index s')) as [E|E]; [lia|].
  destruct (Hne E). lia.
Qed.

Lemma apply_action_append l e i :
  i = vec_len (l_entries l) → e_command e ≠ Noop →
  apply_action (log_append l e).1 i = [ApplyEntry i (e_command e)].
Proof.
  intros -> Hc. unfold apply_action. rewrite log_get_lookup. simpl. unfold vec_len.
  rewrite Nat2N.id, list_lookup_middle by done. by destruct (e_command e).
Qed.

Lemma replicate_to_all_peers_solo s : peers s = [rs_id s] → replicate_to_all_peers s = [].
Proof. intros Hp. unfold replicate_to_all_peers. rewrite Hp. simpl. by rewrite bool_decide_true. Qed.

Lemma propose_solo cmd n fs :
  quiet fs → role (rn_state n) = Leader → peers (rn_state n) = [rs_id (rn_state n)] →
  l_entries (rs_log (rn_state n)) ≠ [] →
  commit_index (rn_state n) = last_index (rs_log (rn_state n)) →
  last_applied (rn_state n) = last_index (rs_log (rn_state n)) → cmd ≠ Noop →
  let s := set_log (log_append (rs_log (rn_state n)) (mkEntry (current_term (rn_state n)) cmd)).1
             (rn_state n) in
  let i := last_index (rs_log s) in
  ∃ fs', propose cmd (n, fs) = (Done (Some [ApplyEntry i cmd]), (set_state (commit_to i s) n, fs')) ∧
    quiet fs' ∧ fs_durable fs' = fs_durable fs ∧
    ∀ q, (∀ p, persister n = Some p → sp_path p ≠ q) → fs_files fs' !! q = fs_files fs !! q.
Proof.
  intros Hq Hr Hp Hl Hc Ha Hcmd s i.
  destruct (persist_quiet (set_state s n) fs Hq) as (fs' & Hper & Hq' & Hd & Hf).
  exists fs'. split_and!; try done.
  destruct (new_commit_index_solo (rn_state n) cmd Hp Hl Hc) as [Hnew Hlast]. fold s i in Hnew, Hlast.
  unfold propose, state_get. rewrite bind_gets. simpl. rewrite Hr. rewrite bool_decide_false by auto.
  unfold state_mod. rewrite bind_modify. unfold update_state. cbn [fst snd]. fold s.
  rewrite (bind_done _ _ _ _ _ Hper), bind_gets.
  pose proof (maybe_advance_run (set_state s n, fs')) as Hrun. cbn [fst rn_state set_state] in Hrun.
  rewrite Hnew in Hrun. rewrite bool_decide_true in Hrun by (simpl; lia).
  rewrite (bind_done _ _ _ _ _ Hrun). unfold mret, proc_ret. do 4 f_equal.
  change (rn_state (set_state s n, fs').1) with s.
  rewrite (replicate_to_all_peers_solo s) by done. unfold applied_actions. simpl app.
  change (last_applied s) with (last_applied (rn_state n)). rewrite Ha.
  rewrite <-Hlast, range_inclusive_cons, range_inclusive_nil by lia. simpl.
  rewrite app_nil_r. apply apply_action_append; [|done].
  subst i. unfold s. cbn [rs_log set_log]. by rewrite last_index_append.
Qed.

Lemma replicate_write_solo ms cmd ok m (w : CW) :
  overflow_checks = false → solo_ok dir ms w → cmd ≠ Noop →
  action_mutation (ApplyEntry 0 cmd) = Some m → mutation_clean m = true →
  ∃ w', replicate_write cmd ok w = (Done ok, w') ∧ solo_ok dir (ms ++ [m]) w' ∧
    cn_pending_commit_index w'.1 = Some (commit_index (rn_state (cn_raft w'.1))).
Proof.
  intros Hb [Hq He Hr Hrole Hp Hl Hc Ha Hpaths] Hcmd Hm Hcl. destruct w as [c fs]. simpl in *.
  destruct (propose_solo cmd (cn_raft c) fs Hq Hrole Hp Hl Hc Ha Hcmd)
    as (fs1 & Hprop & Hq1 & Hd1 & Hf1).
  destruct (new_commit_index_solo (rn_state (cn_raft c)) cmd Hp Hl Hc) as [_ Hlast].
  set (s := set_log _ _) in *. set (i := last_index (rs_log s)) in *.
  set (n' := set_state (commit_to i s) (cn_raft c)) in *.
  destruct (process_actions_engine dir [ApplyEntry i cmd] ms (set_raft n' c, fs1))
    as (w2 & Hrun & Hq2 & He2); [done|done| |by destruct cmd; simpl in *; simplify_eq; constructor|].
  { simpl. eapply engine_ok_disk; [done| |done]. by apply Hf1. }
  pose proof (keeps_run _ _ _ _ _ (process_actions_frame _) Hrun) as (E1 & E2 & E3 & E4 & _).
  simpl in E1, E2, E3, E4.
  exists (set_pending (Some i) w2.1, w2.2).
  assert (omap action_mutation [ApplyEntry i cmd] = [m]) as Em by (by destruct cmd; simpl in *; simplify_eq).
  rewrite Em in He2. split_and!.
  - unfold replicate_write, cluster_get. rewrite bind_gets. cbn [fst]. rewrite Hrole.
    rewrite bool_decide_false by auto. unfold on_raft.
    rewrite (bind_done _ _ _ (Some [ApplyEntry i cmd]) (set_raft n' c, fs1));
      [|unfold zoom; cbn [fst snd]; by rewrite Hprop].
    rewrite (bind_done _ _ _ _ _ Hrun). unfold cluster_mod. rewrite bind_modify. rewrite E1. done.
  - split; cbn [fst snd set_pending cn_raft cn_storage cn_router]; rewrite ?E1, ?E2; try done.
    + simpl. intros E. by destruct (l_entries (rs_log (rn_state (cn_raft c)))).
    + change (N.max (last_applied (rn_state (cn_raft c))) i = i). lia.
  - cbn [fst snd set_pending cn_raft cn_pending_commit_index]. by rewrite E1.
Qed.

Lemma handle_client_command_solo ms c (w : CW) :
  overflow_checks = false → solo_ok dir ms w → mutations_clean c →
  ∃ w', handle_client_command c w = (Done (abstract_reply (abstract_run ms) c), w') ∧
    solo_ok dir (ms ++ command_mutation c) w' ∧
    ∀ i, cn_pending_commit_index w'.1 = Some i → (i ≤ commit_index (rn_state (cn_raft w'.1)))%N.
Proof.
  intros Hb Hok Hcl. unfold handle_client_command, cluster_mod. rewrite bind_modify.
  assert (solo_ok dir ms (set_pending None w.1, w.2)) as Hok0 by (by destruct Hok; split).
  assert (moved_none : ∀ k, moved k (set_pending None w.1) = None)
    by (intros k; unfold moved; simpl; by rewrite (so_router _ _ _ Hok)).
  assert (write : ∀ cmd ok m, cmd ≠ Noop → action_mutation (ApplyEntry 0 cmd) = Some m →
    mutation_clean m = true →
    ∃ w', replicate_write cmd ok (set_pending None w.1, w.2) = (Done ok, w') ∧
      solo_ok dir (ms ++ [m]) w' ∧
      ∀ i, cn_pending_commit_index w'.1 = Some i → (i ≤ commit_index (rn_state (cn_raft w'.1)))%N).
  { intros cmd ok m Hcmd Hm Hc.
    destruct (replicate_write_solo ms cmd ok m _ Hb Hok0 Hcmd Hm Hc) as (w' & ? & ? & Hpend).
    exists w'. split_and!; try done. intros i. rewrite Hpend. intros [= <-]. done. }
  unfold mutations_clean in Hcl.
  destruct c as [k|k v|k| |name]; simpl command_mutation in *; rewrite ?app_nil_r;
    unfold cluster_get; rewrite ?bind_gets; cbn [fst]; rewrite ?moved_none, ?bind_gets.
  - eexists. split_and!; [|done|done]. unfold mret, proc_ret, abstract_reply.
    rewrite <-(engine_ok_get dir ms _ k (so_engine _ _ _ Hok0)). done.
  - apply Forall_cons in Hcl as [Hcl _]. by apply write.
  - apply Forall_cons in Hcl as [Hcl _]. by apply write.
  - by eexists.
  - by eexists.
Qed.

End solo.

Lemma abstract_run_app ms ms' :
  foldl abstract_mutate (abstract_run ms) ms' = abstract_run (ms ++ ms').
Proof. unfold abstract_run. by rewrite foldl_app. Qed.

(** ** Properties *)


Lemma process_action_quiet `{Build} a w :
  overflow_checks = false → quiet w.2 → ∃ w', process_action a w = (Done tt, w') ∧ quiet w'.2.
Proof.
  intros Hb Hq. rewrite process_action_run. destruct (action_mutation a) as [m|] eqn:Ha.
  - destruct (engine_mutate_quiet m (cn_storage w.1, w.2) Hb Hq) as ([e fs] & He & Hq2).
    assert (action_message a = None) as -> by (by destruct a).
    unfold on_storage, zoom, mbind, proc_bind. rewrite He. by eexists.
  - rewrite bind_ret_l. destruct (action_message a); by eexists.
Qed.

(** One action: its mutation, if it has one, reaches the store or is dropped by an
    error of the disk. *)
Lemma process_action_reads `{Build} a w w' db :
  reads_as (se_memtable (cn_storage w.1)) db → process_action a w = (Done tt, w') →
  ∃ applied, applied `sublist_of` option_list (action_mutation a) ∧
    reads_as (se_memtable (cn_storage w'.1)) (foldl abstract_mutate db applied) ∧
    (overflow_checks = false → quiet w.2 → applied = option_list (action_mutation a)).
Proof.
  intros Hr Hrun. rewrite process_action_run in Hrun.
  destruct (action_mutation a) as [m|] eqn:Ha; simpl.
  - assert (action_message a = None) as Hn by (by destruct a). rewrite Hn in Hrun.
    unfold on_storage, zoom, mbind, proc_bind, mret, proc_ret in Hrun.
    destruct (engine_mutate m (cn_storage w.1, w.2)) as [[r|] [e1 fs1]] eqn:He; [|done]. simplify_eq. simpl.
    pose proof (engine_mutate_reads m (cn_storage w.1, w.2) _ _ db Hr He) as Hr1. simpl in Hr1.
    exists (if r is Ok _ then [m] else []). split_and!.
    + destruct r; [done|apply sublist_nil_l].
    + by destruct r.
    + intros Hb Hq. destruct (engine_mutate_quiet m (cn_storage w.1, w.2) Hb Hq) as (w2 & He2 & Hq2).
      rewrite He in He2. by simplify_eq.
  - exists []. rewrite bind_ret_l in Hrun. split_and!; [done|..].
    + destruct (action_message a); [unfold push_message, cluster_mod, modify in Hrun|
        unfold mret, proc_ret in Hrun]; by simplify_eq.
    + done.
Qed.

Lemma process_actions_reads `{Build} actions : ∀ w w' db,
  reads_as (se_memtable (cn_storage w.1)) db → process_actions actions w = (Done tt, w') →
  ∃ applied, applied `sublist_of` omap action_mutation actions ∧
    reads_as (se_memtable (cn_storage w'.1)) (foldl abstract_mutate db applied) ∧
    (overflow_checks = false → quiet w.2 → applied = omap action_mutation actions).
Proof.
  induction actions as [|a actions IH]; intros w w' db Hr Hrun.
  { unfold process_actions in Hrun. simpl in Hrun. unfold mret, proc_ret in Hrun. simplify_eq. by exists []. }
  unfold process_actions in Hrun. simpl in Hrun.
  apply bind_inv in Hrun as [([] & w1 & H1 & H2)|[_ ?]]; [|done].
  destruct (process_action_reads a w w1 db Hr H1) as (l1 & Hs1 & Hr1 & Hq1).
  destruct (IH w1 w' _ Hr1 H2) as (l2 & Hs2 & Hr2 & Hq2).
  assert (omap action_mutation (a :: actions)
    = option_list (action_mutation a) ++ omap action_mutation actions) as ->
    by (simpl; by destruct (action_mutation a)).
  exists (l1 ++ l2). split_and!.
  - by apply sublist_app.
  - by rewrite foldl_app.
  - intros Hb Hq. destruct (process_action_quiet a w Hb Hq) as (w2 & Hrun & Hq').
    rewrite H1 in Hrun. simplify_eq. by rewrite Hq1, Hq2.
Qed.

Lemma process_actions_quiet `{Build} actions : ∀ w,
  overflow_checks = false → quiet w.2 → ∃ w', process_actions actions w = (Done tt, w').
Proof.
  induction actions as [|a actions IH]; intros w Hb Hq; [by exists w|].
  destruct (process_action_quiet a w Hb Hq) as (w1 & H1 & Hq1).
  destruct (IH w1 Hb Hq1) as (w' & H2). exists w'. unfold process_actions. simpl.
  by rewrite (bind_done _ _ _ _ _ H1).
Qed.


(** ** Writes on any cluster *)

Definition same_node : relation RW := λ w w', w'.1 = w.1.

#[export] Instance same_node_preorder : PreOrder same_node.
Proof. split; [done|]. intros a b c H1 H2. unfold same_node in *. congruence. Qed.

Lemma persist_same_node `{StateCodec} : keeps same_node persist.
Proof.
  unfold persist, node_get, state_get. keeps_step; [by keeps_step|]. keeps_step; [|by keeps_step].
  keeps_step; [by keeps_step|]. keeps_step; [|by keeps_auto].
  apply (keeps_zoom _ _ _ (λ _ _, True)); [done|]. intros fs. unfold wp. by destruct (save _ _ _) as [[]].
Qed.

(** What a proposal does to the leader's own state, whatever the disk does. *)
Lemma propose_appends `{Build, StateCodec} cmd (w : RW) :
  role (rn_state w.1) = Leader →
  wp (propose cmd) w
    (λ o w', ∃ actions c a, o = Some actions ∧
       rn_state w'.1 = set_commit_index c (set_last_applied a
         (set_log (log_append (rs_log (rn_state w.1))
                     (mkEntry (current_term (rn_state w.1)) cmd)).1 (rn_state w.1))))
    (λ _, True).
Proof.
  intros Hr. unfold propose, state_get, state_mod. wp_step. wp_step. rewrite Hr.
  rewrite bool_decide_false by auto. do 3 wp_step.
  eapply wp_mono; [apply persist_same_node| |done]. intros [] w1 E1. unfold same_node in E1. simpl in E1.
  do 2 wp_step. wp_step. unfold wp at 1.
  assert (rn_state w1.1 = set_log (log_append (rs_log (rn_state w.1))
    (mkEntry (current_term (rn_state w.1)) cmd)).1 (rn_state w.1)) as Es by (by rewrite E1).
  rewrite <-Es. pose proof (maybe_advance_run w1) as Hrun. cbv zeta in Hrun. rewrite Hrun.
  case_bool_decide; cbv beta iota; wp_step; do 2 eexists;
    [exists (N.max (last_applied (rn_state w1.1)) (new_commit_index (rn_state w1.1)))
    |exists (last_applied (rn_state w1.1))]; (split; [done|]); [done|].
  by rewrite set_last_applied_id.
Qed.

Definition command_write (c : Command) : option (string * LogCommand * Response) :=
  match c with
  | Set_ k v => Some (k, Put k v, SimpleString "OK")
  | Del k => Some (k, Delete k, Integer 1)
  | _ => None
  end.

Lemma handle_write `{Build, StateCodec} c k cmd ok w :
  command_write c = Some (k, cmd, ok) →
  handle_client_command c w =
  match moved k w.1 with
  | Some r => (Done r, (set_pending None w.1, w.2))
  | None => replicate_write cmd ok (set_pending None w.1, w.2)
  end.
Proof.
  unfold handle_client_command, cluster_mod, cluster_get. rewrite bind_modify.
  destruct c; simpl; intros; simplify_eq; rewrite bind_gets; unfold moved; cbn [fst snd set_pending cn_router cn_shard_id];
    destruct (cn_router w.1) as [r|]; try done; by destruct (key_belongs_to_shard r _ _).
Qed.

(** The two ways a write that is not redirected can go. *)
Lemma replicate_write_outcome `{Build, StateCodec} cmd ok w r w' :
  replicate_write cmd ok (set_pending None w.1, w.2) = (Done r, w') →
  let s := rn_state (cn_raft w.1) in
  let s' := rn_state (cn_raft w'.1) in
  (role s ≠ Leader ∧ w' = (set_pending None w.1, w.2) ∧ r = NOTLEADER) ∨
  (role s = Leader ∧ r = ok ∧
     l_entries (rs_log s') = l_entries (rs_log s) ++ [mkEntry (current_term s) cmd] ∧
     current_term s' = current_term s ∧ role s' = Leader ∧
     cn_pending_commit_index w'.1 = Some (vec_len (l_entries (rs_log s)))).
Proof.
  intros Hrun s s'. unfold replicate_write, cluster_get in Hrun. rewrite bind_gets in Hrun.
  cbn [fst set_pending cn_raft] in Hrun. fold s in Hrun.
  destruct (decide (role s = Leader)) as [Hl|Hl];
    [|rewrite bool_decide_true in Hrun by done; left; unfold mret, proc_ret in Hrun; by simplify_eq].
  right. rewrite bool_decide_false in Hrun by auto.
  apply bind_inv in Hrun as [(o & w1 & Hp & Hrun)|[_ ?]]; [|done].
  unfold on_raft, zoom in Hp. cbn [fst snd set_pending cn_raft] in Hp.
  destruct (propose cmd (cn_raft w.1, w.2)) as [o1 [n1 fs1]] eqn:Hprop. simplify_eq.
  pose proof (wp_run _ _ _ _ _ _ (propose_appends cmd (cn_raft w.1, w.2) Hl) Hprop)
    as (actions & ci & a & -> & Es). simpl in Es.
  apply bind_inv in Hrun as [([] & w2 & Hproc & Hrun)|[_ ?]]; [|done].
  apply (keeps_run _ _ _ _ _ (process_actions_frame _)) in Hproc as (E1 & _).
  unfold cluster_mod in Hrun. rewrite bind_modify in Hrun. unfold mret, proc_ret in Hrun.
  simplify_eq. subst s'. simpl. rewrite E1. simpl. rewrite Es. split_and!; try done.
  f_equal. apply last_index_append.
Qed.

(** C23: a write is answered by the node that may take it, and by no other.  A SET
    or DEL of a key of another shard is refused naming the shard that owns the
    key; on a node that is not the leader it is refused with NOTLEADER; in both
    cases nothing but the pending index changes.  On the leader of the right
    shard the command is appended as the next entry of the current term, the
    rest of the log, the term and the role are unchanged, and the server is told
    to wait for exactly that index. *)
Theorem write_admission `{Build, StateCodec} c k cmd ok w r w' :
  command_write c = Some (k, cmd, ok) →
  handle_client_command c w = (Done r, w') →
  let s := rn_state (cn_raft w.1) in
  let s' := rn_state (cn_raft w'.1) in
  match cn_router w.1 with
  | Some router => router_reachable router ∧ ring (rt_ring router) ≠ []
  | None => True
  end →
  (∃ router owner, cn_router w.1 = Some router ∧ get_shard_id router k = Some owner ∧
     owner ≠ cn_shard_id w.1 ∧ w' = (set_pending None w.1, w.2) ∧
     r = Error ("MOVED - key belongs to shard " +:+ pretty owner)) ∨
  (moved k w.1 = None ∧ role s ≠ Leader ∧ w' = (set_pending None w.1, w.2) ∧ r = NOTLEADER) ∨
  (moved k w.1 = None ∧ role s = Leader ∧ r = ok ∧
     l_entries (rs_log s') = l_entries (rs_log s) ++ [mkEntry (current_term s) cmd] ∧
     current_term s' = current_term s ∧ role s' = Leader ∧
     cn_pending_commit_index w'.1 = Some (vec_len (l_entries (rs_log s)))).
Proof.
  intros Hc Hrun s s' Hrouter. rewrite (handle_write _ _ _ _ _ Hc) in Hrun.
  destruct (moved k w.1) as [r0|] eqn:Hm.
  - left. simplify_eq. unfold moved in Hm.
    destruct (cn_router w.1) as [router|]; [|done]. destruct Hrouter as [Hreach Hring].
    destruct (key_belongs_to_shard router k (cn_shard_id w.1)) eqn:Hk; [done|].
    destruct (ring_lookup_owns _ k (rtw_ring _ (router_reachable_wf _ Hreach)) Hring)
      as (p & owner & _ & Ho).
    exists router, owner. unfold get_shard_id in *. rewrite Ho in Hm. simplify_eq. split_and!; try done.
    intros ->. by apply (key_belongs_get_shard_id router k) in Ho; congruence.
  - right. destruct (replicate_write_outcome _ _ _ _ _ Hrun) as [(? & ? & ?)|(? & Hl & ? & ? & ? & ?)].
    + by left.
    + right. by split_and!.
Qed.

(** ** Witnesses *)

Fixpoint ticks `{Build, StateCodec} (n : nat) : proc CW unit :=
  match n with
  | O => mret tt
  | S n => cluster_tick ;; ticks n
  end.

(** A node started on an empty disk, after [n] ticks. *)
Definition booted (ps : list N) (n : nat) : outcome CW :=
  match @cluster_new release_build _ 1%N ps "/d" fresh_fs with
  | (Done (Ok c), fs) =>
      match @ticks release_build _ n (c, fs) with
      | (Done tt, w) => Done w
      | (Halted, _) => Halted
      end
  | _ => Halted
  end.

Definition dummy_world : CW :=
  (mkCluster (node_new 1 []) (mkEngine (mkWal "" "") memtable_new "") [] None 1 None, fresh_fs).

Definition solo_world : CW :=
  match booted [1%N] 60 with Done w => w | Halted => dummy_world end.

Definition solo_commands : list Command := [Set_ "k" "v"; Get "k"; Del "k"; Get "k"].

Lemma solo_world_ok : @solo_ok release_build "/d/storage" [] solo_world.
Proof.
  split; try (vm_compute; (reflexivity || discriminate)).
  - split; [constructor|vm_compute; reflexivity..| |vm_compute; reflexivity].
    right. split; vm_compute; reflexivity.
  - intros p Hp. vm_compute in Hp. injection Hp as <-. vm_compute. discriminate.
Qed.



Definition solo_write : outcome Response * CW :=
  @handle_client_command release_build _ (Set_ "k" "v") solo_world.

Lemma write_admission_witness :
  let s := rn_state (cn_raft solo_world.1) in
  let s' := rn_state (cn_raft solo_write.2.1) in
  (∃ router owner, cn_router solo_world.1 = Some router ∧ get_shard_id router "k" = Some owner ∧
     owner ≠ cn_shard_id solo_world.1 ∧ solo_write.2 = (set_pending None solo_world.1, solo_world.2) ∧
     SimpleString "OK" = Error ("MOVED - key belongs to shard " +:+ pretty owner)) ∨
  (moved "k" solo_world.1 = None ∧ role s ≠ Leader ∧
     solo_write.2 = (set_pending None solo_world.1, solo_world.2) ∧ SimpleString "OK" = NOTLEADER) ∨
  (moved "k" solo_world.1 = None ∧ role s = Leader ∧ SimpleString "OK" = SimpleString "OK" ∧
     l_entries (rs_log s') = l_entries (rs_log s) ++ [mkEntry (current_term s) (Put "k" "v")] ∧
     current_term s' = current_term s ∧ role s' = Leader ∧
     cn_pending_commit_index solo_write.2.1 = Some (vec_len (l_entries (rs_log s)))).
Proof.
  apply (@write_admission release_build _ (Set_ "k" "v") "k" (Put "k" "v") (SimpleString "OK")
    solo_world (SimpleString "OK") solo_write.2).
  - reflexivity.
  - vm_compute. reflexivity.
  - vm_compute. exact I.
Defined.
