(* ===== verification/Transport.v ===== *)
(** * The peer transport (src/transport.rs)

    Messages travel as one line of JSON each.  [serde_json] is a third-party
    crate: its functions on [NetworkMessage] are the class [NetCodec], what the
    program relies on is [NetCodecLaws].  Connecting and writing happen in a
    thread per message and may fail silently: [send_messages] returns what is
    handed to these threads, and whether a line arrives is up to the network. *)

From stdpp Require Import countable.
From Stdlib Require Import Ascii.
From S2P Require Import Prelude Text Fs Log State Message Persist Codec Node Memtable Wal.
From S2P Require Import Engine Router Protocol Cluster.

Inductive NetworkMessage : Type :=
| NRequestVote (from : N) (request : RequestVoteRequest)
| NRequestVoteResponse (from : N) (response : RequestVoteResponse)
| NAppendEntries (from : N) (request : AppendEntriesRequest)
| NAppendEntriesResponse (from : N) (response : AppendEntriesResponse).

#[export] Instance NetworkMessage_eq_dec : EqDecision NetworkMessage.
Proof. solve_decision. Defined.

Record NodeConfig : Type := mkNodeConfig {
  nc_id : N;
  nc_client_port : N;
  nc_peer_port : N;
}.

Record PeerTransport : Type := mkTransport {
  pt_node_id : N;
  peer_addresses : gmap N string;
}.

Class NetCodec : Type := {
  net_to_string : NetworkMessage → option string;
  net_from_str : string → option NetworkMessage;
}.

Class NetCodecLaws `{NetCodec} : Prop := {
  net_total : ∀ m, ∃ s, net_to_string m = Some s;
  net_round_trip : ∀ m s, net_to_string m = Some s → net_from_str s = Some m;
  net_one_line : ∀ m s, net_to_string m = Some s →
    s ≠ "" ∧ str_mem LF s = false ∧ ends_with CR s = false;
}.

(** ** Construction *)

(** [env] is [std::env::var]. *)
Definition peer_host (env : string → option string) (id : N) : string :=
  default "127.0.0.1" (env ("PEER_HOST_" +:+ pretty id)).

Definition transport_new (env : string → option string) (node_id : N) (all_nodes : list NodeConfig) :
  PeerTransport :=
  mkTransport node_id
    (foldl (λ m c, if bool_decide (nc_id c ≠ node_id)
                   then <[nc_id c := peer_host env (nc_id c) +:+ ":" +:+ pretty (nc_peer_port c)]> m
                   else m) ∅ all_nodes).

Definition from_addresses (node_id : N) (addresses : gmap N string) : PeerTransport :=
  mkTransport node_id addresses.

(** ** Sending *)

Definition network_message (from : N) (payload : MessagePayload) : NetworkMessage :=
  match payload with
  | PRequestVote r => NRequestVote from r
  | PRequestVoteResponse r => NRequestVoteResponse from r
  | PAppendEntries r => NAppendEntries from r
  | PAppendEntriesResponse r => NAppendEntriesResponse from r
  end.

(** Address and bytes of each send; unknown receivers and messages that cannot
    be serialised are skipped. *)
Definition send_messages `{NetCodec} (t : PeerTransport) (messages : list PeerMessage) :
  list (string * string) :=
  omap (λ msg,
    addr ← peer_addresses t !! pm_to msg;
    json ← net_to_string (network_message (pt_node_id t) (pm_payload msg));
    Some (addr, json +:+ String LF "")) messages.

(** ** Receiving *)

Definition network_input (msg : NetworkMessage) : RaftInput :=
  match msg with
  | NRequestVote _ request => InRequestVote request
  | NRequestVoteResponse from response => InRequestVoteResponse from response
  | NAppendEntries _ request => InAppendEntries request
  | NAppendEntriesResponse from response => InAppendEntriesResponse from response
  end.

Definition dispatch_message `{Build, StateCodec} (msg : NetworkMessage) : proc CW unit :=
  actions ← on_raft (match msg with
                     | NRequestVote _ request => handle_request_vote request
                     | NRequestVoteResponse from response => handle_request_vote_response from response
                     | NAppendEntries _ request => handle_append_entries request
                     | NAppendEntriesResponse from response => handle_append_entries_response from response
                     end);
  process_actions actions.

(** One line of a connection: skip it if it is empty or does not parse, else
    dispatch and drain under the lock and send what was queued. *)
Definition receive_line `{Build, StateCodec, NetCodec} (t : PeerTransport) (line : string) :
  proc CW (list (string * string)) :=
  if bool_decide (line = "") then mret [] else
  match net_from_str line with
  | None => mret []
  | Some msg =>
      dispatch_message msg ;;
      outbound ← take_outbound_messages;
      mret (if bool_decide (outbound = []) then [] else send_messages t outbound)
  end.

(** One connection, its lines in order; [None] is a read error or timeout. *)
Fixpoint receive_connection `{Build, StateCodec, NetCodec} (t : PeerTransport)
  (ls : list (option string)) : proc CW (list (string * string)) :=
  match ls with
  | [] | None :: _ => mret []
  | Some line :: ls =>
      sent ← receive_line t line;
      rest ← receive_connection t ls;
      mret (sent ++ rest)
  end.

(** ** A codec that satisfies the laws *)

#[export] Instance RV_countable : Countable RequestVoteRequest.
Proof.
  refine (inj_countable' (λ r, (rv_term r, rv_candidate_id r, rv_last_log_index r, rv_last_log_term r))
    (λ x, mkRV x.1.1.1 x.1.1.2 x.1.2 x.2) _). by intros [].
Defined.
#[export] Instance RVR_countable : Countable RequestVoteResponse.
Proof.
  refine (inj_countable' (λ r, (rvr_term r, rvr_vote_granted r)) (λ x, mkRVR x.1 x.2) _). by intros [].
Defined.
#[export] Instance AE_countable : Countable AppendEntriesRequest.
Proof.
  refine (inj_countable'
    (λ r, (ae_term r, ae_leader_id r, ae_prev_log_index r, ae_prev_log_term r, ae_entries r,
           ae_leader_commit r))
    (λ x, mkAE x.1.1.1.1.1 x.1.1.1.1.2 x.1.1.1.2 x.1.1.2 x.1.2 x.2) _). by intros [].
Defined.
#[export] Instance AER_countable : Countable AppendEntriesResponse.
Proof.
  refine (inj_countable' (λ r, (aer_term r, aer_success r, aer_match_index r))
    (λ x, mkAER x.1.1 x.1.2 x.2) _). by intros [].
Defined.
#[export] Instance NetworkMessage_countable : Countable NetworkMessage.
Proof.
  refine (inj_countable'
    (λ m, match m with
          | NRequestVote f r => inl (inl (f, r)) | NRequestVoteResponse f r => inl (inr (f, r))
          | NAppendEntries f r => inr (inl (f, r)) | NAppendEntriesResponse f r => inr (inr (f, r))
          end)
    (λ x, match x with
          | inl (inl (f, r)) => NRequestVote f r | inl (inr (f, r)) => NRequestVoteResponse f r
          | inr (inl (f, r)) => NAppendEntries f r | inr (inr (f, r)) => NAppendEntriesResponse f r
          end) _). by intros [].
Defined.

#[export] Instance binary_net_codec : NetCodec := {
  net_to_string m := Some (String "1" (bits_of_pos (encode m)));
  net_from_str s := pos_of_bits (str_tail s) ≫= decode;
}.

Lemma bits_clean p : str_mem LF (bits_of_pos p) = false ∧ str_mem CR (bits_of_pos p) = false.
Proof. by induction p. Qed.

Lemma ends_with_mem c s : ends_with c s = true → str_mem c s = true.
Proof.
  induction s as [|x s IH]; [done|]. destruct s; simpl in *.
  - intros ->. done.
  - intros Hs. by rewrite (IH Hs), orb_true_r.
Qed.

#[export] Instance binary_net_codec_laws : NetCodecLaws.
Proof.
  split; simpl.
  - eauto.
  - intros m s [= <-]. simpl. rewrite pos_of_bits_of_pos. simpl. by rewrite decode_encode.
  - intros m s [= <-]. destruct (bits_clean (encode m)) as [H1 H2]. split_and!; [done|done|].
    apply not_true_iff_false. intros Hc%ends_with_mem. simpl in Hc. congruence.
Qed.

(** ** Properties *)

Definition peer_address (env : string → option string) (c : NodeConfig) : string :=
  peer_host env (nc_id c) +:+ ":" +:+ pretty (nc_peer_port c).

(** The table of addresses: one for every configured node but this one. *)
Lemma transport_new_lookup env me nodes j :
  NoDup (nc_id <$> nodes) →
  peer_addresses (transport_new env me nodes) !! j =
  if bool_decide (j = me) then None
  else peer_address env <$> (snd <$> list_find (λ c, nc_id c = j) nodes).
Proof.
  unfold transport_new. cbn [peer_addresses].
  assert (∀ m : gmap N string, NoDup (nc_id <$> nodes) →
    foldl (λ m c, if bool_decide (nc_id c ≠ me)
                  then <[nc_id c := peer_host env (nc_id c) +:+ ":" +:+ pretty (nc_peer_port c)]> m
                  else m) m nodes !! j =
    if bool_decide (j = me) then m !! j
    else match snd <$> list_find (λ c, nc_id c = j) nodes with
         | Some c => Some (peer_address env c) | None => m !! j end) as Hm.
  2:{ intros Hnd. rewrite Hm by done. rewrite lookup_empty. case_bool_decide; [done|].
      by destruct (list_find _ nodes) as [[]|]. }
  induction nodes as [|c nodes IH]; intros m Hnd; simpl; [by case_bool_decide|].
  apply NoDup_cons in Hnd as [Hc Hnd]. rewrite IH by done. clear IH.
  destruct (decide (j = me)) as [->|Hj];
    [rewrite (bool_decide_true (me = me)) by done|rewrite (bool_decide_false (j = me)) by done].
  - case_bool_decide; [by rewrite lookup_insert_ne|done].
  - destruct (decide (nc_id c = j)) as [<-|Hne]; simpl.
    + destruct (list_find (λ c', nc_id c' = nc_id c) nodes) as [[i c']|] eqn:Hf; simpl.
      * apply list_find_Some in Hf as (Hl & E & _). exfalso. apply Hc. rewrite <-E.
        by eapply list_elem_of_fmap_2, list_elem_of_lookup_2.
      * by rewrite bool_decide_true, lookup_insert_eq.
    + destruct (list_find _ nodes) as [[i c']|]; simpl; [done|].
      case_bool_decide; [by rewrite lookup_insert_ne|done].
Qed.

(** What the receiver of a payload from node [from] has to do: hand it to the
    handler of its kind, apply what was committed, and send what was queued. *)
Definition hears `{Build, StateCodec, NetCodec} (t : PeerTransport) (from : N) (payload : MessagePayload) :
  proc CW (list (string * string)) :=
  actions ← on_raft (match payload with
                     | PRequestVote request => handle_request_vote request
                     | PRequestVoteResponse response => handle_request_vote_response from response
                     | PAppendEntries request => handle_append_entries request
                     | PAppendEntriesResponse response => handle_append_entries_response from response
                     end);
  process_actions actions ;;
  outbound ← take_outbound_messages;
  mret (send_messages t outbound).

Lemma receive_sent `{Build, StateCodec} `{NetCodecLaws} t from payload json w :
  net_to_string (network_message from payload) = Some json →
  receive_connection t (Some <$> lines (json +:+ String LF "")) w = hears t from payload w.
Proof.
  intros Hj. destruct (net_one_line _ _ Hj) as (Hne & Hlf & Hcr).
  rewrite lines_cons, strip_cr_no_cr by done. simpl. unfold receive_line.
  rewrite bool_decide_false by done. rewrite (net_round_trip _ _ Hj).
  unfold hears, dispatch_message, mbind, proc_bind.
  destruct payload; simpl; (destruct (on_raft _ w) as [[actions|] w1]; [|done]);
    (destruct (process_actions actions w1) as [[[]|] w2]; [|done]); unfold mret, proc_ret;
    rewrite app_nil_r; (case_bool_decide as Ho; [by rewrite Ho|done]).
Qed.

(** C37: what is sent is what the peer handles.  A node with the transport built
    from the cluster's configuration sends its queued messages: there is exactly
    one connection for each message to a configured node other than itself, in the
    order of the queue, to the host and port of its receiver; and when the receiver
    reads that connection to its end, it runs the handler of that kind of message
    on exactly the payload that was queued, with the sender's id where the handler
    takes one, and sends what this queues in turn. *)
Theorem wire_round_trip `{Build, StateCodec} `{NetCodecLaws} env me nodes t' msgs :
  NoDup (nc_id <$> nodes) →
  Forall2 (λ msg sent, ∃ c, c ∈ nodes ∧ nc_id c = pm_to msg ∧
      sent.1 = peer_host env (nc_id c) +:+ ":" +:+ pretty (nc_peer_port c) ∧
      ∀ w, receive_connection t' (Some <$> lines sent.2) w = hears t' me (pm_payload msg) w)
    (filter (λ msg, pm_to msg ≠ me ∧ pm_to msg ∈ nc_id <$> nodes) msgs)
    (send_messages (transport_new env me nodes) msgs).
Proof.
  intros Hnd. induction msgs as [|msg msgs IH]; [constructor|].
  unfold send_messages. cbn [omap list_omap]. rewrite transport_new_lookup by done.
  fold (send_messages (transport_new env me nodes) msgs).
  rewrite filter_cons. case_decide as Hto.
  - destruct Hto as [Hme Hin]. rewrite bool_decide_false by done.
    destruct (list_find (λ c, nc_id c = pm_to msg) nodes) as [[i c]|] eqn:Hf.
    2:{ apply list_find_None in Hf. apply list_elem_of_fmap in Hin as (c & E & Hc).
        rewrite Forall_forall in Hf. by destruct (Hf c Hc). }
    apply list_find_Some in Hf as (Hl & E & _). simpl.
    destruct (net_total (network_message me (pm_payload msg))) as [json Hj].
    unfold transport_new at 1. cbn [pt_node_id]. rewrite Hj. constructor; [|done].
    exists c. split_and!; [by eapply list_elem_of_lookup_2|done|done|].
    intros w. by apply receive_sent.
  - case_bool_decide as Hme; [exact IH|].
    destruct (list_find (λ c, nc_id c = pm_to msg) nodes) as [[i c]|] eqn:Hf; [|exact IH].
    apply list_find_Some in Hf as (Hl & E & _). destruct Hto. split; [done|]. rewrite <-E.
    by eapply list_elem_of_fmap_2, list_elem_of_lookup_2.
Qed.

Definition sample_nodes : list NodeConfig := [mkNodeConfig 1 6379 7001; mkNodeConfig 2 6380 7002].

Definition sample_transport : PeerTransport := transport_new (λ _, None) 2 sample_nodes.

Definition sample_reply : PeerMessage := mkMsg 2 (PRequestVoteResponse (mkRVR 3 true)).

Lemma wire_round_trip_witness :
  Forall2 (λ msg sent, ∃ c, c ∈ sample_nodes ∧ nc_id c = pm_to msg ∧
      sent.1 = peer_host (λ _, None) (nc_id c) +:+ ":" +:+ pretty (nc_peer_port c) ∧
      ∀ w, @receive_connection release_build _ _ sample_transport (Some <$> lines sent.2) w
           = @hears release_build _ _ sample_transport 1 (pm_payload msg) w)
    [sample_reply]
    (send_messages (transport_new (λ _, None) 1 sample_nodes) [sample_reply]).
Proof.
  apply (@wire_round_trip release_build _ _ _ (λ _, None) 1 sample_nodes sample_transport [sample_reply]).
  apply (bool_decide_unpack _). vm_compute. exact I.
Defined.
