(* ===== verification/Server.v ===== *)
(** * The client server (src/network/server.rs)

    One connection is the sequence of lines [BufRead::lines] yields on it
    ([None]: a read error).  [read_request] is the part of the loop of
    [handle_client] that consumes lines; [serve_request] is the part that runs
    the command under the lock, hands the messages to the transport and waits
    for the commit. *)

From Stdlib Require Import Ascii.
From S2P Require Import Prelude Text Fs Log State Message Persist Codec Node Commit.
From S2P Require Import Durability Memtable Wal Engine Router Protocol Cluster ClusterProps.
From S2P Require Import Transport.

(** ** Reading a request *)

(** [for _ in 0..num_args]: returns [parse_failed], the arguments and the lines
    that are left. *)
Fixpoint read_args (num_args : N) (ls : list (option string)) :
  bool * list string * list (option string) :=
  if bool_decide (num_args = 0%N) then (false, [], ls) else
  match ls with
  | Some len_line :: ls =>
      if starts_with "$" len_line then
        match ls with
        | Some data :: ls =>
            let '(failed, args, rest) := read_args (num_args - 1) ls in
            (failed, data :: args, rest)
        | None :: ls => (true, [], ls)
        | [] => (true, [], [])
        end
      else (true, [], ls)
  | None :: ls => (true, [], ls)
  | [] => (true, [], [])
  end.

(** A wrong number of arguments falls through to [Unknown]. *)
Definition server_command `{Unicode} (args : list string) : Command :=
  let command_name := to_uppercase (default "" (head args)) in
  match args with
  | [_; key] =>
      if bool_decide (command_name = "GET") then Get key
      else if bool_decide (command_name = "DEL") then Del key
      else if bool_decide (command_name = "PING") then Ping
      else Unknown command_name
  | [_; key; value] =>
      if bool_decide (command_name = "SET") then Set_ key value
      else if bool_decide (command_name = "PING") then Ping
      else Unknown command_name
  | _ => if bool_decide (command_name = "PING") then Ping else Unknown command_name
  end.

(** One turn of the loop: the connection ends, a protocol error is answered, or
    there is a command to run; with the lines that are left. *)
Inductive request : Type :=
| Closed
| Malformed (r : Response) (rest : list (option string))
| Request (c : Command) (rest : list (option string)).

Definition read_request `{Unicode} (ls : list (option string)) : request :=
  match ls with
  | [] | None :: _ => Closed
  | Some first_line :: ls =>
      if starts_with "*" first_line then
        match parse_usize (str_tail first_line) with
        | None => Malformed (Error "invalid argument count") ls
        | Some num_args =>
            let '(parse_failed, args, rest) := read_args num_args ls in
            if parse_failed || bool_decide (args = [])
            then Malformed (Error "protocol parse error") rest
            else Request (server_command args) rest
        end
      else Malformed (Error "invalid protocol") ls
  end.

(** ** Serving a request *)

(** The section under the lock. *)
Definition run_command `{Build, StateCodec} (c : Command) :
  proc CW (Response * option N * list PeerMessage) :=
  resp ← handle_client_command c;
  pending ← cluster_get cn_pending_commit_index;
  messages ← take_outbound_messages;
  mret (resp, pending, messages).

(** [await_commit]: [polls] are the commit indices read at the successive turns
    of the loop; the deadline passes after the last one. *)
Definition TIMEOUT : Response :=
  Error "TIMEOUT - entry appended but not committed by a majority".

Fixpoint await_commit (index : N) (ok : Response) (polls : list N) : Response :=
  match polls with
  | [] => TIMEOUT
  | commit_index :: polls =>
      if bool_decide (index ≤ commit_index)%N then ok else await_commit index ok polls
  end.

Definition final_response (resp : Response) (pending : option N) (polls : list N) : Response :=
  match pending with
  | Some index => await_commit index resp polls
  | None => resp
  end.

(** ** Lemmas *)

Lemma await_commit_ok index ok polls :
  await_commit index ok polls = ok →
  ok = TIMEOUT ∨ ∃ c, c ∈ polls ∧ (index ≤ c)%N.
Proof.
  induction polls as [|c polls IH]; simpl; [by left|].
  case_bool_decide; [intros _; right; exists c; split; [left|done]|].
  intros [?|(d & ? & ?)]%IH; [by left|]. right. exists d. split; [by right|done].
Qed.

Lemma read_args_parse n : ∀ ls args,
  parse_args n ls = Some args → ∃ rest, read_args n (Some <$> ls) = (false, args, rest).
Proof.
  intros ls. remember (length ls) as k eqn:Hk. revert n ls Hk.
  induction (lt_wf k) as [k _ IH]. intros n ls -> args.
  destruct ls as [|l [|d ls]]; rewrite ?fmap_cons, ?fmap_nil; cbn [parse_args read_args].
  - case_bool_decide; intros; simplify_eq; eauto.
  - case_bool_decide; [intros; simplify_eq; eauto|]. by destruct (starts_with _ l).
  - case_bool_decide; [intros; simplify_eq; eauto|]. destruct (starts_with "$" l); [|done].
    destruct (parse_args (n - 1) ls) as [args'|] eqn:E; simpl; [|done]. intros [= <-].
    destruct (IH (length ls) ltac:(simpl; lia) _ _ eq_refl _ E) as [rest Hrest].
    exists rest. by rewrite Hrest.
Qed.

Lemma server_command_of_args `{Unicode} args c :
  command_of_args args = Some c → server_command args = c ∧ args ≠ [].
Proof.
  destruct args as [|name args]; [done|]. simpl. intros Hc. split; [|done].
  unfold server_command. simpl.
  repeat case_bool_decide; destruct args as [|x [|y [|z args]]]; simplify_eq; try done; congruence.
Qed.

Lemma moved_error k c r : moved k c = Some r → ∃ msg, r = Error msg.
Proof.
  unfold moved. destruct (cn_router c); [|done]. case_match; [done|]. intros [= <-]. eauto.
Qed.

Lemma write_reply c k cmd ok :
  command_write c = Some (k, cmd, ok) → (∀ msg, Error msg ≠ ok) ∧ ok ≠ TIMEOUT.
Proof. destruct c; simpl; intros; by simplify_eq. Qed.

(** A write that is answered with its success reply was appended at the pending
    index. *)
Lemma write_appended `{Build, StateCodec} c k cmd ok w pending messages w' :
  command_write c = Some (k, cmd, ok) →
  run_command c w = (Done (ok, pending, messages), w') →
  ∃ index, pending = Some index ∧
    log_get (rs_log (rn_state (cn_raft w'.1))) index
      = Some (mkEntry (current_term (rn_state (cn_raft w.1))) cmd).
Proof.
  intros Hc Hrun. destruct (write_reply c k cmd ok Hc) as [Hne _]. unfold run_command in Hrun.
  apply bind_inv in Hrun as [(r & w1 & Hcmd & Hrun)|[_ ?]]; [|done].
  unfold cluster_get, take_outbound_messages, cluster_mod in Hrun.
  rewrite bind_gets, bind_assoc in Hrun. unfold cluster_get in Hrun.
  rewrite bind_gets, bind_assoc, bind_modify in Hrun. unfold mbind, proc_bind, mret, proc_ret in Hrun.
  simpl in Hrun. simplify_eq. simpl. rewrite (handle_write _ _ _ _ _ Hc) in Hcmd.
  destruct (moved k w.1) as [r0|] eqn:Hm.
  { destruct (moved_error _ _ _ Hm) as [msg ->]. injection Hcmd as E _. by destruct (Hne msg). }
  destruct (replicate_write_outcome _ _ _ _ _ Hcmd) as [(_ & _ & E)|(_ & _ & Hlog & _ & _ & Hp)].
  { exact (False_ind _ (Hne _ (eq_sym E))). }
  eexists. split; [exact Hp|]. rewrite log_get_lookup, Hlog. unfold vec_len.
  rewrite Nat2N.id. by rewrite list_lookup_middle.
Qed.

(** ** Properties *)

(** C38: the server understands what [Command::parse] understands.  The server
    reads requests from the stream with code of its own; on any input that
    [Command::parse] accepts as a command, it runs exactly that command. *)
Theorem server_agrees_with_parse `{Unicode} input c :
  command_parse input = Some c →
  ∃ rest, read_request (Some <$> lines input) = Request c rest.
Proof.
  unfold command_parse. destruct (lines input) as [|first_line ls]; [done|].
  rewrite fmap_cons. cbn [read_request].
  destruct (starts_with "*" first_line) eqn:Hs; [|done].
  destruct (parse_usize _) as [n|] eqn:Hn; simpl; [|done].
  destruct (parse_args n ls) as [args|] eqn:Ha; simpl; [|done].
  intros [Hc Hne]%server_command_of_args.
  destruct (read_args_parse n ls args Ha) as [rest Hr]. exists rest.
  rewrite Hr. rewrite bool_decide_false by done. simpl. by rewrite Hc.
Qed.

(** a write is acknowledged only after its index is committed.  If the final
    reply to a SET or DEL is its success reply, then the command was appended to
    the leader's log at the pending index and a later poll found the commit
    index at or beyond it. *)
Theorem acknowledged_after_commit `{Build, StateCodec} c k cmd ok w resp pending messages w' polls :
  command_write c = Some (k, cmd, ok) →
  run_command c w = (Done (resp, pending, messages), w') →
  final_response resp pending polls = ok →
  ∃ index commit, pending = Some index ∧ commit ∈ polls ∧ (index ≤ commit)%N ∧
    log_get (rs_log (rn_state (cn_raft w'.1))) index
      = Some (mkEntry (current_term (rn_state (cn_raft w.1))) cmd).
Proof.
  intros Hc Hrun Hfin. destruct (write_reply c k cmd ok Hc) as [_ Hto].
  assert (resp = ok) as ->.
  { unfold final_response in Hfin. destruct pending; [|done].
    clear Hrun. induction polls; simpl in Hfin; [by rewrite <-Hfin in Hto|]. case_bool_decide; auto. }
  destruct (write_appended _ _ _ _ _ _ _ _ Hc Hrun) as (index & -> & Hlog). simpl in Hfin.
  destruct (await_commit_ok _ _ _ Hfin) as [|(ci & Hin & Hle)]; [done|]. eauto 10.
Qed.

(** ** Witnesses *)

Lemma server_agrees_with_parse_witness :
  ∃ rest, @read_request ascii_only (Some <$> lines (encode_request ["set"; "k"; "v"]))
          = Request (Set_ "k" "v") rest.
Proof.
  apply (@server_agrees_with_parse ascii_only (encode_request ["set"; "k"; "v"]) (Set_ "k" "v")).
  vm_compute. reflexivity.
Defined.

Definition solo_request : outcome (Response * option N * list PeerMessage) * CW :=
  @run_command release_build _ (Set_ "k" "v") solo_world.

Lemma acknowledged_after_commit_witness :
  ∃ index commit, Some 1%N = Some index ∧ commit ∈ [0; 1]%N ∧ (index ≤ commit)%N ∧
    log_get (rs_log (rn_state (cn_raft solo_request.2.1))) index
      = Some (mkEntry (current_term (rn_state (cn_raft solo_world.1))) (Put "k" "v")).
Proof.
  apply (@acknowledged_after_commit release_build _ (Set_ "k" "v") "k" (Put "k" "v") (SimpleString "OK")
    solo_world (SimpleString "OK") (Some 1%N) [] solo_request.2 [0; 1]%N).
  - reflexivity.
  - vm_compute. reflexivity.
  - reflexivity.
Defined.

(** ** Where the acknowledgement ends *)

(** Node 1 of three times out, is elected by node 2, takes [SET k v], and then
    hears from a leader of the next term that has committed another entry at the
    same index. *)
Definition overtaken : proc CW (Response * option N * N) :=
  @dispatch_message release_build _ (NRequestVoteResponse 2 (mkRVR 1 true)) ;;
  r ← @run_command release_build _ (Set_ "k" "v");
  @dispatch_message release_build _
    (NAppendEntries 2 (mkAE 2 2 0 0 [mkEntry 2 (Put "k" "other")] 1)) ;;
  commit ← cluster_get (λ c, commit_index (rn_state (cn_raft c)));
  mret (r.1, commit).

Definition candidate_world : CW :=
  match booted [1; 2; 3]%N 59 with Done w => w | Halted => dummy_world end.

(** C27: an acknowledged write can be lost when leadership changes.  [await_commit]
    looks at the commit index only, not at the entry: when another leader
    replaces the entry at the pending index and commits there, the client of the
    deposed leader is told OK, although its write is in no log and the store
    holds another value. *)
Theorem overtaken_write_is_acknowledged :
  let run := overtaken candidate_world in
  ∃ resp pending commit,
    run.1 = Done (resp, pending, commit) ∧
    final_response resp pending [commit] = SimpleString "OK" ∧
    l_entries (rs_log (rn_state (cn_raft run.2.1))) = [sentinel; mkEntry 2 (Put "k" "other")] ∧
    engine_get (cn_storage run.2.1) "k" = Some "other".
Proof.
  exists (SimpleString "OK"), (Some 1%N), 1%N. cbv zeta. split_and!; vm_compute; reflexivity.
Qed.
