(* ===== verification/Election.v ===== *)
(** * Elections, seen from one node

    What every handler of src/raft/node.rs preserves about roles and votes: a
    candidate or leader has voted for itself, the votes it has counted were cast
    for it in its term, a leader has counted a majority, and a granted vote in a
    reply is the vote the node holds when it replies. *)

From S2P Require Import Prelude Text Fs Log State Message Persist Node Commit Durability.
From S2P Require Import Codec BTree Memtable Wal Engine Ring Router Protocol Cluster.
From S2P Require Import ClusterProps.

(** A ballot [B v t c]: node [v] has voted for [c] in term [t]. *)
Definition ballot_box : Type := N → N → N → Prop.

Record electoral (B : ballot_box) (n : RaftNode) : Prop := {
  el_self : role (rn_state n) ≠ Follower → voted_for (rn_state n) = Some (rs_id (rn_state n));
  el_votes : role (rn_state n) ≠ Follower → ∀ v, v ∈ votes_received n →
    v = rs_id (rn_state n) ∨ B v (current_term (rn_state n)) (rs_id (rn_state n));
  el_majority : role (rn_state n) = Leader → (majority_count (rn_state n) ≤ votes_count n)%N;
}.

(** A granted vote that arrives was cast. *)
Definition input_ok (B : ballot_box) (id : N) (i : RaftInput) : Prop :=
  match i with
  | InRequestVoteResponse from response =>
      rvr_vote_granted response = true → B from (rvr_term response) id
  | _ => True
  end.

(** A granted vote that leaves is the vote the node holds. *)
Definition grants_ok (n : RaftNode) (actions : list Action) : Prop :=
  ∀ to t, SendRequestVoteResponse to (mkRVR t true) ∈ actions →
    current_term (rn_state n) = t ∧ voted_for (rn_state n) = Some to.

Definition no_grants (actions : list Action) : Prop :=
  ∀ to r, SendRequestVoteResponse to r ∉ actions.

(** ** What [electoral] depends on *)

Definition electoral_view (n : RaftNode) : NodeRole * option N * N * N * list N * gset N :=
  (role (rn_state n), voted_for (rn_state n), current_term (rn_state n), rs_id (rn_state n),
   peers (rn_state n), votes_received n).

Lemma electoral_ext B n n' : electoral_view n' = electoral_view n → electoral B n → electoral B n'.
Proof.
  unfold electoral_view. intros Hv [H1 H2 H3]. injection Hv as E1 E2 E3 E4 E5 E6.
  split; unfold votes_count, majority_count in *; rewrite ?E1, ?E2, ?E3, ?E4, ?E5, ?E6; done.
Qed.

Lemma electoral_follower B n : role (rn_state n) = Follower → electoral B n.
Proof. intros Hr. split; rewrite Hr; done. Qed.

Lemma electoral_mono (B B' : ballot_box) n :
  (∀ v t c, B v t c → B' v t c) → electoral B n → electoral B' n.
Proof. intros HB [H1 H2 H3]. split; [done| |done]. intros Hr v Hv. destruct (H2 Hr v Hv); auto. Qed.

Lemma no_grants_nil : no_grants [].
Proof. intros ? ?. apply not_elem_of_nil. Qed.

Lemma no_grants_app a b : no_grants a → no_grants b → no_grants (a ++ b).
Proof. intros Ha Hb to r [?|?]%elem_of_app; [by eapply Ha|by eapply Hb]. Qed.

Lemma no_grants_ok n actions : no_grants actions → grants_ok n actions.
Proof. intros Hn to t Hin. by destruct (Hn _ _ Hin). Qed.

Lemma no_grants_replicate s : no_grants (replicate_to_all_peers s).
Proof.
  intros to r Hin. unfold replicate_to_all_peers in Hin.
  apply list_elem_of_omap in Hin as (p & _ & Hp). case_bool_decide; [done|].
  unfold replicate_to_peer in Hp. destruct (snd <$> list_find _ _) as [[]|]; simpl in Hp; by simplify_eq.
Qed.

Lemma no_grants_vote_requests s : no_grants (vote_requests s).
Proof.
  intros to r Hin. unfold vote_requests in Hin.
  apply list_elem_of_omap in Hin as (p & _ & Hp). case_bool_decide; by simplify_eq.
Qed.

Lemma no_grants_applied l a b : no_grants (applied_actions l a b).
Proof.
  intros to r Hin. unfold applied_actions in Hin.
  apply list_elem_of_bind in Hin as (i & Hin & _). unfold apply_action in Hin.
  repeat case_match; try (by apply not_elem_of_nil in Hin);
    by apply list_elem_of_singleton in Hin.
Qed.

Section handlers.
Context `{Build, StateCodec} (B : ballot_box).

(** [persist] leaves the node as it is. *)
Lemma wp_persist w (Q : unit → RW → Prop) :
  (∀ fs, Q tt (w.1, fs)) → wp persist w Q (λ _, True).
Proof.
  intros HQ. eapply wp_mono; [apply persist_same_node| |done]. intros [] [n fs] E.
  unfold same_node in E. simpl in E. subst. apply HQ.
Qed.

(** What every handler establishes. *)
Definition elects (actions : list Action) (w : RW) : Prop :=
  electoral B w.1 ∧ grants_ok w.1 actions.

Lemma elects_follower w actions :
  role (rn_state w.1) = Follower → no_grants actions → elects actions w.
Proof. intros. split; [by apply electoral_follower|by apply no_grants_ok]. Qed.

(** Winning keeps the votes and needs a majority of them. *)
Lemma win_election_elects w :
  electoral B w.1 → role (rn_state w.1) ≠ Follower →
  (majority_count (rn_state w.1) ≤ votes_count w.1)%N →
  wp win_election w elects (λ _, True).
Proof.
  intros [H1 H2 H3] Hr Hm. unfold win_election. node_step. node_step. node_step. node_step. node_step.
  split; [|apply no_grants_ok, no_grants_replicate].
  split; simpl; [by intros _; apply H1|by intros _; apply H2|by intros _; apply Hm].
Qed.

Lemma start_election_elects w : wp start_election w elects (λ _, True).
Proof.
  unfold start_election, become_candidate. unfold on_state. wp_step. wp_step. wp_step. wp_step. wp_step.
  apply wp_add_u64; [|done]. node_step. node_step. node_step. node_step. node_step. node_step.
  node_step. node_step. node_step. node_step. node_step. node_step.
  apply wp_persist. intros fs. node_step. node_step.
  assert (∀ n : RaftNode, role (rn_state n) = Candidate → voted_for (rn_state n) = Some (rs_id (rn_state n)) →
    votes_received n = {[ rs_id (rn_state n) ]} → electoral B n) as Hel.
  { intros n Hr Hv Hs. split; [done| |congruence].
    intros _ v. rewrite Hs. intros ->%elem_of_singleton. by left. }
  node_step.
  - apply bool_decide_eq_true in Heqb. apply win_election_elects; [by apply Hel|done|done].
  - node_step. split; [by apply Hel|]. apply no_grants_ok, no_grants_vote_requests.
Qed.

Lemma tick_elects w : electoral B w.1 → wp tick w elects (λ _, True).
Proof.
  intros Hel. unfold tick. node_step. node_step.
  assert (wp tick_election w elects (λ _, True)) as Helect.
  { unfold tick_election. node_step. node_step.
    assert (∀ w', electoral B w'.1 → wp
      (t ← node_get election_timeout; if bool_decide (0 < t)%N then mret [] else start_election) w'
      elects (λ _, True)) as Hrest.
    { intros w' Hel'. node_step. node_step. node_step; [|apply start_election_elects].
      node_step. split; [done|apply no_grants_ok, no_grants_nil]. }
    node_step. node_step; [node_step|]; apply Hrest; [|done]. by eapply electoral_ext; [|exact Hel]. }
  destruct (role (rn_state w.1)); [done|done|].
  unfold tick_heartbeat. node_step. node_step.
  assert (∀ w', electoral B w'.1 → wp
    (t ← node_get heartbeat_timeout;
     if bool_decide (0 < t)%N then mret [] else
       node_mod (set_heartbeat_timeout HEARTBEAT_INTERVAL) ;; state_get send_heartbeats) w'
    elects (λ _, True)) as Hrest.
  { intros w' Hel'. node_step. node_step. node_step.
    - node_step. split; [done|apply no_grants_ok, no_grants_nil].
    - node_step. node_step. node_step. split; [by eapply electoral_ext; [|exact Hel']|].
      apply no_grants_ok, no_grants_replicate. }
  node_step. node_step; [node_step|]; apply Hrest; [|done]. by eapply electoral_ext; [|exact Hel].
Qed.

(** A vote is granted to one candidate only; a candidate or leader only ever
    confirms its own. *)
Lemma handle_request_vote_elects request w :
  electoral B w.1 → wp (handle_request_vote request) w elects (λ _, True).
Proof.
  intros Hel. unfold handle_request_vote. node_step. node_step. node_step.
  { node_step. split; [done|]. intros to t ?%list_elem_of_singleton. by simplify_eq. }
  assert (∀ w' : RW, electoral B w'.1 → wp
    (vote_granted ← state_get (λ s, can_vote s (rv_candidate_id request) && candidate_up_to_date s request);
     when vote_granted
       (state_mod (set_voted_for (Some (rv_candidate_id request))) ;;
        node_mod reset_election_timeout ;; persist) ;;
     term ← state_get current_term;
     mret [SendRequestVoteResponse (rv_candidate_id request)
             {| rvr_term := term; rvr_vote_granted := vote_granted |}]) w'
    elects (λ _, True)) as Hrest.
  { intros w' Hel'. node_step. node_step. node_step. apply wp_when; intros Hg.
    - node_step. node_step. node_step. node_step. apply wp_persist. intros fs. simpl.
      node_step. node_step. node_step. simpl. split.
      + apply andb_true_iff in Hg as [Hcan _]. destruct Hel' as [H1 H2 H3].
        split; simpl; [|done|done]. intros Hr. unfold can_vote in Hcan. rewrite (H1 Hr) in Hcan.
        apply bool_decide_eq_true in Hcan. congruence.
      + intros to t Hin%list_elem_of_singleton. simplify_eq. done.
    - node_step. node_step. node_step. split; [done|].
      intros to t Hin%list_elem_of_singleton. simplify_eq. congruence. }
  node_step. apply wp_when; intros Ht; [|by apply Hrest].
  node_step. node_step. apply wp_persist. intros fs. apply Hrest. by apply electoral_follower.
Qed.

Lemma handle_request_vote_response_elects from response w :
  electoral B w.1 →
  (rvr_vote_granted response = true → B from (rvr_term response) (rs_id (rn_state w.1))) →
  wp (handle_request_vote_response from response) w elects (λ _, True).
Proof.
  intros Hel HB. unfold handle_request_vote_response. node_step. node_step.
  assert (elects [] w) as Hsame by (split; [done|apply no_grants_ok, no_grants_nil]).
  node_step; [by node_step|]. apply bool_decide_eq_false in Heqb.
  assert (role (rn_state w.1) = Candidate) as Hrole by (by apply dec_stable).
  node_step. node_step. node_step.
  { node_step. node_step. node_step. apply wp_persist. intros fs. node_step.
    apply elects_follower; [done|apply no_grants_nil]. }
  node_step; [by node_step|]. apply bool_decide_eq_false in Heqb1.
  assert (rvr_term response = current_term (rn_state w.1)) as Hterm by (by apply dec_stable).
  assert (∀ w', electoral B w'.1 → role (rn_state w'.1) ≠ Follower → wp
    (won ← node_get (λ n, bool_decide (majority_count (rn_state n) ≤ votes_count n)%N);
     if won : bool then win_election else mret []) w' elects (λ _, True)) as Hrest.
  { intros w' Hel' Hr'. node_step. node_step. node_step.
    - apply bool_decide_eq_true in Heqb2. by apply win_election_elects.
    - node_step. split; [done|apply no_grants_ok, no_grants_nil]. }
  node_step. node_step; [node_step|]; (apply Hrest; [|simpl; congruence]); [|done].
  destruct Hel as [H1 H2 H3]. split; simpl; [done| |congruence].
  intros Hr v [->%elem_of_singleton|Hv]%elem_of_union; [|by apply H2].
  right. rewrite <-Hterm. by apply HB.
Qed.

(** Handlers of the replication part do not touch what [electoral] looks at. *)
Definition same_view : relation RW := λ w w', electoral_view w'.1 = electoral_view w.1.

#[export] Instance same_view_preorder : PreOrder same_view.
Proof. split; [done|]. intros a b c Hab Hbc. unfold same_view in *. congruence. Qed.

Lemma persist_same_view : keeps same_view persist.
Proof.
  intros w. eapply wp_mono; [apply persist_same_node|..]; intros; unfold same_view, same_node in *;
    congruence.
Qed.

Lemma append_new_entries_same_view request : keeps same_view (append_new_entries request).
Proof.
  unfold append_new_entries. node_unfold. keeps_auto; try by apply keeps_modify.
  apply persist_same_view.
Qed.

Lemma update_first_same_view from f v :
  (∀ x, keeps same_view (f x)) → keeps same_view (update_first (W := RW) from f v).
Proof.
  intros Hf. induction v as [|[id x] v IH]; simpl; [by keeps_step|]. keeps_step.
  - keeps_step; [apply Hf|by keeps_step].
  - keeps_step; [apply IH|by keeps_step].
Qed.

Lemma update_next_index_same_view from f :
  (∀ x, keeps same_view (f x)) → keeps same_view (update_next_index from f).
Proof.
  intros Hf. unfold update_next_index. node_unfold. keeps_step; [by keeps_step|].
  keeps_step; [by apply update_first_same_view|]. by apply keeps_modify.
Qed.

Lemma update_match_index_same_view from f :
  (∀ x, keeps same_view (f x)) → keeps same_view (update_match_index from f).
Proof.
  intros Hf. unfold update_match_index. node_unfold. keeps_step; [by keeps_step|].
  keeps_step; [by apply update_first_same_view|]. by apply keeps_modify.
Qed.

(** Commit and apply: same view, and no votes among the actions. *)
Lemma apply_committed_entries_view c w :
  wp (apply_committed_entries c) w (λ actions w', same_view w w' ∧ no_grants actions) (λ _, True).
Proof.
  unfold wp. rewrite apply_committed_entries_run. split; [done|apply no_grants_applied].
Qed.

Lemma maybe_advance_view w :
  wp maybe_advance_commit_index w (λ actions w', same_view w w' ∧ no_grants actions) (λ _, True).
Proof.
  unfold wp. pose proof (maybe_advance_run w) as Hrun. cbv zeta in Hrun. rewrite Hrun.
  case_bool_decide; (split; [done|]); [apply no_grants_applied|apply no_grants_nil].
Qed.

Lemma wp_view {A} (m : proc RW A) w (Q : A → RW → Prop) :
  keeps same_view m → (∀ a w', same_view w w' → Q a w') → wp m w Q (λ _, True).
Proof. intros Hm HQ. eapply wp_mono; [apply Hm|done|done]. Qed.

Lemma handle_append_entries_elects request w :
  electoral B w.1 → wp (handle_append_entries request) w elects (λ _, True).
Proof.
  intros Hel. unfold handle_append_entries. node_step. node_step. node_step.
  { node_step. split; [done|]. by intros to t ?%list_elem_of_singleton. }
  node_step. node_step. node_step. node_step. node_step. node_step. node_step.
  apply wp_persist. intros fs. node_step. node_step. cbn [fst].
  assert (∀ w' : RW, electoral_view w'.1 =
    electoral_view (reset_election_timeout (update_state (set_leader_id (Some (ae_leader_id request)))
      (update_state (become_follower (ae_term request)) w.1))) → role (rn_state w'.1) = Follower) as Hf.
  { intros w' Hv. by injection Hv as -> _. }
  node_step.
  { node_step. node_step. node_step. node_step. node_step.
    apply elects_follower; [done|]. by intros to r ?%list_elem_of_singleton. }
  node_step. apply wp_view; [apply append_new_entries_same_view|]. intros [] w1 H1.
  node_step. node_step. node_step.
  assert (∀ applied w2, same_view w1 w2 → no_grants applied → wp
    (term ← state_get current_term; last ← state_get (λ s, last_index (rs_log s));
     mret (applied ++ [SendAppendEntriesResponse (ae_leader_id request)
       {| aer_term := term; aer_success := true; aer_match_index := Some last |}])) w2
    elects (λ _, True)) as Hrest.
  { intros applied w2 H2 Hn. node_step. node_step. node_step. node_step. node_step.
    apply elects_follower; [apply Hf; etrans; [exact H2|exact H1]|].
    apply no_grants_app; [done|]. by intros to r ?%list_elem_of_singleton. }
  node_step; [|node_step; apply (Hrest [] w1); [done|apply no_grants_nil]].
  node_step. node_step. eapply wp_mono; [apply apply_committed_entries_view| |done].
  intros applied w2 [H2 Hn]. by apply Hrest.
Qed.

Lemma handle_append_entries_response_elects from response w :
  electoral B w.1 → wp (handle_append_entries_response from response) w elects (λ _, True).
Proof.
  intros Hel. unfold handle_append_entries_response. node_step. node_step. node_step.
  { node_step. split; [done|apply no_grants_ok, no_grants_nil]. }
  node_step. node_step. node_step.
  { node_step. node_step. node_step. apply wp_persist. intros fs. node_step.
    apply elects_follower; [done|apply no_grants_nil]. }
  node_step; node_step.
  - apply wp_view.
    + destruct (aer_match_index response); [|by keeps_step].
      keeps_step; [apply update_match_index_same_view|apply update_next_index_same_view];
        intros; by keeps_step.
    + intros [] w1 H1. eapply wp_mono; [apply maybe_advance_view| |done].
      intros actions w2 [H2 Hn]. split; [|by apply no_grants_ok].
      eapply electoral_ext; [|exact Hel]. unfold same_view in *. congruence.
  - apply wp_view.
    + destruct (aer_match_index response); apply update_next_index_same_view; intros; by keeps_step.
    + intros [] w1 H1. node_step. split; [|apply no_grants_ok, no_grants_nil].
      eapply electoral_ext; [|exact Hel]. done.
Qed.

Lemma propose_elects command w :
  electoral B w.1 → wp (propose command) w (λ o, elects (default [] o)) (λ _, True).
Proof.
  intros Hel. unfold propose. node_step. node_step. node_step.
  { node_step. split; [done|apply no_grants_ok, no_grants_nil]. }
  node_step. node_step. node_step. apply wp_persist. intros fs. node_step. node_step. node_step.
  eapply wp_mono; [apply maybe_advance_view| |done]. intros actions w2 [H2 Hn]. node_step.
  split; [by eapply electoral_ext; [exact H2|by eapply electoral_ext; [|exact Hel]]|].
  apply no_grants_ok, no_grants_app; [apply no_grants_replicate|done].
Qed.

Lemma handle_input_elects i w :
  electoral B w.1 → input_ok B (rs_id (rn_state w.1)) i →
  wp (handle_input i) w elects (λ _, True).
Proof.
  intros Hel Hi. destruct i; simpl in *.
  - by apply tick_elects.
  - by apply handle_request_vote_elects.
  - by apply handle_request_vote_response_elects.
  - by apply handle_append_entries_elects.
  - by apply handle_append_entries_response_elects.
  - wp_step. eapply wp_mono; [by apply propose_elects| |done]. intros o w' Hw. by wp_step.
Qed.

End handlers.
