(* ===== verification/Replication.v ===== *)
(** * Log replication (src/raft/node.rs)

    [handle_append_entries] as a function on logs: the scan, the truncation and
    the append together are [merge_entries], a plain recursion on the two lists
    of entries.  From it: what a follower's log is after an accepted request,
    that repeated and outdated requests do not shorten it, and what the leader
    learns from the reply. *)

From S2P Require Import Prelude Text Fs Log State Message Persist Codec Node Commit.
From S2P Require Import Durability BTree Memtable Wal Engine Ring Router Protocol Cluster.
From S2P Require Import ClusterProps Election.

(** Keep what has the same term, replace from the first difference on. *)
Fixpoint merge_entries (old new : list LogEntry) : list LogEntry :=
  match new, old with
  | [], _ => old
  | _, [] => new
  | n :: new', o :: old' =>
      if bool_decide (e_term o = e_term n) then o :: merge_entries old' new' else n :: new'
  end.

(** The log a follower holds after accepting a request. *)
Definition merged_log (l : RaftLog) (request : AppendEntriesRequest) : list LogEntry :=
  let start := N.to_nat (ae_prev_log_index request + 1) in
  take start (l_entries l) ++ merge_entries (drop start (l_entries l)) (ae_entries request).

(** The consistency check, for a request whose previous entry the follower has. *)
Record accepts (s : RaftState) (request : AppendEntriesRequest) : Prop := {
  ac_term : (current_term s ≤ ae_term request)%N;
  ac_prev : (ae_prev_log_index request ≤ last_index (rs_log s))%N;
  ac_prev_term : term_at (rs_log s) (ae_prev_log_index request) = ae_prev_log_term request;
  ac_bound : (ae_prev_log_index request + 1 < u64_modulus)%N;
}.

(** The Log Matching property of two logs: the same term at an index means the
    same entries up to it. *)
Definition logs_match (l l' : RaftLog) : Prop :=
  ∀ i e e', log_get l i = Some e → log_get l' i = Some e' → e_term e = e_term e' →
    agree_up_to i l l'.

(** ** The scan *)

Lemma merge_entries_nil old : merge_entries old [] = old.
Proof. by destruct old. Qed.

Lemma scan_entries_merge es : ∀ l i l' i',
  l_entries l ≠ [] → (i ≤ vec_len (l_entries l))%N →
  scan_entries l es i = (l', i') →
  (i ≤ i')%N ∧
  l_entries l' ++ drop (N.to_nat (i' - i)) es =
    take (N.to_nat i) (l_entries l) ++ merge_entries (drop (N.to_nat i) (l_entries l)) es.
Proof.
  induction es as [|e es IH]; intros l i l' i' Hne Hi Hs; simpl in Hs.
  - simplify_eq. split; [lia|]. by rewrite drop_nil, app_nil_r, merge_entries_nil, take_drop.
  - unfold vec_len in Hi. destruct (decide (i = vec_len (l_entries l))) as [->|Hlt].
    + rewrite term_at_lookup in Hs. unfold last_index, vec_len in *. rewrite Nat2N.id in Hs |- *.
      rewrite lookup_ge_None_2 in Hs by lia. simpl in Hs.
      assert (0 < length (l_entries l)) by (destruct (l_entries l); simpl; [done|lia]).
      rewrite bool_decide_true in Hs by lia.
      simpl in Hs. simplify_eq. split; [lia|]. rewrite N.sub_diag, (drop_ge (l_entries l')), take_ge by lia. done.
    + unfold vec_len in Hlt.
      destruct (lookup_lt_is_Some_2 (l_entries l) (N.to_nat i)) as [o Ho]; [lia|].
      assert (term_at l i = e_term o) as Ht by (by rewrite term_at_lookup, Ho). rewrite Ht in Hs.
      assert (bool_decide (e_term o = 0%N) && bool_decide (last_index l < i)%N = false) as Hc.
      { apply andb_false_iff. right. apply bool_decide_eq_false. unfold last_index, vec_len. lia. }
      rewrite Hc in Hs. rewrite (drop_S _ _ _ Ho).
      destruct (decide (e_term o = e_term e)) as [He|He].
      * rewrite bool_decide_false in Hs by auto.
        apply IH in Hs as [Hle Hs]; [|done|unfold vec_len; lia]. split; [lia|].
        replace (N.to_nat (i' - i)) with (S (N.to_nat (i' - (i + 1)))) by lia.
        replace (N.to_nat (i + 1)) with (S (N.to_nat i)) in Hs by lia.
        cbn [drop merge_entries]. rewrite Hs, (take_S_r _ _ _ Ho), <-app_assoc.
        by rewrite bool_decide_true.
      * rewrite bool_decide_true in Hs by done. simplify_eq. split; [lia|].
        rewrite N.sub_diag, truncate_from_take. cbn [drop merge_entries N.to_nat].
        by rewrite bool_decide_false.
Qed.

Section replication.
Context `{Build, StateCodec}.

(** The state of the node, apart from the log, is untouched. *)
Lemma append_new_entries_merges request w :
  l_entries (rs_log (rn_state w.1)) ≠ [] →
  (ae_prev_log_index request ≤ last_index (rs_log (rn_state w.1)))%N →
  (ae_prev_log_index request + 1 < u64_modulus)%N →
  wp (append_new_entries request) w
    (λ _ w', rn_state w'.1 =
       set_log (mkLog (merged_log (rs_log (rn_state w.1)) request)) (rn_state w.1))
    (λ _, True).
Proof.
  intros Hne Hprev Hb. unfold append_new_entries, merged_log. set (l := rs_log (rn_state w.1)) in *.
  assert (ae_prev_log_index request + 1 ≤ vec_len (l_entries l))%N as Hlen.
  { unfold last_index, vec_len in *. destruct (l_entries l); simpl in *; [done|lia]. }
  assert (∀ es, l_entries l = es → rn_state w.1 = set_log (mkLog es) (rn_state w.1)) as Hsame.
  { intros es <-. unfold l. destruct w as [[s ? ? ? ? ? ?] ?]; destruct s as [? ? ? ? [] ? ? ? ? ? ?]. done. }
  node_step.
  { apply bool_decide_eq_true in Heqb. node_step. apply Hsame. rewrite Heqb.
    by rewrite merge_entries_nil, take_drop. }
  set (start := (ae_prev_log_index request + 1)%N) in *.
  assert (add_u64 (W := RW) (ae_prev_log_index request) 1 = mret start) as Hadd.
  { unfold add_u64. by rewrite bool_decide_true. }
  rewrite Hadd. node_step. node_step. node_step. node_step. fold l.
  destruct (scan_entries l (ae_entries request) start) as [l' i'] eqn:Hscan. cbn [fst snd].
  destruct (scan_entries_merge _ _ _ _ _ Hne Hlen Hscan) as [Hle Hmerge]. rewrite <-Hmerge.
  node_step. node_step. node_step. node_step. node_step.
  apply wp_sub_u64; [|done]. intros z Hz. rewrite (Hz Hle). clear z Hz. node_step.
  apply wp_slice_from; [|done]. node_step.
  - apply bool_decide_eq_true in Heqb0. node_step. rewrite Heqb0, app_nil_r. by destruct l'.
  - node_step. node_step. apply wp_persist. intros fs. done.
Qed.

(** The whole handler, on a request it accepts. *)
Lemma append_entries_state request w actions w' :
  l_entries (rs_log (rn_state w.1)) ≠ [] → accepts (rn_state w.1) request →
  handle_append_entries request w = (Done actions, w') →
  let s' := rn_state w'.1 in
  l_entries (rs_log s') = merged_log (rs_log (rn_state w.1)) request ∧
  role s' = Follower ∧ current_term s' = ae_term request ∧
  leader_id s' = Some (ae_leader_id request) ∧
  last actions = Some (SendAppendEntriesResponse (ae_leader_id request)
    (mkAER (ae_term request) true (Some (last_index (rs_log s'))))).
Proof.
  intros Hne [Hterm Hprev Hpt Hb] Hrun.
  set (Q := λ (actions : list Action) (w' : RW), let s' := rn_state w'.1 in
    l_entries (rs_log s') = merged_log (rs_log (rn_state w.1)) request ∧
    role s' = Follower ∧ current_term s' = ae_term request ∧
    leader_id s' = Some (ae_leader_id request) ∧
    last actions = Some (SendAppendEntriesResponse (ae_leader_id request)
      (mkAER (ae_term request) true (Some (last_index (rs_log s')))))).
  enough (wp (handle_append_entries request) w Q (λ _, True)) as Hwp
    by (by apply (wp_run _ _ _ _ _ _ Hwp Hrun)).
  unfold handle_append_entries. node_step. node_step. rewrite bool_decide_false by lia.
  node_step. node_step. node_step. node_step. node_step. node_step. node_step.
  apply wp_persist. intros fs. node_step. node_step. cbn [fst].
  set (n1 := reset_election_timeout _) in *.
  assert (rn_state n1 = set_leader_id (Some (ae_leader_id request))
    (become_follower (ae_term request) (rn_state w.1))) as E1 by done.
  assert (rs_log (rn_state n1) = rs_log (rn_state w.1)) as El
    by (rewrite E1; simpl; by autorewrite with state).
  rewrite become_follower_log, bool_decide_false by auto. node_step.
  eapply wp_mono; [apply append_new_entries_merges; cbn [fst]; rewrite ?El; done| |done].
  cbn [fst]. rewrite El. intros [] w1 E2. node_step. node_step.
  set (s1 := set_log (mkLog (merged_log (rs_log (rn_state w.1)) request)) (rn_state n1)) in E2.
  assert (∀ applied (w2 : RW), rs_log (rn_state w2.1) = rs_log s1 → role (rn_state w2.1) = role s1 →
    current_term (rn_state w2.1) = current_term s1 → leader_id (rn_state w2.1) = leader_id s1 →
    wp (term ← state_get current_term; last ← state_get (λ s, last_index (rs_log s));
        mret (applied ++ [SendAppendEntriesResponse (ae_leader_id request)
          {| aer_term := term; aer_success := true; aer_match_index := Some last |}])) w2
      Q (λ _, True)) as Hrest.
  { intros applied w2 H1 H2 H3 H4. node_step. node_step. node_step. node_step. node_step.
    assert (current_term s1 = ae_term request) as Et.
    { unfold s1. simpl. rewrite become_follower_term. lia. }
    subst Q. cbv beta zeta. rewrite H1, H2, H3, H4, Et. split_and!; try done. by rewrite last_snoc. }
  node_step. node_step.
  - node_step. node_step. unfold wp at 1. rewrite apply_committed_entries_run.
    apply Hrest; simpl; by rewrite E2.
  - node_step. apply (Hrest [] w1); by rewrite E2.
Qed.

(** C15: an accepted AppendEntries merges the logs.  If a follower has the entry
    the request builds on, with the same term, then after the handler returns it
    is a follower in the request's term and its log is its old log up to that
    entry followed by [merge_entries] of the rest with the request's entries; the
    reply says success and reports the last index of the new log.  The index
    arithmetic of the scan, the truncation and the slice never go wrong. *)
Theorem append_entries_merges request w actions w' :
  l_entries (rs_log (rn_state w.1)) ≠ [] → accepts (rn_state w.1) request →
  handle_append_entries request w = (Done actions, w') →
  let s' := rn_state w'.1 in
  l_entries (rs_log s') = merged_log (rs_log (rn_state w.1)) request ∧
  role s' = Follower ∧ current_term s' = ae_term request ∧
  leader_id s' = Some (ae_leader_id request) ∧
  last actions = Some (SendAppendEntriesResponse (ae_leader_id request)
    (mkAER (ae_term request) true (Some (last_index (rs_log s'))))).
Proof. apply append_entries_state. Qed.

End replication.

(** ** What merging gives *)

(** Entries that differ in nothing but their term are replaced, the rest kept. *)
Lemma merge_entries_lookup new : ∀ old j,
  (∀ j o n, old !! j = Some o → new !! j = Some n → e_term o = e_term n → o = n) →
  j < length new → merge_entries old new !! j = new !! j.
Proof.
  induction new as [|n new IH]; intros old j Hm Hj; [simpl in Hj; lia|].
  destruct old as [|o old]; [done|]. cbn [merge_entries]. case_bool_decide as He; [|done].
  rewrite (Hm 0 o n eq_refl eq_refl He). destruct j as [|j]; [done|]. simpl in *.
  apply IH; [|lia]. intros j' o' n' Ho Hn. by apply (Hm (S j')).
Qed.

Lemma merge_entries_same new : ∀ old,
  (∀ j n, new !! j = Some n → ∃ o, old !! j = Some o ∧ e_term o = e_term n) →
  merge_entries old new = old.
Proof.
  induction new as [|n new IH]; intros old Hm; [by destruct old|].
  destruct (Hm 0 n eq_refl) as (o & Ho & He). destruct old as [|o' old]; [done|]. simpl in Ho.
  simplify_eq. cbn [merge_entries]. rewrite bool_decide_true by done. f_equal. apply IH.
  intros j n' Hn. by apply (Hm (S j)).
Qed.

Lemma lookup_of_prev l i :
  l_entries l ≠ [] → (i ≤ last_index l)%N → ∃ e, log_get l i = Some e ∧ term_at l i = e_term e.
Proof.
  intros Hne Hi. assert (0 < length (l_entries l)) by (destruct (l_entries l); simpl; [done|lia]).
  unfold last_index, vec_len in Hi.
  destruct (lookup_lt_is_Some_2 (l_entries l) (N.to_nat i)) as [e He]; [lia|].
  exists e. rewrite log_get_lookup, term_at_lookup, He. done.
Qed.

(** The merged log agrees with the leader's to the end of the leader's log. *)
Lemma merged_log_agrees L l request :
  logs_match L l → l_entries l ≠ [] → l_entries L ≠ [] →
  (ae_prev_log_index request ≤ last_index l)%N → (ae_prev_log_index request ≤ last_index L)%N →
  term_at l (ae_prev_log_index request) = term_at L (ae_prev_log_index request) →
  ae_entries request = entries_from L (ae_prev_log_index request + 1) →
  agree_up_to (last_index L) L (mkLog (merged_log l request)).
Proof.
  intros Hm Hl HL Hpl HpL Hterm Hes. unfold merged_log.
  set (p := ae_prev_log_index request) in *. rewrite Hes, entries_from_drop.
  destruct (lookup_of_prev l p Hl Hpl) as (e & He & Te).
  destruct (lookup_of_prev L p HL HpL) as (e' & He' & Te').
  assert (agree_up_to p L l) as Hagree by (apply (Hm p e' e); [done..|congruence]).
  assert (0 < length (l_entries l)) by (destruct (l_entries l); simpl; [done|lia]).
  assert (0 < length (l_entries L)) by (destruct (l_entries L); simpl; [done|lia]).
  intros j Hj. rewrite !log_get_lookup. simpl. unfold last_index, vec_len in *.
  destruct (decide (j ≤ p)%N) as [Hjp|Hjp].
  - rewrite lookup_app_l by (rewrite length_take; lia). rewrite lookup_take_lt by lia.
    specialize (Hagree j Hjp). by rewrite !log_get_lookup in Hagree.
  - rewrite lookup_app_r by (rewrite length_take; lia). rewrite length_take, Nat.min_l by lia.
    rewrite merge_entries_lookup.
    + rewrite lookup_drop. f_equal. lia.
    + intros k o n Ho Hn He2. rewrite lookup_drop in Ho, Hn.
      pose proof (Hm (N.of_nat (N.to_nat (p + 1) + k)) n o) as Hk.
      rewrite !log_get_lookup, Nat2N.id in Hk.
      specialize (Hk Hn Ho (eq_sym He2) _ (N.le_refl _)).
      rewrite !log_get_lookup, Nat2N.id in Hk. congruence.
    + rewrite length_drop. lia.
Qed.


(** repeated and outdated requests are harmless.  If the follower already has,
    at each index the request covers, an entry of the same term, then accepting
    the request leaves its log exactly as it is, entries beyond the request
    included. *)
Theorem stale_append_keeps_log `{Build, StateCodec} request w actions w' :
  let l := rs_log (rn_state w.1) in
  l_entries l ≠ [] → accepts (rn_state w.1) request →
  (∀ j e, ae_entries request !! j = Some e → ∃ o,
     log_get l (ae_prev_log_index request + 1 + N.of_nat j) = Some o ∧ e_term o = e_term e) →
  handle_append_entries request w = (Done actions, w') →
  rs_log (rn_state w'.1) = l.
Proof.
  intros l Hl Hacc Hcov Hrun.
  destruct (append_entries_state request w actions w' Hl Hacc Hrun) as [Hlog _].
  destruct (rs_log (rn_state w'.1)) as [es]. simpl in Hlog. subst es. unfold merged_log. fold l.
  rewrite merge_entries_same, take_drop; [by destruct l|].
  intros j e He. destruct (Hcov j e He) as (o & Ho & Hoe). exists o. split; [|done].
  rewrite lookup_drop. rewrite log_get_lookup in Ho. rewrite <-Ho. f_equal. lia.
Qed.

(** ** The rejection hint *)

(** A leader and a follower whose log ends at the entry the leader's next request
    builds on, with another term there. *)
Record stuck (sl sf : RaftState) (f : N) (request : AppendEntriesRequest) : Prop := {
  st_role : role sl = Leader;
  st_request : replicate_to_peer sl f = Some (SendAppendEntries f request);
  st_next : ∀ x, (f, x) ∈ next_index sl → (1 ≤ x)%N;
  st_terms : (current_term sf ≤ current_term sl)%N;
  st_end : last_index (rs_log sf) = ae_prev_log_index request;
  st_conflict : term_at (rs_log sf) (ae_prev_log_index request) ≠ ae_prev_log_term request;
  st_bound : (ae_prev_log_index request + 1 < u64_modulus)%N;
}.

Lemma update_first_same {W} f v k ni (g : N → proc W N) w :
  list_find (λ p, p.1 = f) v = Some (k, (f, ni)) → g ni w = (Done ni, w) →
  update_first f g v w = (Done v, w).
Proof.
  intros Hf Hg. revert k Hf. induction v as [|[id x] v IH]; intros k Hf; [done|].
  cbn [update_first]. simpl in Hf. case_decide as Hid.
  - simplify_eq. rewrite bool_decide_true by done. by rewrite (bind_done _ _ _ _ _ Hg).
  - destruct (list_find _ v) as [[k' x']|]; [|done]. simpl in Hf. simplify_eq.
    rewrite bool_decide_false by done. by rewrite (bind_done _ _ _ _ _ (IH _ eq_refl)).
Qed.

Section livelock.
Context `{Build, StateCodec}.

Lemma stuck_follower sl f request w actions w' :
  stuck sl (rn_state w.1) f request →
  handle_append_entries request w = (Done actions, w') →
  actions = [SendAppendEntriesResponse (rs_id sl)
               (mkAER (current_term sl) false (Some (ae_prev_log_index request)))] ∧
  rs_log (rn_state w'.1) = rs_log (rn_state w.1) ∧ current_term (rn_state w'.1) = current_term sl.
Proof.
  intros [Hr Hreq Hni Hterms Hend Hconf Hb] Hrun.
  assert (ae_term request = current_term sl ∧ ae_leader_id request = rs_id sl) as [Et Eid].
  { unfold replicate_to_peer in Hreq. destruct (snd <$> list_find _ _) as [[]|]; simpl in Hreq; by simplify_eq. }
  set (Q := λ (actions : list Action) (w' : RW),
    actions = [SendAppendEntriesResponse (rs_id sl)
               (mkAER (current_term sl) false (Some (ae_prev_log_index request)))] ∧
    rs_log (rn_state w'.1) = rs_log (rn_state w.1) ∧ current_term (rn_state w'.1) = current_term sl).
  enough (wp (handle_append_entries request) w Q (λ _, True)) as Hwp
    by (by apply (wp_run _ _ _ _ _ _ Hwp Hrun)).
  unfold handle_append_entries. node_step. node_step. rewrite bool_decide_false by lia.
  node_step. node_step. node_step. node_step. node_step. node_step. node_step.
  apply wp_persist. intros fs. node_step. node_step. cbn [fst].
  rewrite become_follower_log, bool_decide_true by done.
  node_step. node_step. node_step. node_step. node_step. unfold Q. simpl.
  rewrite become_follower_log, become_follower_term, Et, Eid, Hend, N.max_r by lia. done.
Qed.

Lemma stuck_leader sf f request w :
  stuck (rn_state w.1) sf f request →
  handle_append_entries_response f
    (mkAER (current_term (rn_state w.1)) false (Some (ae_prev_log_index request))) w = (Done [], w).
Proof.
  intros [Hr Hreq Hni Hterms Hend Hconf Hb].
  unfold replicate_to_peer in Hreq. destruct (list_find _ _) as [[k [f' ni]]|] eqn:Hf; [|done].
  pose proof Hf as Hf'. apply list_find_Some in Hf' as (Hk & Hfeq & _). simpl in Hfeq. subst f'.
  apply list_elem_of_lookup_2, Hni in Hk. simpl in Hreq.
  rewrite bool_decide_true in Hreq by lia. injection Hreq as <-. simpl in *.
  unfold handle_append_entries_response, state_get. rewrite bind_gets, Hr.
  rewrite bool_decide_false by auto. rewrite bind_gets.
  cbn [aer_term aer_success aer_match_index]. rewrite bool_decide_false by lia.
  unfold update_next_index, state_get, state_mod. rewrite bind_assoc, bind_gets, bind_assoc.
  rewrite (bind_done _ _ _ (next_index (rn_state w.1)) w).
  - rewrite bind_modify. destruct w as [[s ? ? ? ? ? ?] fs]. by destruct s.
  - eapply update_first_same; [done|]. rewrite add_u64_ok by done. do 2 f_equal. lia.
Qed.

(** C26: a follower with a conflicting entry is never repaired.  On rejection the
    follower reports the end of its own log and the leader sets [next_index]
    right behind it, instead of moving back.  When the conflicting entry is the
    follower's last, a whole round (request, rejection, response) leaves the
    leader exactly as it was and the follower's log unchanged, and the leader's
    next request is the same again: the pair is stuck for as long as the term
    lasts. *)
Theorem conflicting_follower_is_never_repaired f request wl wf actions wf' :
  stuck (rn_state wl.1) (rn_state wf.1) f request →
  handle_append_entries request wf = (Done actions, wf') →
  ∃ response,
    actions = [SendAppendEntriesResponse (rs_id (rn_state wl.1)) response] ∧
    aer_success response = false ∧
    handle_append_entries_response f response wl = (Done [], wl) ∧
    rs_log (rn_state wf'.1) = rs_log (rn_state wf.1) ∧
    stuck (rn_state wl.1) (rn_state wf'.1) f request.
Proof.
  intros Hs Hrun. destruct (stuck_follower _ _ _ _ _ _ Hs Hrun) as (-> & Hlog & Hterm).
  eexists. split_and!; [done|done|by eapply stuck_leader|done|].
  destruct Hs. split; try done; rewrite ?Hlog, ?Hterm; done.
Qed.

End livelock.

(** ** Witnesses *)

Definition follower_world (id : N) (t : N) (es : list LogEntry) : RW :=
  (set_state (mkState id [1; 2; 3]%N t None (mkLog (sentinel :: es)) 0 0 [] [] Follower None)
     (node_new id [1; 2; 3]%N), fresh_fs).

Definition leader_world (t : N) (es : list LogEntry) (ni : N) : RW :=
  (set_state (mkState 1 [1; 2; 3]%N t (Some 1%N) (mkLog (sentinel :: es)) 0 0
     [(2, ni); (3, ni)]%N [(2, 0); (3, 0)]%N Leader (Some 1%N)) (node_new 1 [1; 2; 3]%N), fresh_fs).

Definition put (t : N) (v : string) : LogEntry := mkEntry t (Put "k" v).

(** The follower has a leftover of term 2 where the leader has term 3. *)
Definition sample_request : AppendEntriesRequest :=
  mkAE 3 1 1 1 [put 3 "x"; put 3 "y"] 0.

Definition sample_follower : RW := follower_world 2 2 [put 1 "a"; put 2 "old"].

Definition sample_append : outcome (list Action) * RW :=
  @handle_append_entries release_build _ sample_request sample_follower.

Lemma sample_accepts : accepts (rn_state sample_follower.1) sample_request.
Proof. split; vm_compute; (reflexivity || discriminate). Qed.

Lemma append_entries_merges_witness :
  l_entries (rs_log (rn_state sample_append.2.1)) = [sentinel; put 1 "a"; put 3 "x"; put 3 "y"].
Proof.
  apply (@append_entries_merges release_build _ sample_request sample_follower
    [SendAppendEntriesResponse 1 (mkAER 3 true (Some 3%N))] sample_append.2).
  - discriminate.
  - apply sample_accepts.
  - vm_compute. reflexivity.
Defined.

Definition sample_leader_state : RaftState :=
  rn_state (leader_world 3 [put 1 "a"; put 3 "x"; put 3 "y"] 2).1.


Definition stale_request : AppendEntriesRequest := mkAE 3 1 0 0 [put 1 "a"] 0.

Lemma stale_append_keeps_log_witness :
  rs_log (rn_state (@handle_append_entries release_build _ stale_request sample_follower).2.1)
  = rs_log (rn_state sample_follower.1).
Proof.
  apply (@stale_append_keeps_log release_build _ stale_request sample_follower
    [SendAppendEntriesResponse 1 (mkAER 3 true (Some 2%N))]).
  - discriminate.
  - split; vm_compute; (reflexivity || discriminate).
  - intros [|j] e He; [|by destruct j]. simpl in He. simplify_eq. eexists. split; vm_compute; reflexivity.
  - vm_compute. reflexivity.
Defined.

Definition stuck_leader_world : RW := leader_world 3 [put 1 "a"; put 3 "x"; put 3 "y"] 3.

Definition stuck_request : AppendEntriesRequest := mkAE 3 1 2 3 [put 3 "y"] 0.

Lemma conflicting_follower_is_never_repaired_witness :
  ∃ response,
    [SendAppendEntriesResponse 1 (mkAER 3 false (Some 2%N))]
      = [SendAppendEntriesResponse 1 response] ∧
    aer_success response = false ∧
    @handle_append_entries_response release_build _ 2 response stuck_leader_world
      = (Done [], stuck_leader_world) ∧
    rs_log (rn_state (@handle_append_entries release_build _ stuck_request sample_follower).2.1)
      = rs_log (rn_state sample_follower.1) ∧
    stuck (rn_state stuck_leader_world.1)
      (rn_state (@handle_append_entries release_build _ stuck_request sample_follower).2.1)
      2 stuck_request.
Proof.
  apply (@conflicting_follower_is_never_repaired release_build _ 2 stuck_request stuck_leader_world
    sample_follower [SendAppendEntriesResponse 1 (mkAER 3 false (Some 2%N))]
    (@handle_append_entries release_build _ stuck_request sample_follower).2).
  - split; try (vm_compute; (reflexivity || discriminate)).
    intros x Hx. apply elem_of_cons in Hx as [[= ->]|Hx]; [vm_compute; discriminate|].
    by apply list_elem_of_singleton in Hx.
  - vm_compute. reflexivity.
Defined.
