(* ===== verification/RaftSpec.v ===== *)
(** * The consensus node as a transition function

    [raft_next] is what a node does with an input, as a pure function on its
    state, the votes it has counted and the messages it returns: no disk, no
    timers, no monad.  [handlers_refine_raft_next] shows that the handlers of
    src/raft/node.rs compute exactly this function, whatever the disk does; that
    they return is shown in Returns.v.  [raft_next] shares the helpers of the
    program: it is the form in which the proofs about whole clusters use the
    handlers.  The specification that shares nothing with them is RaftRules.v. *)

From S2P Require Import Prelude Text Fs Log State Message Persist Codec Node Commit.
From S2P Require Import Durability BTree Memtable Wal Engine Ring Router Protocol Cluster.
From S2P Require Import ClusterProps Election Replication.

(** ** The transition function *)

Record rview : Type := mkView { v_state : RaftState; v_votes : gset N }.

Definition view (n : RaftNode) : rview := mkView (rn_state n) (votes_received n).

(** Standing for election. *)
Definition stand (s : RaftState) : RaftState :=
  set_leader_id None
    (set_voted_for (Some (rs_id s))
      (set_role Candidate (set_current_term (wrap64 (current_term s + 1)) s))).

Definition elected (s : RaftState) (votes : gset N) : bool :=
  bool_decide (majority_count s ≤ N.of_nat (size votes))%N.

(** Take office with a majority, otherwise go on as before. *)
Definition count_votes (s : RaftState) (votes : gset N) (otherwise : list Action) :
  rview * list Action :=
  if elected s votes
  then (mkView (become_leader s) votes, replicate_to_all_peers (become_leader s))
  else (mkView s votes, otherwise).

Definition campaign (s : RaftState) : rview * list Action :=
  count_votes (stand s) {[ rs_id s ]} (vote_requests (stand s)).

Definition meet_term (t : N) (s : RaftState) : RaftState :=
  if bool_decide (current_term s < t)%N then become_follower t s else s.

Definition grant_vote (s : RaftState) (request : RequestVoteRequest) : bool :=
  can_vote s (rv_candidate_id request) && candidate_up_to_date s request.

(** The log after a request that passes the consistency check. *)
Definition spec_append (l : RaftLog) (request : AppendEntriesRequest) : RaftLog :=
  let start := wrap64 (ae_prev_log_index request + 1) in
  let scan := scan_entries l (ae_entries request) start in
  if bool_decide (ae_entries request = []) then l
  else mkLog (l_entries scan.1 ++ drop (N.to_nat (scan.2 - start)) (ae_entries request)).

(** Following the leader's commit index. *)
Definition follow_commit (leader_commit : N) (s : RaftState) : RaftState * list Action :=
  let c := N.min leader_commit (last_index (rs_log s)) in
  if bool_decide (commit_index s < leader_commit)%N
  then (commit_to c s, applied_actions (rs_log s) (last_applied s + 1) c)
  else (s, []).

Definition advance_commit (s : RaftState) : RaftState * list Action :=
  let c := new_commit_index s in
  if bool_decide (commit_index s < c)%N
  then (commit_to c s, applied_actions (rs_log s) (last_applied s + 1) c)
  else (s, []).

Fixpoint assoc_update (from : N) (f : N → N) (v : list (N * N)) : list (N * N) :=
  match v with
  | [] => []
  | (id, x) :: v => if bool_decide (id = from) then (id, f x) :: v
                    else (id, x) :: assoc_update from f v
  end.

Definition learn_match (from m : N) (s : RaftState) : RaftState :=
  set_next_index (assoc_update from (λ _, wrap64 (m + 1)) (next_index s))
    (set_match_index (assoc_update from (λ _, m) (match_index s)) s).

Definition back_off (from : N) (hint : option N) (s : RaftState) : RaftState :=
  set_next_index
    (assoc_update from
      (λ ni, match hint with
             | Some m => wrap64 (m + 1)
             | None => if bool_decide (1 < ni)%N then (ni - 1)%N else ni
             end) (next_index s)) s.

Definition append_command (command : LogCommand) (s : RaftState) : RaftState :=
  set_log (log_append (rs_log s) (mkEntry (current_term s) command)).1 s.

Definition spec_append_entries (request : AppendEntriesRequest) (v : rview) : rview * list Action :=
  let s := v_state v in
  let leader := ae_leader_id request in
  if bool_decide (ae_term request < current_term s)%N then
    (v, [SendAppendEntriesResponse leader (mkAER (current_term s) false None)])
  else
    let s := set_leader_id (Some leader) (become_follower (ae_term request) s) in
    if bool_decide (term_at (rs_log s) (ae_prev_log_index request) ≠ ae_prev_log_term request) then
      (mkView s (v_votes v),
       [SendAppendEntriesResponse leader (mkAER (current_term s) false (Some (last_index (rs_log s))))])
    else
      let s := set_log (spec_append (rs_log s) request) s in
      let '(s, applied) := follow_commit (ae_leader_commit request) s in
      (mkView s (v_votes v),
       applied ++ [SendAppendEntriesResponse leader
                     (mkAER (current_term s) true (Some (last_index (rs_log s))))]).

Definition spec_append_entries_response (from : N) (response : AppendEntriesResponse) (v : rview) :
  rview * list Action :=
  let s := v_state v in
  if bool_decide (role s ≠ Leader) then (v, [])
  else if bool_decide (current_term s < aer_term response)%N then
    (mkView (become_follower (aer_term response) s) (v_votes v), [])
  else if aer_success response then
    let s := match aer_match_index response with Some m => learn_match from m s | None => s end in
    let '(s, applied) := advance_commit s in (mkView s (v_votes v), applied)
  else (mkView (back_off from (aer_match_index response) s) (v_votes v), []).

(** What a node does with an input; [fire] says whether the tick lets the running
    timer expire. *)
Definition raft_next (fire : bool) (i : RaftInput) (v : rview) : rview * list Action :=
  let s := v_state v in
  match i with
  | InTick =>
      if fire then
        match role s with
        | Leader => (v, replicate_to_all_peers s)
        | _ => campaign s
        end
      else (v, [])
  | InRequestVote request =>
      let reply t g := [SendRequestVoteResponse (rv_candidate_id request) (mkRVR t g)] in
      if bool_decide (rv_term request < current_term s)%N then (v, reply (current_term s) false)
      else
        let s := meet_term (rv_term request) s in
        let g := grant_vote s request in
        let s := if g then set_voted_for (Some (rv_candidate_id request)) s else s in
        (mkView s (v_votes v), reply (current_term s) g)
  | InRequestVoteResponse from response =>
      if bool_decide (role s ≠ Candidate) then (v, [])
      else if bool_decide (current_term s < rvr_term response)%N then
        (mkView (become_follower (rvr_term response) s) (v_votes v), [])
      else if bool_decide (rvr_term response ≠ current_term s) then (v, [])
      else count_votes s (if rvr_vote_granted response then {[ from ]} ∪ v_votes v else v_votes v) []
  | InAppendEntries request => spec_append_entries request v
  | InAppendEntriesResponse from response => spec_append_entries_response from response v
  | InPropose command =>
      if bool_decide (role s ≠ Leader) then (v, []) else
        let s := append_command command s in
        let '(s', applied) := advance_commit s in
        (mkView s' (v_votes v), replicate_to_all_peers s ++ applied)
  end.

(** Whether the next tick lets the running timer expire. *)
Definition timer_expires (n : RaftNode) : bool :=
  match role (rn_state n) with
  | Leader => bool_decide (heartbeat_timeout n ≤ 1)%N
  | _ => bool_decide (election_timeout n ≤ 1)%N
  end.

(** ** Refinement *)

Section refinement.
Context `{Build, StateCodec}.

Definition refines {A} (f : rview → rview * A) (m : proc RW A) : Prop :=
  ∀ w, wp m w (λ a w', f (view w.1) = (view w'.1, a)) (λ _, True).

(** A handler that ends by counting votes. *)
Lemma count_votes_refines (m : proc RW (list Action)) otherwise (w : RW) s votes :
  view w.1 = mkView s votes → m w = (Done otherwise, w) →
  wp (won ← node_get (λ n, bool_decide (majority_count (rn_state n) ≤ votes_count n)%N);
      if won : bool then win_election else m) w
    (λ a w', count_votes s votes otherwise = (view w'.1, a)) (λ _, True).
Proof.
  intros Hv Hm. injection Hv as <- <-. node_step. node_step. unfold count_votes, elected.
  fold (votes_count w.1). node_step; [|unfold wp; by rewrite Hm].
  unfold win_election. do 5 node_step. done.
Qed.

Lemma start_election_refines :
  refines (λ v, campaign (v_state v)) start_election.
Proof.
  intros w. unfold start_election, become_candidate, on_state. do 5 wp_step.
  apply wp_add_u64; [|done]. do 12 node_step. apply wp_persist. intros fs. cbn [fst snd].
  by apply count_votes_refines.
Qed.

(** A timer: it counts down, or what it guards runs. *)
Lemma tick_timer_refines {A} (get : RaftNode → N) (set : N → RaftNode → RaftNode)
  (f : rview → rview * A) (idle : A) (m : proc RW A) w :
  (∀ t n, view (set t n) = view n) → (∀ t n, get (set t n) = t) → refines f m →
  wp (t ← node_get get; when (bool_decide (0 < t)%N) (node_mod (set (t - 1)%N)) ;;
      t ← node_get get; if bool_decide (0 < t)%N then mret idle else m) w
    (λ a w', (if bool_decide (get w.1 ≤ 1)%N then f (view w.1) else (view w.1, idle)) = (view w'.1, a))
    (λ _, True).
Proof.
  intros Hset Hget Hm. node_step. node_step. node_step.
  assert (∀ w' : RW, view w'.1 = view w.1 → get w'.1 = (get w.1 - 1)%N →
    wp (t ← node_get get; if bool_decide (0 < t)%N then mret idle else m) w'
      (λ a w'', (if bool_decide (get w.1 ≤ 1)%N then f (view w.1) else (view w.1, idle)) = (view w''.1, a))
      (λ _, True)) as Hrest.
  { intros w' Hv Hg. node_step. node_step. rewrite Hg.
    destruct (decide (get w.1 ≤ 1)%N); [rewrite (bool_decide_true (_ ≤ _)%N), bool_decide_false by lia
      |rewrite (bool_decide_false (_ ≤ _)%N), bool_decide_true by lia].
    - rewrite <-Hv. apply Hm.
    - node_step. by rewrite Hv. }
  node_step; [node_step|]; apply Hrest; simpl; try done.
  - apply bool_decide_eq_false in Hwhen. lia.
Qed.

Lemma tick_refines w :
  wp tick w (λ a w', raft_next (timer_expires w.1) InTick (view w.1) = (view w'.1, a)) (λ _, True).
Proof.
  unfold tick, timer_expires. node_step. node_step. simpl.
  assert (wp tick_election w (λ a w', (if bool_decide (election_timeout w.1 ≤ 1)%N
    then campaign (rn_state w.1) else (view w.1, [])) = (view w'.1, a)) (λ _, True)) as Hel.
  { apply (tick_timer_refines election_timeout set_election_timeout (λ v, campaign (v_state v))
      [] start_election w); [done|done|]. apply start_election_refines. }
  destruct (role (rn_state w.1)); [done|done|].
  apply (tick_timer_refines heartbeat_timeout set_heartbeat_timeout
    (λ v, (v, replicate_to_all_peers (v_state v))) []
    (node_mod (set_heartbeat_timeout HEARTBEAT_INTERVAL) ;; state_get send_heartbeats) w); [done|done|].
  intros w1. by do 3 node_step.
Qed.

Lemma handle_request_vote_refines request :
  refines (raft_next false (InRequestVote request)) (handle_request_vote request).
Proof.
  intros w. unfold handle_request_vote. node_step. node_step. simpl. node_step; [by node_step|].
  set (s := rn_state w.1) in *.
  assert (∀ w1 : RW, view w1.1 = mkView (meet_term (rv_term request) s) (votes_received w.1) → wp
    (vote_granted ← state_get (λ s, can_vote s (rv_candidate_id request) && candidate_up_to_date s request);
     when vote_granted
       (state_mod (set_voted_for (Some (rv_candidate_id request))) ;;
        node_mod reset_election_timeout ;; persist) ;;
     term ← state_get current_term;
     mret [SendRequestVoteResponse (rv_candidate_id request)
             {| rvr_term := term; rvr_vote_granted := vote_granted |}]) w1
    (λ a w', (mkView (if grant_vote (meet_term (rv_term request) s) request
                      then set_voted_for (Some (rv_candidate_id request)) (meet_term (rv_term request) s)
                      else meet_term (rv_term request) s) (votes_received w.1),
              [SendRequestVoteResponse (rv_candidate_id request)
                (mkRVR (current_term (if grant_vote (meet_term (rv_term request) s) request
                      then set_voted_for (Some (rv_candidate_id request)) (meet_term (rv_term request) s)
                      else meet_term (rv_term request) s)) (grant_vote (meet_term (rv_term request) s) request))])
             = (view w'.1, a)) (λ _, True)) as Hrest.
  { intros w1 Hv. injection Hv as <- <-. node_step. node_step. fold (grant_vote (rn_state w1.1) request).
    destruct (grant_vote (rn_state w1.1) request); simpl.
    - do 5 node_step. apply wp_persist. intros fs. by do 3 node_step.
    - by do 4 node_step. }
  unfold meet_term in Hrest at 1. node_step. node_step.
  - rewrite Hwhen in Hrest. node_step. node_step. apply wp_persist. intros fs. by apply Hrest.
  - rewrite Hwhen in Hrest. by apply Hrest.
Qed.

Lemma handle_request_vote_response_refines from response :
  refines (raft_next false (InRequestVoteResponse from response))
    (handle_request_vote_response from response).
Proof.
  intros w. unfold handle_request_vote_response. node_step. node_step. simpl.
  node_step; [by node_step|]. node_step. node_step. node_step.
  { do 3 node_step. apply wp_persist. intros fs. by node_step. }
  node_step; [by node_step|]. node_step. destruct (rvr_vote_granted response); simpl.
  - node_step. by apply count_votes_refines.
  - node_step. by apply count_votes_refines.
Qed.

Lemma set_log_same s : set_log (rs_log s) s = s.
Proof. by destruct s. Qed.

Lemma append_new_entries_refines request w :
  wp (append_new_entries request) w
    (λ _ w', view w'.1 = mkView (set_log (spec_append (rs_log (rn_state w.1)) request) (rn_state w.1))
                           (votes_received w.1)) (λ _, True).
Proof.
  unfold append_new_entries, spec_append. wp_step.
  { wp_step. by rewrite set_log_same. }
  set (start := wrap64 (ae_prev_log_index request + 1)).
  wp_step. apply wp_add_u64; [|done]. node_step. node_step. fold start.
  destruct (scan_entries _ _ start) as [l' i'] eqn:Hs.
  apply scan_entries_spec in Hs as (k & -> & Hk & Hl'). cbn [fst snd]. node_step. node_step. wp_step.
  apply wp_add_u64; [|done]. fold start. wp_step. apply wp_sub_u64; [|done].
  intros z Hz. rewrite (Hz ltac:(lia)). clear z Hz. wp_step. apply wp_slice_from; [|done].
  wp_step.
  - apply bool_decide_eq_true in Heqb0. wp_step. rewrite Heqb0, app_nil_r. by destruct l'.
  - node_step. node_step. apply wp_persist. by intros fs.
Qed.

Lemma follow_commit_refines c w :
  wp (if bool_decide (commit_index (rn_state w.1) < c)%N then
        last ← state_get (λ s, last_index (rs_log s));
        apply_committed_entries (N.min c last)
      else mret []) w
    (λ acts w', (mkView (follow_commit c (rn_state w.1)).1 (votes_received w.1),
                 (follow_commit c (rn_state w.1)).2) = (view w'.1, acts)) (λ _, True).
Proof.
  unfold follow_commit. node_step; [|by node_step]. node_step. node_step. unfold wp. by rewrite apply_committed_entries_run.
Qed.

Lemma handle_append_entries_refines request :
  refines (raft_next false (InAppendEntries request)) (handle_append_entries request).
Proof.
  intros w. unfold handle_append_entries. node_step. node_step.
  unfold spec_append_entries. cbn [v_state view]. node_step; [by node_step|].
  do 7 node_step. apply wp_persist. intros fs. node_step. node_step. cbn [fst].
  set (s1 := set_leader_id _ _). node_step; [by do 5 node_step|]. node_step.
  eapply wp_mono; [apply append_new_entries_refines| |done]. cbn [fst]. fold s1.
  intros [] w1 Hv. injection Hv as E1 E2.
  node_step. node_step. node_step.
  eapply wp_mono; [apply follow_commit_refines| |done]. rewrite E1, E2.
  intros applied w2 Hv. change (set_log _ (set_leader_id _ _)) with
    (set_log (spec_append (rs_log s1) request) s1) in Hv.
  destruct (follow_commit _ _) as [s2 acts] in Hv |- *. injection Hv as -> E3 ->.
  do 5 node_step. unfold view. by rewrite <-E3.
Qed.

Lemma update_first_refines from f g v w :
  (∀ x, wp (f x) w (λ y w', y = g x ∧ w' = w) (λ _, True)) →
  wp (update_first (W := RW) from f v) w (λ v' w', v' = assoc_update from g v ∧ w' = w) (λ _, True).
Proof.
  intros Hf. induction v as [|[id x] v IH]; simpl; [by wp_step|].
  wp_step; wp_step; (eapply wp_mono; [apply Hf || apply IH| |done]);
    intros y w' [-> ->]; by wp_step.
Qed.

Lemma update_next_index_refines from f g w :
  (∀ x, wp (f x) w (λ y w', y = g x ∧ w' = w) (λ _, True)) →
  wp (update_next_index from f) w
    (λ _ w', w'.1 = update_state (λ s, set_next_index (assoc_update from g (next_index s)) s) w.1)
    (λ _, True).
Proof.
  intros Hf. unfold update_next_index. node_step. node_step. node_step.
  eapply wp_mono; [by apply update_first_refines| |done]. intros v w' [-> ->]. by node_step.
Qed.

Lemma update_match_index_refines from f g w :
  (∀ x, wp (f x) w (λ y w', y = g x ∧ w' = w) (λ _, True)) →
  wp (update_match_index from f) w
    (λ _ w', w'.1 = update_state (λ s, set_match_index (assoc_update from g (match_index s)) s) w.1)
    (λ _, True).
Proof.
  intros Hf. unfold update_match_index. node_step. node_step. node_step.
  eapply wp_mono; [by apply update_first_refines| |done]. intros v w' [-> ->]. by node_step.
Qed.

Lemma add_u64_refines m (w : RW) :
  wp (add_u64 m 1) w (λ y w', y = wrap64 (m + 1) ∧ w' = w) (λ _, True).
Proof. by apply wp_add_u64. Qed.

Lemma set_commit_index_same s : set_commit_index (commit_index s) s = s.
Proof. by destruct s. Qed.

Lemma maybe_advance_refines w :
  wp maybe_advance_commit_index w
    (λ acts w', (mkView (advance_commit (rn_state w.1)).1 (votes_received w.1),
                 (advance_commit (rn_state w.1)).2) = (view w'.1, acts)) (λ _, True).
Proof.
  unfold wp. pose proof (maybe_advance_run w) as Hrun. cbv zeta in Hrun. rewrite Hrun.
  unfold advance_commit. case_bool_decide as Hc; [done|]. simpl. unfold view. simpl. do 2 f_equal.
  pose proof (proj1 (new_commit_index_spec (rn_state w.1))). simpl in *.
  replace (new_commit_index (rn_state w.1)) with (commit_index (rn_state w.1)) by lia.
  by rewrite set_commit_index_same.
Qed.

Lemma handle_append_entries_response_refines from response :
  refines (raft_next false (InAppendEntriesResponse from response))
    (handle_append_entries_response from response).
Proof.
  intros w. unfold handle_append_entries_response. node_step. node_step.
  unfold spec_append_entries_response. cbn [v_state view]. node_step; [by node_step|].
  node_step. node_step. node_step.
  { do 3 node_step. apply wp_persist. intros fs. by node_step. }
  destruct (aer_success response); node_step.
  - assert (∀ w1 : RW, view w1.1 = mkView
      (match aer_match_index response with
       | Some m => learn_match from m (rn_state w.1) | None => rn_state w.1 end) (votes_received w.1) →
      wp maybe_advance_commit_index w1 (λ a w',
        (let '(s, applied) := advance_commit
           (match aer_match_index response with
            | Some m => learn_match from m (rn_state w.1) | None => rn_state w.1 end)
         in (mkView s (votes_received w.1), applied)) = (view w'.1, a)) (λ _, True)) as Hrest.
    { intros w1 Hv. injection Hv as <- <-. eapply wp_mono; [apply maybe_advance_refines| |done].
      intros acts w2. by destruct (advance_commit _). }
    revert Hrest. destruct (aer_match_index response) as [m|]; intros Hrest;
      [|node_step; by apply Hrest].
    node_step. eapply wp_mono; [by apply (update_match_index_refines _ _ (λ _, m))| |done].
    intros [] w1 E1. eapply wp_mono; [apply (update_next_index_refines _ _ (λ _, wrap64 (m + 1)))| |done].
    { intros x. apply add_u64_refines. }
    intros [] w2 E2. apply Hrest. by rewrite E2, E1.
  - assert (∀ f, (∀ x, wp (f x) w (λ y w', y = (match aer_match_index response with
             | Some m => wrap64 (m + 1)
             | None => if bool_decide (1 < x)%N then (x - 1)%N else x
             end) ∧ w' = w) (λ _, True)) →
      wp (update_next_index from f) w (λ _ w', view w'.1 =
        mkView (back_off from (aer_match_index response) (rn_state w.1)) (votes_received w.1))
        (λ _, True)) as Hback.
    { intros f Hf. eapply wp_mono; [by eapply (update_next_index_refines _ _ (λ x, _))| |done].
      by intros [] w1 ->. }
    revert Hback. destruct (aer_match_index response) as [m|]; intros Hback.
    + eapply wp_mono; [apply Hback; intros x; apply add_u64_refines| |done].
      intros [] w1 E1. node_step. by rewrite E1.
    + eapply wp_mono; [apply Hback; intros x; by wp_step| |done].
      intros [] w1 E1. node_step. by rewrite E1.
Qed.

Lemma propose_refines command w :
  wp (propose command) w
    (λ o w', raft_next false (InPropose command) (view w.1) = (view w'.1, default [] o)) (λ _, True).
Proof.
  unfold propose. node_step. node_step. simpl. node_step; [by node_step|].
  do 3 node_step. apply wp_persist. intros fs. do 3 node_step.
  eapply wp_mono; [apply maybe_advance_refines| |done]. cbn [fst]. intros acts w1 Hv. node_step.
  change (rn_state (update_state _ w.1)) with (append_command command (rn_state w.1)) in Hv.
  destruct (advance_commit _) as [s' applied]. injection Hv as E1 E2 ->. unfold view. simpl in *.
  by rewrite <-E1, <-E2.
Qed.

(** Every entry point computes its transition. *)
Lemma handle_input_next i w :
  wp (handle_input i) w
    (λ a w', raft_next (timer_expires w.1) i (view w.1) = (view w'.1, a)) (λ _, True).
Proof.
  destruct i; simpl handle_input; [apply tick_refines| | | | |].
  - apply handle_request_vote_refines.
  - apply handle_request_vote_response_refines.
  - apply handle_append_entries_refines.
  - apply handle_append_entries_response_refines.
  - wp_step. eapply wp_mono; [apply propose_refines| |done]. intros o w' Hw. by wp_step.
Qed.

End refinement.

(** The handlers implement the transition function.  Whatever the disk does
    (errors and torn writes included), an entry point of the node that returns has
    moved the state and the counted votes exactly as [raft_next] says and returns
    exactly its messages; a tick acts when the timer of the node's role expires. *)
Theorem handlers_refine_raft_next `{Build, StateCodec} i w actions w' :
  handle_input i w = (Done actions, w') →
  raft_next (timer_expires w.1) i (view w.1) = (view w'.1, actions).
Proof. intros Hrun. apply (wp_run _ _ _ _ _ _ (handle_input_next i w) Hrun). Qed.

Lemma handlers_refine_raft_next_witness :
  ∃ actions w', @handle_input release_build _ (InAppendEntries sample_request) sample_follower
      = (Done actions, w') ∧
    raft_next (timer_expires sample_follower.1) (InAppendEntries sample_request)
      (view sample_follower.1) = (view w'.1, actions).
Proof.
  destruct (@handle_input release_build _ (InAppendEntries sample_request) sample_follower)
    as [[actions|] w'] eqn:E; [|by vm_compute in E].
  exists actions, w'. split; [reflexivity|].
  exact (@handlers_refine_raft_next release_build _ _ _ _ _ E).
Defined.
