(* ===== verification/Transition.v ===== *)
(** * What one transition of a node does

    The facts about [raft_next] that the invariants of the cluster rest on: how a
    transition changes log, term and role, how a node comes to be candidate or
    leader, and what the messages it sends say about its state. *)

From S2P Require Import Prelude Text Fs Log State Message Persist Codec Node Commit.
From S2P Require Import Durability BTree Memtable Wal Engine Ring Router Protocol Cluster.
From S2P Require Import ClusterProps Election Replication RaftSpec.

(** ** The log *)

(** A request that passes the term and the consistency check. *)
Definition passes (s : RaftState) (request : AppendEntriesRequest) : Prop :=
  (current_term s ≤ ae_term request)%N ∧
  term_at (rs_log s) (ae_prev_log_index request) = ae_prev_log_term request.

(** The log stays, or a leader appends to its own, or a follower follows. *)
Inductive log_effect (i : RaftInput) (s s' : RaftState) : Prop :=
| log_kept : rs_log s' = rs_log s → log_effect i s s'
| log_proposed command :
    i = InPropose command → role s = Leader → role s' = Leader → current_term s' = current_term s →
    l_entries (rs_log s') = l_entries (rs_log s) ++ [mkEntry (current_term s) command] →
    next_index s' = next_index s → match_index s' = match_index s →
    log_effect i s s'
| log_followed request :
    i = InAppendEntries request → passes s request → role s' = Follower →
    current_term s' = ae_term request → rs_log s' = spec_append (rs_log s) request →
    log_effect i s s'.

Lemma meet_term_fields t s :
  current_term (meet_term t s) = N.max (current_term s) t ∧ rs_log (meet_term t s) = rs_log s ∧
  commit_index (meet_term t s) = commit_index s ∧
  (role (meet_term t s) = Follower ∨ meet_term t s = s).
Proof.
  unfold meet_term. case_bool_decide; autorewrite with state; split_and!; auto; lia.
Qed.

Lemma meet_term_office t s : role (meet_term t s) ≠ Follower → meet_term t s = s.
Proof. by destruct (meet_term_fields t s) as (_ & _ & _ & [?|?]). Qed.

(** The fields [commit_to] leaves alone. *)
Lemma follow_commit_fields c s :
  let s' := (follow_commit c s).1 in
  rs_log s' = rs_log s ∧ current_term s' = current_term s ∧ role s' = role s ∧
  next_index s' = next_index s ∧ match_index s' = match_index s ∧ voted_for s' = voted_for s ∧
  rs_id s' = rs_id s.
Proof. unfold follow_commit. by case_bool_decide. Qed.

Lemma advance_commit_fields s :
  let s' := (advance_commit s).1 in
  rs_log s' = rs_log s ∧ current_term s' = current_term s ∧ role s' = role s ∧
  next_index s' = next_index s ∧ match_index s' = match_index s ∧ voted_for s' = voted_for s ∧
  rs_id s' = rs_id s.
Proof. unfold advance_commit. by case_bool_decide. Qed.

(** Unfold a transition into its branches. *)
Ltac next_cases Hn :=
  simpl in Hn; unfold campaign, count_votes, spec_append_entries, spec_append_entries_response in Hn;
  repeat match type of Hn with
  | context [if bool_decide ?P then _ else _] => case_bool_decide; try done
  | context [if ?b then _ else _] => destruct b eqn:?
  | context [match role ?s with _ => _ end] => destruct (role s) eqn:?
  | context [let '(_, _) := follow_commit ?c ?s in _] =>
      let F := fresh "Hfc" in pose proof (follow_commit_fields c s) as F;
      destruct (follow_commit c s) as [? ?] eqn:?; simpl in F
  | context [let '(_, _) := advance_commit ?s in _] =>
      let F := fresh "Hac" in pose proof (advance_commit_fields s) as F;
      destruct (advance_commit s) as [? ?] eqn:?; simpl in F
  end; injection Hn as <- <-; simpl in *.

(** ** Actions *)

Lemma elem_of_replicate s a :
  a ∈ replicate_to_all_peers s →
  ∃ to request, a = SendAppendEntries to request ∧ replicate_to_peer s to = Some a.
Proof.
  unfold replicate_to_all_peers. intros (to & _ & Ha)%list_elem_of_omap. case_bool_decide; [done|].
  exists to. unfold replicate_to_peer in *. destruct (snd <$> list_find _ _) as [[]|]; [|done].
  simpl in *. injection Ha as <-. eauto.
Qed.

Lemma elem_of_vote_requests s a :
  a ∈ vote_requests s →
  ∃ to, a = SendRequestVote to
    (mkRV (current_term s) (rs_id s) (last_index (rs_log s)) (last_term (rs_log s))).
Proof.
  unfold vote_requests. intros (to & _ & Ha)%list_elem_of_omap. case_bool_decide; [done|].
  injection Ha as <-. eauto.
Qed.

Lemma elem_of_applied l a b x : x ∈ applied_actions l a b → ∃ i c, x = ApplyEntry i c.
Proof.
  intros (i & Hin & _)%list_elem_of_bind. unfold apply_action in Hin.
  repeat case_match; try (by apply not_elem_of_nil in Hin); apply list_elem_of_singleton in Hin as ->; eauto.
Qed.

Lemma follow_commit_acts c s s' acts x : follow_commit c s = (s', acts) → x ∈ acts → ∃ i c, x = ApplyEntry i c.
Proof.
  unfold follow_commit. case_bool_decide; intros [= <- <-] Hx; [by eapply elem_of_applied|].
  by apply not_elem_of_nil in Hx.
Qed.

Lemma advance_commit_acts s s' acts x : advance_commit s = (s', acts) → x ∈ acts → ∃ i c, x = ApplyEntry i c.
Proof.
  unfold advance_commit. case_bool_decide; intros [= <- <-] Hx; [by eapply elem_of_applied|].
  by apply not_elem_of_nil in Hx.
Qed.

(** What the actions of a transition from [v] to [v'] say. *)
Inductive says (v v' : rview) (i : RaftInput) : Action → Prop :=
| says_vote_request to :
    role (v_state v') = Candidate → v_state v' = stand (v_state v) →
    says v v' i (SendRequestVote to (mkRV (current_term (v_state v')) (rs_id (v_state v'))
      (last_index (rs_log (v_state v'))) (last_term (rs_log (v_state v')))))
| says_vote to response : says v v' i (SendRequestVoteResponse to response)
| says_append s to request :
    role (v_state v') = Leader → replicate_to_peer s to = Some (SendAppendEntries to request) →
    rs_log s = rs_log (v_state v') → current_term s = current_term (v_state v') →
    next_index s = next_index (v_state v') → rs_id s = rs_id (v_state v') →
    commit_index s = commit_index (v_state v) →
    says v v' i (SendAppendEntries to request)
| says_rejected to response :
    aer_success response = false → says v v' i (SendAppendEntriesResponse to response)
| says_accepted request :
    i = InAppendEntries request → passes (v_state v) request → role (v_state v') = Follower →
    current_term (v_state v') = ae_term request →
    rs_log (v_state v') = spec_append (rs_log (v_state v)) request →
    says v v' i (SendAppendEntriesResponse (ae_leader_id request)
      (mkAER (current_term (v_state v')) true (Some (last_index (rs_log (v_state v'))))))
| says_apply j c : says v v' i (ApplyEntry j c).

Lemma says_append_inv v v' i to request :
  says v v' i (SendAppendEntries to request) →
  role (v_state v') = Leader ∧ ∃ s, replicate_to_peer s to = Some (SendAppendEntries to request) ∧
    rs_log s = rs_log (v_state v') ∧ current_term s = current_term (v_state v') ∧
    next_index s = next_index (v_state v') ∧ rs_id s = rs_id (v_state v') ∧
    commit_index s = commit_index (v_state v).
Proof. inversion 1; simplify_eq. eauto 10. Qed.

Lemma says_vote_request_inv v v' i to request :
  says v v' i (SendRequestVote to request) →
  role (v_state v') = Candidate ∧ v_state v' = stand (v_state v) ∧
  request = mkRV (current_term (v_state v')) (rs_id (v_state v'))
    (last_index (rs_log (v_state v'))) (last_term (rs_log (v_state v'))).
Proof. inversion 1; by simplify_eq. Qed.

Lemma says_accepted_inv v v' i to response :
  says v v' i (SendAppendEntriesResponse to response) → aer_success response = true →
  ∃ request, i = InAppendEntries request ∧ to = ae_leader_id request ∧ passes (v_state v) request ∧
    role (v_state v') = Follower ∧ current_term (v_state v') = ae_term request ∧
    rs_log (v_state v') = spec_append (rs_log (v_state v)) request ∧
    response = mkAER (current_term (v_state v')) true (Some (last_index (rs_log (v_state v')))).
Proof. inversion 1; simplify_eq; [congruence|]. eauto 10. Qed.

(** ** Tables *)

Lemma assoc_update_elem from f l p :
  p ∈ assoc_update from f l → p ∈ l ∨ ∃ x, (p.1, x) ∈ l ∧ p = (from, f x).
Proof.
  induction l as [|[id x] l IH]; simpl; [by left|]. case_bool_decide as Hid; subst.
  - intros [->|Hp]%elem_of_cons; [right; exists x; split; [left|done]|left; by right].
  - intros [->|Hp]%elem_of_cons; [left; left|]. destruct (IH Hp) as [?|(y & ? & ?)]; [left; by right|].
    right. exists y. split; [by right|done].
Qed.

Lemma assoc_update_keys from f l : (assoc_update from f l).*1 = l.*1.
Proof.
  induction l as [|[id x] l IH]; simpl; [done|]. case_bool_decide; [done|].
  rewrite !fmap_cons. by rewrite IH.
Qed.

(** ** Offices *)

(** How a node comes to be leader: it was, in the same term, or it is elected as
    the candidate it was or has just become. *)
Inductive takes_office (i : RaftInput) (v v' : rview) : Prop :=
| stays_leader :
    role (v_state v) = Leader → current_term (v_state v') = current_term (v_state v) →
    takes_office i v v'
| elected_leader s :
    s = v_state v ∧ role s = Candidate ∨ s = stand (v_state v) ∧ i = InTick →
    elected s (v_votes v') = true → v_state v' = become_leader s → takes_office i v v'.

Section transition.
Context (fire : bool) (i : RaftInput) (v v' : rview) (acts : list Action).
Context (Hnext : raft_next fire i v = (v', acts)).

Lemma next_log_effect : log_effect i (v_state v) (v_state v').
Proof.
  destruct i.
  - next_cases Hnext; by apply log_kept.
  - next_cases Hnext; try (by apply log_kept);
      destruct (meet_term_fields (rv_term request) (v_state v)) as (_ & Hl & _); by apply log_kept.
  - next_cases Hnext; apply log_kept; try done; apply become_follower_log.
  - next_cases Hnext; try (apply log_kept; simpl; by rewrite ?become_follower_log).
    destruct Hfc as (E1 & E2 & E3 & _). apply (log_followed _ _ _ request); try done.
    + split; [lia|]. by rewrite become_follower_log in *.
    + rewrite E2, become_follower_term. lia.
    + by rewrite E1, become_follower_log.
  - next_cases Hnext; apply log_kept; try done; try apply become_follower_log.
    destruct Hac as (-> & _). by destruct (aer_match_index response).
  - next_cases Hnext; [by apply log_kept|]. destruct Hac as (E1 & E2 & E3 & E4 & E5 & _).
    apply (log_proposed _ _ _ command); rewrite ?E1, ?E2, ?E3, ?E4, ?E5; done.
Qed.

Lemma next_term :
  (i = InTick → (current_term (v_state v) + 1 < u64_modulus)%N) →
  (current_term (v_state v) ≤ current_term (v_state v'))%N.
Proof.
  intros Ht. destruct i; next_cases Hnext; rewrite ?become_follower_term; try lia;
    try (rewrite wrap64_small by (by apply Ht); lia).
  - destruct (meet_term_fields (rv_term request) (v_state v)) as (-> & _). lia.
  - destruct (meet_term_fields (rv_term request) (v_state v)) as (-> & _). lia.
  - destruct Hfc as (_ & -> & _). rewrite become_follower_term. lia.
  - destruct Hac as (_ & -> & _). destruct (aer_match_index response); simpl; lia.
Qed.

Lemma next_leader : role (v_state v') = Leader → takes_office i v v'.
Proof.
  intros Hr. destruct i; next_cases Hnext; try done; try (by apply stays_leader).
  - by eapply elected_leader; [right|..].
  - by eapply elected_leader; [right|..].
  - assert (meet_term (rv_term request) (v_state v) = v_state v) as E
      by (apply meet_term_office; congruence). rewrite E in *. by apply stays_leader.
  - assert (meet_term (rv_term request) (v_state v) = v_state v) as E
      by (apply meet_term_office; congruence). rewrite E in *. by apply stays_leader.
  - by eapply elected_leader; [left|..].
  - by eapply elected_leader; [left|..].
  - destruct Hfc as (_ & _ & E & _). rewrite become_follower_role in E. congruence.
  - destruct Hac as (_ & E & _). apply stays_leader; [done|]. simpl. rewrite E. by destruct (aer_match_index response).
  - destruct Hac as (_ & E & _). by apply stays_leader.
Qed.

(** A candidate was one in the same term, with the same log, or has just stood. *)
Lemma next_candidate :
  role (v_state v') = Candidate →
  (role (v_state v) = Candidate ∧ current_term (v_state v') = current_term (v_state v) ∧
   rs_log (v_state v') = rs_log (v_state v)) ∨
  (v_state v' = stand (v_state v) ∧ i = InTick).
Proof.
  intros Hr. destruct i; next_cases Hnext; try done; try congruence; auto.
  - assert (meet_term (rv_term request) (v_state v) = v_state v) as E
      by (apply meet_term_office; congruence). rewrite E in *. auto.
  - assert (meet_term (rv_term request) (v_state v) = v_state v) as E
      by (apply meet_term_office; congruence). rewrite E in *. auto.
  - destruct Hfc as (_ & _ & E & _). rewrite become_follower_role in E. congruence.
  - destruct Hac as (_ & _ & E & _). destruct (aer_match_index response); simpl in *; congruence.
  - destruct Hac as (_ & _ & E & _). simpl in *. congruence.
Qed.

(** ** The leader's tables *)

(** No index of a message is the last 64-bit value. *)
Definition roomy_input : Prop :=
  match i with
  | InAppendEntries request => (ae_prev_log_index request + 1 < u64_modulus)%N
  | InAppendEntriesResponse _ response =>
      ∀ m, aer_match_index response = Some m → (m + 1 < u64_modulus)%N
  | _ => True
  end.

Definition next_positive (s : RaftState) : Prop := ∀ p, p ∈ next_index s → (1 ≤ p.2)%N.

Lemma become_leader_next_positive s : next_positive (become_leader s).
Proof. intros p (q & -> & _)%list_elem_of_fmap. simpl. lia. Qed.

Lemma next_index_positive :
  roomy_input → (role (v_state v) = Leader → next_positive (v_state v)) →
  role (v_state v') = Leader → next_positive (v_state v').
Proof.
  intros Hroom Hpos Hr. destruct (next_leader Hr) as [Hold _|s _ _ ->];
    [|apply become_leader_next_positive].
  specialize (Hpos Hold). unfold roomy_input in Hroom.
  destruct i; next_cases Hnext; try done; try congruence.
  - assert (meet_term (rv_term request) (v_state v) = v_state v) as E
      by (apply meet_term_office; congruence). by rewrite E in *.
  - assert (meet_term (rv_term request) (v_state v) = v_state v) as E
      by (apply meet_term_office; congruence). by rewrite E in *.
  - destruct Hfc as (_ & _ & E & _). rewrite become_follower_role in E. congruence.
  - destruct Hac as (_ & _ & _ & E & _). intros p. rewrite E.
    destruct (aer_match_index response) as [m|]; [|apply Hpos].
    intros [?|(x & _ & ->)]%assoc_update_elem; [by apply Hpos|]. simpl.
    rewrite wrap64_small by (by apply Hroom). lia.
  - intros p [?|(x & Hx & ->)]%assoc_update_elem; [by apply Hpos|]. simpl. apply Hpos in Hx. simpl in Hx.
    destruct (aer_match_index response) as [m|].
    + rewrite wrap64_small by (by apply Hroom). lia.
    + case_bool_decide; lia.
  - destruct Hac as (_ & _ & _ & E & _). intros p. rewrite E. apply Hpos.
Qed.

(** ** Messages *)

Lemma replicate_says a s :
  role (v_state v') = Leader → rs_log s = rs_log (v_state v') →
  current_term s = current_term (v_state v') → next_index s = next_index (v_state v') →
  rs_id s = rs_id (v_state v') → commit_index s = commit_index (v_state v) →
  a ∈ replicate_to_all_peers s → says v v' i a.
Proof. intros ? ? ? ? ? ? (to & request & -> & Hr)%elem_of_replicate. by eapply says_append. Qed.

Lemma next_says a : a ∈ acts → says v v' i a.
Proof.
  intros Ha. pose proof replicate_says as Hrep.
  destruct i; next_cases Hnext; try (by apply not_elem_of_nil in Ha);
    try (by eapply Hrep; [..|exact Ha]); try (apply elem_of_vote_requests in Ha as [to ->]; by constructor);
    try (apply list_elem_of_singleton in Ha as ->; by constructor).
  - apply elem_of_app in Ha as [Ha|Ha%list_elem_of_singleton].
    + eapply follow_commit_acts in Ha as (? & ? & ->); [constructor|done].
    + subst a. destruct Hfc as (E1 & E2 & E3 & _).
      apply (says_accepted v (mkView r (v_votes v)) _ request); simpl; try done.
      * split; [lia|]. by rewrite become_follower_log in *.
      * rewrite E2, become_follower_term. lia.
      * by rewrite E1, become_follower_log.
  - eapply advance_commit_acts in Ha as (? & ? & ->); [constructor|done].
  - destruct Hac as (E1 & E2 & E3 & E4 & E5 & E6 & E7). apply elem_of_app in Ha as [Ha|Ha].
    + eapply Hrep; [..|exact Ha]; simpl; rewrite ?E1, ?E2, ?E3, ?E4, ?E7; done.
    + eapply advance_commit_acts in Ha as (? & ? & ->); [constructor|done].
Qed.

(** ** Votes *)

(** A vote is granted to a candidate whose log is up to date with the voter's. *)
Lemma next_grants to t :
  SendRequestVoteResponse to (mkRVR t true) ∈ acts →
  ∃ request, i = InRequestVote request ∧ to = rv_candidate_id request ∧ t = rv_term request ∧
    current_term (v_state v') = t ∧ (current_term (v_state v) ≤ t)%N ∧
    candidate_up_to_date (v_state v) request = true ∧ rs_log (v_state v') = rs_log (v_state v).
Proof.
  intros Ha. assert (∀ s, SendRequestVoteResponse to (mkRVR t true) ∉ replicate_to_all_peers s) as Hrep.
  { intros s (? & ? & ? & _)%elem_of_replicate. done. }
  assert (∀ s, SendRequestVoteResponse to (mkRVR t true) ∉ vote_requests s) as Hvr.
  { by intros s (? & ?)%elem_of_vote_requests. }
  destruct i; next_cases Hnext; try (by apply not_elem_of_nil in Ha);
    try (by destruct (Hrep _ Ha)); try (by destruct (Hvr _ Ha));
    try (apply list_elem_of_singleton in Ha; by simplify_eq).
  - apply list_elem_of_singleton in Ha. simplify_eq. exists request.
    destruct (meet_term_fields (rv_term request) (v_state v)) as (Et & El & _).
    unfold grant_vote, candidate_up_to_date in *. rewrite El in *.
    apply andb_true_iff in Heqb as [_ Hup]. rewrite Et. split_and!; try done; lia.
  - apply elem_of_app in Ha as [Ha|Ha%list_elem_of_singleton]; [|done].
    by eapply follow_commit_acts in Ha as (? & ? & ?).
  - by eapply advance_commit_acts in Ha as (? & ? & ?).
  - apply elem_of_app in Ha as [Ha|Ha]; [by destruct (Hrep _ Ha)|].
    by eapply advance_commit_acts in Ha as (? & ? & ?).
Qed.

(** Where the votes a candidate or leader has counted come from. *)
Lemma next_votes x :
  role (v_state v') ≠ Follower → x ∈ v_votes v' →
  (x = rs_id (v_state v) ∧ i = InTick) ∨
  (x ∈ v_votes v ∧ role (v_state v) ≠ Follower ∧ current_term (v_state v') = current_term (v_state v)) ∨
  (i = InRequestVoteResponse x (mkRVR (current_term (v_state v)) true) ∧
   role (v_state v) = Candidate ∧ current_term (v_state v') = current_term (v_state v)).
Proof.
  intros Hr Hx. destruct i; next_cases Hnext; try done;
    try (apply elem_of_singleton in Hx; by auto);
    try (right; left; split_and!; [done|congruence|done]).
  - assert (meet_term (rv_term request) (v_state v) = v_state v) as E
      by (apply meet_term_office; congruence). rewrite E in *. auto.
  - assert (meet_term (rv_term request) (v_state v) = v_state v) as E
      by (apply meet_term_office; congruence). rewrite E in *. auto.
  - apply elem_of_union in Hx as [->%elem_of_singleton|Hx].
    + right. right. destruct response. simpl in *. subst. auto.
    + right. left. split_and!; [done|congruence|done].
  - apply elem_of_union in Hx as [->%elem_of_singleton|Hx].
    + right. right. destruct response. simpl in *. subst. auto.
    + right. left. split_and!; [done|congruence|done].
  - destruct Hfc as (_ & _ & E & _). rewrite become_follower_role in E. congruence.
  - destruct Hac as (_ & E & _). right. left. split_and!; [done|congruence|].
    rewrite E. by destruct (aer_match_index response).
  - destruct Hac as (_ & E & _). right. left. split_and!; [done|congruence|done].
Qed.

(** ** Replication and commitment *)

Lemma next_match :
  role (v_state v) = Leader → role (v_state v') = Leader →
  current_term (v_state v') = current_term (v_state v) →
  match_index (v_state v') = match_index (v_state v) ∨
  ∃ from m t, i = InAppendEntriesResponse from (mkAER t true (Some m)) ∧
    (t ≤ current_term (v_state v))%N ∧
    match_index (v_state v') = assoc_update from (λ _, m) (match_index (v_state v)).
Proof.
  intros Hl Hr Ht. destruct i; next_cases Hnext; try done; try congruence; auto.
  - assert (meet_term (rv_term request) (v_state v) = v_state v) as E
      by (apply meet_term_office; congruence). rewrite E in *. auto.
  - assert (meet_term (rv_term request) (v_state v) = v_state v) as E
      by (apply meet_term_office; congruence). rewrite E in *. auto.
  - destruct Hfc as (_ & _ & E & _). rewrite become_follower_role in E. congruence.
  - destruct Hac as (_ & _ & _ & _ & E & _). destruct response as [t ok [m|]]; simpl in *; [|auto].
    right. exists from, m, t. subst ok. split_and!; [done|lia|done].
  - destruct Hac as (_ & _ & _ & _ & E & _). auto.
Qed.

(** The commit index stays, a leader counts a majority for an entry of its term, or
    a follower follows. *)
Lemma next_commit :
  commit_index (v_state v') = commit_index (v_state v) ∨
  (role (v_state v) = Leader ∧ role (v_state v') = Leader ∧
   current_term (v_state v') = current_term (v_state v) ∧
   (commit_index (v_state v') ≤ last_index (rs_log (v_state v')))%N ∧
   committable (v_state v') (commit_index (v_state v')) = true) ∨
  (∃ request, i = InAppendEntries request ∧ passes (v_state v) request ∧
   current_term (v_state v') = ae_term request ∧
   rs_log (v_state v') = spec_append (rs_log (v_state v)) request ∧
   commit_index (v_state v') = N.min (ae_leader_commit request) (last_index (rs_log (v_state v')))).
Proof.
  assert (∀ s s' acts, advance_commit s = (s', acts) → commit_index s' = commit_index s ∨
    (commit_index s' ≤ last_index (rs_log s'))%N ∧ committable s' (commit_index s') = true) as Hadv.
  { intros s s' acts'. unfold advance_commit. case_bool_decide as Hc; intros [= <- <-]; [right|by left].
    destruct (new_commit_index_spec s) as (_ & Hs & _). destruct (Hs ltac:(lia)) as [? ?]. done. }
  destruct i; next_cases Hnext; rewrite ?become_follower_commit; auto.
  - destruct (meet_term_fields (rv_term request) (v_state v)) as (_ & _ & -> & _). auto.
  - destruct (meet_term_fields (rv_term request) (v_state v)) as (_ & _ & -> & _). auto.
  - destruct Hfc as (E1 & E2 & _). unfold follow_commit in Heqp. case_bool_decide; simplify_eq; simpl in *.
    + right. right. exists request. simpl in *. rewrite become_follower_log in *.
      split_and!; try done; [split; [lia|done]|]. rewrite become_follower_term. lia.
    + left. apply become_follower_commit.
  - destruct Hac as (E1 & E2 & E3 & _). destruct (Hadv _ _ _ Heqp) as [->|[Hle Hc]].
    + left. by destruct (aer_match_index response).
    + right. left. destruct (aer_match_index response); simpl in *; split_and!; congruence.
  - destruct Hac as (E1 & E2 & E3 & _). destruct (Hadv _ _ _ Heqp) as [->|[Hle Hc]]; [by left|].
    right. left. split_and!; congruence.
Qed.

(** What is applied follows what is committed. *)
Lemma next_applied :
  (commit_index (v_state v') = commit_index (v_state v) ∧
   last_applied (v_state v') = last_applied (v_state v)) ∨
  (last_applied (v_state v') = N.max (last_applied (v_state v)) (commit_index (v_state v')) ∧
   ((commit_index (v_state v) < commit_index (v_state v'))%N ∨
    ∃ leader_commit, (commit_index (v_state v) < leader_commit)%N ∧
      commit_index (v_state v') = N.min leader_commit (last_index (rs_log (v_state v'))))).
Proof.
  assert (∀ s s' acts, advance_commit s = (s', acts) →
    (commit_index s' = commit_index s ∧ last_applied s' = last_applied s) ∨
    (last_applied s' = N.max (last_applied s) (commit_index s') ∧ (commit_index s < commit_index s')%N)) as Hadv.
  { intros s s' acts'. unfold advance_commit. case_bool_decide as Hc; intros [= <- <-]; [by right|by left]. }
  assert (∀ t, last_applied (meet_term t (v_state v)) = last_applied (v_state v)) as Hmeet.
  { intros t. unfold meet_term. case_bool_decide; by autorewrite with state. }
  destruct i; next_cases Hnext; rewrite ?become_follower_commit, ?become_follower_applied; auto.
  - destruct (meet_term_fields (rv_term request) (v_state v)) as (_ & _ & -> & _). rewrite Hmeet. auto.
  - destruct (meet_term_fields (rv_term request) (v_state v)) as (_ & _ & -> & _). rewrite Hmeet. auto.
  - unfold follow_commit in Heqp. rewrite ?become_follower_commit in Heqp.
    case_bool_decide; simplify_eq; simpl in *; rewrite ?become_follower_commit, ?become_follower_applied in *;
      [right|by left]. split; [done|]. right. eauto.
  - destruct (Hadv _ _ _ Heqp) as [[-> ->]|[-> ?]]; destruct (aer_match_index response); auto.
  - destruct (Hadv _ _ _ Heqp) as [[-> ->]|[-> ?]]; auto.
Qed.

End transition.
