(* ===== verification/RaftRules.v ===== *)
(** * The rules of Raft

    What a node may do with an input, stated without the program's own helpers: one
    rule per case, in terms of the raw list of entries, majorities as more than
    half, logs compared lexicographically, requests merged by [merge_entries], the
    commit index as the largest index that satisfies a condition, and the leader's
    tables as maps.  [handlers_follow_the_rules] shows that every step the program
    takes is licensed by a rule.

    The rules say what this program does, which differs from the Raft paper where
    the reply to AppendEntries is concerned: it reports the end of the follower's
    whole log ([rule_append_accept]), it is counted whatever its term
    ([rule_reply_success]), and a rejection moves the leader's table to the
    follower's end ([rule_reply_failure]). *)

From Stdlib Require Import Sorted.
From S2P Require Import Prelude Text Fs Log State Message Persist Codec Node Commit.
From S2P Require Import Durability BTree Memtable Wal Engine Ring Router Protocol Cluster.
From S2P Require Import ClusterProps Election Replication RaftSpec Transition.

(** ** Vocabulary *)

Definition entries (s : RaftState) : list LogEntry := l_entries (rs_log s).

(** The term of an entry; 0 where there is none. *)
Definition entry_term (es : list LogEntry) (i : N) : N := from_option e_term 0%N (es !! N.to_nat i).

Definition end_index (es : list LogEntry) : N := N.of_nat (length es - 1).

Definition end_term (es : list LogEntry) : N := entry_term es (end_index es).

(** A log that ends with term [t] at index [i] is at least as recent as [es]. *)
Definition as_recent (t i : N) (es : list LogEntry) : Prop :=
  (end_term es < t)%N ∨ (t = end_term es ∧ (end_index es ≤ i)%N).

Definition others (s : RaftState) : list N := filter (λ p, p ≠ rs_id s) (peers s).

(** More than half of the members. *)
Definition majority (s : RaftState) (n : nat) : Prop := length (peers s) < 2 * n.

(** The tables of a leader, as maps. *)
Definition table (v : list (N * N)) : gmap N N := list_to_map v.

Definition table_update (p : N) (f : N → N) (v v' : list (N * N)) : Prop :=
  v'.*1 = v.*1 ∧ table v' = alter f p (table v).

(** ** States *)

Definition follower_of (t : N) (leader : option N) (s : RaftState) : RaftState :=
  mkState (rs_id s) (peers s) t (if bool_decide (t = current_term s) then voted_for s else None)
    (rs_log s) (commit_index s) (last_applied s) [] [] Follower leader.

Definition candidate_of (s : RaftState) : RaftState :=
  mkState (rs_id s) (peers s) (current_term s + 1) (Some (rs_id s)) (rs_log s) (commit_index s)
    (last_applied s) (next_index s) (match_index s) Candidate None.

Definition leader_of (s : RaftState) : RaftState :=
  mkState (rs_id s) (peers s) (current_term s) (voted_for s) (rs_log s) (commit_index s)
    (last_applied s) ((λ p, (p, end_index (entries s) + 1)%N) <$> others s)
    ((λ p, (p, 0%N)) <$> others s) Leader (Some (rs_id s)).

Definition with_vote (c : N) (s : RaftState) : RaftState :=
  mkState (rs_id s) (peers s) (current_term s) (Some c) (rs_log s) (commit_index s)
    (last_applied s) (next_index s) (match_index s) (role s) (leader_id s).

Definition with_entries (es : list LogEntry) (s : RaftState) : RaftState :=
  mkState (rs_id s) (peers s) (current_term s) (voted_for s) (mkLog es) (commit_index s)
    (last_applied s) (next_index s) (match_index s) (role s) (leader_id s).

Definition with_tables (next mtch : list (N * N)) (s : RaftState) : RaftState :=
  mkState (rs_id s) (peers s) (current_term s) (voted_for s) (rs_log s) (commit_index s)
    (last_applied s) next mtch (role s) (leader_id s).

Definition with_commit (c : N) (s : RaftState) : RaftState :=
  mkState (rs_id s) (peers s) (current_term s) (voted_for s) (rs_log s) c
    (N.max (last_applied s) c) (next_index s) (match_index s) (role s) (leader_id s).

(** ** Messages *)

Definition ask_vote (s : RaftState) (p : N) : Action :=
  SendRequestVote p (mkRV (current_term s) (rs_id s) (end_index (entries s)) (end_term (entries s))).

(** What follows the entry before [next], for peer [p]. *)
Definition ask_append (s : RaftState) (p next : N) : Action :=
  SendAppendEntries p
    (mkAE (current_term s) (rs_id s) (next - 1) (entry_term (entries s) (next - 1))
       (drop (N.to_nat next) (entries s)) (commit_index s)).

Definition broadcast (s : RaftState) : list Action :=
  omap (λ p, ask_append s p <$> table (next_index s) !! p) (others s).

(** ** Committing *)

(** An index of the log, of the leader's own term, on a majority. *)
Definition may_commit (s : RaftState) (i : N) : Prop :=
  (i ≤ end_index (entries s))%N ∧ entry_term (entries s) i = current_term s ∧
  majority s (1 + length (filter (λ p, (i ≤ p.2)%N) (match_index s))).

(** The commands of the indices after [last_applied] up to [c], in order. *)
Definition applies (s : RaftState) (c : N) (actions : list Action) : Prop :=
  StronglySorted N.lt (apply_index <$> actions) ∧
  ∀ a, a ∈ actions ↔ ∃ i e, a = ApplyEntry i (e_command e) ∧ e_command e ≠ Noop ∧
    (last_applied s < i ≤ c)%N ∧ entries s !! N.to_nat i = Some e.

(** The leader commits up to the last index it may, if that is new. *)
Inductive leader_commits (s : RaftState) : RaftState → list Action → Prop :=
| commits_nothing :
    (∀ i, (commit_index s < i)%N → ¬ may_commit s i) → leader_commits s s []
| commits_up_to c actions :
    (commit_index s < c)%N → may_commit s c → (∀ i, (c < i)%N → ¬ may_commit s i) →
    applies s c actions → leader_commits s (with_commit c s) actions.

(** A follower commits what the leader has, as far as its log goes. *)
Inductive follower_commits (lc : N) (s : RaftState) : RaftState → list Action → Prop :=
| follows_nothing : (lc ≤ commit_index s)%N → follower_commits lc s s []
| follows_up_to actions :
    (commit_index s < lc)%N → applies s (N.min lc (end_index (entries s))) actions →
    follower_commits lc s (with_commit (N.min lc (end_index (entries s))) s) actions.

(** A candidate takes office with a majority. *)
Inductive takes_office (s : RaftState) (votes : gset N) (waiting : list Action) :
  RaftState → list Action → Prop :=
| office_won : majority s (size votes) →
    takes_office s votes waiting (leader_of s) (broadcast (leader_of s))
| office_open : ¬ majority s (size votes) → takes_office s votes waiting s waiting.

(** ** The rules

    [raft_rule s votes fire i s' votes' out]: in state [s] with the votes [votes]
    counted, input [i] may lead to [s'] and [votes'] and send [out]; [fire] says
    whether a tick lets the running timer expire. *)
Inductive raft_rule (s : RaftState) (votes : gset N) (fire : bool) :
  RaftInput → RaftState → gset N → list Action → Prop :=
| rule_wait : fire = false → raft_rule s votes fire InTick s votes []
| rule_heartbeat : fire = true → role s = Leader → raft_rule s votes fire InTick s votes (broadcast s)
| rule_campaign s' out :
    fire = true → role s ≠ Leader →
    takes_office (candidate_of s) {[ rs_id s ]} (ask_vote (candidate_of s) <$> others s) s' out →
    raft_rule s votes fire InTick s' {[ rs_id s ]} out
| rule_vote_old request :
    (rv_term request < current_term s)%N →
    raft_rule s votes fire (InRequestVote request) s votes
      [SendRequestVoteResponse (rv_candidate_id request) (mkRVR (current_term s) false)]
| rule_vote_granted request s1 :
    (current_term s ≤ rv_term request)%N →
    s1 = (if bool_decide (rv_term request = current_term s) then s
          else follower_of (rv_term request) (leader_id s) s) →
    voted_for s1 = None ∨ voted_for s1 = Some (rv_candidate_id request) →
    as_recent (rv_last_log_term request) (rv_last_log_index request) (entries s) →
    raft_rule s votes fire (InRequestVote request) (with_vote (rv_candidate_id request) s1) votes
      [SendRequestVoteResponse (rv_candidate_id request) (mkRVR (rv_term request) true)]
| rule_vote_refused request s1 :
    (current_term s ≤ rv_term request)%N →
    s1 = (if bool_decide (rv_term request = current_term s) then s
          else follower_of (rv_term request) (leader_id s) s) →
    (∃ other, voted_for s1 = Some other ∧ other ≠ rv_candidate_id request) ∨
    ¬ as_recent (rv_last_log_term request) (rv_last_log_index request) (entries s) →
    raft_rule s votes fire (InRequestVote request) s1 votes
      [SendRequestVoteResponse (rv_candidate_id request) (mkRVR (rv_term request) false)]
| rule_count_ignored from response :
    role s ≠ Candidate ∨ (rvr_term response < current_term s)%N →
    raft_rule s votes fire (InRequestVoteResponse from response) s votes []
| rule_count_later from response :
    role s = Candidate → (current_term s < rvr_term response)%N →
    raft_rule s votes fire (InRequestVoteResponse from response)
      (follower_of (rvr_term response) (leader_id s) s) votes []
| rule_count from response votes' s' out :
    role s = Candidate → rvr_term response = current_term s →
    votes' = (if rvr_vote_granted response then votes ∪ {[ from ]} else votes) →
    takes_office s votes' [] s' out →
    raft_rule s votes fire (InRequestVoteResponse from response) s' votes' out
| rule_append_old request :
    (ae_term request < current_term s)%N →
    raft_rule s votes fire (InAppendEntries request) s votes
      [SendAppendEntriesResponse (ae_leader_id request) (mkAER (current_term s) false None)]
| rule_append_mismatch request :
    (current_term s ≤ ae_term request)%N →
    entry_term (entries s) (ae_prev_log_index request) ≠ ae_prev_log_term request →
    raft_rule s votes fire (InAppendEntries request)
      (follower_of (ae_term request) (Some (ae_leader_id request)) s) votes
      [SendAppendEntriesResponse (ae_leader_id request)
         (mkAER (ae_term request) false (Some (end_index (entries s))))]
| rule_append_accept request es s' applied :
    (current_term s ≤ ae_term request)%N →
    entry_term (entries s) (ae_prev_log_index request) = ae_prev_log_term request →
    es = take (N.to_nat (ae_prev_log_index request + 1)) (entries s) ++
         merge_entries (drop (N.to_nat (ae_prev_log_index request + 1)) (entries s)) (ae_entries request) →
    follower_commits (ae_leader_commit request)
      (with_entries es (follower_of (ae_term request) (Some (ae_leader_id request)) s)) s' applied →
    raft_rule s votes fire (InAppendEntries request) s' votes
      (applied ++ [SendAppendEntriesResponse (ae_leader_id request)
                     (mkAER (ae_term request) true (Some (end_index es)))])
| rule_reply_ignored from response :
    role s ≠ Leader → raft_rule s votes fire (InAppendEntriesResponse from response) s votes []
| rule_reply_later from response :
    role s = Leader → (current_term s < aer_term response)%N →
    raft_rule s votes fire (InAppendEntriesResponse from response)
      (follower_of (aer_term response) (leader_id s) s) votes []
| rule_reply_success from response next mtch s' out :
    role s = Leader → (aer_term response ≤ current_term s)%N → aer_success response = true →
    match aer_match_index response with
    | Some m => table_update from (λ _, m + 1)%N (next_index s) next ∧
                table_update from (λ _, m) (match_index s) mtch
    | None => next = next_index s ∧ mtch = match_index s
    end →
    leader_commits (with_tables next mtch s) s' out →
    raft_rule s votes fire (InAppendEntriesResponse from response) s' votes out
| rule_reply_failure from response next :
    role s = Leader → (aer_term response ≤ current_term s)%N → aer_success response = false →
    table_update from
      (λ ni, match aer_match_index response with
             | Some m => (m + 1)%N
             | None => if decide (ni ≤ 1)%N then ni else (ni - 1)%N
             end) (next_index s) next →
    raft_rule s votes fire (InAppendEntriesResponse from response)
      (with_tables next (match_index s) s) votes []
| rule_propose_refused command :
    role s ≠ Leader → raft_rule s votes fire (InPropose command) s votes []
| rule_propose command s1 s' applied :
    role s = Leader → s1 = with_entries (entries s ++ [mkEntry (current_term s) command]) s →
    leader_commits s1 s' applied →
    raft_rule s votes fire (InPropose command) s' votes (broadcast s1 ++ applied).

(** ** The program's helpers in this vocabulary *)

#[local] Transparent become_follower.

Lemma entry_term_at l i : term_at l i = entry_term (l_entries l) i.
Proof. rewrite term_at_lookup. unfold entry_term. by destruct (l_entries l !! _). Qed.

Lemma end_index_of l : last_index l = end_index (l_entries l).
Proof. unfold last_index, end_index, vec_len. lia. Qed.

Lemma end_term_of l : last_term l = end_term (l_entries l).
Proof.
  unfold last_term, end_term, entry_term, end_index. rewrite last_lookup, Nat2N.id.
  replace (pred (length (l_entries l))) with (length (l_entries l) - 1) by lia.
  by destruct (l_entries l !! _).
Qed.

Lemma majority_of s n : (majority_count s ≤ N.of_nat n)%N ↔ majority s n.
Proof.
  unfold majority_count, majority, vec_len. generalize (length (peers s)). intros k.
  pose proof (N.div_mod (N.of_nat k) 2 ltac:(lia)) as Hd.
  pose proof (N.mod_lt (N.of_nat k) 2 ltac:(lia)) as Hm.
  revert Hd Hm. generalize (N.of_nat k / 2)%N (N.of_nat k mod 2)%N. intros q r Hd Hm. split; lia.
Qed.

Lemma as_recent_of s request :
  candidate_up_to_date s request = true ↔
  as_recent (rv_last_log_term request) (rv_last_log_index request) (entries s).
Proof.
  unfold candidate_up_to_date, as_recent, entries. rewrite end_term_of, end_index_of.
  by rewrite orb_true_iff, andb_true_iff, !bool_decide_eq_true.
Qed.

Lemma follower_of_later t s : (current_term s < t)%N → become_follower t s = follower_of t (leader_id s) s.
Proof.
  intros Ht. unfold become_follower, follower_of. rewrite bool_decide_true by done.
  by rewrite bool_decide_false by lia.
Qed.

Lemma follower_of_leader t l s :
  (current_term s ≤ t)%N → set_leader_id (Some l) (become_follower t s) = follower_of t (Some l) s.
Proof.
  intros Ht. unfold become_follower, follower_of.
  destruct (decide (t = current_term s)) as [->|].
  - rewrite bool_decide_false by lia. by rewrite bool_decide_true.
  - rewrite bool_decide_true by lia. by rewrite bool_decide_false.
Qed.

Lemma meet_term_of t s :
  (current_term s ≤ t)%N →
  meet_term t s = if bool_decide (t = current_term s) then s else follower_of t (leader_id s) s.
Proof.
  intros Ht. unfold meet_term. destruct (decide (t = current_term s)) as [->|].
  - by rewrite bool_decide_false, bool_decide_true by lia.
  - rewrite bool_decide_true, bool_decide_false by lia. apply follower_of_later. lia.
Qed.

Lemma leader_of_become s : become_leader s = leader_of s.
Proof. unfold become_leader, leader_of, others, entries. by rewrite end_index_of. Qed.

Lemma table_lookup v p : snd <$> list_find (λ x : N * N, x.1 = p) v = (λ x, (p, x)) <$> table v !! p.
Proof.
  unfold table. induction v as [|[q x] v IH]; [done|]. simpl. case_decide as Hq; simpl.
  - subst. by rewrite lookup_insert_eq.
  - rewrite lookup_insert_ne by done. rewrite <-IH. by destruct (list_find _ v) as [[]|].
Qed.

Lemma omap_others s (f : N → option Action) :
  omap (λ p, if bool_decide (p = rs_id s) then None else f p) (peers s) = omap f (others s).
Proof.
  unfold others. induction (peers s) as [|p ps IH]; [done|]. cbn [omap list_omap]. rewrite IH, filter_cons.
  destruct (decide (p = rs_id s)) as [->|Hp].
  - rewrite bool_decide_true by done. by rewrite decide_False by auto.
  - rewrite bool_decide_false by done. by rewrite decide_True by done.
Qed.

Lemma ask_append_of s p : replicate_to_peer s p = ask_append s p <$> table (next_index s) !! p.
Proof.
  unfold replicate_to_peer. rewrite table_lookup. destruct (table (next_index s) !! p) as [ni|]; [|done].
  simpl. unfold ask_append, entries.
  replace (if bool_decide (0 < ni)%N then (ni - 1)%N else 0%N) with (ni - 1)%N by (case_bool_decide; lia).
  by rewrite entry_term_at, entries_from_drop.
Qed.

Lemma broadcast_of s : replicate_to_all_peers s = broadcast s.
Proof.
  unfold replicate_to_all_peers, broadcast. rewrite omap_others.
  induction (others s) as [|p ps IH]; [done|]. cbn [omap list_omap]. by rewrite IH, ask_append_of.
Qed.

Lemma ask_votes_of s : vote_requests s = ask_vote s <$> others s.
Proof.
  unfold vote_requests. rewrite omap_others. induction (others s) as [|p ps IH]; [done|].
  cbn [omap list_omap fmap list_fmap]. rewrite IH. f_equal. unfold ask_vote, entries.
  by rewrite <-end_term_of, <-end_index_of.
Qed.

Lemma takes_office_of s votes waiting :
  takes_office s votes waiting (v_state (count_votes s votes waiting).1) (count_votes s votes waiting).2 ∧
  v_votes (count_votes s votes waiting).1 = votes.
Proof.
  unfold count_votes, elected. case_bool_decide as Hm; simpl; (split; [|done]).
  - rewrite broadcast_of, leader_of_become. constructor. by apply majority_of.
  - constructor. by rewrite <-majority_of.
Qed.

Lemma applies_of s c : applies s c (applied_actions (rs_log s) (last_applied s + 1) c).
Proof.
  split; [apply applied_actions_sorted|]. intros a. split.
  - intros Ha. pose proof Ha as (i & Hi & _)%list_elem_of_bind.
    assert (∃ cmd, a = ApplyEntry i cmd) as [cmd ->].
    { unfold apply_action in Hi. repeat case_match; try (by apply not_elem_of_nil in Hi);
        apply list_elem_of_singleton in Hi; by eexists. }
    apply elem_of_applied_actions in Ha as (Hr & Hn & e & He & <-). rewrite log_get_lookup in He.
    exists i, e. split_and!; try done; lia.
  - intros (i & e & -> & Hn & Hi & He). apply elem_of_applied_actions. split_and!; [lia|lia|done|].
    exists e. by rewrite log_get_lookup.
Qed.

Lemma may_commit_of s i :
  (i ≤ last_index (rs_log s))%N → committable s i = true ↔ may_commit s i.
Proof.
  intros Hi. rewrite committable_true, entry_term_at. unfold may_commit, replication_count, entries.
  rewrite <-end_index_of, <-majority_of. unfold vec_len.
  replace (N.of_nat (1 + length (filter (λ p : N * N, (i ≤ p.2)%N) (match_index s))))
    with (1 + N.of_nat (length (filter (λ p : N * N, (i ≤ p.2)%N) (match_index s))))%N by lia.
  naive_solver.
Qed.

Lemma leader_commits_of s : leader_commits s (advance_commit s).1 (advance_commit s).2.
Proof.
  destruct (new_commit_index_spec s) as (Hle & Hne & Hmax). unfold advance_commit.
  assert (∀ i, (new_commit_index s < i)%N → ¬ may_commit s i) as Hno.
  { intros i Hi Hm. assert (i ≤ last_index (rs_log s))%N as Hl
      by (rewrite end_index_of; apply Hm).
    specialize (Hmax i ltac:(lia)). apply may_commit_of in Hm; [congruence|done]. }
  case_bool_decide as Hc; simpl.
  - destruct (Hne ltac:(lia)) as [Hcom Hl]. apply (commits_up_to s (new_commit_index s)); try done.
    + by apply may_commit_of.
    + apply applies_of.
  - constructor. intros i Hi. apply Hno. lia.
Qed.

Lemma follower_commits_of lc s : follower_commits lc s (follow_commit lc s).1 (follow_commit lc s).2.
Proof.
  unfold follow_commit. rewrite end_index_of. case_bool_decide; simpl; constructor; try done; [|lia].
  apply applies_of.
Qed.

Lemma table_update_of p f v : table_update p f v (assoc_update p f v).
Proof.
  unfold table_update, table. induction v as [|[q x] v [IH1 IH2]]; [done|]. simpl.
  case_bool_decide as Hq; simpl.
  - subst. by rewrite alter_insert_eq.
  - rewrite alter_insert_ne, <-IH2 by done. split; [f_equal; exact IH1|done].
Qed.

Lemma table_update_ext p f g v v' :
  (∀ x, f x = g x) → table_update p f v v' → table_update p g v v'.
Proof.
  intros Hfg [H1 H2]. split; [done|]. rewrite H2. apply map_eq. intros q.
  destruct (decide (q = p)) as [->|].
  - rewrite !lookup_alter_eq. by destruct (table v !! p); simpl; rewrite ?Hfg.
  - by rewrite !lookup_alter_ne.
Qed.

(** The scan beyond the end of the log stops at once. *)
Lemma spec_append_merges l request :
  (ae_prev_log_index request + 1 < u64_modulus)%N →
  l_entries (spec_append l request) =
    take (N.to_nat (ae_prev_log_index request + 1)) (l_entries l) ++
    merge_entries (drop (N.to_nat (ae_prev_log_index request + 1)) (l_entries l)) (ae_entries request).
Proof.
  intros Hb. unfold spec_append. rewrite wrap64_small by done.
  set (start := (ae_prev_log_index request + 1)%N). assert (0 < start)%N by lia. clearbody start.
  case_bool_decide as He; [by rewrite He, merge_entries_nil, take_drop|].
  destruct (decide (l_entries l ≠ [] ∧ start ≤ vec_len (l_entries l))%N) as [[Hne Hs]|Hs].
  - destruct (scan_entries l (ae_entries request) start) as [l' i'] eqn:Hscan. simpl.
    by destruct (scan_entries_merge _ _ _ _ _ Hne Hs Hscan) as [_ ->].
  - assert (length (l_entries l) ≤ N.to_nat start) as Hlen.
    { unfold vec_len in Hs. destruct (l_entries l) as [|x xs]; simpl in *; [lia|].
      destruct (decide (start ≤ N.of_nat (S (length xs)))%N); [|lia]. destruct Hs. split; [done|lia]. }
    rewrite (take_ge (l_entries l)), (drop_ge (l_entries l)) by done. destruct (ae_entries request) as [|e es]; [done|]. cbn [scan_entries].
    rewrite term_at_lookup, lookup_ge_None_2 by lia. simpl.
    rewrite (bool_decide_true (last_index l < start)%N) by (unfold last_index, vec_len; lia). simpl.
    by rewrite N.sub_diag.
Qed.

(** ** Every transition is licensed *)

Section follows.
Variables (fire : bool) (v : rview).

Definition follows (i : RaftInput) (r : rview * list Action) : Prop :=
  raft_rule (v_state v) (v_votes v) fire i (v_state r.1) (v_votes r.1) r.2.

Lemma office_follows s votes waiting i :
  (∀ s' out, takes_office s votes waiting s' out → raft_rule (v_state v) (v_votes v) fire i s' votes out) →
  follows i (count_votes s votes waiting).
Proof.
  intros Hi. unfold follows. destruct (takes_office_of s votes waiting) as [Ho ->]. by apply Hi.
Qed.

Lemma tick_follows :
  (current_term (v_state v) + 1 < u64_modulus)%N → follows InTick (raft_next fire InTick v).
Proof.
  intros Ht. simpl. destruct fire eqn:Hf; [|by apply rule_wait].
  assert (role (v_state v) ≠ Leader → follows InTick (campaign (v_state v))) as Hc.
  { intros Hr. unfold campaign. apply office_follows. intros s' out. rewrite ask_votes_of.
    assert (stand (v_state v) = candidate_of (v_state v)) as ->.
    { unfold stand, candidate_of. by rewrite wrap64_small. }
    intros Ho. rewrite Hf. by apply rule_campaign. }
  destruct (role (v_state v)) eqn:Hr; [by apply Hc|by apply Hc|].
  unfold follows. simpl. rewrite broadcast_of, Hf. by apply rule_heartbeat.
Qed.

Lemma request_vote_follows request : follows (InRequestVote request) (raft_next fire (InRequestVote request) v).
Proof.
  unfold follows. simpl. case_bool_decide as Ht; [by apply rule_vote_old|]. apply N.nlt_ge in Ht.
  rewrite meet_term_of by done. set (s1 := if bool_decide _ then _ else _).
  assert (current_term s1 = rv_term request) as Et by (unfold s1; by case_bool_decide).
  assert (entries s1 = entries (v_state v)) as Ee by (unfold s1; by case_bool_decide).
  unfold grant_vote, can_vote. simpl.
  destruct (candidate_up_to_date s1 request) eqn:Hu; rewrite ?andb_true_r, ?andb_false_r.
  - apply as_recent_of in Hu. rewrite Ee in Hu. destruct (voted_for s1) as [o|] eqn:Hv.
    + case_bool_decide as Ho; simpl; rewrite Et; [|by apply rule_vote_refused; eauto].
      subst o. by apply rule_vote_granted; auto.
    + simpl. rewrite Et. by apply rule_vote_granted; auto.
  - simpl. rewrite Et. apply rule_vote_refused; [done|done|]. right. rewrite <-Ee.
    intros Hr. apply as_recent_of in Hr. congruence.
Qed.

Lemma request_vote_response_follows from response :
  follows (InRequestVoteResponse from response) (raft_next fire (InRequestVoteResponse from response) v).
Proof.
  simpl. case_bool_decide as Hr; [by apply rule_count_ignored; left|].
  assert (role (v_state v) = Candidate) as Hc by (destruct (role (v_state v)); naive_solver).
  case_bool_decide as Ht.
  { unfold follows. simpl. rewrite follower_of_later by done. by apply rule_count_later. }
  case_bool_decide as Hn; [apply rule_count_ignored; right; simpl; lia|].
  apply office_follows. intros s' out Ho. eapply rule_count; [done|lia| |done].
  destruct (rvr_vote_granted response); [|done]. by rewrite (comm_L (∪)).
Qed.

Lemma append_entries_follows request :
  (ae_prev_log_index request + 1 < u64_modulus)%N →
  follows (InAppendEntries request) (raft_next fire (InAppendEntries request) v).
Proof.
  intros Hb. unfold follows. simpl. unfold spec_append_entries.
  case_bool_decide as Ht; [by apply rule_append_old|]. apply N.nlt_ge in Ht.
  rewrite follower_of_leader by done. set (s1 := follower_of _ _ _).
  change (rs_log s1) with (rs_log (v_state v)). change (current_term s1) with (ae_term request).
  rewrite entry_term_at, end_index_of. case_bool_decide as Hp; [by apply rule_append_mismatch|].
  set (s2 := set_log (spec_append _ _) s1).
  pose proof (follower_commits_of (ae_leader_commit request) s2) as Hf.
  assert (current_term (follow_commit (ae_leader_commit request) s2).1 = ae_term request ∧
    rs_log (follow_commit (ae_leader_commit request) s2).1 = rs_log s2) as [Et El]
    by (unfold follow_commit; by case_bool_decide).
  destruct (follow_commit _ s2) as [s3 applied]. simpl in *. rewrite Et, end_index_of, El.
  simpl. rewrite spec_append_merges by done.
  eapply rule_append_accept; [done|by destruct (decide (entry_term (entries (v_state v))
    (ae_prev_log_index request) = ae_prev_log_term request)); [|destruct Hp]|done|].
  assert (s2 = with_entries (l_entries (spec_append (rs_log (v_state v)) request)) s1) as E2.
  { unfold s2, with_entries, set_log. by destruct (spec_append _ _). }
  rewrite E2, spec_append_merges in Hf by done. exact Hf.
Qed.

Lemma append_entries_response_follows from response :
  (∀ m, aer_match_index response = Some m → (m + 1 < u64_modulus)%N) →
  follows (InAppendEntriesResponse from response) (raft_next fire (InAppendEntriesResponse from response) v).
Proof.
  intros Hb. unfold follows. simpl. unfold spec_append_entries_response.
  case_bool_decide as Hr; [by apply rule_reply_ignored|].
  assert (role (v_state v) = Leader) as Hl by (destruct (role (v_state v)); naive_solver).
  case_bool_decide as Ht; [simpl; rewrite follower_of_later by done; by apply rule_reply_later|].
  apply N.nlt_ge in Ht. destruct (aer_success response) eqn:Hs.
  - set (s1 := match aer_match_index response with Some _ => _ | None => _ end).
    pose proof (leader_commits_of s1) as Hc. destruct (advance_commit s1) as [s2 applied]. simpl in *.
    apply (rule_reply_success _ _ _ from response (next_index s1) (match_index s1)); try done; unfold s1.
    + destruct (aer_match_index response) as [m|]; [|done]. simpl.
      specialize (Hb m eq_refl). rewrite wrap64_small by done. split; apply table_update_of.
    + assert (with_tables (next_index s1) (match_index s1) (v_state v) = s1) as E;
        [|fold s1; by rewrite E].
      unfold s1, with_tables. destruct (aer_match_index response); by destruct (v_state v).
  - simpl. apply rule_reply_failure; try done. eapply table_update_ext; [|apply table_update_of].
    intros ni. simpl. destruct (aer_match_index response) as [m|]; [rewrite wrap64_small; [done|by apply Hb]|].
    case_bool_decide; case_decide; done || lia.
Qed.

Lemma propose_follows command : follows (InPropose command) (raft_next fire (InPropose command) v).
Proof.
  unfold follows. simpl. case_bool_decide as Hr; [by apply rule_propose_refused|].
  pose proof (leader_commits_of (append_command command (v_state v))) as Hc.
  destruct (advance_commit _) as [s2 applied]. simpl in *. rewrite broadcast_of.
  eapply rule_propose; [by destruct (role (v_state v)); naive_solver|done|done].
Qed.

Lemma transition_follows i :
  roomy_input i → (i = InTick → current_term (v_state v) + 1 < u64_modulus)%N →
  follows i (raft_next fire i v).
Proof.
  intros Hi Ht. destruct i; simpl in Hi.
  - apply tick_follows. by apply Ht.
  - apply request_vote_follows.
  - apply request_vote_response_follows.
  - by apply append_entries_follows.
  - by apply append_entries_response_follows.
  - apply propose_follows.
Qed.

End follows.

(** C7: every step the program takes is licensed by a rule of Raft.  Whatever the
    disk does (errors and torn writes included), when an entry point of the node
    returns, its new state, the votes it has counted and the messages it returns
    are those of a rule of [raft_rule] for this input: votes go to one candidate
    per term whose log is at least as recent, office is taken with more than half
    of the votes, logs are merged, the commit index is the largest index of the
    leader's term on a majority, and committed commands are applied in order.  A
    tick acts when the timer of the node's role expires.  (Index and term counters
    stay below the last 64-bit value.) *)
Theorem handlers_follow_the_rules `{Build, StateCodec} i w actions w' :
  roomy_input i → (i = InTick → current_term (rn_state w.1) + 1 < u64_modulus)%N →
  handle_input i w = (Done actions, w') →
  raft_rule (rn_state w.1) (votes_received w.1) (timer_expires w.1) i
    (rn_state w'.1) (votes_received w'.1) actions.
Proof.
  intros Hi Ht Hrun. pose proof (wp_run _ _ _ _ _ _ (handle_input_next i w) Hrun) as Hn. cbv beta in Hn.
  pose proof (transition_follows (timer_expires w.1) (view w.1) i Hi Ht) as Hf.
  unfold follows in Hf. by rewrite Hn in Hf.
Qed.

Lemma handlers_follow_the_rules_witness :
  ∃ actions w', @handle_input release_build _ (InAppendEntries sample_request) sample_follower
      = (Done actions, w') ∧
    raft_rule (rn_state sample_follower.1) (votes_received sample_follower.1)
      (timer_expires sample_follower.1) (InAppendEntries sample_request)
      (rn_state w'.1) (votes_received w'.1) actions.
Proof.
  destruct (@handle_input release_build _ (InAppendEntries sample_request) sample_follower)
    as [[actions|] w'] eqn:E; [|by vm_compute in E].
  exists actions, w'. split; [reflexivity|].
  apply (@handlers_follow_the_rules release_build _ (InAppendEntries sample_request) sample_follower);
    [vm_compute; reflexivity|discriminate|exact E].
Defined.
