(* ===== verification/Timing.v ===== *)
(** * Timers (src/raft/node.rs)

    The randomised election timeout and the heartbeat interval, in ticks, and
    what they lead to: an election no later than the timeout, and heartbeats no
    further apart than the interval. *)

From S2P Require Import Prelude Text Fs Log State Message Persist Codec Node Commit.
From S2P Require Import Durability BTree Memtable Wal Engine Ring Router Protocol Cluster.
From S2P Require Import ClusterProps Election.

(** [n] ticks of a node, and all the actions they return. *)
Fixpoint raft_ticks `{Build, StateCodec} (n : nat) : proc RW (list Action) :=
  match n with
  | O => mret []
  | S n => a ← tick; b ← raft_ticks n; mret (a ++ b)
  end.

Lemma reset_election_timeout_range n :
  (ELECTION_TIMEOUT_MIN ≤ election_timeout (reset_election_timeout n) < ELECTION_TIMEOUT_MAX)%N ∧
  in_u64 (random_seed (reset_election_timeout n)).
Proof.
  split; [|apply wrap64_range].
  change (30 ≤ next_seed (random_seed n) mod 30 + 30 < 60)%N.
  pose proof (N.mod_lt (next_seed (random_seed n)) 30 ltac:(done)) as Hm. revert Hm.
  generalize (next_seed (random_seed n) mod 30)%N. lia.
Qed.

Section timing.
Context `{StateCodecLaws} `{Build}.

Lemma tick_waits n fs :
  role (rn_state n) ≠ Leader → (1 < election_timeout n)%N →
  tick (n, fs) = (Done [], (set_election_timeout (election_timeout n - 1) n, fs)).
Proof.
  intros Hr Ht. unfold tick, state_get. rewrite bind_gets. cbn [fst].
  assert (tick_election (n, fs) = (Done [], (set_election_timeout (election_timeout n - 1) n, fs))) as He.
  { unfold tick_election, node_get, node_mod. rewrite bind_gets. cbn [fst].
    rewrite (bool_decide_true (0 < election_timeout n)%N) by lia. cbn [when].
    rewrite bind_modify, bind_gets. cbn [fst election_timeout set_election_timeout].
    by rewrite bool_decide_true by lia. }
  by destruct (role (rn_state n)).
Qed.

(** The state in which an election leaves the node. *)
Record campaigning (n n' : RaftNode) (actions : list Action) : Prop := {
  ca_term : current_term (rn_state n') = (current_term (rn_state n) + 1)%N;
  ca_vote : voted_for (rn_state n') = Some (rs_id (rn_state n));
  ca_log : rs_log (rn_state n') = rs_log (rn_state n);
  ca_timeout : (ELECTION_TIMEOUT_MIN ≤ election_timeout n' < ELECTION_TIMEOUT_MAX)%N;
  ca_outcome :
    if bool_decide (majority_count (rn_state n) ≤ 1)%N
    then role (rn_state n') = Leader ∧ actions = send_heartbeats (rn_state n')
    else role (rn_state n') = Candidate ∧ actions = vote_requests (rn_state n');
}.

Lemma start_election_campaigns n fs :
  quiet fs → (current_term (rn_state n) + 1 < u64_modulus)%N →
  ∃ actions n' fs', start_election (n, fs) = (Done actions, (n', fs')) ∧ quiet fs' ∧
    campaigning n n' actions.
Proof.
  intros Hq Ht. unfold start_election.
  set (s1 := set_leader_id None (set_voted_for (Some (rs_id (rn_state n)))
    (set_role Candidate (set_current_term (current_term (rn_state n) + 1) (rn_state n))))).
  assert (on_state become_candidate (n, fs) = (Done tt, (set_state s1 n, fs))) as Hb.
  { unfold on_state, zoom, become_candidate. cbn [fst]. rewrite bind_gets.
    rewrite (bind_done _ _ _ _ _ (add_u64_ok _ _ _ Ht)). done. }
  rewrite (bind_done _ _ _ _ _ Hb). unfold node_mod. rewrite !bind_modify. cbn [fst snd].
  set (n2 := reset_election_timeout _).
  destruct (persist_quiet n2 fs Hq) as (fs' & Hp & Hq' & _). rewrite (bind_done _ _ _ _ _ Hp).
  unfold node_get. rewrite bind_gets. cbn [fst].
  assert (votes_count n2 = 1%N) as Hv
    by (unfold votes_count; cbn [n2 votes_received reset_election_timeout set_votes_received];
        by rewrite (size_singleton (C := gset N))).
  pose proof (reset_election_timeout_range
    (set_votes_received {[rs_id (rn_state (set_state s1 n))]} (set_state s1 n))) as [Hto _].
  rewrite Hv. change (majority_count (rn_state n2)) with (majority_count (rn_state n)).
  destruct (bool_decide (majority_count (rn_state n) ≤ 1)%N) eqn:Hm.
  - unfold win_election, state_mod, node_mod, state_get. rewrite !bind_modify.
    do 3 eexists. split; [done|]. split; [done|]. split; try done. by rewrite Hm.
  - do 3 eexists. split; [done|]. split; [done|]. split; try done. by rewrite Hm.
Qed.

Lemma tick_fires n fs :
  role (rn_state n) ≠ Leader → (election_timeout n ≤ 1)%N →
  quiet fs → (current_term (rn_state n) + 1 < u64_modulus)%N →
  ∃ actions n' fs', tick (n, fs) = (Done actions, (n', fs')) ∧ quiet fs' ∧ campaigning n n' actions.
Proof.
  intros Hr Hto Hq Ht.
  assert (∃ actions n' fs', tick_election (n, fs) = (Done actions, (n', fs')) ∧ quiet fs' ∧
    campaigning n n' actions) as He.
  { unfold tick_election, node_get, node_mod. rewrite bind_gets. cbn [fst].
    destruct (decide (0 < election_timeout n)%N).
    - rewrite bool_decide_true by done. cbn [when]. rewrite bind_modify, bind_gets.
      cbn [fst snd election_timeout set_election_timeout]. rewrite bool_decide_false by lia.
      destruct (start_election_campaigns (set_election_timeout (election_timeout n - 1) n) fs Hq Ht)
        as (a & n' & fs' & ? & ? & []). by exists a, n', fs'.
    - rewrite bool_decide_false by done. cbn [when]. rewrite bind_ret_l, bind_gets. cbn [fst].
      rewrite bool_decide_false by done. by apply start_election_campaigns. }
  unfold tick, state_get. rewrite bind_gets. cbn [fst]. by destruct (role (rn_state n)).
Qed.

(** C30: a node that hears nothing stands for election exactly when its timeout
    expires.  For a follower or candidate with [k] ticks left and no messages, a
    healthy disk and a term below the last 64-bit value, the first [k - 1] ticks
    do nothing and the [k]-th starts an election: the term goes up by one, the
    node votes for itself, draws a new timeout in [30, 60), and asks every other
    peer for its vote (or, alone, leads at once). *)
Theorem election_fires_on_timeout k : ∀ n fs,
  role (rn_state n) ≠ Leader → election_timeout n = N.of_nat (S k) →
  quiet fs → (current_term (rn_state n) + 1 < u64_modulus)%N →
  raft_ticks k (n, fs) = (Done [], (set_election_timeout 1 n, fs)) ∧
  ∃ actions n' fs', raft_ticks (S k) (n, fs) = (Done actions, (n', fs')) ∧ campaigning n n' actions.
Proof.
  induction k as [|k IH]; intros n fs Hr Hk Hq Ht.
  - change (N.of_nat 1) with 1%N in Hk. split; [unfold mret, proc_ret; simpl; rewrite <-Hk; by destruct n|].
    destruct (tick_fires n fs Hr ltac:(lia) Hq Ht) as (a & n' & fs' & Hrun & _ & Hc).
    exists a, n', fs'. cbn [raft_ticks]. rewrite (bind_done _ _ _ _ _ Hrun), bind_ret_l.
    by rewrite app_nil_r.
  - pose proof (tick_waits n fs Hr ltac:(lia)) as Hw.
    destruct (IH (set_election_timeout (election_timeout n - 1) n) fs Hr) as [H1' H2'];
      [simpl in *; lia|done|done|]. split.
    + change (raft_ticks (S k)) with (a ← tick; b ← raft_ticks k; mret (a ++ b)).
      rewrite (bind_done _ _ _ _ _ Hw), (bind_done _ _ _ _ _ H1'). done.
    + destruct H2' as (a & n' & fs' & Hrun & []). exists a, n', fs'. split; [|done].
      change (raft_ticks (S (S k))) with (a ← tick; b ← raft_ticks (S k); mret (a ++ b)).
      by rewrite (bind_done _ _ _ _ _ Hw), (bind_done _ _ _ _ _ Hrun).
Qed.

(** ** Heartbeats *)

Lemma tick_leader n fs :
  role (rn_state n) = Leader →
  tick (n, fs) =
  if bool_decide (1 < heartbeat_timeout n)%N
  then (Done [], (set_heartbeat_timeout (heartbeat_timeout n - 1) n, fs))
  else (Done (send_heartbeats (rn_state n)), (set_heartbeat_timeout HEARTBEAT_INTERVAL n, fs)).
Proof.
  intros Hr. unfold tick, state_get. rewrite bind_gets. cbn [fst]. rewrite Hr.
  unfold tick_heartbeat, node_get, node_mod. rewrite bind_gets. cbn [fst].
  destruct (decide (0 < heartbeat_timeout n)%N) as [Hp|Hp].
  - rewrite (bool_decide_true (0 < _)%N) by done. cbn [when]. rewrite bind_modify, bind_gets.
    cbn [fst snd heartbeat_timeout set_heartbeat_timeout].
    destruct (decide (1 < heartbeat_timeout n)%N).
    + by rewrite !bool_decide_true by lia.
    + rewrite !bool_decide_false by lia. done.
  - rewrite (bool_decide_false (0 < _)%N) by done. cbn [when]. rewrite bind_ret_l, bind_gets.
    cbn [fst]. rewrite !bool_decide_false by lia. done.
Qed.

(** a leader is heard every three ticks.  In any three consecutive ticks of a
    leader whose heartbeat timer is within its interval, one sends an
    AppendEntries to every other peer for which it keeps a [next_index], and the
    node, its log and its term are unchanged but for the timer. *)
Theorem heartbeat_every_interval n fs :
  role (rn_state n) = Leader → (heartbeat_timeout n ≤ HEARTBEAT_INTERVAL)%N →
  ∃ actions n', raft_ticks 3 (n, fs) = (Done actions, (n', fs)) ∧
    rn_state n' = rn_state n ∧ (heartbeat_timeout n' ≤ HEARTBEAT_INTERVAL)%N ∧
    send_heartbeats (rn_state n) ⊆ actions.
Proof.
  intros Hr Hh. unfold HEARTBEAT_INTERVAL in *.
  assert (∀ k, ∃ a n1, tick (set_heartbeat_timeout k n, fs) = (Done a, (set_heartbeat_timeout n1 n, fs)) ∧
    ((a = [] ∧ (1 < k)%N ∧ n1 = (k - 1)%N) ∨
     (a = send_heartbeats (rn_state n) ∧ (k ≤ 1)%N ∧ n1 = 3%N))) as Hstep.
  { intros k. rewrite tick_leader by done. cbn [heartbeat_timeout set_heartbeat_timeout].
    case_bool_decide; do 2 eexists; (split; [done|]); [left|right]; split_and!; try done. lia. }
  assert (set_heartbeat_timeout (heartbeat_timeout n) n = n) as Hn by (by destruct n).
  destruct (Hstep (heartbeat_timeout n)) as (a1 & k1 & E1 & D1). rewrite Hn in E1.
  destruct (Hstep k1) as (a2 & k2 & E2 & D2). destruct (Hstep k2) as (a3 & k3 & E3 & D3).
  exists (a1 ++ a2 ++ a3 ++ []), (set_heartbeat_timeout k3 n). cbn [raft_ticks].
  rewrite (bind_done _ _ _ _ _ E1), bind_assoc, (bind_done _ _ _ _ _ E2), !bind_assoc.
  rewrite (bind_done _ _ _ _ _ E3). split; [done|]. split; [done|]. simpl.
  destruct D1 as [(-> & ? & ->)|(-> & ? & ->)], D2 as [(-> & ? & ->)|(-> & ? & ->)],
    D3 as [(-> & ? & ->)|(-> & ? & ->)]; (split; [simpl; lia|]); simpl; try lia; set_solver.
Qed.

End timing.

(** Timeouts are drawn from [30, 60) and the seed stays a 64-bit value, so the
    multiplication, addition and remainder of the generator never misbehave. *)
Theorem election_timeout_in_range n :
  (30 ≤ election_timeout (reset_election_timeout n) < 60)%N ∧
  election_timeout_duration (reset_election_timeout n) = election_timeout (reset_election_timeout n) ∧
  in_u64 (random_seed (reset_election_timeout n)).
Proof.
  destruct (reset_election_timeout_range n) as [Hr Hs]. split; [exact Hr|]. by split.
Qed.

(** ** Witnesses *)

Lemma election_fires_on_timeout_witness :
  let n := example_world.1 in
  ∃ actions n' fs', @raft_ticks release_build _ 52 (n, fresh_fs) = (Done actions, (n', fs')) ∧
    campaigning n n' actions.
Proof.
  apply (@election_fires_on_timeout _ _ release_build 51 example_world.1 fresh_fs).
  - discriminate.
  - vm_compute. reflexivity.
  - reflexivity.
  - vm_compute. reflexivity.
Defined.

Lemma heartbeat_every_interval_witness :
  ∃ actions n', @raft_ticks release_build _ 3 (sample_leader.1, fresh_fs) = (Done actions, (n', fresh_fs)) ∧
    rn_state n' = rn_state sample_leader.1 ∧ (heartbeat_timeout n' ≤ HEARTBEAT_INTERVAL)%N ∧
    send_heartbeats (rn_state sample_leader.1) ⊆ actions.
Proof.
  apply (@heartbeat_every_interval _ _ release_build sample_leader.1 fresh_fs).
  - reflexivity.
  - vm_compute. discriminate.
Defined.
