(* ===== verification/System.v ===== *)
(** * The whole cluster

    Machines with their disks, a network that may lose, delay, reorder and
    duplicate, and the events that can happen: a tick, the delivery of a
    message, a client command, a crash and a restart.  The events are the lock
    sections of src/network/server.rs and src/transport.rs (each takes the
    node's mutex, so they do not interleave within a node), and they run the
    handlers of the other files unchanged.  An event carries the faults of the disk
    during it; in [reachable] runs these only kill the process, before an operation
    takes effect ([benign]). *)

From S2P Require Import Prelude Text Fs Log State Message Persist Codec Node Commit.
From S2P Require Import Durability BTree Memtable Wal Engine Ring Router Protocol Cluster.
From S2P Require Import ClusterProps Transport Server Election.

(** The deployment: who is in the cluster, and where each node keeps its data. *)
Class Deployment : Type := {
  members : list N;
  data_dir : N → string;
}.

Record machine : Type := mkMachine {
  m_node : option ClusterNode;
  m_disk : Fs;
}.

(** [sys_net] keeps every message ever sent.  [sys_ballots] (voter, term,
    candidate) and [sys_leaders] (term, leader) are history: what every node
    held after each of its events. *)
Record system : Type := mkSystem {
  sys_machines : gmap N machine;
  sys_net : list (N * NetworkMessage);
  sys_ballots : list (N * N * N);
  sys_leaders : list (N * N);
}.

Inductive event : Type :=
| EvTick (i : N) (faults : list fault)
| EvDeliver (i : N) (msg : NetworkMessage) (faults : list fault)
| EvCommand (i : N) (c : Command) (faults : list fault)
| EvCrash (i : N)
| EvRestart (i : N) (faults : list fault).

(** ** What an event runs *)

Definition tick_activity `{Build, StateCodec} : proc CW (list PeerMessage) :=
  cluster_tick ;; take_outbound_messages.

Definition deliver_activity `{Build, StateCodec} (msg : NetworkMessage) : proc CW (list PeerMessage) :=
  dispatch_message msg ;; take_outbound_messages.

Definition command_activity `{Build, StateCodec} (c : Command) : proc CW (list PeerMessage) :=
  r ← run_command c; mret r.2.

Section steps.
Context `{Build, StateCodec, Deployment}.

(** The messages that go on the wire. *)
Definition posts (i : N) (messages : list PeerMessage) : list (N * NetworkMessage) :=
  omap (λ m, if bool_decide (pm_to m ∈ members ∧ pm_to m ≠ i)
             then Some (pm_to m, network_message i (pm_payload m)) else None) messages.

Definition node_ballot (i : N) (s : RaftState) : list (N * N * N) :=
  match voted_for s with
  | Some c => [(i, current_term s, c)]
  | None => []
  end.

Definition node_leader (i : N) (s : RaftState) : list (N * N) :=
  if bool_decide (role s = Leader) then [(current_term s, i)] else [].

(** Node [i] comes out of an event as [c], with disk [fs] and messages to send. *)
Definition commit_event (i : N) (c : ClusterNode) (fs : Fs) (messages : list PeerMessage)
  (σ : system) : system :=
  let s := rn_state (cn_raft c) in
  mkSystem (<[i := mkMachine (Some c) (set_faults [] fs)]> (sys_machines σ))
    (sys_net σ ++ posts i messages)
    (sys_ballots σ ++ node_ballot i s) (sys_leaders σ ++ node_leader i s).

Definition kill_node (i : N) (fs : Fs) (σ : system) : system :=
  mkSystem (<[i := mkMachine None (set_faults [] fs)]> (sys_machines σ))
    (sys_net σ) (sys_ballots σ) (sys_leaders σ).

Definition run_activity (i : N) (faults : list fault) (activity : proc CW (list PeerMessage))
  (σ : system) : option system :=
  m ← sys_machines σ !! i;
  c ← m_node m;
  Some (match activity (c, set_faults faults (m_disk m)) with
        | (Done messages, (c', fs)) => commit_event i c' fs messages σ
        | (Halted, (_, fs)) => kill_node i fs σ
        end).

Definition apply_event (e : event) (σ : system) : option system :=
  match e with
  | EvTick i faults => run_activity i faults tick_activity σ
  | EvDeliver i msg faults =>
      if bool_decide ((i, msg) ∈ sys_net σ) then run_activity i faults (deliver_activity msg) σ
      else None
  | EvCommand i c faults => run_activity i faults (command_activity c) σ
  | EvCrash i =>
      m ← sys_machines σ !! i;
      c ← m_node m;
      Some (kill_node i (m_disk m) σ)
  | EvRestart i faults =>
      m ← sys_machines σ !! i;
      match m_node m with
      | Some _ => None
      | None =>
          Some (match cluster_new i members (data_dir i) (set_faults faults (m_disk m)) with
                | (Done (Ok c), fs) => commit_event i c fs [] σ
                | (Done (Err _), fs) | (Halted, fs) => kill_node i fs σ
                end)
      end
  end.

Definition event_faults (e : event) : list fault :=
  match e with
  | EvTick _ l | EvDeliver _ _ l | EvCommand _ _ l | EvRestart _ l => l
  | EvCrash _ => []
  end.

(** Events of a cluster whose disks only kill the process, before an operation
    takes effect (no torn write, no I/O error), and whose term counters have not
    reached the last 64-bit value. *)
Definition benign (σ : system) (e : event) : Prop :=
  crash_only (event_faults e) ∧
  match e with
  | EvTick i _ => ∀ m c, sys_machines σ !! i = Some m → m_node m = Some c →
      (current_term (rn_state (cn_raft c)) + 1 < u64_modulus)%N
  | _ => True
  end.

(** Every machine is down and its disk is empty. *)
Definition sys_init : system :=
  mkSystem (list_to_map ((λ i, (i, mkMachine None fresh_fs)) <$> members)) [] [] [].

Inductive reachable : system → Prop :=
| reachable_init : reachable sys_init
| reachable_step σ e σ' :
    reachable σ → benign σ e → apply_event e σ = Some σ' → reachable σ'.

Fixpoint run_events (es : list event) (σ : system) : option system :=
  match es with
  | [] => Some σ
  | e :: es => σ' ← apply_event e σ; run_events es σ'
  end.

End steps.

(** ** One event at one node *)

Section activity.
Context `{StateCodecLaws} `{Build} (p : StatePersister) (B : ballot_box).

Record node_live (w : CW) : Prop := {
  nl_coherent : coherent p (cn_raft w.1, w.2);
  nl_electoral : electoral B (cn_raft w.1);
  nl_wal : sp_path p ≠ wal_path (se_wal (cn_storage w.1));
}.

Definition vote_in_memory (w : CW) : N * option N :=
  vote_of (persistent_of (rn_state (cn_raft w.1))).

(** Granted votes in the queue are the vote the node holds. *)
Definition queue_ok (c : ClusterNode) (queue : list PeerMessage) : Prop :=
  ∀ to t, mkMsg to (PRequestVoteResponse (mkRVR t true)) ∈ queue →
    current_term (rn_state (cn_raft c)) = t ∧ voted_for (rn_state (cn_raft c)) = Some to.

(** What an event leads to: the node lives on, its vote moved forward. *)
Record lives_on (w w' : CW) : Prop := {
  lo_live : node_live w';
  lo_vote : vote_le (vote_in_memory w) (vote_in_memory w');
  lo_id : rs_id (rn_state (cn_raft w'.1)) = rs_id (rn_state (cn_raft w.1));
  lo_peers : peers (rn_state (cn_raft w'.1)) = peers (rn_state (cn_raft w.1));
}.

(** Or the process dies with a vote on disk that is at least the previous one. *)
Definition dies (w w' : CW) : Prop :=
  vote_le (vote_of (disk_state p w.2)) (vote_of (disk_state p w'.2)).

Lemma wp_and {W A} (m : proc W A) w (Q1 Q2 : A → W → Prop) (K1 K2 : W → Prop) :
  wp m w Q1 K1 → wp m w Q2 K2 → wp m w (λ a w', Q1 a w' ∧ Q2 a w') (λ w', K1 w' ∧ K2 w').
Proof. unfold wp. destruct (m w) as [[]]; auto. Qed.

Lemma node_live_vote w : node_live w → vote_in_memory w = vote_of (disk_state p w.2).
Proof. intros [Hc _ _]. pose proof (coh_disk _ _ Hc) as Hd. simpl in Hd. by rewrite Hd. Qed.

(** The consensus part of an event. *)
Lemma on_raft_lives {A} (m : proc RW A) (acts : A → list Action) w :
  node_live w → cn_outbound w.1 = [] →
  wp m (cn_raft w.1, w.2) (λ _ w', advanced p (cn_raft w.1, w.2) w') (crashed p (cn_raft w.1, w.2)) →
  wp m (cn_raft w.1, w.2) (λ a, elects B (acts a)) (λ _, True) →
  wp (on_raft m) w
    (λ a w', lives_on w w' ∧ cn_outbound w'.1 = [] ∧
       grants_ok (cn_raft w'.1) (acts a)) (dies w).
Proof.
  intros Hl Ho Hd He. unfold on_raft. wp_step.
  eapply wp_mono; [by apply (wp_and _ _ _ _ _ _ Hd He)|..]; simpl.
  - intros a [n fs] [(Hc & Hv & Hid & Hp) [Hel Hg]]. simpl in *. split_and!; try done.
    split; simpl; try done. split; simpl; try done. apply Hl.
  - intros [n fs] [[Hv _] _]. done.
Qed.

(** The storage part: it leaves the consensus state and its file alone. *)
Lemma process_actions_lives actions w w1 :
  lives_on w w1 → node_live w → cn_outbound w1.1 = [] → grants_ok (cn_raft w1.1) actions →
  wp (process_actions actions) w1
    (λ _ w', lives_on w w' ∧ queue_ok w'.1 (cn_outbound w'.1)) (dies w).
Proof.
  intros [Hl1 Hv Hid Hp] Hl Ho Hg.
  assert (∀ w', actions_frame w1 w' → lives_on w w') as Hframe.
  { intros w' (E1 & _ & _ & _ & Hw & Hfs). simpl in Hfs, Hw. destruct Hl1 as [Hc Hel Hwal].
    destruct Hfs as [Hfiles Hfaults]. destruct Hc as [C1 C2 C3 C4].
    split; [split|..]; unfold vote_in_memory in *; rewrite ?E1, ?Hw; try done.
    split; simpl in *; rewrite ?E1; auto. rewrite <-C3. unfold disk_state. by rewrite Hfiles. }
  unfold wp. destruct (process_actions actions w1) as [[[]|] w'] eqn:Hrun;
    pose proof (keeps_run _ _ _ _ _ (process_actions_frame _) Hrun) as Hfr.
  - split; [auto|]. apply process_actions_outbound in Hrun. rewrite Ho in Hrun. simpl in Hrun.
    destruct Hfr as (E1 & _). intros to t. rewrite Hrun, E1.
    intros (a & Ha & Hm)%list_elem_of_omap. apply Hg.
    destruct a; simpl in Hm; by simplify_eq.
  - pose proof (Hframe _ Hfr) as [Hl' Hv' _ _]. unfold dies.
    by rewrite <-!node_live_vote.
Qed.

Lemma take_outbound_lives w w1 :
  lives_on w w1 → queue_ok w1.1 (cn_outbound w1.1) →
  wp take_outbound_messages w1
    (λ msgs w', lives_on w w' ∧ cn_outbound w'.1 = [] ∧ queue_ok w'.1 msgs) (dies w).
Proof.
  intros [[] ? ? ?] Hq. unfold take_outbound_messages, cluster_get, cluster_mod.
  wp_step. wp_step. wp_step. wp_step. wp_step. split_and!; [by split; [split|..]|done|done].
Qed.

(** An event that feeds one input to the consensus node. *)
Lemma input_activity i w :
  node_live w → cn_outbound w.1 = [] →
  (i = InTick → current_term (rn_state (cn_raft w.1)) + 1 < u64_modulus)%N →
  input_ok B (rs_id (rn_state (cn_raft w.1))) i →
  wp (actions ← on_raft (handle_input i); process_actions actions) w
    (λ _ w', lives_on w w' ∧ queue_ok w'.1 (cn_outbound w'.1)) (dies w).
Proof.
  intros Hl Ho Ht Hi. wp_step.
  eapply wp_mono; [apply (on_raft_lives _ (λ a, a)); [done|done|..]| |done].
  - apply handle_input_durable; [apply Hl|done].
  - apply handle_input_elects; [apply Hl|done].
  - intros actions w1 (Hlo & Ho1 & Hg). by apply process_actions_lives.
Qed.

Lemma tick_activity_lives w :
  node_live w → cn_outbound w.1 = [] →
  (current_term (rn_state (cn_raft w.1)) + 1 < u64_modulus)%N →
  wp tick_activity w
    (λ msgs w', lives_on w w' ∧ cn_outbound w'.1 = [] ∧ queue_ok w'.1 msgs) (dies w).
Proof.
  intros Hl Ho Ht. unfold tick_activity. wp_step.
  eapply wp_mono; [by apply (input_activity InTick)| |done].
  intros [] w1 [Hlo Hq]. by apply take_outbound_lives.
Qed.

Lemma deliver_activity_lives msg w :
  node_live w → cn_outbound w.1 = [] →
  input_ok B (rs_id (rn_state (cn_raft w.1))) (network_input msg) →
  wp (deliver_activity msg) w
    (λ msgs w', lives_on w w' ∧ cn_outbound w'.1 = [] ∧ queue_ok w'.1 msgs) (dies w).
Proof.
  intros Hl Ho Hi. unfold deliver_activity. wp_step.
  assert (dispatch_message msg =
    (actions ← on_raft (handle_input (network_input msg)); process_actions actions)) as ->
    by (by destruct msg).
  eapply wp_mono; [apply (input_activity (network_input msg)); try done; by destruct msg| |done].
  intros [] w1 [Hlo Hq]. by apply take_outbound_lives.
Qed.

Lemma lives_on_refl w : node_live w → lives_on w w.
Proof. intros. by split. Qed.

Lemma lives_on_pending w w1 x : lives_on w w1 → lives_on w (set_pending x w1.1, w1.2).
Proof. intros [[] ? ? ?]. by split; [split|..]. Qed.

Lemma replicate_write_lives cmd ok w :
  node_live w → cn_outbound w.1 = [] →
  wp (replicate_write cmd ok) w (λ _ w', lives_on w w' ∧ queue_ok w'.1 (cn_outbound w'.1)) (dies w).
Proof.
  intros Hl Ho. unfold replicate_write, cluster_get, cluster_mod.
  assert (∀ w1 : CW, cn_outbound w1.1 = [] → queue_ok w1.1 (cn_outbound w1.1)) as Hq0.
  { intros w1 -> to t Hin. by apply not_elem_of_nil in Hin. }
  wp_step. wp_step. wp_step; [wp_step; split; [by apply lives_on_refl|auto]|]. wp_step.
  eapply wp_mono; [apply (on_raft_lives _ (λ o, default [] o)); [done|done|..]| |done].
  - apply propose_durable, Hl.
  - apply propose_elects, Hl.
  - intros o w1 (Hlo & Ho1 & Hg). wp_step; [|wp_step; auto]. wp_step.
    eapply wp_mono; [by apply process_actions_lives| |done]. intros [] w2 [Hlo2 Hq].
    wp_step. wp_step. wp_step. split; [by apply lives_on_pending|done].
Qed.

Lemma handle_client_command_lives c w :
  node_live w → cn_outbound w.1 = [] →
  wp (handle_client_command c) w
    (λ _ w', lives_on w w' ∧ queue_ok w'.1 (cn_outbound w'.1)) (dies w).
Proof.
  intros Hl Ho. unfold handle_client_command, cluster_mod. wp_step. wp_step.
  set (w1 := (set_pending None w.1, w.2)).
  assert (lives_on w w1) as Hlo by (by apply lives_on_pending, lives_on_refl).
  assert (queue_ok w1.1 (cn_outbound w1.1)) as Hq.
  { unfold w1. simpl. rewrite Ho. intros to t Hin. by apply not_elem_of_nil in Hin. }
  assert (∀ cmd ok, wp (replicate_write cmd ok) w1
    (λ _ w', lives_on w w' ∧ queue_ok w'.1 (cn_outbound w'.1)) (dies w)) as Hw.
  { intros cmd ok. eapply wp_mono; [apply replicate_write_lives; [apply Hlo|done]| |done].
    simpl. intros _ w' [Hlo' Hq']. split; [|done]. destruct Hlo'. by split. }
  unfold cluster_get. destruct c; repeat wp_step; auto.
Qed.

Lemma command_activity_lives c w :
  node_live w → cn_outbound w.1 = [] →
  wp (command_activity c) w
    (λ msgs w', lives_on w w' ∧ cn_outbound w'.1 = [] ∧ queue_ok w'.1 msgs) (dies w).
Proof.
  intros Hl Ho. unfold command_activity, run_command, cluster_get. wp_step. wp_step.
  eapply wp_mono; [by apply handle_client_command_lives| |done]. intros r w1 [Hlo Hq].
  wp_step. wp_step. wp_step. eapply wp_mono; [by apply take_outbound_lives| |done].
  intros msgs w2 Hw. by repeat wp_step.
Qed.

End activity.
