(* ===== verification/Returns.v ===== *)
(** * Every section under the lock returns

    The deployed image is a release build: sums wrap and never panic.  A process
    that holds the node's mutex and panicked would poison it, and every other
    thread would then panic at its [lock().unwrap()].  Here it is shown that this
    cannot happen: unless the disk kills the process, every section runs to its
    end, whatever the state of the node, the message or the command, and whatever
    errors the disk reports. *)

From S2P Require Import Prelude Text Fs Log State Message Persist Codec Node Commit.
From S2P Require Import Durability BTree Memtable Wal Engine Ring Router Protocol Cluster.
From S2P Require Import ClusterProps Transport Server Election Replication System.

(** Faults that may fail operations but not kill the process. *)
Definition survivable (fs : Fs) : Prop := Forall (λ f, ∀ w, f ≠ Kill w) (fs_faults fs).

(** [total I m]: from a world that satisfies [I] the process returns, in a world
    that satisfies [I]. *)
Definition total {W A} (I : W → Prop) (m : proc W A) : Prop :=
  ∀ w, I w → wp m w (λ _ w', I w') (λ _, False).

Section total.
Context {W : Type} (I : W → Prop).

Lemma total_ret {A} (a : A) : total I (mret a).
Proof. by intros w. Qed.

Lemma total_gets {A} (f : W → A) : total I (gets f).
Proof. by intros w. Qed.

Lemma total_modify (f : W → W) : (∀ w, I w → I (f w)) → total I (modify f).
Proof. by intros Hf w Hw; apply Hf. Qed.

Lemma total_bind {A B} (m : proc W A) (f : A → proc W B) :
  total I m → (∀ a, total I (f a)) → total I (m ≫= f).
Proof.
  intros Hm Hf w Hw. apply wp_bind. eapply wp_mono; [by apply Hm| |done]. simpl. intros a w'. apply Hf.
Qed.

Lemma total_try {E A B} (m : proc W (result E A)) (k : A → proc W (result E B)) :
  total I m → (∀ a, total I (k a)) → total I (try_bind m k).
Proof. intros Hm Hk. apply total_bind; [done|]. intros []; [done|apply total_ret]. Qed.

Lemma total_when b (m : proc W unit) : total I m → total I (when b m).
Proof. destruct b; [done|]. intros _. apply total_ret. Qed.

Lemma total_for_each {A} (f : A → proc W unit) xs : (∀ x, total I (f x)) → total I (for_each f xs).
Proof. intros Hf. induction xs; simpl; [apply total_ret|]. by apply total_bind. Qed.

Lemma total_zoom {V A} (J : V → Prop) (get : W → V) put (m : proc V A) :
  (∀ w, I w → J (get w)) → (∀ w v, I w → J v → I (put v w)) → total J m → total I (zoom get put m).
Proof.
  intros Hget Hput Hm w Hw. apply wp_zoom. eapply wp_mono; [apply Hm; auto|..]; simpl; auto.
Qed.

Lemma total_add_u64 x y : total I (@add_u64 release_build _ x y).
Proof. intros w Hw. unfold add_u64. by case_bool_decide. Qed.

Lemma total_returns {A} (m : proc W A) w : total I m → I w → ∃ a w', m w = (Done a, w') ∧ I w'.
Proof. intros Hm Hw. specialize (Hm w Hw). unfold wp in Hm. destruct (m w) as [[a|] w']; [eauto|done]. Qed.
End total.

(** Follow the syntax of a process; leaves the primitive steps as goals. *)
Ltac total_step :=
  lazymatch goal with
  | |- total _ (_ ≫= _) => apply total_bind; [|intros ?]
  | |- total _ (try_bind _ _) => apply total_try; [|intros ?]
  | |- total _ (mret _) => apply total_ret
  | |- total _ (gets _) => apply total_gets
  | |- total _ (modify _) => apply total_modify
  | |- total _ (when _ _) => apply total_when
  | |- total _ (for_each _ _) => apply total_for_each; intros ?
  | |- total _ (add_u64 _ _) => apply total_add_u64
  | |- total _ (if ?b then _ else _) => destruct b
  | |- total _ (match ?x with _ => _ end) => destruct x
  | |- total _ (let '(_, _) := ?x in _) => destruct x
  | |- total _ _ => progress cbv beta zeta
  end.

Ltac total_auto := repeat total_step; try done; auto with total.

Create HintDb total.

(** ** The disk *)

Lemma next_fault_total fs : survivable fs →
  wp next_fault fs (λ f fs', (∀ w, f ≠ Kill w) ∧ survivable fs') (λ _, False).
Proof.
  unfold survivable, wp, next_fault. destruct (fs_faults fs) as [|f l] eqn:E; simpl; [by rewrite E|].
  by rewrite Forall_cons.
Qed.

(** An operation asks for its fault and then does not kill. *)
Lemma total_faulty {A} (k : fault → proc Fs A) :
  (∀ f, (∀ w, f ≠ Kill w) → total survivable (k f)) → total survivable (f ← next_fault; k f).
Proof.
  intros Hk fs Hfs. apply wp_bind. eapply wp_mono; [by apply next_fault_total| |done].
  intros f fs' [Hf Hfs']. by apply Hk.
Qed.

Section disk.

Lemma total_put_file p c : total survivable (put_file p c).
Proof. by apply total_modify. Qed.
#[local] Hint Resolve total_put_file : total.

Lemma total_append_bytes p s : total survivable (append_bytes p s).
Proof. unfold append_bytes. total_auto. Qed.
#[local] Hint Resolve total_append_bytes : total.

Ltac faulty :=
  apply total_faulty; intros [|?|?] Hf; [| |exfalso; by eapply Hf]; total_auto.

Lemma total_create_dir_all : total survivable create_dir_all.
Proof. unfold create_dir_all. faulty. Qed.

Lemma total_fs_write p c : total survivable (fs_write p c).
Proof. unfold fs_write. faulty. Qed.

Lemma total_fs_read p : total survivable (fs_read_to_string p).
Proof. unfold fs_read_to_string. faulty. Qed.

Lemma total_open_append p : total survivable (open_append p).
Proof. unfold open_append. faulty. Qed.

Lemma total_write_append p s : total survivable (write_append p s).
Proof. unfold write_append. faulty. Qed.

Lemma total_sync_all p : total survivable (sync_all p).
Proof. unfold sync_all. faulty. Qed.

End disk.
#[export] Hint Resolve total_create_dir_all total_fs_write total_fs_read total_open_append
  total_write_append total_sync_all : total.

(** A world whose disk is its second component. *)
Definition alive {V} (w : V * Fs) : Prop := survivable w.2.

(** ** The consensus node *)

Section node.
Context `{StateCodec}.
#[local] Existing Instance release_build.

Lemma total_node_mod f : total alive (node_mod f).
Proof. by apply total_modify. Qed.

Lemma total_state_mod f : total alive (state_mod f).
Proof. by apply total_modify. Qed.

Lemma total_node_get {A} (f : RaftNode → A) : total alive (node_get f).
Proof. apply total_gets. Qed.

Lemma total_state_get {A} (f : RaftState → A) : total alive (state_get f).
Proof. apply total_gets. Qed.
#[local] Hint Resolve total_node_mod total_state_mod total_node_get total_state_get : total.

Lemma total_persist : total alive persist.
Proof.
  unfold persist, on_disk. total_auto. apply (total_zoom _ survivable); [done|done|].
  unfold save. total_auto.
Qed.
#[local] Hint Resolve total_persist : total.

Lemma total_win_election : total alive win_election.
Proof. unfold win_election. total_auto. Qed.
#[local] Hint Resolve total_win_election : total.

Lemma total_start_election : total alive start_election.
Proof.
  unfold start_election. total_auto. unfold on_state.
  apply (total_zoom _ (λ _, True)); [done|done|]. unfold become_candidate. total_auto.
Qed.
#[local] Hint Resolve total_start_election : total.

Lemma total_tick : total alive tick.
Proof. unfold tick, tick_election, tick_heartbeat. total_auto. Qed.

Lemma total_apply_committed c : total alive (apply_committed_entries c).
Proof. unfold apply_committed_entries. total_auto. Qed.
#[local] Hint Resolve total_apply_committed : total.

Lemma total_maybe_advance : total alive maybe_advance_commit_index.
Proof. unfold maybe_advance_commit_index. total_auto. Qed.
#[local] Hint Resolve total_maybe_advance : total.

(** The slice of the new entries is in bounds. *)
Lemma total_append_new_entries request : total alive (append_new_entries request).
Proof.
  unfold append_new_entries. destruct (bool_decide _); [apply total_ret|]. intros w Hw.
  set (start := wrap64 (ae_prev_log_index request + 1)).
  assert (∀ w : RW, @add_u64 release_build _ (ae_prev_log_index request) 1 w = (Done start, w)) as Hadd.
  { intros w'. unfold add_u64, start. case_bool_decide; [by rewrite wrap64_small|done]. }
  assert (∀ new, total alive (if bool_decide (new = []) then mret tt else
    state_mod (λ s, set_log (log_append_entries (rs_log s) new).1 s) ;; persist)) as Hrest.
  { intros new. total_auto. }
  apply wp_bind. unfold wp. rewrite Hadd. apply wp_bind, wp_gets. cbn [fst].
  destruct (scan_entries _ _ start) as [l' i'] eqn:Hs.
  apply scan_entries_spec in Hs as (k & -> & Hk & _). cbn [fst snd].
  apply wp_bind, wp_modify, wp_bind. unfold wp. rewrite Hadd. apply wp_bind. unfold wp.
  rewrite sub_u64_ok by lia. apply wp_bind. unfold wp.
  rewrite slice_from_ok by (unfold vec_len; lia). by apply Hrest.
Qed.
#[local] Hint Resolve total_append_new_entries : total.

Lemma total_update_first {W} (I : W → Prop) from f v :
  (∀ x, total I (f x)) → total I (update_first from f v).
Proof. intros Hf. induction v as [|[]]; simpl; total_auto. Qed.

Lemma total_update_next from f : (∀ x, total alive (f x)) → total alive (update_next_index from f).
Proof. intros. unfold update_next_index. total_auto. by apply total_update_first. Qed.

Lemma total_update_match from f : (∀ x, total alive (f x)) → total alive (update_match_index from f).
Proof. intros. unfold update_match_index. total_auto. by apply total_update_first. Qed.

(** The entry points of the node. *)
Lemma total_handle_input i : total alive (handle_input i).
Proof.
  destruct i; simpl.
  - apply total_tick.
  - unfold handle_request_vote. total_auto.
  - unfold handle_request_vote_response. total_auto.
  - unfold handle_append_entries. total_auto.
  - unfold handle_append_entries_response.
    repeat first [total_step|apply total_update_next|apply total_update_match]; auto with total; intros;
      total_auto.
  - unfold propose. total_auto.
Qed.

Lemma total_propose c : total alive (propose c).
Proof. unfold propose. total_auto. Qed.

Lemma total_with_persistence id ps dir : total survivable (with_persistence id ps dir).
Proof. unfold with_persistence, load. total_auto. Qed.

(** ** Storage *)

Lemma total_on_fs {A} (m : proc Fs A) : total survivable m → total alive (on_fs m).
Proof. intros Hm. by apply (total_zoom _ survivable). Qed.

Lemma total_wal_append e : total alive (wal_append e).
Proof.
  assert (total alive flush_buf) as Hflush.
  { unfold flush_buf. total_auto. apply total_on_fs. auto with total. }
  assert (total alive wal_sync) as Hsync.
  { unfold wal_sync. total_auto. apply total_on_fs. auto with total. }
  unfold wal_append, buf_write_all. total_auto. apply total_on_fs. auto with total.
Qed.

Lemma total_apply_entry e : total (λ _, True) (apply_entry e).
Proof. unfold apply_entry, memtable_put, memtable_delete, mt_grow. total_auto. Qed.

Lemma total_engine_new dir : total survivable (engine_new dir).
Proof.
  unfold engine_new, wal_new, wal_replay. total_auto. intros fs Hfs. unfold wp, with_local.
  destruct (total_returns (λ _, True) (for_each apply_entry a1) memtable_new) as (x & m & -> & _);
    [apply total_for_each; intros; apply total_apply_entry|done|done].
Qed.

Lemma total_engine_mutate m : total alive (engine_mutate m).
Proof.
  destruct m; simpl; unfold engine_put, engine_delete, on_wal, on_memtable; total_auto;
    first [apply (total_zoom _ alive); [done|done|apply total_wal_append]
          |apply (total_zoom _ (λ _, True)); [done|done|]];
    unfold memtable_put, memtable_delete, mt_grow; total_auto.
Qed.

(** ** The cluster node *)

Lemma total_on_raft {A} (m : proc RW A) : total alive m → total alive (on_raft m).
Proof. intros Hm. by apply (total_zoom _ alive). Qed.

Lemma total_process_actions actions : total alive (process_actions actions).
Proof.
  unfold process_actions, process_action, push_message, cluster_mod, on_storage. total_auto;
    (apply (total_zoom _ alive); [done|done|]); [apply (total_engine_mutate (MPut _ _))|apply (total_engine_mutate (MDelete _))].
Qed.
#[local] Hint Resolve total_process_actions : total.

Lemma total_take_outbound : total alive take_outbound_messages.
Proof. unfold take_outbound_messages, cluster_get, cluster_mod. total_auto. Qed.
#[local] Hint Resolve total_take_outbound : total.

Lemma total_tick_activity : total alive tick_activity.
Proof. unfold tick_activity, cluster_tick. total_auto. apply total_on_raft, total_tick. Qed.

Lemma total_deliver_activity msg : total alive (deliver_activity msg).
Proof.
  unfold deliver_activity. total_step; [|auto with total].
  apply total_bind; [apply total_on_raft|auto with total].
  pose proof (total_handle_input (network_input msg)) as Hi. by destruct msg.
Qed.

Lemma total_command_activity c : total alive (command_activity c).
Proof.
  assert (∀ cmd ok, total alive (replicate_write cmd ok)) as Hw.
  { intros. unfold replicate_write, cluster_get, cluster_mod. total_auto. apply total_on_raft, total_propose. }
  unfold command_activity, run_command, handle_client_command, cluster_get, cluster_mod. total_auto.
Qed.

Lemma total_cluster_new i ps dir : total survivable (cluster_new i ps dir).
Proof.
  unfold cluster_new. total_auto; [apply total_engine_new|apply total_with_persistence].
Qed.

End node.

(** A state on which the sums and differences that Log.v and Node.v take without
    wrap-around are exact in the program too: the log has its sentinel, and the
    counters are below the last 64-bit value. *)
Definition sane (s : RaftState) : Prop :=
  l_entries (rs_log s) ≠ [] ∧ in_u64 (commit_index s + 1) ∧ in_u64 (last_applied s + 1).

(** C10: no section under the lock panics or loops.  In a release build, from any
    sane state of a node and any disk, whatever message arrives, whatever command a
    client sends and whatever errors the disk reports (as long as it does not kill
    the process), the tick, the handling of a message and the handling of a
    command run to their end, and so does the opening of a node: the mutex is
    never poisoned. *)
Theorem sections_return `{StateCodec} (w : CW) msg c i ps dir :
  sane (rn_state (cn_raft w.1)) → survivable w.2 →
  (∃ out w', @tick_activity release_build _ w = (Done out, w') ∧ survivable w'.2) ∧
  (∃ out w', @deliver_activity release_build _ msg w = (Done out, w') ∧ survivable w'.2) ∧
  (∃ out w', @command_activity release_build _ c w = (Done out, w') ∧ survivable w'.2) ∧
  (∃ r fs, @cluster_new release_build _ i ps dir w.2 = (Done r, fs) ∧ survivable fs).
Proof.
  intros _ Hw. split_and!.
  - by apply (total_returns alive), Hw; apply total_tick_activity.
  - by apply (total_returns alive), Hw; apply total_deliver_activity.
  - by apply (total_returns alive), Hw; apply total_command_activity.
  - by apply (total_returns survivable), Hw; apply total_cluster_new.
Qed.

(** A node whose disk reports errors on the next three operations. *)
Definition failing_world : CW :=
  (solo_world.1, set_faults [Fail None; Fail (Some 2); Fail None] solo_world.2).

Lemma sections_return_witness :
  let w := failing_world in
  (∃ out w', @tick_activity release_build _ w = (Done out, w') ∧ survivable w'.2) ∧
  (∃ out w', @deliver_activity release_build _ (NAppendEntries 2 (mkAE 2 2 (u64_modulus - 1) 0 [] 1)) w
     = (Done out, w') ∧ survivable w'.2) ∧
  (∃ out w', @command_activity release_build _ (Set_ "k" "v") w = (Done out, w') ∧ survivable w'.2) ∧
  (∃ r fs, @cluster_new release_build _ 1 [1%N] "/d" w.2 = (Done r, fs) ∧ survivable fs).
Proof.
  apply (sections_return failing_world).
  - split_and!; vm_compute; [discriminate|reflexivity|reflexivity].
  - repeat constructor; discriminate.
Defined.
