(* ===== verification/CatchUp.v ===== *)
(** * A follower that is merely behind catches up (src/raft/node.rs)

    The counterpart of [conflicting_follower_is_never_repaired]: a follower whose
    log is a prefix of the leader's has the whole of it after at most two exchanges
    of a request and its reply, and the leader knows. *)

From S2P Require Import Prelude Text Fs Log State Message Persist Codec Node Commit.
From S2P Require Import Durability BTree Memtable Wal Engine Ring Router Protocol Cluster.
From S2P Require Import ClusterProps Transport Server Election Replication RaftSpec Transition RaftRules.
From S2P Require Import System Returns.

(** The leader's state and the follower's, and the leader's [next_index] for it. *)
Record lags (sl sf : RaftState) (f ni : N) : Prop := {
  lg_role : role sl = Leader;
  lg_next : table (next_index sl) !! f = Some ni;
  lg_match : is_Some (table (match_index sl) !! f);
  lg_range : (1 ≤ ni ≤ last_index (rs_log sl) + 1)%N;
  lg_terms : (current_term sf ≤ current_term sl)%N;
  lg_wf : log_wf (rs_log sl);
  lg_nonempty : l_entries (rs_log sf) ≠ [];
  lg_prefix : l_entries (rs_log sf) `prefix_of` l_entries (rs_log sl);
  lg_room : (last_index (rs_log sl) + 1 < u64_modulus)%N;
}.

(** The follower has the log [l], and the leader, still in office in term [t], has
    recorded so. *)
Record caught_up (l : RaftLog) (t f : N) (sl sf : RaftState) : Prop := {
  cu_follower : rs_log sf = l;
  cu_leader : rs_log sl = l;
  cu_role : role sl = Leader;
  cu_term : current_term sl = t;
  cu_match : table (match_index sl) !! f = Some (last_index l);
  cu_next : table (next_index sl) !! f = Some (last_index l + 1)%N;
}.

(** One exchange: the leader's request for [f], and the follower's reply to it. *)
Definition exchange `{Build, StateCodec} (f : N) (wl wf : RW) : option (RW * RW) :=
  match replicate_to_peer (rn_state wl.1) f with
  | Some (SendAppendEntries _ request) =>
      match handle_append_entries request wf with
      | (Done actions, wf') =>
          match last actions with
          | Some (SendAppendEntriesResponse _ response) =>
              match handle_append_entries_response f response wl with
              | (Done _, wl') => Some (wl', wf')
              | (Halted, _) => None
              end
          | _ => None
          end
      | (Halted, _) => None
      end
  | _ => None
  end.

(** ** Lists *)

Lemma merge_entries_prefix new : ∀ old, old `prefix_of` new → merge_entries old new = new.
Proof.
  induction new as [|n new IH]; intros [|o old] Hp; simpl; try done.
  - by apply prefix_nil_inv in Hp.
  - apply prefix_cons_inv_1 in Hp as Ho. apply prefix_cons_inv_2 in Hp. subst.
    rewrite bool_decide_true by done. by rewrite IH.
Qed.

Lemma merge_prefix k old new :
  old `prefix_of` new → k ≤ length old → take k old ++ merge_entries (drop k old) (drop k new) = new.
Proof.
  intros [r ->] Hk. rewrite drop_app_le by done. rewrite merge_entries_prefix by by eexists.
  by rewrite app_assoc, take_drop.
Qed.

(** ** What the rules say *)

Lemma leader_commits_keeps s s' out :
  leader_commits s s' out →
  rs_log s' = rs_log s ∧ role s' = role s ∧ current_term s' = current_term s ∧
  next_index s' = next_index s ∧ match_index s' = match_index s.
Proof. by destruct 1. Qed.

Lemma follower_commits_keeps lc s s' out :
  follower_commits lc s s' out → rs_log s' = rs_log s ∧ current_term s' = current_term s.
Proof. by destruct 1. Qed.

Lemma table_update_lookup p f v v' x :
  table_update p f v v' → table v !! p = Some x → table v' !! p = Some (f x).
Proof. intros [_ ->] Hx. by rewrite lookup_alter_eq, Hx. Qed.

Section exchange.
Context `{StateCodec}.
#[local] Existing Instance release_build.

(** A node whose disk does not kill it takes a step of the rules. *)
Lemma node_steps i w :
  roomy_input i → i ≠ InTick → alive w →
  ∃ actions w', handle_input i w = (Done actions, w') ∧ alive w' ∧
    raft_rule (rn_state w.1) (votes_received w.1) (timer_expires w.1) i
      (rn_state w'.1) (votes_received w'.1) actions.
Proof.
  intros Hi Ht Hw. destruct (total_returns alive _ w (total_handle_input i) Hw) as (actions & w' & Hrun & Hw').
  exists actions, w'. split_and!; [done|done|]. pose proof (wp_run _ _ _ _ _ _ (handle_input_next i w) Hrun) as Hn.
  cbv beta in Hn. pose proof (transition_follows (timer_expires w.1) (view w.1) i Hi ltac:(done)) as Hf.
  unfold follows in Hf. by rewrite Hn in Hf.
Qed.

Lemma entry_term_prefix es es' i :
  es `prefix_of` es' → N.to_nat i < length es → entry_term es i = entry_term es' i.
Proof.
  intros Hp Hi. unfold entry_term. destruct (lookup_lt_is_Some_2 es (N.to_nat i) Hi) as [e He].
  by rewrite He, (prefix_lookup_Some _ _ _ _ He Hp).
Qed.

(** The follower accepts everything if it has the entry before [ni], and otherwise
    reports where its log ends. *)
Lemma follower_answers sl f ni wf request :
  lags sl (rn_state wf.1) f ni → alive wf → ask_append sl f ni = SendAppendEntries f request →
  let l := rs_log (rn_state wf.1) in
  ∃ actions wf', handle_append_entries request wf = (Done actions, wf') ∧ alive wf' ∧
    current_term (rn_state wf'.1) = current_term sl ∧
    if decide (ni ≤ vec_len (l_entries l))%N
    then rs_log (rn_state wf'.1) = rs_log sl ∧
         last actions = Some (SendAppendEntriesResponse (rs_id sl)
           (mkAER (current_term sl) true (Some (last_index (rs_log sl)))))
    else rs_log (rn_state wf'.1) = l ∧
         last actions = Some (SendAppendEntriesResponse (rs_id sl)
           (mkAER (current_term sl) false (Some (last_index l)))).
Proof.
  intros [_ _ _ Hni Hterms Hwf Hne Hp Hroom] Hw Hreq. simpl.
  injection Hreq as <-. set (request := mkAE _ _ _ _ _ _).
  destruct (node_steps (InAppendEntries request) wf) as (actions & wf' & Hrun & Hw' & Hr); [simpl; lia|done|done|].
  exists actions, wf'. split; [exact Hrun|]. split; [done|]. unfold vec_len.
  inversion Hr as [| | | | | | | | |? Ht|? Ht Hprev|? es s' applied Ht Hprev Hes Hf| | | | | |]; subst; simpl in *.
  - lia.
  - split; [done|]. rewrite decide_False.
    + by rewrite end_index_of.
    + intros Hle. apply Hprev, entry_term_prefix; [done|]. unfold entries. lia.
  - destruct (follower_commits_keeps _ _ _ _ Hf) as [El Et]. simpl in El, Et. split; [done|].
    destruct (decide (ni ≤ N.of_nat (length (l_entries (rs_log (rn_state wf.1)))))%N) as [Hle|Hgt].
    + rewrite last_snoc, El. replace (N.to_nat (ni - 1 + 1)) with (N.to_nat ni) by lia.
      rewrite (merge_prefix (N.to_nat ni) (entries (rn_state wf.1)) (entries sl) Hp) by (unfold entries; lia).
      unfold entries. rewrite <-end_index_of. by destruct (rs_log sl).
    + exfalso. unfold entry_term at 1, entries in Hprev. rewrite lookup_ge_None_2 in Hprev by lia.
      simpl in Hprev. rewrite <-entry_term_at in Hprev. symmetry in Hprev.
      apply term_at_zero in Hprev; [|done].
      assert (0 < length (l_entries (rs_log (rn_state wf.1)))) by (destruct (l_entries _); simpl; [done|lia]). lia.
Qed.

(** The leader's side. *)
Lemma leader_hears_success f wl ni m :
  role (rn_state wl.1) = Leader → table (next_index (rn_state wl.1)) !! f = Some ni →
  is_Some (table (match_index (rn_state wl.1)) !! f) → (m + 1 < u64_modulus)%N → alive wl →
  ∃ out wl', handle_append_entries_response f (mkAER (current_term (rn_state wl.1)) true (Some m)) wl
      = (Done out, wl') ∧ alive wl' ∧ let s := rn_state wl'.1 in
    rs_log s = rs_log (rn_state wl.1) ∧ role s = Leader ∧ current_term s = current_term (rn_state wl.1) ∧
    table (next_index s) !! f = Some (m + 1)%N ∧ table (match_index s) !! f = Some m.
Proof.
  intros Hl Hn [x Hx] Hm Hw. set (response := mkAER _ _ _).
  destruct (node_steps (InAppendEntriesResponse f response) wl) as (out & wl' & Hrun & Hw' & Hr);
    [by intros ? [= <-]|done|done|].
  exists out, wl'. split; [exact Hrun|]. split; [done|].
  inversion Hr as [| | | | | | | | | | | |? ? Hf|? ? ? Hlt|? ? next mtch ? ? ? ? ? Hu Hc|? ? ? ? ? Hs| |];
    subst; simpl in *; [done|lia| |done].
  destruct Hu as [Hu1 Hu2], (leader_commits_keeps _ _ _ Hc) as (E1 & E2 & E3 & E4 & E5). simpl in *.
  rewrite E1, E2, E3, E4, E5. split_and!; [done..|by eapply (table_update_lookup _ _ _ _ ni)|
    by eapply (table_update_lookup _ _ _ _ x)].
Qed.

Lemma leader_hears_failure f wl ni m :
  role (rn_state wl.1) = Leader → table (next_index (rn_state wl.1)) !! f = Some ni →
  (m + 1 < u64_modulus)%N → alive wl →
  ∃ out wl', handle_append_entries_response f (mkAER (current_term (rn_state wl.1)) false (Some m)) wl
      = (Done out, wl') ∧ alive wl' ∧ let s := rn_state wl'.1 in
    rs_log s = rs_log (rn_state wl.1) ∧ role s = Leader ∧ current_term s = current_term (rn_state wl.1) ∧
    table (next_index s) !! f = Some (m + 1)%N ∧ match_index s = match_index (rn_state wl.1).
Proof.
  intros Hl Hn Hm Hw. set (response := mkAER _ _ _).
  destruct (node_steps (InAppendEntriesResponse f response) wl) as (out & wl' & Hrun & Hw' & Hr);
    [by intros ? [= <-]|done|done|].
  exists out, wl'. split; [exact Hrun|]. split; [done|].
  inversion Hr as [| | | | | | | | | | | |? ? Hf|? ? ? Hlt|? ? ? ? ? ? ? ? Hs|? ? next ? ? ? Hu| |];
    subst; simpl in *; [done|lia|done|].
  split_and!; try done. by eapply (table_update_lookup _ _ _ _ ni).
Qed.

(** An exchange in which the follower accepts. *)
Lemma exchange_accepted f ni wl wf :
  lags (rn_state wl.1) (rn_state wf.1) f ni → alive wl → alive wf →
  (ni ≤ vec_len (l_entries (rs_log (rn_state wf.1))))%N →
  ∃ wl' wf', exchange f wl wf = Some (wl', wf') ∧
    caught_up (rs_log (rn_state wl.1)) (current_term (rn_state wl.1)) f (rn_state wl'.1) (rn_state wf'.1).
Proof.
  intros Hlag Hwl Hwf Hle. destruct (follower_answers _ _ _ wf _ Hlag Hwf eq_refl)
    as (actions & wf' & Hrun & _ & _ & Hans). rewrite decide_True in Hans by done. destruct Hans as [Hlog Hlast].
  destruct (leader_hears_success f wl ni (last_index (rs_log (rn_state wl.1))))
    as (out & wl' & Hrun' & _ & E1 & E2 & E3 & E4 & E5); [apply Hlag..|done|].
  exists wl', wf'. unfold exchange. rewrite ask_append_of, (lg_next _ _ _ _ Hlag). simpl.
  rewrite Hrun, Hlast, Hrun'. split; [done|]. by split.
Qed.

(** One in which it does not leaves the leader with the follower's end. *)
Lemma exchange_rejected f ni wl wf :
  lags (rn_state wl.1) (rn_state wf.1) f ni → alive wl → alive wf →
  (vec_len (l_entries (rs_log (rn_state wf.1))) < ni)%N →
  ∃ wl' wf', exchange f wl wf = Some (wl', wf') ∧ alive wl' ∧ alive wf' ∧
    rs_log (rn_state wl'.1) = rs_log (rn_state wl.1) ∧
    current_term (rn_state wl'.1) = current_term (rn_state wl.1) ∧
    rs_log (rn_state wf'.1) = rs_log (rn_state wf.1) ∧
    lags (rn_state wl'.1) (rn_state wf'.1) f (vec_len (l_entries (rs_log (rn_state wf.1)))).
Proof.
  intros Hlag Hwl Hwf Hlt. destruct (follower_answers _ _ _ wf _ Hlag Hwf eq_refl)
    as (actions & wf' & Hrun & Hwf' & Ht & Hans). rewrite decide_False in Hans by lia.
  destruct Hans as [Hlog Hlast]. destruct Hlag as [Hr Hn Hm Hni Hterms Hwf0 Hne Hp Hroom].
  set (F := rs_log (rn_state wf.1)) in *.
  assert (last_index F + 1 = vec_len (l_entries F))%N as Hend.
  { unfold last_index, vec_len. destruct (l_entries F); simpl; [done|lia]. }
  assert (vec_len (l_entries F) ≤ last_index (rs_log (rn_state wl.1)) + 1)%N as Hlen by lia.
  destruct (leader_hears_failure f wl ni (last_index F))
    as (out & wl' & Hrun' & Hwl' & E1 & E2 & E3 & E4 & E5); [done|done|lia|done|].
  exists wl', wf'. unfold exchange. rewrite ask_append_of, Hn. simpl.
  rewrite Hrun, Hlast, Hrun'. split_and!; try done.
  split; rewrite ?E1, ?E3, ?E5, ?Hlog, ?Ht; try done; [by rewrite E4, Hend|lia].
Qed.

End exchange.


(** The leader believes that node 2 has its first two entries; it has none. *)
Definition behind_leader : RW := leader_world 3 [put 1 "a"; put 3 "x"; put 3 "y"] 3.

Definition behind_follower : RW := follower_world 2 1 [].

