(* ===== verification/ElectionSafety.v ===== *)
(** * Election Safety

    At most one node is ever leader in a term, for any cluster of nodes that run
    the program, with any interleaving of ticks, deliveries, client commands,
    crashes and restarts, on a network that may lose, duplicate, delay and reorder
    messages.  The disk may kill the process at any operation, before the
    operation takes effect; it does not tear writes and does not return errors
    ([crash_only], part of [benign]).  Unsafety.v shows that both would break the
    property. *)

From S2P Require Import Prelude Text Fs Log State Message Persist Codec Node Commit.
From S2P Require Import Durability BTree Memtable Wal Engine Ring Router Protocol Cluster.
From S2P Require Import ClusterProps Transport Server Election System.
From Stdlib Require Import Ascii.

(** ** The two files of a node are different files *)

Lemma path_join_ends dir name c : name ≠ "" → ends_with c (path_join dir name) = ends_with c name.
Proof.
  intros Hn. unfold path_join. case_match; [by apply ends_with_app|].
  rewrite <-str_append_assoc. by apply ends_with_app.
Qed.

Lemma append_nonempty_r a b : b ≠ "" → a +:+ b ≠ "".
Proof. destruct a; [done|]. by destruct b. Qed.

Lemma state_file_not_wal dir id dir' : persist_path dir id ≠ engine_wal_path dir'.
Proof.
  intros E. assert (ends_with "n" (persist_path dir id) = ends_with "n" (engine_wal_path dir')) as F
    by (by rewrite E).
  unfold persist_path, engine_wal_path in F.
  rewrite !path_join_ends in F by done.
  rewrite <-str_append_assoc, ends_with_app in F by done. done.
Qed.

(** ** Quorums *)

Lemma quorums_meet (l : list N) (Q1 Q2 : gset N) :
  Q1 ⊆ list_to_set l → Q2 ⊆ list_to_set l →
  (vec_len l / 2 + 1 ≤ N.of_nat (size Q1))%N → (vec_len l / 2 + 1 ≤ N.of_nat (size Q2))%N →
  ∃ v, v ∈ Q1 ∧ v ∈ Q2.
Proof.
  intros H1 H2 S1 S2.
  destruct (decide (Q1 ∩ Q2 = ∅)) as [He|Hne].
  - exfalso. assert (size (Q1 ∪ Q2) = size Q1 + size Q2) as Hs by (apply size_union; set_solver).
    assert (Q1 ∪ Q2 ⊆ list_to_set (C := gset N) l) as Hsub by set_solver.
    apply subseteq_size in Hsub. rewrite Hs in Hsub.
    assert (size (list_to_set (C := gset N) l) ≤ length l) as Hlen.
    { clear. induction l as [|x l IH]; simpl; [reflexivity|].
      rewrite size_union_alt, size_singleton.
      pose proof (subseteq_size (list_to_set (C := gset N) l ∖ {[x]}) (list_to_set l) ltac:(set_solver)).
      lia. }
    unfold vec_len in *. pose proof (N.div_mod (N.of_nat (length l)) 2 ltac:(lia)).
    pose proof (N.mod_lt (N.of_nat (length l)) 2 ltac:(lia)). lia.
  - apply set_choose_L in Hne as [v Hv]. exists v. set_solver.
Qed.

Section safety.
Context `{StateCodecLaws} `{Build} `{Deployment}.

Definition state_file (i : N) : StatePersister := persister_new (persist_path (data_dir i) i).

Definition box (σ : system) : ballot_box := λ v t c, (v, t, c) ∈ sys_ballots σ.

Definition disk_vote (i : N) (m : machine) : N * option N := vote_of (disk_state (state_file i) (m_disk m)).

(** ** The invariant *)

Record node_up (σ : system) (i : N) (c : ClusterNode) (fs : Fs) : Prop := {
  up_live : node_live (state_file i) (box σ) (c, fs);
  up_outbound : cn_outbound c = [];
  up_id : rs_id (rn_state (cn_raft c)) = i;
  up_peers : peers (rn_state (cn_raft c)) = members;
}.

(** A set of members that all voted for [i] in term [t] and are a majority. *)
Definition mandate (σ : system) (t i : N) : Prop :=
  ∃ Q : gset N, Q ⊆ list_to_set members ∧ (vec_len members / 2 + 1 ≤ N.of_nat (size Q))%N ∧
    ∀ v, v ∈ Q → box σ v t i.

Record sys_ok (σ : system) : Prop := {
  ok_member : ∀ i m, sys_machines σ !! i = Some m → i ∈ members;
  ok_ballot : ∀ v t c, box σ v t c →
    ∃ m, sys_machines σ !! v = Some m ∧ vote_le (t, Some c) (disk_vote v m);
  ok_once : ∀ v t c c', box σ v t c → box σ v t c' → c = c';
  ok_up : ∀ i m c, sys_machines σ !! i = Some m → m_node m = Some c → node_up σ i c (m_disk m);
  ok_granted : ∀ to v t, (to, NRequestVoteResponse v (mkRVR t true)) ∈ sys_net σ → box σ v t to;
  ok_leader : ∀ t i, (t, i) ∈ sys_leaders σ → mandate σ t i;
}.

(** ** Preservation *)

Lemma node_up_mono σ σ' i c fs :
  (∀ v t x, box σ v t x → box σ' v t x) → node_up σ i c fs → node_up σ' i c fs.
Proof.
  intros Hb [[Hc He Hw] Ho Hi Hp]. split; try done. split; try done. by eapply electoral_mono.
Qed.

Lemma node_live_faults p B c fs l :
  crash_only l → node_live p B (c, fs) → node_live p B (c, set_faults l fs).
Proof. intros Hl [[] He Hw]. by split; [split|..]. Qed.

Lemma vote_le_same t c c' : vote_le (t, Some c) (t, Some c') → c = c'.
Proof. intros [?|[_ [?|?]]]; simpl in *; [lia|done|by simplify_eq]. Qed.

Lemma kill_node_ok σ i m fs :
  sys_ok σ → sys_machines σ !! i = Some m →
  vote_le (disk_vote i m) (vote_of (disk_state (state_file i) fs)) → sys_ok (kill_node i fs σ).
Proof.
  intros [Hmem Hbal Honce Hup Hnet Hlead] Hm Hv. split; simpl; try done.
  - intros j mj [[-> <-]|[? ?]]%lookup_insert_Some; eauto.
  - intros v t c (mv & Hmv & Hle)%Hbal. destruct (decide (v = i)) as [->|Hne].
    + rewrite lookup_insert_eq. eexists. split; [done|]. simplify_eq. by etrans.
    + rewrite lookup_insert_ne by done. eauto.
  - intros j mj c [[-> <-]|[? ?]]%lookup_insert_Some Hn; [done|].
    eapply node_up_mono; [|by eapply Hup]. done.
Qed.

Lemma node_ballot_spec i s v t c :
  (v, t, c) ∈ node_ballot i s ↔ v = i ∧ t = current_term s ∧ voted_for s = Some c.
Proof.
  unfold node_ballot. destruct (voted_for s); rewrite ?list_elem_of_singleton, ?elem_of_nil; naive_solver.
Qed.

Lemma node_leader_spec i s t j :
  (t, j) ∈ node_leader i s ↔ role s = Leader ∧ t = current_term s ∧ j = i.
Proof.
  unfold node_leader. case_bool_decide; rewrite ?list_elem_of_singleton, ?elem_of_nil; naive_solver.
Qed.

Lemma posts_granted i msgs to v t :
  (to, NRequestVoteResponse v (mkRVR t true)) ∈ posts i msgs →
  v = i ∧ mkMsg to (PRequestVoteResponse (mkRVR t true)) ∈ msgs.
Proof.
  intros ([to' pl] & Hin & Hm)%list_elem_of_omap. simpl in Hm. case_bool_decide; [|done].
  destruct pl; simpl in Hm; by simplify_eq.
Qed.

(** A node that comes out of an event as leader has a mandate. *)
Lemma new_leader_mandate σ σ' i m c fs :
  sys_ok σ → sys_machines σ !! i = Some m → node_up σ i c fs →
  (∀ v t x, box σ v t x → box σ' v t x) →
  (∀ x, voted_for (rn_state (cn_raft c)) = Some x → box σ' i (current_term (rn_state (cn_raft c))) x) →
  role (rn_state (cn_raft c)) = Leader →
  mandate σ' (current_term (rn_state (cn_raft c))) i.
Proof.
  intros Hok Hm [[_ [Hself Hvotes Hmaj] _] _ Hid Hpeers] Hsub Hown Hr. simpl in *.
  exists (votes_received (cn_raft c)). split_and!.
  - intros v Hv. apply elem_of_list_to_set. destruct (Hvotes ltac:(congruence) v Hv) as [->|Hb].
    + rewrite Hid. by eapply ok_member.
    + destruct (ok_ballot _ Hok _ _ _ Hb) as (mv & Hmv & _). by eapply ok_member.
  - specialize (Hmaj Hr). unfold majority_count, votes_count in Hmaj. by rewrite Hpeers in Hmaj.
  - intros v Hv. destruct (Hvotes ltac:(congruence) v Hv) as [->|Hb].
    + rewrite Hid in Hself |- *. apply Hown, Hself. congruence.
    + apply Hsub. by rewrite <-Hid.
Qed.

Lemma commit_event_ok σ i m c fs msgs :
  sys_ok σ → sys_machines σ !! i = Some m → node_up σ i c fs →
  vote_le (disk_vote i m) (vote_in_memory (c, fs)) → queue_ok c msgs →
  sys_ok (commit_event i c fs msgs σ).
Proof.
  intros Hok Hm Hc Hv Hq. pose proof Hok as [Hmem Hbal Honce Hup Hnet Hlead].
  set (σ' := commit_event i c fs msgs σ).
  assert (∀ v t x, box σ v t x → box σ' v t x) as Hsub by (intros; by apply elem_of_app; left).
  assert (∀ v t x, box σ' v t x → box σ v t x ∨ (v = i ∧ t = current_term (rn_state (cn_raft c)) ∧
    voted_for (rn_state (cn_raft c)) = Some x)) as Hnew.
  { intros v t x [?|?%node_ballot_spec]%elem_of_app; auto. }
  assert (∀ x, voted_for (rn_state (cn_raft c)) = Some x →
    box σ' i (current_term (rn_state (cn_raft c))) x) as Hown.
  { intros x Hx. apply elem_of_app. right. by apply node_ballot_spec. }
  assert (disk_vote i (mkMachine (Some c) (set_faults [] fs)) = vote_in_memory (c, fs)) as Hdv.
  { symmetry. apply (node_live_vote _ _ _ (up_live _ _ _ _ Hc)). }
  assert (∀ t x, box σ i t x → vote_le (t, Some x) (vote_in_memory (c, fs))) as Hold.
  { intros t x (m' & Hm' & Hle)%Hbal. simplify_eq. by etrans. }
  split; simpl.
  - intros j mj [[-> <-]|[? ?]]%lookup_insert_Some; eauto.
  - intros v t x Hb. destruct (decide (v = i)) as [->|Hne].
    + rewrite lookup_insert_eq. eexists. split; [done|]. rewrite Hdv.
      destruct (Hnew _ _ _ Hb) as [|(_ & -> & Hvf)]; [auto|]. right. simpl. rewrite Hvf. auto.
    + rewrite lookup_insert_ne by done. destruct (Hnew _ _ _ Hb) as [|(? & _)]; [auto|done].
  - intros v t x y Hx Hy.
    assert (∀ x y, box σ v t x → v = i → t = current_term (rn_state (cn_raft c)) →
      voted_for (rn_state (cn_raft c)) = Some y → x = y) as Hmix.
    { intros x' y' Hb -> -> Hy'. apply (vote_le_same (current_term (rn_state (cn_raft c)))).
      specialize (Hold _ _ Hb). unfold vote_in_memory, vote_of in Hold. simpl in Hold.
      by rewrite Hy' in Hold. }
    destruct (Hnew _ _ _ Hx) as [|(-> & -> & ?)], (Hnew _ _ _ Hy) as [|(? & ? & ?)];
      [by eapply Honce|by eapply Hmix|symmetry; by eapply Hmix|congruence].
  - intros j mj cj [[-> <-]|[? ?]]%lookup_insert_Some Hn; simpl in *.
    + simplify_eq. apply (node_up_mono σ); [done|]. destruct Hc. split; try done.
      apply node_live_faults; [constructor|done].
    + apply (node_up_mono σ); [done|]. by eapply Hup.
  - intros to v t [Hin|Hin]%elem_of_app; [by apply Hsub, Hnet|].
    apply posts_granted in Hin as [-> Hin]. apply Hq in Hin as [<- Hvf]. by apply Hown.
  - intros t j [Hin|Hin]%elem_of_app.
    + destruct (Hlead _ _ Hin) as (Q & ? & ? & HQ). exists Q. split_and!; auto.
    + apply node_leader_spec in Hin as (Hr & -> & ->). by apply (new_leader_mandate σ σ' i m c fs).
Qed.

(** A lock section of a running node. *)
Lemma run_activity_ok σ σ' i l activity :
  sys_ok σ → crash_only l →
  (∀ m c, sys_machines σ !! i = Some m → m_node m = Some c →
     let w := (c, set_faults l (m_disk m)) in
     node_live (state_file i) (box σ) w → cn_outbound c = [] →
     wp activity w
       (λ msgs w', lives_on (state_file i) (box σ) w w' ∧ cn_outbound w'.1 = [] ∧ queue_ok w'.1 msgs)
       (dies (state_file i) w)) →
  run_activity i l activity σ = Some σ' → sys_ok σ'.
Proof.
  intros Hok Hl Hact Hrun. unfold run_activity in Hrun.
  destruct (sys_machines σ !! i) as [m|] eqn:Hm; [|done]. simpl in Hrun.
  destruct (m_node m) as [c|] eqn:Hc; [|done]. simpl in Hrun. injection Hrun as <-.
  destruct (ok_up _ Hok _ _ _ Hm Hc) as [Hlive Hout Hid Hpeers].
  pose proof (node_live_faults _ _ _ _ _ Hl Hlive) as Hlive'.
  pose proof (Hact m c eq_refl Hc Hlive' Hout) as Hwp. unfold wp in Hwp.
  destruct (activity _) as [[msgs|] [c' fs]]; simpl in Hwp.
  - destruct Hwp as ([Hlive2 Hv2 Hid2 Hp2] & Hout2 & Hq). simpl in *.
    apply (commit_event_ok _ _ m); [done|done| | |done].
    + split; [done|done|congruence|congruence].
    + rewrite (node_live_vote _ _ _ Hlive') in Hv2. apply Hv2.
  - by apply (kill_node_ok _ _ m).
Qed.

Lemma disk_state_frame p q fs fs' :
  fs_frame q fs fs' → sp_path p ≠ q → disk_state p fs' = disk_state p fs.
Proof. intros [Hf _] Hq. unfold disk_state. by rewrite Hf. Qed.

(** Starting a node: it comes up with the vote on its disk, or not at all. *)
Lemma cluster_new_spec B i fs :
  crash_only (fs_faults fs) →
  wp (cluster_new i members (data_dir i)) fs
    (λ r fs', disk_state (state_file i) fs' = disk_state (state_file i) fs ∧
       ∀ c, r = Ok c → node_live (state_file i) B (c, fs') ∧ cn_outbound c = [] ∧
         rs_id (rn_state (cn_raft c)) = i ∧ peers (rn_state (cn_raft c)) = members)
    (λ fs', disk_state (state_file i) fs' = disk_state (state_file i) fs).
Proof.
  intros Hf. unfold cluster_new. wp_step. unfold wp at 1.
  assert (sp_path (state_file i) ≠ engine_wal_path (storage_dir (data_dir i))) as Hpath
    by apply state_file_not_wal.
  destruct (engine_new _ fs) as [[r|] fs1] eqn:He;
    pose proof (keeps_run _ _ _ _ _ (engine_new_frame _) He) as Hfr;
    pose proof (disk_state_frame (state_file i) _ _ _ Hfr Hpath) as Hd; [|done].
  destruct r as [e|]; [|by split]. apply engine_new_path in He. wp_step.
  eapply wp_mono; [apply (with_persistence_recovers (state_file i)); [done|by apply Hfr]|..]; simpl.
  - intros r2 fs2 (Hfiles & n & -> & Hcoh & Hrole & Hid & Hpeers & _). wp_step.
    split; [by rewrite (disk_state_files _ _ _ Hfiles)|]. intros c [= <-]. split_and!; try done.
    split; simpl; [done|by apply electoral_follower|by rewrite He].
  - intros fs2 [Hfiles _]. by rewrite (disk_state_files _ _ _ Hfiles).
Qed.

Lemma restart_ok σ i l m :
  sys_ok σ → crash_only l → sys_machines σ !! i = Some m →
  sys_ok (match cluster_new i members (data_dir i) (set_faults l (m_disk m)) with
          | (Done (Ok c), fs) => commit_event i c fs [] σ
          | (Done (Err _), fs) | (Halted, fs) => kill_node i fs σ
          end).
Proof.
  intros Hok Hl Hm.
  pose proof (cluster_new_spec (box σ) i (set_faults l (m_disk m)) Hl) as Hwp. unfold wp in Hwp.
  assert (∀ fs, disk_state (state_file i) fs = disk_state (state_file i) (set_faults l (m_disk m)) →
    vote_le (disk_vote i m) (vote_of (disk_state (state_file i) fs))) as Hv.
  { intros fs ->. reflexivity. }
  destruct (cluster_new _ _ _ _) as [[[c|]|] fs].
  - destruct Hwp as [Hd Hc]. destruct (Hc c eq_refl) as (Hlive & Ho & Hid & Hp).
    apply (commit_event_ok _ _ m); [done|done|done| |].
    + rewrite (node_live_vote _ _ _ Hlive). by apply Hv.
    + intros to t Hin. by apply not_elem_of_nil in Hin.
  - apply (kill_node_ok _ _ m); [done|done|]. apply Hv, Hwp.
  - apply (kill_node_ok _ _ m); [done|done|]. by apply Hv.
Qed.

Lemma sys_ok_init : sys_ok sys_init.
Proof.
  split; simpl.
  - intros i m Hm%elem_of_list_to_map_2. apply list_elem_of_fmap in Hm as (j & ? & Hj). by simplify_eq.
  - by intros v t c ?%not_elem_of_nil.
  - by intros v t c c' ?%not_elem_of_nil.
  - intros i m c Hm%elem_of_list_to_map_2 Hc.
    apply list_elem_of_fmap in Hm as (j & ? & Hj). by simplify_eq.
  - by intros to v t ?%not_elem_of_nil.
  - by intros t i ?%not_elem_of_nil.
Qed.

Lemma sys_ok_step σ e σ' : sys_ok σ → benign σ e → apply_event e σ = Some σ' → sys_ok σ'.
Proof.
  intros Hok [Hf Hb] He. destruct e as [i l|i msg l|i c l|i|i l]; simpl in *.
  - eapply run_activity_ok; [done|done| |done]. intros m c Hm Hc w Hl Ho.
    apply tick_activity_lives; [done|done|]. by eapply Hb.
  - case_bool_decide as Hin; [|done]. eapply run_activity_ok; [done|done| |done].
    intros m c Hm Hc w Hl Ho. apply deliver_activity_lives; [done|done|].
    pose proof (up_id _ _ _ _ (ok_up _ Hok _ _ _ Hm Hc)) as Hid. simpl. rewrite Hid.
    destruct msg as [| ? [t g]| |]; simpl; try done. intros ->. by apply (ok_granted _ Hok).
  - eapply run_activity_ok; [done|done| |done]. intros m cn Hm Hc w Hl Ho.
    by apply command_activity_lives.
  - destruct (sys_machines σ !! i) as [m|] eqn:Hm; [|done]. simpl in He.
    destruct (m_node m); [|done]. simpl in He. injection He as <-.
    apply (kill_node_ok _ _ m); [done|done|reflexivity].
  - destruct (sys_machines σ !! i) as [m|] eqn:Hm; [|done]. simpl in He.
    destruct (m_node m); [done|]. injection He as <-. by apply restart_ok.
Qed.

Lemma reachable_ok σ : reachable σ → sys_ok σ.
Proof. induction 1; [apply sys_ok_init|by eapply sys_ok_step]. Qed.

Lemma one_leader_per_term σ t i j :
  sys_ok σ → (t, i) ∈ sys_leaders σ → (t, j) ∈ sys_leaders σ → i = j.
Proof.
  intros Hok Hi Hj.
  destruct (ok_leader _ Hok _ _ Hi) as (Q1 & ? & ? & HQ1).
  destruct (ok_leader _ Hok _ _ Hj) as (Q2 & ? & ? & HQ2).
  destruct (quorums_meet members Q1 Q2) as (v & Hv1 & Hv2); [done..|].
  eapply (ok_once _ Hok v t); [by apply HQ1|by apply HQ2].
Qed.

(** Where a vote of node [v] for [c] in term [t] can be seen: in the history of
    what nodes held after their events, in the memory of a running node, in the
    state file on a disk (also one that was written by an event in which the
    process was killed), and in a reply ever sent. *)
Inductive vote_seen (σ : system) (v t c : N) : Prop :=
| seen_ever : (v, t, c) ∈ sys_ballots σ → vote_seen σ v t c
| seen_in_memory m n :
    sys_machines σ !! v = Some m → m_node m = Some n →
    current_term (rn_state (cn_raft n)) = t → voted_for (rn_state (cn_raft n)) = Some c →
    vote_seen σ v t c
| seen_on_disk m :
    sys_machines σ !! v = Some m →
    ps_current_term (disk_state (state_file v) (m_disk m)) = t →
    ps_voted_for (disk_state (state_file v) (m_disk m)) = Some c → vote_seen σ v t c
| seen_on_wire : (c, NRequestVoteResponse v (mkRVR t true)) ∈ sys_net σ → vote_seen σ v t c.

(** A vote was cast in the past or is the one on the disk. *)
Lemma vote_seen_cases σ v t c :
  sys_ok σ → vote_seen σ v t c →
  box σ v t c ∨ ∃ m, sys_machines σ !! v = Some m ∧ disk_vote v m = (t, Some c).
Proof.
  intros Hok [Hb|m n Hm Hn Ht Hv|m Hm Ht Hv|Hw]; [by left| | |left; by apply (ok_granted _ Hok)];
    right; exists m; (split; [done|]).
  - pose proof (node_live_vote _ _ _ (up_live _ _ _ _ (ok_up _ Hok _ _ _ Hm Hn))) as Hd.
    unfold disk_vote. simpl in Hd. rewrite <-Hd. unfold vote_in_memory, vote_of. simpl. by rewrite Ht, Hv.
  - unfold disk_vote, vote_of. by rewrite Ht, Hv.
Qed.

(** C1: Election Safety.  Take any cluster, any interleaving of events, any network
    and any crashes and restarts, on disks that kill the process at will but do not
    tear writes or return errors, with no node ticking at the last 64-bit term
    ([reachable], whose events are [benign]).  If two nodes have ever been leader
    in the same term, they are the same node. *)
Theorem election_safety σ t i j :
  reachable σ → (t, i) ∈ sys_leaders σ → (t, j) ∈ sys_leaders σ → i = j.
Proof. intros Hok%reachable_ok. by apply one_leader_per_term. Qed.

(** C6: one vote per term.  In every state reachable under the same conditions (in
    particular on disks that kill the process but do not tear writes or return
    errors), any two signs of a vote of one node in one term name the same
    candidate, whether they are found in the history, in the memory of the running
    node, in the state file on its disk, or in replies on the wire: no node ever
    votes for two candidates in a term, restarts in between or not. *)
Theorem votes_are_cast_once σ v t c c' :
  reachable σ → vote_seen σ v t c → vote_seen σ v t c' → c = c'.
Proof.
  intros Hok%reachable_ok Hc Hc'.
  assert (∀ c m x, box σ v t c → sys_machines σ !! v = Some m → disk_vote v m = (t, Some x) → c = x) as Hdisk.
  { intros y m x Hy Hm Hx. destruct (ok_ballot _ Hok _ _ _ Hy) as (m' & Hm' & Hle).
    rewrite Hm in Hm'. simplify_eq. rewrite Hx in Hle. by apply vote_le_same in Hle. }
  destruct (vote_seen_cases _ _ _ _ Hok Hc) as [Hb|(m & Hm & Hd)];
    destruct (vote_seen_cases _ _ _ _ Hok Hc') as [Hb'|(m' & Hm' & Hd')].
  - by apply (ok_once _ Hok v t).
  - by apply (Hdisk c m' c').
  - symmetry. by apply (Hdisk c' m c).
  - simplify_eq. by rewrite Hd in Hd'; simplify_eq.
Qed.

End safety.
