(* ===== verification/Trace.v ===== *)
(** * Events of the cluster as transitions of single nodes

    The events of System.v seen through [raft_next]: an event changes one node,
    which takes an input, loses its memory or does nothing that matters to
    consensus ([moves]), and everything else stays as it is ([step_shape]).  What
    a node that is down counts for is what it will find on its disk. *)

From S2P Require Import Prelude Text Fs Log State Message Persist Codec Node Commit.
From S2P Require Import Durability BTree Memtable Wal Engine Ring Router Protocol Cluster.
From S2P Require Import ClusterProps Transport Server Election Replication RaftSpec System.
From S2P Require Import ElectionSafety.

(** The input an event feeds to the consensus node, if any. *)
Definition event_input (e : event) : option RaftInput :=
  match e with
  | EvTick _ _ => Some InTick
  | EvDeliver _ msg _ => Some (network_input msg)
  | EvCommand _ c _ => (λ x, InPropose x.1.2) <$> command_write c
  | EvCrash _ | EvRestart _ _ => None
  end.

Definition event_node (e : event) : N :=
  match e with
  | EvTick i _ | EvDeliver i _ _ | EvCommand i _ _ | EvCrash i | EvRestart i _ => i
  end.

(** ** The sections under the lock *)

Section sections.
Context `{StateCodecLaws} `{Build} (p : StatePersister) (B : ballot_box).

(** The node took the input and handed out the messages, or nothing happened. *)
Definition section_done (inp : option RaftInput) (w w' : CW) (msgs : list PeerMessage) : Prop :=
  (∃ i fire acts, inp = Some i ∧
     raft_next fire i (view (cn_raft w.1)) = (view (cn_raft w'.1), acts) ∧
     msgs = omap action_message acts) ∨
  (view (cn_raft w'.1) = view (cn_raft w.1) ∧ msgs = []).

(** The process died: during the handler, with the old log and a vote at least
    the old one on disk, or after it, with the new state on disk. *)
Definition section_dead (inp : option RaftInput) (w w' : CW) : Prop :=
  (vote_le (vote_of (disk_state p w.2)) (vote_of (disk_state p w'.2)) ∧
   ps_log (disk_state p w'.2) = ps_log (disk_state p w.2)) ∨
  (∃ i fire acts v, inp = Some i ∧ raft_next fire i (view (cn_raft w.1)) = (v, acts) ∧
     disk_state p w'.2 = persistent_of (v_state v)).

Lemma process_actions_section inp i fire actions w w1 :
  node_live p B w1 → inp = Some i → cn_outbound w1.1 = [] →
  raft_next fire i (view (cn_raft w.1)) = (view (cn_raft w1.1), actions) →
  wp (process_actions actions) w1
    (λ _ w', section_done inp w w' (cn_outbound w'.1) ∧ cn_raft w'.1 = cn_raft w1.1)
    (section_dead inp w).
Proof.
  intros [Hc _ Hwal] -> Ho Hnext. unfold wp.
  destruct (process_actions actions w1) as [[[]|] w'] eqn:Hrun;
    pose proof (keeps_run _ _ _ _ _ (process_actions_frame _) Hrun) as (Er & _ & _ & _ & _ & Hfs).
  - split; [|done]. left. exists i, fire, actions. split_and!; [done|by rewrite Er|].
    apply process_actions_outbound in Hrun. by rewrite Ho in Hrun.
  - right. exists i, fire, actions, (view (cn_raft w1.1)). split_and!; [done|done|].
    rewrite (disk_state_frame p _ _ _ Hfs Hwal). apply Hc.
Qed.

(** A call of the consensus node followed by the processing of its actions. *)
Lemma input_section {A} i (m : proc RW A) (acts : A → list Action) (k : A → proc CW unit) w :
  node_live p B w → cn_outbound w.1 = [] →
  wp m (cn_raft w.1, w.2) (λ _ w', advanced p (cn_raft w.1, w.2) w') (crashed p (cn_raft w.1, w.2)) →
  wp m (cn_raft w.1, w.2) (λ a w', ∃ fire, raft_next fire i (view (cn_raft w.1)) = (view w'.1, acts a))
    (λ _, True) →
  wp m (cn_raft w.1, w.2) (λ a, elects B (acts a)) (λ _, True) →
  (∀ a w1, k a w1 = process_actions (acts a) w1) →
  wp (a ← on_raft m; k a) w
    (λ _ w', section_done (Some i) w w' (cn_outbound w'.1)) (section_dead (Some i) w).
Proof.
  intros Hl Ho Hd Hn He Hk. wp_step. unfold on_raft. wp_step.
  eapply wp_mono; [by apply (wp_and _ _ _ _ _ _ Hd (wp_and _ _ _ _ _ _ Hn He))|..]; simpl.
  - intros a [n fs] [(Hc & _) [[fire Hnext] [Hel _]]]. simpl in *.
    unfold wp. rewrite Hk. fold (wp (process_actions (acts a)) (set_raft n w.1, fs)
      (λ _ w', section_done (Some i) w w' (cn_outbound w'.1)) (section_dead (Some i) w)).
    eapply wp_mono; [eapply (process_actions_section _ i fire); try done| |done].
    + split; simpl; try done. apply Hl.
    + by intros [] w' [? _].
  - intros [n fs] [Hcr _]. left. apply Hcr.
Qed.

Lemma take_outbound_section inp w w1 :
  section_done inp w w1 (cn_outbound w1.1) →
  wp take_outbound_messages w1 (λ msgs w', section_done inp w w' msgs) (section_dead inp w).
Proof.
  intros Hs. unfold take_outbound_messages, cluster_get, cluster_mod. by do 5 wp_step.
Qed.

Lemma handle_input_fires i w :
  wp (handle_input i) w (λ a w', ∃ fire, raft_next fire i (view w.1) = (view w'.1, a)) (λ _, True).
Proof. eapply wp_mono; [apply handle_input_next|by eexists|done]. Qed.

Lemma tick_section w :
  node_live p B w → cn_outbound w.1 = [] →
  (current_term (rn_state (cn_raft w.1)) + 1 < u64_modulus)%N →
  wp tick_activity w (λ msgs w', section_done (Some InTick) w w' msgs) (section_dead (Some InTick) w).
Proof.
  intros Hl Ho Ht. unfold tick_activity, cluster_tick. wp_step.
  eapply wp_mono; [apply (input_section InTick tick id process_actions); try done| |done].
  - apply (handle_input_durable p InTick); [apply Hl|done].
  - apply (handle_input_fires InTick).
  - apply (handle_input_elects B InTick); [apply Hl|done].
  - intros [] w1 Hs. by apply take_outbound_section.
Qed.

Lemma deliver_section msg w :
  node_live p B w → cn_outbound w.1 = [] →
  input_ok B (rs_id (rn_state (cn_raft w.1))) (network_input msg) →
  wp (deliver_activity msg) w (λ msgs w', section_done (Some (network_input msg)) w w' msgs)
    (section_dead (Some (network_input msg)) w).
Proof.
  intros Hl Ho Hi. unfold deliver_activity. wp_step.
  assert (dispatch_message msg =
    (actions ← on_raft (handle_input (network_input msg)); process_actions actions)) as ->
    by (by destruct msg).
  eapply wp_mono; [apply (input_section (network_input msg) _ id process_actions); try done| |done].
  - apply handle_input_durable; [apply Hl|by destruct msg].
  - apply handle_input_fires.
  - apply handle_input_elects; [apply Hl|done].
  - intros [] w1 Hs. by apply take_outbound_section.
Qed.

Lemma section_done_raft inp w w1 w2 msgs :
  cn_raft w2.1 = cn_raft w1.1 → section_done inp w w1 msgs → section_done inp w w2 msgs.
Proof. unfold section_done. by intros ->. Qed.

Lemma replicate_write_section cmd ok w w0 :
  node_live p B w → cn_outbound w.1 = [] → cn_raft w.1 = cn_raft w0.1 → w.2 = w0.2 →
  wp (replicate_write cmd ok) w
    (λ _ w', section_done (Some (InPropose cmd)) w0 w' (cn_outbound w'.1))
    (section_dead (Some (InPropose cmd)) w0).
Proof.
  intros Hl Ho Er Ef. unfold replicate_write, cluster_get, cluster_mod.
  assert (∀ w' inp msgs, section_done inp w w' msgs → section_done inp w0 w' msgs) as Hd.
  { intros w' inp msgs. unfold section_done. by rewrite Er. }
  wp_step. wp_step. wp_step; [wp_step; right; by rewrite Er|].
  apply bool_decide_eq_false in Heqb. assert (role (rn_state (cn_raft w.1)) = Leader) as Hr by (by apply dec_stable).
  assert (wp (o ← on_raft (propose cmd); process_actions (default [] o)) w
    (λ _ w', section_done (Some (InPropose cmd)) w w' (cn_outbound w'.1))
    (section_dead (Some (InPropose cmd)) w)) as Hwp.
  { apply (input_section _ _ (default [])); try done.
    - apply propose_durable, Hl.
    - eapply wp_mono; [apply propose_refines|by eexists|done].
    - apply propose_elects, Hl. }
  assert (∀ w', section_dead (Some (InPropose cmd)) w w' → section_dead (Some (InPropose cmd)) w0 w') as Hdd.
  { intros w'. unfold section_dead. by rewrite Er, Ef. }
  wp_step. revert Hwp. unfold wp, mbind, proc_bind.
  destruct (on_raft (propose cmd) w) as [[[actions|]|] w1]; simpl; [|by auto|by auto].
  destruct (process_actions actions w1) as [[[]|] w2]; simpl; [|by auto].
  intros Hs. apply Hd. by eapply section_done_raft; [|exact Hs].
Qed.

Lemma command_section c w :
  node_live p B w → cn_outbound w.1 = [] →
  wp (command_activity c) w
    (λ msgs w', section_done ((λ x, InPropose x.1.2) <$> command_write c) w w' msgs)
    (section_dead ((λ x, InPropose x.1.2) <$> command_write c) w).
Proof.
  intros Hl Ho. set (inp := _ <$> _). unfold command_activity, run_command, handle_client_command.
  unfold cluster_mod. wp_step. wp_step. wp_step. wp_step.
  set (w1 := (set_pending None w.1, w.2)).
  assert (node_live p B w1) as Hl1 by (destruct Hl as [[] ? ?]; by split; [split|..]).
  assert (∀ w' : CW, cn_raft w'.1 = cn_raft w.1 → cn_outbound w'.1 = [] →
    section_done inp w w' (cn_outbound w'.1)) as Hsame.
  { intros w' Er ->. right. by rewrite Er. }
  assert (∀ m : proc CW Response,
    wp m w1 (λ _ w', section_done inp w w' (cn_outbound w'.1)) (section_dead inp w) →
    wp m w1 (λ r w', wp (pending ← cluster_get cn_pending_commit_index;
        messages ← take_outbound_messages; mret (r, pending, messages)) w'
      (λ a w'', wp (mret a.2) w'' (λ msgs w''', section_done inp w w''' msgs) (section_dead inp w))
      (section_dead inp w)) (section_dead inp w)) as Hend.
  { intros m Hm. eapply wp_mono; [exact Hm| |done]. intros r w2 Hs. unfold cluster_get. wp_step. wp_step.
    wp_step. eapply wp_mono; [apply (take_outbound_section inp w); exact Hs| |done]. intros msgs w3 Hs3. by wp_step. }
  assert (∀ cmd ok, inp = Some (InPropose cmd) → wp (replicate_write cmd ok) w1
    (λ _ w', section_done inp w w' (cn_outbound w'.1)) (section_dead inp w)) as Hw.
  { intros cmd ok ->. by apply replicate_write_section. }
  unfold cluster_get in *. apply Hend. destruct c; repeat wp_step; auto; by apply Hw.
Qed.

End sections.

(** ** The state of a node, up or down *)

Definition down_state (i : N) (ps : list N) (d : PersistentState) : RaftState :=
  set_log (mkLog (ps_log d))
    (set_voted_for (ps_voted_for d) (set_current_term (ps_current_term d) (state_new i ps))).

Definition asleep (s : RaftState) : rview :=
  mkView (down_state (rs_id s) (peers s) (persistent_of s)) ∅.

(** How the view of one node changes in an event, and what it sends: it takes
    the event's input; it takes it but dies before anything is sent; it dies
    having at most moved its term and vote forward; or nothing happens. *)
Inductive moves (e : event) (v : rview) : rview → list PeerMessage → Prop :=
| moves_input i fire acts v' :
    event_input e = Some i → raft_next fire i v = (v', acts) →
    moves e v v' (omap action_message acts)
| moves_lost i fire acts v1 :
    event_input e = Some i → raft_next fire i v = (v1, acts) →
    moves e v (asleep (v_state v1)) []
| moves_crash d :
    (current_term (v_state v) ≤ ps_current_term d)%N → ps_log d = l_entries (rs_log (v_state v)) →
    moves e v (mkView (down_state (rs_id (v_state v)) (peers (v_state v)) d) ∅) []
| moves_quiet : moves e v v [].

Section views.
Context `{StateCodecLaws} `{Build} `{Deployment}.

Definition machine_view (i : N) (m : machine) : rview :=
  match m_node m with
  | Some c => view (cn_raft c)
  | None => mkView (down_state i members (disk_state (state_file i) (m_disk m))) ∅
  end.

Definition sview (σ : system) (i : N) : option rview := machine_view i <$> sys_machines σ !! i.

Record step_shape (σ : system) (e : event) (σ' : system) (v v' : rview) (msgs : list PeerMessage) : Prop := {
  ss_before : sview σ (event_node e) = Some v;
  ss_after : sview σ' (event_node e) = Some v';
  ss_others : ∀ j, j ≠ event_node e → sview σ' j = sview σ j;
  ss_moves : moves e v v' msgs;
  ss_net : sys_net σ' = sys_net σ ++ posts (event_node e) msgs;
  ss_leaders : sys_leaders σ' = sys_leaders σ ++ node_leader (event_node e) (v_state v');
  ss_ballots : ∀ w t c, box σ' w t c → box σ w t c ∨
    (w = event_node e ∧ t = current_term (v_state v') ∧ voted_for (v_state v') = Some c);
  ss_ballots_kept : ∀ w t c, box σ w t c → box σ' w t c;
  ss_tick : event_input e = Some InTick → (current_term (v_state v) + 1 < u64_modulus)%N;
  ss_deliver : ∀ i msg l, e = EvDeliver i msg l → (i, msg) ∈ sys_net σ;
}.

Lemma sview_identity σ i v :
  sys_ok σ → sview σ i = Some v → rs_id (v_state v) = i ∧ peers (v_state v) = members.
Proof.
  intros Hok Hv. unfold sview in Hv. apply fmap_Some in Hv as (m & Hm & ->).
  unfold machine_view. destruct (m_node m) as [c|] eqn:Hc; [|done].
  by destruct (ok_up _ Hok _ _ _ Hm Hc).
Qed.

(** A node that is up finds on its disk what it has in memory. *)
Lemma sview_up_disk σ i m c :
  sys_ok σ → sys_machines σ !! i = Some m → m_node m = Some c →
  persistent_of (rn_state (cn_raft c)) = disk_state (state_file i) (m_disk m).
Proof. intros Hok Hm Hc. destruct (ok_up _ Hok _ _ _ Hm Hc) as [[[_ _ Hd _] _ _] _ _ _]. done. Qed.

Lemma sview_insert σ i m net bs ls j :
  sview (mkSystem (<[i := m]> (sys_machines σ)) net bs ls) j =
  if bool_decide (j = i) then Some (machine_view i m) else sview σ j.
Proof.
  unfold sview. simpl. case_bool_decide as Hj; [subst; by rewrite lookup_insert_eq|].
  by rewrite lookup_insert_ne.
Qed.

Lemma asleep_down s i :
  rs_id s = i → peers s = members → asleep s = mkView (down_state i members (persistent_of s)) ∅.
Proof. by intros <- <-. Qed.

(** [raft_next] keeps the identity of the node. *)
Lemma follow_commit_identity c s :
  rs_id (follow_commit c s).1 = rs_id s ∧ peers (follow_commit c s).1 = peers s.
Proof. unfold follow_commit. by case_bool_decide. Qed.

Lemma advance_commit_identity s :
  rs_id (advance_commit s).1 = rs_id s ∧ peers (advance_commit s).1 = peers s.
Proof. unfold advance_commit. by case_bool_decide. Qed.

Lemma raft_next_identity fire i v v' acts :
  raft_next fire i v = (v', acts) →
  rs_id (v_state v') = rs_id (v_state v) ∧ peers (v_state v') = peers (v_state v).
Proof.
  intros Hn. destruct i; simpl in Hn.
  - destruct fire; [|by simplify_eq]. unfold campaign, count_votes in Hn.
    destruct (role (v_state v)); [| |by simplify_eq]; destruct (elected _ _); by simplify_eq.
  - unfold meet_term in Hn. repeat (case_bool_decide; simplify_eq; simpl; try done);
      destruct (grant_vote _ _); simplify_eq; simpl; by rewrite ?become_follower_id, ?become_follower_peers.
  - repeat (case_bool_decide; simplify_eq; simpl; rewrite ?become_follower_id, ?become_follower_peers; try done).
    unfold count_votes in Hn. destruct (elected _ _); by simplify_eq.
  - unfold spec_append_entries in Hn. case_bool_decide; [by simplify_eq|].
    case_bool_decide; [simplify_eq; simpl; by rewrite become_follower_id, become_follower_peers|].
    destruct (follow_commit _ _) as [s' ?] eqn:E. injection Hn as <- <-.
    match type of E with follow_commit ?c ?s = _ => pose proof (follow_commit_identity c s) as Hf end.
    rewrite E in Hf. simpl in *. by rewrite become_follower_id, become_follower_peers in Hf.
  - unfold spec_append_entries_response in Hn. case_bool_decide; [by simplify_eq|].
    case_bool_decide; [simplify_eq; simpl; by rewrite become_follower_id, become_follower_peers|].
    destruct (aer_success response); [|by simplify_eq].
    destruct (advance_commit _) as [s' ?] eqn:E. injection Hn as <- <-. simpl.
    pose proof (advance_commit_identity (match aer_match_index response with
      | Some m => learn_match from m (v_state v) | None => v_state v end)) as Hf.
    rewrite E in Hf. by destruct (aer_match_index response).
  - case_bool_decide; [by simplify_eq|]. destruct (advance_commit _) as [s' ?] eqn:E.
    injection Hn as <- <-. simpl. pose proof (advance_commit_identity (append_command command (v_state v))) as Hf.
    by rewrite E in Hf.
Qed.

(** The parts of [step_shape] that hold of any change of one machine. *)
Lemma commit_event_shape σ e c fs msgs v :
  sview σ (event_node e) = Some v → moves e v (view (cn_raft c)) msgs →
  (event_input e = Some InTick → (current_term (v_state v) + 1 < u64_modulus)%N) →
  (∀ i msg l, e = EvDeliver i msg l → (i, msg) ∈ sys_net σ) →
  step_shape σ e (commit_event (event_node e) c fs msgs σ) v (view (cn_raft c)) msgs.
Proof.
  intros Hv Hm Ht Hd. split; try done.
  - unfold commit_event. by rewrite sview_insert, bool_decide_true.
  - intros j Hj. unfold commit_event. by rewrite sview_insert, bool_decide_false.
  - intros w t x [?|(-> & -> & ?)%node_ballot_spec]%elem_of_app; [by left|by right].
  - intros w t x Hb. apply elem_of_app. by left.
Qed.

Lemma kill_node_shape σ e fs v :
  let d := disk_state (state_file (event_node e)) fs in
  sview σ (event_node e) = Some v →
  moves e v (mkView (down_state (event_node e) members d) ∅) [] →
  (event_input e = Some InTick → (current_term (v_state v) + 1 < u64_modulus)%N) →
  (∀ i msg l, e = EvDeliver i msg l → (i, msg) ∈ sys_net σ) →
  step_shape σ e (kill_node (event_node e) fs σ) v (mkView (down_state (event_node e) members d) ∅) [].
Proof.
  intros d Hv Hm Ht Hd. split; try done.
  - unfold kill_node. by rewrite sview_insert, bool_decide_true.
  - intros j Hj. unfold kill_node. by rewrite sview_insert, bool_decide_false.
  - unfold posts, kill_node. simpl. by rewrite app_nil_r.
  - unfold kill_node, node_leader. simpl. by rewrite app_nil_r.
  - intros w t x Hb. by left.
Qed.

Lemma run_activity_shape σ σ' e l activity :
  sys_ok σ → crash_only l →
  (∀ m c, sys_machines σ !! event_node e = Some m → m_node m = Some c →
     let w := (c, set_faults l (m_disk m)) in
     node_live (state_file (event_node e)) (box σ) w → cn_outbound c = [] →
     wp activity w (λ msgs w', section_done (event_input e) w w' msgs)
       (section_dead (state_file (event_node e)) (event_input e) w) ∧
     (event_input e = Some InTick → (current_term (rn_state (cn_raft c)) + 1 < u64_modulus)%N)) →
  (∀ i msg l, e = EvDeliver i msg l → (i, msg) ∈ sys_net σ) →
  run_activity (event_node e) l activity σ = Some σ' →
  ∃ v v' msgs, step_shape σ e σ' v v' msgs.
Proof.
  set (i := event_node e). intros Hok Hl Hact Hdel Hrun. unfold run_activity in Hrun.
  destruct (sys_machines σ !! i) as [m|] eqn:Hm; [|done]. simpl in Hrun.
  destruct (m_node m) as [c|] eqn:Hc; [|done]. simpl in Hrun. injection Hrun as <-.
  destruct (ok_up _ Hok _ _ _ Hm Hc) as [Hlive Hout Hid Hpeers].
  destruct (Hact m c eq_refl Hc (node_live_faults _ _ _ _ _ Hl Hlive) Hout) as [Hwp Ht].
  assert (sview σ i = Some (view (cn_raft c))) as Hv.
  { unfold sview, machine_view. rewrite Hm. simpl. by rewrite Hc. }
  pose proof (sview_up_disk _ _ _ _ Hok Hm Hc) as Hdisk.
  unfold wp in Hwp. destruct (activity _) as [[msgs|] [c' fs]]; simpl in Hwp.
  - exists (view (cn_raft c)), (view (cn_raft c')), msgs. apply commit_event_shape; try done.
    destruct Hwp as [(inp & fire & acts & Hi & Hn & ->)|[E ->]]; [by econstructor|].
    simpl in E. rewrite E. apply moves_quiet.
  - eexists _, _, _. apply kill_node_shape; try done. fold i.
    destruct Hwp as [[Hle Hlog]|(inp & fire & acts & v1 & Hi & Hn & E)]; simpl in *.
    + pose proof (moves_crash e (view (cn_raft c)) (disk_state (state_file i) fs)) as Hmv.
      simpl in Hmv. rewrite Hid, Hpeers in Hmv. apply Hmv.
      * apply (f_equal ps_current_term) in Hdisk. simpl in Hdisk |- *. rewrite Hdisk.
        destruct Hle as [Hlt|[Heq _]]; [exact (N.lt_le_incl _ _ Hlt)|exact (N.eq_le_incl _ _ Heq)].
      * rewrite Hlog. apply (f_equal ps_log) in Hdisk. by symmetry.
    + destruct (raft_next_identity _ _ _ _ _ Hn) as [Hi1 Hp1]. rewrite E.
      rewrite <-(asleep_down (v_state v1) i); [by econstructor| |]; simpl in *; congruence.
Qed.

(** A restarted node has the state its disk holds. *)
Lemma with_persistence_state i fs r fs' :
  crash_only (fs_faults fs) → with_persistence i members (data_dir i) fs = (Done (Ok r), fs') →
  view r = mkView (down_state i members (disk_state (state_file i) fs)) ∅.
Proof.
  intros Hf Hrun.
  enough (wp (with_persistence i members (data_dir i)) fs
    (λ r _, ∀ n, r = Ok n → view n = mkView (down_state i members (disk_state (state_file i) fs)) ∅)
    (λ _, True)) as Hwp by (by apply (wp_run _ _ _ _ _ _ Hwp Hrun)).
  unfold with_persistence, create_dir_all. do 2 wp_step.
  apply wp_next_fault; [done|]. intros f l [->|[-> Hk]] Hl Hnil; [|done]. do 2 wp_step.
  fold (state_file i). eapply wp_mono; [by apply (load_spec (state_file i))| |done]; simpl.
  intros ld fs1 (_ & _ & Hd). wp_step. intros n [= <-]. change (disk_state (state_file i) fs) with
    (disk_state (state_file i) (set_faults l fs)). rewrite Hd.
  destruct ld as [[st|]|]; [|done|done]. unfold view, down_state. simpl.
  by destruct (from_entries (ps_log st)).
Qed.

Lemma restart_shape σ i l m :
  sys_ok σ → crash_only l → sys_machines σ !! i = Some m → m_node m = None →
  let e := EvRestart i l in
  ∃ v v' msgs, step_shape σ e
    (match cluster_new i members (data_dir i) (set_faults l (m_disk m)) with
     | (Done (Ok c), fs) => commit_event i c fs [] σ
     | (Done (Err _), fs) | (Halted, fs) => kill_node i fs σ
     end) v v' msgs.
Proof.
  intros Hok Hl Hm Hc e.
  assert (sview σ i = Some (mkView (down_state i members (disk_state (state_file i) (m_disk m))) ∅)) as Hv.
  { unfold sview, machine_view. rewrite Hm. simpl. by rewrite Hc. }
  pose proof (cluster_new_spec (box σ) i (set_faults l (m_disk m)) Hl) as Hwp. unfold wp in Hwp.
  assert (∀ fs, disk_state (state_file i) fs = disk_state (state_file i) (set_faults l (m_disk m)) →
    ∃ v v' msgs, step_shape σ e (kill_node i fs σ) v v' msgs) as Hkill.
  { intros fs Hd. eexists _, _, []. apply (kill_node_shape σ e _ _ Hv); [|done|done].
    simpl. rewrite Hd. apply moves_quiet. }
  destruct (cluster_new _ _ _ _) as [[[c|]|] fs] eqn:Hrun; [|apply Hkill; apply Hwp|by apply Hkill].
  eexists _, _, []. apply (commit_event_shape σ e _ _ _ _ Hv); [|done|done]. simpl.
  enough (view (cn_raft c) = mkView (down_state i members (disk_state (state_file i) (m_disk m))) ∅) as ->
    by apply moves_quiet.
  unfold cluster_new, try_bind in Hrun. apply bind_inv in Hrun as [(r & fs1 & He & Hrun)|[_ ?]]; [|done].
  pose proof (keeps_run _ _ _ _ _ (engine_new_frame _) He) as Hfr.
  pose proof (disk_state_frame (state_file i) _ _ _ Hfr (state_file_not_wal _ _ _)) as Hd.
  destruct r as [eng|]; [|done]. apply bind_inv in Hrun as [(r & fs2 & Hw & Hrun)|[_ ?]]; [|done].
  destruct r as [n|]; [|done]. injection Hrun as <- <-. simpl.
  rewrite (with_persistence_state i fs1 n fs2); [by rewrite Hd|by apply Hfr|done].
Qed.

Lemma event_shape σ e σ' :
  sys_ok σ → benign σ e → apply_event e σ = Some σ' → ∃ v v' msgs, step_shape σ e σ' v v' msgs.
Proof.
  intros Hok [Hf Hb] He. destruct e as [i l|i msg l|i c l|i|i l]; simpl in *.
  - eapply (run_activity_shape _ _ (EvTick i l)); [done|done| |done|done]. intros m c Hm Hc w Hl Ho.
    split; [apply (tick_section _ _ _ Hl Ho); by eapply Hb|intros _; by eapply Hb].
  - case_bool_decide as Hin; [|done].
    eapply (run_activity_shape _ _ (EvDeliver i msg l)); [done|done| |by intros ? ? ? [= <- <- <-]|done].
    intros m c Hm Hc w Hl Ho. split; [|intros [= E]; by destruct msg].
    apply (deliver_section _ _ _ _ Hl Ho).
    pose proof (up_id _ _ _ _ (ok_up _ Hok _ _ _ Hm Hc)) as Hid. simpl. rewrite Hid.
    destruct msg as [| ? [t g]| |]; simpl; try done. intros ->. by apply (ok_granted _ Hok).
  - eapply (run_activity_shape _ _ (EvCommand i c l)); [done|done| |done|done].
    intros m cn Hm Hc w Hl Ho. split; [by apply (command_section _ _ _ _ Hl Ho)|].
    simpl. by destruct (command_write c).
  - destruct (sys_machines σ !! i) as [m|] eqn:Hm; [|done]. simpl in He.
    destruct (m_node m) as [c|] eqn:Hc; [|done]. simpl in He. injection He as <-.
    destruct (ok_up _ Hok _ _ _ Hm Hc) as [_ _ Hid Hpeers].
    pose proof (sview_up_disk _ _ _ _ Hok Hm Hc) as Hdisk.
    exists (view (cn_raft c)). eexists _, []. apply (kill_node_shape σ (EvCrash i)); try done; simpl.
    + unfold sview, machine_view. rewrite Hm. simpl. by rewrite Hc.
    + rewrite <-Hdisk, <-Hpeers, <-Hid. apply (moves_crash _ (view (cn_raft c))); simpl; done.
  - destruct (sys_machines σ !! i) as [m|] eqn:Hm; [|done]. simpl in He.
    destruct (m_node m) eqn:Hc; [done|]. injection He as <-. by apply (restart_shape σ i l m).
Qed.

(** ** Runs *)

(** [reaches P σ σ']: from [σ] to [σ'] by events allowed by [P]. *)
Inductive reaches (P : system → event → Prop) (σ : system) : system → Prop :=
| reaches_refl : reaches P σ σ
| reaches_step σ1 e σ2 :
    reaches P σ σ1 → P σ1 e → apply_event e σ1 = Some σ2 → reaches P σ σ2.

Lemma reaches_reachable (P : system → event → Prop) σ σ' :
  (∀ σ e, P σ e → benign σ e) → reachable σ → reaches P σ σ' → reachable σ'.
Proof.
  intros HP Hr. induction 1 as [|σ1 e σ2 _ IH HPe He]; [done|].
  by eapply reachable_step; [|apply HP|].
Qed.

Lemma sview_init i v :
  sview sys_init i = Some v → v = mkView (state_new i members) ∅ ∧ i ∈ members.
Proof.
  unfold sview. intros (m & Hm%elem_of_list_to_map_2 & ->)%fmap_Some.
  apply list_elem_of_fmap in Hm as (j & ? & Hj). by simplify_eq.
Qed.

End views.
