(* ===== verification/LogMatching.v ===== *)
(** * Log Matching

    In every reachable state of the cluster, two logs that have an entry of the
    same term at the same index are the same up to that index.  The proof keeps a
    history of the program: for every term that has had a leader, the log of that
    leader so far.  Every log, on disk or in memory, is made of pieces of this
    history, and so is every AppendEntries request on the network. *)

From S2P Require Import Prelude Text Fs Log State Message Persist Codec Node Commit.
From S2P Require Import Durability BTree Memtable Wal Engine Ring Router Protocol Cluster.
From S2P Require Import ClusterProps Transport Server Election Replication RaftSpec Transition.
From S2P Require Import System ElectionSafety Trace.

(** ** Logs and histories *)

(** Two lists of entries agree up to an index. *)
Definition agree (k : nat) (l l' : list LogEntry) : Prop := ∀ j, j ≤ k → l !! j = l' !! j.

(** The log of the leader of each term that had one. *)
Abbreviation history := (gmap N (list LogEntry)).

(** Every entry of [l] is where the leader of its term put it, after the same
    entries. *)
Record rooted (G : history) (l : list LogEntry) : Prop := {
  rt_sentinel : l !! 0 = Some sentinel;
  rt_entry : ∀ k e, 0 < k → l !! k = Some e →
    (0 < e_term e)%N ∧ ∃ g, G !! e_term e = Some g ∧ agree k l g;
}.

(** The leader of term [t] has added entries of its own. *)
Definition adds (t : N) (g g' : list LogEntry) : Prop :=
  ∃ new, g' = g ++ new ∧ Forall (λ e, e_term e = t) new.

#[export] Instance adds_preorder t : PreOrder (adds t).
Proof.
  split.
  - intros g. exists []. by rewrite app_nil_r.
  - intros g1 g2 g3 (n & -> & Hn) (n' & -> & Hn'). exists (n ++ n'). rewrite app_assoc.
    split; [done|]. by apply Forall_app.
Qed.

Lemma adds_prefix t g g' : adds t g g' → g `prefix_of` g'.
Proof. intros (n & -> & _). by eexists. Qed.

(** The history only grows, by new terms and at the end of the logs. *)
Definition grows (G G' : history) : Prop :=
  ∀ t g, G !! t = Some g → ∃ g', G' !! t = Some g' ∧ adds t g g'.

#[export] Instance grows_preorder : PreOrder grows.
Proof.
  split.
  - intros G t g Hg. by exists g.
  - intros G1 G2 G3 H12 H23 t g Hg. destruct (H12 t g Hg) as (g2 & Hg2 & Hp).
    destruct (H23 t g2 Hg2) as (g3 & Hg3 & Hp3). exists g3. split; [done|by etrans].
Qed.

Section agreement.
Implicit Types (l : list LogEntry) (k j : nat).

Lemma agree_sym k l l' : agree k l l' → agree k l' l.
Proof. intros Ha j Hj. symmetry. by apply Ha. Qed.

Lemma agree_trans k l1 l2 l3 : agree k l1 l2 → agree k l2 l3 → agree k l1 l3.
Proof. intros H1 H2 j Hj. rewrite H1 by done. by apply H2. Qed.

Lemma agree_le k j l l' : j ≤ k → agree k l l' → agree j l l'.
Proof. intros Hj Ha i Hi. apply Ha. lia. Qed.

Lemma agree_prefix k l l' : l `prefix_of` l' → k < length l → agree k l l'.
Proof. intros [x ->] Hk j Hj. rewrite lookup_app_l by lia. done. Qed.

Lemma agree_length k l l' : agree k l l' → k < length l → k < length l'.
Proof.
  intros Ha [e He]%lookup_lt_is_Some. rewrite (Ha k) in He by lia. by eapply lookup_lt_Some.
Qed.

Lemma agree_is_prefix k l l' : agree k l l' → length l = S k → l `prefix_of` l'.
Proof.
  intros Ha Hl. exists (drop (S k) l'). rewrite <-(take_drop (S k) l') at 1. f_equal.
  apply list_eq. intros j. destruct (decide (j ≤ k)).
  - rewrite lookup_take_lt by lia. symmetry. by apply Ha.
  - rewrite lookup_take_ge, lookup_ge_None_2 by lia. done.
Qed.
End agreement.

Section rooted.
Implicit Types (G : history) (l : list LogEntry).

Lemma rooted_grows G G' l : grows G G' → rooted G l → rooted G' l.
Proof.
  intros HG [Hs He]. split; [done|]. intros k e Hk Hl. destruct (He k e Hk Hl) as (Ht & g & Hg & Ha).
  split; [done|]. destruct (HG _ _ Hg) as (g' & Hg' & Hp%adds_prefix). exists g'. split; [done|].
  eapply agree_trans; [exact Ha|]. apply agree_prefix; [done|].
  eapply agree_length; [exact Ha|]. by eapply lookup_lt_Some.
Qed.

(** The heart of Log Matching. *)
Lemma rooted_agree G l l' k e e' :
  rooted G l → rooted G l' → l !! k = Some e → l' !! k = Some e' → e_term e = e_term e' →
  agree k l l'.
Proof.
  intros Hr Hr' Hl Hl' Ht. destruct k as [|k].
  { intros j Hj. replace j with 0 by lia. by rewrite (rt_sentinel _ _ Hr), (rt_sentinel _ _ Hr'). }
  destruct (rt_entry _ _ Hr (S k) e ltac:(lia) Hl) as (_ & g & Hg & Ha).
  destruct (rt_entry _ _ Hr' (S k) e' ltac:(lia) Hl') as (_ & g' & Hg' & Ha').
  rewrite Ht, Hg' in Hg. simplify_eq. eapply agree_trans; [exact Ha|by apply agree_sym].
Qed.

Lemma rooted_prefix G l l' : rooted G l → l' `prefix_of` l → 0 < length l' → rooted G l'.
Proof.
  intros [Hs He] Hp Hl. assert (∀ k, k < length l' → l' !! k = l !! k) as Hk.
  { intros k Hk. by apply (agree_prefix k). }
  split; [by rewrite Hk|]. intros k e H0 Hl'. pose proof (lookup_lt_Some _ _ _ Hl') as Hlt.
  rewrite Hk in Hl' by done. destruct (He k e H0 Hl') as (Ht & g & Hg & Ha).
  split; [done|]. exists g. split; [done|]. eapply agree_trans; [|exact Ha]. by apply agree_prefix.
Qed.

Lemma rooted_length G l : rooted G l → 0 < length l.
Proof. intros [Hs _]. by eapply lookup_lt_Some. Qed.

Lemma rooted_wf G l : rooted G l → log_wf (mkLog l).
Proof.
  intros [Hs He]. destruct l as [|x l]; [done|]. simpl in Hs. simplify_eq. exists l. split; [done|].
  apply Forall_lookup. intros k e Hk. by apply (He (S k) e); [lia|].
Qed.

Lemma rooted_snoc G l e :
  rooted G l → (0 < e_term e)%N → G !! e_term e = Some (l ++ [e]) → rooted G (l ++ [e]).
Proof.
  intros Hr Ht HG. pose proof (rooted_length _ _ Hr). split.
  - rewrite lookup_app_l by done. apply Hr.
  - intros k x Hk [Hx|[Hlen Hx]]%lookup_app_Some.
    + destruct (rt_entry _ _ Hr k x Hk Hx) as (? & g & Hg & Ha). split; [done|].
      exists g. split; [done|]. eapply agree_trans; [|exact Ha]. apply agree_sym, agree_prefix.
      * by exists [e].
      * by eapply lookup_lt_Some.
    + apply list_lookup_singleton_Some in Hx as [_ <-]. split; [done|]. by exists (l ++ [e]).
Qed.
End rooted.

(** ** Following a leader *)

(** A request is a piece of the leader's log [g], or an empty one beyond its end. *)
Definition ae_sound (g : list LogEntry) (request : AppendEntriesRequest) : Prop :=
  (ae_entries request = [] ∧ ae_prev_log_term request = 0%N) ∨
  ∃ e, g !! N.to_nat (ae_prev_log_index request) = Some e ∧
    e_term e = ae_prev_log_term request ∧
    ae_entries request `prefix_of` drop (S (N.to_nat (ae_prev_log_index request))) g.

Lemma ae_sound_prefix g g' request : g `prefix_of` g' → ae_sound g request → ae_sound g' request.
Proof.
  intros [x ->] [?|(e & He & Ht & Hp)]; [by left|]. right. exists e.
  split_and!; [by apply lookup_app_l_Some|done|]. etrans; [exact Hp|]. apply lookup_lt_Some in He.
  rewrite drop_app_le by lia. by apply prefix_app_r.
Qed.

Lemma merge_entries_shape new : ∀ old,
  merge_entries old new = old ∨ length (merge_entries old new) = length new.
Proof.
  induction new as [|n new IH]; intros old; [left; by destruct old|].
  destruct old as [|o old]; [by right|]. cbn [merge_entries]. case_bool_decide; [|by right].
  destruct (IH old) as [->|Hl]; [by left|]. right. simpl. by rewrite Hl.
Qed.

Section follow.
Context (G : history) (l g : list LogEntry) (request : AppendEntriesRequest).
Context (Hl : rooted G l) (Hg : rooted G g).

Let p := N.to_nat (ae_prev_log_index request).
Let n := length (ae_entries request).
Let l' := l_entries (spec_append (mkLog l) request).

Context (Hsound : ae_sound g request).
Context (Hprev : term_at (mkLog l) (ae_prev_log_index request) = ae_prev_log_term request).
Context (Hroom : (ae_prev_log_index request + 1 < u64_modulus)%N).

(** The previous entry is there and is the leader's. *)
Lemma follow_prev e :
  g !! p = Some e → e_term e = ae_prev_log_term request → agree p l g ∧ p < length l.
Proof.
  intros He Ht. rewrite term_at_lookup in Hprev. simpl in Hprev. fold p in Hprev.
  destruct (decide (p = 0)) as [E|Hp].
  { rewrite E in *. split; [|by eapply rooted_length]. intros j Hj. replace j with 0 by lia.
    by rewrite (rt_sentinel _ _ Hl), (rt_sentinel _ _ Hg). }
  destruct (rt_entry _ _ Hg p e ltac:(lia) He) as [Hpos _].
  destruct (l !! p) as [x|] eqn:Hx; simpl in Hprev; [|lia].
  split; [|by eapply lookup_lt_Some]. eapply (rooted_agree G _ _ _ x e); try done. congruence.
Qed.

Lemma follow_merge e :
  g !! p = Some e → e_term e = ae_prev_log_term request →
  l' = take (S p) l ++ merge_entries (drop (S p) l) (ae_entries request).
Proof.
  intros He Ht. destruct (follow_prev e He Ht) as [_ Hlen]. unfold l', spec_append.
  rewrite wrap64_small by done. case_bool_decide as Hes.
  { rewrite Hes, merge_entries_nil. by rewrite take_drop. }
  destruct (scan_entries _ _ _) as [l1 i1] eqn:Hs. cbn [fst snd l_entries].
  apply scan_entries_merge in Hs as [_ Hs]; [| |unfold vec_len; simpl; lia].
  - rewrite Hs. simpl. by replace (N.to_nat (ae_prev_log_index request + 1)) with (S p) by lia.
  - simpl. intros E. pose proof (rooted_length _ _ Hl) as Hpos. rewrite E in Hpos. simpl in Hpos. lia.
Qed.

(** After the merge the log holds everything the request carries. *)
Lemma follow_covers e :
  g !! p = Some e → e_term e = ae_prev_log_term request →
  ae_entries request `prefix_of` drop (S p) g → agree (p + n) l' g ∧ p + n < length l'.
Proof.
  intros He Ht Hes. destruct (follow_prev e He Ht) as [Ha Hlen].
  rewrite (follow_merge e He Ht).
  assert (∀ j, j < n → ae_entries request !! j = g !! (S p + j)) as Hk.
  { intros j Hj. rewrite <-lookup_drop. by apply (agree_prefix j). }
  assert (∀ j o x, drop (S p) l !! j = Some o → ae_entries request !! j = Some x →
    e_term o = e_term x → o = x) as Hm.
  { intros j o x Ho Hx Hox. rewrite lookup_drop in Ho.
    rewrite Hk in Hx by (by eapply lookup_lt_Some).
    pose proof (rooted_agree G l g _ _ _ Hl Hg Ho Hx Hox _ (le_n _)) as E. congruence. }
  assert (∀ j, j ≤ p + n → (take (S p) l ++ merge_entries (drop (S p) l) (ae_entries request)) !! j = g !! j) as Hlk.
  { intros j Hj. destruct (decide (j ≤ p)).
    - rewrite lookup_app_l by (rewrite length_take; lia). rewrite lookup_take_lt by lia. by apply Ha.
    - rewrite lookup_app_r by (rewrite length_take; lia). rewrite length_take, Nat.min_l by lia.
      rewrite (merge_entries_lookup _ _ _ Hm) by (fold n; lia). rewrite Hk by lia. f_equal. lia. }
  split; [exact Hlk|]. apply lookup_lt_is_Some. rewrite Hlk by lia. apply lookup_lt_is_Some.
  apply prefix_length in Hes. rewrite length_drop in Hes. fold n in Hes.
  pose proof (lookup_lt_Some _ _ _ He). lia.
Qed.

(** The log is unchanged, or it is now a prefix of the leader's. *)
Lemma follow_shape : l' = l ∨ (l' `prefix_of` g ∧ 0 < length l').
Proof.
  destruct Hsound as [[Hes Ht]|(e & He & Ht & Hes)].
  { left. unfold l', spec_append. by rewrite bool_decide_true. }
  destruct (follow_covers e He Ht Hes) as [Ha Hlen]. pose proof (follow_prev e He Ht) as [_ Hpl].
  destruct (merge_entries_shape (ae_entries request) (drop (S p) l)) as [E|E].
  - left. rewrite (follow_merge e He Ht), E. by rewrite take_drop.
  - right. split; [|lia]. apply (agree_is_prefix (p + n)); [done|].
    rewrite (follow_merge e He Ht), length_app, length_take, E. fold n. lia.
Qed.

(** What the log shared with the leader's is kept. *)
Lemma follow_keeps k : k < length l → agree k l g → agree k l l'.
Proof.
  intros Hk Ha. destruct Hsound as [[Hes Ht]|(e & He & Ht & Hes)].
  { unfold l', spec_append. by rewrite bool_decide_true. }
  destruct (follow_covers e He Ht Hes) as [Hc Hlen].
  destruct (decide (k ≤ p + n)) as [Hle|Hgt].
  { eapply agree_trans; [exact Ha|]. apply agree_sym. by eapply agree_le. }
  enough (l' = l) as -> by done. rewrite (follow_merge e He Ht), merge_entries_same, take_drop; [done|].
  intros j x Hx. pose proof (lookup_lt_Some _ _ _ Hx) as Hj. fold n in Hj.
  assert (ae_entries request !! j = drop (S p) g !! j) as E by (by apply (agree_prefix j)).
  rewrite Hx, lookup_drop in E. exists x. rewrite lookup_drop. split; [|done].
  rewrite Ha by lia. done.
Qed.

(** A log that ends with what the request covers is the leader's so far. *)
Lemma follow_ends : length l' = S (p + n) → l' `prefix_of` g.
Proof.
  intros Hlen. destruct Hsound as [[Hes Ht]|(e & He & Ht & Hes)].
  - assert (l' = l) as E by (unfold l', spec_append; by rewrite bool_decide_true).
    assert (n = 0) as Hn by (unfold n; by rewrite Hes).
    pose proof (term_at_zero (mkLog l) (ae_prev_log_index request) (rooted_wf _ _ Hl)) as Hz.
    rewrite Hprev, Ht in Hz. destruct Hz as [Hz _]. specialize (Hz eq_refl).
    unfold last_index, vec_len in Hz. simpl in Hz. rewrite E in Hlen.
    destruct Hz as [Hz|Hz]; [|lia]. unfold p in Hlen. rewrite Hz, Hn in Hlen. simpl in Hlen.
    rewrite E. apply (agree_is_prefix 0); [|done]. intros j Hj. replace j with 0 by lia.
    by rewrite (rt_sentinel _ _ Hl), (rt_sentinel _ _ Hg).
  - by apply (agree_is_prefix (p + n)); [apply (follow_covers e)|].
Qed.

End follow.

(** ** The invariant *)

Definition hist_ok (G : history) : Prop :=
  ∀ t g, G !! t = Some g → rooted G g ∧ Forall (λ e, e_term e ≤ t)%N g.

Record node_rooted (G : history) (leaders : list (N * N)) (i : N) (s : RaftState) : Prop := {
  nr_rooted : rooted G (l_entries (rs_log s));
  nr_terms : Forall (λ e, e_term e ≤ current_term s)%N (l_entries (rs_log s));
  nr_positive : role s ≠ Follower → (0 < current_term s)%N;
  nr_leader : role s = Leader → G !! current_term s = Some (l_entries (rs_log s));
  nr_office : role s = Leader → (current_term s, i) ∈ leaders;
  nr_next : role s = Leader → next_positive s;
}.

(** How an event of node [i], which leaves it in state [s], may change the history:
    only in the node's term, which it leads or led, to its present log. *)
Definition hist_change (ls : list (N * N)) (i : N) (s : RaftState) (G G' : history) : Prop :=
  ∀ t, G' !! t = G !! t ∨
    (t = current_term s ∧ G' !! t = Some (l_entries (rs_log s)) ∧ (t, i) ∈ ls ∧
     (G !! t = None → role s = Leader)).

Lemma hist_change_insert ls i s G t l :
  t = current_term s → l = l_entries (rs_log s) → (t, i) ∈ ls → (G !! t = None → role s = Leader) →
  hist_change ls i s G (<[t := l]> G).
Proof.
  intros -> -> Hin Hr t'. destruct (decide (t' = current_term s)) as [->|].
  - right. by rewrite lookup_insert_eq.
  - left. by rewrite lookup_insert_ne.
Qed.

Lemma hist_insert G t l :
  hist_ok G → (∀ g, G !! t = Some g → adds t g l) →
  rooted (<[t := l]> G) l → Forall (λ e, e_term e ≤ t)%N l →
  grows G (<[t := l]> G) ∧ hist_ok (<[t := l]> G).
Proof.
  intros HG Hp Hl Ht.
  assert (grows G (<[t := l]> G)) as Hgr.
  { intros t' g Hg. destruct (decide (t' = t)) as [->|].
    - exists l. rewrite lookup_insert_eq. eauto.
    - exists g. by rewrite lookup_insert_ne. }
  split; [done|]. intros t' g [[<- <-]|[_ Hg]]%lookup_insert_Some; [done|].
  destruct (HG _ _ Hg). split; [by eapply rooted_grows|done].
Qed.

Lemma node_rooted_grows G G' ls ls' i s :
  grows G G' → ls ⊆ ls' → (role s = Leader → G' !! current_term s = G !! current_term s) →
  node_rooted G ls i s → node_rooted G' ls' i s.
Proof.
  intros HG Hls Hsame [H1 H2 H3 H4 H5 H6]. split; [by eapply rooted_grows|done|done| | |done].
  - intros Hr. rewrite Hsame by done. auto.
  - auto.
Qed.

Lemma replicate_to_peer_sound s to request :
  replicate_to_peer s to = Some (SendAppendEntries to request) → next_positive s →
  ae_sound (l_entries (rs_log s)) request ∧ ae_term request = current_term s ∧
  ae_leader_id request = rs_id s ∧ ae_leader_commit request = commit_index s.
Proof.
  unfold replicate_to_peer. intros Hr Hpos. destruct (list_find _ _) as [[k [f ni]]|] eqn:Hf; [|done].
  apply list_find_Some in Hf as (Hk & _ & _). apply list_elem_of_lookup_2, Hpos in Hk. simpl in *.
  rewrite bool_decide_true in Hr by lia. injection Hr as <-. simpl. split_and!; [|done..].
  unfold ae_sound. simpl. rewrite term_at_lookup, entries_from_drop.
  destruct (l_entries (rs_log s) !! N.to_nat (ni - 1)) as [e|] eqn:He; simpl.
  - right. exists e. split_and!; [done|done|]. by replace (S (N.to_nat (ni - 1))) with (N.to_nat ni) by lia.
  - left. split; [|done]. apply lookup_ge_None in He. apply drop_ge. lia.
Qed.

(** ** One node *)

Section one_node.
Context (G : history) (ls : list (N * N)) (j : N) (v v1 : rview).
Context (fire : bool) (i : RaftInput) (acts : list Action).
Context (HG : hist_ok G) (Hv : node_rooted G ls j (v_state v)) (Hroom : roomy_input i).
Context (Htick : i = InTick → (current_term (v_state v) + 1 < u64_modulus)%N).
Context (Hae : ∀ request, i = InAppendEntries request →
  ∃ g, G !! ae_term request = Some g ∧ ae_sound g request).
Context (Hnext : raft_next fire i v = (v1, acts)).

(** What became of the log: it stayed, a follower took over a piece of history, or
    a leader wrote history. *)
Lemma next_history :
  (rs_log (v_state v1) = rs_log (v_state v) ∨ role (v_state v1) = Follower) ∧ rooted G (l_entries (rs_log (v_state v1))) ∧
    Forall (λ e, e_term e ≤ current_term (v_state v1))%N (l_entries (rs_log (v_state v1))) ∨
  ∃ command, let l := l_entries (rs_log (v_state v)) ++ [mkEntry (current_term (v_state v)) command] in
    let G' := <[current_term (v_state v) := l]> G in
    role (v_state v) = Leader ∧ role (v_state v1) = Leader ∧ current_term (v_state v1) = current_term (v_state v) ∧
    l_entries (rs_log (v_state v1)) = l ∧ grows G G' ∧ hist_ok G' ∧ rooted G' l ∧
    Forall (λ e, e_term e ≤ current_term (v_state v))%N l.
Proof.
  pose proof (next_term _ _ _ _ _ Hnext Htick) as Hle.
  destruct Hv as [H1 H2 H3 H4 H5 H6].
  destruct (next_log_effect _ _ _ _ _ Hnext) as [El|c Ei Hr Hr1 Et El _ _|request Ei [Hp Hpt] Hr1 Et El].
  - left. split; [by left|]. rewrite El. split; [done|].
    eapply Forall_impl; [exact H2|]. simpl. lia.
  - right. exists c. cbv zeta. rewrite El.
    assert (G !! current_term (v_state v) = Some (l_entries (rs_log (v_state v)))) as Hg by auto.
    set (l := l_entries (rs_log (v_state v)) ++ _).
    assert (grows G (<[current_term (v_state v) := l]> G)) as Hgr.
    { intros t g Ht. destruct (decide (t = current_term (v_state v))) as [->|].
      - rewrite lookup_insert_eq. exists l. split; [done|]. rewrite Hg in Ht. simplify_eq.
        eexists. split; [done|by repeat constructor].
      - exists g. by rewrite lookup_insert_ne. }
    assert (rooted (<[current_term (v_state v) := l]> G) l) as Hl.
    { apply rooted_snoc; simpl; [by eapply rooted_grows|apply H3; congruence|by rewrite lookup_insert_eq]. }
    assert (Forall (λ e, e_term e ≤ current_term (v_state v))%N l) as Hf.
    { apply Forall_app. split; [done|]. by repeat constructor. }
    split_and!; try done. apply hist_insert; [done| |done|done].
    intros g E. rewrite Hg in E. simplify_eq. eexists. split; [done|by repeat constructor].
  - left. destruct (Hae _ Ei) as (g & Hg & Hs). destruct (HG _ _ Hg) as [Hrg Hfg].
    rewrite Ei in Hroom. simpl in Hroom.
    split; [by right|]. rewrite El. destruct (rs_log (v_state v)) as [l] eqn:Es.
    destruct (follow_shape G l g request H1 Hrg Hs Hpt Hroom) as [E|[Hpre Hlen]].
    + rewrite E. split; [done|]. eapply Forall_impl; [exact H2|]. simpl. lia.
    + split; [by eapply rooted_prefix|]. rewrite Et. destruct Hpre as [x Hx]. rewrite Hx in Hfg.
      by apply Forall_app in Hfg as [? _].
Qed.

Lemma next_positive_term : role (v_state v1) ≠ Follower → (0 < current_term (v_state v1))%N.
Proof.
  intros Hr. pose proof (next_term _ _ _ _ _ Hnext Htick) as Hle.
  pose proof (nr_positive _ _ _ _ Hv) as Hpos.
  assert (∀ x, x = stand (v_state v) → i = InTick → (0 < current_term x)%N) as Hst.
  { intros x -> Hi. simpl. rewrite wrap64_small by (by apply Htick). lia. }
  destruct (role (v_state v1)) eqn:Hr1; [done| |].
  - destruct (next_candidate _ _ _ _ _ Hnext Hr1) as [(Hc & -> & _)|[E Hi]]; [|by apply Hst].
    apply Hpos. congruence.
  - destruct (next_leader _ _ _ _ _ Hnext Hr1) as [Hl ->|x [[-> Hc]|[-> Hi]] _ E].
    + apply Hpos. congruence.
    + rewrite E. simpl. apply Hpos. congruence.
    + rewrite E. simpl. by apply (Hst (stand (v_state v))).
Qed.

(** A node that dies after the transition: what it left on disk is rooted. *)
Lemma asleep_rooted ls' :
  ((current_term (v_state v), j) ∈ ls → (current_term (v_state v), j) ∈ ls') →
  ∃ G', hist_change ls' j (v_state (asleep (v_state v1))) G G' ∧
    grows G G' ∧ hist_ok G' ∧ node_rooted G' ls' j (v_state (asleep (v_state v1))).
Proof.
  intros Hls. destruct next_history as [(_ & Hr & Hf)|(c & Hr & Hr1 & Et & El & Hgr & Hh & Hro & Hf)].
  - exists G. split_and!; [by left|done|done|]. by split.
  - exists (<[current_term (v_state v) := l_entries (rs_log (v_state v1))]> G). rewrite El.
    split_and!; [|done|done|split; simpl; try done; unfold to_entries; by rewrite El, ?Et].
    apply hist_change_insert; simpl; [done|done|apply Hls, Hv, Hr|]. intros Hn.
    by rewrite (nr_leader _ _ _ _ Hv Hr) in Hn.
Qed.

(** A node that lives on.  The premise about a new leader'(v_state v) term comes from
    Election Safety. *)
Lemma input_rooted ls' :
  ls ⊆ ls' → (role (v_state v1) = Leader → (current_term (v_state v1), j) ∈ ls') →
  (role (v_state v1) = Leader → role (v_state v) ≠ Leader ∨ current_term (v_state v) ≠ current_term (v_state v1) → G !! current_term (v_state v1) = None) →
  ∃ G', hist_change ls' j (v_state v1) G G' ∧ grows G G' ∧ hist_ok G' ∧ node_rooted G' ls' j (v_state v1).
Proof.
  intros Hls Hoff Hfresh. pose proof next_positive_term as Hpos.
  assert (role (v_state v1) = Leader → next_positive (v_state v1)) as Hnp.
  { intros Hr. eapply next_index_positive; [exact Hnext|exact Hroom| |exact Hr]. apply Hv. }
  destruct next_history as [(Hk & Hr & Hf)|(c & Hr & Hr1 & Et & El & Hgr & Hh & Hro & Hf)].
  - destruct (decide (role (v_state v1) = Leader)) as [Hl|Hl].
    + destruct Hk as [Hk|Hk]; [|congruence].
      destruct (decide (role (v_state v) = Leader ∧ current_term (v_state v) = current_term (v_state v1))) as [[Hl0 Ht0]|Hnew].
      * exists G. split_and!; [by left|done|done|]. split; try done.
        intros _. rewrite Hk, <-Ht0. by apply Hv.
      * assert (G !! current_term (v_state v1) = None) as Hnone.
        { apply Hfresh; [done|]. destruct (decide (role (v_state v) = Leader)); [right|by left].
          intros E. by apply Hnew. }
        set (G' := <[current_term (v_state v1) := l_entries (rs_log (v_state v1))]> G).
        assert (grows G G') as Hgr.
        { intros t g Ht. exists g. split; [|done]. unfold G'. rewrite lookup_insert_ne; [done|]. congruence. }
        assert (rooted G' (l_entries (rs_log (v_state v1)))) as Hro by (by eapply rooted_grows).
        exists G'. split_and!; [apply hist_change_insert; auto|done| |].
        -- apply hist_insert; try done. intros g E. congruence.
        -- split; try done. intros _. unfold G'. by rewrite lookup_insert_eq.
    + exists G. split_and!; [by left|done|done|]. by split.
  - rewrite Et in Hoff. exists (<[current_term (v_state v) := l_entries (rs_log (v_state v1))]> G).
    rewrite El. split_and!; [apply hist_change_insert; auto|done|done|].
    split; rewrite ?El, ?Et; try done; [by rewrite Et in Hpos|by rewrite lookup_insert_eq].
Qed.

End one_node.

(** ** The whole cluster *)

Section invariant.
Context `{StateCodecLaws} `{Build} `{Deployment}.

Record lm_inv (G : history) (σ : system) : Prop := {
  lm_hist : hist_ok G;
  lm_term : ∀ t g, G !! t = Some g → ∃ i, (t, i) ∈ sys_leaders σ;
  lm_node : ∀ i v, sview σ i = Some v → node_rooted G (sys_leaders σ) i (v_state v);
  lm_past : ∀ t i, (t, i) ∈ sys_leaders σ → ∃ v, sview σ i = Some v ∧
    (t ≤ current_term (v_state v))%N ∧ (t = current_term (v_state v) → role (v_state v) ≠ Candidate);
  lm_append : ∀ to from request, (to, NAppendEntries from request) ∈ sys_net σ →
    ∃ g, G !! ae_term request = Some g ∧ ae_sound g request;
}.

(** No index on the wire is the last 64-bit value (that would take a log of 2^64
    entries), on top of what [benign] excludes. *)
Definition roomy (σ : system) (e : event) : Prop :=
  benign σ e ∧ ∀ i, event_input e = Some i → roomy_input i.

Lemma posts_says i acts to msg :
  (to, msg) ∈ posts i (omap action_message acts) →
  ∃ a payload, a ∈ acts ∧ action_message a = Some (mkMsg to payload) ∧
    msg = network_message i payload ∧ to ∈ members ∧ to ≠ i.
Proof.
  intros ([to' pl] & Hin & Hm)%list_elem_of_omap. simpl in Hm. case_bool_decide as Hc; [|done].
  simplify_eq. apply list_elem_of_omap in Hin as (a & Ha & Ham). destruct Hc. eauto 10.
Qed.

(** Terms only grow, and a leader of a term is not a candidate in it again. *)
Lemma moves_term e v v' msgs :
  moves e v v' msgs →
  (event_input e = Some InTick → (current_term (v_state v) + 1 < u64_modulus)%N) →
  (current_term (v_state v) ≤ current_term (v_state v'))%N.
Proof.
  intros Hm Ht. destruct Hm as [i fire acts v' Hi Hn|i fire acts v1 Hi Hn|d Hd _|]; [| |done|done].
  - eapply next_term; [exact Hn|]. intros ->. auto.
  - simpl. eapply next_term; [exact Hn|]. intros ->. auto.
Qed.

Lemma moves_candidate e v v' msgs :
  moves e v v' msgs →
  (event_input e = Some InTick → (current_term (v_state v) + 1 < u64_modulus)%N) →
  role (v_state v') = Candidate →
  (role (v_state v) = Candidate ∧ current_term (v_state v') = current_term (v_state v) ∧
   rs_log (v_state v') = rs_log (v_state v)) ∨
  (v_state v' = stand (v_state v) ∧ event_input e = Some InTick ∧
   (current_term (v_state v) < current_term (v_state v'))%N).
Proof.
  intros Hm Ht Hr. destruct Hm as [i fire acts v' Hi Hn|i fire acts v1 Hi Hn|d Hd _|]; [|done|done|by left].
  destruct (next_candidate _ _ _ _ _ Hn Hr) as [?|[E ->]]; [by left|right].
  split_and!; [done|done|]. rewrite E. simpl. rewrite wrap64_small by (by apply Ht). lia.
Qed.

Lemma past_step σ e σ' v v' msgs :
  step_shape σ e σ' v v' msgs →
  (∀ t i, (t, i) ∈ sys_leaders σ → ∃ v, sview σ i = Some v ∧
    (t ≤ current_term (v_state v))%N ∧ (t = current_term (v_state v) → role (v_state v) ≠ Candidate)) →
  ∀ t i, (t, i) ∈ sys_leaders σ' → ∃ v, sview σ' i = Some v ∧
    (t ≤ current_term (v_state v))%N ∧ (t = current_term (v_state v) → role (v_state v) ≠ Candidate).
Proof.
  intros Hs Hp t i. rewrite (ss_leaders _ _ _ _ _ _ Hs).
  intros [Hin|(Hr & -> & ->)%node_leader_spec]%elem_of_app.
  - destruct (Hp t i Hin) as (u & Hu & Hle & Hc). destruct (decide (i = event_node e)) as [->|Hi].
    + rewrite (ss_before _ _ _ _ _ _ Hs) in Hu. simplify_eq.
      exists v'. split; [apply Hs|]. pose proof (moves_term _ _ _ _ (ss_moves _ _ _ _ _ _ Hs) (ss_tick _ _ _ _ _ _ Hs)).
      split; [lia|]. intros -> Hr.
      destruct (moves_candidate _ _ _ _ (ss_moves _ _ _ _ _ _ Hs) (ss_tick _ _ _ _ _ _ Hs) Hr)
        as [(Hr0 & E & _)|(_ & _ & Hlt)]; [by apply Hc|lia].
    + exists u. by rewrite (ss_others _ _ _ _ _ _ Hs).
  - exists v'. split; [apply Hs|]. split; [done|]. congruence.
Qed.

Lemma lm_assemble σ e σ' G G' v v' msgs :
  sys_ok σ' → lm_inv G σ → step_shape σ e σ' v v' msgs →
  hist_change (sys_leaders σ') (event_node e) (v_state v') G G' →
  grows G G' → hist_ok G' → node_rooted G' (sys_leaders σ') (event_node e) (v_state v') →
  (∀ to from request, (to, NAppendEntries from request) ∈ posts (event_node e) msgs →
     ∃ g, G' !! ae_term request = Some g ∧ ae_sound g request) →
  lm_inv G' σ'.
Proof.
  intros Hok' [L1 L2 L3 L4 L5] Hs HG' Hgr Hh Hv' Hmsg.
  assert (sys_leaders σ ⊆ sys_leaders σ') as Hsub.
  { rewrite (ss_leaders _ _ _ _ _ _ Hs). intros x Hx. apply elem_of_app. by left. }
  split; [done| | |by eapply past_step|].
  - intros t g Hg. destruct (HG' t) as [E|(_ & _ & Ht & _)]; [|eauto].
    rewrite E in Hg. destruct (L2 _ _ Hg) as [i Hi]. eauto.
  - intros i u Hu. destruct (decide (i = event_node e)) as [->|Hi].
    { rewrite (ss_after _ _ _ _ _ _ Hs) in Hu. by simplify_eq. }
    rewrite (ss_others _ _ _ _ _ _ Hs) in Hu by done. specialize (L3 _ _ Hu).
    eapply node_rooted_grows; [done|done| |done]. intros Hr.
    destruct (HG' (current_term (v_state u))) as [|(_ & _ & Ht & _)]; [done|].
    destruct Hi. eapply one_leader_per_term; [done| |done]. by apply Hsub, L3.
  - intros to from request. rewrite (ss_net _ _ _ _ _ _ Hs).
    intros [Hin|Hin]%elem_of_app; [|by eapply Hmsg].
    destruct (L5 _ _ _ Hin) as (g & Hg & Hsnd). destruct (Hgr _ _ Hg) as (g' & Hg' & Hp%adds_prefix).
    exists g'. split; [done|]. by eapply ae_sound_prefix.
Qed.

Lemma posts_nil i : posts i [] = [].
Proof. done. Qed.

(** Election Safety: the history knows nothing of the term of a new leader. *)
Lemma fresh_term σ e σ' G v v' msgs i :
  sys_ok σ' → lm_inv G σ → step_shape σ e σ' v v' msgs → role (v_state v') = Leader →
  event_input e = Some i → takes_office i v v' →
  role (v_state v) ≠ Leader ∨ current_term (v_state v) ≠ current_term (v_state v') →
  G !! current_term (v_state v') = None.
Proof.
  intros Hok' HI Hs Hr Hin Hoff Hnew. destruct (G !! _) as [g|] eqn:Hg; [|done]. exfalso.
  destruct (lm_term _ _ HI _ _ Hg) as [j Hj].
  assert ((current_term (v_state v'), event_node e) ∈ sys_leaders σ') as Hi0.
  { rewrite (ss_leaders _ _ _ _ _ _ Hs). apply elem_of_app. right. by apply node_leader_spec. }
  assert (j = event_node e) as ->.
  { eapply one_leader_per_term; [done| |done]. rewrite (ss_leaders _ _ _ _ _ _ Hs).
    apply elem_of_app. by left. }
  destruct (lm_past _ _ HI _ _ Hj) as (u & Hu & Hle & Hc).
  rewrite (ss_before _ _ _ _ _ _ Hs) in Hu. simplify_eq.
  destruct Hoff as [Hl Ht|x [[-> Hcand]|[-> ->]] _ E].
  - destruct Hnew as [|Hne]; [done|by destruct Hne].
  - rewrite E in Hc, Hle. by apply Hc.
  - apply (ss_tick _ _ _ _ _ _ Hs) in Hin. rewrite E in Hle. simpl in Hle.
    rewrite wrap64_small in Hle by done. lia.
Qed.

Lemma event_append_sound σ e σ' G v v' msgs request :
  lm_inv G σ → step_shape σ e σ' v v' msgs → event_input e = Some (InAppendEntries request) →
  ∃ g, G !! ae_term request = Some g ∧ ae_sound g request.
Proof.
  intros HI Hs Hi. destruct e as [|i msg l|? c|?|?]; simpl in Hi; try done.
  - injection Hi as Hi. destruct msg; try done. simpl in Hi. simplify_eq.
    eapply (lm_append _ _ HI). by eapply (ss_deliver _ _ _ _ _ _ Hs).
  - by destruct (command_write c).
Qed.

Lemma lm_step σ e σ' G v v' msgs :
  sys_ok σ' → lm_inv G σ → roomy σ e → step_shape σ e σ' v v' msgs →
  ∃ G', grows G G' ∧ lm_inv G' σ' ∧ hist_change (sys_leaders σ') (event_node e) (v_state v') G G'.
Proof.
  intros Hok' HI [_ Hroom] Hs. pose proof (lm_node _ _ HI _ _ (ss_before _ _ _ _ _ _ Hs)) as Hv.
  assert (sys_leaders σ ⊆ sys_leaders σ') as Hsub.
  { rewrite (ss_leaders _ _ _ _ _ _ Hs). intros x Hx. apply elem_of_app. by left. }
  pose proof (ss_moves _ _ _ _ _ _ Hs) as Hm.
  destruct Hm as [i fire acts v' Hi Hn|i fire acts v1 Hi Hn|d Hd Hl|].
  - assert (i = InTick → (current_term (v_state v) + 1 < u64_modulus)%N) as Ht
      by (intros ->; by apply (ss_tick _ _ _ _ _ _ Hs)).
    destruct (input_rooted G (sys_leaders σ) (event_node e) v v' fire i acts (lm_hist _ _ HI) Hv
      (Hroom _ Hi) Ht) with (ls' := sys_leaders σ') as (G' & HG' & Hgr & Hh & Hv'); [|done|done| | |].
    + intros request ->. by eapply event_append_sound.
    + intros Hr. rewrite (ss_leaders _ _ _ _ _ _ Hs). apply elem_of_app. right. by apply node_leader_spec.
    + intros Hr Hnew. eapply fresh_term; try done. by eapply next_leader.
    + exists G'. split_and!; [done| |done]. eapply lm_assemble; try done.
      intros to from request Hp. apply posts_says in Hp as (a & pl & Ha & Ham & Hmsg & _ & _).
        destruct pl; simpl in Hmsg; simplify_eq. destruct a; simpl in Ham; simplify_eq.
        destruct (says_append_inv _ _ _ _ _ (next_says _ _ _ _ _ Hn _ Ha))
          as (Hr & s & Hrep & El & Et & En & _).
        destruct (replicate_to_peer_sound _ _ _ Hrep) as (Hsnd & Et' & _ & _).
        { unfold next_positive. rewrite En. by apply Hv'. }
        eexists. rewrite Et', Et. rewrite El in Hsnd. split; [by apply Hv'|done].
  - assert (i = InTick → (current_term (v_state v) + 1 < u64_modulus)%N) as Ht
      by (intros ->; by apply (ss_tick _ _ _ _ _ _ Hs)).
    destruct (asleep_rooted G (sys_leaders σ) (event_node e) v v1 fire i acts (lm_hist _ _ HI) Hv
      (Hroom _ Hi) Ht) with (ls' := sys_leaders σ') as (G' & HG' & Hgr & Hh & Hv'); [|done|auto|].
    + intros request ->. by eapply event_append_sound.
    + exists G'. split_and!; [done| |done]. eapply lm_assemble; try done.
      intros to from request Hp. rewrite posts_nil in Hp. by apply not_elem_of_nil in Hp.
  - exists G. split_and!; [done| |by left]. eapply lm_assemble; try done; [by left|apply HI| |].
    + destruct Hv as [H1' H2' _ _ _ _]. split; simpl; try done; rewrite Hl; [done|].
      eapply Forall_impl; [exact H2'|]. simpl. lia.
    + intros to from request Hp. rewrite posts_nil in Hp. by apply not_elem_of_nil in Hp.
  - exists G. split_and!; [done| |by left]. eapply lm_assemble; try done; [by left|apply HI| |].
    + by eapply node_rooted_grows.
    + intros to from request Hp. rewrite posts_nil in Hp. by apply not_elem_of_nil in Hp.
Qed.

Lemma lm_init : lm_inv ∅ sys_init.
Proof.
  split; simpl; try (by intros ? ? ?%not_elem_of_nil); try (by intros ? ? ? ?%not_elem_of_nil).
  - intros t g Hg. by rewrite lookup_empty in Hg.
  - intros t g Hg. by rewrite lookup_empty in Hg.
  - intros i v [-> _]%sview_init. split; simpl; try done; [|by repeat constructor].
    split; [done|]. intros [|[|k]] e Hk; [lia|done..].
Qed.

Lemma lm_reaches G σ σ' :
  reachable σ → lm_inv G σ → reaches roomy σ σ' → ∃ G', grows G G' ∧ lm_inv G' σ'.
Proof.
  intros Hr HI. induction 1 as [|σ1 e σ2 Hrun (G1 & Hgr & HI1) HP He]; [by exists G|].
  assert (reachable σ1) as Hr1 by (by eapply reaches_reachable; [|exact Hr|exact Hrun]; intros ? ? []).
  assert (reachable σ2) as Hr2 by (by eapply reachable_step; [exact Hr1|apply HP|exact He]).
  destruct (event_shape σ1 e σ2) as (v & v' & msgs & Hs);
    [by apply reachable_ok|apply HP|done|].
  destruct (lm_step σ1 e σ2 G1 v v' msgs) as (G2 & Hgr2 & HI2 & _); [by apply reachable_ok|done..|].
  exists G2. split; [by etrans|done].
Qed.

Lemma roomy_inv σ : reaches roomy sys_init σ → reachable σ ∧ ∃ G, lm_inv G σ.
Proof.
  intros Hrun. split.
  - eapply reaches_reachable; [|constructor|done]. by intros ? ? [].
  - destruct (lm_reaches ∅ sys_init σ) as (G & _ & HI); [constructor|apply lm_init|done|eauto].
Qed.

(** Terms do not decrease along a rooted log. *)
Lemma rooted_sorted G l j k a b :
  hist_ok G → rooted G l → j ≤ k → l !! j = Some a → l !! k = Some b → (e_term a ≤ e_term b)%N.
Proof.
  intros HG Hl Hjk Ha Hb. destruct (decide (k = 0)) as [->|Hk].
  { replace j with 0 in Ha by lia. by simplify_eq. }
  destruct (rt_entry _ _ Hl k b ltac:(lia) Hb) as (_ & g & Hg & Hag).
  destruct (HG _ _ Hg) as [_ Hf]. rewrite (Hag j) in Ha by done.
  rewrite Forall_lookup in Hf. by eapply Hf.
Qed.

(** C4: Log Matching.  In every reachable state of the cluster, take any two
    nodes, up or down (a node that is down counts with the log on its disk).  If
    their logs have an entry of the same term at the same index, they are
    identical up to that index, commands included. *)
Theorem log_matching σ i j vi vj :
  reaches roomy sys_init σ → sview σ i = Some vi → sview σ j = Some vj →
  logs_match (rs_log (v_state vi)) (rs_log (v_state vj)).
Proof.
  intros [_ [G HI]]%roomy_inv Hi Hj k e e' He He' Ht m Hm. rewrite log_get_lookup in *.
  pose proof (rooted_agree G _ _ _ _ _ (nr_rooted _ _ _ _ (lm_node _ _ HI _ _ Hi))
    (nr_rooted _ _ _ _ (lm_node _ _ HI _ _ Hj)) He He' Ht) as Ha.
  rewrite log_get_lookup. apply Ha. lia.
Qed.

(** C5: Leader Append-Only.  If a node is leader of a term in one state of a run
    and leader of the same term in a later one, then its later log is its earlier
    log with entries added at the end; whatever happens in between, a leader never
    overwrites or deletes. *)
Theorem leader_append_only σ σ' i v v' :
  reaches roomy sys_init σ → reaches roomy σ σ' →
  sview σ i = Some v → sview σ' i = Some v' →
  role (v_state v) = Leader → role (v_state v') = Leader →
  current_term (v_state v') = current_term (v_state v) →
  l_entries (rs_log (v_state v)) `prefix_of` l_entries (rs_log (v_state v')).
Proof.
  intros [Hr [G HI]]%roomy_inv Hrun Hv Hv' Hl Hl' Ht.
  destruct (lm_reaches G σ σ' Hr HI Hrun) as (G' & Hgr & HI').
  pose proof (nr_leader _ _ _ _ (lm_node _ _ HI _ _ Hv) Hl) as Hg.
  pose proof (nr_leader _ _ _ _ (lm_node _ _ HI' _ _ Hv') Hl') as Hg'.
  destruct (Hgr _ _ Hg) as (g & Hg2 & Hp%adds_prefix). rewrite Ht, Hg2 in Hg'. by simplify_eq.
Qed.

(** C14: every log is well formed.  In every reachable state, the log of every
    node, in memory or on disk, starts with the sentinel, carries positive terms
    that never decrease along the log and never exceed the node's own term, and
    the [next_index] of a leader is positive for every peer, so that the requests
    it builds never start before the sentinel. *)
Theorem logs_are_well_formed σ i v :
  reaches roomy sys_init σ → sview σ i = Some v →
  let l := l_entries (rs_log (v_state v)) in
  log_wf (rs_log (v_state v)) ∧
  (∀ j k a b, j ≤ k → l !! j = Some a → l !! k = Some b → (e_term a ≤ e_term b)%N) ∧
  Forall (λ e, e_term e ≤ current_term (v_state v))%N l ∧
  (role (v_state v) = Leader → next_positive (v_state v)).
Proof.
  intros [_ [G HI]]%roomy_inv Hv. destruct (lm_node _ _ HI _ _ Hv) as [N1 N2 _ _ _ N6].
  simpl. split_and!; [|intros ? ? ? ?; by apply (rooted_sorted G); [apply HI|]|done|done].
  apply rooted_wf in N1. by destruct (rs_log (v_state v)).
Qed.

End invariant.
