(* ===== verification/Safety.v ===== *)
(** * State Machine Safety of careful runs

    Unsafety.v shows that the program breaks State Machine Safety.  Here is the
    other half: it does so in two ways only.  In a run where a follower that
    accepts a request holds nothing beyond what the leader of that term has
    written (so that the match index it reports is true), and no leader counts a
    reply from an earlier term, Leader Completeness and State Machine Safety hold,
    with crashes, restarts, and messages lost, late, repeated and reordered.

    The proof speaks about what the messages ever sent establish.  A reply
    acknowledges an index of a term; an entry that a majority has acknowledged is
    in the log of every later leader, because the majority that elected it
    contains a node that had acknowledged the entry and voted by comparing logs. *)

From S2P Require Import Prelude Text Fs Log State Message Persist Codec Node Commit.
From S2P Require Import Durability BTree Memtable Wal Engine Ring Router Protocol Cluster.
From S2P Require Import ClusterProps Transport Server Election Replication RaftSpec Transition.
From S2P Require Import System ElectionSafety Trace LogMatching.

Lemma NoDup_submseteq {A} (l k : list A) : l ⊆+ k → NoDup k → NoDup l.
Proof. intros [r ->]%submseteq_Permutation. by intros [? _]%NoDup_app. Qed.

(** ** Pieces of history *)

#[export] Instance agree_dec k l l' : Decision (agree k l l').
Proof.
  refine (cast_if (decide (Forall (λ j, l !! j = l' !! j) (seq 0 (S k))))).
  - intros j Hj. rewrite Forall_forall in *. apply f. apply elem_of_seq. lia.
  - intros Ha. apply n. apply Forall_forall. intros j Hj%elem_of_seq. apply Ha. lia.
Defined.

(** Index [k] of the leader's log of term [t] is an entry of its own. *)
Definition own (G : history) (t : N) (k : nat) : Prop :=
  0 < k ∧ ∃ g e, G !! t = Some g ∧ g !! k = Some e ∧ e_term e = t.

(** A log has what the leader of term [t] wrote, up to index [k]. *)
Definition holds (G : history) (t : N) (k : nat) (l : list LogEntry) : Prop :=
  ∃ g, G !! t = Some g ∧ k < length g ∧ agree k g l.

(** The leader of the later term [u] does not. *)
Definition strays (G : history) (u t : N) (k : nat) : Prop :=
  (t < u)%N ∧ ∃ h, G !! u = Some h ∧ ¬ holds G t k h.

Section pieces.
Implicit Types (G : history) (t u : N) (k : nat) (l : list LogEntry).

Lemma holds_dec G t k l : holds G t k l ∨ ¬ holds G t k l.
Proof.
  destruct (G !! t) as [g|] eqn:Hg; [|right; intros (g & ? & _); congruence].
  destruct (decide (k < length g ∧ agree k g l)) as [[? ?]|Hn]; [left; by exists g|right].
  intros (g' & ? & ? & ?). simplify_eq. by destruct Hn.
Qed.

Lemma own_holds G t k : own G t k → ∃ g, G !! t = Some g ∧ k < length g ∧ holds G t k g.
Proof.
  intros (_ & g & e & Hg & He & _). apply lookup_lt_Some in He. exists g. split_and!; [done|done|by exists g].
Qed.

Lemma holds_length G t k l : holds G t k l → k < length l.
Proof. intros (g & _ & Hk & Ha). by eapply agree_length. Qed.

Lemma holds_agree G t k l l' : holds G t k l → agree k l l' → holds G t k l'.
Proof. intros (g & ? & ? & ?) Ha. exists g. split_and!; [done|done|by eapply agree_trans]. Qed.

Lemma holds_prefix G t k l l' : l `prefix_of` l' → holds G t k l → holds G t k l'.
Proof. intros Hp Hh. eapply holds_agree; [done|]. apply agree_prefix; [done|by eapply holds_length]. Qed.

Lemma holds_le G t j k l : j ≤ k → holds G t k l → holds G t j l.
Proof. intros Hj (g & ? & ? & ?). exists g. split_and!; [done|lia|by eapply agree_le]. Qed.

Lemma holds_both G t k l l' : holds G t k l → holds G t k l' → agree k l l'.
Proof.
  intros (g & Hg & _ & Ha) (g' & Hg' & _ & Ha'). simplify_eq.
  eapply agree_trans; [by apply agree_sym|done].
Qed.

(** Growth of the history. *)
Lemma own_grows G G' t k : grows G G' → own G t k → own G' t k.
Proof.
  intros HG (Hk & g & e & Hg & He & Ht). destruct (HG _ _ Hg) as (g' & Hg' & Hp%adds_prefix).
  split; [done|]. exists g', e. split_and!; [done| |done]. by eapply prefix_lookup_Some.
Qed.

Lemma holds_grows G G' t k l : grows G G' → holds G t k l → holds G' t k l.
Proof.
  intros HG (g & Hg & Hk & Ha). destruct (HG _ _ Hg) as (g' & Hg' & Hp%adds_prefix).
  exists g'. split_and!; [done|apply prefix_length in Hp; lia|].
  eapply agree_trans; [|exact Ha]. by apply agree_sym, agree_prefix.
Qed.

Lemma strays_grows G G' u t k :
  hist_ok G → grows G G' → own G t k → strays G u t k → strays G' u t k.
Proof.
  intros HG Hgr (_ & g & e & Hg & He & _) (Htu & h & Hh & Hn). split; [done|].
  pose proof (lookup_lt_Some _ _ _ He) as Hk.
  destruct (Hgr _ _ Hg) as (g' & Hg' & Hpg%adds_prefix). destruct (Hgr _ _ Hh) as (h' & Hh' & new & -> & Hnew).
  exists (h ++ new). split; [done|]. intros (g2 & Hg2 & _ & Ha). simplify_eq. apply Hn.
  assert (agree k g (h ++ new)) as Hag.
  { eapply agree_trans; [|exact Ha]. by apply agree_prefix. }
  exists g. split_and!; [done|done|].
  assert (k < length h) as Hlen.
  { apply Nat.nle_gt. intros Hle.
    destruct (lookup_lt_is_Some_2 g (length h)) as [x Hx]; [lia|].
    pose proof (proj2 (HG _ _ Hg)) as Hf. rewrite Forall_lookup in Hf. specialize (Hf _ _ Hx). simpl in Hf.
    rewrite (Hag (length h)) in Hx by done. rewrite lookup_app_r, Nat.sub_diag in Hx by done.
    rewrite Forall_lookup in Hnew. specialize (Hnew _ _ Hx). simpl in Hnew. lia. }
  eapply agree_trans; [exact Hag|]. apply agree_sym, agree_prefix; [by eexists|done].
Qed.
End pieces.

(** ** The election restriction *)

Lemma last_term_lookup G l :
  rooted G l → ∃ x, l !! (length l - 1) = Some x ∧ last_term (mkLog l) = e_term x.
Proof.
  intros Hl. pose proof (rooted_length _ _ Hl).
  destruct (lookup_lt_is_Some_2 l (length l - 1)) as [x Hx]; [lia|]. exists x. split; [done|].
  unfold last_term. simpl. rewrite last_lookup. replace (pred (length l)) with (length l - 1) by lia.
  by rewrite Hx.
Qed.

(** A candidate that is up to date with a log that holds the entry holds it too,
    unless a leader in between had lost it. *)
Lemma up_to_date_holds G t t' k lv lc :
  hist_ok G → rooted G lv → rooted G lc → own G t k → holds G t k lv →
  Forall (λ e, e_term e < t')%N lc →
  (last_term (mkLog lv) < last_term (mkLog lc))%N ∨
    (last_term (mkLog lc) = last_term (mkLog lv) ∧ length lv ≤ length lc) →
  holds G t k lc ∨ ∃ u, (t < u < t')%N ∧ strays G u t k.
Proof.
  intros HG Hv Hc (Hk & g & e & Hg & He & Ht) Hhv Hlt Hup.
  destruct Hhv as (g' & Hg' & Hkg & Hav). simplify_eq.
  destruct (last_term_lookup _ _ Hv) as (x & Hx & Ex). destruct (last_term_lookup _ _ Hc) as (y & Hy & Ey).
  rewrite Ex, Ey in Hup. pose proof He as Hev. rewrite (Hav k) in Hev by done.
  pose proof (lookup_lt_Some _ _ _ Hev) as Hkv.
  assert (e_term e ≤ e_term x)%N as Hex.
  { eapply (rooted_sorted G lv k (length lv - 1)); [done|done|lia|done|done]. }
  assert (∀ j z l, rooted G l → l !! j = Some z → (e_term e ≤ e_term z)%N → (0 < e_term e)%N → 0 < j) as Hpos.
  { intros [|j] z l Hl Hz Hle H0; [|lia]. rewrite (rt_sentinel _ _ Hl) in Hz. simplify_eq. simpl in *. lia. }
  assert (0 < e_term e)%N as He0 by (by eapply (rt_entry _ _ Hv k e Hk Hev)).
  destruct Hup as [Hxy|[Hxy Hlen]].
  - assert (0 < length lc - 1) as Hc0 by (eapply (Hpos _ y lc); [done|done|lia|done]).
    destruct (rt_entry _ _ Hc _ y Hc0 Hy) as (_ & h & Hh & Hah).
    rewrite Forall_lookup in Hlt. specialize (Hlt _ _ Hy). simpl in Hlt.
    destruct (holds_dec G (e_term e) k h) as [Hhh|Hn];
      [left|right; exists (e_term y); split; [lia|split; [lia|by exists h]]].
    eapply holds_agree; [exact Hhh|]. apply agree_sym. apply (agree_le (length lc - 1)); [|done].
    destruct Hhh as (g2 & Hg2 & _ & Hag). simplify_eq. apply Nat.nlt_ge. intros Hlt2.
    rewrite (Hah (length lc - 1)), <-(Hag (length lc - 1)) in Hy by lia.
    pose proof (proj2 (HG _ _ Hg)) as Hf. rewrite Forall_lookup in Hf. specialize (Hf _ _ Hy). simpl in Hf. lia.
  - left. assert (0 < length lv - 1) as Hv0 by lia. assert (0 < length lc - 1) as Hc0 by lia.
    destruct (rt_entry _ _ Hv _ x Hv0 Hx) as (_ & h & Hh & Hah).
    destruct (rt_entry _ _ Hc _ y Hc0 Hy) as (_ & h' & Hh' & Hah'). rewrite Hxy, Hh in Hh'. simplify_eq.
    exists g. split_and!; [done|done|]. eapply agree_trans; [exact Hav|].
    eapply agree_trans; [apply (agree_le (length lv - 1)); [lia|done]|].
    apply agree_sym. apply (agree_le (length lc - 1)); [lia|done].
Qed.

(** ** Careful runs *)

(** The reply is truthful: the log a follower has after accepting the request ends
    where the request ends, or with an entry of the leader's own term. *)
Definition reply_truthful (s : RaftState) (request : AppendEntriesRequest) : Prop :=
  passes s request →
  let l := spec_append (rs_log s) request in
  last_index l = (ae_prev_log_index request + vec_len (ae_entries request))%N ∨
  last_term l = ae_term request.

(** A leader does not count a reply from an earlier term. *)
Definition reply_current (s : RaftState) (response : AppendEntriesResponse) : Prop :=
  role s = Leader → aer_success response = true → (current_term s ≤ aer_term response)%N.

Definition careful_input (s : RaftState) (i : RaftInput) : Prop :=
  match i with
  | InAppendEntries request => reply_truthful s request
  | InAppendEntriesResponse _ response => reply_current s response
  | _ => True
  end.

(** What a truthful reply means. *)
Lemma truthful_prefix G l g request :
  rooted G l → rooted G g → G !! ae_term request = Some g → ae_sound g request →
  term_at (mkLog l) (ae_prev_log_index request) = ae_prev_log_term request →
  (ae_prev_log_index request + 1 < u64_modulus)%N →
  rooted G (l_entries (spec_append (mkLog l) request)) →
  last_index (spec_append (mkLog l) request)
    = (ae_prev_log_index request + vec_len (ae_entries request))%N ∨
  last_term (spec_append (mkLog l) request) = ae_term request →
  l_entries (spec_append (mkLog l) request) `prefix_of` g.
Proof.
  intros Hl Hg HG Hs Hp Hroom Hl' Ht. pose proof (rooted_length _ _ Hl') as Hlen.
  destruct Ht as [Ht|Ht].
  - eapply follow_ends; try done. unfold last_index, vec_len in Ht. lia.
  - destruct (spec_append (mkLog l) request) as [l'] eqn:E. simpl in *.
    destruct (last_term_lookup _ _ Hl') as (x & Hx & Ex). rewrite Ht in Ex.
    apply (agree_is_prefix (length l' - 1)); [|lia].
    destruct (decide (length l' - 1 = 0)) as [E0|Hn].
    + rewrite E0. intros j Hj. replace j with 0 by lia. by rewrite (rt_sentinel _ _ Hl'), (rt_sentinel _ _ Hg).
    + destruct (rt_entry _ _ Hl' (length l' - 1) x ltac:(lia) Hx) as (_ & g' & Hg' & Ha).
      rewrite <-Ex, HG in Hg'. by simplify_eq.
Qed.

(** ** The invariant *)

Section careful.
Context `{StateCodecLaws} `{Build} `{Deployment}.

Definition careful (σ : system) (e : event) : Prop :=
  roomy σ e ∧ ∀ v i, sview σ (event_node e) = Some v → event_input e = Some i → careful_input (v_state v) i.

Definition quorum (Q : gset N) : Prop :=
  Q ⊆ list_to_set members ∧ (vec_len members / 2 + 1 ≤ N.of_nat (size Q))%N.

Definition replied (σ : system) (w t m : N) : Prop :=
  ∃ to, (to, NAppendEntriesResponse w (mkAER t true (Some m))) ∈ sys_net σ.

Definition granted (σ : system) (c w t : N) : Prop :=
  (c, NRequestVoteResponse w (mkRVR t true)) ∈ sys_net σ.

(** Node [w] has acknowledged entry [k] of the leader of term [t]: by a reply, or
    because it is that leader. *)
Definition acked (G : history) (σ : system) (w t : N) (k : nat) : Prop :=
  own G t k ∧ ((∃ m, k ≤ N.to_nat m ∧ replied σ w t m) ∨ (t, w) ∈ sys_leaders σ).

Definition committed (G : history) (σ : system) (t : N) (k : nat) : Prop :=
  own G t k ∧ ∃ Q, quorum Q ∧ ∀ w, w ∈ Q → acked G σ w t k.

(** A log has the entry, or a leader after [t] and before [u] lost it. *)
Definition holds_or_strays (G : history) (t : N) (k : nat) (l : list LogEntry) (u : N) : Prop :=
  holds G t k l ∨ ∃ u', (t < u' < u)%N ∧ strays G u' t k.

Definition node_log (v : rview) : list LogEntry := l_entries (rs_log (v_state v)).

Definition node_term (v : rview) : N := current_term (v_state v).

Definition commit_justified (G : history) (σ : system) (t c : N) : Prop :=
  c = 0%N ∨ ∃ t0 k0, committed G σ t0 k0 ∧ (t0 ≤ t)%N ∧ N.to_nat c ≤ k0.

(** A commit index is justified by committed entries the log holds. *)
Definition commit_held (G : history) (σ : system) (v : rview) : Prop :=
  let c := commit_index (v_state v) in
  c = 0%N ∨ ∃ t0 k0, committed G σ t0 k0 ∧ (t0 ≤ node_term v)%N ∧ N.to_nat c ≤ k0 ∧
    holds G t0 (N.to_nat c) (node_log v).

Record sm_inv (G : history) (σ : system) : Prop := {
  sm_candidate : ∀ i v, sview σ i = Some v → role (v_state v) = Candidate →
    Forall (λ e, e_term e < node_term v)%N (node_log v);
  sm_request : ∀ to c r, (to, NRequestVote c r) ∈ sys_net σ → rv_candidate_id r = c ∧
    ∃ v, sview σ c = Some v ∧ (rv_term r ≤ node_term v)%N ∧
      (role (v_state v) = Candidate → node_term v = rv_term r →
       rv_last_log_index r = last_index (rs_log (v_state v)) ∧
       rv_last_log_term r = last_term (rs_log (v_state v)));
  sm_granted : ∀ c w t', granted σ c w t' →
    (∃ vw, sview σ w = Some vw ∧ (t' ≤ node_term vw)%N) ∧
    ∃ v, sview σ c = Some v ∧ (t' ≤ node_term v)%N ∧
      (role (v_state v) = Candidate → node_term v = t' → G !! t' = None →
       ∀ t k, (t < t')%N → acked G σ w t k → holds_or_strays G t k (node_log v) t');
  sm_votes : ∀ i v x, sview σ i = Some v → role (v_state v) = Candidate → x ∈ v_votes v →
    x = i ∨ granted σ i x (node_term v);
  sm_replied : ∀ w t m, replied σ w t m → ∃ g, G !! t = Some g ∧ N.to_nat m < length g;
  sm_acked : ∀ w t k, acked G σ w t k → ∃ v, sview σ w = Some v ∧ (t ≤ node_term v)%N ∧
    holds_or_strays G t k (node_log v) (node_term v + 1);
  sm_elected : ∀ t' g, G !! t' = Some g → ∃ Q, quorum Q ∧ ∀ w, w ∈ Q →
    (∃ v, sview σ w = Some v ∧ (t' ≤ node_term v)%N) ∧
    ∀ t k, (t < t')%N → acked G σ w t k → holds_or_strays G t k g t';
  sm_match : ∀ i v, sview σ i = Some v → role (v_state v) = Leader →
    (match_index (v_state v)).*1 = filter (λ p, p ≠ i) members ∧
    ∀ p m, (p, m) ∈ match_index (v_state v) → m = 0%N ∨ replied σ p (node_term v) m;
  sm_commit : ∀ i v, sview σ i = Some v → commit_held G σ v;
  sm_leader_commit : ∀ to from request, (to, NAppendEntries from request) ∈ sys_net σ →
    commit_justified G σ (ae_term request) (ae_leader_commit request);
}.

Lemma quorum_meet Q1 Q2 : quorum Q1 → quorum Q2 → ∃ w, w ∈ Q1 ∧ w ∈ Q2.
Proof. intros [? ?] [? ?]. by eapply (quorums_meet members). Qed.

(** Leader Completeness, from the invariant: a committed entry is in the log of
    every later leader. *)
Lemma committed_survives G σ t k t' g :
  sm_inv G σ → committed G σ t k → (t < t')%N → G !! t' = Some g → holds G t k g.
Proof.
  intros HI (Hown & Q & HQ & Hack). revert g. induction (N.lt_wf_0 t') as [t' _ IH]. intros g Ht Hg.
  destruct (sm_elected _ _ HI _ _ Hg) as (Q' & HQ' & Hel).
  destruct (quorum_meet Q Q' HQ HQ') as (w & Hw & Hw').
  destruct (proj2 (Hel w Hw') t k Ht (Hack w Hw)) as [?|(u & Hu & Hlt & h & Hh & Hn)]; [done|].
  destruct Hn. eapply IH; [| |exact Hh]; lia.
Qed.

Lemma committed_holds G σ t k t' g :
  sm_inv G σ → committed G σ t k → (t ≤ t')%N → G !! t' = Some g → holds G t k g.
Proof.
  intros HI Hc Ht Hg. destruct (decide (t = t')) as [<-|].
  - destruct (own_holds _ _ _ (proj1 Hc)) as (g' & Hg' & _ & Hh). by simplify_eq.
  - by eapply (committed_survives G σ t k t'); [..|lia|].
Qed.

(** Two committed entries lie on one log. *)
Lemma committed_compatible G σ t1 k1 t2 k2 n g1 g2 :
  sm_inv G σ → committed G σ t1 k1 → committed G σ t2 k2 → n ≤ k1 → n ≤ k2 →
  G !! t1 = Some g1 → G !! t2 = Some g2 → agree n g1 g2.
Proof.
  intros HI H1' H2' Hn1 Hn2 Hg1 Hg2. destruct (N.lt_trichotomy t1 t2) as [Hlt|[->|Hlt]].
  - destruct (committed_survives _ _ _ _ _ _ HI H1' Hlt Hg2) as (g & Hg & _ & Ha). simplify_eq.
    by apply (agree_le k1).
  - simplify_eq. by intros j Hj.
  - destruct (committed_survives _ _ _ _ _ _ HI H2' Hlt Hg1) as (g & Hg & _ & Ha). simplify_eq.
    apply agree_sym. by apply (agree_le k2).
Qed.

End careful.

(** ** One event *)

Section step.
Context `{StateCodecLaws} `{Build} `{Deployment}.
Context (σ σ' : system) (e : event) (v v' : rview) (msgs : list PeerMessage) (G G' : history).
Context (Hok : sys_ok σ) (Hok' : sys_ok σ') (HL : lm_inv G σ) (HL' : lm_inv G' σ').
Context (Hgr : grows G G').
Context (Hch : hist_change (sys_leaders σ') (event_node e) (v_state v') G G').
Context (Hcare : careful σ e) (Hs : step_shape σ e σ' v v' msgs) (HI : sm_inv G σ).

Local Abbreviation here := (event_node e).

Lemma net_kept x : x ∈ sys_net σ → x ∈ sys_net σ'.
Proof. rewrite (ss_net _ _ _ _ _ _ Hs). intros. apply elem_of_app. by left. Qed.

Lemma leaders_kept x : x ∈ sys_leaders σ → x ∈ sys_leaders σ'.
Proof. rewrite (ss_leaders _ _ _ _ _ _ Hs). intros. apply elem_of_app. by left. Qed.

Lemma replied_kept w t m : replied σ w t m → replied σ' w t m.
Proof. intros [to Hto]. exists to. by apply net_kept. Qed.

Lemma acked_kept w t k : acked G σ w t k → acked G' σ' w t k.
Proof.
  intros [Ho Ha]. split; [by eapply own_grows|]. destruct Ha as [(m & Hm & Hr)|Hl].
  - left. exists m. split; [done|by apply replied_kept].
  - right. by apply leaders_kept.
Qed.

Lemma committed_kept t k : committed G σ t k → committed G' σ' t k.
Proof.
  intros (Ho & Q & HQ & Ha). split; [by eapply own_grows|]. exists Q. split; [done|].
  intros w Hw. by apply acked_kept, Ha.
Qed.

Lemma holds_or_strays_kept t k l u u' :
  own G t k → (u ≤ u')%N → holds_or_strays G t k l u → holds_or_strays G' t k l u'.
Proof.
  intros Ho Hu [Hh|(x & Hx & Hst)]; [left; by eapply holds_grows|]. right. exists x.
  split; [lia|]. eapply strays_grows; [apply HL|done|done|done].
Qed.

Lemma term_kept : (node_term v ≤ node_term v')%N.
Proof. eapply moves_term; [apply (ss_moves _ _ _ _ _ _ Hs)|apply (ss_tick _ _ _ _ _ _ Hs)]. Qed.

Lemma view_before : sview σ here = Some v.
Proof. apply Hs. Qed.

Lemma view_cases j u :
  sview σ' j = Some u → (j = here ∧ u = v') ∨ (j ≠ here ∧ sview σ j = Some u).
Proof.
  intros Hu. destruct (decide (j = here)) as [->|Hj].
  - rewrite (ss_after _ _ _ _ _ _ Hs) in Hu. injection Hu as <-. by left.
  - rewrite (ss_others _ _ _ _ _ _ Hs) in Hu by done. by right.
Qed.

Lemma view_later j u :
  sview σ j = Some u → ∃ u', sview σ' j = Some u' ∧ (node_term u ≤ node_term u')%N ∧
    ((j = here ∧ u = v ∧ u' = v') ∨ (j ≠ here ∧ u' = u)).
Proof.
  intros Hu. destruct (decide (j = here)) as [->|Hj].
  - rewrite view_before in Hu. injection Hu as <-. exists v'. split_and!; [apply Hs|apply term_kept|by left].
  - exists u. rewrite (ss_others _ _ _ _ _ _ Hs) by done. split_and!; [done|done|by right].
Qed.

Lemma here_identity : rs_id (v_state v) = here ∧ peers (v_state v) = members.
Proof. by eapply sview_identity; [|apply view_before]. Qed.

(** A candidate was one with the same log, or it has just stood for a new term. *)
Lemma candidacy :
  role (v_state v') = Candidate →
  (role (v_state v) = Candidate ∧ node_term v' = node_term v ∧ node_log v' = node_log v) ∨
  (v_state v' = stand (v_state v) ∧ event_input e = Some InTick ∧ (node_term v < node_term v')%N).
Proof.
  intros Hr. destruct (moves_candidate _ _ _ _ (ss_moves _ _ _ _ _ _ Hs) (ss_tick _ _ _ _ _ _ Hs) Hr)
    as [(? & ? & El)|?]; [left|by right]. unfold node_log. by rewrite El.
Qed.

(** A message that is delivered was sent. *)
Lemma event_message i :
  event_input e = Some i →
  match i with
  | InTick | InPropose _ => True
  | _ => ∃ msg, network_input msg = i ∧ (here, msg) ∈ sys_net σ
  end.
Proof.
  intros Hi. pose proof (ss_deliver _ _ _ _ _ _ Hs) as Hd. destruct e as [|j msg l|j c l|j|j l]; simpl in *; simplify_eq.
  - done.
  - specialize (Hd _ _ _ eq_refl). destruct msg; simpl; by (eexists; split; [|exact Hd]).
  - destruct (command_write c); simpl in *; by simplify_eq.
Qed.

(** A message that is new was sent in this event. *)
Lemma new_message to msg :
  (to, msg) ∈ sys_net σ' → (to, msg) ∈ sys_net σ ∨
  ∃ i fire acts a payload, event_input e = Some i ∧ raft_next fire i v = (v', acts) ∧ a ∈ acts ∧
    action_message a = Some (mkMsg to payload) ∧ msg = network_message here payload ∧ to ≠ here.
Proof.
  rewrite (ss_net _ _ _ _ _ _ Hs). intros [?|Hp]%elem_of_app; [by left|right].
  destruct (ss_moves _ _ _ _ _ _ Hs) as [i fire acts v1 Hi Hn| | |];
    [|by apply not_elem_of_nil in Hp..].
  apply posts_says in Hp as (a & pl & Ha & Ham & -> & _ & Hto). eauto 15.
Qed.

(** A follower that answers truthfully has a prefix of what its leader wrote. *)
Lemma follow_truthful request :
  event_input e = Some (InAppendEntries request) → passes (v_state v) request →
  rs_log (v_state v') = spec_append (rs_log (v_state v)) request →
  ∃ g, G !! ae_term request = Some g ∧ node_log v' `prefix_of` g.
Proof.
  intros Hi Hpass El. destruct (event_append_sound σ e σ' G v v' _ request HL Hs Hi) as (g & Hg & Hsnd).
  pose proof (nr_rooted _ _ _ _ (lm_node _ _ HL _ _ view_before)) as Hr.
  destruct (lm_hist _ _ HL _ _ Hg) as [Hrg _].
  pose proof (proj2 (proj1 Hcare) _ Hi) as Hroom. simpl in Hroom.
  pose proof (proj2 Hcare _ _ view_before Hi) as Htrue. simpl in Htrue.
  specialize (Htrue Hpass). cbv zeta in Htrue. destruct Hpass as [_ Hpt].
  exists g. split; [done|]. unfold node_log. rewrite El. destruct (rs_log (v_state v)) as [l] eqn:Elog.
  apply (truthful_prefix G l g request); try done.
  destruct (follow_shape G l g request Hr Hrg Hsnd Hpt Hroom) as [->|[Hp Hpos]]; [done|].
  by eapply rooted_prefix.
Qed.

(** What a new reply says is true. *)
Lemma new_reply w t m :
  replied σ' w t m → replied σ w t m ∨
  (w = here ∧ t = node_term v' ∧ N.to_nat m < length (node_log v') ∧
   ∃ g, G !! t = Some g ∧ node_log v' `prefix_of` g).
Proof.
  intros [to [?|(i & fire & acts & a & pl & Hi & Hn & Ha & Ham & Hmsg & _)]%new_message];
    [left; by exists to|right].
  destruct pl as [| | |r]; simpl in Hmsg; simplify_eq. destruct a; simpl in Ham; simplify_eq.
  destruct (says_accepted_inv _ _ _ _ _ (next_says _ _ _ _ _ Hn _ Ha) eq_refl)
    as (request & -> & -> & Hpass & _ & Et & El & [= -> ->]).
  destruct (follow_truthful request Hi Hpass El) as (g & Hg & Hp).
  pose proof (rooted_length _ _ (nr_rooted _ _ _ _ (lm_node _ _ HL' _ _ (ss_after _ _ _ _ _ _ Hs)))) as Hlen.
  split_and!; [done|done|unfold last_index, vec_len, node_log in *; lia|]. exists g. by rewrite Et.
Qed.

(** ** Acknowledgements *)

Lemma own_kept_or_here t k :
  own G' t k → own G t k ∨ (t = node_term v' ∧ G' !! t = Some (node_log v') ∧ (t, here) ∈ sys_leaders σ').
Proof.
  intros (Hk & g & x & Hg & Hx & Ht). destruct (Hch t) as [E|(-> & E & Hl & _)]; [|by right].
  left. split; [done|]. exists g, x. by rewrite <-E.
Qed.

(** An acknowledgement is old, or it is the node's own, in its term, and true. *)
Lemma acked_cases w t k :
  acked G' σ' w t k → acked G σ w t k ∨ (w = here ∧ t = node_term v' ∧ holds G' t k (node_log v')).
Proof.
  intros [Ho Ha].
  assert (∀ t, t = node_term v' → G' !! t = Some (node_log v') → own G' t k → holds G' t k (node_log v')) as Hself.
  { intros t' -> Hg (_ & g & x & Hg' & Hx & _). rewrite Hg in Hg'. simplify_eq.
    eexists. split_and!; [done|by eapply lookup_lt_Some|done]. }
  destruct Ha as [(m & Hm & [Hr|(-> & -> & Hlt & g & Hg & Hp)]%new_reply)|Hl].
  - left. split; [|left; eauto]. destruct (sm_replied _ _ HI _ _ _ Hr) as (g & Hg & Hlt).
    destruct Ho as (Hk & g' & x & Hg' & Hx & Ht). split; [done|]. exists g, x.
    destruct (Hgr _ _ Hg) as (g2 & Hg2 & Hp%adds_prefix). rewrite Hg2 in Hg'. simplify_eq.
    split_and!; [done| |done]. by rewrite (agree_prefix k _ _ Hp) by lia.
  - right. split_and!; [done|done|]. destruct (Hgr _ _ Hg) as (g2 & Hg2 & Hp2%adds_prefix).
    exists g2. assert (node_log v' `prefix_of` g2) as Hp' by (by etrans).
    split_and!; [done|apply prefix_length in Hp'; lia|]. apply agree_sym, agree_prefix; [done|lia].
  - destruct (own_kept_or_here t k Ho) as [Ho'|(-> & Hg & Hl')].
    + rewrite (ss_leaders _ _ _ _ _ _ Hs) in Hl. apply elem_of_app in Hl as [Hl|Hl].
      { left. split; [done|by right]. }
      apply node_leader_spec in Hl as (Hr & -> & ->). right. split_and!; [done|done|].
      apply Hself; [done| |done]. by apply (lm_node _ _ HL' _ _ (ss_after _ _ _ _ _ _ Hs)).
    + right. split_and!; [by eapply one_leader_per_term|done|by apply Hself].
Qed.

(** An acknowledgement of an earlier term is old. *)
Lemma acked_earlier w t k : acked G' σ' w t k → (t < node_term v')%N ∨ w ≠ here → acked G σ w t k.
Proof. intros [?|(-> & -> & _)]%acked_cases Ht; [done|]. destruct Ht as [?|?]; [lia|done]. Qed.

(** What the node held in its log it keeps, unless its leader does not have it. *)
Lemma log_keeps_or t k :
  (t ≤ node_term v)%N → holds G t k (node_log v) →
  holds G t k (node_log v') ∨
  ∃ u g, (t ≤ u ≤ node_term v')%N ∧ G !! u = Some g ∧ ¬ holds G t k g.
Proof.
  intros Ht Hh.
  assert (∀ i fire acts v1, event_input e = Some i → raft_next fire i v = (v1, acts) →
    (node_term v1 = node_term v')%N → holds G t k (node_log v1) ∨
    ∃ u g, (t ≤ u ≤ node_term v')%N ∧ G !! u = Some g ∧ ¬ holds G t k g) as Hnext.
  { intros i fire acts v1 Hi Hn Et1.
    destruct (next_log_effect _ _ _ _ _ Hn) as [El|c _ _ _ _ El _ _|request -> [Hp Hpt] _ Et El].
    - left. unfold node_log. by rewrite El.
    - left. unfold node_log. rewrite El. eapply holds_prefix; [by eexists|done].
    - destruct (event_append_sound σ e σ' G v v' _ request HL Hs Hi) as (g & Hg & Hsnd).
      pose proof (nr_rooted _ _ _ _ (lm_node _ _ HL _ _ view_before)) as Hr.
      destruct (lm_hist _ _ HL _ _ Hg) as [Hrg _].
      pose proof (proj2 (proj1 Hcare) _ Hi) as Hroom. simpl in Hroom.
      destruct (holds_dec G t k g) as [Hhg|Hn'].
      + left. eapply holds_agree; [exact Hh|]. unfold node_log. rewrite El.
        unfold node_log in Hh. destruct (rs_log (v_state v)) as [l] eqn:Elog.
        apply (follow_keeps G l g request); try done; [by eapply holds_length|by eapply holds_both].
      + right. exists (ae_term request), g. unfold node_term in *. split_and!; [lia|lia|done|done]. }
  destruct (ss_moves _ _ _ _ _ _ Hs) as [i fire acts v1 Hi Hn|i fire acts v1 Hi Hn|d Hd Hl|].
  - by eapply Hnext.
  - by apply (Hnext i fire acts v1).
  - left. unfold node_log. simpl. by rewrite Hl.
  - by left.
Qed.

Lemma log_keeps t k :
  own G t k → (t ≤ node_term v)%N → holds G t k (node_log v) →
  holds_or_strays G t k (node_log v') (node_term v' + 1).
Proof.
  intros Ho Ht Hh. destruct (log_keeps_or t k Ht Hh) as [?|(u & g & Hu & Hg & Hn)]; [by left|right].
  exists u. assert (t ≠ u).
  { intros <-. destruct (own_holds _ _ _ Ho) as (g' & Hg' & _ & Hhg). by simplify_eq. }
  split; [lia|]. split; [lia|]. by exists g.
Qed.

Lemma log_keeps_committed t k n :
  committed G σ t k → (t ≤ node_term v)%N → n ≤ k → holds G t n (node_log v) → holds G t n (node_log v').
Proof.
  intros Hc Ht Hn Hh. destruct (log_keeps_or t n Ht Hh) as [?|(u & g & Hu & Hg & Hno)]; [done|].
  destruct Hno. apply (holds_le _ _ _ k); [done|]. by eapply (committed_holds G σ t k u); [..|lia|].
Qed.

(** ** The parts of the invariant after the event *)

Lemma acked_step w t k :
  acked G' σ' w t k → ∃ u, sview σ' w = Some u ∧ (t ≤ node_term u)%N ∧
    holds_or_strays G' t k (node_log u) (node_term u + 1).
Proof.
  intros [Ha|(-> & -> & Hh)]%acked_cases.
  - destruct (sm_acked _ _ HI _ _ _ Ha) as (u & Hu & Ht & Hhs). pose proof (proj1 Ha) as Ho.
    destruct (view_later _ _ Hu) as (u' & Hu' & Hle & Hcase). exists u'. split_and!; [done|lia|].
    destruct Hcase as [(-> & -> & ->)|[_ ->]]; [|by eapply holds_or_strays_kept; [done| |exact Hhs]; lia].
    destruct Hhs as [Hh|Hst].
    + by eapply holds_or_strays_kept; [done| |by apply log_keeps].
    + eapply holds_or_strays_kept; [done| |right; exact Hst]. lia.
  - exists v'. split_and!; [apply Hs|done|by left].
Qed.

Lemma candidate_step i u :
  sview σ' i = Some u → role (v_state u) = Candidate →
  Forall (λ e, e_term e < node_term u)%N (node_log u).
Proof.
  intros [(-> & ->)|[_ Hu]]%view_cases Hr; [|by eapply sm_candidate].
  destruct (candidacy Hr) as [(Hr0 & Et & El)|(E & _ & Hlt)].
  - rewrite Et, El. by apply (sm_candidate _ _ HI here v view_before).
  - pose proof (nr_terms _ _ _ _ (lm_node _ _ HL _ _ view_before)) as Hf.
    unfold node_log. rewrite E. eapply Forall_impl; [exact Hf|]. simpl. unfold node_term in *. lia.
Qed.

Lemma request_step to c r :
  (to, NRequestVote c r) ∈ sys_net σ' → rv_candidate_id r = c ∧
    ∃ u, sview σ' c = Some u ∧ (rv_term r ≤ node_term u)%N ∧
      (role (v_state u) = Candidate → node_term u = rv_term r →
       rv_last_log_index r = last_index (rs_log (v_state u)) ∧
       rv_last_log_term r = last_term (rs_log (v_state u))).
Proof.
  intros [Hin|(i & fire & acts & a & pl & Hi & Hn & Ha & Ham & Hmsg & _)]%new_message.
  - destruct (sm_request _ _ HI _ _ _ Hin) as (Hc & u & Hu & Hle & Hlast). split; [done|].
    destruct (view_later _ _ Hu) as (u' & Hu' & Hle' & Hcase). exists u'. split_and!; [done|lia|].
    destruct Hcase as [(-> & -> & ->)|[_ ->]]; [|done]. intros Hr Et.
    destruct (candidacy Hr) as [(Hr0 & Et0 & El)|(_ & _ & Hlt)]; [|lia].
    assert (rs_log (v_state v') = rs_log (v_state v)) as ->
      by (unfold node_log in El; destruct (rs_log (v_state v')), (rs_log (v_state v)); by f_equal).
    apply Hlast; congruence.
  - destruct pl; simpl in Hmsg; simplify_eq. destruct a; simpl in Ham; simplify_eq.
    destruct (says_vote_request_inv _ _ _ _ _ (next_says _ _ _ _ _ Hn _ Ha)) as (Hr & E & ->). simpl.
    split; [by rewrite (proj1 (raft_next_identity _ _ _ _ _ Hn)), (proj1 here_identity)|].
    exists v'. split_and!; [apply Hs|done|done].
Qed.

(** A granted vote is old, or the node has just answered a request. *)
Lemma granted_cases c w t :
  granted σ' c w t → granted σ c w t ∨
  (w = here ∧ c ≠ here ∧ node_term v' = t ∧ (node_term v ≤ t)%N ∧
   ∃ request, (here, NRequestVote c request) ∈ sys_net σ ∧ rv_term request = t ∧
     candidate_up_to_date (v_state v) request = true).
Proof.
  intros [Hin|(i & fire & acts & a & pl & Hi & Hn & Ha & Ham & Hmsg & Hto)]%new_message; [by left|right].
  destruct pl as [|r| |]; simpl in Hmsg; simplify_eq. destruct a; simpl in Ham; simplify_eq.
  destruct (next_grants _ _ _ _ _ Hn _ _ Ha) as (request & -> & -> & -> & Et & Hle & Hup & _).
  split_and!; [done|done|done|done|]. exists request.
  destruct (event_message _ Hi) as ([c' ?| | |] & Hmsg & Hin); simpl in Hmsg; simplify_eq.
  destruct (sm_request _ _ HI _ _ _ Hin) as [-> _]. done.
Qed.

(** The history has nothing of a term it knows nothing of later. *)
Lemma fresh_before t : G' !! t = None → G !! t = None.
Proof. intros Hn. destruct (G !! t) as [g|] eqn:Hg; [|done]. destruct (Hgr _ _ Hg) as (? & ? & _). congruence. Qed.

(** In a term without leader nobody strays. *)
Lemma strays_before t k l u u' :
  G !! u = None → (u' ≤ u + 1)%N → holds_or_strays G t k l u' → holds_or_strays G t k l u.
Proof.
  intros Hn Hu [?|(x & Hx & Hst)]; [by left|right]. exists x. split; [|done].
  assert (x ≠ u) by (intros ->; destruct Hst as (_ & ? & ? & _); congruence). lia.
Qed.

Lemma granted_step c w t' :
  granted σ' c w t' →
  (∃ vw, sview σ' w = Some vw ∧ (t' ≤ node_term vw)%N) ∧
  ∃ u, sview σ' c = Some u ∧ (t' ≤ node_term u)%N ∧
    (role (v_state u) = Candidate → node_term u = t' → G' !! t' = None →
     ∀ t k, (t < t')%N → acked G' σ' w t k → holds_or_strays G' t k (node_log u) t').
Proof.
  intros [Hg|(-> & Hc & Et & Hle & request & Hin & <- & Hup)]%granted_cases.
  - destruct (sm_granted _ _ HI _ _ _ Hg) as ((vw & Hvw & Hw) & u & Hu & Ht & Hold).
    destruct (view_later _ _ Hvw) as (vw' & Hvw' & Hlew & Hcw).
    destruct (view_later _ _ Hu) as (u' & Hu' & Hle & Hcase).
    split; [exists vw'; split; [done|lia]|]. exists u'. split_and!; [done|lia|].
    intros Hr Et Hn%fresh_before t k Hlt Ha.
    apply acked_earlier in Ha; [|destruct Hcw as [(_ & -> & ->)|[? _]]; [left; lia|by right]].
    apply (holds_or_strays_kept _ _ _ t'); [apply Ha|done|].
    destruct Hcase as [(_ & -> & ->)|[_ ->]]; [|by apply Hold].
    destruct (candidacy Hr) as [(Hr0 & Et0 & El)|(_ & _ & Hlt')]; [|lia].
    rewrite El. apply Hold; try done. congruence.
  - split; [exists v'; split; [apply Hs|lia]|].
    destruct (sm_request _ _ HI _ _ _ Hin) as (_ & u & Hu & Hu' & Hlast).
    exists u. rewrite (ss_others _ _ _ _ _ _ Hs) by done. split_and!; [done|done|].
    intros Hr Etu Hn%fresh_before t k Hlt Ha. apply acked_earlier in Ha; [|left; lia].
    apply (holds_or_strays_kept _ _ _ (rv_term request)); [apply Ha|done|].
    destruct (sm_acked _ _ HI _ _ _ Ha) as (v0 & Hv0 & _ & Hhs). rewrite view_before in Hv0. injection Hv0 as <-.
    destruct Hhs as [Hh|?]; [|apply (strays_before t k _ _ (node_term v + 1)); [done|lia|by right]].
    destruct (Hlast Hr Etu) as [Ei El]. unfold candidate_up_to_date in Hup. rewrite Ei, El in Hup.
    assert (rooted G (node_log v)) as Hrv by apply (lm_node _ _ HL _ _ view_before).
    assert (rooted G (node_log u)) as Hru by apply (lm_node _ _ HL _ _ Hu).
    destruct (up_to_date_holds G t (rv_term request) k (node_log v) (node_log u)) as [?|(x & Hx & Hst)];
      [apply HL|done|done|apply Ha|done|rewrite <-Etu; by eapply sm_candidate| |by left|].
    + pose proof (rooted_length _ _ Hrv). pose proof (rooted_length _ _ Hru).
      unfold node_log in *. destruct (rs_log (v_state v)), (rs_log (v_state u)). simpl in *.
      apply orb_true_iff in Hup as [?%bool_decide_eq_true|[E1 E2]%andb_true_iff]; [by left|right].
      apply bool_decide_eq_true in E1, E2. split; [done|]. unfold last_index, vec_len in E2. simpl in E2. lia.
    + right. eauto.
Qed.

(** A node that died in the event is a follower. *)
Lemma office_moves :
  role (v_state v') ≠ Follower →
  (∃ i fire acts, event_input e = Some i ∧ raft_next fire i v = (v', acts)) ∨ v' = v.
Proof. intros Hr. destruct (ss_moves _ _ _ _ _ _ Hs); [left; eauto|done|done|by right]. Qed.

(** The votes a candidate has counted were granted to it, or are its own. *)
Lemma votes_cases i fire acts x :
  event_input e = Some i → raft_next fire i v = (v', acts) → role (v_state v') ≠ Follower →
  (role (v_state v) = Leader → node_term v ≠ node_term v') → x ∈ v_votes v' →
  x = here ∨ granted σ here x (node_term v').
Proof.
  intros Hi Hn Hr Hl Hx.
  destruct (next_votes _ _ _ _ _ Hn x Hr Hx) as [[-> _]|[(Hx0 & Hr0 & Et)|(-> & Hr0 & Et)]].
  - left. apply here_identity.
  - unfold node_term in *. rewrite Et. eapply (sm_votes _ _ HI); [apply view_before| |done].
    destruct (role (v_state v)); [done|done|]. by destruct Hl.
  - right. destruct (event_message _ Hi) as ([|f r| |] & Hmsg & Hin); simpl in Hmsg; simplify_eq.
    unfold granted, node_term. by rewrite Et.
Qed.

Lemma votes_step i u x :
  sview σ' i = Some u → role (v_state u) = Candidate → x ∈ v_votes u →
  x = i ∨ granted σ' i x (node_term u).
Proof.
  intros [(-> & ->)|[_ Hu]]%view_cases Hr Hx.
  - enough (x = here ∨ granted σ here x (node_term v')) as [?|?] by (auto using net_kept; right; by apply net_kept).
    destruct office_moves as [(i & fire & acts & Hi & Hn)|Ev]; [congruence|..].
    + eapply votes_cases; [done|done|congruence| |done].
      destruct (candidacy Hr) as [(Hr0 & _)|(_ & _ & Hlt)]; [congruence|lia].
    + rewrite Ev in Hr, Hx |- *. by apply (sm_votes _ _ HI _ _ _ view_before).
  - destruct (sm_votes _ _ HI _ _ _ Hu Hr Hx) as [?|?]; [by left|right; by apply net_kept].
Qed.

Lemma replied_step w t m : replied σ' w t m → ∃ g, G' !! t = Some g ∧ N.to_nat m < length g.
Proof.
  intros [Hr|(-> & -> & Hlt & g & Hg & Hp)]%new_reply.
  - destruct (sm_replied _ _ HI _ _ _ Hr) as (g & Hg & Hlt).
    destruct (Hgr _ _ Hg) as (g' & Hg' & Hp%adds_prefix%prefix_length). exists g'. split; [done|lia].
  - destruct (Hgr _ _ Hg) as (g' & Hg' & Hp'%adds_prefix%prefix_length). apply prefix_length in Hp.
    exists g'. split; [done|lia].
Qed.

Lemma here_member w u : sview σ w = Some u → w ∈ members.
Proof. unfold sview. intros (m & Hm & _)%fmap_Some. by apply (ok_member _ Hok _ _ Hm). Qed.

(** The majority that elects a new leader. *)
Lemma new_leader_elected :
  role (v_state v') = Leader → G !! node_term v' = None →
  node_log v' = node_log v ∧ quorum (v_votes v') ∧ ∀ x, x ∈ v_votes v' →
    x = here ∨ (granted σ here x (node_term v') ∧ role (v_state v) = Candidate ∧ node_term v = node_term v').
Proof.
  intros Hr Hnone.
  assert (role (v_state v) = Leader → node_term v ≠ node_term v') as Hnew.
  { intros Hl Et. pose proof (nr_leader _ _ _ _ (lm_node _ _ HL _ _ view_before) Hl) as Hg.
    unfold node_term in *. congruence. }
  destruct office_moves as [(i & fire & acts & Hi & Hn)|Ev]; [congruence| |].
  2: { rewrite Ev in Hr, Hnew. by destruct Hnew. }
  destruct (next_leader _ _ _ _ _ Hn Hr) as [Hl Et|s Hcase Hel E]; [by destruct Hnew|].
  assert (∀ x, x ∈ v_votes v' → x = here ∨ granted σ here x (node_term v')) as Hvotes.
  { intros x. eapply votes_cases; [done|done|congruence|done]. }
  split_and!.
  - unfold node_log. rewrite E. by destruct Hcase as [[-> _]|[-> _]].
  - split.
    + intros x Hx. apply elem_of_list_to_set. destruct (Hvotes x Hx) as [->|Hg].
      * eapply here_member, view_before.
      * destruct (sm_granted _ _ HI _ _ _ Hg) as ((vw & Hvw & _) & _). by eapply here_member.
    + apply bool_decide_eq_true in Hel. unfold majority_count in Hel.
      assert (peers s = members) as Hp by (rewrite <-(proj2 here_identity); by destruct Hcase as [[-> _]|[-> _]]).
      by rewrite Hp in Hel.
  - intros x Hx. destruct (Hvotes x Hx) as [?|Hg]; [by left|right].
    destruct Hcase as [[-> Hc]|[-> ->]]; [split_and!; [done|done|by unfold node_term; rewrite E]|].
    destruct (sm_granted _ _ HI _ _ _ Hg) as (_ & u & Hu & Hle & _). rewrite view_before in Hu.
    injection Hu as <-. pose proof (ss_tick _ _ _ _ _ _ Hs Hi) as Ht. unfold node_term in Hle.
    rewrite E in Hle. simpl in Hle. rewrite wrap64_small in Hle by done. lia.
Qed.

Lemma elected_step t' g :
  G' !! t' = Some g → ∃ Q, quorum Q ∧ ∀ w, w ∈ Q →
    (∃ u, sview σ' w = Some u ∧ (t' ≤ node_term u)%N) ∧
    ∀ t k, (t < t')%N → acked G' σ' w t k → holds_or_strays G' t k g t'.
Proof.
  intros Hg'. destruct (G !! t') as [g0|] eqn:Hg.
  - destruct (Hgr _ _ Hg) as (g' & E & Hp%adds_prefix). rewrite Hg' in E. injection E as <-.
    destruct (sm_elected _ _ HI _ _ Hg) as (Q & HQ & Hold). exists Q. split; [done|]. intros w Hw.
    destruct (Hold w Hw) as ((u & Hu & Hle) & Hack).
    destruct (view_later _ _ Hu) as (u' & Hu' & Hle' & Hcase). split; [exists u'; split; [done|lia]|].
    intros t k Ht Ha. apply acked_earlier in Ha; [|destruct Hcase as [(_ & -> & ->)|[? _]]; [left; lia|by right]].
    apply (holds_or_strays_kept _ _ _ t'); [apply Ha|done|].
    destruct (Hack t k Ht Ha) as [Hh|?]; [left; by eapply holds_prefix|by right].
  - destruct (Hch t') as [E|(-> & E & _ & Hr)]; [congruence|]. specialize (Hr Hg).
    rewrite Hg' in E. injection E as ->.
    destruct (new_leader_elected Hr Hg) as (El & HQ & Hvotes). exists (v_votes v'). split; [done|].
    intros w Hw. pose proof term_kept as Hterm.
    assert (∃ u, sview σ' w = Some u ∧ (node_term v' ≤ node_term u)%N) as Hview.
    { destruct (Hvotes w Hw) as [->|[Hgr' _]]; [exists v'; split; [apply Hs|done]|].
      destruct (sm_granted _ _ HI _ _ _ Hgr') as ((u & Hu & Hle) & _).
      destruct (view_later _ _ Hu) as (u' & Hu' & Hle' & _). exists u'. split; [done|lia]. }
    split; [exact Hview|]. intros t k Ht Ha%acked_earlier; [|by left].
    apply (holds_or_strays_kept _ _ _ (node_term v')); [apply Ha|done|].
    change (l_entries (rs_log (v_state v'))) with (node_log v'). rewrite El.
    destruct (Hvotes w Hw) as [->|(Hgr' & Hc & Et)].
    + destruct (sm_acked _ _ HI _ _ _ Ha) as (u & Hu & _ & Hhs). rewrite view_before in Hu.
      injection Hu as <-. apply (strays_before _ _ _ _ (node_term v + 1)); [done|lia|done].
    + destruct (sm_granted _ _ HI _ _ _ Hgr') as (_ & u & Hu & _ & Hold). rewrite view_before in Hu.
      injection Hu as <-. by apply Hold.
Qed.

Lemma match_step i u :
  sview σ' i = Some u → role (v_state u) = Leader →
  (match_index (v_state u)).*1 = filter (λ p, p ≠ i) members ∧
  ∀ p m, (p, m) ∈ match_index (v_state u) → m = 0%N ∨ replied σ' p (node_term u) m.
Proof.
  intros [(-> & ->)|[_ Hu]]%view_cases Hr.
  2: { destruct (sm_match _ _ HI _ _ Hu Hr) as [Hk Hm]. split; [done|]. intros p m Hp.
       destruct (Hm p m Hp); auto using replied_kept. }
  enough ((match_index (v_state v')).*1 = filter (λ p, p ≠ here) members ∧
    ∀ p m, (p, m) ∈ match_index (v_state v') → m = 0%N ∨ replied σ p (node_term v') m) as [? Hm].
  { split; [done|]. intros p m Hp. destruct (Hm p m Hp); auto using replied_kept. }
  pose proof (sm_match _ _ HI _ _ view_before) as Hold.
  destruct office_moves as [(i & fire & acts & Hi & Hn)|Ev]; [congruence| |by rewrite Ev in Hr |- *; auto].
  destruct (next_leader _ _ _ _ _ Hn Hr) as [Hl Et|s Hcase Hel E].
  - unfold node_term. rewrite Et. destruct (Hold Hl) as [Hk Hm].
    destruct (next_match _ _ _ _ _ Hn Hl Hr Et) as [->|(from & m' & t & -> & Ht & ->)]; [done|].
    rewrite assoc_update_keys. split; [done|]. intros p m [Hp|(x & _ & [= -> ->])]%assoc_update_elem; [auto|].
    right. pose proof (proj2 Hcare _ _ view_before Hi Hl eq_refl) as Hc. simpl in Hc.
    assert (t = current_term (v_state v)) as -> by lia.
    destruct (event_message _ Hi) as ([| | |f r] & Hmsg & Hin); simpl in Hmsg; simplify_eq. by exists here.
  - assert (rs_id s = here ∧ peers s = members) as [Hid Hp].
    { destruct here_identity. by destruct Hcase as [[-> _]|[-> _]]. }
    rewrite E. simpl. rewrite Hid, Hp. split.
    + rewrite <-list_fmap_compose. apply list_fmap_id.
    + intros p m (q & [= -> ->] & _)%list_elem_of_fmap. by left.
Qed.

(** What a leader commits is committed. *)
Lemma leader_commits :
  NoDup members → role (v_state v') = Leader →
  (commit_index (v_state v') ≤ last_index (rs_log (v_state v')))%N →
  committable (v_state v') (commit_index (v_state v')) = true → commit_held G' σ' v'.
Proof.
  intros Hnd Hr Hle Hc. right. set (c := commit_index (v_state v')) in *.
  pose proof (lm_node _ _ HL' _ _ (ss_after _ _ _ _ _ _ Hs)) as Hv'.
  pose proof (nr_leader _ _ _ _ Hv' Hr) as Hg. pose proof (rooted_length _ _ (nr_rooted _ _ _ _ Hv')) as Hlen.
  apply andb_true_iff in Hc as [Hterm Hmaj]. apply bool_decide_eq_true in Hterm, Hmaj.
  rewrite term_at_lookup in Hterm.
  destruct (lookup_lt_is_Some_2 (l_entries (rs_log (v_state v'))) (N.to_nat c)) as [x Hx];
    [unfold last_index, vec_len in Hle; lia|].
  rewrite Hx in Hterm. simpl in Hterm.
  assert (0 < N.to_nat c) as Hc0.
  { destruct (N.to_nat c); [|lia]. rewrite (rt_sentinel _ _ (nr_rooted _ _ _ _ Hv')) in Hx. injection Hx as <-.
    pose proof (nr_positive _ _ _ _ Hv') as Hpos. rewrite Hr in Hpos. simpl in Hterm. specialize (Hpos ltac:(done)). lia. }
  assert (own G' (node_term v') (N.to_nat c)) as Hown by (split; [done|]; eauto).
  destruct (match_step here v' (ss_after _ _ _ _ _ _ Hs) Hr) as [Hkeys Hmatch].
  exists (node_term v'), (N.to_nat c). split_and!; [|done|done|].
  - split; [done|]. exists (list_to_set (holders (v_state v') c)). split.
    + assert (rs_id (v_state v') = here ∧ peers (v_state v') = members) as [Hid Hp]
        by (by eapply sview_identity; [|apply (ss_after _ _ _ _ _ _ Hs)]).
      assert ((filter (λ p, (c ≤ p.2)%N) (match_index (v_state v'))).*1 ⊆+ filter (λ p, p ≠ here) members) as Hsub.
      { rewrite <-Hkeys. apply fmap_submseteq, sublist_submseteq, sublist_filter. }
      assert (NoDup (holders (v_state v') c)) as Hnd'.
      { constructor.
        - intros [Hn _]%(elem_of_submseteq _ _ _)%list_elem_of_filter; [|exact Hsub]. by apply Hn.
        - eapply NoDup_submseteq; [exact Hsub|]. by apply NoDup_filter. }
      split.
      * intros p Hp'. apply elem_of_list_to_set in Hp' as [->|Hp']%elem_of_cons; apply elem_of_list_to_set.
        -- rewrite Hid. eapply here_member, view_before.
        -- eapply elem_of_submseteq in Hp'; [|exact Hsub]. by apply list_elem_of_filter in Hp' as [_ ?].
      * rewrite size_list_to_set by done. fold (vec_len (holders (v_state v') c)). rewrite length_holders.
        unfold majority_count in Hmaj. by rewrite Hp in Hmaj.
    + intros w Hw. split; [done|]. apply elem_of_list_to_set in Hw as [->|Hw]%elem_of_cons.
      * right. destruct (sview_identity _ _ _ Hok' (ss_after _ _ _ _ _ _ Hs)) as [-> _]. by apply Hv'.
      * left. apply list_elem_of_fmap in Hw as ([p m] & -> & [Hm Hin]%list_elem_of_filter). simpl in *.
        exists m. split; [lia|]. destruct (Hmatch p m Hin); [lia|done].
  - exists (node_log v'). split_and!; [done|by eapply lookup_lt_Some|done].
Qed.

Lemma commit_step i u : NoDup members → sview σ' i = Some u → commit_held G' σ' u.
Proof.
  intros Hnd [(-> & ->)|[_ Hu]]%view_cases.
  2: { destruct (sm_commit _ _ HI _ _ Hu) as [?|(t0 & k0 & ? & ? & ? & ?)]; [by left|right].
       exists t0, k0. split_and!; eauto using committed_kept, holds_grows. }
  pose proof (sm_commit _ _ HI _ _ view_before) as Hold. simpl in Hold. pose proof term_kept as Hterm.
  assert (commit_index (v_state v') = commit_index (v_state v) → commit_held G' σ' v') as Hsame.
  { unfold commit_held. intros ->. destruct Hold as [?|(t0 & k0 & Hc & Ht & Hk & Hh)]; [by left|right].
    exists t0, k0. split_and!; [by apply committed_kept|lia|done|].
    eapply holds_grows; [done|]. by eapply log_keeps_committed. }
  destruct (decide (commit_index (v_state v') = 0%N)) as [?|Hpos]; [by left|].
  assert ((∃ i fire acts, event_input e = Some i ∧ raft_next fire i v = (v', acts)) ∨ v' = v)
    as [(i & fire & acts & Hi & Hn)|Ev].
  { destruct (ss_moves _ _ _ _ _ _ Hs); [left; eauto|done|done|by right]. }
  2: { apply Hsame. by rewrite Ev. }
  destruct (next_commit _ _ _ _ _ Hn) as [?|[(_ & Hr & _ & Hle & Hc)|(request & -> & Hpass & Et & El & Ec)]];
    [by apply Hsame|by apply leader_commits|].
  destruct (follow_truthful request Hi Hpass El) as (g & Hg & Hp).
  destruct (event_message _ Hi) as ([| |from r|] & Hmsg & Hin); simpl in Hmsg; simplify_eq.
  destruct (sm_leader_commit _ _ HI _ _ _ Hin) as [E0|(t0 & k0 & Hc & Ht & Hk)]; [by left; lia|right].
  exists t0, k0. split_and!; [by apply committed_kept|by unfold node_term; rewrite Et|lia|].
  eapply holds_grows; [done|]. apply (holds_agree _ _ _ g).
  - apply (holds_le _ _ _ k0); [lia|]. by eapply committed_holds.
  - apply agree_sym, agree_prefix; [done|]. rewrite Ec. unfold last_index, vec_len.
    pose proof (rooted_length _ _ (nr_rooted _ _ _ _ (lm_node _ _ HL' _ _ (ss_after _ _ _ _ _ _ Hs)))).
    unfold node_log. lia.
Qed.

Lemma leader_commit_step to from request :
  (to, NAppendEntries from request) ∈ sys_net σ' →
  commit_justified G' σ' (ae_term request) (ae_leader_commit request).
Proof.
  intros [Hin|(i & fire & acts & a & pl & Hi & Hn & Ha & Ham & Hmsg & _)]%new_message.
  - destruct (sm_leader_commit _ _ HI _ _ _ Hin) as [?|(t0 & k0 & ? & ? & ?)]; [by left|right].
    exists t0, k0. split_and!; eauto using committed_kept.
  - destruct pl as [| |r|]; simpl in Hmsg; simplify_eq. destruct a; simpl in Ham; simplify_eq.
    destruct (says_append_inv _ _ _ _ _ (next_says _ _ _ _ _ Hn _ Ha)) as (Hr & s & Hrep & _ & Et & En & _ & Ec).
    destruct (replicate_to_peer_sound _ _ _ Hrep) as (_ & -> & _ & ->).
    { unfold next_positive. rewrite En. by apply (lm_node _ _ HL' _ _ (ss_after _ _ _ _ _ _ Hs)). }
    rewrite Et, Ec. pose proof term_kept as Hterm. unfold node_term in Hterm.
    destruct (sm_commit _ _ HI _ _ view_before) as [?|(t0 & k0 & ? & Ht & ? & _)]; [by left|right].
    exists t0, k0. unfold node_term in Ht. split_and!; [by apply committed_kept|lia|done].
Qed.

(** A commit index is an index of the log. *)
Lemma commit_held_bound G0 σ0 u :
  commit_held G0 σ0 u → (commit_index (v_state u) ≤ last_index (rs_log (v_state u)))%N.
Proof.
  intros [?|(t0 & k0 & _ & _ & _ & Hh%holds_length)]; [lia|]. unfold node_log, last_index, vec_len in *. lia.
Qed.

(** Nothing is committed that is not applied, and the commit index does not go
    back. *)
Lemma applied_step :
  last_applied (v_state v) = commit_index (v_state v) → last_applied (v_state v') = commit_index (v_state v').
Proof.
  intros Happ.
  assert (commit_index (v_state v) ≤ last_index (rs_log (v_state v')))%N as Hb.
  { destruct (sm_commit _ _ HI _ _ view_before) as [?|(t0 & k0 & Hc & Ht & Hk & Hh)]; [lia|].
    pose proof (log_keeps_committed _ _ _ Hc Ht Hk Hh) as Hl%holds_length.
    unfold node_log, last_index, vec_len in *. lia. }
  destruct (ss_moves _ _ _ _ _ _ Hs) as [i fire acts v1 Hi Hn| | |]; [|done|done|done].
  destruct (next_applied _ _ _ _ _ Hn) as [[-> ->]|[-> [?|(lc & Hlc & E)]]]; [done|lia|].
  rewrite Happ. lia.
Qed.

Lemma sm_step : NoDup members → sm_inv G' σ'.
Proof.
  intros Hnd. split.
  - apply candidate_step.
  - apply request_step.
  - apply granted_step.
  - apply votes_step.
  - apply replied_step.
  - apply acked_step.
  - apply elected_step.
  - apply match_step.
  - intros i u. by apply commit_step.
  - apply leader_commit_step.
Qed.

End step.

(** ** Runs *)

Section runs.
Context `{StateCodecLaws} `{Build} `{Deployment}.

Lemma sm_init : sm_inv ∅ sys_init.
Proof.
  assert (∀ t k, ¬ own ∅ t k) as Hown by (intros t k (_ & g & x & Hg & _); by rewrite lookup_empty in Hg).
  split; simpl.
  - by intros i v [-> _]%sview_init.
  - by intros ? ? ? ?%not_elem_of_nil.
  - by intros ? ? ? ?%not_elem_of_nil.
  - by intros i v x [-> _]%sview_init.
  - intros w t m [to Hin]. by apply not_elem_of_nil in Hin.
  - intros w t k [Ho _]. by destruct (Hown t k).
  - intros t' g Hg. by rewrite lookup_empty in Hg.
  - by intros i v [-> _]%sview_init.
  - intros i v [-> _]%sview_init. by left.
  - by intros ? ? ? ?%not_elem_of_nil.
Qed.

Context (Hmembers : NoDup members).

Lemma careful_reaches G σ σ' :
  reachable σ → lm_inv G σ → sm_inv G σ → reaches careful σ σ' →
  ∃ G', grows G G' ∧ lm_inv G' σ' ∧ sm_inv G' σ' ∧ ∀ t k, committed G σ t k → committed G' σ' t k.
Proof.
  intros Hr HL HI. induction 1 as [|σ1 e σ2 Hrun (G1 & Hgr & HL1 & HI1 & Hc1) HP He]; [by exists G|].
  assert (reachable σ1) as Hr1 by (by eapply reaches_reachable; [|exact Hr|exact Hrun]; intros ? ? [[]]).
  assert (reachable σ2) as Hr2 by (by eapply reachable_step; [exact Hr1|apply HP|exact He]).
  destruct (event_shape σ1 e σ2) as (v & v' & msgs & Hs); [by apply reachable_ok|apply HP|done|].
  destruct (lm_step σ1 e σ2 G1 v v' msgs) as (G2 & Hgr2 & HL2 & Hch); [by apply reachable_ok|done|apply HP|done|].
  exists G2. split_and!; [by etrans|done| |].
  - by apply (sm_step σ1 σ2 e v v' msgs G1 G2); try done; apply reachable_ok.
  - intros t k Hc. by eapply committed_kept; [..|apply Hc1].
Qed.

Lemma careful_inv σ : reaches careful sys_init σ → reachable σ ∧ ∃ G, lm_inv G σ ∧ sm_inv G σ.
Proof.
  intros Hrun. split.
  - eapply reaches_reachable; [|constructor|done]. by intros ? ? [[]].
  - destruct (careful_reaches ∅ sys_init σ) as (G & _ & ? & ? & _);
      [constructor|apply lm_init|apply sm_init|done|eauto].
Qed.

Lemma careful_applied σ : reaches careful sys_init σ →
  ∀ i v, sview σ i = Some v → last_applied (v_state v) = commit_index (v_state v).
Proof.
  induction 1 as [|σ1 e σ2 Hrun IH HP He]; [by intros i v [-> _]%sview_init|].
  destruct (careful_inv σ1 Hrun) as (Hr1 & G & HL & HI).
  destruct (event_shape σ1 e σ2) as (v & v' & msgs & Hs); [by apply reachable_ok|apply HP|done|].
  intros i u Hu. destruct (decide (i = event_node e)) as [->|Hi].
  - rewrite (ss_after _ _ _ _ _ _ Hs) in Hu. injection Hu as <-.
    assert (reachable σ2) as Hr2 by (by eapply reachable_step; [exact Hr1|apply HP|exact He]).
    destruct (lm_step σ1 e σ2 G v v' msgs) as (G' & Hgr & HL' & Hch); [by apply reachable_ok|done|apply HP|done|].
    eapply (applied_step σ1 σ2 e v v' msgs G G'); try done; [by apply reachable_ok..|].
    eapply IH, (ss_before _ _ _ _ _ _ Hs).
  - rewrite (ss_others _ _ _ _ _ _ Hs) in Hu by done. by eapply IH.
Qed.

Lemma log_get_agree (l l' : RaftLog) n m :
  agree n (l_entries l) (l_entries l') → (m ≤ N.of_nat n)%N → n < length (l_entries l) →
  log_get l m = log_get l' m ∧ is_Some (log_get l m).
Proof.
  intros Ha Hm Hn. rewrite !log_get_lookup. split; [apply Ha; lia|]. apply lookup_lt_is_Some. lia.
Qed.

(** C3: Leader Completeness.  Take a careful run, a state of it in which node
    [i] has term [T] and has committed the entries up to some index, and any later
    state in which node [j] is leader of term [T] or later.  Then [j] has every one
    of these entries at the same index of its log.  Crashes, restarts, disks that
    kill the process, lost, late, repeated and reordered messages are all part of
    the run. *)
Theorem leader_completeness σ σ' i j vi vj m :
  reaches careful sys_init σ → reaches careful σ σ' →
  sview σ i = Some vi → sview σ' j = Some vj → role (v_state vj) = Leader →
  (current_term (v_state vi) ≤ current_term (v_state vj))%N →
  (0 < m ≤ commit_index (v_state vi))%N →
  log_get (rs_log (v_state vi)) m = log_get (rs_log (v_state vj)) m ∧
  is_Some (log_get (rs_log (v_state vi)) m).
Proof.
  intros (Hr & G & HL & HI)%careful_inv Hrun Hi Hj Hl Ht Hm.
  destruct (careful_reaches G σ σ' Hr HL HI Hrun) as (G' & Hgr & HL' & HI' & Hkept).
  destruct (sm_commit _ _ HI _ _ Hi) as [?|(t0 & k0 & Hc & Ht0 & Hk & Hh)]; [lia|].
  pose proof (nr_leader _ _ _ _ (lm_node _ _ HL' _ _ Hj) Hl) as Hg.
  assert (holds G' t0 k0 (node_log vj)) as Hhj.
  { eapply committed_holds; [done|by apply Hkept| |exact Hg]. unfold node_term in Ht0. lia. }
  apply (log_get_agree _ _ (N.to_nat (commit_index (v_state vi)))); [|lia|by eapply holds_length].
  eapply holds_both; [by eapply holds_grows|by eapply holds_le].
Qed.

(** C2: State Machine Safety.  In a careful run, take node [i] in one state and
    node [j] in the same or a later state.  At every index that both have committed
    their logs hold the same entry: no two nodes ever apply different commands at
    the same index, and none takes back what it has applied. *)
Theorem state_machine_safety σ σ' i j vi vj m :
  reaches careful sys_init σ → reaches careful σ σ' →
  sview σ i = Some vi → sview σ' j = Some vj →
  (0 < m ≤ commit_index (v_state vi))%N → (m ≤ commit_index (v_state vj))%N →
  log_get (rs_log (v_state vi)) m = log_get (rs_log (v_state vj)) m ∧
  is_Some (log_get (rs_log (v_state vi)) m).
Proof.
  intros (Hr & G & HL & HI)%careful_inv Hrun Hi Hj Hm Hmj.
  destruct (careful_reaches G σ σ' Hr HL HI Hrun) as (G' & Hgr & HL' & HI' & Hkept).
  destruct (sm_commit _ _ HI _ _ Hi) as [?|(t0 & k0 & Hc & _ & Hk & Hh)]; [lia|].
  destruct (sm_commit _ _ HI' _ _ Hj) as [?|(t1 & k1 & Hc' & _ & Hk' & Hh')]; [lia|].
  apply (holds_le _ _ (N.to_nat m)) in Hh, Hh'; [|lia..].
  apply (log_get_agree _ _ (N.to_nat m)); [|lia|by eapply holds_length].
  apply (holds_grows _ G') in Hh as (g & Hg & _ & Ha); [|done]. destruct Hh' as (g' & Hg' & _ & Ha').
  eapply agree_trans; [by apply agree_sym|]. eapply agree_trans; [|exact Ha'].
  eapply (committed_compatible G' σ' t0 k0 t1 k1); try done; [by apply Hkept|lia|lia].
Qed.

(** C13: the indices of a node are in bounds.  In every state of a careful run,
    for every node, exactly what is committed is applied, and the commit index is
    an index of the log: [last_applied = commit_index <= last_index]; so the loop
    that applies entries finds every one of them. *)
Theorem indices_in_bounds σ i v :
  reaches careful sys_init σ → sview σ i = Some v →
  last_applied (v_state v) = commit_index (v_state v) ∧
  (commit_index (v_state v) ≤ last_index (rs_log (v_state v)))%N ∧
  ∀ m, (m ≤ last_applied (v_state v))%N → is_Some (log_get (rs_log (v_state v)) m).
Proof.
  intros Hrun Hv. pose proof (careful_applied σ Hrun i v Hv) as Happ.
  apply careful_inv in Hrun as (_ & G & HL & HI).
  pose proof (commit_held_bound _ _ _ (sm_commit _ _ HI _ _ Hv)) as Hb.
  split_and!; [done|done|]. intros m Hm. rewrite log_get_lookup. apply lookup_lt_is_Some.
  pose proof (rooted_length _ _ (nr_rooted _ _ _ _ (lm_node _ _ HL _ _ Hv))).
  unfold last_index, vec_len in Hb. lia.
Qed.

End runs.
