(* ===== verification/Runs.v ===== *)
(** * Runs that can be evaluated

    Checkers for the conditions on events ([benign], [roomy], [careful]) and runs
    of concrete clusters built from lists of events.  A list of events that passes
    a checker is a run in the sense of the theorems; the runs here are used to
    instantiate them. *)

From S2P Require Import Prelude Text Fs Log State Message Persist Codec Node Commit.
From S2P Require Import Durability BTree Memtable Wal Engine Ring Router Protocol Cluster.
From S2P Require Import ClusterProps Transport Server Election Replication RaftSpec Transition.
From S2P Require Import System ElectionSafety Trace LogMatching Safety.

#[export] Instance fault_eq_dec : EqDecision fault.
Proof. solve_decision. Defined.

#[export] Instance roomy_input_dec i : Decision (roomy_input i).
Proof.
  refine (match i with
  | InAppendEntries request => decide (ae_prev_log_index request + 1 < u64_modulus)%N
  | InAppendEntriesResponse _ response =>
      match aer_match_index response as o return
        Decision (∀ m, o = Some m → (m + 1 < u64_modulus)%N) with
      | Some m => cast_if (decide (m + 1 < u64_modulus)%N)
      | None => left _
      end
  | _ => left I
  end); first [by intros ? [= <-]|naive_solver].
Defined.

#[export] Instance passes_dec s request : Decision (passes s request).
Proof. unfold passes. apply _. Defined.

#[export] Instance reply_truthful_dec s request : Decision (reply_truthful s request).
Proof. unfold reply_truthful. apply _. Defined.

#[export] Instance reply_current_dec s response : Decision (reply_current s response).
Proof. unfold reply_current. apply _. Defined.

#[export] Instance careful_input_dec s i : Decision (careful_input s i).
Proof. destruct i; apply _. Defined.

(** ** Checked runs *)

Section runs.
Context `{Build} `{StateCodecLaws} `{Deployment}.

Definition benign_b (σ : system) (e : event) : bool :=
  bool_decide (Forall (λ f, f = Fine ∨ f = Kill None) (event_faults e)) &&
  match e with
  | EvTick i _ =>
      match sys_machines σ !! i ≫= m_node with
      | Some c => bool_decide (current_term (rn_state (cn_raft c)) + 1 < u64_modulus)%N
      | None => true
      end
  | _ => true
  end.

Definition roomy_b (σ : system) (e : event) : bool :=
  benign_b σ e &&
  match event_input e with Some i => bool_decide (roomy_input i) | None => true end.

Definition careful_b (σ : system) (e : event) : bool :=
  roomy_b σ e &&
  match sview σ (event_node e), event_input e with
  | Some v, Some i => bool_decide (careful_input (v_state v) i)
  | _, _ => true
  end.

Fixpoint run_checked (check : system → event → bool) (es : list event) (σ : system) : option system :=
  match es with
  | [] => Some σ
  | e :: es => if check σ e then σ' ← apply_event e σ; run_checked check es σ' else None
  end.

Lemma benign_b_sound σ e : benign_b σ e = true → benign σ e.
Proof.
  unfold benign_b. intros [Hf Ht]%andb_true_iff. apply bool_decide_eq_true in Hf.
  split; [done|]. destruct e as [i l| | | |]; try done. intros m c Hm Hc.
  rewrite Hm in Ht. simpl in Ht. rewrite Hc in Ht. by apply bool_decide_eq_true in Ht.
Qed.

Lemma roomy_b_sound σ e : roomy_b σ e = true → roomy σ e.
Proof.
  intros [Hb Hi]%andb_true_iff. split; [by apply benign_b_sound|]. intros i E. rewrite E in Hi.
  by apply bool_decide_eq_true in Hi.
Qed.

Lemma careful_b_sound σ e : careful_b σ e = true → careful σ e.
Proof.
  intros [Hb Hi]%andb_true_iff. split; [by apply roomy_b_sound|]. intros v i Ev Ei. rewrite Ev, Ei in Hi.
  by apply bool_decide_eq_true in Hi.
Qed.

Lemma run_checked_reaches P check es σ σ' :
  (∀ σ e, check σ e = true → P σ e) → run_checked check es σ = Some σ' → reaches P σ σ'.
Proof.
  intros Hc. assert (∀ σ0, reaches P σ0 σ → run_checked check es σ = Some σ' → reaches P σ0 σ') as Hgen.
  { revert σ. induction es as [|e es IH]; intros σ σ0 Hr Hrun; simpl in Hrun; [by simplify_eq|].
    destruct (check σ e) eqn:Hb; [|done].
    destruct (apply_event e σ) as [σ1|] eqn:He; simpl in Hrun; [|done].
    eapply IH; [|done]. by eapply reaches_step; [|apply Hc|]. }
  apply Hgen. constructor.
Qed.

Lemma run_benign_reachable es σ :
  run_checked benign_b es sys_init = Some σ → reachable σ.
Proof.
  intros Hrun. eapply (reaches_reachable benign sys_init); [done|constructor|].
  eapply run_checked_reaches; [apply benign_b_sound|done].
Qed.

End runs.

(** ** What can be seen of a node *)

Definition up_node (σ : system) (i : N) : option ClusterNode := sys_machines σ !! i ≫= m_node.

Definition node_state (σ : system) (i : N) : option RaftState := rn_state ∘ cn_raft <$> up_node σ i.

Definition node_view (σ : system) (i : N) : option (NodeRole * N * list LogEntry * N) :=
  (λ s, (role s, current_term s, l_entries (rs_log s), last_applied s)) <$> node_state σ i.

Definition node_value (σ : system) (i : N) (k : string) : option (option string) :=
  (λ c, engine_get (cn_storage c) k) <$> up_node σ i.

Definition ticks_at (i : N) (n : nat) : list event := replicate n (EvTick i []).

(** ** Three nodes *)

(** The deployment of src/main.rs: three nodes. *)
Definition three_nodes : Deployment := {|
  members := [1; 2; 3]%N;
  data_dir := λ i, "/tmp/raftkv-node-" +:+ pretty i;
|}.

Definition start_all : list event := [EvRestart 1 []; EvRestart 2 []; EvRestart 3 []].

(** Node 1 is elected by node 2 ... *)
Definition first_election : list event :=
  start_all ++ ticks_at 1 52 ++
  [EvDeliver 2 (NRequestVote 1 (mkRV 1 1 0 0)) [];
   EvDeliver 1 (NRequestVoteResponse 2 (mkRVR 1 true)) []].

(** ... takes a write, replicates it to node 2 and commits it. *)
Definition first_write : list event :=
  [EvCommand 1 (Set_ "k" "a") [];
   EvDeliver 2 (NAppendEntries 1 (mkAE 1 1 0 0 [mkEntry 1 (Put "k" "a")] 0)) [];
   EvDeliver 1 (NAppendEntriesResponse 2 (mkAER 1 true (Some 1%N))) []].

(** Node 1 crashes; node 2 is elected by node 3, brings its log up to date, commits
    a second write and tells node 3; node 1 comes back. *)
Definition second_write : list event :=
  [EvCrash 1] ++ ticks_at 2 57 ++
  [EvDeliver 3 (NRequestVote 2 (mkRV 2 2 1 1)) [];
   EvDeliver 2 (NRequestVoteResponse 3 (mkRVR 2 true)) [];
   EvDeliver 3 (NAppendEntries 2 (mkAE 2 2 1 1 [] 0)) [];
   EvDeliver 2 (NAppendEntriesResponse 3 (mkAER 2 false (Some 0%N))) [];
   EvCommand 2 (Set_ "c" "c") [];
   EvDeliver 3 (NAppendEntries 2
     (mkAE 2 2 0 0 [mkEntry 1 (Put "k" "a"); mkEntry 2 (Put "c" "c")] 0)) [];
   EvDeliver 2 (NAppendEntriesResponse 3 (mkAER 2 true (Some 2%N))) [];
   EvRestart 1 []] ++
  ticks_at 2 5 ++ [EvDeliver 3 (NAppendEntries 2 (mkAE 2 2 2 2 [] 2)) []].

Section three.
#[local] Existing Instance three_nodes.
#[local] Existing Instance release_build.

Definition after_election : system := default sys_init (run_checked careful_b first_election sys_init).

Definition after_first : system := default sys_init (run_checked careful_b first_write after_election).

Definition after_second : system := default sys_init (run_checked careful_b second_write after_first).

Definition seen (σ : system) (i : N) : rview := default (mkView (state_new 0 []) ∅) (sview σ i).

Definition seen_log (σ : system) (i : N) : RaftLog := rs_log (v_state (seen σ i)).

Lemma careful_roomy σ σ' : reaches careful σ σ' → reaches roomy σ σ'.
Proof. induction 1; [constructor|]. by eapply reaches_step; [|apply H0|]. Qed.

Lemma reaches_app P (σ1 σ2 σ3 : system) : reaches P σ1 σ2 → reaches P σ2 σ3 → reaches P σ1 σ3.
Proof. intros H12. induction 1; [done|by eapply reaches_step]. Qed.

Lemma election_careful : reaches careful sys_init after_election.
Proof.
  apply (run_checked_reaches _ careful_b first_election); [apply careful_b_sound|vm_compute; reflexivity].
Qed.

Lemma write_careful : reaches careful after_election after_first.
Proof.
  apply (run_checked_reaches _ careful_b first_write); [apply careful_b_sound|vm_compute; reflexivity].
Qed.

Lemma first_careful : reaches careful sys_init after_first.
Proof. eapply reaches_app; [apply election_careful|apply write_careful]. Qed.

Lemma second_careful : reaches careful after_first after_second.
Proof.
  apply (run_checked_reaches _ careful_b second_write); [apply careful_b_sound|vm_compute; reflexivity].
Qed.

Lemma log_matching_witness :
  logs_match (seen_log after_first 1) (seen_log after_first 2) ∧
  last_index (seen_log after_first 2) = 1%N.
Proof.
  split; [|vm_compute; reflexivity].
  apply (log_matching after_first 1 2); [apply careful_roomy, first_careful|vm_compute; reflexivity..].
Defined.

Lemma leader_append_only_witness :
  l_entries (seen_log after_election 1) `prefix_of` l_entries (seen_log after_first 1) ∧
  last_index (seen_log after_first 1) = 1%N.
Proof.
  split; [|vm_compute; reflexivity].
  apply (leader_append_only after_election after_first 1 (seen after_election 1) (seen after_first 1));
    [apply careful_roomy, election_careful|apply careful_roomy, write_careful|vm_compute; reflexivity..].
Defined.

Lemma logs_are_well_formed_witness :
  log_wf (seen_log after_first 2) ∧ last_term (seen_log after_first 2) = 1%N.
Proof.
  split; [|vm_compute; reflexivity].
  apply (logs_are_well_formed after_first 2 (seen after_first 2));
    [apply careful_roomy, first_careful|vm_compute; reflexivity].
Defined.

(** What node 1 committed in term 1 is in the log of node 2, the leader of term 2. *)
Lemma leader_completeness_witness :
  log_get (seen_log after_first 1) 1 = log_get (seen_log after_second 2) 1 ∧
  is_Some (log_get (seen_log after_first 1) 1).
Proof.
  apply (leader_completeness ltac:(by apply (bool_decide_unpack (NoDup _)); vm_compute)
    after_first after_second 1 2 (seen after_first 1) (seen after_second 2) 1);
    [apply first_careful|apply second_careful|vm_compute; first [reflexivity|split; [reflexivity|discriminate]|discriminate]..].
Defined.

(** Node 1, before it crashed, and node 3, which was told by node 2. *)
Lemma state_machine_safety_witness :
  log_get (seen_log after_first 1) 1 = log_get (seen_log after_second 3) 1 ∧
  is_Some (log_get (seen_log after_first 1) 1).
Proof.
  apply (state_machine_safety ltac:(by apply (bool_decide_unpack (NoDup _)); vm_compute)
    after_first after_second 1 3 (seen after_first 1) (seen after_second 3) 1);
    [apply first_careful|apply second_careful|vm_compute; first [reflexivity|split; [reflexivity|discriminate]|discriminate]..].
Defined.

Lemma indices_in_bounds_witness :
  last_applied (v_state (seen after_second 3)) = commit_index (v_state (seen after_second 3)) ∧
  commit_index (v_state (seen after_second 3)) = 2%N.
Proof.
  split; [|vm_compute; reflexivity].
  apply (indices_in_bounds ltac:(by apply (bool_decide_unpack (NoDup _)); vm_compute)
    after_second 3 (seen after_second 3)); [|vm_compute; reflexivity].
  eapply reaches_app; [apply first_careful|apply second_careful].
Defined.

End three.
