(* ===== verification/Unsafety.v ===== *)
(** * Where the cluster's guarantees end

    Runs of the whole cluster, evaluated, in which the program breaks what Raft
    promises.  The runs that break State Machine Safety are ordinary ones: no disk
    fault, no crash; messages are only late.  Last come disks that do more than
    kill the process: a power cut, a torn write and a refused write, each of which
    makes a node forget the vote it has given. *)

From S2P Require Import Prelude Text Fs Log State Message Persist Codec Node Commit.
From S2P Require Import Durability BTree Memtable Wal Engine Ring Router Protocol Cluster.
From S2P Require Import ClusterProps Transport Server Election Replication RaftSpec System.
From S2P Require Import ElectionSafety Trace LogMatching Safety Runs.

#[export] Existing Instance three_nodes.

(** ** Two commands at one index *)

(** Node 1 is elected in term 1 by node 3 and takes [SET k a], which reaches
    nobody. *)
Definition first_term : list event :=
  start_all ++ ticks_at 1 52 ++
  [EvDeliver 3 (NRequestVote 1 (mkRV 1 1 0 0)) [];
   EvDeliver 1 (NRequestVoteResponse 3 (mkRVR 1 true)) [];
   EvCommand 1 (Set_ "k" "a") []].

(** Node 2 is elected in term 2 by node 3.  Its heartbeat carries no entries, but
    node 1 answers with the length of its own log; node 2 takes that as the
    replication of its first entry, [SET k b], and commits it alone. *)
Definition second_term : list event :=
  ticks_at 2 79 ++
  [EvDeliver 3 (NRequestVote 2 (mkRV 2 2 0 0)) [];
   EvDeliver 2 (NRequestVoteResponse 3 (mkRVR 2 true)) [];
   EvDeliver 1 (NAppendEntries 2 (mkAE 2 2 0 0 [] 0)) [];
   EvDeliver 2 (NAppendEntriesResponse 1 (mkAER 2 true (Some 1%N))) [];
   EvCommand 2 (Set_ "k" "b") []].

(** Node 1 is elected again, in term 3, and replicates its own log to node 3. *)
Definition third_term : list event :=
  ticks_at 1 59 ++
  [EvDeliver 3 (NRequestVote 1 (mkRV 3 1 1 1)) [];
   EvDeliver 1 (NRequestVoteResponse 3 (mkRVR 3 true)) [];
   EvDeliver 3 (NAppendEntries 1 (mkAE 3 1 1 1 [] 0)) [];
   EvDeliver 1 (NAppendEntriesResponse 3 (mkAER 3 false (Some 0%N))) [];
   EvCommand 1 (Set_ "c" "c") [];
   EvDeliver 3 (NAppendEntries 1
     (mkAE 3 1 0 0 [mkEntry 1 (Put "k" "a"); mkEntry 3 (Put "c" "c")] 0)) [];
   EvDeliver 1 (NAppendEntriesResponse 3 (mkAER 3 true (Some 2%N))) []].

Definition run_three (es : list event) : option system :=
  @run_checked release_build _ three_nodes benign_b es sys_init.

Definition divergent_run : list event := first_term ++ second_term ++ third_term.

Definition divergent : system := default sys_init (run_three divergent_run).

Lemma divergent_reachable : @reachable release_build _ three_nodes divergent.
Proof.
  apply (@run_benign_reachable release_build _ three_nodes divergent_run). vm_compute. reflexivity.
Qed.

(** C24: State Machine Safety does not hold.  There is a reachable state of the
    three-node cluster, without any crash, in which nodes 1 and 2 have both
    applied an entry at index 1 and the entries are different: the clients of
    node 2 were told that [SET k b] is committed, while the leader of the highest
    term has committed and applied [SET k a] at that index and serves it. *)
Theorem state_machine_safety_fails :
  ∃ σ s1 s2, @reachable release_build _ three_nodes σ ∧
    node_state σ 1 = Some s1 ∧ node_state σ 2 = Some s2 ∧
    (1 ≤ last_applied s1)%N ∧ (1 ≤ last_applied s2)%N ∧
    log_get (rs_log s1) 1 = Some (mkEntry 1 (Put "k" "a")) ∧
    log_get (rs_log s2) 1 = Some (mkEntry 2 (Put "k" "b")) ∧
    node_value σ 1 "k" = Some (Some "a") ∧ node_value σ 2 "k" = Some (Some "b").
Proof.
  exists divergent, (default (state_new 0 []) (node_state divergent 1)),
    (default (state_new 0 []) (node_state divergent 2)).
  split; [apply divergent_reachable|]. split_and!; vm_compute; (reflexivity || discriminate).
Qed.

(** A leader can commit what no other node has.  In the same run, before node
    1 stands for election again, node 2 has committed and applied [SET k b] at
    index 1 although neither of the other two logs contains it. *)
Theorem commit_without_majority :
  ∃ σ s1 s2 s3, @reachable release_build _ three_nodes σ ∧
    node_state σ 1 = Some s1 ∧ node_state σ 2 = Some s2 ∧ node_state σ 3 = Some s3 ∧
    role s2 = Leader ∧ commit_index s2 = 1%N ∧
    (mkEntry 2 (Put "k" "b") ∈ l_entries (rs_log s2)) ∧
    (mkEntry 2 (Put "k" "b") ∉ l_entries (rs_log s1)) ∧
    (mkEntry 2 (Put "k" "b") ∉ l_entries (rs_log s3)).
Proof.
  set (σ := default sys_init (run_three (first_term ++ second_term))).
  exists σ, (default (state_new 0 []) (node_state σ 1)), (default (state_new 0 []) (node_state σ 2)),
    (default (state_new 0 []) (node_state σ 3)).
  split.
  { apply (@run_benign_reachable release_build _ three_nodes (first_term ++ second_term)).
    vm_compute. reflexivity. }
  split_and!; try (vm_compute; reflexivity); (apply (bool_decide_unpack _); vm_compute; exact I).
Qed.

(** ** Replies from an earlier term *)

Definition five_nodes : Deployment := {|
  members := [1; 2; 3; 4; 5]%N;
  data_dir := λ i, "/tmp/raftkv-node-" +:+ pretty i;
|}.

(** The first of the two conditions of careful runs: followers answer truthfully. *)
Definition truthful `{StateCodecLaws, Deployment} (σ : system) (e : event) : Prop :=
  roomy σ e ∧ ∀ v request, sview σ (event_node e) = Some v →
    event_input e = Some (InAppendEntries request) → reply_truthful (v_state v) request.

Definition truthful_b `{StateCodecLaws, Deployment} (σ : system) (e : event) : bool :=
  roomy_b σ e &&
  match sview σ (event_node e), event_input e with
  | Some v, Some (InAppendEntries request) => bool_decide (reply_truthful (v_state v) request)
  | _, _ => true
  end.

Lemma truthful_b_sound `{StateCodecLaws, Deployment} σ e : truthful_b σ e = true → truthful σ e.
Proof.
  intros [Hb Hi]%andb_true_iff. split; [by apply roomy_b_sound|]. intros v i Ev Ei. rewrite Ev, Ei in Hi.
  by apply bool_decide_eq_true in Hi.
Qed.

(** Voter [w] grants candidate [c], whose log ends at [(li, lt)], its vote. *)
Definition votes_for (w c t li lt : N) : list event :=
  [EvDeliver w (NRequestVote c (mkRV t c li lt)) []; EvDeliver c (NRequestVoteResponse w (mkRVR t true)) []].

(** Term 1: node 1 leads and takes two writes; node 2 accepts them, and its reply
    is late.  Term 2: node 3 leads and overwrites them on nodes 1 and 2. *)
Definition stale_terms_1_2 : list event :=
  ((λ i, EvRestart i []) <$> [1; 2; 3; 4; 5]%N) ++ ticks_at 1 52 ++ votes_for 2 1 1 0 0 ++ votes_for 3 1 1 0 0 ++
  [EvCommand 1 (Set_ "k" "a") []; EvCommand 1 (Set_ "k" "b") [];
   EvDeliver 2 (NAppendEntries 1
     (mkAE 1 1 0 0 [mkEntry 1 (Put "k" "a"); mkEntry 1 (Put "k" "b")] 0)) []] ++
  ticks_at 3 39 ++ votes_for 4 3 2 0 0 ++ votes_for 5 3 2 0 0 ++
  [EvCommand 3 (Set_ "k" "c") [];
   EvDeliver 1 (NAppendEntries 3 (mkAE 2 3 0 0 [mkEntry 2 (Put "k" "c")] 0)) [];
   EvDeliver 2 (NAppendEntries 3 (mkAE 2 3 0 0 [mkEntry 2 (Put "k" "c")] 0)) []].

(** Term 3: node 1 leads again and takes [SET k d] at index 2.  The reply of term 1
    arrives and counts as node 2's; with node 3's it commits. *)
Definition stale_term_3 : list event :=
  ticks_at 1 50 ++ votes_for 2 1 3 1 2 ++ votes_for 4 1 3 1 2 ++
  [EvCommand 1 (Set_ "k" "d") [];
   EvDeliver 1 (NAppendEntriesResponse 2 (mkAER 1 true (Some 2%N))) [];
   EvDeliver 3 (NAppendEntries 1 (mkAE 3 1 1 2 [mkEntry 3 (Put "k" "d")] 0)) [];
   EvDeliver 1 (NAppendEntriesResponse 3 (mkAER 3 true (Some 2%N))) []].

(** Term 4: node 2 leads, by nodes 4 and 5, and commits [SET k e] at index 2. *)
Definition stale_term_4 : list event :=
  ticks_at 2 41 ++ votes_for 4 2 4 1 2 ++ votes_for 5 2 4 1 2 ++
  ([4; 5]%N ≫= λ w,
    [EvDeliver w (NAppendEntries 2 (mkAE 4 2 1 2 [] 0)) [];
     EvDeliver 2 (NAppendEntriesResponse w (mkAER 4 false (Some 0%N))) []]) ++
  [EvCommand 2 (Set_ "k" "e") []] ++
  ([4; 5]%N ≫= λ w,
    [EvDeliver w (NAppendEntries 2
       (mkAE 4 2 0 0 [mkEntry 2 (Put "k" "c"); mkEntry 4 (Put "k" "e")] 0)) [];
     EvDeliver 2 (NAppendEntriesResponse w (mkAER 4 true (Some 2%N))) []]).

Definition stale_run : list event := stale_terms_1_2 ++ stale_term_3 ++ stale_term_4.

Definition stale : system :=
  default (@sys_init five_nodes)
    (@run_checked release_build _ five_nodes (@truthful_b _ _ five_nodes) stale_run (@sys_init five_nodes)).

(** C25: counting replies of earlier terms breaks State Machine Safety on its own.
    [handle_append_entries_response] compares the term of a reply with the
    leader's only to step down; a reply of an earlier term is counted.  There is a
    run of five nodes, without any crash, in which every follower answers
    truthfully and yet nodes 1 and 2 have applied different commands at index 2,
    because node 1 counted a reply it had been sent two terms before. *)
Theorem stale_reply_breaks_safety :
  ∃ σ s1 s2, @reaches _ release_build five_nodes (@truthful _ _ five_nodes) (@sys_init five_nodes) σ ∧
    node_state σ 1 = Some s1 ∧ node_state σ 2 = Some s2 ∧
    (2 ≤ last_applied s1)%N ∧ (2 ≤ last_applied s2)%N ∧
    log_get (rs_log s1) 2 = Some (mkEntry 3 (Put "k" "d")) ∧
    log_get (rs_log s2) 2 = Some (mkEntry 4 (Put "k" "e")).
Proof.
  exists stale, (default (state_new 0 []) (node_state stale 1)),
    (default (state_new 0 []) (node_state stale 2)). split.
  { apply (@run_checked_reaches release_build _ five_nodes _ (@truthful_b _ _ five_nodes) stale_run);
      [apply truthful_b_sound|vm_compute; reflexivity]. }
  split_and!; vm_compute; (reflexivity || discriminate).
Qed.

(** ** Witnesses for Election Safety *)

Lemma election_safety_witness :
  ((3, 1) ∈ sys_leaders divergent)%N ∧ 1%N = 1%N.
Proof.
  assert (((3, 1) ∈ sys_leaders divergent)%N) as Hin
    by (apply (bool_decide_unpack _); vm_compute; exact I).
  split; [exact Hin|].
  apply (@election_safety _ _ release_build three_nodes divergent 3 1 1);
    [apply divergent_reachable|exact Hin|exact Hin].
Defined.

Lemma votes_are_cast_once_witness :
  @vote_seen _ three_nodes divergent 3 2 2 ∧ 2%N = 2%N.
Proof.
  assert (@vote_seen _ three_nodes divergent 3 2 2) as Hseen
    by (apply seen_on_wire, (bool_decide_unpack _); vm_compute; exact I).
  split; [exact Hseen|].
  apply (@votes_are_cast_once _ _ release_build three_nodes divergent 3 2 2 2);
    [apply divergent_reachable|exact Hseen|].
  apply seen_ever, (bool_decide_unpack _). vm_compute. exact I.
Defined.

(** ** Votes and disks that do more than crash *)

(** The vote a node answers with, and the disk it leaves. *)
Definition vote_after (fs : Fs) (request : RequestVoteRequest) : option (list Action * Fs) :=
  match with_persistence 1 [1; 2; 3]%N "/d" fs with
  | (Done (Ok n), fs') =>
      match handle_request_vote request (n, fs') with
      | (Done actions, (_, fs'')) => Some (actions, fs'')
      | (Halted, _) => None
      end
  | _ => None
  end.

Definition grants (to t : N) : option (list Action) := Some [SendRequestVoteResponse to (mkRVR t true)].

(** The disk of a node that has replied to node 2 with its vote in term 5. *)
Definition voted_disk : Fs := default fresh_fs (snd <$> vote_after fresh_fs (mkRV 5 2 0 0)).

(** C28: after a power cut a node can vote twice in a term.  [save] writes the
    state file but never syncs it.  A node that has replied with its vote for
    node 2 in term 5, and then loses power, comes back without that vote and
    grants node 3 its vote in the same term; had the process only crashed, it
    would have refused. *)
Theorem power_cut_forgets_the_vote :
  fst <$> vote_after fresh_fs (mkRV 5 2 0 0) = grants 2 5 ∧
  fst <$> vote_after voted_disk (mkRV 5 3 0 0)
    = Some [SendRequestVoteResponse 3 (mkRVR 5 false)] ∧
  fst <$> vote_after (power_loss voted_disk) (mkRV 5 3 0 0) = grants 3 5.
Proof. split_and!; vm_compute; reflexivity. Qed.

Section lost_votes.
Context `{StateCodecLaws}.

(** A node without history votes for whoever asks first. *)
Lemma fresh_node_grants n fs request :
  quiet fs → current_term (rn_state n) = 0%N → voted_for (rn_state n) = None →
  rs_log (rn_state n) = log_new →
  ∃ w', handle_request_vote request (n, fs) =
    (Done [SendRequestVoteResponse (rv_candidate_id request) (mkRVR (rv_term request) true)], w').
Proof.
  intros Hq Ht Hv Hl.
  enough (wp (handle_request_vote request) (n, fs)
    (λ a _, a = [SendRequestVoteResponse (rv_candidate_id request) (mkRVR (rv_term request) true)])
    (λ _, False)) as Hwp.
  { unfold wp in Hwp. destruct (handle_request_vote _ _) as [[]]; [|done]. subst. by eexists. }
  assert (∀ (w : RW) Q, quiet w.2 → (∀ fs', quiet fs' → Q tt (w.1, fs')) → wp persist w Q (λ _, False)) as Hper.
  { intros [n1 fs1] Q Hq1 HQ. destruct (persist_quiet n1 fs1 Hq1) as (fs' & Hrun & Hq' & _).
    unfold wp. rewrite Hrun. by apply HQ. }
  unfold handle_request_vote. node_step. node_step. rewrite Ht. rewrite bool_decide_false by lia.
  assert (∀ w1 : RW, quiet w1.2 → current_term (rn_state w1.1) = rv_term request →
    voted_for (rn_state w1.1) = None → rs_log (rn_state w1.1) = log_new →
    wp (vote_granted ← state_get (λ s, can_vote s (rv_candidate_id request) && candidate_up_to_date s request);
        when vote_granted (state_mod (set_voted_for (Some (rv_candidate_id request))) ;;
          node_mod reset_election_timeout ;; persist) ;;
        term ← state_get current_term;
        mret [SendRequestVoteResponse (rv_candidate_id request)
                {| rvr_term := term; rvr_vote_granted := vote_granted |}]) w1
    (λ a _, a = [SendRequestVoteResponse (rv_candidate_id request) (mkRVR (rv_term request) true)])
    (λ _, False)) as Hrest.
  { intros w1 Hq1 Ht1 Hv1 Hl1. node_step. node_step.
    assert (can_vote (rn_state w1.1) (rv_candidate_id request) &&
      candidate_up_to_date (rn_state w1.1) request = true) as ->.
    { unfold can_vote, candidate_up_to_date. rewrite Hv1, Hl1. change (last_term log_new) with 0%N.
      change (last_index log_new) with 0%N. simpl.
      destruct (decide (rv_last_log_term request = 0)%N) as [->|]; [|by rewrite bool_decide_true by lia].
      by rewrite (bool_decide_true (0 ≤ _)%N) by lia. }
    simpl. do 5 node_step. apply Hper; [done|]. intros fs' _. do 3 node_step. by rewrite Ht1. }
  node_step. node_step.
  - node_step. node_step. apply Hper; [done|]. intros fs' Hq'. apply bool_decide_eq_true in Hwhen.
    apply Hrest; simpl; autorewrite with state; rewrite ?Ht; try done; [lia|].
    by rewrite bool_decide_true.
  - apply bool_decide_eq_false in Hwhen. apply Hrest; simpl; rewrite ?Ht; try done. lia.
Qed.

(** C29: a torn state file is silently treated as a new node.  Take any node, with
    whatever term, vote and log, that is killed while it writes its state file
    (here on meeting a later term), with any number of bytes written short of the
    whole text.  Provided that a cut-off JSON object does not parse, the restarted
    node ignores the error of [load] and is in term 0, without vote and with an
    empty log; and it then grants its vote to whoever asks first, in any term, also
    one in which it had voted for somebody else. *)
Theorem torn_state_file_forgets_the_vote `{!StateCodecTorn} id ps dir n fs request json k :
  persister n = Some (persister_new (persist_path dir id)) →
  (current_term (rn_state n) < rv_term request)%N →
  to_string_pretty (persistent_of (become_follower (rv_term request) (rn_state n))) = Some json →
  k < String.length json →
  ∃ w' n', handle_request_vote request (n, set_faults [Kill (Some k)] fs) = (Halted, w') ∧
    with_persistence id ps dir w'.2 = (Done (Ok n'), w'.2) ∧
    current_term (rn_state n') = 0%N ∧ voted_for (rn_state n') = None ∧
    rs_log (rn_state n') = log_new ∧
    ∀ again, ∃ w'', handle_request_vote again (n', w'.2) =
      (Done [SendRequestVoteResponse (rv_candidate_id again) (mkRVR (rv_term again) true)], w'').
Proof.
  intros Hp Ht Hs Hk.
  set (n1 := update_state (become_follower (rv_term request)) n).
  set (fs' := set_files (<[persist_path dir id := str_take k json]> (fs_files fs)) (set_faults [] fs)).
  destruct (load_unreadable (persister_new (persist_path dir id)) fs' (str_take k json)) as [e He];
    [done|apply lookup_insert_eq|by eapply codec_torn|].
  eexists (n1, fs'), _. split; [|split].
  - unfold handle_request_vote, state_get. rewrite bind_gets. cbn [fst].
    rewrite bool_decide_false by lia. rewrite bool_decide_true by done. simpl when.
    rewrite bind_assoc. unfold state_mod. rewrite bind_modify. cbn [fst snd]. fold n1.
    apply bind_halted. unfold persist, node_get, state_get, on_disk. rewrite bind_gets. cbn [fst].
    change (persister n1) with (persister n). rewrite Hp, bind_gets. apply bind_halted.
    unfold zoom. cbn [fst snd].
    rewrite (save_torn _ _ json _ k); done.
  - unfold with_persistence, try_bind, create_dir_all. rewrite bind_assoc.
    rewrite (bind_done next_fault _ fs' Fine fs') by done. rewrite bind_ret_l. cbv zeta.
    by rewrite (bind_done _ _ _ _ _ He).
  - simpl. split_and!; try done. intros again. by apply fresh_node_grants.
Qed.

(** An error of [save] is ignored as well.  A node that grants its vote while its
    disk refuses the write answers as if the vote were safe; the disk is as it was,
    and a restart finds no vote. *)
Theorem failed_save_is_ignored n fs p request :
  persister n = Some p → rv_term request = current_term (rn_state n) →
  voted_for (rn_state n) = None → candidate_up_to_date (rn_state n) request = true →
  ∃ w', handle_request_vote request (n, set_faults [Fail None] fs) =
    (Done [SendRequestVoteResponse (rv_candidate_id request) (mkRVR (rv_term request) true)], w') ∧
    voted_for (rn_state w'.1) = Some (rv_candidate_id request) ∧
    disk_state p w'.2 = disk_state p fs.
Proof.
  intros Hp Ht Hv Hu. unfold handle_request_vote, state_get, state_mod, node_mod. rewrite bind_gets. cbn [fst].
  rewrite bool_decide_false, bool_decide_false by lia. simpl when. rewrite bind_ret_l, bind_gets. cbn [fst].
  assert (can_vote (rn_state n) (rv_candidate_id request) = true) as -> by (unfold can_vote; by rewrite Hv).
  rewrite Hu. cbn [andb when]. rewrite bind_assoc, bind_modify, bind_assoc, bind_modify. cbn [fst snd]. destruct (codec_total (persistent_of (set_voted_for (Some (rv_candidate_id request)) (rn_state n))))
    as [json Hj].
  set (n1 := reset_election_timeout _).
  assert (persist (n1, set_faults [Fail None] fs) = (Done tt, (n1, set_faults [] fs))) as Hper.
  { unfold persist, node_get, state_get, on_disk. rewrite bind_gets. cbn [fst].
    change (persister n1) with (persister n). rewrite Hp, bind_gets. cbn [fst].
    rewrite (bind_done _ _ _ (Err IoOther) (n1, set_faults [] fs)); [done|].
    unfold zoom, save. change (rn_state n1) with (set_voted_for (Some (rv_candidate_id request)) (rn_state n)).
    by rewrite Hj. }
  rewrite (bind_done _ _ _ _ _ Hper), bind_gets. eexists. rewrite Ht. by split_and!.
Qed.

End lost_votes.

(** Node 1 has voted for node 2 in term 5 and is killed three bytes into the write
    that a request of term 6 causes. *)
Definition voted_node : RaftNode :=
  match with_persistence 1 [1; 2; 3]%N "/d" voted_disk with
  | (Done (Ok n), _) => n
  | _ => node_new 1 []
  end.

Definition torn_json : string :=
  default "" (to_string_pretty (persistent_of (become_follower 6 (rn_state voted_node)))).

Lemma torn_state_file_forgets_the_vote_witness :
  voted_for (rn_state voted_node) = Some 2%N ∧ current_term (rn_state voted_node) = 5%N ∧
  ∃ w' n', handle_request_vote (mkRV 6 3 0 0) (voted_node, set_faults [Kill (Some 3)] voted_disk) = (Halted, w') ∧
    with_persistence 1 [1; 2; 3]%N "/d" w'.2 = (Done (Ok n'), w'.2) ∧
    current_term (rn_state n') = 0%N ∧ voted_for (rn_state n') = None ∧
    rs_log (rn_state n') = log_new ∧
    ∀ again, ∃ w'', handle_request_vote again (n', w'.2) =
      (Done [SendRequestVoteResponse (rv_candidate_id again) (mkRVR (rv_term again) true)], w'').
Proof.
  split; [vm_compute; reflexivity|]. split; [vm_compute; reflexivity|].
  apply (torn_state_file_forgets_the_vote 1 [1; 2; 3]%N "/d" voted_node voted_disk (mkRV 6 3 0 0) torn_json 3).
  - vm_compute. reflexivity.
  - vm_compute. reflexivity.
  - vm_compute. reflexivity.
  - apply (bool_decide_unpack _). vm_compute. exact I.
Defined.
