(* ===== verification/Boot.v ===== *)
(** * Start-up and metrics (src/main.rs, src/network/server.rs, src/metrics.rs)

    The configuration a node derives from its command line and environment, the
    construction of its server, and the text it serves to Prometheus. *)

From Stdlib Require Import Ascii.
From S2P Require Import Prelude Text Fs Log State Message Persist Codec Node Commit.
From S2P Require Import Durability BTree Memtable Wal Engine Ring Router Protocol Cluster.
From S2P Require Import ClusterProps Transport.

(** ** Configuration *)

Record BootConfig : Type := mkBoot {
  bc_node_id : N;
  bc_peers : list N;
  bc_client_addr : string;
  bc_data_dir : string;
  bc_nodes : list NodeConfig;
}.

Definition all_nodes : list NodeConfig :=
  [mkNodeConfig 1 6381 7001; mkNodeConfig 2 6382 7002; mkNodeConfig 3 6383 7003].

Definition find_node (nodes : list NodeConfig) (id : N) : option NodeConfig :=
  snd <$> list_find (λ n, nc_id n = id) nodes.

(** [main] up to [Server::new]; [Halted] is one of its two [expect]s failing.
    [args] includes the program's name; [env] is [std::env::var]. *)
Definition main_config (env : string → option string) (args : list string) : outcome BootConfig :=
  let host := default "127.0.0.1" (env "RAFTKV_HOST") in
  let all_peer_ids := nc_id <$> all_nodes in
  match (match args with
         | _ :: arg :: _ => parse_usize arg
         | _ => Some 1%N
         end) with
  | None => Halted
  | Some node_id =>
      match find_node all_nodes node_id with
      | None => Halted
      | Some node_config =>
          Done {| bc_node_id := node_id;
                  bc_peers := if bool_decide (1 < vec_len args)%N then all_peer_ids else [1%N];
                  bc_client_addr := host +:+ ":" +:+ pretty (nc_client_port node_config);
                  bc_data_dir := "/tmp/raftkv-node-" +:+ pretty node_id;
                  bc_nodes := all_nodes |}
      end
  end.

Record Server : Type := mkServer {
  sv_node : ClusterNode;
  sv_addr : string;
  sv_transport : PeerTransport;
  sv_peer_port : N;
  sv_node_id : N;
  sv_all_nodes : list NodeConfig;
}.

(** The node is opened before its port is looked up. *)
Definition server_new `{Build, StateCodec} (env : string → option string) (node_id : N) (ps : list N)
  (client_addr data_dir : string) (nodes : list NodeConfig) : io Server :=
  cluster_node ?← cluster_new node_id ps data_dir;
  match nc_peer_port <$> find_node nodes node_id with
  | None => halt
  | Some peer_port =>
      let transport := transport_new env node_id nodes in
      mret (Ok (mkServer cluster_node client_addr transport peer_port node_id nodes))
  end.

(** ** Metrics *)

Definition DQ : string := String "034" "".
Definition NL : string := String LF "".

Definition role_num (r : NodeRole) : N :=
  match r with Follower => 0 | Candidate => 1 | Leader => 2 end.

Definition role_str (r : NodeRole) : string :=
  match r with Follower => "follower" | Candidate => "candidate" | Leader => "leader" end.

(** [{node="id"}], with further labels behind it. *)
Definition labels (node_id : N) (more : string) : string :=
  "{node=" +:+ DQ +:+ pretty node_id +:+ DQ +:+ more +:+ "} ".

(** The three lines of one metric. *)
Definition metric_lines (name help lbls : string) (value : N) : list string :=
  ["# HELP " +:+ name +:+ " " +:+ help; "# TYPE " +:+ name +:+ " gauge"; name +:+ lbls +:+ pretty value].

Definition unlines (ls : list string) : string := foldr (λ l acc, l +:+ NL +:+ acc) "" ls.

Definition metrics_lines (node : ClusterNode) (node_id : N) : list string :=
  let state := rn_state (cn_raft node) in
  let node_label := labels node_id "" in
  metric_lines "raftkv_current_term" "The current Raft term" node_label (current_term state) ++
  metric_lines "raftkv_role" "Current role (0=follower, 1=candidate, 2=leader)"
    (labels node_id (",role=" +:+ DQ +:+ role_str (role state) +:+ DQ)) (role_num (role state)) ++
  metric_lines "raftkv_commit_index" "The highest committed log index" node_label (commit_index state) ++
  metric_lines "raftkv_last_applied" "The highest applied log index" node_label (last_applied state) ++
  metric_lines "raftkv_log_length" "Number of entries in the Raft log" node_label
    (last_index (rs_log state)) ++
  metric_lines "raftkv_is_leader" "Whether this node is the leader (1=yes, 0=no)" node_label
    (if bool_decide (role state = Leader) then 1 else 0) ++
  match leader_id state with
  | Some leader => metric_lines "raftkv_known_leader" "The node ID of the known leader" node_label leader
  | None => []
  end.

Definition generate_metrics (node : ClusterNode) (node_id : N) : string :=
  unlines (metrics_lines node node_id).

Definition http_response (body : string) : string :=
  "HTTP/1.1 200 OK" +:+ CRLF +:+ "Content-Type: text/plain; charset=utf-8" +:+ CRLF +:+
  "Content-Length: " +:+ pretty (str_len body) +:+ CRLF +:+ CRLF +:+ body.

(** ** Lemmas *)

Definition line_ok (l : string) : Prop := str_mem LF l = false ∧ ends_with CR l = false.

Lemma lines_unlines ls : Forall line_ok ls → lines (unlines ls) = ls.
Proof.
  induction 1 as [|l ls [Hlf Hcr] _ IH]; [done|].
  change (unlines (l :: ls)) with (l +:+ String LF (unlines ls)).
  rewrite lines_cons by done. by rewrite strip_cr_no_cr, IH.
Qed.

(** [ends_with] from the absence of the character. *)
Lemma line_ok_free l : str_mem LF l = false → str_mem CR l = false → line_ok l.
Proof.
  intros Hlf Hcr. split; [done|]. apply not_true_iff_false. intros H%ends_with_mem. congruence.
Qed.

Lemma metric_lines_ok name help lbls value :
  str_mem LF (name +:+ help +:+ lbls) = false → str_mem CR (name +:+ help +:+ lbls) = false →
  Forall line_ok (metric_lines name help lbls value).
Proof.
  rewrite !str_mem_app, !orb_false_iff. intros (? & ? & ?) (? & ? & ?).
  destruct (pretty_clean value) as (? & ? & _).
  repeat constructor; apply line_ok_free; rewrite ?str_mem_app, ?orb_false_iff; split_and!; done.
Qed.

Lemma labels_clean node_id more c :
  c = LF ∨ c = CR → str_mem c more = false → str_mem c (labels node_id more) = false.
Proof.
  intros Hc Hm. destruct (pretty_clean node_id) as (? & ? & _). unfold labels.
  rewrite !str_mem_app, !orb_false_iff. destruct Hc as [-> | ->]; by split_and!.
Qed.

(** ** Properties *)

(** a scrape reports the node's state, line by line.  Reading the metrics text
    back by lines gives exactly the three lines of each metric, in order, with
    the current term, role, commit index, applied index, log length, leadership
    and, when known, the leader, as held by the node. *)
Theorem metrics_report_state node node_id :
  lines (generate_metrics node node_id) = metrics_lines node node_id.
Proof.
  apply lines_unlines. unfold metrics_lines. cbv zeta.
  repeat first [apply Forall_app; split | destruct (leader_id _) | apply Forall_nil; done];
    apply metric_lines_ok; rewrite !str_mem_app, !orb_false_iff; split_and!; try done;
    apply labels_clean; auto; by destruct (role _).
Qed.

(** a node started by its number joins the cluster of three.  With its number
    1, 2 or 3 on the command line a node runs with all three peers, its own data
    directory, and an address for each of the two others and none for itself;
    any other argument stops the program, and no argument starts a cluster of
    one. *)
Theorem boot_configuration env exe arg :
  match main_config env [exe; arg] with
  | Done c =>
      bc_peers c = [1; 2; 3]%N ∧ bc_node_id c ∈ [1; 2; 3]%N ∧ parse_usize arg = Some (bc_node_id c) ∧
      bc_data_dir c = "/tmp/raftkv-node-" +:+ pretty (bc_node_id c) ∧
      ∀ p, is_Some (peer_addresses (transport_new env (bc_node_id c) (bc_nodes c)) !! p) ↔
           p ∈ [1; 2; 3]%N ∧ p ≠ bc_node_id c
  | Halted => parse_usize arg ≠ Some 1%N ∧ parse_usize arg ≠ Some 2%N ∧ parse_usize arg ≠ Some 3%N
  end ∧
  ∃ c, main_config env [exe] = Done c ∧ bc_node_id c = 1%N ∧ bc_peers c = [1%N].
Proof.
  split; [|by eexists]. unfold main_config. simpl.
  destruct (parse_usize arg) as [n|]; [|done]. unfold find_node, all_nodes. simpl.
  repeat case_decide; simpl in *; subst; split_and!; try done; try set_solver;
    try (intros p; unfold transport_new; simpl;
         rewrite !lookup_insert_is_Some', lookup_empty; set_solver);
    intros [= ->]; done.
Qed.
