(* ===== verification/Runtime.v ===== *)
(** * The running server (src/network/server.rs, src/transport.rs, src/metrics.rs)

    [Server::run] starts four threads around the node and its mutex: the tick
    thread, the peer listener, the metrics server and the accept loop for clients
    (the main thread); every message to a peer is sent by a thread of its own.  A
    step of the model is what one thread does between two points where others can
    interfere: a section under the lock, or one interaction with the network.  The
    environment chooses which thread moves, who connects with which bytes, which
    sends arrive, and when the deadline of a waiting client passes. *)

From Stdlib Require Import Ascii.
From S2P Require Import Prelude Text Fs Log State Message Persist Codec Node Commit.
From S2P Require Import Durability BTree Memtable Wal Engine Ring Router Protocol Cluster.
From S2P Require Import ClusterProps Transport Server Election System Boot.

(** ** Threads *)

Inductive tick_thread : Type :=
| TickAsleep
| TickSending (messages : list PeerMessage).

(** A connection is the lines that [BufRead::lines] will yield ([None]: an error or
    the read timeout). *)
Inductive listener_thread : Type :=
| PeerAccepting
| PeerReading (ls : list (option string))
| PeerSending (messages : list PeerMessage) (ls : list (option string)).

(** While a request is served the thread's state names its command. *)
Inductive client_thread : Type :=
| ClientAccepting
| ClientReading (ls : list (option string))
| ClientRefusing (r : Response) (ls : list (option string))
| ClientSending (c : Command) (messages : list PeerMessage) (resp : Response) (pending : option N)
    (ls : list (option string))
| ClientWaiting (c : Command) (index : N) (ok : Response) (ls : list (option string))
| ClientReplying (c : Command) (r : Response) (ls : list (option string)).

Inductive metrics_thread : Type :=
| MetricsDown
| MetricsAccepting
| MetricsReading
| MetricsReplying (response : string).

(** [rt_sends] are the send threads in progress, with address and bytes; [rt_wire],
    [rt_replies] and [rt_scrapes] is what reached peers, clients and Prometheus.  A
    reply is recorded with the command it answers ([None]: the request was
    malformed); the bytes on the socket are its [serialize]. *)
Record runtime : Type := mkRuntime {
  rt_node : ClusterNode;
  rt_disk : Fs;
  rt_up : bool;
  rt_tick : tick_thread;
  rt_listener : listener_thread;
  rt_client : client_thread;
  rt_metrics : metrics_thread;
  rt_sends : list (string * string);
  rt_wire : list (string * string);
  rt_replies : list (option Command * Response);
  rt_scrapes : list string;
}.

Definition rt_world (rt : runtime) : CW := (rt_node rt, rt_disk rt).

Definition with_world (w : CW) (rt : runtime) : runtime :=
  mkRuntime w.1 w.2 (rt_up rt) (rt_tick rt) (rt_listener rt) (rt_client rt) (rt_metrics rt)
    (rt_sends rt) (rt_wire rt) (rt_replies rt) (rt_scrapes rt).
Definition with_tick (x : tick_thread) (rt : runtime) : runtime :=
  mkRuntime (rt_node rt) (rt_disk rt) (rt_up rt) x (rt_listener rt) (rt_client rt) (rt_metrics rt)
    (rt_sends rt) (rt_wire rt) (rt_replies rt) (rt_scrapes rt).
Definition with_listener (x : listener_thread) (rt : runtime) : runtime :=
  mkRuntime (rt_node rt) (rt_disk rt) (rt_up rt) (rt_tick rt) x (rt_client rt) (rt_metrics rt)
    (rt_sends rt) (rt_wire rt) (rt_replies rt) (rt_scrapes rt).
Definition with_client (x : client_thread) (rt : runtime) : runtime :=
  mkRuntime (rt_node rt) (rt_disk rt) (rt_up rt) (rt_tick rt) (rt_listener rt) x (rt_metrics rt)
    (rt_sends rt) (rt_wire rt) (rt_replies rt) (rt_scrapes rt).
Definition with_metrics (x : metrics_thread) (rt : runtime) : runtime :=
  mkRuntime (rt_node rt) (rt_disk rt) (rt_up rt) (rt_tick rt) (rt_listener rt) (rt_client rt) x
    (rt_sends rt) (rt_wire rt) (rt_replies rt) (rt_scrapes rt).
Definition with_network (sends wire : list (string * string)) (rt : runtime) : runtime :=
  mkRuntime (rt_node rt) (rt_disk rt) (rt_up rt) (rt_tick rt) (rt_listener rt) (rt_client rt)
    (rt_metrics rt) sends wire (rt_replies rt) (rt_scrapes rt).
Definition with_reply (c : option Command) (r : Response) (rt : runtime) : runtime :=
  mkRuntime (rt_node rt) (rt_disk rt) (rt_up rt) (rt_tick rt) (rt_listener rt) (rt_client rt)
    (rt_metrics rt) (rt_sends rt) (rt_wire rt) (rt_replies rt ++ [(c, r)]) (rt_scrapes rt).
Definition with_scrape (bytes : string) (rt : runtime) : runtime :=
  mkRuntime (rt_node rt) (rt_disk rt) (rt_up rt) (rt_tick rt) (rt_listener rt) (rt_client rt)
    (rt_metrics rt) (rt_sends rt) (rt_wire rt) (rt_replies rt) (rt_scrapes rt ++ [bytes]).
Definition died (w : CW) (rt : runtime) : runtime :=
  mkRuntime w.1 w.2 false (rt_tick rt) (rt_listener rt) (rt_client rt) (rt_metrics rt)
    (rt_sends rt) (rt_wire rt) (rt_replies rt) (rt_scrapes rt).

(** A section under the lock; [Halted] ends the process. *)
Definition locked {A} (m : proc CW A) (k : A → runtime → runtime) (rt : runtime) : runtime :=
  match m (rt_world rt) with
  | (Done a, w) => k a (with_world w rt)
  | (Halted, w) => died w rt
  end.

(** [transport.send_messages]: one thread per message. *)
Definition spawn_sends `{NetCodec} (t : PeerTransport) (messages : list PeerMessage) (rt : runtime) :
  runtime := with_network (rt_sends rt ++ send_messages t messages) (rt_wire rt) rt.

(** ** Steps *)

Inductive tick_event : Type := TickWakes | TickSends.

Inductive listener_event : Type :=
| PeerConnects (ls : list (option string)) | PeerReads | PeerSends.

Inductive client_event : Type :=
| ClientConnects (ls : list (option string)) | ClientReads | ClientSends
| ClientPolls (deadline_passed : bool) | ClientWrites (ok : bool).

Inductive metrics_event : Type := ScrapeConnects | ScrapeReads | ScrapeWrites (ok : bool).

(** [SendEnds k w]: the [k]-th send thread ends; [None]: the address did not resolve
    or the connection timed out; [Some n]: at most [n] bytes were written. *)
Inductive rt_event : Type :=
| TickDoes (e : tick_event)
| ListenerDoes (e : listener_event)
| SendEnds (thread : nat) (written : option nat)
| ClientDoes (e : client_event)
| MetricsDoes (e : metrics_event).

Definition after_outbound {T} (sending : list PeerMessage → T) (idle : T) (messages : list PeerMessage) : T :=
  if bool_decide (messages = []) then idle else sending messages.

Section steps.
Context `{Build, StateCodec, NetCodec, Unicode} (env : string → option string) (s : Server).

(** The transports of the threads: the tick thread builds its own from a copy of the
    addresses, the listener builds one from the configuration. *)
Definition tick_transport : PeerTransport :=
  from_addresses (sv_node_id s) (peer_addresses (sv_transport s)).

Definition listener_transport : PeerTransport :=
  transport_new env (sv_node_id s) (sv_all_nodes s).

Definition tick_step (e : tick_event) (rt : runtime) : option runtime :=
  match e, rt_tick rt with
  | TickWakes, TickAsleep =>
      Some (locked (cluster_tick ;; take_outbound_messages)
              (λ messages, with_tick (after_outbound TickSending TickAsleep messages)) rt)
  | TickSends, TickSending messages =>
      Some (with_tick TickAsleep (spawn_sends tick_transport messages rt))
  | _, _ => None
  end.

(** The peer listener takes the next line. *)
Definition listener_reads (ls : list (option string)) (rt : runtime) : runtime :=
  match ls with
  | [] | None :: _ => with_listener PeerAccepting rt
  | Some line :: ls =>
      if bool_decide (line = "") then with_listener (PeerReading ls) rt else
      match net_from_str line with
      | None => with_listener (PeerReading ls) rt
      | Some msg =>
          locked (dispatch_message msg ;; take_outbound_messages)
            (λ outbound, with_listener
               (after_outbound (λ m, PeerSending m ls) (PeerReading ls) outbound)) rt
      end
  end.

Definition listener_step (e : listener_event) (rt : runtime) : option runtime :=
  match e, rt_listener rt with
  | PeerConnects ls, PeerAccepting => Some (with_listener (PeerReading ls) rt)
  | PeerReads, PeerReading ls => Some (listener_reads ls rt)
  | PeerSends, PeerSending messages ls =>
      Some (with_listener (PeerReading ls) (spawn_sends listener_transport messages rt))
  | _, _ => None
  end.

Definition send_step (k : nat) (written : option nat) (rt : runtime) : option runtime :=
  '(addr, bytes) ← rt_sends rt !! k;
  Some (with_network (delete k (rt_sends rt))
          (match written with
           | Some n => rt_wire rt ++ [(addr, str_take n bytes)]
           | None => rt_wire rt
           end) rt).

(** A client's handler takes the next request. *)
Definition client_reads (ls : list (option string)) (rt : runtime) : runtime :=
  match read_request ls with
  | Closed => with_client ClientAccepting rt
  | Malformed r rest => with_client (ClientRefusing r rest) rt
  | Request c rest =>
      locked (run_command c) (λ x, with_client (ClientSending c x.2 x.1.1 x.1.2 rest)) rt
  end.

(** A turn of [await_commit]: poll, then look at the clock. *)
Definition client_polls (c : Command) (index : N) (ok : Response) (ls : list (option string))
  (deadline_passed : bool) (rt : runtime) : runtime :=
  if bool_decide (index ≤ commit_index (rn_state (cn_raft (rt_node rt))))%N
  then with_client (ClientReplying c ok ls) rt
  else if deadline_passed then with_client (ClientReplying c TIMEOUT ls) rt
  else rt.

(** A failed write of a refusal is ignored; that of a reply ends the connection. *)
Definition client_step (e : client_event) (rt : runtime) : option runtime :=
  match e, rt_client rt with
  | ClientConnects ls, ClientAccepting => Some (with_client (ClientReading ls) rt)
  | ClientReads, ClientReading ls => Some (client_reads ls rt)
  | ClientSends, ClientSending c messages resp pending ls =>
      Some (with_client (match pending with
                         | Some index => ClientWaiting c index resp ls
                         | None => ClientReplying c resp ls
                         end) (spawn_sends (sv_transport s) messages rt))
  | ClientPolls deadline_passed, ClientWaiting c index ok ls =>
      Some (client_polls c index ok ls deadline_passed rt)
  | ClientWrites ok, ClientRefusing r ls =>
      Some (with_client (ClientReading ls) (if ok then with_reply None r rt else rt))
  | ClientWrites ok, ClientReplying c r ls =>
      Some (if ok then with_client (ClientReading ls) (with_reply (Some c) r rt)
            else with_client ClientAccepting rt)
  | _, _ => None
  end.

Definition metrics_step (e : metrics_event) (rt : runtime) : option runtime :=
  match e, rt_metrics rt with
  | ScrapeConnects, MetricsAccepting => Some (with_metrics MetricsReading rt)
  | ScrapeReads, MetricsReading =>
      Some (locked (cluster_get (λ c, generate_metrics c (sv_node_id s)))
              (λ body, with_metrics (MetricsReplying (http_response body))) rt)
  | ScrapeWrites ok, MetricsReplying response =>
      Some (with_metrics MetricsAccepting (if ok then with_scrape response rt else rt))
  | _, _ => None
  end.

Definition rt_step (e : rt_event) (rt : runtime) : option runtime :=
  if rt_up rt then
    match e with
    | TickDoes e => tick_step e rt
    | ListenerDoes e => listener_step e rt
    | SendEnds k written => send_step k written rt
    | ClientDoes e => client_step e rt
    | MetricsDoes e => metrics_step e rt
    end
  else None.

Fixpoint rt_run (es : list rt_event) (rt : runtime) : option runtime :=
  match es with
  | [] => Some rt
  | e :: es => rt ← rt_step e rt; rt_run es rt
  end.

End steps.

(** [9100 + self.node_id as u16] in a release build. *)
Definition metrics_port (node_id : N) : N := ((9100 + node_id mod 65536) mod 65536)%N.

(** [Server::run] up to the accept loop, on the disk [fs]: without its port the
    metrics thread ends; the other two binds end the program.  [binds] says which
    addresses the operating system grants. *)
Definition server_run (binds : string → bool) (s : Server) (fs : Fs) : result io_error runtime :=
  if binds ("0.0.0.0:" +:+ pretty (sv_peer_port s)) then
    if binds (sv_addr s) then
      Ok (mkRuntime (sv_node s) fs true TickAsleep PeerAccepting ClientAccepting
            (if binds ("0.0.0.0:" +:+ pretty (metrics_port (sv_node_id s)))
             then MetricsAccepting else MetricsDown) [] [] [] [])
    else Err IoOther
  else Err IoOther.

(** ** Refinement

    What the threads do to the node is a sequence of the sections of System.v, and
    what they put on the wire are the messages these sections return. *)

Section refinement.
Context `{Build, StateCodec, NetCodec, Unicode}.

Inductive section_run : CW → list PeerMessage → CW → Prop :=
| section_tick w out w' : tick_activity w = (Done out, w') → section_run w out w'
| section_deliver msg w out w' : deliver_activity msg w = (Done out, w') → section_run w out w'
| section_command c w out w' : command_activity c w = (Done out, w') → section_run w out w'.

(** From [w] to [w'] by sections that return, together, the messages [out]. *)
Inductive sections (w : CW) : list PeerMessage → CW → Prop :=
| sections_nil : sections w [] w
| sections_snoc out w1 out1 w2 :
    sections w out w1 → section_run w1 out1 w2 → sections w (out ++ out1) w2.

Lemma sections_trans w1 o1 w2 o2 w3 : sections w1 o1 w2 → sections w2 o2 w3 → sections w1 (o1 ++ o2) w3.
Proof.
  intros H12. induction 1 as [|out w out1 w' _ IH Hs]; [by rewrite app_nil_r|].
  rewrite app_assoc. by eapply sections_snoc.
Qed.

(** What the threads have in hand. *)
Definition tick_hand (t : tick_thread) : list PeerMessage :=
  match t with TickSending m => m | TickAsleep => [] end.
Definition listener_hand (t : listener_thread) : list PeerMessage :=
  match t with PeerSending m _ => m | _ => [] end.
Definition client_hand (t : client_thread) : list PeerMessage :=
  match t with ClientSending _ m _ _ _ => m | _ => [] end.

Definition in_hand (rt : runtime) : list PeerMessage :=
  tick_hand (rt_tick rt) ++ listener_hand (rt_listener rt) ++ client_hand (rt_client rt).

(** [bytes] for [addr] is message [m] of [out] as this node sends it. *)
Definition comes_from (t : PeerTransport) (out : list PeerMessage) (x : string * string) : Prop :=
  ∃ m, m ∈ out ∧ send_messages t [m] = [x].

Record traced (t : PeerTransport) (w0 : CW) (out : list PeerMessage) (rt : runtime) : Prop := {
  tr_sections : sections w0 out (rt_world rt);
  tr_hand : ∀ m, m ∈ in_hand rt → m ∈ out;
  tr_sends : ∀ x, x ∈ rt_sends rt → comes_from t out x;
  tr_wire : ∀ addr bytes, (addr, bytes) ∈ rt_wire rt → ∃ n whole,
    comes_from t out (addr, whole) ∧ bytes = str_take n whole;
}.

Lemma elem_of_send_messages t msgs x :
  x ∈ send_messages t msgs → ∃ m, m ∈ msgs ∧ send_messages t [m] = [x].
Proof.
  unfold send_messages. intros (m & Hm & Hx)%list_elem_of_omap. exists m. split; [done|]. simpl. by rewrite Hx.
Qed.

Lemma comes_from_mono t out out' x : out ⊆ out' → comes_from t out x → comes_from t out' x.
Proof. intros Hs (m & Hm & Hx). exists m. auto. Qed.

Lemma traced_keep t w0 out rt rt' :
  traced t w0 out rt → rt_world rt' = rt_world rt → in_hand rt' ⊆ in_hand rt →
  (∀ x, x ∈ rt_sends rt' → x ∈ rt_sends rt ∨ ∃ msgs, msgs ⊆ in_hand rt ∧ x ∈ send_messages t msgs) →
  (∀ addr bytes, (addr, bytes) ∈ rt_wire rt' → (addr, bytes) ∈ rt_wire rt ∨
     ∃ n whole, (addr, whole) ∈ rt_sends rt ∧ bytes = str_take n whole) →
  traced t w0 out rt'.
Proof.
  intros [T1 T2 T3 T4] Hw Hh Hs Hwire. split; [by rewrite Hw|auto| |].
  - intros x [?|(msgs & Hm & (m & Hin & Hx)%elem_of_send_messages)]%Hs; [auto|]. exists m. auto.
  - intros addr bytes [?|(n & whole & Hin & ->)]%Hwire; [auto|]. exists n, whole. auto.
Qed.

Lemma traced_section t w0 out out1 rt rt' :
  traced t w0 out rt → section_run (rt_world rt) out1 (rt_world rt') →
  in_hand rt' ⊆ in_hand rt ++ out1 → rt_sends rt' = rt_sends rt → rt_wire rt' = rt_wire rt →
  traced t w0 (out ++ out1) rt'.
Proof.
  intros [T1 T2 T3 T4] Hsec Hh Hs Hw. assert (out ⊆ out ++ out1) as Hsub by set_solver.
  split; [by eapply sections_snoc| | |].
  - intros m [?|?]%Hh%elem_of_app; apply elem_of_app; auto.
  - rewrite Hs. intros x Hx. by eapply comes_from_mono; [|apply T3].
  - rewrite Hw. intros addr bytes (n & whole & Hc & ->)%T4. exists n, whole. split; [|done].
    by eapply comes_from_mono.
Qed.

(** A section under the lock that the process survives. *)
Lemma locked_up {A} (m : proc CW A) k rt :
  rt_up (locked m k rt) = true →
  ∃ a w, m (rt_world rt) = (Done a, w) ∧ locked m k rt = k a (with_world w rt).
Proof. unfold locked. destruct (m (rt_world rt)) as [[a|] w]; [eauto|done]. Qed.

(** The sections of the threads are those of System.v. *)
Lemma tick_section_run w out w' :
  (cluster_tick ;; take_outbound_messages) w = (Done out, w') → section_run w out w'.
Proof. intros Hrun. by apply section_tick. Qed.

Lemma deliver_section_run msg w out w' :
  (dispatch_message msg ;; take_outbound_messages) w = (Done out, w') → section_run w out w'.
Proof. intros Hrun. by apply (section_deliver msg). Qed.

Lemma command_section_run c w x w' : run_command c w = (Done x, w') → section_run w x.2 w'.
Proof.
  intros Hrun. apply (section_command c). unfold command_activity. by rewrite (bind_done _ _ _ _ _ Hrun).
Qed.

Context (env : string → option string) (s : Server).
Context (Htick : tick_transport s = sv_transport s) (Hlist : listener_transport env s = sv_transport s).

(** A step of one thread extends the trace by nothing or by one section. *)
Definition advances (w0 : CW) (out : list PeerMessage) (rt rt' : runtime) : Prop :=
  ∃ out1, sections (rt_world rt) out1 (rt_world rt') ∧ traced (sv_transport s) w0 (out ++ out1) rt'.

Section thread.
Context (w0 : CW) (out : list PeerMessage) (rt : runtime) (HT : traced (sv_transport s) w0 out rt).

Lemma advances_keep rt' :
  rt_world rt' = rt_world rt → in_hand rt' ⊆ in_hand rt →
  (∀ x, x ∈ rt_sends rt' → x ∈ rt_sends rt ∨
     ∃ msgs, msgs ⊆ in_hand rt ∧ x ∈ send_messages (sv_transport s) msgs) →
  (∀ addr bytes, (addr, bytes) ∈ rt_wire rt' → (addr, bytes) ∈ rt_wire rt ∨
     ∃ n whole, (addr, whole) ∈ rt_sends rt ∧ bytes = str_take n whole) →
  advances w0 out rt rt'.
Proof.
  intros Hw Hh Hs Hwi. exists []. rewrite Hw, app_nil_r. split; [constructor|]. by eapply traced_keep.
Qed.

Lemma advances_quiet rt' :
  rt_world rt' = rt_world rt → in_hand rt' ⊆ in_hand rt → rt_sends rt' = rt_sends rt →
  rt_wire rt' = rt_wire rt → advances w0 out rt rt'.
Proof. intros Hw Hh Hs Hwi. apply advances_keep; [done|done|rewrite Hs; auto|rewrite Hwi; auto]. Qed.

(** A thread hands what it holds to its transport. *)
Lemma advances_spawn t msgs rt' :
  t = sv_transport s → msgs ⊆ in_hand rt → rt_world rt' = rt_world rt → in_hand rt' ⊆ in_hand rt →
  rt_sends rt' = rt_sends rt ++ send_messages t msgs → rt_wire rt' = rt_wire rt → advances w0 out rt rt'.
Proof.
  intros -> Hm Hw Hh Hs Hwi. apply advances_keep; [done|done| |rewrite Hwi; auto].
  rewrite Hs. intros x [?|?]%elem_of_app; eauto.
Qed.

Lemma advances_section out1 rt' :
  section_run (rt_world rt) out1 (rt_world rt') → in_hand rt' ⊆ in_hand rt ++ out1 →
  rt_sends rt' = rt_sends rt → rt_wire rt' = rt_wire rt → advances w0 out rt rt'.
Proof.
  intros Hrun Hh Hs Hwi. exists out1. split; [|by eapply traced_section].
  apply (sections_snoc _ [] _ out1 _ (sections_nil _) Hrun).
Qed.

Ltac hand :=
  unfold in_hand; simpl;
  repeat match goal with E : _ rt = _ |- _ => rewrite E; clear E; simpl end;
  repeat (case_bool_decide || case_match); simpl; set_solver.

Lemma tick_advances e rt' : tick_step s e rt = Some rt' → rt_up rt' = true → advances w0 out rt rt'.
Proof.
  unfold tick_step. destruct e, (rt_tick rt) as [|msgs] eqn:Et; intros [= <-] Hup.
  - apply locked_up in Hup as (a & [c0 fs0] & Hm & ->). apply (advances_section a); try done.
    + by apply tick_section_run.
    + unfold after_outbound. hand.
  - eapply (advances_spawn _ msgs); [exact Htick|..]; try done; hand.
Qed.

Lemma listener_advances e rt' :
  listener_step env s e rt = Some rt' → rt_up rt' = true → advances w0 out rt rt'.
Proof.
  unfold listener_step. destruct e as [ls| |], (rt_listener rt) as [|ls'|msgs ls'] eqn:El;
    intros [= <-] Hup; try (apply advances_quiet; [done|hand|done|done]).
  - unfold listener_reads in *. destruct ls' as [|[line|] ls'];
      try (apply advances_quiet; [done|hand|done|done]).
    case_bool_decide; [apply advances_quiet; [done|hand|done|done]|].
    destruct (net_from_str line) as [msg|]; [|apply advances_quiet; [done|hand|done|done]].
    apply locked_up in Hup as (a & [c0 fs0] & Hm & ->). apply (advances_section a); try done.
    + by eapply deliver_section_run.
    + unfold after_outbound. hand.
  - eapply (advances_spawn _ msgs); [exact Hlist|..]; try done; hand.
Qed.

Lemma send_advances k written rt' : send_step k written rt = Some rt' → advances w0 out rt rt'.
Proof.
  unfold send_step. destruct (rt_sends rt !! k) as [[addr bytes]|] eqn:Ek; [|done].
  intros [= <-]. apply advances_keep; [done|done| |]; simpl.
  - intros y Hy. left. by eapply list_elem_of_delete_inv.
  - intros a b. destruct written as [n|]; [|auto]. intros [?|Hin]%elem_of_app; [auto|right].
    apply list_elem_of_singleton in Hin. simplify_eq. exists n, bytes. split; [|done].
    by eapply list_elem_of_lookup_2.
Qed.

Lemma client_advances e rt' : client_step s e rt = Some rt' → rt_up rt' = true → advances w0 out rt rt'.
Proof.
  unfold client_step. destruct e as [ls| | |dl|ok], (rt_client rt) eqn:Ec; intros [= <-] Hup;
    try (apply advances_quiet; [done|hand|done|done]).
  - unfold client_reads in *. destruct (read_request _) as [|r rest|c rest];
      try (apply advances_quiet; [done|hand|done|done]).
    apply locked_up in Hup as (a & [c0 fs0] & Hm & ->). apply (advances_section a.2); try done.
    + by eapply command_section_run.
    + hand.
  - eapply (advances_spawn (sv_transport s) messages); try done; hand.
  - unfold client_polls. case_bool_decide; [|destruct dl]; (apply advances_quiet; [done|hand|done|done]).
  - destruct ok; (apply advances_quiet; [done|hand|done|done]).
  - destruct ok; (apply advances_quiet; [done|hand|done|done]).
Qed.

Lemma metrics_advances e rt' :
  metrics_step s e rt = Some rt' → rt_up rt' = true → advances w0 out rt rt'.
Proof.
  unfold metrics_step. destruct e as [| |ok], (rt_metrics rt) eqn:Em; intros [= <-] Hup;
    try (apply advances_quiet; done). destruct ok; by apply advances_quiet.
Qed.

Lemma step_advances e rt' : rt_step env s e rt = Some rt' → rt_up rt' = true → advances w0 out rt rt'.
Proof.
  unfold rt_step. destruct (rt_up rt); [|done].
  destruct e; eauto using tick_advances, listener_advances, send_advances, client_advances, metrics_advances.
Qed.

End thread.

(** ** Replies *)

(** Some section of the run left [cmd] at [index] of the node's log. *)
Definition appended (w0 w : CW) (cmd : LogCommand) (index : N) : Prop :=
  ∃ o1 w1 o2 t, sections w0 o1 w1 ∧ sections w1 o2 w ∧
    log_get (rs_log (rn_state (cn_raft w1.1))) index = Some (mkEntry t cmd).

(** And later the node had committed that index. *)
Definition committed_after (w0 w : CW) (cmd : LogCommand) : Prop :=
  ∃ index o1 w1 o2, sections w0 o1 w1 ∧ appended w0 w1 cmd index ∧ sections w1 o2 w ∧
    (index ≤ commit_index (rn_state (cn_raft w1.1)))%N.

Lemma appended_later w0 w cmd index o w' :
  sections w o w' → appended w0 w cmd index → appended w0 w' cmd index.
Proof.
  intros Hs (o1 & w1 & o2 & t & H1' & H2' & Hl). exists o1, w1, (o2 ++ o), t.
  split_and!; [done|by eapply sections_trans|done].
Qed.

Lemma committed_later w0 w cmd o w' :
  sections w o w' → committed_after w0 w cmd → committed_after w0 w' cmd.
Proof.
  intros Hs (i & o1 & w1 & o2 & H1' & Ha & H2' & Hl). exists i, o1, w1, (o2 ++ o).
  split_and!; [done|done|by eapply sections_trans|done].
Qed.

(** What the client thread and the replies say about the write [cmd] that command
    [c] stands for and that is answered [ok]. *)
Definition thread_honest (w0 w : CW) (c : Command) (cmd : LogCommand) (ok : Response)
  (t : client_thread) : Prop :=
  match t with
  | ClientSending c' _ resp pending _ => c' = c → resp = ok →
      ∃ index, pending = Some index ∧ appended w0 w cmd index
  | ClientWaiting c' index resp _ => c' = c → resp = ok → appended w0 w cmd index
  | ClientReplying c' r _ => c' = c → r = ok → committed_after w0 w cmd
  | _ => True
  end.

Record honest (w0 : CW) (rt : runtime) : Prop := {
  hn_thread : ∀ c k cmd ok, command_write c = Some (k, cmd, ok) →
    thread_honest w0 (rt_world rt) c cmd ok (rt_client rt);
  hn_replies : ∀ c k cmd ok, command_write c = Some (k, cmd, ok) →
    (Some c, ok) ∈ rt_replies rt → committed_after w0 (rt_world rt) cmd;
}.

Lemma thread_honest_later w0 w o w' c cmd ok t :
  sections w o w' → thread_honest w0 w c cmd ok t → thread_honest w0 w' c cmd ok t.
Proof.
  intros Hs. destruct t; simpl; try done.
  - intros Hp E1 E2. destruct (Hp E1 E2) as (i & ? & ?). exists i. eauto using appended_later.
  - eauto using appended_later.
  - eauto using committed_later.
Qed.

(** A step of another thread keeps the client thread and the replies. *)
Lemma honest_other w0 o rt rt' :
  sections (rt_world rt) o (rt_world rt') → rt_client rt' = rt_client rt → rt_replies rt' = rt_replies rt →
  honest w0 rt → honest w0 rt'.
Proof.
  intros Hs Ec Er [H1' H2']. split.
  - intros c k cmd ok Hc. rewrite Ec. eauto using thread_honest_later.
  - intros c k cmd ok Hc. rewrite Er. eauto using committed_later.
Qed.

(** The client thread moves on. *)
Lemma honest_client w0 o rt rt' :
  sections (rt_world rt) o (rt_world rt') → rt_replies rt' = rt_replies rt →
  (∀ c k cmd ok, command_write c = Some (k, cmd, ok) →
     thread_honest w0 (rt_world rt) c cmd ok (rt_client rt) →
     thread_honest w0 (rt_world rt') c cmd ok (rt_client rt')) →
  honest w0 rt → honest w0 rt'.
Proof.
  intros Hs Er Hstep [H1' H2']. split; [eauto|].
  intros c k cmd ok Hc. rewrite Er. eauto using committed_later.
Qed.

Lemma locked_client {A} (m : proc CW A) (k : A → runtime → runtime) rt :
  (∀ a x, rt_client (k a x) = rt_client x ∧ rt_replies (k a x) = rt_replies x) →
  rt_client (locked m k rt) = rt_client rt ∧ rt_replies (locked m k rt) = rt_replies rt.
Proof. intros Hk. unfold locked. destruct (m (rt_world rt)) as [[a|] w]; [|done]. apply (Hk a (with_world w rt)). Qed.

Lemma client_honest w0 out e rt rt' :
  traced (sv_transport s) w0 out rt → client_step s e rt = Some rt' → rt_up rt' = true →
  honest w0 rt → honest w0 rt'.
Proof.
  intros HT Hstep Hup HH. destruct (client_advances _ _ _ HT _ _ Hstep Hup) as (o & Hsec & HT').
  unfold client_step in Hstep.
  destruct e as [ls| | |dl|wok], (rt_client rt) as [|ls'|r ls'|c' m resp p ls'|c' i resp ls'|c' r ls'] eqn:Ec;
    try discriminate Hstep; injection Hstep as <-.
  - apply (honest_client _ o rt); try done.
  - unfold client_reads in *. destruct (read_request ls') as [|r rest|c' rest];
      [by apply (honest_client _ o rt)..|].
    apply locked_up in Hup as ([[resp p] m] & [c0 fs0] & Hm & E). rewrite E in *.
    apply (honest_client _ o rt); try done. intros c k cmd ok Hc _. simpl in Hm |- *. intros -> ->.
    destruct (write_appended _ _ _ _ _ _ _ _ Hc Hm) as (index & -> & Hl). exists index. split; [done|].
    eexists _, (c0, fs0), [], _. split_and!; [apply (tr_sections _ _ _ _ HT')|constructor|exact Hl].
  - apply (honest_client _ o rt); try done. intros c k cmd ok Hc. rewrite Ec. simpl.
    destruct p as [index|]; simpl; intros Hp E1 E2; destruct (Hp E1 E2) as (i & Hi & Ha); [|done].
    injection Hi as ->. exact Ha.
  - unfold client_polls in *. case_bool_decide as Hle; [|destruct dl; [|done]].
    + apply (honest_client _ o rt); try done. intros c k cmd ok Hc. rewrite Ec. simpl. intros Hp E1 E2.
      exists i, out, (rt_world rt), []. split_and!; [apply HT|by apply Hp|constructor|done].
    + apply (honest_client _ o rt); try done. intros c k cmd ok Hc. rewrite Ec. simpl. intros _ _ E.
      destruct (write_reply _ _ _ _ Hc) as [_ Hto]. by rewrite E in Hto.
  - destruct wok; [|by apply (honest_client _ o rt)]. destruct HH as [H1' H2']. split; [done|]. simpl.
    intros c k cmd ok Hc [Hin|Hin]%elem_of_app; [by eapply H2'|].
    apply list_elem_of_singleton in Hin. done.
  - destruct wok; [|by apply (honest_client _ o rt)]. destruct HH as [H1' H2']. split; [done|]. simpl.
    intros c k cmd ok Hc [Hin|Hin]%elem_of_app; [by eapply H2'|].
    apply list_elem_of_singleton in Hin. injection Hin as -> ->. specialize (H1' _ _ _ _ Hc).
    rewrite Ec in H1'. by apply H1'.
Qed.

(** The threads other than the client's leave its state and the replies alone. *)
Lemma other_step e rt rt' :
  rt_step env s e rt = Some rt' → (∀ x, e ≠ ClientDoes x) →
  rt_client rt' = rt_client rt ∧ rt_replies rt' = rt_replies rt.
Proof.
  unfold rt_step. destruct (rt_up rt); [|done].
  destruct e as [e|e|k w|e|e]; intros Hstep Hne; [..|by destruct (Hne e)|]; simpl in Hstep.
  - unfold tick_step in Hstep. destruct e, (rt_tick rt); simplify_eq; [apply locked_client; by intros|done].
  - unfold listener_step in Hstep. destruct e, (rt_listener rt) as [|[|[]]|]; simplify_eq; try done.
    unfold listener_reads. repeat case_match; try done. apply locked_client; by intros.
  - unfold send_step in Hstep. destruct (rt_sends rt !! k) as [[]|]; simpl in Hstep; [|done]; by simplify_eq.
  - unfold metrics_step in Hstep. destruct e as [| |ok], (rt_metrics rt); simplify_eq; try done.
    by destruct ok.
Qed.

Lemma step_honest w0 out e rt rt' :
  traced (sv_transport s) w0 out rt → rt_step env s e rt = Some rt' → rt_up rt' = true →
  honest w0 rt → honest w0 rt'.
Proof.
  intros HT Hstep Hup HH. destruct e as [e|e|k w|e|e];
    try (destruct (step_advances _ _ _ HT _ _ Hstep Hup) as (o & Hsec & _);
         destruct (other_step _ _ _ Hstep) as [Ec Er]; [done|by apply (honest_other _ o rt)]).
  unfold rt_step in Hstep. destruct (rt_up rt); [|done]. by eapply client_honest.
Qed.

Lemma run_up es rt rt' : rt_run env s es rt = Some rt' → rt_up rt' = true → rt_up rt = true.
Proof.
  destruct es as [|e es]; simpl; [by intros [= ->]|]. unfold rt_step. by destruct (rt_up rt).
Qed.

Lemma run_traced es : ∀ w0 out rt rt',
  traced (sv_transport s) w0 out rt → honest w0 rt → rt_run env s es rt = Some rt' → rt_up rt' = true →
  ∃ out', traced (sv_transport s) w0 out' rt' ∧ honest w0 rt'.
Proof.
  induction es as [|e es IH]; intros w0 out rt rt' HT HH Hrun Hup; simpl in Hrun; [simplify_eq; eauto|].
  destruct (rt_step env s e rt) as [rt1|] eqn:Hstep; simpl in Hrun; [|done].
  pose proof (run_up _ _ _ Hrun Hup) as Hup1.
  destruct (step_advances _ _ _ HT _ _ Hstep Hup1) as (o & _ & HT1).
  eapply IH; [exact HT1|exact (step_honest _ _ _ _ _ HT Hstep Hup1 HH)|done|done].
Qed.

End refinement.

(** ** The whole server *)

Section server.
Context `{Build, StateCodec, NetCodec, Unicode} (env : string → option string).
Context (binds : string → bool) (s : Server) (fs : Fs) (rt0 : runtime).

Lemma server_transports id ps addr dir nodes fs0 :
  server_new env id ps addr dir nodes fs0 = (Done (Ok s), fs) →
  tick_transport s = sv_transport s ∧ listener_transport env s = sv_transport s ∧
  pt_node_id (sv_transport s) = sv_node_id s.
Proof.
  unfold server_new, try_bind. intros [(r & fs1 & _ & Hrun)|[_ ?]]%bind_inv; [|done].
  destruct r as [c|]; [|done]. destruct (nc_peer_port <$> _); [|done].
  unfold mret, proc_ret in Hrun. by simplify_eq.
Qed.

Lemma server_run_start t :
  server_run binds s fs = Ok rt0 →
  traced t (sv_node s, fs) [] rt0 ∧ honest (sv_node s, fs) rt0.
Proof.
  unfold server_run. destruct (binds _); [|done]. destruct (binds _); [|done]. intros [= <-]. split.
  - split; simpl; [apply sections_nil|..]; try (by intros ? ?%not_elem_of_nil); by intros ? ? ?%not_elem_of_nil.
  - split; simpl; [done|]. by intros ? ? ? ? _ ?%not_elem_of_nil.
Qed.

(** C8: the threads of a server do nothing but the sections of the cluster model.
    Start a server and let its threads, its peers, its clients and the network do
    whatever they do.  As long as the process lives, its node and disk are what a
    sequence of ticks, deliveries and commands, each run as a whole, makes of the
    state it started with; and whatever bytes reach another machine are a message
    that one of these sections returned, under this node's id, to the address of
    its receiver, cut off at worst. *)
Theorem runtime_refines_sections id ps addr dir nodes fs0 es rt :
  server_new env id ps addr dir nodes fs0 = (Done (Ok s), fs) → server_run binds s fs = Ok rt0 →
  rt_run env s es rt0 = Some rt → rt_up rt = true →
  ∃ out, sections (sv_node s, fs) out (rt_world rt) ∧
    ∀ to_addr bytes, (to_addr, bytes) ∈ rt_wire rt → ∃ m json n,
      m ∈ out ∧ peer_addresses (sv_transport s) !! pm_to m = Some to_addr ∧
      net_to_string (network_message (sv_node_id s) (pm_payload m)) = Some json ∧
      bytes = str_take n (json +:+ String LF "").
Proof.
  intros (Ht & Hl & Hid)%server_transports Hstart Hrun Hup.
  destruct (server_run_start (sv_transport s) Hstart) as [HT0 HH0].
  destruct (run_traced env s Ht Hl es _ _ _ _ HT0 HH0 Hrun Hup) as (out & HT & _).
  exists out. split; [apply HT|]. intros a bytes (n & whole & (m & Hm & Hsend) & ->)%HT.
  unfold send_messages in Hsend. simpl in Hsend.
  destruct (peer_addresses (sv_transport s) !! pm_to m) as [a'|] eqn:Ha; simpl in Hsend; [|done].
  destruct (net_to_string _) as [json|] eqn:Hj; simpl in Hsend; [|done]. simplify_eq.
  rewrite Hid in Hj. by exists m, json, n.
Qed.

(** C9: a client is told that its write succeeded only after the write was
    committed, whatever the threads do.  If a server has ever written the success
    reply of a SET or DEL to a client, then a section of its run left the command
    at some index of the node's log, and later the node's commit index had reached
    that index. *)
Theorem replies_after_commit id ps addr dir nodes fs0 es rt c k cmd ok :
  server_new env id ps addr dir nodes fs0 = (Done (Ok s), fs) → server_run binds s fs = Ok rt0 →
  rt_run env s es rt0 = Some rt → rt_up rt = true →
  command_write c = Some (k, cmd, ok) → (Some c, ok) ∈ rt_replies rt →
  committed_after (sv_node s, fs) (rt_world rt) cmd.
Proof.
  intros (Ht & Hl & _)%server_transports Hstart Hrun Hup Hc Hin.
  destruct (server_run_start (sv_transport s) Hstart) as [HT0 HH0].
  destruct (run_traced env s Ht Hl es _ _ _ _ HT0 HH0 Hrun Hup) as (out & _ & HH).
  by eapply (hn_replies _ _ HH).
Qed.

End server.

(** ** Witnesses *)

Definition no_env (x : string) : option string := None.

(** Node 1 of three, and node 1 alone, as src/main.rs starts them. *)
Definition sample_server (ps : list N) : outcome (result io_error Server) * Fs :=
  @server_new release_build _ no_env 1 ps "127.0.0.1:6381" "/tmp/raftkv-node-1" all_nodes fresh_fs.

Definition started (ps : list N) : option (Server * Fs * runtime) :=
  match sample_server ps with
  | (Done (Ok s), fs) =>
      match server_run (λ _, true) s fs with Ok rt => Some (s, fs, rt) | Err _ => None end
  | _ => None
  end.

Definition run_from (ps : list N) (es : list rt_event) : option runtime :=
  '(s, _, rt) ← started ps; @rt_run release_build _ _ ascii_only no_env s es rt.

(** Node 1 times out and asks for votes; its second request is cut after 20 bytes. *)
Definition asks_for_votes : list rt_event :=
  replicate 52 (TickDoes TickWakes) ++ [TickDoes TickSends; SendEnds 0 (Some 1000); SendEnds 0 (Some 20)].

(** Alone, it leads, and a client sets a key. *)
Definition takes_a_write : list rt_event :=
  replicate 52 (TickDoes TickWakes) ++
  [ClientDoes (ClientConnects (Some <$> lines (encode_request ["set"; "k"; "v"])));
   ClientDoes ClientReads; ClientDoes ClientSends; ClientDoes (ClientPolls false);
   ClientDoes (ClientWrites true)].

Lemma runtime_refines_sections_witness :
  ∃ s fs rt0 rt out, started [1; 2; 3]%N = Some (s, fs, rt0) ∧
    run_from [1; 2; 3]%N asks_for_votes = Some rt ∧ length (rt_wire rt) = 2 ∧
    @sections release_build _ (sv_node s, fs) out (rt_world rt).
Proof.
  destruct (started [1; 2; 3]%N) as [[[s fs] rt0]|] eqn:Es; [|vm_compute in Es; discriminate].
  destruct (run_from [1; 2; 3]%N asks_for_votes) as [rt|] eqn:Er; [|vm_compute in Er; discriminate].
  assert (Hwire : fmap (length ∘ rt_wire) (run_from [1; 2; 3]%N asks_for_votes) = Some 2)
    by (vm_compute; reflexivity).
  assert (Hup : fmap rt_up (run_from [1; 2; 3]%N asks_for_votes) = Some true)
    by (vm_compute; reflexivity).
  rewrite Er in Hwire, Hup. injection Hwire as Hwire. injection Hup as Hup.
  unfold run_from in Er. rewrite Es in Er. unfold started in Es.
  destruct (sample_server [1; 2; 3]%N) as [[[s'|]|] fs'] eqn:Enew; try discriminate.
  destruct (server_run (λ _, true) s' fs') as [rt'|] eqn:Erun; [|discriminate].
  injection Es as -> -> ->.
  destruct (@runtime_refines_sections release_build _ _ ascii_only no_env (λ _, true) s fs rt0
    1%N [1; 2; 3]%N "127.0.0.1:6381" "/tmp/raftkv-node-1" all_nodes fresh_fs asks_for_votes rt
    Enew Erun Er Hup) as (out & Hsec & _).
  exists s, fs, rt0, rt, out. split; [reflexivity|]. split; [reflexivity|]. split; [exact Hwire|exact Hsec].
Defined.

Lemma replies_after_commit_witness :
  ∃ s fs rt0 rt, started [1%N] = Some (s, fs, rt0) ∧ run_from [1%N] takes_a_write = Some rt ∧
    @committed_after release_build _ (sv_node s, fs) (rt_world rt) (Put "k" "v").
Proof.
  destruct (started [1%N]) as [[[s fs] rt0]|] eqn:Es; [|vm_compute in Es; discriminate].
  destruct (run_from [1%N] takes_a_write) as [rt|] eqn:Er; [|vm_compute in Er; discriminate].
  assert (Hrep : fmap rt_replies (run_from [1%N] takes_a_write)
    = Some [(Some (Set_ "k" "v"), SimpleString "OK")]) by (vm_compute; reflexivity).
  assert (Hup : fmap rt_up (run_from [1%N] takes_a_write) = Some true) by (vm_compute; reflexivity).
  rewrite Er in Hrep, Hup. injection Hrep as Hrep. injection Hup as Hup.
  unfold run_from in Er. rewrite Es in Er. unfold started in Es.
  destruct (sample_server [1%N]) as [[[s'|]|] fs'] eqn:Enew; try discriminate.
  destruct (server_run (λ _, true) s' fs') as [rt'|] eqn:Erun; [|discriminate].
  injection Es as -> -> ->. exists s, fs, rt0, rt. split; [reflexivity|]. split; [reflexivity|].
  apply (@replies_after_commit release_build _ _ ascii_only no_env (λ _, true) s fs rt0
    1%N [1%N] "127.0.0.1:6381" "/tmp/raftkv-node-1" all_nodes fresh_fs takes_a_write rt
    (Set_ "k" "v") "k" (Put "k" "v") (SimpleString "OK") Enew Erun Er Hup).
  - reflexivity.
  - rewrite Hrep. by left.
Defined.
